(* ===== verification/_CoqProject ===== *)
-Q . S2P
Prelude.v
GoStrings.v
Ast.v
Lex.v
Quote.v
Parse.v
Grammar.v
Format.v
FormatParse.v
Env.v
Group.v
Glob.v
Host.v
Range.v
Shard.v
Ring.v
Ram.v
RamWriter.v
Disk.v
DiskProofs.v
DiskSystem.v
DiskRestart.v
Store.v
Freshness.v
Coalesce.v
Path.v
LbRing.v
Netip.v
ProxyProto.v
Http.v
Duration.v
Float64.v
CookieJson.v
Request.v
Matcher.v
CacheKey.v
Device.v
Rules.v
Template.v
Eval.v
Credentials.v
Response.v
Compile.v
CompileTypes.v
Geo.v
Forward.v
Limiter.v
Act.v
Serve.v
ServeLogic.v
ServeProofs.v
Wire.v
ServeSystem.v
Isolation.v
ServeTheorems.v
Origins.v
Pool.v
PoolProofs.v
PoolSystem.v
PoolTheorems.v
