(* ===== verification/Prelude.v ===== *)
(** * A verification library for the cadish HTTP cache server

    ** The program

    Cadish is a caching reverse proxy written in Go. A site is described by a
    Cadishfile, which is lexed, parsed, expanded ([{$ENV}] placeholders, host
    groups) and compiled into a request pipeline of matchers and rules. At run time
    a connection may begin with a PROXY header; its request is normalised, matched,
    and looked up in a two-tier store (a sharded RAM tier in front of a sharded
    disk tier) under the verdict of a freshness index; a miss goes to an origin
    chosen by a consistent-hash ring, coalesced with concurrent misses for the
    same key, and the response is streamed into a tier while it is served.

    ** Files and what they model

    Pure Go functions are Rocq functions with the source's names. State is an
    explicit record; a function that changes it returns the new one. Fallible code
    returns [outcome E A]: a value, an error of the source's kinds, or [NoFuel],
    which marks a loop that ran out of its iteration bound and is proved
    impossible wherever the source terminates. Integers are [Z] with the source's
    width written out ([wrap64], [wrap32u]). Strings are lists of bytes.

    - Prelude: byte strings, [outcome], machine integers, shared list lemmas.
    - GoStrings: the parts of strings, utf8, unicode and strconv the code uses.
    - Ast, Lex, Parse (src/internal/cadishfile/ast.go, lex.go, parse.go): tokens,
      trees, the lexer and the recursive-descent parser.
    - Quote (format.go): quoting of words. Grammar: a declarative grammar of
      fragments and the theorems that relate the parser to it.
    - Format (format.go): the formatter, a loop over tokens with a buffer and flags,
      and the tokens of what it writes. FormatParse: a relation of token streams that
      differ in their separators, and that the parser reads related streams alike.
    - Env (env.go), Group (group.go): placeholder substitution, host groups.
    - Glob, Host (src/internal/pipeline/glob.go, cachekey.go, request.go,
      hostparts.go): path, parameter-name and host matchers.
    - Range (src/internal/server/range.go): byte ranges.
    - Shard, Ring, Ram, RamWriter (src/internal/cache/shard.go, meta.go, ram.go):
      shards, the eviction ring, the RAM tier, its bounded writer.
    - Disk, DiskProofs, DiskSystem, DiskRestart (disk.go): the disk tier over a map
      of files, with failing system calls; its runs, with resets, crashes and reopened
      directories as steps; and what a restart finds.
    - Store (router.go, cache.go, src/internal/config/cache.go): the [Tier] class,
      its two instances and the two-tier store, proved against the class.
    - Freshness (src/internal/server/freshness.go): TTL, grace, hit-for-miss, bans.
    - Coalesce (coalesce.go and its callers in handler.go): single flights.
    - Path (handler.go, src/internal/origin/httporigin): canonical paths.
    - LbRing (src/internal/lb/ring.go): the consistent-hash ring.
    - ProxyProto (src/internal/proxyproto): PROXY headers and their listener.
    - Netip (net/netip and its uses): addresses, prefixes and their text.
    - Http (net/http, net/url and net/textproto as used): headers, query escapes.
    - Duration (src/internal/pipeline/duration.go): duration literals and header
      lifetimes, with int64 wrap-around and float64 rounding; the [Platform] class.
    - Float64: what rounding can add to sums, differences, products and quotients of
      [SpecFloat], and that its comparisons are exact.
    - CookieJson (cookie_json.go): JSON paths over a streaming JSON decoder.
    - Request, Matcher (request.go, matcher.go, classify.go, normalize.go,
      tenant.go): requests and matchers. A [*matcher] is an index of a heap, so
      sharing and memo slots are as in the source. Rules are evaluated by programs
      of type [prog]: a tree that asks for matchers and continues with their answer;
      [run] interprets it with the memo of a matchContext, [pure] without.
    - CacheKey (cachekey.go): recipes, tokens and the rendered key.
    - Device (src/internal/classify): device classes and the device_detect block.
    - Rules (rules and the pipeline record of compile.go): selectors, scopes, the
      numbering of matchers.
    - Template (template.go, redirect.go, rewrite.go): templates, redirects, rewrites.
    - Eval (pipeline.go, secgate.go, ratelimit.go, header.go): EvalSecurity,
      EvalRequest, EvalDeliver and EvalOnError.
    - Credentials, Response (pipeline.go): derived cookies, the credential bypass,
      EvalResponse and the shareability of a response.
    - Compile (compile.go and the compile functions of the files above, edge.go,
      src/internal/cadishfile/registry.go): a compile monad over the heap, both
      passes over a site and the final checks. CompileTypes: a type system for its
      result, one typing lemma per compiler.
    - Geo (src/internal/geo), Forward (header functions of src/internal/server/
      handler.go, encode.go, transform.go, upgrade.go): the client's address and geo
      classes; what is forwarded; validators, CORS, encoding.
    - Limiter (src/internal/ratelimit): token buckets over a class [Num] of numbers,
      with float64 and the exact rationals as instances; the admission theorem is about
      float64.
    - Act: the effects of a handler (index, store, limiter, origin, peer, client) and
      the programs over them; a [statusRecorder] and the request are the state.
    - Serve (handler.go, server.go, cluster.go, tee.go, encode_variant.go,
      upgrade.go): ServeHTTP and all it calls, one definition per block of the source.
      The health of the pools is an effect, read anew for every evaluation of the
      pipeline, as the closure the source injects reads it; within one evaluation it
      is one view.
    - ServeLogic: weakest preconditions of such programs under a policy of effects.
      ServeProofs: the policy that every handler and every background refresh obeys.
    - Wire: requests as a client can send them, and that their keys hold no NUL.
    - ServeSystem: any number of handlers and refreshes of a site interleaved at
      every effect, over a store of committed objects. Isolation: its theorem.
    - ServeTheorems: the gate, and a failed write.
    - Origins (src/internal/origin: origin.go, httporigin, chain, peerorigin): a fetch
      from a server, a chain or the peers, as a program over effects in which bodies
      have identities; the logics of who closes a body and of how often a request is
      sent, and the classes [Closes] and [SendsOnce] that an origin implements.
    - Pool (src/internal/lb: upstream.go, health.go, snapshot.go): health, selection,
      failover and accounting of a pool, over the same effects. PoolProofs: failover,
      and the contract of any tree of origins.
    - PoolSystem: the state of a pool, reconciliation, and fetches, probes and
      reconciliations interleaved at every effect. PoolTheorems: its invariant.
    ** What the theorems show

    - Configuration: lexing and parsing terminate with a result or a positioned
      error; the fragment parser accepts exactly a declarative grammar; nesting is
      bounded; quoted words survive re-lexing; a formatted file parses to the same
      syntax and comments and is its own formatted version, under stated conditions;
      expansion of groups implements its specification.
    - Matching: compiled path and host sets accept exactly what their patterns
      describe; the path that rules match is the path the origin is asked for.
    - Cache: byte accounting is exact and within budget under every operation,
      fault and interleaving; objects are stored whole or not at all; a key lives in
      one tier; a clean restart restores the tier; the freshness index answers like
      one that never forgets, up to its cap on bans.
    - Concurrency: components are step relations whose steps are the critical
      sections of the source, so a theorem about reachable states covers every
      interleaving (in-flight budget, coalescing, background revalidation, handlers).
    - Network: PROXY headers round-trip, are delimited exactly and cannot be forged;
      the ring sends a key to the closest eligible backend and keeps it there, in
      whatever order its backends are listed, unless virtual nodes collide.
    - Pipeline: a site compiles in finitely many steps to a well-typed pipeline or a
      positioned error; request-time and store-time decisions agree unless they depend on the health of a
      pool; the memo of
      matcher results is invisible; requests that share an entry share their
      credentials and every header the response varies on; a stored response is safe
      for a shared cache; redirects stay on the site; the gate's order is allow, deny,
      rate limit; what is forwarded to an origin depends only on keyed classes.
    - Serving: whatever runs concurrently, what is read from the store for a request
      was made by a request with the same key and credentials; a refused request
      touches neither cache nor origin; a client cannot choose its address or what the
      origin is told about it; a key is admitted at no more than its rate, up to float64
      rounding, and the
      time a refused client is told to wait is enough.
    - Origins and pools: a body is handed on or closed exactly once by servers and
      their chains, and a request with a body is sent once by all of them; a pool reaches a backend that
      answers as long as there is one; its counters are exact under every interleaving;
      a new resolution keeps the backends that stay; health follows the last probes.
      The fuel of a fetch is the number of attempts; one more than there are backends
      is enough, since a backend is tried once.
    Some theorems record behaviour that differs from a comment of the source or
    that is a defect: a reload that makes eviction loop, versions mixed by a crash,
    a ban resurrected by the cap on the ban list, a failed write answered from the
    cache, files that formatting changes, and the examples of Store.

    ** Bounds and fuel

    Lexer and parser loops take the length of what remains as fuel; eviction takes
    the ring's length and its reference bits; the ring's collision loop takes the
    number of taken points. The theorems show each is enough. Byte budgets below
    2^62, windows below 2^61 ns and at most 2^32 ring points keep the sums of the
    source inside their widths.

    ** Parameters

    Digests (sha256, md5), the non-ASCII lower-case table, the textual IPv6 parser
    and the membership test of trusted prefixes are arguments of the definitions
    that use them. Clock readings, results of system calls and the outcome of an
    origin fetch are inputs of each step.

    ** Not modelled

    Listeners, TLS and ACME, Kubernetes, metrics, tracing, logs and the audit file; body
    size limits, idle timeouts and panic recovery of the handler; the upgrade tunnel
    after it is established; reloads and the assembly of sites from a configuration;
    name resolution, probe requests and timers of a pool, its configuration, peer
    discovery; the S3 client; MaxMind databases; the static checker, the VCL converter
    and the edge projection. These are I/O around the modelled code, or tools beside it.
    Regular expressions, strconv.ParseFloat and the textual IPv6 parser are fields of
    the class [GoLib]; the codecs, HTTP dates and the hash of a key in a header are
    fields of the record [handler]. *)

From stdpp Require Import base strings pretty numbers gmap list.
From Stdlib Require Export Ascii.
From Stdlib Require Import Lia.

(** ** Byte strings

    A Go [string] (or a [[]byte] that is only read) is a sequence of bytes.
    It is modelled as a list of [ascii], so that the list library applies;
    [go "text"] is the literal. *)

Abbreviation bytes := (list ascii).

Definition go (s : string) : bytes := String.list_ascii_of_string s.
Arguments go s%_string.

(** The numeric value of a byte and the byte of a number (modulo 256). *)
Definition byteZ (c : ascii) : Z := Z.of_N (N_of_ascii c).
Definition Zbyte (z : Z) : ascii := ascii_of_N (Z.to_N (z mod 256)).

Declare Scope byte_scope.
Delimit Scope byte_scope with byte.
Notation "a =b b" := (Ascii.eqb a%char b%char) (at level 70, no associativity) : byte_scope.
Open Scope byte_scope.

(** ** Outcomes

    The result of code that can fail, written by structural recursion on a
    fuel argument: [Ok] a value, [Err] a Go error, [NoFuel] when the fuel of
    the model (not of the program) ran out.  Every component proves that the
    fuel it starts its loops with is never exhausted. *)

Inductive outcome (E A : Type) : Type :=
| Ok (a : A)
| Err (e : E)
| NoFuel.
Arguments Ok {E A} a.
Arguments Err {E A} e.
Arguments NoFuel {E A}.

Definition obind {E A B} (m : outcome E A) (k : A -> outcome E B) : outcome E B :=
  match m with
  | Ok a => k a
  | Err e => Err e
  | NoFuel => NoFuel
  end.

Declare Scope outcome_scope.
Delimit Scope outcome_scope with outcome.
Notation "'let!' x ':=' m 'in' k" := (obind m (fun x => k))
  (at level 10, x pattern, m at level 100, k at level 200) : outcome_scope.
Open Scope outcome_scope.

Lemma obind_Ok_inv {E A B} (m : outcome E A) (k : A -> outcome E B) b :
  obind m k = Ok b -> exists a, m = Ok a /\ k a = Ok b.
Proof. destruct m; simpl; intros; try discriminate; eauto. Qed.

Lemma obind_NoFuel_inv {E A B} (m : outcome E A) (k : A -> outcome E B) :
  obind m k = NoFuel -> m = NoFuel \/ exists a, m = Ok a /\ k a = NoFuel.
Proof. destruct m; simpl; intros; try discriminate; eauto. Qed.

(** Inverts every [obind ... = Ok _] of the context. *)
Ltac inv_obind :=
  repeat match goal with
  | H : obind _ _ = Ok _ |- _ =>
      let a := fresh "a" in let Ha := fresh "Ha" in
      apply obind_Ok_inv in H; destruct H as (a & Ha & H)
  end.

(** Case analysis on the scrutinee of the first [if] or [match] of a
    hypothesis, remembering the equation. *)
Ltac case_hyp H :=
  match type of H with
  | context [if ?b then _ else _] => destruct b eqn:?
  | context [match ?x with _ => _ end] => destruct x eqn:?
  end.

Ltac case_goal :=
  match goal with
  | |- context [if ?b then _ else _] => destruct b eqn:?
  | |- context [match ?x with _ => _ end] => destruct x eqn:?
  end.

(** ** Machine integers

    Go's [int64] (and [int] on the supported 64-bit targets) wraps around. *)

Definition int64_min : Z := (-9223372036854775808)%Z.
Definition int64_max : Z := 9223372036854775807%Z.
Definition wrap64 (z : Z) : Z := ((z + 2 ^ 63) mod 2 ^ 64 - 2 ^ 63)%Z.
Definition wrap32u (z : Z) : Z := (z mod 2 ^ 32)%Z.
Definition in_int64 (z : Z) : Prop := (int64_min <= z <= int64_max)%Z.

Lemma wrap64_id z : in_int64 z -> wrap64 z = z.
Proof.
  unfold in_int64, wrap64, int64_min, int64_max. intros ?.
  rewrite Z.mod_small; lia.
Qed.

Lemma wrap64_range z : in_int64 (wrap64 z).
Proof.
  unfold in_int64, wrap64, int64_min, int64_max.
  pose proof (Z.mod_pos_bound (z + 2 ^ 63) (2 ^ 64)) as H. lia.
Qed.

Lemma wrap64_small z : (- 2 ^ 63 <= z < 2 ^ 63)%Z -> wrap64 z = z.
Proof. intros H. apply wrap64_id. unfold in_int64, int64_min, int64_max. lia. Qed.

(** Remove the [wrap64]s that [lia] shows to be in range, innermost first. *)
Ltac unwrap64 :=
  repeat match goal with
  | |- context [wrap64 ?z] =>
      lazymatch z with
      | context [wrap64 _] => fail
      | _ => rewrite (wrap64_small z) by lia
      end
  end.

Create HintDb cadish.
#[export] Hint Resolve wrap64_range : cadish.

(** ** Bytes and numbers *)

Lemma byteZ_range c : (0 <= byteZ c < 256)%Z.
Proof.
  unfold byteZ. pose proof (N_ascii_bounded c). lia.
Qed.

Lemma byteZ_Zbyte z : (0 <= z < 256)%Z -> byteZ (Zbyte z) = z.
Proof.
  intros H. unfold byteZ, Zbyte. rewrite Z.mod_small by lia.
  rewrite N_ascii_embedding; lia.
Qed.

Lemma Zbyte_byteZ c : Zbyte (byteZ c) = c.
Proof.
  unfold Zbyte. pose proof (byteZ_range c). rewrite Z.mod_small by lia.
  unfold byteZ. rewrite N2Z.id. apply ascii_N_embedding.
Qed.

Lemma byteZ_inj a b : byteZ a = byteZ b -> a = b.
Proof. intros H. rewrite <- (Zbyte_byteZ a), <- (Zbyte_byteZ b). congruence. Qed.

(** A property of every byte is a finite check. *)
Definition allBytes : list ascii := map (fun n => ascii_of_N (N.of_nat n)) (seq 0 256).

Lemma allBytes_all c : c ∈ allBytes.
Proof.
  unfold allBytes. apply list_elem_of_In, in_map_iff. exists (N.to_nat (N_of_ascii c)). split.
  - by rewrite N2Nat.id, ascii_N_embedding.
  - apply in_seq. pose proof (N_ascii_bounded c). lia.
Qed.

Lemma forall_byte (f : ascii -> bool) : forallb f allBytes = true -> forall c, f c = true.
Proof. intros H c. rewrite forallb_forall in H. apply H, list_elem_of_In, allBytes_all. Qed.

Lemma eqb_byteZ a b : (a =b b) = (byteZ a =? byteZ b)%Z.
Proof.
  destruct (Ascii.eqb_spec a b) as [->|Hne].
  - by rewrite Z.eqb_refl.
  - symmetry. apply Z.eqb_neq. intros H. by apply Hne, byteZ_inj.
Qed.

(** ** Lists *)

Lemma drop_app_cons {A} (u v : list A) (c : A) : drop (S (length u)) (u ++ c :: v) = v.
Proof. induction u as [|x u IH]; simpl; [apply drop_0|exact IH]. Qed.

Lemma map_insert {A B} (f : A -> B) (l : list A) i x : map f (<[i := x]> l) = <[i := f x]> (map f l).
Proof. exact (list_fmap_insert f l i x). Qed.

Lemma map_lookup {A B} (f : A -> B) (l : list A) i : map f l !! i = f <$> l !! i.
Proof. exact (list_lookup_fmap f l i). Qed.

Lemma drop_length_lt {A} (n : nat) (l : list A) :
  (0 < n)%nat -> l <> [] -> (length (drop n l) < length l)%nat.
Proof. rewrite length_drop. destruct l; simpl; [congruence|lia]. Qed.

Fixpoint sumZ {A} (f : A -> Z) (l : list A) : Z :=
  match l with
  | [] => 0%Z
  | x :: l' => (f x + sumZ f l')%Z
  end.

Lemma sumZ_app {A} (f : A -> Z) l1 l2 : sumZ f (l1 ++ l2) = (sumZ f l1 + sumZ f l2)%Z.
Proof. induction l1; simpl; lia. Qed.

Lemma sumZ_perm {A} (f : A -> Z) l1 l2 : Permutation l1 l2 -> sumZ f l1 = sumZ f l2.
Proof. induction 1; simpl; lia. Qed.

Lemma sumZ_ext {A} (f g : A -> Z) l :
  (forall x, x ∈ l -> f x = g x) -> sumZ f l = sumZ g l.
Proof.
  induction l as [|x l IH]; intros H; simpl; [done|].
  rewrite IH, (H x); [done|set_solver|]. intros y ?. apply H. set_solver.
Qed.

Lemma sumZ_nonneg {A} (f : A -> Z) l : (forall x, 0 <= f x)%Z -> (0 <= sumZ f l)%Z.
Proof. intros H. induction l as [|x l IH]; simpl; [lia|]. specialize (H x). lia. Qed.

Lemma sumZ_insert {A} (f : A -> Z) l i x x' :
  l !! i = Some x -> sumZ f (<[i := x']> l) = (sumZ f l + f x' - f x)%Z.
Proof.
  revert i. induction l as [|y l IH]; intros [|i] H; simpl in *; simplify_eq; [lia|]. rewrite IH by done. lia.
Qed.

Lemma sumZ_elem_le {A} (f : A -> Z) l i x :
  Forall (fun y => 0 <= f y)%Z l -> l !! i = Some x -> (f x <= sumZ f l)%Z.
Proof.
  intros H. revert i. induction H as [|y l Hy Hl IH]; intros [|i] Hi; simpl in *; simplify_eq.
  - enough (0 <= sumZ f l)%Z by lia. clear -Hl. induction Hl; simpl; lia.
  - specialize (IH _ Hi). lia.
Qed.

(** A wrapping sum of counters that stays in range is the sum. *)
Lemma fold_wrap64_sum {A} (f : A -> Z) l acc :
  (Forall (fun x => 0 <= f x) l -> 0 <= acc -> acc + sumZ f l < 2 ^ 62 ->
   fold_left (fun n x => wrap64 (n + f x)) l acc = acc + sumZ f l)%Z.
Proof.
  intros H. revert acc. induction H as [|x l Hx Hl IH]; intros acc H0 Hb; cbn [fold_left sumZ] in *; [lia|].
  assert (0 <= sumZ f l)%Z as Hn by (clear -Hl; induction Hl; simpl; lia).
  rewrite wrap64_small by lia. rewrite IH by lia. lia.
Qed.
