(* ===== verification/GoStrings.v ===== *)
(** * The parts of Go's [strings], [unicode/utf8] and [strconv] that cadish uses

    The standard library is modelled on byte lists: UTF-8 decoding and
    encoding, prefix and suffix tests, searching, splitting, trimming and
    decimal integers.  The lemmas are the algebra the components rely on. *)

From stdpp Require Import base strings pretty numbers gmap list.
From S2P Require Import Prelude.
Open Scope Z_scope.

(** ** UTF-8 *)

Definition RuneError : Z := 0xFFFD.

Definition is_cont (b : Z) : bool := (0x80 <=? b) && (b <=? 0xBF).

(** [utf8.DecodeRuneInString] on a non-empty string: the rune and its width.
    An invalid or truncated sequence decodes to [RuneError] of width 1. *)
Definition decode2 (x0 : Z) (r : bytes) : Z * nat :=
  match r with
  | b1 :: _ =>
      if is_cont (byteZ b1) then ((x0 - 0xC0) * 64 + (byteZ b1 - 0x80), 2%nat)
      else (RuneError, 1%nat)
  | _ => (RuneError, 1%nat)
  end.

Definition decode3 (x0 lo hi : Z) (r : bytes) : Z * nat :=
  match r with
  | b1 :: b2 :: _ =>
      if (lo <=? byteZ b1) && (byteZ b1 <=? hi) && is_cont (byteZ b2)
      then ((x0 - 0xE0) * 4096 + (byteZ b1 - 0x80) * 64 + (byteZ b2 - 0x80), 3%nat)
      else (RuneError, 1%nat)
  | _ => (RuneError, 1%nat)
  end.

Definition decode4 (x0 lo hi : Z) (r : bytes) : Z * nat :=
  match r with
  | b1 :: b2 :: b3 :: _ =>
      if (lo <=? byteZ b1) && (byteZ b1 <=? hi) && is_cont (byteZ b2) && is_cont (byteZ b3)
      then ((x0 - 0xF0) * 262144 + (byteZ b1 - 0x80) * 4096
            + (byteZ b2 - 0x80) * 64 + (byteZ b3 - 0x80), 4%nat)
      else (RuneError, 1%nat)
  | _ => (RuneError, 1%nat)
  end.

Definition decodeRune (s : bytes) : Z * nat :=
  match s with
  | [] => (RuneError, 0%nat)
  | b0 :: r =>
      let x0 := byteZ b0 in
      if x0 <? 0x80 then (x0, 1%nat)
      else if x0 <? 0xC2 then (RuneError, 1%nat)
      else if x0 <? 0xE0 then decode2 x0 r
      else if x0 <? 0xF0 then
        decode3 x0 (if x0 =? 0xE0 then 0xA0 else 0x80) (if x0 =? 0xED then 0x9F else 0xBF) r
      else if x0 <? 0xF5 then
        decode4 x0 (if x0 =? 0xF0 then 0x90 else 0x80) (if x0 =? 0xF4 then 0x8F else 0xBF) r
      else (RuneError, 1%nat)
  end.

(** [utf8.AppendRune] / [strings.Builder.WriteRune]. *)
Definition encodeRune (r : Z) : bytes :=
  if (0 <=? r) && (r <? 0x80) then [Zbyte r]
  else if (0 <=? r) && (r <? 0x800) then [Zbyte (0xC0 + r / 64); Zbyte (0x80 + r mod 64)]
  else if (r <? 0) || (0x10FFFF <? r) || ((0xD800 <=? r) && (r <=? 0xDFFF)) then
    [Zbyte 0xEF; Zbyte 0xBF; Zbyte 0xBD]
  else if r <? 0x10000 then
    [Zbyte (0xE0 + r / 4096); Zbyte (0x80 + (r / 64) mod 64); Zbyte (0x80 + r mod 64)]
  else [Zbyte (0xF0 + r / 262144); Zbyte (0x80 + (r / 4096) mod 64);
        Zbyte (0x80 + (r / 64) mod 64); Zbyte (0x80 + r mod 64)].

Definition valid_rune (r : Z) : Prop :=
  (0 <= r < 0xD800) \/ (0xE000 <= r <= 0x10FFFF).

(** Valid UTF-8: a concatenation of encoded runes. *)
Inductive utf8 : bytes -> Prop :=
| utf8_nil : utf8 []
| utf8_cons r s : valid_rune r -> utf8 s -> utf8 (encodeRune r ++ s).

(** Boolean rune tests of the code appear as [Z] comparisons; this tactic
    splits them all and leaves linear arithmetic. *)
Ltac zcases :=
  repeat (case_match || match goal with
  | H : andb _ _ = true |- _ => apply andb_true_iff in H as [? ?]
  | H : orb _ _ = false |- _ => apply orb_false_iff in H as [? ?]
  | H : andb _ _ = false |- _ => apply andb_false_iff in H as [?|?]
  | H : orb _ _ = true |- _ => apply orb_true_iff in H as [?|?]
  | H : (_ <? _) = true |- _ => apply Z.ltb_lt in H
  | H : (_ <? _) = false |- _ => apply Z.ltb_ge in H
  | H : (_ <=? _) = true |- _ => apply Z.leb_le in H
  | H : (_ <=? _) = false |- _ => apply Z.leb_gt in H
  | H : (_ =? _) = true |- _ => apply Z.eqb_eq in H
  | H : (_ =? _) = false |- _ => apply Z.eqb_neq in H
  end).

(** Linear arithmetic with division and modulo by constants. *)
Ltac dlia := Z.div_mod_to_equations; lia.

Lemma decodeRune_width s :
  s <> [] -> (1 <= snd (decodeRune s))%nat /\ (snd (decodeRune s) <= length s)%nat.
Proof.
  destruct s as [|b0 r]; [congruence|intros _].
  unfold decodeRune, decode2, decode3, decode4, is_cont.
  destruct r as [|b1 [|b2 [|b3 r]]]; simpl; repeat case_match; simpl; lia.
Qed.

Lemma decodeRune_ascii b0 s :
  byteZ b0 < 0x80 -> decodeRune (b0 :: s) = (byteZ b0, 1%nat).
Proof. intros H. unfold decodeRune. by rewrite (proj2 (Z.ltb_lt _ _) H). Qed.

(** A rune below 0x80 is decoded only from its own byte. *)
Lemma decodeRune_small s :
  fst (decodeRune s) < 0x80 -> s <> [] ->
  exists b0 r, s = b0 :: r /\ byteZ b0 = fst (decodeRune s) /\ snd (decodeRune s) = 1%nat.
Proof.
  destruct s as [|b0 r]; [congruence|intros H _].
  exists b0, r. split; [done|]. revert H.
  unfold decodeRune, decode2, decode3, decode4, is_cont, RuneError.
  destruct r as [|b1 [|b2 [|b3 r]]]; simpl; zcases; simpl; intros; split; try lia; try done.
Qed.

(** Every byte of a multi-byte or invalid sequence is at least 0x80. *)
Lemma decodeRune_high s :
  0x80 <= fst (decodeRune s) ->
  Forall (fun b => 0x80 <= byteZ b) (take (snd (decodeRune s)) s).
Proof.
  unfold decodeRune, decode2, decode3, decode4, is_cont, RuneError.
  destruct s as [|b0 r]; [constructor|].
  destruct r as [|b1 [|b2 [|b3 r]]]; simpl; zcases; simpl; intros; repeat constructor; lia.
Qed.

Lemma encodeRune_nonempty r : encodeRune r <> [].
Proof. unfold encodeRune. by repeat case_match. Qed.

Lemma encodeRune_ascii r : 0 <= r < 0x80 -> encodeRune r = [Zbyte r].
Proof. intros ?. unfold encodeRune. zcases; try done; lia. Qed.

Lemma encodeRune_byte b : byteZ b < 0x80 -> encodeRune (byteZ b) = [b].
Proof.
  intros ?. pose proof (byteZ_range b). rewrite encodeRune_ascii by lia. by rewrite Zbyte_byteZ.
Qed.

(** Every byte of a multi-byte encoding is at least 0x80. *)
Lemma encodeRune_high r : 0x80 <= r -> Forall (fun b => 0x80 <= byteZ b) (encodeRune r).
Proof.
  intros ?. unfold encodeRune. zcases; try lia;
    repeat constructor; rewrite byteZ_Zbyte by dlia; dlia.
Qed.

(** Encoding a valid rune and decoding it is the identity. *)
Lemma decode_encode r s :
  valid_rune r -> decodeRune (encodeRune r ++ s) = (r, length (encodeRune r)).
Proof.
  unfold valid_rune. intros Hv. unfold encodeRune.
  zcases; try lia; simpl; rewrite ?byteZ_Zbyte by dlia; unfold is_cont; zcases;
    try dlia; f_equal; dlia.
Qed.

(** ** Prefixes and suffixes *)

Definition HasPrefix (s p : bytes) : bool := bool_decide (take (length p) s = p).
Definition HasSuffix (s p : bytes) : bool :=
  bool_decide (drop (length s - length p) s = p /\ (length p <= length s)%nat).
Definition TrimPrefix (s p : bytes) : bytes := if HasPrefix s p then drop (length p) s else s.
Definition TrimSuffix (s p : bytes) : bytes :=
  if HasSuffix s p then take (length s - length p) s else s.

Lemma HasPrefix_spec s p : HasPrefix s p = true <-> exists t, s = p ++ t.
Proof.
  unfold HasPrefix. rewrite bool_decide_eq_true. split.
  - intros H. exists (drop (length p) s). rewrite <- H at 1. by rewrite take_drop.
  - intros [t ->]. by rewrite take_app_length.
Qed.

Lemma HasSuffix_spec s p : HasSuffix s p = true <-> exists t, s = t ++ p.
Proof.
  unfold HasSuffix. rewrite bool_decide_eq_true. split.
  - intros [H Hl]. exists (take (length s - length p) s). rewrite <- H at 2. by rewrite take_drop.
  - intros [t ->]. rewrite length_app. split; [|lia].
    replace (length t + length p - length p)%nat with (length t) by lia. by rewrite drop_app_length.
Qed.

Lemma HasPrefix_cons c s p : HasPrefix s (c :: p) = true ->
  exists s', s = c :: s' /\ HasPrefix s' p = true.
Proof.
  rewrite HasPrefix_spec. intros [t ->]. exists (p ++ t). split; [done|].
  apply HasPrefix_spec. eauto.
Qed.

(** ** Searching *)

(** [strings.IndexByte]: the index of the first occurrence, or none. *)
Fixpoint IndexByte (s : bytes) (c : ascii) : option nat :=
  match s with
  | [] => None
  | b :: r => if b =b c then Some 0%nat else S <$> IndexByte r c
  end.

(** [strings.Index]. *)
Fixpoint Index (s p : bytes) : option nat :=
  if HasPrefix s p then Some 0%nat
  else match s with
       | [] => None
       | _ :: r => S <$> Index r p
       end.

Definition Contains (s p : bytes) : bool :=
  match Index s p with Some _ => true | None => false end.

(** [strings.LastIndexByte]. *)
Fixpoint LastIndexByte (s : bytes) (c : ascii) : option nat :=
  match s with
  | [] => None
  | b :: r =>
      match LastIndexByte r c with
      | Some i => Some (S i)
      | None => if b =b c then Some 0%nat else None
      end
  end.

(** [strings.IndexAny] for an ASCII set of characters. *)
Fixpoint IndexAny (s cs : bytes) : option nat :=
  match s with
  | [] => None
  | b :: r => if existsb (Ascii.eqb b) cs then Some 0%nat else S <$> IndexAny r cs
  end.

Lemma IndexAny_None s cs c : IndexAny s cs = None -> c ∈ cs -> c ∉ s.
Proof.
  intros Hi Hc. induction s as [|b s IH]; [by apply not_elem_of_nil|]. cbn in Hi.
  destruct (existsb (Ascii.eqb b) cs) eqn:E; [done|]. destruct (IndexAny s cs); [done|].
  apply not_elem_of_cons. split; [|by apply IH]. intros ->. rewrite <- not_true_iff_false, existsb_exists in E. apply E.
  exists b. split; [by apply list_elem_of_In|apply Ascii.eqb_refl].
Qed.

Lemma IndexByte_Some s c i :
  IndexByte s c = Some i -> exists p q, s = p ++ c :: q /\ length p = i /\ c ∉ p.
Proof.
  revert i. induction s as [|b s IH]; intros i H; simpl in H; [done|].
  destruct (Ascii.eqb_spec b c) as [->|Hne].
  - injection H as <-. exists [], s. split_and!; try done. apply not_elem_of_nil.
  - destruct (IndexByte s c) as [j|] eqn:Ej; simpl in H; [|done]. injection H as <-.
    destruct (IH j eq_refl) as (p & q & -> & <- & Hp). exists (b :: p), q.
    split_and!; try done. apply not_elem_of_cons. auto.
Qed.

Lemma IndexByte_app p c q : c ∉ p -> IndexByte (p ++ c :: q) c = Some (length p).
Proof.
  induction p as [|x p IH]; intros H; simpl; [by rewrite Ascii.eqb_refl|].
  rewrite not_elem_of_cons in H. destruct H as [H1 H2].
  destruct (Ascii.eqb_spec x c); [congruence|]. by rewrite IH.
Qed.

Lemma IndexByte_None s c : IndexByte s c = None <-> c ∉ s.
Proof.
  induction s as [|b s IH]; simpl.
  - split; [intros _; apply not_elem_of_nil|done].
  - rewrite not_elem_of_cons. destruct (Ascii.eqb_spec b c) as [->|Hne].
    + split; [done|]. intros [? _]. done.
    + rewrite <- IH. destruct (IndexByte s c); simpl; intuition congruence.
Qed.

(** [Index] finds the leftmost occurrence. *)
Lemma Index_Some s p i :
  Index s p = Some i ->
  exists u v, s = u ++ p ++ v /\ length u = i /\
    (forall u' v', s = u' ++ p ++ v' -> (length u <= length u')%nat).
Proof.
  revert i. induction s as [|b s IH]; intros i H; simpl in H.
  - destruct (HasPrefix [] p) eqn:E; [|done]. injection H as <-.
    apply HasPrefix_spec in E as [t E]. exists [], t. split_and!; [done|done|simpl; lia].
  - destruct (HasPrefix (b :: s) p) eqn:E.
    + injection H as <-. apply HasPrefix_spec in E as [t E].
      exists [], t. split_and!; [done|done|simpl; lia].
    + destruct (Index s p) as [j|] eqn:Ej; simpl in H; [|done]. injection H as <-.
      destruct (IH j eq_refl) as (u & v & -> & <- & Hmin).
      exists (b :: u), v. split_and!; [done|done|].
      intros [|b' u'] v' Heq.
      * exfalso. apply not_true_iff_false in E. apply E, HasPrefix_spec. eauto.
      * injection Heq as _ Heq. apply Hmin in Heq. simpl. lia.
Qed.

Lemma Index_None s p : Index s p = None -> forall u v, s <> u ++ p ++ v.
Proof.
  induction s as [|b s IH]; intros H u v Heq; simpl in H.
  - destruct (HasPrefix [] p) eqn:E; [done|]. apply not_true_iff_false in E. apply E, HasPrefix_spec.
    symmetry in Heq. apply app_eq_nil in Heq as [_ Heq]. eauto.
  - destruct (HasPrefix (b :: s) p) eqn:E; [done|].
    destruct (Index s p) eqn:Ej; [done|].
    destruct u as [|b' u]; simpl in Heq.
    + apply not_true_iff_false in E. apply E, HasPrefix_spec. eauto.
    + injection Heq as _ Heq. by eapply IH.
Qed.

(** ** Splitting and joining *)

(** [strings.Split] with a one-byte separator. *)
Fixpoint SplitByte (s : bytes) (sep : ascii) : list bytes :=
  match s with
  | [] => [[]]
  | c :: r =>
      if c =b sep then [] :: SplitByte r sep
      else match SplitByte r sep with
           | [] => [[c]]
           | p :: ps => (c :: p) :: ps
           end
  end.

(** [strings.Join]. *)
Fixpoint Join (ps : list bytes) (sep : bytes) : bytes :=
  match ps with
  | [] => []
  | [p] => p
  | p :: ps' => p ++ sep ++ Join ps' sep
  end.

(** [strings.Count] of one byte. *)
Fixpoint CountByte (s : bytes) (c : ascii) : nat :=
  match s with
  | [] => 0%nat
  | b :: r => ((if b =b c then 1 else 0) + CountByte r c)%nat
  end.

Lemma SplitByte_nonempty s sep : SplitByte s sep <> [].
Proof. destruct s as [|c r]; simpl; [done|]. repeat case_match; done. Qed.

Lemma Join_cons p ps sep : ps <> [] -> Join (p :: ps) sep = p ++ sep ++ Join ps sep.
Proof. destruct ps; done. Qed.

Lemma Join_SplitByte s sep : Join (SplitByte s sep) [sep] = s.
Proof.
  induction s as [|c r IH]; simpl; [done|].
  destruct (Ascii.eqb_spec c sep) as [->|Hne].
  - rewrite Join_cons by apply SplitByte_nonempty. simpl. by rewrite IH.
  - pose proof (SplitByte_nonempty r sep). destruct (SplitByte r sep) as [|p ps] eqn:E; [done|].
    destruct ps as [|q ps]; [by simpl in *; rewrite IH|].
    rewrite Join_cons in * by done. simpl in *. by rewrite IH.
Qed.

Lemma SplitByte_no_sep s sep : Forall (fun p => sep ∉ p) (SplitByte s sep).
Proof.
  induction s as [|c r IH]; simpl.
  - repeat constructor. apply not_elem_of_nil.
  - destruct (Ascii.eqb_spec c sep) as [->|Hne].
    + constructor; [apply not_elem_of_nil|done].
    + destruct (SplitByte r sep) as [|p ps]; repeat constructor.
      * apply not_elem_of_cons. split; [auto|apply not_elem_of_nil].
      * inversion IH; subst. apply not_elem_of_cons. auto.
      * by inversion IH.
Qed.

Lemma SplitByte_single s sep : sep ∉ s -> SplitByte s sep = [s].
Proof.
  induction s as [|c r IH]; [done|]. intros [Hc Hr]%not_elem_of_cons. simpl. rewrite (IH Hr).
  destruct (Ascii.eqb_spec c sep) as [->|]; done.
Qed.

Lemma SplitByte_sep a b sep : SplitByte (a ++ sep :: b) sep = SplitByte a sep ++ SplitByte b sep.
Proof.
  induction a as [|c a IH]; simpl; [by rewrite Ascii.eqb_refl|]. rewrite IH.
  destruct (Ascii.eqb_spec c sep) as [->|]; [done|].
  pose proof (SplitByte_nonempty a sep). by destruct (SplitByte a sep).
Qed.

Lemma Join_app ps qs sep :
  ps <> [] -> qs <> [] -> Join (ps ++ qs) sep = Join ps sep ++ sep ++ Join qs sep.
Proof.
  intros Hp Hq. induction ps as [|p ps IH]; [done|]. destruct ps as [|p' ps].
  - destruct qs; done.
  - change ((p :: p' :: ps) ++ qs) with (p :: (p' :: ps) ++ qs). rewrite !Join_cons by done.
    rewrite IH by done. by rewrite <- !app_assoc.
Qed.

Lemma Join_nonempty ps sep : ps <> [] -> Forall (fun p => p <> []) ps -> Join ps sep <> [].
Proof.
  intros Hne H. destruct H as [|p ps Hp _]; [done|]. destruct ps as [|q ps]; simpl; [done|].
  destruct p; done.
Qed.

Lemma Join_elem c ps sep : c ∈ Join ps sep -> c ∈ sep \/ exists p, p ∈ ps /\ c ∈ p.
Proof.
  induction ps as [|p ps IH]; [by intros ?%elem_of_nil|]. destruct ps as [|q ps].
  - intros H. right. exists p. split; [by left|done].
  - rewrite Join_cons by done. rewrite !elem_of_app. intros [H|[H|H]]; [right|by left|].
    + exists p. split; [by left|done].
    + destruct (IH H) as [?|(p' & Hp & ?)]; [by left|]. right. exists p'. split; [by right|done].
Qed.

Lemma SplitByte_elem c s sep p : p ∈ SplitByte s sep -> c ∈ p -> c ∈ s.
Proof.
  intros Hp Hc. rewrite <- (Join_SplitByte s sep). revert Hp. generalize (SplitByte s sep). intros ps.
  induction ps as [|q ps IH]; [by intros ?%elem_of_nil|]. intros Hp. destruct ps as [|r ps].
  - apply list_elem_of_singleton in Hp as ->. done.
  - rewrite Join_cons by done. rewrite !elem_of_app. apply elem_of_cons in Hp as [->|Hp]; [by left|]. right. right. by apply IH.
Qed.

(** ** Runes, lower case and white space *)

(** The runes of a string, as a [for _, r := range s] loop sees them. *)
Fixpoint runes_fuel (n : nat) (s : bytes) : list Z :=
  match n, s with
  | S n, _ :: _ => let rw := decodeRune s in fst rw :: runes_fuel n (drop (snd rw) s)
  | _, _ => []
  end.
Definition runes (s : bytes) : list Z := runes_fuel (length s) s.

Lemma runes_ascii s : Forall (fun c => byteZ c < 0x80) s -> runes s = map byteZ s.
Proof.
  unfold runes. induction 1 as [|c s Hc Hs IH]; [done|]. cbn [length runes_fuel map].
  rewrite decodeRune_ascii by done. cbn [fst snd]. f_equal. by rewrite skipn_cons, skipn_O.
Qed.

(** [unicode.IsSpace]. *)
Definition IsSpace (r : Z) : bool :=
  ((0x09 <=? r) && (r <=? 0x0D)) || (r =? 0x20) || (r =? 0x85) || (r =? 0xA0) || (r =? 0x1680)
  || ((0x2000 <=? r) && (r <=? 0x200A)) || (r =? 0x2028) || (r =? 0x2029) || (r =? 0x202F)
  || (r =? 0x205F) || (r =? 0x3000).

Fixpoint trimLeft_fuel (n : nat) (s : bytes) : bytes :=
  match n with
  | O => s
  | S n =>
      match s with
      | [] => []
      | _ :: _ => let rw := decodeRune s in
          if IsSpace (fst rw) then trimLeft_fuel n (drop (snd rw) s) else s
      end
  end.

(** The width of the white-space rune a string ends in, or 0: the encoding of
    a space rune is at most three bytes, and a suffix that decodes as one rune
    of its whole width is the string's last rune. *)
Definition lastSpaceWidth (s : bytes) : nat :=
  let ends w := (w <=? length s)%nat &&
    match decodeRune (drop (length s - w) s) with
    | (r, w') => (w' =? w)%nat && IsSpace r
    end in
  if ends 1%nat then 1%nat else if ends 2%nat then 2%nat else if ends 3%nat then 3%nat else 0%nat.

Fixpoint trimRight_fuel (n : nat) (s : bytes) : bytes :=
  match n with
  | O => s
  | S n =>
      let w := lastSpaceWidth s in
      if (w =? 0)%nat then s else trimRight_fuel n (take (length s - w) s)
  end.

(** [strings.TrimSpace]. *)
Definition TrimSpace (s : bytes) : bytes :=
  let t := trimLeft_fuel (length s) s in trimRight_fuel (length t) t.

Lemma TrimSpace_elem c s : c ∈ TrimSpace s -> c ∈ s.
Proof.
  assert (forall n s, c ∈ trimLeft_fuel n s -> c ∈ s) as HL.
  { induction n as [|n IH]; intros t; [done|]. cbn. destruct t as [|b t]; [done|].
    destruct (IsSpace _); [|done]. intros H%IH. rewrite <- (take_drop (snd (decodeRune (b :: t))) (b :: t)).
    apply elem_of_app. by right. }
  assert (forall n s, c ∈ trimRight_fuel n s -> c ∈ s) as HR.
  { induction n as [|n IH]; intros t; [done|]. cbn. destruct (_ =? 0)%nat; [done|]. intros H%IH.
    rewrite <- (take_drop (length t - lastSpaceWidth t) t). apply elem_of_app. by left. }
  unfold TrimSpace. eauto.
Qed.

(** A byte that is neither white space nor part of a longer rune. *)
Definition graphic (c : ascii) : Prop := 33 <= byteZ c < 127.

Lemma IsSpace_graphic c : graphic c -> IsSpace (byteZ c) = false.
Proof. unfold graphic, IsSpace. intros H. zcases; lia. Qed.

Lemma lastSpaceWidth_graphic s : Forall graphic s -> lastSpaceWidth s = 0%nat.
Proof.
  intros H. unfold lastSpaceWidth.
  assert (forall w, (0 < w)%nat -> (w <=? length s)%nat &&
    (let '(r, w') := decodeRune (drop (length s - w) s) in (w' =? w)%nat && IsSpace r) = false) as Hw.
  { intros w Hw. destruct (Nat.leb_spec w (length s)) as [Hl|]; [|done]. cbn [andb].
    destruct (drop (length s - w) s) as [|c r] eqn:E.
    { apply (f_equal length) in E. rewrite length_drop in E. simpl in E. lia. }
    assert (graphic c) as Hc. { apply (Forall_drop _ (length s - w)) in H. rewrite E in H. by inversion H. }
    rewrite decodeRune_ascii by (unfold graphic in Hc; lia). rewrite IsSpace_graphic by done. apply andb_false_r. }
  by rewrite !Hw by lia.
Qed.

Lemma TrimSpace_graphic s : Forall graphic s -> TrimSpace s = s.
Proof.
  intros H. unfold TrimSpace.
  assert (trimLeft_fuel (length s) s = s) as ->.
  { destruct H as [|c s Hc _]; [done|]. cbn [length trimLeft_fuel]. rewrite decodeRune_ascii by (unfold graphic in Hc; lia).
    simpl. by rewrite IsSpace_graphic. }
  destruct (length s) as [|n] eqn:E; [done|]. simpl. by rewrite lastSpaceWidth_graphic.
Qed.

(** [strings.TrimRight] with an ASCII cutset. *)
Fixpoint TrimRight (s cut : bytes) : bytes :=
  match s with
  | [] => []
  | b :: r =>
      match TrimRight r cut with
      | [] => if existsb (Ascii.eqb b) cut then [] else [b]
      | r' => b :: r'
      end
  end.

Lemma TrimRight_prefix s cut : exists t, s = TrimRight s cut ++ t.
Proof.
  induction s as [|b r [t IH]]; simpl; [by exists []|].
  destruct (TrimRight r cut) as [|c r'] eqn:E.
  - destruct (existsb _ _); [by exists (b :: r)|]. exists r. done.
  - exists t. simpl. by rewrite IH at 1.
Qed.

Definition lowerByte (c : ascii) : ascii :=
  if (0x41 <=? byteZ c) && (byteZ c <=? 0x5A) then Zbyte (byteZ c + 32) else c.

(** [strings.ToLower].  [lr] is the non-ASCII part of the Unicode lower-case
    table; a pure-ASCII string does not consult it. *)
Definition ToLower (lr : Z -> Z) (s : bytes) : bytes :=
  if forallb (fun c => byteZ c <? 0x80) s then map lowerByte s
  else flat_map (fun r => encodeRune (if r <? 0x80 then byteZ (lowerByte (Zbyte r)) else lr r)) (runes s).

(** ** Decimal integers *)

Definition isDigit (c : ascii) : bool := (0x30 <=? byteZ c) && (byteZ c <=? 0x39).

Definition digits_value (s : bytes) : Z :=
  fold_left (fun a c => a * 10 + (byteZ c - 0x30)) s 0.

Definition parse_digits (s : bytes) : option Z :=
  match s with
  | [] => None
  | _ => if forallb isDigit s then Some (digits_value s) else None
  end.

(** [strconv.ParseInt(s, 10, 64)]: [None] for every error (syntax or range). *)
Definition ParseInt64 (s : bytes) : option Z :=
  let '(neg, d) := match s with
    | c :: r => if c =b "-" then (true, r) else if c =b "+" then (false, r) else (false, s)
    | [] => (false, s)
    end in
  match parse_digits d with
  | Some v =>
      if neg then if v <=? 2 ^ 63 then Some (- v) else None
      else if v <=? int64_max then Some v else None
  | None => None
  end.

(** [strconv.ParseUint(s, 10, bits)]. *)
Definition ParseUint (bits : Z) (s : bytes) : option Z :=
  match parse_digits s with
  | Some v => if v <? 2 ^ bits then Some v else None
  | None => None
  end.

(** [strconv.Itoa] / [strconv.FormatInt(z, 10)]. *)
Definition Itoa (z : Z) : bytes := go (pretty z).

Lemma pretty_N_char_digit d : (d < 10)%N ->
  isDigit (pretty_N_char d) = true /\ byteZ (pretty_N_char d) - 0x30 = Z.of_N d.
Proof.
  intros Hd. assert (d = 0 \/ d = 1 \/ d = 2 \/ d = 3 \/ d = 4 \/ d = 5 \/ d = 6 \/ d = 7 \/ d = 8 \/ d = 9)%N as H by lia.
  repeat destruct H as [->|H]; try (split; reflexivity). subst. split; reflexivity.
Qed.

(** The digits the printer puts in front of [s]. *)
Lemma pretty_N_go_digits k x s : (x < 10 ^ N.of_nat k)%N ->
  exists ds, go (pretty_N_go x s) = ds ++ go s /\ forallb isDigit ds = true /\ (length ds <= k)%nat /\
    digits_value ds = Z.of_N x /\ ((0 < x)%N -> ds <> []).
Proof.
  revert x s. induction k as [|k IH]; intros x s Hx.
  - assert (x = 0%N) as -> by (cbn in Hx; lia). exists []. done.
  - destruct (decide (x = 0%N)) as [->|Hne]; [exists []; split_and!; [done|done|cbn; lia|done|lia]|].
    rewrite pretty_N_go_step by lia.
    destruct (IH (x `div` 10)%N (String (pretty_N_char (x `mod` 10)) s)) as (ds & -> & Hd & Hl & Hv & _).
    { apply N.Div0.div_lt_upper_bound. rewrite Nat2N.inj_succ, N.pow_succ_r' in Hx. lia. }
    destruct (pretty_N_char_digit (x `mod` 10)) as [Hc Hcv]; [apply N.mod_lt; lia|].
    exists (ds ++ [pretty_N_char (x `mod` 10)]). split_and!.
    + by rewrite <- app_assoc.
    + rewrite forallb_app, Hd. cbn. by rewrite Hc.
    + rewrite length_app. cbn. lia.
    + unfold digits_value in *. rewrite fold_left_app, Hv. cbn [fold_left]. rewrite Hcv.
      pose proof (N.div_mod x 10 ltac:(lia)). lia.
    + intros _. by destruct ds.
Qed.

(** Printing and reading a non-negative integer. *)
Lemma Itoa_digits k z : (0 < k)%nat -> 0 <= z < 10 ^ Z.of_nat k ->
  parse_digits (Itoa z) = Some z /\ Forall (fun c => isDigit c = true) (Itoa z) /\ (1 <= length (Itoa z) <= k)%nat.
Proof.
  intros Hk Hz. unfold Itoa. destruct z as [|p|p]; [split_and!; [done|by repeat constructor|cbn; lia|cbn; lia]| |lia].
  change (pretty (Z.pos p)) with (pretty (N.pos p)). change (pretty (N.pos p)) with (pretty_N_go (N.pos p) "").
  destruct (pretty_N_go_digits k (N.pos p) "") as (ds & -> & Hd & Hl & Hv & Hne).
  { apply N2Z.inj_lt. rewrite N2Z.inj_pow, nat_N_Z. apply Hz. }
  rewrite app_nil_r. specialize (Hne ltac:(lia)). split_and!.
  - unfold parse_digits. rewrite Hd, Hv. by destruct ds.
  - apply list.Forall_forall. intros c Hc%list_elem_of_In. by apply (proj1 (forallb_forall _ _) Hd).
  - destruct ds; [done|cbn; lia].
  - done.
Qed.

Lemma parse_digits_nonneg s v : parse_digits s = Some v -> 0 <= v.
Proof.
  unfold parse_digits. destruct s as [|c r]; [done|].
  destruct (forallb isDigit (c :: r)) eqn:E; [|done]. intros [= <-].
  unfold digits_value. generalize (c :: r) E. clear. intros l.
  assert (forall a, 0 <= a -> forallb isDigit l = true ->
    0 <= fold_left (fun a c => a * 10 + (byteZ c - 0x30)) l a) as H; [|intros ?; apply H; [lia|done]].
  induction l as [|x l IH]; intros a Ha Hl; simpl in *; [done|].
  apply andb_true_iff in Hl as [Hx Hl]. unfold isDigit in Hx. apply IH; [zcases; lia|done].
Qed.

Lemma ParseInt64_range s v : ParseInt64 s = Some v -> in_int64 v.
Proof.
  unfold ParseInt64, in_int64, int64_min, int64_max. intros H.
  destruct (match s with _ :: _ => _ | [] => _ end) as [neg d].
  destruct (parse_digits d) as [w|] eqn:Ed; [|done]. apply parse_digits_nonneg in Ed.
  revert H. zcases; intros [= <-]; lia.
Qed.
