(* ===== verification/Ast.v ===== *)
(** * Cadishfile tokens, errors and syntax trees

    The data of [internal/cadishfile]: tokens and positions ([lex.go]), parse
    errors ([parse.go]) and the AST ([ast.go]), with the two syntactic
    classifications of argument text. *)

From stdpp Require Import base strings pretty numbers gmap list.
From S2P Require Import Prelude GoStrings.
Open Scope Z_scope.

Inductive TokenKind : Type :=
| TokenWord
| TokenOpenBrace
| TokenCloseBrace
| TokenSemicolon
| TokenNewline
| TokenComment
| TokenEOF.

#[export] Instance TokenKind_eq_dec : EqDecision TokenKind.
Proof. solve_decision. Defined.

(** [TokenKind.String]; the [default] branch is for values outside the enum. *)
Definition TokenKind_String (k : TokenKind) : bytes :=
  match k with
  | TokenWord => go "word"
  | TokenOpenBrace => go "'{'"
  | TokenCloseBrace => go "'}'"
  | TokenSemicolon => go "';'"
  | TokenNewline => go "newline"
  | TokenComment => go "comment"
  | TokenEOF => go "EOF"
  end.

Record Token : Type := mkToken {
  Kind : TokenKind;
  Text : bytes;
  File : bytes;
  Line : Z;
  Col : Z;
  Quoted : bool;
  BlankBefore : Z
}.

#[export] Instance Token_eq_dec : EqDecision Token.
Proof. solve_decision. Defined.

(** The message of a [ParseError]: one constructor per format string of the
    lexer and the parser, carrying the values it formats. *)
Inductive errMsg : Type :=
| MsgControl (r : Z)
| MsgUnterminatedString
| MsgUnexpectedCloseTop
| MsgAddrWrap
| MsgNoAddress
| MsgSiteEOF (addrs : list bytes)
| MsgSiteClose
| MsgSiteSemicolon
| MsgTooDeep
| MsgUnterminatedBlock
| MsgFragmentClose
| MsgExpectedName (k : TokenKind)
| MsgEmptyMatcherName
| MsgMatcherNoType (name : bytes)
| MsgMatcherBadType (name typ : bytes)
| MsgMatcherBlock (name : bytes)
| MsgAfterStatement (k : TokenKind).

Record ParseError : Type := mkParseError {
  pe_file : bytes;
  pe_line : Z;
  pe_col : Z;
  pe_msg : errMsg
}.

Record Pos : Type := mkPos { p_file : bytes; p_line : Z; p_col : Z }.

(** [sprintFileLineCol]. *)
Definition sprintFileLineCol (file : bytes) (line col : Z) : bytes :=
  if (0 <? line) && (0 <? col) then file ++ go ":" ++ Itoa line ++ go ":" ++ Itoa col
  else if 0 <? line then file ++ go ":" ++ Itoa line
  else file.

(** [Pos.String]. *)
Definition Pos_String (p : Pos) : bytes :=
  sprintFileLineCol (if bool_decide (p_file p = []) then go "<input>" else p_file p)
    (p_line p) (p_col p).

Inductive ArgKind : Type := ArgLiteral | ArgMatcherRef | ArgPlaceholder.

#[export] Instance ArgKind_eq_dec : EqDecision ArgKind.
Proof. solve_decision. Defined.

Record Arg : Type := mkArg {
  Raw : bytes;
  ArgQuoted : bool;
  AKind : ArgKind;
  APos : Pos
}.

(** [Node] is [*MatcherDef] or [*Directive]. *)
#[warnings="-register-all"]
Inductive Node : Type :=
| MatcherDef (name typ : bytes) (args : list Arg) (pos : Pos)
| Directive (name : bytes) (args : list Arg) (block : list Node) (hasBlock : bool) (pos : Pos).

Record Options : Type := mkOptions { o_body : list Node; o_pos : Pos }.
Record Site : Type := mkSite { Addresses : list bytes; s_body : list Node; s_pos : Pos }.
Record CFile : Type := mkCFile { Global : option Options; Sites : list Site; f_body : list Node }.

(** Induction over nodes and the statement lists of their blocks. *)
Section NodeInd.
Context (P : Node -> Prop).
Hypothesis Hm : forall n t a p, P (MatcherDef n t a p).
Hypothesis Hd : forall n a b h p, Forall P b -> P (Directive n a b h p).

Fixpoint Node_nested_ind (x : Node) : P x :=
  match x with
  | MatcherDef n t a p => Hm n t a p
  | Directive n a b h p => Hd n a b h p
      ((fix go_list (l : list Node) : Forall P l :=
          match l with
          | [] => List.Forall_nil P
          | y :: l' => @List.Forall_cons _ P y l' (Node_nested_ind y) (go_list l')
          end) b)
  end.
End NodeInd.

(** [containsPlaceholder]: an unescaped open brace. *)
Fixpoint containsPlaceholder (text : bytes) : bool :=
  match text with
  | [] => false
  | c :: r =>
      if c =b "\" then match r with [] => false | _ :: r' => containsPlaceholder r' end
      else if c =b "{" then true
      else containsPlaceholder r
  end.

(** [classifyArg]. *)
Definition classifyArg (text : bytes) (quoted : bool) : ArgKind :=
  if quoted then ArgLiteral
  else if HasPrefix text (go "@") && (1 <? length text)%nat then ArgMatcherRef
  else if containsPlaceholder text then ArgPlaceholder
  else ArgLiteral.

(** [tokPos]. *)
Definition tokPos (file : bytes) (t : Token) : Pos := mkPos file (Line t) (Col t).

(** [isArgToken]. *)
Definition isArgToken (t : Token) : bool := bool_decide (Kind t = TokenWord).
