(* ===== verification/Lex.v ===== *)
(** * The Cadishfile lexer ([internal/cadishfile/lex.go])

    The lexer's state is the unread suffix of the source with the line and
    column counters and the blank-line bookkeeping; every loop of the code is
    a function by recursion on a fuel that starts one above the number of
    unread bytes. *)

From stdpp Require Import base strings pretty numbers gmap list.
From S2P Require Import Prelude GoStrings Ast.
Open Scope Z_scope.

(** The runes the lexer tests for. *)
Abbreviation rTAB := 9.
Abbreviation rNL := 10.
Abbreviation rCR := 13.
Abbreviation rSP := 32.
Abbreviation rDQ := 34.
Abbreviation rHASH := 35.
Abbreviation rSEMI := 59.
Abbreviation rBSL := 92.
Abbreviation rLB := 123.
Abbreviation rRB := 125.

Record lexer : Type := mkLexer {
  l_file : bytes;
  l_rest : bytes;           (* src[pos:] *)
  l_line : Z;
  l_col : Z;
  l_pendingBlank : Z;
  l_atLineStart : bool
}.

Definition BOM : bytes := [Zbyte 0xEF; Zbyte 0xBB; Zbyte 0xBF].

Definition newLexer (file src : bytes) : lexer :=
  {| l_file := file; l_rest := TrimPrefix src BOM; l_line := 1; l_col := 1;
     l_pendingBlank := 0; l_atLineStart := true |}.

Definition peekRune (l : lexer) : Z * nat :=
  match l_rest l with
  | [] => (0, 0%nat)
  | s => decodeRune s
  end.

(** The state after a rune [r] of width [w]. *)
Definition past (l : lexer) (r : Z) (w : nat) : lexer :=
  {| l_file := l_file l; l_rest := drop w (l_rest l);
     l_line := if r =? rNL then l_line l + 1 else l_line l;
     l_col := if r =? rNL then 1 else l_col l + 1;
     l_pendingBlank := l_pendingBlank l; l_atLineStart := l_atLineStart l |}.

Definition advance (l : lexer) : Z * lexer :=
  let '(r, w) := peekRune l in
  match w with
  | O => (0, l)
  | _ => (r, past l r w)
  end.

Definition isDisallowedControl (r : Z) : bool :=
  if (r =? rTAB) || (r =? rNL) || (r =? rCR) then false else (r <? 0x20) || (r =? 0x7f).

Definition isBlankRune (r : Z) : bool :=
  (r =? rSP) || (r =? rTAB) || (r =? rNL) || (r =? rCR).

Definition controlError (l : lexer) (r : Z) : ParseError :=
  mkParseError (l_file l) (l_line l) (l_col l) (MsgControl r).

(** [takeBlank]: the pending blank-line count, and the state without it. *)
Definition takeBlank (l : lexer) : Z * lexer :=
  if l_atLineStart l then
    (l_pendingBlank l,
     {| l_file := l_file l; l_rest := l_rest l; l_line := l_line l; l_col := l_col l;
        l_pendingBlank := 0; l_atLineStart := l_atLineStart l |})
  else (0, l).

Definition set_atLineStart (b : bool) (l : lexer) : lexer :=
  {| l_file := l_file l; l_rest := l_rest l; l_line := l_line l; l_col := l_col l;
     l_pendingBlank := l_pendingBlank l; l_atLineStart := b |}.

Definition incr_pendingBlank (l : lexer) : lexer :=
  {| l_file := l_file l; l_rest := l_rest l; l_line := l_line l; l_col := l_col l;
     l_pendingBlank := l_pendingBlank l + 1; l_atLineStart := l_atLineStart l |}.

(** [mk]. *)
Definition mk (l : lexer) (kind : TokenKind) (text : bytes) : Token * lexer :=
  let '(b, l') := takeBlank l in
  (mkToken kind text (l_file l) (l_line l) (l_col l) false b, l').

(** [isLineContinuation], called on a backslash. *)
Definition isLineContinuation (l : lexer) : bool :=
  let rest := drop 1 (l_rest l) in
  HasPrefix (TrimPrefix rest [Zbyte rCR]) [Zbyte rNL].

(** [looksLikePlaceholder]: a brace-balanced run without white space. *)
Fixpoint looksLikePlaceholder_loop (n : nat) (s : bytes) (depth : Z) : bool :=
  match n, s with
  | S n, _ :: _ =>
      let '(r, w) := decodeRune s in
      let s' := drop w s in
      if isDisallowedControl r then false
      else if isBlankRune r then false
      else if r =? rLB then looksLikePlaceholder_loop n s' (depth + 1)
      else if r =? rRB then
        if depth - 1 =? 0 then true else looksLikePlaceholder_loop n s' (depth - 1)
      else looksLikePlaceholder_loop n s' depth
  | _, _ => false
  end.

Definition looksLikePlaceholder (l : lexer) : bool :=
  looksLikePlaceholder_loop (length (l_rest l)) (l_rest l) 0.

(** [scanPlaceholder]: the run's text and the state after it, or [None] when
    the state is rolled back. *)
Fixpoint scanPlaceholder_loop (n : nat) (l : lexer) (b : bytes) (depth : Z)
    : option (bytes * lexer) :=
  match n with
  | O => None
  | S n =>
      let '(r, w) := peekRune l in
      match w with
      | O => None
      | _ =>
          if isBlankRune r || isDisallowedControl r then None
          else
            let '(r', l') := advance l in
            let b' := b ++ encodeRune r' in
            if r =? rLB then scanPlaceholder_loop n l' b' (depth + 1)
            else if r =? rRB then
              if depth - 1 =? 0 then Some (b', l') else scanPlaceholder_loop n l' b' (depth - 1)
            else scanPlaceholder_loop n l' b' depth
      end
  end.

Definition scanPlaceholder (l : lexer) : option (bytes * lexer) :=
  scanPlaceholder_loop (S (length (l_rest l))) l [] 0.

(** The loop of [lexWord]: the text of the word and the state after it. *)
Fixpoint lexWord_loop (n : nat) (l : lexer) (b : bytes) : outcome ParseError (bytes * lexer) :=
  match n with
  | O => NoFuel
  | S n =>
      let '(r, w) := peekRune l in
      match w with
      | O => Ok (b, l)
      | _ =>
          if r =? rBSL then
            if isLineContinuation l then Ok (b, l)
            else let '(r', l') := advance l in lexWord_loop n l' (b ++ encodeRune r')
          else if isBlankRune r then Ok (b, l)
          else if isDisallowedControl r then Ok (b, l)
          else if (r =? rSEMI) || (r =? rRB) then Ok (b, l)
          else if r =? rLB then
            match scanPlaceholder l with
            | Some (ph, l') => lexWord_loop n l' (b ++ ph)
            | None => Ok (b, l)
            end
          else let '(r', l') := advance l in lexWord_loop n l' (b ++ encodeRune r')
      end
  end.

Definition lexWord (l : lexer) : outcome ParseError (Token * lexer) :=
  let '(blank, l1) := takeBlank l in
  let! (b, l2) := lexWord_loop (S (length (l_rest l1))) l1 [] in
  Ok (mkToken TokenWord b (l_file l) (l_line l) (l_col l) false blank, set_atLineStart false l2).

(** The loop of [lexComment]: the raw bytes read and the state after them. *)
Fixpoint lexComment_loop (n : nat) (l : lexer) (b : bytes) : outcome ParseError (bytes * lexer) :=
  match n with
  | O => NoFuel
  | S n =>
      let '(r, w) := peekRune l in
      match w with
      | O => Ok (b, l)
      | _ =>
          if r =? rNL then Ok (b, l)
          else if isDisallowedControl r then Ok (b, l)
          else let '(_, l') := advance l in lexComment_loop n l' (b ++ take w (l_rest l))
      end
  end.

Definition lexComment (l : lexer) : outcome ParseError (Token * lexer) :=
  let '(blank, l1) := takeBlank l in
  let! (b, l2) := lexComment_loop (S (length (l_rest l1))) l1 [] in
  Ok (mkToken TokenComment (TrimRight b [Zbyte rSP; Zbyte rTAB; Zbyte rCR])
        (l_file l) (l_line l) (l_col l) false blank, set_atLineStart false l2).

(** The loop of [lexQuoted], after the opening quote; [err] is the
    unterminated-string error at the opening quote. *)
Fixpoint lexQuoted_loop (n : nat) (err : ParseError) (l : lexer) (b : bytes)
    : outcome ParseError (bytes * lexer) :=
  match n with
  | O => NoFuel
  | S n =>
      let '(r, w) := peekRune l in
      match w with
      | O => Err err
      | _ =>
          if isDisallowedControl r then Err (controlError l r)
          else if r =? rBSL then
            let '(_, l1) := advance l in
            let '(esc, ew) := peekRune l1 in
            match ew with
            | O => Err err
            | _ =>
                if isDisallowedControl esc then Err (controlError l1 esc)
                else if (esc =? rDQ) || (esc =? rBSL) then
                  let '(r', l2) := advance l1 in lexQuoted_loop n err l2 (b ++ encodeRune r')
                else
                  let '(r', l2) := advance l1 in
                  lexQuoted_loop n err l2 (b ++ [Zbyte rBSL] ++ encodeRune r')
            end
          else if r =? rDQ then let '(_, l') := advance l in Ok (b, l')
          else let '(r', l') := advance l in lexQuoted_loop n err l' (b ++ encodeRune r')
      end
  end.

Definition lexQuoted (l : lexer) : outcome ParseError (Token * lexer) :=
  let '(blank, l1) := takeBlank l in
  let err := mkParseError (l_file l) (l_line l) (l_col l) MsgUnterminatedString in
  let '(_, l2) := advance l1 in
  let! (b, l3) := lexQuoted_loop (S (length (l_rest l2))) err l2 [] in
  Ok (mkToken TokenWord b (l_file l) (l_line l) (l_col l) true blank, set_atLineStart false l3).

(** A one-character token; [blanks] says whether it takes the blank count. *)
Definition lexPunct (l : lexer) (kind : TokenKind) (text : bytes) (blanks : bool) : Token * lexer :=
  let '(blank, l1) := if blanks then takeBlank l else (0, l) in
  let '(_, l2) := advance l1 in
  (mkToken kind text (l_file l) (l_line l) (l_col l) false blank, set_atLineStart false l2).

(** Consumes a line continuation: the backslash, an optional CR, the newline. *)
Definition skipContinuation (l : lexer) : lexer :=
  let '(_, l1) := advance l in
  let l2 := if fst (peekRune l1) =? rCR then snd (advance l1) else l1 in
  snd (advance l2).

Fixpoint next_loop (n : nat) (l : lexer) : outcome ParseError (Token * lexer) :=
  match n with
  | O => NoFuel
  | S n =>
      let '(r, w) := peekRune l in
      match w with
      | O => Ok (mk l TokenEOF [])
      | _ =>
          if isDisallowedControl r then Err (controlError l r)
          else if r =? rNL then
            let '(_, l') := advance l in
            if l_atLineStart l' then next_loop n (incr_pendingBlank l')
            else Ok (mkToken TokenNewline [] (l_file l) (l_line l) (l_col l) false 0,
                     set_atLineStart true l')
          else if r =? rCR then let '(_, l') := advance l in next_loop n l'
          else if (r =? rSP) || (r =? rTAB) then let '(_, l') := advance l in next_loop n l'
          else if r =? rBSL then
            if isLineContinuation l then next_loop n (skipContinuation l) else lexWord l
          else if r =? rHASH then lexComment l
          else if r =? rLB then
            if looksLikePlaceholder l then lexWord l
            else Ok (lexPunct l TokenOpenBrace (go "{") true)
          else if r =? rRB then Ok (lexPunct l TokenCloseBrace (go "}") true)
          else if r =? rSEMI then Ok (lexPunct l TokenSemicolon (go ";") false)
          else if r =? rDQ then lexQuoted l
          else lexWord l
      end
  end.

Definition next (l : lexer) : outcome ParseError (Token * lexer) :=
  next_loop (S (length (l_rest l))) l.

Fixpoint tokenize_loop (n : nat) (l : lexer) (toks : list Token) : outcome ParseError (list Token) :=
  match n with
  | O => NoFuel
  | S n =>
      let! (tok, l') := next l in
      let toks' := toks ++ [tok] in
      if bool_decide (Kind tok = TokenEOF) then Ok toks' else tokenize_loop n l' toks'
  end.

Definition tokenize (file src : bytes) : outcome ParseError (list Token) :=
  let l := newLexer file src in
  tokenize_loop (S (length (l_rest l))) l [].

(** ** Progress and termination *)

Definition size (l : lexer) : nat := length (l_rest l).

Lemma peekRune_width l r w :
  peekRune l = (r, w) -> (w = 0%nat /\ l_rest l = []) \/ ((0 < w)%nat /\ (w <= size l)%nat).
Proof.
  unfold peekRune, size. destruct (l_rest l) as [|c s] eqn:E; intros H.
  - left. injection H as <- <-. done.
  - right. pose proof (decodeRune_width (c :: s)) as Hw. rewrite H in Hw. simpl in *.
    destruct Hw; [done|]. lia.
Qed.

Lemma advance_eq l r w : peekRune l = (r, S w) -> advance l = (r, past l r (S w)).
Proof. unfold advance. by intros ->. Qed.

Lemma past_size l r w : peekRune l = (r, S w) -> (size (past l r (S w)) < size l)%nat.
Proof.
  intros H. apply peekRune_width in H as [[? _]|[_ Hw]]; [done|].
  unfold size, past in *. cbn [l_rest]. rewrite length_drop. lia.
Qed.

Lemma advance_size l : (size (snd (advance l)) <= size l)%nat.
Proof.
  unfold advance. destruct (peekRune l) as [r [|w]] eqn:E; simpl; [done|].
  apply past_size in E. lia.
Qed.

Lemma takeBlank_rest l : l_rest (snd (takeBlank l)) = l_rest l.
Proof. unfold takeBlank. by destruct (l_atLineStart l). Qed.

(** Rewrites the [advance] of a state whose next rune is known. *)
Ltac adv :=
  repeat match goal with
  | E : peekRune ?l = (?r, S ?w) |- context [advance ?l] => rewrite (advance_eq _ _ _ E)
  | E : peekRune ?l = (?r, S ?w), H : context [advance ?l] |- _ => rewrite (advance_eq _ _ _ E) in H
  end.

(** Names the next rune of a state and disposes of the end of input. *)
Ltac peek l r w E := destruct (peekRune l) as [r [|w]] eqn:E.

Lemma scanPlaceholder_loop_size n l b d b' l' :
  scanPlaceholder_loop n l b d = Some (b', l') -> (size l' < size l)%nat.
Proof.
  revert l b d. induction n as [|n IH]; intros l b d H; simpl in H; [done|].
  peek l r w E; [done|]. destruct (_ || _); [done|]. adv.
  pose proof (past_size _ _ _ E).
  repeat case_match; try (apply IH in H; lia). by injection H as <- <-.
Qed.

Lemma scanPlaceholder_size l b l' : scanPlaceholder l = Some (b, l') -> (size l' < size l)%nat.
Proof. apply scanPlaceholder_loop_size. Qed.

Lemma lexWord_loop_total n l b : (size l < n)%nat -> lexWord_loop n l b <> NoFuel.
Proof.
  revert l b. induction n as [|n IH]; intros l b Hn; [lia|]. simpl.
  peek l r w E; [done|]. adv. pose proof (past_size _ _ _ E).
  repeat case_match; try done; try (apply IH; lia).
  match goal with Hs : scanPlaceholder _ = _ |- _ => apply scanPlaceholder_size in Hs end.
  apply IH. lia.
Qed.

Lemma lexWord_loop_size n l b b' l' :
  lexWord_loop n l b = Ok (b', l') -> (size l' <= size l)%nat.
Proof.
  revert l b. induction n as [|n IH]; intros l b H; simpl in H; [done|].
  peek l r w E; [by injection H as <- <-|]. adv. pose proof (past_size _ _ _ E).
  repeat case_match; try (injection H as <- <-; lia); try (apply IH in H; lia).
  match goal with Hs : scanPlaceholder _ = _ |- _ => apply scanPlaceholder_size in Hs end.
  apply IH in H. lia.
Qed.

Lemma lexComment_loop_total n l b : (size l < n)%nat -> lexComment_loop n l b <> NoFuel.
Proof.
  revert l b. induction n as [|n IH]; intros l b Hn; [lia|]. simpl.
  peek l r w E; [done|]. adv. pose proof (past_size _ _ _ E).
  repeat case_match; try done. apply IH. lia.
Qed.

Lemma lexComment_loop_size n l b b' l' :
  lexComment_loop n l b = Ok (b', l') -> (size l' <= size l)%nat.
Proof.
  revert l b. induction n as [|n IH]; intros l b H; simpl in H; [done|].
  peek l r w E; [by injection H as <- <-|]. adv. pose proof (past_size _ _ _ E).
  repeat case_match; try (injection H as <- <-; lia). apply IH in H. lia.
Qed.

Lemma lexQuoted_loop_total n err l b : (size l < n)%nat -> lexQuoted_loop n err l b <> NoFuel.
Proof.
  revert l b. induction n as [|n IH]; intros l b Hn; [lia|]. simpl.
  peek l r w E; [done|]. adv. pose proof (past_size _ _ _ E).
  destruct (isDisallowedControl r); [done|].
  destruct (r =? rBSL); [|repeat case_match; try done; apply IH; lia].
  peek (past l r (S w)) r' w' E'; [done|]. adv. pose proof (past_size _ _ _ E').
  repeat case_match; try done; apply IH; lia.
Qed.

Lemma lexQuoted_loop_size n err l b b' l' :
  lexQuoted_loop n err l b = Ok (b', l') -> (size l' <= size l)%nat.
Proof.
  revert l b. induction n as [|n IH]; intros l b H; simpl in H; [done|].
  peek l r w E; [done|]. adv. pose proof (past_size _ _ _ E).
  destruct (isDisallowedControl r); [done|].
  destruct (r =? rBSL).
  - peek (past l r (S w)) r' w' E'; [done|]. adv. pose proof (past_size _ _ _ E').
    repeat case_match; try done; apply IH in H; lia.
  - repeat case_match; try done; [injection H as <- <-; lia|apply IH in H; lia].
Qed.

(** The two placeholder scans agree on what a placeholder is. *)
Lemma looks_scan_loop n m l b d :
  (size l <= n)%nat -> (size l < m)%nat ->
  looksLikePlaceholder_loop n (l_rest l) d = true ->
  is_Some (scanPlaceholder_loop m l b d).
Proof.
  revert m l b d. induction n as [|n IH]; intros m l b d Hn Hm H.
  - unfold size in Hn. destruct (l_rest l); [done|simpl in Hn; lia].
  - destruct m as [|m]; [lia|]. simpl in *.
    unfold peekRune at 1. destruct (l_rest l) as [|c s] eqn:Es; [done|].
    destruct (decodeRune (c :: s)) as [r w] eqn:Ed.
    assert (peekRune l = (r, w)) as E by (unfold peekRune; by rewrite Es).
    destruct w as [|w]; [by apply peekRune_width in E as [[_ ?]|[? _]]; [congruence|lia]|].
    pose proof (past_size _ _ _ E). adv.
    destruct (isDisallowedControl r), (isBlankRune r); try done. simpl.
    assert (l_rest (past l r (S w)) = drop (S w) (c :: s)) as Hr by (unfold past; by rewrite Es).
    rewrite <- Hr in H.
    destruct (r =? rLB); [apply IH; try done; lia|].
    destruct (r =? rRB); [|apply IH; try done; lia].
    destruct (d - 1 =? 0); [by eexists|apply IH; try done; lia].
Qed.

Lemma looks_scan l : looksLikePlaceholder l = true -> is_Some (scanPlaceholder l).
Proof. intros H. eapply looks_scan_loop; [| |exact H]; unfold size; lia. Qed.
(** A word token always consumes input when [next] asks for one. *)
Definition starts_word (l : lexer) (r : Z) : Prop :=
  (r = rBSL /\ isLineContinuation l = false) \/
  (r = rLB /\ looksLikePlaceholder l = true) \/
  (r <> rBSL /\ r <> rLB /\ r <> rRB /\ r <> rSEMI /\
   isBlankRune r = false /\ isDisallowedControl r = false).

Lemma lexWord_loop_progress n l b b' l' r w :
  peekRune l = (r, S w) -> starts_word l r ->
  lexWord_loop n l b = Ok (b', l') -> (size l' < size l)%nat.
Proof.
  intros E Hs H. destruct n as [|n]; simpl in H; [done|]. rewrite E in H.
  pose proof (past_size _ _ _ E).
  destruct Hs as [[-> Hc]|[[-> Hp]|(?&?&?&?&Hb&Hd)]].
  - rewrite Hc in H. simpl in H. adv. apply lexWord_loop_size in H. lia.
  - simpl in H. apply looks_scan in Hp as [[ph l1] Hp]. rewrite Hp in H.
    apply scanPlaceholder_size in Hp. apply lexWord_loop_size in H. lia.
  - rewrite Hb, Hd in H. destruct (Z.eqb_spec r rBSL); [done|].
    destruct (Z.eqb_spec r rSEMI), (Z.eqb_spec r rRB), (Z.eqb_spec r rLB); try done.
    simpl in H. adv. apply lexWord_loop_size in H. lia.
Qed.

Lemma peekRune_takeBlank l : peekRune (snd (takeBlank l)) = peekRune l.
Proof. unfold peekRune. by rewrite takeBlank_rest. Qed.

Lemma starts_word_takeBlank l r : starts_word (snd (takeBlank l)) r <-> starts_word l r.
Proof.
  unfold starts_word, isLineContinuation, looksLikePlaceholder. by rewrite takeBlank_rest.
Qed.

Lemma takeBlank_size l : size (snd (takeBlank l)) = size l.
Proof. unfold size. by rewrite takeBlank_rest. Qed.

Lemma lexWord_total l : lexWord l <> NoFuel.
Proof.
  unfold lexWord. destruct (takeBlank l) as [bl l1].
  destruct (lexWord_loop _ l1 []) as [[b l2]|e|] eqn:E; simpl; try done.
  by apply lexWord_loop_total in E; [|unfold size; lia].
Qed.

Lemma lexWord_progress l r w t l' :
  peekRune l = (r, S w) -> starts_word l r -> lexWord l = Ok (t, l') -> (size l' < size l)%nat.
Proof.
  unfold lexWord. rewrite <- (takeBlank_size l), <- (starts_word_takeBlank l), <- (peekRune_takeBlank l).
  destruct (takeBlank l) as [bl l1]; cbn [fst snd]. intros Hp Hs H. inv_obind. destruct a as [b l2].
  injection H as <- <-. change (size (set_atLineStart false l2)) with (size l2).
  by eapply lexWord_loop_progress.
Qed.

Lemma lexComment_total l : lexComment l <> NoFuel.
Proof.
  unfold lexComment. destruct (takeBlank l) as [bl l1].
  destruct (lexComment_loop _ l1 []) as [[b l2]|e|] eqn:E; simpl; try done.
  by apply lexComment_loop_total in E; [|unfold size; lia].
Qed.

Lemma lexComment_progress l w t l' :
  peekRune l = (rHASH, S w) -> lexComment l = Ok (t, l') -> (size l' < size l)%nat.
Proof.
  unfold lexComment. rewrite <- (takeBlank_size l), <- (peekRune_takeBlank l).
  destruct (takeBlank l) as [bl l1]; cbn [fst snd]. intros Hp H. inv_obind. destruct a as [b l2].
  injection H as <- <-. change (size (set_atLineStart false l2)) with (size l2).
  cbn [lexComment_loop] in Ha. rewrite Hp in Ha. simpl in Ha. adv.
  apply lexComment_loop_size in Ha. pose proof (past_size _ _ _ Hp). lia.
Qed.

Lemma lexQuoted_total l : lexQuoted l <> NoFuel.
Proof.
  unfold lexQuoted. destruct (takeBlank l) as [bl l1]. destruct (advance l1) as [r l2].
  destruct (lexQuoted_loop _ _ l2 []) as [[b l3]|e|] eqn:E; simpl; try done.
  by apply lexQuoted_loop_total in E; [|unfold size; lia].
Qed.

Lemma lexQuoted_progress l r w t l' :
  peekRune l = (r, S w) -> lexQuoted l = Ok (t, l') -> (size l' < size l)%nat.
Proof.
  unfold lexQuoted. rewrite <- (takeBlank_size l), <- (peekRune_takeBlank l).
  destruct (takeBlank l) as [bl l1]; cbn [fst snd]. intros Hp H. adv. inv_obind.
  destruct a as [b l2].
  injection H as <- <-. change (size (set_atLineStart false l2)) with (size l2).
  apply lexQuoted_loop_size in Ha. pose proof (past_size _ _ _ Hp). lia.
Qed.

Lemma lexPunct_progress l k tx bl r w :
  peekRune l = (r, S w) -> (size (snd (lexPunct l k tx bl)) < size l)%nat.
Proof.
  intros Hp. unfold lexPunct. rewrite <- (takeBlank_size l).
  assert (peekRune (snd (takeBlank l)) = (r, S w)) as Hp' by by rewrite peekRune_takeBlank.
  destruct bl; [|by adv; simpl; rewrite takeBlank_size; apply past_size].
  destruct (takeBlank l) as [b l1]; simpl in *. adv. simpl. by apply past_size.
Qed.

Lemma skipContinuation_size l r w :
  peekRune l = (r, S w) -> (size (skipContinuation l) < size l)%nat.
Proof.
  intros Hp. unfold skipContinuation. adv. pose proof (past_size _ _ _ Hp).
  pose proof (advance_size (past l r (S w))). case_match;
    [pose proof (advance_size (snd (advance (past l r (S w)))))|]; lia.
Qed.
(** What [next] does on each class of rune, so that later proofs do not
    repeat the case analysis of its body. *)
Lemma next_loop_ind (P : lexer -> Token -> lexer -> Prop) :
  (forall l, l_rest l = [] -> P l (fst (mk l TokenEOF [])) (snd (mk l TokenEOF []))) ->
  (forall l w, peekRune l = (rNL, S w) -> l_atLineStart l = false ->
     P l (mkToken TokenNewline [] (l_file l) (l_line l) (l_col l) false 0)
       (set_atLineStart true (past l rNL (S w)))) ->
  (forall l r w t l', peekRune l = (r, S w) -> P (past l r (S w)) t l' -> P l t l') ->
  (forall l t l', P (incr_pendingBlank l) t l' -> P l t l') ->
  (forall l w t l', peekRune l = (rBSL, S w) -> isLineContinuation l = true ->
     P (skipContinuation l) t l' -> P l t l') ->
  (forall l r w t l', peekRune l = (r, S w) -> starts_word l r -> lexWord l = Ok (t, l') -> P l t l') ->
  (forall l w t l', peekRune l = (rHASH, S w) -> lexComment l = Ok (t, l') -> P l t l') ->
  (forall l r w k tx bl, peekRune l = (r, S w) ->
     (k, tx) ∈ [(TokenOpenBrace, go "{"); (TokenCloseBrace, go "}"); (TokenSemicolon, go ";")] ->
     (k = TokenSemicolon -> bl = false) -> P l (fst (lexPunct l k tx bl)) (snd (lexPunct l k tx bl))) ->
  (forall l w t l', peekRune l = (rDQ, S w) -> lexQuoted l = Ok (t, l') -> P l t l') ->
  forall n l t l', next_loop n l = Ok (t, l') -> P l t l'.
Proof.
  intros Heof Hnl Hskip Hblank Hcont Hword Hcomm Hpunct Hquot.
  induction n as [|n IH]; intros l t l' H; simpl in H; [done|].
  peek l r w E.
  { injection H as H. pose proof (peekRune_width _ _ _ E) as [[_ ?]|[? _]]; [|lia].
    specialize (Heof l). rewrite H in Heof. by apply Heof. }
  destruct (isDisallowedControl r) eqn:Ec; [done|]. adv.
  assert (forall k tx bl, Ok (E := ParseError) (lexPunct l k tx bl) = Ok (t, l') ->
    (k, tx) ∈ [(TokenOpenBrace, go "{"); (TokenCloseBrace, go "}"); (TokenSemicolon, go ";")] ->
    (k = TokenSemicolon -> bl = false) -> P l t l') as Hp.
  { intros k tx bl [= Heq] Hin Hsemi. specialize (Hpunct l r w k tx bl E Hin Hsemi). by rewrite Heq in Hpunct. }
  destruct (Z.eqb_spec r rNL) as [->|].
  { destruct (l_atLineStart (past l rNL (S w))) eqn:Ea; [by eapply Hskip, Hblank, IH|].
    injection H as <- <-. by apply Hnl. }
  destruct (Z.eqb_spec r rCR) as [->|]; [by eapply Hskip, IH|].
  destruct (Z.eqb_spec r rSP), (Z.eqb_spec r rTAB); simpl in H; try by eapply Hskip, IH.
  destruct (Z.eqb_spec r rBSL) as [->|].
  { destruct (isLineContinuation l) eqn:Ei; [by eapply Hcont, IH|].
    eapply Hword; [done| |done]. by left. }
  destruct (Z.eqb_spec r rHASH) as [->|]; [by eapply Hcomm|].
  destruct (Z.eqb_spec r rLB) as [->|].
  { destruct (looksLikePlaceholder l) eqn:Ei; [|by eapply Hp; [done|set_solver|]].
    eapply Hword; [done| |done]. by right; left. }
  destruct (Z.eqb_spec r rRB) as [->|]; [by eapply Hp; [done|set_solver|]|].
  destruct (Z.eqb_spec r rSEMI) as [->|]; [by eapply Hp; [done|set_solver|]|].
  destruct (Z.eqb_spec r rDQ) as [->|]; [by eapply Hquot|].
  eapply Hword; [done| |done]. right; right. split_and!; try done.
  unfold isBlankRune. destruct (Z.eqb_spec r rSP), (Z.eqb_spec r rTAB), (Z.eqb_spec r rNL),
    (Z.eqb_spec r rCR); done.
Qed.

Lemma next_total l : next l <> NoFuel.
Proof.
  unfold next. assert (forall n l, (size l < n)%nat -> next_loop n l <> NoFuel) as H;
    [|apply H; unfold size; lia].
  clear l. induction n as [|n IH]; intros l Hn; [lia|]. simpl.
  peek l r w E; [done|]. adv. pose proof (past_size _ _ _ E).
  pose proof (skipContinuation_size _ _ _ E).
  pose proof (lexWord_total l). pose proof (lexComment_total l). pose proof (lexQuoted_total l).
  repeat case_match; try done; apply IH; try lia. unfold size, incr_pendingBlank in *; simpl in *; lia.
Qed.

Lemma lexWord_kind l t l' : lexWord l = Ok (t, l') -> Kind t = TokenWord.
Proof.
  unfold lexWord. destruct (takeBlank l). intros H. inv_obind. destruct a. by injection H as <- <-.
Qed.
Lemma lexQuoted_kind l t l' : lexQuoted l = Ok (t, l') -> Kind t = TokenWord.
Proof.
  unfold lexQuoted. destruct (takeBlank l), (advance _). intros H. inv_obind. destruct a.
  by injection H as <- <-.
Qed.
Lemma lexComment_kind l t l' : lexComment l = Ok (t, l') -> Kind t = TokenComment.
Proof.
  unfold lexComment. destruct (takeBlank l). intros H. inv_obind. destruct a. by injection H as <- <-.
Qed.

(** Every token but the end of input consumes at least one byte. *)
Lemma next_progress l t l' :
  next l = Ok (t, l') -> Kind t = TokenEOF \/ (size l' < size l)%nat.
Proof.
  unfold next. generalize (S (length (l_rest l))). intros n. revert n l t l'.
  apply (next_loop_ind (fun l t l' => Kind t = TokenEOF \/ (size l' < size l)%nat)).
  - intros l _. left. unfold mk. by destruct (takeBlank l).
  - intros l w E _. right. by apply past_size.
  - intros l r w t l' E [?|?]; [by left|right]. pose proof (past_size _ _ _ E). lia.
  - auto.
  - intros l w t l' E _ [?|?]; [by left|right]. pose proof (skipContinuation_size _ _ _ E). lia.
  - intros l r w t l' E Hs H. right. by eapply lexWord_progress.
  - intros l w t l' E H. right. by eapply lexComment_progress.
  - intros l r w k tx bl E _ _. right. by eapply lexPunct_progress.
  - intros l w t l' E H. right. by eapply lexQuoted_progress.
Qed.
(** ** Control characters never reach a token *)

Definition clean (b : ascii) : Prop := isDisallowedControl (byteZ b) = false.

Lemma clean_high b : 0x80 <= byteZ b -> clean b.
Proof. unfold clean, isDisallowedControl. intros. zcases; try done; lia. Qed.

Lemma Forall_clean_high l : Forall (fun b => 0x80 <= byteZ b) l -> Forall clean l.
Proof. intros H. eapply Forall_impl; [exact H|apply clean_high]. Qed.

Lemma encodeRune_clean r : 0 <= r -> isDisallowedControl r = false -> Forall clean (encodeRune r).
Proof.
  intros H0 H. destruct (decide (r < 0x80)) as [Hl|Hh].
  - rewrite encodeRune_ascii by lia. repeat constructor. unfold clean. by rewrite byteZ_Zbyte by lia.
  - apply Forall_clean_high, encodeRune_high. lia.
Qed.

Lemma decodeRune_nonneg s : 0 <= fst (decodeRune s).
Proof.
  unfold decodeRune, decode2, decode3, decode4, is_cont, RuneError.
  destruct s as [|b0 r]; [done|]. pose proof (byteZ_range b0).
  destruct r as [|b1 [|b2 [|b3 r]]]; simpl; zcases; simpl; lia.
Qed.

Lemma peekRune_nonneg l r w : peekRune l = (r, w) -> 0 <= r.
Proof.
  unfold peekRune. destruct (l_rest l) as [|c s]; [by intros [= <- <-]|].
  intros H. pose proof (decodeRune_nonneg (c :: s)). by rewrite H in *.
Qed.

Lemma peekRune_clean l r w :
  peekRune l = (r, S w) -> isDisallowedControl r = false -> Forall clean (encodeRune r).
Proof. intros E. apply encodeRune_clean. by eapply peekRune_nonneg. Qed.

Lemma take_clean l r w :
  peekRune l = (r, S w) -> isDisallowedControl r = false -> Forall clean (take (S w) (l_rest l)).
Proof.
  unfold peekRune. destruct (l_rest l) as [|c s] eqn:Es; [done|]. intros E Hc.
  destruct (decide (r < 0x80)) as [Hl|Hh].
  - destruct (decodeRune_small (c :: s)) as (b0 & t & Heq & Hb & Hw); [rewrite E; simpl; lia|done|].
    rewrite E in Hb, Hw. simpl in Hb, Hw. injection Hw as ->. injection Heq as <- <-.
    simpl. repeat constructor. unfold clean. by rewrite Hb.
  - pose proof (decodeRune_high (c :: s)) as H. rewrite E in H. simpl in H.
    apply Forall_clean_high, H. lia.
Qed.

Create HintDb lexclean.
#[export] Hint Resolve peekRune_clean take_clean Forall_app_2 : lexclean.

Lemma scanPlaceholder_loop_clean n l b d b' l' :
  Forall clean b -> scanPlaceholder_loop n l b d = Some (b', l') -> Forall clean b'.
Proof.
  revert l b d. induction n as [|n IH]; intros l b d Hb H; simpl in H; [done|].
  peek l r w E; [done|]. destruct (isBlankRune r || isDisallowedControl r) eqn:Ec; [done|]. adv.
  apply orb_false_iff in Ec as [_ Ec].
  assert (Forall clean (b ++ encodeRune r)) by eauto with lexclean.
  repeat case_match; try (by eapply IH in H). by injection H as <- <-.
Qed.

Lemma lexWord_loop_clean n l b b' l' :
  Forall clean b -> lexWord_loop n l b = Ok (b', l') -> Forall clean b'.
Proof.
  revert l b. induction n as [|n IH]; intros l b Hb H; simpl in H; [done|].
  peek l r w E; [by injection H as <- <-|]. adv.
  destruct (Z.eqb_spec r rBSL) as [->|].
  { destruct (isLineContinuation l); [by injection H as <- <-|].
    eapply IH in H; [done|]. apply Forall_app_2; [done|]. by repeat constructor. }
  destruct (isBlankRune r); [by injection H as <- <-|].
  destruct (isDisallowedControl r) eqn:Ec; [by injection H as <- <-|].
  destruct (_ || _); [by injection H as <- <-|].
  destruct (r =? rLB); [|eapply IH in H; eauto with lexclean].
  destruct (scanPlaceholder l) as [[ph l1]|] eqn:Es; [|by injection H as <- <-].
  eapply IH in H; [done|]. apply Forall_app_2; [done|].
  by eapply scanPlaceholder_loop_clean in Es.
Qed.

Lemma lexComment_loop_clean n l b b' l' :
  Forall clean b -> lexComment_loop n l b = Ok (b', l') -> Forall clean b'.
Proof.
  revert l b. induction n as [|n IH]; intros l b Hb H; simpl in H; [done|].
  peek l r w E; [by injection H as <- <-|]. adv.
  destruct (r =? rNL); [by injection H as <- <-|].
  destruct (isDisallowedControl r) eqn:Ec; [by injection H as <- <-|].
  eapply IH in H; eauto with lexclean.
Qed.

Lemma lexQuoted_loop_clean n err l b b' l' :
  Forall clean b -> lexQuoted_loop n err l b = Ok (b', l') -> Forall clean b'.
Proof.
  revert l b. induction n as [|n IH]; intros l b Hb H; simpl in H; [done|].
  peek l r w E; [done|]. adv. destruct (isDisallowedControl r) eqn:Ec; [done|].
  destruct (r =? rBSL).
  - peek (past l r (S w)) r' w' E'; [done|]. adv.
    destruct (isDisallowedControl r') eqn:Ec'; [done|].
    destruct (_ || _); eapply IH in H; eauto with lexclean.
    apply Forall_app_2; [done|]. constructor; [done|eauto with lexclean].
  - destruct (r =? rDQ); [by injection H as <- <-|]. eapply IH in H; eauto with lexclean.
Qed.

Lemma next_clean l t l' : next l = Ok (t, l') -> Forall clean (Text t).
Proof.
  unfold next. generalize (S (length (l_rest l))). intros n. revert n l t l'.
  apply (next_loop_ind (fun l t l' => Forall clean (Text t))); try done.
  - intros l _. unfold mk. destruct (takeBlank l). constructor.
  - intros l r w t l' _ _ H. unfold lexWord in H. destruct (takeBlank l). inv_obind.
    destruct a. injection H as <- <-. by eapply lexWord_loop_clean in Ha.
  - intros l w t l' _ H. unfold lexComment in H. destruct (takeBlank l). inv_obind.
    destruct a as [b l2]. injection H as <- <-. eapply lexComment_loop_clean in Ha; [|done].
    destruct (TrimRight_prefix b [Zbyte rSP; Zbyte rTAB; Zbyte rCR]) as [tl Htl].
    rewrite Htl in Ha. by apply Forall_app in Ha as [? _].
  - intros l r w k tx bl _ Hin _. unfold lexPunct. destruct bl; [destruct (takeBlank l)|];
      destruct (advance _); simpl; (repeat (apply elem_of_cons in Hin as [Hin|Hin];
        [injection Hin as -> ->; by repeat constructor|])); by apply not_elem_of_nil in Hin.
  - intros l w t l' _ H. unfold lexQuoted in H. destruct (takeBlank l), (advance _). inv_obind.
    destruct a. injection H as <- <-. by eapply lexQuoted_loop_clean in Ha.
Qed.

(** ** The token stream *)

Lemma tokenize_loop_total n l toks : (size l < n)%nat -> tokenize_loop n l toks <> NoFuel.
Proof.
  revert l toks. induction n as [|n IH]; intros l toks Hn; [lia|]. simpl.
  destruct (next l) as [[t l']|e|] eqn:E; simpl; try done; [|by apply next_total in E].
  case_bool_decide as Hk; [done|]. apply IH. apply next_progress in E as [?|?]; [done|lia].
Qed.

(** A stream of tokens the parser may consume: one [TokenEOF], at the end. *)
Definition eof_terminated (ts : list Token) : Prop :=
  exists init e, ts = init ++ [e] /\ Kind e = TokenEOF /\
    Forall (fun t => Kind t <> TokenEOF) init.

Lemma tokenize_loop_shape n l toks ts :
  Forall (fun t => Kind t <> TokenEOF) toks ->
  tokenize_loop n l toks = Ok ts -> eof_terminated ts.
Proof.
  revert l toks. induction n as [|n IH]; intros l toks Hf H; simpl in H; [done|].
  inv_obind. destruct a as [t l']. case_bool_decide as Hk.
  - injection H as <-. by exists toks, t.
  - eapply IH in H; [done|]. apply Forall_app_2; [done|by repeat constructor].
Qed.

Lemma tokenize_loop_clean n l toks ts :
  Forall (fun t => Forall clean (Text t)) toks ->
  tokenize_loop n l toks = Ok ts -> Forall (fun t => Forall clean (Text t)) ts.
Proof.
  revert l toks. induction n as [|n IH]; intros l toks Hf H; simpl in H; [done|].
  inv_obind. destruct a as [t l'].
  assert (Forall (fun t => Forall clean (Text t)) (toks ++ [t])).
  { apply Forall_app_2; [done|]. repeat constructor. by eapply next_clean. }
  case_bool_decide; [by injection H as <-|by eapply IH in H].
Qed.

Lemma tokenize_eof file src ts : tokenize file src = Ok ts -> eof_terminated ts.
Proof. by apply tokenize_loop_shape. Qed.

(** Lexing terminates on every input: the lexer yields either a positioned
    error or a token list with exactly one [TokenEOF], as its last element (the
    shape that makes the parser's unchecked [p.toks[p.pos]] reads safe). *)
Theorem tokenize_total file src :
  (exists ts, tokenize file src = Ok ts /\ eof_terminated ts) \/
  (exists e, tokenize file src = Err e).
Proof.
  destruct (tokenize file src) as [ts|e|] eqn:E; [left|right|].
  - exists ts. split; [done|]. by apply tokenize_eof in E.
  - by exists e.
  - by apply tokenize_loop_total in E; [|unfold size; lia].
Qed.

(** No control character other than tab, newline and carriage return is
    ever part of a token's text, quoted, escaped or in a comment: the lexer
    rejects it instead. *)
Theorem tokenize_no_control file src ts t :
  tokenize file src = Ok ts -> t ∈ ts -> Forall clean (Text t).
Proof.
  intros H Ht. eapply tokenize_loop_clean in H; [|constructor].
  rewrite list.Forall_forall in H. by apply H.
Qed.

Lemma tokenize_no_control_witness :
  Forall clean (Text (mkToken TokenWord (go "a b") [] 1 1 true 0)).
Proof.
  apply (tokenize_no_control [] ([Zbyte 34] ++ go "a b" ++ [Zbyte 34])
    [mkToken TokenWord (go "a b") [] 1 1 true 0; mkToken TokenEOF [] [] 1 6 false 0]).
  - vm_compute. reflexivity.
  - apply list_elem_of_here.
Defined.

Example tokenize_example :
  match tokenize [] (go "a {" ++ [Zbyte 10] ++ go "  b " ++ [Zbyte 34] ++ go "x y" ++ [Zbyte 34]
                     ++ go " # hi" ++ [Zbyte 10] ++ go "}") with
  | Ok ts => map (fun t => (Kind t, Text t, Line t, Col t)) ts
  | _ => []
  end
  = [(TokenWord, go "a", 1, 1); (TokenOpenBrace, go "{", 1, 3); (TokenNewline, [], 1, 4);
     (TokenWord, go "b", 2, 3); (TokenWord, go "x y", 2, 5); (TokenComment, go "# hi", 2, 11);
     (TokenNewline, [], 2, 15); (TokenCloseBrace, go "}", 3, 1); (TokenEOF, [], 3, 2)].
Proof. vm_compute. reflexivity. Qed.
