(* ===== verification/Quote.v ===== *)
(** * Rendering words back to source ([internal/cadishfile/format.go], the quoter)

    [quote], [needsQuoting], [formatWord] and [QuoteArg], and the round trip
    with the lexer: a quoted value is always read back as one word token with
    the same text, whatever bytes it contains (valid UTF-8, no control
    characters), so generated configuration text cannot be broken out of. *)

From stdpp Require Import base strings pretty numbers gmap list.
From S2P Require Import Prelude GoStrings Ast Lex.
Open Scope Z_scope.

Definition DQ : ascii := Zbyte rDQ.

(** [needsQuoting]. *)
Definition needsQuotingByte (c : ascii) : bool :=
  (c =b " ") || (c =b Zbyte rTAB) || (c =b Zbyte rNL) || (c =b Zbyte rCR) || (c =b DQ) || (c =b ";").

Definition needsQuoting (text : bytes) : bool :=
  match text with
  | [] => true
  | c0 :: _ =>
      if bool_decide (last text = Some "\"%char) then true
      else if c0 =b "#" then true
      else existsb needsQuotingByte text
  end.

(** [quote]. *)
Definition quoteByte (c : ascii) : bytes :=
  if (c =b "\") || (c =b DQ) then ["\"%char; c] else [c].

Definition quote (text : bytes) : bytes := [DQ] ++ flat_map quoteByte text ++ [DQ].

(** [formatWord]. *)
Definition formatWord (t : Token) : bytes :=
  if Quoted t || needsQuoting (Text t) then quote (Text t) else Text t.

(** [QuoteArg]. *)
Definition QuoteArg (text : bytes) : bytes :=
  if needsQuoting text
     || match IndexByte text "{" with Some _ => true | None => false end
     || match IndexByte text "}" with Some _ => true | None => false end
  then quote text else text.

(** ** Reading a rune that is known *)

Lemma peek_encoded l r s :
  l_rest l = encodeRune r ++ s -> valid_rune r ->
  exists w, peekRune l = (r, S w) /\ l_rest (past l r (S w)) = s.
Proof.
  intros Hl Hv. pose proof (encodeRune_nonempty r) as Hne.
  unfold peekRune, past. rewrite Hl. simpl.
  pose proof (decode_encode r s Hv) as Hd.
  destruct (encodeRune r) as [|c e] eqn:E; [done|].
  exists (length e). split; [exact Hd|].
  change (S (length e)) with (length (c :: e)). by rewrite drop_app_length.
Qed.

(** The valid texts a word can carry: UTF-8 without control characters. *)
Definition word_text (s : bytes) : Prop := utf8 s /\ Forall clean s.

Lemma quoteByte_high r :
  0x80 <= r -> flat_map quoteByte (encodeRune r) = encodeRune r.
Proof.
  intros Hr. pose proof (encodeRune_high r Hr) as H.
  induction H as [|b l Hb _ IH]; simpl; [done|]. rewrite IH.
  unfold quoteByte. rewrite !eqb_byteZ.
  change (byteZ "\") with rBSL. change (byteZ DQ) with rDQ.
  destruct (Z.eqb_spec (byteZ b) rBSL), (Z.eqb_spec (byteZ b) rDQ); try done; lia.
Qed.

Lemma clean_rune r s :
  valid_rune r -> Forall clean (encodeRune r ++ s) ->
  isDisallowedControl r = false /\ Forall clean s.
Proof.
  intros Hv H. apply Forall_app in H as [H1 H2]. split; [|done].
  destruct (decide (r < 0x80)) as [Hl|Hh].
  - unfold valid_rune in Hv. rewrite encodeRune_ascii in H1 by lia. inversion H1 as [|? ? Hc _]; subst.
    unfold clean in Hc. by rewrite byteZ_Zbyte in Hc by lia.
  - unfold isDisallowedControl. zcases; try done; lia.
Qed.

(** The quoted-string loop reads back what [quote] wrote. *)
Lemma lexQuoted_loop_quote s n err l b rest :
  utf8 s -> Forall clean s -> (length (l_rest l) < n)%nat ->
  l_rest l = flat_map quoteByte s ++ [DQ] ++ rest ->
  exists l', lexQuoted_loop n err l b = Ok (b ++ s, l') /\ l_rest l' = rest.
Proof.
  intros Hu. revert n l b. induction Hu as [|r s Hv Hu IH]; intros n l b Hc Hn Hl.
  - destruct n as [|n]; [lia|]. simpl in Hl.
    destruct (peek_encoded l rDQ rest) as (w & Hp & Hr); [done|unfold valid_rune; lia|].
    cbn [lexQuoted_loop]. rewrite Hp. rewrite (advance_eq _ _ _ Hp). cbn.
    eexists. by rewrite app_nil_r.
  - destruct n as [|n]; [lia|]. apply clean_rune in Hc as [Hd Hc]; [|done].
    rewrite flat_map_app, <- app_assoc in Hl.
    destruct (decide (r = rBSL \/ r = rDQ)) as [Hesc|Hno].
    + assert (flat_map quoteByte (encodeRune r) = encodeRune rBSL ++ encodeRune r) as Hq
        by by destruct Hesc as [->| ->].
      rewrite Hq, <- app_assoc in Hl.
      destruct (peek_encoded l rBSL _ Hl) as (w & Hp & Hr); [unfold valid_rune; lia|].
      destruct (peek_encoded _ r _ Hr) as (w' & Hp' & Hr'); [done|].
      pose proof (past_size _ _ _ Hp). pose proof (past_size _ _ _ Hp'). unfold size in *.
      destruct (IH n (past (past l rBSL (S w)) r (S w')) (b ++ encodeRune r))
        as (l' & H1 & H2); [done|lia|done|].
      exists l'. split; [|done]. rewrite app_assoc, <- H1. cbn [lexQuoted_loop].
      rewrite Hp. rewrite (advance_eq _ _ _ Hp). cbn. rewrite Hp', Hd, (advance_eq _ _ _ Hp').
      by destruct Hesc as [->| ->].
    + assert (flat_map quoteByte (encodeRune r) = encodeRune r) as Hq.
      { destruct (decide (r < 0x80)) as [Hl'|]; [|apply quoteByte_high; lia].
        unfold valid_rune in Hv. rewrite encodeRune_ascii by lia. simpl. unfold quoteByte.
        rewrite !eqb_byteZ, byteZ_Zbyte by lia. change (byteZ "\") with rBSL.
        change (byteZ DQ) with rDQ.
        destruct (Z.eqb_spec r rBSL), (Z.eqb_spec r rDQ); try done; tauto. }
      rewrite Hq in Hl. destruct (peek_encoded l r _ Hl) as (w & Hp & Hr); [done|].
      pose proof (past_size _ _ _ Hp). unfold size in *.
      destruct (IH n (past l r (S w)) (b ++ encodeRune r)) as (l' & H1 & H2); [done|lia|done|].
      exists l'. split; [|done]. rewrite app_assoc, <- H1. cbn [lexQuoted_loop].
      rewrite Hp, Hd, (advance_eq _ _ _ Hp).
      destruct (Z.eqb_spec r rBSL), (Z.eqb_spec r rDQ); try done; tauto.
Qed.

(** ** Bare words *)

Definition bare_byte (c : ascii) : Prop :=
  needsQuotingByte c = false /\ c <> "{"%char /\ c <> "}"%char.

(** What may follow a bare word: the end of input or a byte that ends it. *)
Definition delimited (rest : bytes) : Prop :=
  match rest with
  | [] => True
  | c :: _ => c ∈ [Zbyte rSP; Zbyte rTAB; Zbyte rNL; Zbyte rCR; Zbyte rSEMI; Zbyte rRB]
  end.

Lemma bare_rune r s :
  valid_rune r -> Forall bare_byte (encodeRune r ++ s) ->
  isBlankRune r = false /\ r <> rDQ /\ r <> rSEMI /\ r <> rLB /\ r <> rRB /\ Forall bare_byte s.
Proof.
  intros Hv H. apply Forall_app in H as [H1 H2]. unfold isBlankRune.
  destruct (decide (r < 0x80)) as [Hl|Hh]; [|split_and!; try done; zcases; try done; lia].
  unfold valid_rune in Hv. rewrite encodeRune_ascii in H1 by lia.
  inversion H1 as [|? ? (Hq & Hb1 & Hb2) _]; subst.
  unfold needsQuotingByte in Hq. rewrite !eqb_byteZ, byteZ_Zbyte in Hq by lia.
  change (byteZ " ") with rSP in Hq. change (byteZ (Zbyte rTAB)) with rTAB in Hq.
  change (byteZ (Zbyte rNL)) with rNL in Hq. change (byteZ (Zbyte rCR)) with rCR in Hq.
  change (byteZ DQ) with rDQ in Hq. change (byteZ ";") with rSEMI in Hq.
  apply orb_false_iff in Hq as [Hq ?]. apply orb_false_iff in Hq as [-> ?].
  split_and!; try done; try (intros ->; done).
Qed.

Lemma delimited_stop n l b rest :
  l_rest l = rest -> delimited rest -> lexWord_loop (S n) l b = Ok (b, l).
Proof.
  intros Hl Hd. destruct rest as [|c rest].
  - cbn [lexWord_loop]. unfold peekRune. by rewrite Hl.
  - assert (byteZ c < 0x80) as Hc.
    { cbn in Hd. rewrite !elem_of_cons in Hd. destruct_or! Hd; subst; cbv; try done.
      by apply not_elem_of_nil in Hd. }
    assert (peekRune l = (byteZ c, 1%nat)) as Hp.
    { unfold peekRune. rewrite Hl. by apply decodeRune_ascii. }
    cbn [lexWord_loop]. rewrite Hp. cbn in Hd. rewrite !elem_of_cons in Hd.
    destruct_or! Hd; subst; try done. by apply not_elem_of_nil in Hd.
Qed.

Lemma last_app_ne (s t : bytes) x : t <> [] -> last (s ++ t) = Some x -> last t = Some x.
Proof.
  intros Ht. destruct (decide (t = [])) as [->|_]; [done|].
  rewrite last_app. destruct (last t) as [y|] eqn:E; [done|]. apply last_None in E. done.
Qed.

(** A backslash inside a bare word is never a line continuation. *)
Lemma bare_no_continuation l s rest :
  l_rest l = Zbyte rBSL :: s ++ rest -> Forall bare_byte s -> s <> [] ->
  isLineContinuation l = false.
Proof.
  intros Hl Hb Hs. unfold isLineContinuation. rewrite Hl. simpl. rewrite drop_0.
  destruct s as [|c s]; [done|]. inversion Hb as [|? ? (Hq & _ & _) _]; subst.
  unfold needsQuotingByte in Hq. rewrite !orb_false_iff in Hq. destruct Hq as [[[[[_ _] Hnl] Hcr] _] _].
  apply Ascii.eqb_neq in Hnl, Hcr.
  unfold TrimPrefix. destruct (HasPrefix _ [Zbyte rCR]) eqn:E.
  { apply HasPrefix_cons in E as (s' & [= ? _] & _). done. }
  destruct (HasPrefix _ [Zbyte rNL]) eqn:E'; [|done].
  apply HasPrefix_cons in E' as (s' & [= ? _] & _). done.
Qed.

Lemma lexWord_loop_bare s n l b rest :
  utf8 s -> Forall clean s -> Forall bare_byte s -> last s <> Some "\"%char -> delimited rest ->
  (size l < n)%nat -> l_rest l = s ++ rest ->
  exists l', lexWord_loop n l b = Ok (b ++ s, l') /\ l_rest l' = rest.
Proof.
  intros Hu. revert n l b. induction Hu as [|r s Hv Hu IH]; intros n l b Hc Hb Hlast Hd Hn Hl.
  - destruct n as [|n]; [lia|]. exists l. rewrite app_nil_r. split; [|done].
    by eapply delimited_stop.
  - destruct n as [|n]; [lia|]. apply clean_rune in Hc as [Hctl Hc]; [|done].
    assert (Forall bare_byte (encodeRune r ++ s)) as Hb' by done.
    apply bare_rune in Hb as (Hbl & ? & ? & ? & ? & Hb); [|done].
    rewrite <- app_assoc in Hl. destruct (peek_encoded l r _ Hl) as (w & Hp & Hr); [done|].
    pose proof (past_size _ _ _ Hp). unfold size in *.
    assert (last s <> Some "\"%char) as Hlast'.
    { intros Hs. apply Hlast. rewrite last_app. by rewrite Hs. }
    destruct (IH n (past l r (S w)) (b ++ encodeRune r)) as (l' & H1' & H2'); try done; [lia|].
    exists l'. split; [|done]. rewrite app_assoc, <- H1'. cbn [lexWord_loop].
    rewrite Hp, (advance_eq _ _ _ Hp), Hbl, Hctl.
    destruct (Z.eqb_spec r rBSL) as [->|].
    { erewrite (bare_no_continuation l s rest); try done. intros ->. by apply Hlast. }
    destruct (Z.eqb_spec r rSEMI), (Z.eqb_spec r rRB), (Z.eqb_spec r rLB); done.
Qed.

Lemma needsQuoting_false text :
  needsQuoting text = false ->
  text <> [] /\ last text <> Some "\"%char /\ (forall s, text <> "#"%char :: s) /\
  Forall (fun c => needsQuotingByte c = false) text.
Proof.
  destruct text as [|c0 s]; [done|]. unfold needsQuoting. case_bool_decide as Hl; [done|].
  destruct (Ascii.eqb_spec c0 "#") as [|Hh]; [done|]. intros He. split_and!; try done.
  - intros s' [= ->]. done.
  - apply list.Forall_forall. intros x Hx. destruct (needsQuotingByte x) eqn:E; [|done].
    exfalso. apply not_true_iff_false in He. apply He, existsb_exists. exists x.
    split; [by apply list_elem_of_In|done].
Qed.

Lemma QuoteArg_cases text :
  (QuoteArg text = quote text) \/
  (QuoteArg text = text /\ text <> [] /\ last text <> Some "\"%char /\
   (forall s, text <> "#"%char :: s) /\ Forall bare_byte text).
Proof.
  unfold QuoteArg. destruct (needsQuoting text) eqn:En; [by left|].
  destruct (IndexByte text "{") eqn:E1; [by left|].
  destruct (IndexByte text "}") eqn:E2; [by left|]. right.
  apply needsQuoting_false in En as (?&?&?&Hq). apply IndexByte_None in E1, E2.
  split_and!; try done. rewrite list.Forall_forall in *. intros x Hx. split_and!; [by apply Hq| |];
    intros ->; done.
Qed.

(** The lexer's dispatch on the first rune of a bare word. *)
Lemma next_bare l r s rest :
  l_rest l = encodeRune r ++ s ++ rest -> valid_rune r -> r <> rHASH ->
  isDisallowedControl r = false -> Forall bare_byte (encodeRune r ++ s) ->
  last (encodeRune r ++ s) <> Some "\"%char -> next l = lexWord l.
Proof.
  intros Hl Hv Hh Hctl Hb Hlast.
  destruct (peek_encoded l r _ Hl) as (w & Hp & _); [done|].
  unfold next. cbn [next_loop]. rewrite Hp, Hctl.
  destruct (bare_rune r s Hv Hb) as (Hbl & Hdq & Hse & Hlb & Hrb & Hb').
  unfold isBlankRune in Hbl. rewrite !orb_false_iff in Hbl. destruct Hbl as [[[-> ->] ->] ->].
  destruct (Z.eqb_spec r rBSL) as [->|].
  { rewrite (bare_no_continuation l s rest); try done. intros ->. by apply Hlast. }
  destruct (Z.eqb_spec r rHASH), (Z.eqb_spec r rLB), (Z.eqb_spec r rRB), (Z.eqb_spec r rSEMI),
    (Z.eqb_spec r rDQ); done.
Qed.

(** [QuoteArg] cannot be broken out of: whatever valid UTF-8 text without
    control characters it renders, the lexer, from any state whose input starts
    with the rendering and a word delimiter, reads exactly one word token with
    that text and stops right after the rendering. *)
Theorem QuoteArg_roundtrip text rest l :
  word_text text -> delimited rest -> l_rest l = QuoteArg text ++ rest ->
  exists t l', next l = Ok (t, l') /\ Kind t = TokenWord /\ Text t = text /\ l_rest l' = rest.
Proof.
  intros [Hu Hc] Hd Hl. destruct (QuoteArg_cases text) as [Hq|(Hq & Hne & Hlast & Hh & Hb)];
    rewrite Hq in Hl.
  - unfold quote in Hl. rewrite <- app_assoc in Hl.
    destruct (peek_encoded l rDQ _ Hl) as (w & Hp & Hr); [unfold valid_rune; lia|].
    unfold next. cbn [next_loop]. rewrite Hp. cbn.
    unfold lexQuoted. pose proof (peekRune_takeBlank l) as Hpb. pose proof (takeBlank_rest l) as Hrb.
    destruct (takeBlank l) as [bl l1]. simpl in Hpb, Hrb. rewrite Hp in Hpb.
    rewrite (advance_eq _ _ _ Hpb).
    destruct (lexQuoted_loop_quote text (S (size (past l1 rDQ (S w))))
      (mkParseError (l_file l) (l_line l) (l_col l) MsgUnterminatedString)
      (past l1 rDQ (S w)) [] rest) as (l' & H1 & H2); [done|done|unfold size; lia| |].
    { unfold past in *. simpl in *. rewrite Hrb, Hr. by rewrite <- app_assoc. }
    unfold size in H1. rewrite H1. simpl. by do 2 eexists.
  - destruct Hu as [|r s Hv Hu]; [done|].
    destruct (clean_rune r s Hv Hc) as [Hctl _]. rewrite <- app_assoc in Hl.
    rewrite (next_bare l r s rest); try done; [|intros ->; by eapply (Hh s)].
    unfold lexWord. pose proof (takeBlank_rest l) as Hrb. destruct (takeBlank l) as [bl l1].
    simpl in Hrb. rewrite app_assoc in Hl.
    destruct (lexWord_loop_bare (encodeRune r ++ s) (S (size l1)) l1 [] rest)
      as (l' & H1 & H2); try done; [by constructor|lia|by rewrite Hrb|].
    unfold size in H1. rewrite H1. simpl. by do 2 eexists.
Qed.

Lemma utf8_ascii s : Forall (fun b => byteZ b < 0x80) s -> utf8 s.
Proof.
  induction 1 as [|b s Hb _ IH]; [constructor|].
  pose proof (byteZ_range b).
  change (b :: s) with ([b] ++ s). rewrite <- (encodeRune_byte b) by done.
  constructor; [unfold valid_rune; lia|done].
Qed.

(** Splits a [Forall] over a literal list and evaluates each instance. *)
Ltac forall_literal := repeat (apply List.Forall_cons; [by vm_compute|]); apply List.Forall_nil.

Lemma QuoteArg_roundtrip_witness :
  exists t l', next (newLexer [] (QuoteArg (go "a}; b") ++ go " x")) = Ok (t, l') /\
    Kind t = TokenWord /\ Text t = go "a}; b" /\ l_rest l' = go " x".
Proof.
  apply (QuoteArg_roundtrip (go "a}; b") (go " x") (newLexer [] (QuoteArg (go "a}; b") ++ go " x"))).
  - split; [apply utf8_ascii|]; cbn; forall_literal.
  - cbn. apply elem_of_cons. by left.
  - by vm_compute.
Defined.
