(* ===== verification/Parse.v ===== *)
(** * The Cadishfile parser ([internal/cadishfile/parse.go])

    A recursive-descent parser over the token list.  The cursor [p.toks[p.pos:]]
    is the list of remaining tokens, so that reading past the last token (an
    index-out-of-range panic in Go) is the explicit outcome [Panic]; the
    block-nesting counter is an argument, because the code restores it on every
    exit from [parseBlockBody]. *)

From stdpp Require Import base strings pretty numbers gmap list.
From S2P Require Import Prelude GoStrings Ast Lex Quote.
Open Scope Z_scope.

Definition maxBlockDepth : Z := 1000.

Inductive perr : Type :=
| PE (e : ParseError)
| Panic.

Definition isKind (k : TokenKind) (t : Token) : bool := bool_decide (Kind t = k).

(** ** The cursor *)

Definition cur (ts : list Token) : outcome perr Token :=
  match ts with
  | t :: _ => Ok t
  | [] => Err Panic
  end.

(** [next] never advances past the end of input. *)
Definition pnext (ts : list Token) : outcome perr (Token * list Token) :=
  match ts with
  | t :: r => Ok (t, if isKind TokenEOF t then ts else r)
  | [] => Err Panic
  end.

Fixpoint skipSeparators (ts : list Token) : list Token :=
  match ts with
  | t :: r =>
      match Kind t with
      | TokenNewline | TokenSemicolon | TokenComment => skipSeparators r
      | _ => ts
      end
  | [] => []
  end.

(** ** Address shapes *)

Definition allDigits (s : bytes) : bool := forallb (fun r => (0x30 <=? r) && (r <=? 0x39)) (runes s).

Definition isHostRune (r : Z) : bool :=
  ((0x61 <=? r) && (r <=? 0x7a)) || ((0x41 <=? r) && (r <=? 0x5a)) ||
  ((0x30 <=? r) && (r <=? 0x39)) || (r =? 0x2e) || (r =? 0x2d) || (r =? 0x5f).

Definition isAddressToken (text : bytes) : bool :=
  let text := TrimSuffix text (go ",") in
  if bool_decide (text = []) then true
  else if HasPrefix text (go ":") then
    let rest := drop 1 text in
    if bool_decide (rest = []) then false else allDigits rest
  else
    let text := match Index text (go "://") with Some i => drop (i + 3) text | None => text end in
    let text := match IndexAny text (go "/?#") with Some i => take i text | None => text end in
    let text := TrimPrefix text (go "*.") in
    if bool_decide (text = []) then false
    else if HasPrefix text (go "[") then Contains text (go "]")
    else
      let text := match LastIndexByte text ":" with Some i => take i text | None => text end in
      if bool_decide (text = []) then false else forallb isHostRune (runes text).

Definition neverDirectiveShaped (text : bytes) : bool :=
  if Contains text (go "://") then true
  else if HasPrefix text (go "[") then true
  else if HasPrefix text (go ":") then
    let rest := drop 1 text in
    if bool_decide (rest = []) then false else allDigits rest
  else false.

Definition clearlyHostnameShaped (text : bytes) : bool :=
  let text := TrimSuffix text (go ",") in
  if neverDirectiveShaped text then true
  else isAddressToken text &&
       (Contains text (go ".") || bool_decide (text = go "localhost") || Contains text (go ":")).

(** [splitAddressToken]. *)
Definition splitAddressToken (text : bytes) : list bytes :=
  if negb (Contains text (go ",")) then [text]
  else filter (fun p => p <> []) (map TrimSpace (SplitByte text ",")).

(** ** Look-ahead *)

Fixpoint startsSiteBlock_loop (ts : list Token) (addrList : bool) : bool :=
  match ts with
  | [] => false
  | t :: r =>
      match Kind t with
      | TokenOpenBrace => true
      | TokenWord =>
          startsSiteBlock_loop r
            (if Quoted t || negb (isAddressToken (Text t)) || negb (HasSuffix (Text t) (go ","))
             then false else addrList)
      | TokenComment => startsSiteBlock_loop r addrList
      | TokenNewline => if addrList then startsSiteBlock_loop r addrList else false
      | TokenSemicolon | TokenCloseBrace | TokenEOF => false
      end
  end.

Definition startsSiteBlock (ts : list Token) : outcome perr bool :=
  let! first := cur ts in
  Ok (if isKind TokenWord first && negb (Quoted first) && HasPrefix (Text first) (go "@") then false
      else startsSiteBlock_loop ts true).

Fixpoint unseparatedAddrWrap_loop (ts : list Token) (clearCount : nat) (sawSep : bool) : bool :=
  match ts with
  | [] => false
  | t :: r =>
      match Kind t with
      | TokenWord =>
          if Quoted t || negb (isAddressToken (Text t)) then false
          else unseparatedAddrWrap_loop r
                 (if clearlyHostnameShaped (Text t) then S clearCount else clearCount) sawSep
      | TokenNewline | TokenSemicolon => unseparatedAddrWrap_loop r clearCount true
      | TokenComment => unseparatedAddrWrap_loop r clearCount sawSep
      | TokenOpenBrace => sawSep && (2 <=? clearCount)%nat
      | TokenCloseBrace | TokenEOF => false
      end
  end.

Definition unseparatedAddrWrap (ts : list Token) : outcome perr (Token * bool) :=
  let! first := cur ts in
  Ok (first,
      if negb (isKind TokenWord first) || Quoted first || HasPrefix (Text first) (go "@") then false
      else if negb (clearlyHostnameShaped (Text first)) then false
      else unseparatedAddrWrap_loop ts 0 false).

(** ** Statements *)

Section Parser.
Context (file : bytes).

Definition errf {A} (t : Token) (m : errMsg) : outcome perr A :=
  Err (PE (mkParseError file (Line t) (Col t) m)).

Definition tokArg (t : Token) : Arg :=
  mkArg (Text t) (Quoted t) (classifyArg (Text t) (Quoted t)) (tokPos file t).

Fixpoint parseArgs (ts : list Token) (args : list Arg) : outcome perr (list Arg * list Token) :=
  match ts with
  | [] => Err Panic
  | t :: r =>
      match Kind t with
      | TokenWord => parseArgs r (args ++ [tokArg t])
      | TokenNewline | TokenSemicolon | TokenOpenBrace | TokenCloseBrace
      | TokenComment | TokenEOF => Ok (args, ts)
      end
  end.

Definition expectStatementEnd (ts : list Token) : outcome perr (list Token) :=
  let! t := cur ts in
  match Kind t with
  | TokenNewline | TokenSemicolon | TokenComment => let! (_, ts') := pnext ts in Ok ts'
  | TokenCloseBrace | TokenEOF => Ok ts
  | k => errf t (MsgAfterStatement k)
  end.

Definition parseMatcherDef (ts : list Token) : outcome perr (Node * list Token) :=
  let! (nameTok, ts) := pnext ts in
  let name := TrimPrefix (Text nameTok) (go "@") in
  if bool_decide (name = []) then errf nameTok MsgEmptyMatcherName
  else
    let! typTok := cur ts in
    if negb (isArgToken typTok) then errf nameTok (MsgMatcherNoType name)
    else if Quoted typTok || HasPrefix (Text typTok) (go "@") || containsPlaceholder (Text typTok)
            || needsQuoting (Text typTok)
    then errf typTok (MsgMatcherBadType name (Text typTok))
    else
      let! (_, ts) := pnext ts in
      let! (args, ts) := parseArgs ts [] in
      let! t := cur ts in
      if isKind TokenOpenBrace t then errf t (MsgMatcherBlock name)
      else
        let! ts := expectStatementEnd ts in
        Ok (MatcherDef name (Text typTok) args (tokPos file nameTok), ts).

(** [parseDirective] and [parseStatement] take the block parser they call. *)
Definition parseDirective
    (parseBlockBody : Token -> list Token -> outcome perr (list Node * list Token))
    (ts : list Token) : outcome perr (Node * list Token) :=
  let! (nameTok, ts) := pnext ts in
  let! (args, ts) := parseArgs ts [] in
  let! t := cur ts in
  if isKind TokenOpenBrace t then
    let! (opn, ts) := pnext ts in
    let! (block, ts) := parseBlockBody opn ts in
    let! ts := expectStatementEnd ts in
    Ok (Directive (Text nameTok) args block true (tokPos file nameTok), ts)
  else
    let! ts := expectStatementEnd ts in
    Ok (Directive (Text nameTok) args [] false (tokPos file nameTok), ts).

Definition parseStatement
    (parseBlockBody : Token -> list Token -> outcome perr (list Node * list Token))
    (ts : list Token) : outcome perr (Node * list Token) :=
  let! first := cur ts in
  if negb (isKind TokenWord first) then errf first (MsgExpectedName (Kind first))
  else if negb (Quoted first) && HasPrefix (Text first) (go "@") then parseMatcherDef ts
  else parseDirective parseBlockBody ts.

(** The entry of [parseBlockBody] and its loop; [depth] is the value of the
    nesting counter inside the block. *)
Definition enterBlock
    (loop : Z -> Token -> list Token -> list Node -> outcome perr (list Node * list Token))
    (depth : Z) (opn : Token) (ts : list Token) : outcome perr (list Node * list Token) :=
  if maxBlockDepth <? depth + 1 then errf opn MsgTooDeep else loop (depth + 1) opn ts [].

Fixpoint blockLoop (n : nat) (depth : Z) (opn : Token) (ts : list Token) (body : list Node)
    : outcome perr (list Node * list Token) :=
  match n with
  | O => NoFuel
  | S n =>
      let ts := skipSeparators ts in
      let! t := cur ts in
      match Kind t with
      | TokenCloseBrace => let! (_, ts) := pnext ts in Ok (body, ts)
      | TokenEOF => errf opn MsgUnterminatedBlock
      | _ =>
          let! (stmt, ts) := parseStatement (enterBlock (blockLoop n) depth) ts in
          blockLoop n depth opn ts (body ++ [stmt])
      end
  end.

Definition parseBlockBody (n : nat) (depth : Z)
    : Token -> list Token -> outcome perr (list Node * list Token) :=
  enterBlock (blockLoop n) depth.

Fixpoint parseFragmentBody (n : nat) (ts : list Token) (body : list Node)
    : outcome perr (list Node) :=
  match n with
  | O => NoFuel
  | S n =>
      let ts := skipSeparators ts in
      let! t := cur ts in
      match Kind t with
      | TokenEOF => Ok body
      | TokenCloseBrace => errf t MsgFragmentClose
      | _ =>
          let! (stmt, ts) := parseStatement (parseBlockBody n 0) ts in
          parseFragmentBody n ts (body ++ [stmt])
      end
  end.

Definition parseGlobalOptions (n : nat) (ts : list Token) : outcome perr (Options * list Token) :=
  let! (opn, ts) := pnext ts in
  let! (body, ts) := parseBlockBody n 0 opn ts in
  Ok (mkOptions body (tokPos file opn), ts).

(** The address loop of [parseSite], up to the opening brace. *)
Fixpoint siteAddresses (ts : list Token) (addrs : list bytes)
    : outcome perr (list bytes * Token * list Token) :=
  match ts with
  | [] => Err Panic
  | t :: r =>
      match Kind t with
      | TokenOpenBrace =>
          if bool_decide (addrs = []) then errf t MsgNoAddress else Ok (addrs, t, r)
      | TokenWord => siteAddresses r (addrs ++ splitAddressToken (Text t))
      | TokenNewline | TokenComment => siteAddresses r addrs
      | TokenEOF => errf t (MsgSiteEOF addrs)
      | TokenCloseBrace => errf t MsgSiteClose
      | TokenSemicolon => errf t MsgSiteSemicolon
      end
  end.

Definition parseSite (n : nat) (ts : list Token) : outcome perr (Site * list Token) :=
  let! first := cur ts in
  let! (addrs, opn, ts) := siteAddresses ts [] in
  let! (body, ts) := parseBlockBody n 0 opn ts in
  Ok (mkSite addrs body (tokPos file first), ts).

(** The top-level loop of [parseFile], after the global options. *)
Fixpoint fileLoop (n : nat) (ts : list Token) (f : CFile) : outcome perr CFile :=
  match n with
  | O => NoFuel
  | S n =>
      let! t := cur ts in
      if isKind TokenEOF t then Ok f
      else if isKind TokenCloseBrace t then errf t MsgUnexpectedCloseTop
      else
        let! site := startsSiteBlock ts in
        if site : bool then
          let! (s, ts) := parseSite n ts in
          fileLoop n (skipSeparators ts) (mkCFile (Global f) (Sites f ++ [s]) (f_body f))
        else
          let! (tok, bad) := unseparatedAddrWrap ts in
          if bad : bool then errf tok MsgAddrWrap
          else
            let! (stmt, ts) := parseStatement (parseBlockBody n 0) ts in
            fileLoop n (skipSeparators ts) (mkCFile (Global f) (Sites f) (f_body f ++ [stmt]))
  end.

Definition parseFile (ts : list Token) : outcome perr CFile :=
  let n := S (length ts) in
  let ts := skipSeparators ts in
  let! t := cur ts in
  if isKind TokenOpenBrace t then
    let! (opts, ts) := parseGlobalOptions n ts in
    fileLoop n (skipSeparators ts) (mkCFile (Some opts) [] [])
  else fileLoop n ts (mkCFile None [] []).
End Parser.

Definition lift_lex {A} (m : outcome ParseError A) : outcome perr A :=
  match m with Ok a => Ok a | Err e => Err (PE e) | NoFuel => NoFuel end.

(** [Parse]. *)
Definition Parse (filename src : bytes) : outcome perr CFile :=
  let! toks := lift_lex (tokenize filename src) in parseFile filename toks.

(** [ParseFragment]. *)
Definition ParseFragment (filename src : bytes) : outcome perr (list Node) :=
  let! toks := lift_lex (tokenize filename src) in
  parseFragmentBody filename (S (length toks)) toks [].

Example parse_example :
  Parse [] (go "a.com, b.com { pass @x; tls { acme me } }") =
  Ok (mkCFile None
        [mkSite [go "a.com"; go "b.com"]
           [Directive (go "pass") [mkArg (go "@x") false ArgMatcherRef (mkPos [] 1 21)] [] false (mkPos [] 1 16);
            Directive (go "tls") [] [Directive (go "acme") [mkArg (go "me") false ArgLiteral (mkPos [] 1 36)] [] false (mkPos [] 1 31)] true (mkPos [] 1 25)]
           (mkPos [] 1 1)] []).
Proof. vm_compute. reflexivity. Qed.

(** ** Safety: no panic, no divergence *)

Lemma eof_nonempty ts : eof_terminated ts -> exists t r, ts = t :: r.
Proof. intros (init & e & -> & _ & _). destruct init; simpl; eauto. Qed.

Lemma eof_tail t r : eof_terminated (t :: r) -> Kind t <> TokenEOF -> eof_terminated r.
Proof.
  intros (init & e & Heq & He & Hf) Ht. destruct init as [|x init]; simpl in Heq.
  - injection Heq as -> ->. done.
  - injection Heq as -> ->. inversion Hf; subst. by exists init, e.
Qed.

Lemma eof_head t r : eof_terminated (t :: r) -> Kind t = TokenEOF -> r = [].
Proof.
  intros (init & e & Heq & He & Hf) Ht. destruct init as [|x init]; simpl in Heq.
  - by injection Heq as -> ->.
  - injection Heq as -> ->. by inversion Hf.
Qed.

(** A parser step that leaves a well-terminated cursor of fewer than [k]
    tokens, or a positioned error. *)
Definition advances {A} (k : nat) (m : outcome perr (A * list Token)) : Prop :=
  match m with
  | Ok (_, ts) => eof_terminated ts /\ (length ts < k)%nat
  | Err (PE _) => True
  | Err Panic | NoFuel => False
  end.

Lemma advances_bind {A B} k k' (m : outcome perr (A * list Token))
    (f : A * list Token -> outcome perr (B * list Token)) :
  advances k' m ->
  (forall a ts, m = Ok (a, ts) -> eof_terminated ts -> (length ts < k')%nat -> advances k (f (a, ts))) ->
  advances k (obind m f).
Proof.
  destruct m as [[a ts]|[e|]|]; simpl; try done. intros [H1 H2] H. by apply H.
Qed.

Lemma skipSeparators_ok ts :
  eof_terminated ts ->
  eof_terminated (skipSeparators ts) /\ (length (skipSeparators ts) <= length ts)%nat.
Proof.
  induction ts as [|t r IH]; intros H; [by apply eof_nonempty in H as (?&?&?)|].
  cbn [skipSeparators]. destruct (Kind t) eqn:Ek; try (split; [done|simpl; lia]);
    (destruct IH; [eapply eof_tail; [done|congruence]|split; [done|simpl; lia]]).
Qed.

Lemma pnext_ok t r :
  eof_terminated (t :: r) -> Kind t <> TokenEOF -> pnext (t :: r) = Ok (t, r).
Proof. intros _ H. unfold pnext, isKind. by rewrite bool_decide_eq_false_2. Qed.

Section ParserSafety.
Context (file : bytes).

Lemma parseArgs_ok ts args :
  eof_terminated ts ->
  exists a ts', parseArgs file ts args = Ok (a, ts') /\ eof_terminated ts' /\
    (length ts' <= length ts)%nat.
Proof.
  revert args. induction ts as [|t r IH]; intros args H; [by apply eof_nonempty in H as (?&?&?)|].
  cbn [parseArgs]. destruct (Kind t) eqn:Ek; try (by do 2 eexists; split_and!; [done|done|]).
  destruct (IH (args ++ [tokArg file t])) as (a & ts' & H1 & H2 & H3).
  { eapply eof_tail; [done|congruence]. }
  exists a, ts'. split_and!; [done|done|simpl; lia].
Qed.

Lemma expectStatementEnd_ok ts :
  eof_terminated ts ->
  (exists e, expectStatementEnd file ts = Err (PE e)) \/
  (exists ts', expectStatementEnd file ts = Ok ts' /\ eof_terminated ts' /\
     (length ts' <= length ts)%nat).
Proof.
  intros H. destruct (eof_nonempty _ H) as (t & r & ->). unfold expectStatementEnd. simpl.
  destruct (Kind t) eqn:Ek; try (left; by eexists); right;
    try (exists (t :: r); by split_and!);
    (unfold isKind; rewrite Ek; simpl; exists r; split_and!;
     [done|eapply eof_tail; [done|congruence]|lia]).
Qed.

Lemma finish_ok (x : Node) k ts :
  eof_terminated ts -> (length ts < k)%nat ->
  advances k (let! ts' := expectStatementEnd file ts in Ok (x, ts')).
Proof.
  intros H Hk. destruct (expectStatementEnd_ok ts H) as [(e & ->)|(ts' & -> & ? & ?)]; simpl; [done|].
  split; [done|lia].
Qed.

Lemma parseMatcherDef_ok ts :
  eof_terminated ts -> match ts with t :: _ => Kind t <> TokenEOF | [] => True end ->
  advances (length ts) (parseMatcherDef file ts).
Proof.
  intros H Hne. destruct (eof_nonempty _ H) as (t & r & ->). unfold parseMatcherDef.
  rewrite pnext_ok by done. cbn [obind]. pose proof (eof_tail _ _ H Hne) as Hr.
  case_bool_decide; [done|]. destruct (eof_nonempty _ Hr) as (ty & r' & ->). cbn [cur obind].
  unfold isArgToken. case_bool_decide as Hk; [|done]. cbn [negb].
  destruct (_ || _ || _); [done|].
  assert (Kind ty <> TokenEOF) as Hne' by congruence.
  rewrite pnext_ok by done. cbn [obind]. pose proof (eof_tail _ _ Hr Hne') as Hr'.
  destruct (parseArgs_ok r' [] Hr') as (a & ts' & -> & Hts & Hlen). cbn [obind].
  destruct (eof_nonempty _ Hts) as (t' & r'' & ->). cbn [cur obind].
  destruct (isKind TokenOpenBrace t'); [done|].
  apply finish_ok; [done|simpl in *; lia].
Qed.

Lemma parseDirective_ok pbb ts :
  eof_terminated ts -> match ts with t :: _ => Kind t <> TokenEOF | [] => True end ->
  (forall o ts', eof_terminated ts' -> (length ts' < length ts)%nat ->
     advances (S (length ts')) (pbb o ts')) ->
  advances (length ts) (parseDirective file pbb ts).
Proof.
  intros H Hne Hp. destruct (eof_nonempty _ H) as (t & r & ->). unfold parseDirective.
  rewrite pnext_ok by done. cbn [obind]. pose proof (eof_tail _ _ H Hne) as Hr.
  destruct (parseArgs_ok r [] Hr) as (a & ts' & -> & Hts & Hlen). cbn [obind].
  destruct (eof_nonempty _ Hts) as (t' & r'' & ->). cbn [cur obind].
  unfold isKind at 1. case_bool_decide as Hk; [|apply finish_ok; [done|simpl in *; lia]].
  rewrite pnext_ok by congruence. cbn [obind].
  assert (eof_terminated r'') as Hr'' by (eapply eof_tail; [done|congruence]).
  eapply advances_bind; [apply Hp; [done|simpl in *; lia]|].
  intros b ts2 _ Hts2 Hl2. apply finish_ok; [done|simpl in *; lia].
Qed.

Lemma parseStatement_ok pbb ts :
  eof_terminated ts ->
  (forall o ts', eof_terminated ts' -> (length ts' < length ts)%nat ->
     advances (S (length ts')) (pbb o ts')) ->
  advances (length ts) (parseStatement file pbb ts).
Proof.
  intros H Hp. destruct (eof_nonempty _ H) as (t & r & ->). unfold parseStatement. cbn [cur obind].
  unfold isKind. case_bool_decide as Hk; [|done]. cbn [negb].
  destruct (_ && _); [apply parseMatcherDef_ok|apply parseDirective_ok]; try done; congruence.
Qed.

Lemma blockLoop_ok n depth o ts body :
  eof_terminated ts -> (length ts < n)%nat ->
  advances (S (length ts)) (blockLoop file n depth o ts body).
Proof.
  revert depth o ts body. induction n as [|n IH]; intros depth o ts body H Hn; [lia|].
  cbn [blockLoop]. destruct (skipSeparators_ok ts H) as [Hs Hl].
  destruct (skipSeparators ts) as [|t r] eqn:E; [by apply eof_nonempty in Hs as (?&?&?)|].
  cbn [cur obind].
  assert (advances (length (t :: r)) (parseStatement file (enterBlock file (blockLoop file n) depth) (t :: r)))
    as Hst.
  { apply parseStatement_ok; [done|]. intros o' ts' Hts' Hl'. unfold enterBlock.
    case_match; [done|]. apply IH; [done|lia]. }
  destruct (Kind t) eqn:Ek; try done;
    try (eapply advances_bind; [exact Hst|]; intros st ts2 _ Hts2 Hl2;
         specialize (IH depth o ts2 (body ++ [st]) Hts2); cbn beta iota;
         destruct (blockLoop file n depth o ts2 _) as [[? ?]|[?|]|]; simpl in *; try done;
         try (apply IH; lia); destruct IH; [lia|split; [done|lia]]).
  rewrite pnext_ok by congruence. simpl.
  split; [eapply eof_tail; [done|congruence]|simpl in Hl; lia].
Qed.

Lemma parseBlockBody_ok n depth o ts :
  eof_terminated ts -> (length ts < n)%nat ->
  advances (S (length ts)) (parseBlockBody file n depth o ts).
Proof.
  intros H Hn. unfold parseBlockBody, enterBlock. case_match; [done|]. by apply blockLoop_ok.
Qed.

Definition settles {A} (m : outcome perr A) : Prop :=
  match m with Ok _ => True | Err (PE _) => True | Err Panic | NoFuel => False end.

Lemma parseFragmentBody_ok n ts body :
  eof_terminated ts -> (length ts < n)%nat -> settles (parseFragmentBody file n ts body).
Proof.
  revert ts body. induction n as [|n IH]; intros ts body H Hn; [lia|].
  cbn [parseFragmentBody]. destruct (skipSeparators_ok ts H) as [Hs Hl].
  destruct (skipSeparators ts) as [|t r] eqn:E; [by apply eof_nonempty in Hs as (?&?&?)|].
  cbn [cur obind].
  assert (advances (length (t :: r)) (parseStatement file (parseBlockBody file n 0) (t :: r))) as Hst.
  { apply parseStatement_ok; [done|]. intros o' ts' Hts' Hl'. apply parseBlockBody_ok; [done|lia]. }
  destruct (Kind t) eqn:Ek; try done;
    (destruct (parseStatement _ _ _) as [[st ts2]|[?|]|]; simpl in Hst |- *; try done;
     destruct Hst; apply IH; [done|simpl in *; lia]).
Qed.

Lemma siteAddresses_ok ts addrs :
  eof_terminated ts ->
  match siteAddresses file ts addrs with
  | Ok (_, _, ts') => eof_terminated ts' /\ (length ts' < length ts)%nat
  | Err (PE _) => True
  | _ => False
  end.
Proof.
  revert addrs. induction ts as [|t r IH]; intros addrs H; [by apply eof_nonempty in H as (?&?&?)|].
  cbn [siteAddresses].
  destruct (decide (Kind t = TokenEOF)) as [Ek|Hne]; [by rewrite Ek|].
  pose proof (eof_tail _ _ H Hne) as Hr.
  assert (forall a, match siteAddresses file r a with
    | Ok (_, _, ts') => eof_terminated ts' /\ (length ts' < length (t :: r))%nat
    | Err (PE _) => True
    | _ => False
    end) as Hrec.
  { intros a. specialize (IH a Hr). destruct (siteAddresses file r a) as [[[? ?] ?]|[?|]|]; try done.
    destruct IH. split; [done|simpl; lia]. }
  destruct (Kind t) eqn:Ek; try done; [apply Hrec| |apply Hrec..].
  case_bool_decide; [done|]. split; [done|simpl; lia].
Qed.

Lemma parseSite_ok n ts :
  eof_terminated ts -> (length ts <= n)%nat -> advances (length ts) (parseSite file n ts).
Proof.
  intros H Hn. destruct (eof_nonempty _ H) as (t & r & ->). unfold parseSite. cbn [cur obind].
  pose proof (siteAddresses_ok _ [] H) as Ha.
  destruct (siteAddresses file (t :: r) []) as [[[a o] ts']|[?|]|]; try done. cbn [obind].
  destruct Ha as [Hts' Hl]. eapply advances_bind; [apply parseBlockBody_ok; [done|lia]|].
  intros b ts2 _ ? ?. split; [done|lia].
Qed.

Lemma fileLoop_ok n ts f :
  eof_terminated ts -> (length ts < n)%nat -> settles (fileLoop file n ts f).
Proof.
  revert ts f. induction n as [|n IH]; intros ts f H Hn; [lia|].
  destruct (eof_nonempty _ H) as (t & r & ->). cbn [fileLoop cur obind].
  unfold isKind. case_bool_decide as Hk; [done|]. case_bool_decide; [done|].
  unfold startsSiteBlock. cbn [cur obind].
  match goal with |- settles (if ?b then _ else _) => destruct b end.
  - pose proof (parseSite_ok n (t :: r) H) as Hs.
    simpl in Hn. destruct (parseSite _ _ _) as [[s ts']|[?|]|]; simpl in Hs |- *; try done;
      try (apply Hs; lia).
    destruct Hs as [Hts' Hl]; [lia|]. destruct (skipSeparators_ok ts' Hts'). apply IH; [done|lia].
  - unfold unseparatedAddrWrap. cbn [cur obind].
    match goal with |- settles (if ?b then _ else _) => destruct b end; [done|].
    assert (advances (length (t :: r)) (parseStatement file (parseBlockBody file n 0) (t :: r))) as Hst.
    { apply parseStatement_ok; [done|]. intros o' ts' Hts' Hl'. apply parseBlockBody_ok; [done|simpl in *; lia]. }
    destruct (parseStatement _ _ _) as [[st ts2]|[?|]|]; simpl in Hst |- *; try done.
    destruct Hst as [Hts' Hl]. destruct (skipSeparators_ok ts2 Hts'). apply IH; [done|simpl in *; lia].
Qed.

Lemma parseFile_ok ts : eof_terminated ts -> settles (parseFile file ts).
Proof.
  intros H. unfold parseFile. destruct (skipSeparators_ok ts H) as [Hs Hl].
  destruct (skipSeparators ts) as [|t r] eqn:E; [by apply eof_nonempty in Hs as (?&?&?)|].
  cbn [cur obind]. case_match eqn:Hk; [|apply fileLoop_ok; [done|lia]].
  unfold isKind in Hk. apply bool_decide_eq_true in Hk.
  unfold parseGlobalOptions. rewrite pnext_ok by congruence. cbn [obind].
  assert (eof_terminated r) as Hr by (eapply eof_tail; [done|congruence]).
  pose proof (parseBlockBody_ok (S (length ts)) 0 t r Hr) as Hb. simpl in Hl.
  destruct (parseBlockBody _ _ _ _ _) as [[b ts']|[?|]|]; cbn [obind advances] in Hb |- *; try done;
    try (apply Hb; lia).
  destruct Hb as [Hts' Hl']; [lia|]. destruct (skipSeparators_ok ts' Hts').
  apply fileLoop_ok; [done|lia].
Qed.
End ParserSafety.

Lemma lift_tokenize file src (A : Type) (k : list Token -> outcome perr A) :
  (forall ts, eof_terminated ts -> settles (k ts)) ->
  settles (obind (lift_lex (tokenize file src)) k).
Proof.
  intros Hk. destruct (tokenize file src) as [ts|e|] eqn:E; simpl; [|done|].
  - apply Hk. by eapply tokenize_eof.
  - exfalso. by eapply tokenize_loop_total in E; [|unfold size; lia].
Qed.

(** [Parse] terminates on every input with an AST or a positioned
    [ParseError]: it neither diverges nor indexes past the end of the token
    slice. *)
Theorem Parse_settles file src :
  (exists f, Parse file src = Ok f) \/ (exists e, Parse file src = Err (PE e)).
Proof.
  assert (settles (Parse file src)) as H by (apply lift_tokenize; intros; by apply parseFile_ok).
  destruct (Parse file src) as [f|[e|]|]; simpl in H; try done; eauto.
Qed.

Lemma ParseFragment_settles file src : settles (ParseFragment file src).
Proof. apply lift_tokenize. intros ts H. apply parseFragmentBody_ok; [done|lia]. Qed.
