(* ===== verification/Grammar.v ===== *)
(** * The Cadishfile statement grammar

    A declarative grammar of statement lists, as relations between token lists
    and AST nodes, and the proof that the recursive-descent parser of
    [internal/cadishfile/parse.go] accepts exactly this grammar (with the
    nesting bound [maxBlockDepth] as the relations' index) and returns the
    node list the grammar assigns. *)

From stdpp Require Import base strings pretty numbers gmap list.
From S2P Require Import Prelude GoStrings Ast Lex Quote Parse.
Open Scope Z_scope.

Definition is_word (t : Token) : Prop := Kind t = TokenWord.
Definition is_sep (t : Token) : Prop :=
  Kind t = TokenNewline \/ Kind t = TokenSemicolon \/ Kind t = TokenComment.
Definition is_end (t : Token) : Prop := Kind t = TokenCloseBrace \/ Kind t = TokenEOF.

(** An unquoted word starting with [@] begins a matcher definition. *)
Definition names_matcher (t : Token) : bool := negb (Quoted t) && HasPrefix (Text t) (go "@").

Definition type_word (t : Token) : bool :=
  negb (Quoted t || HasPrefix (Text t) (go "@") || containsPlaceholder (Text t)
        || needsQuoting (Text t)).

Section Grammar.
Context (file : bytes).

(** [stmtG k st x]: the tokens [st] are the statement [x], with blocks nested
    at most [k] deep; [bodyG k ts xs]: [ts] is the statement list [xs]. *)
Inductive stmtG : nat -> list Token -> Node -> Prop :=
| SG_matcher k nm ty args :
    is_word nm -> names_matcher nm = true -> TrimPrefix (Text nm) (go "@") <> [] ->
    is_word ty -> type_word ty = true -> Forall is_word args ->
    stmtG k (nm :: ty :: args)
      (MatcherDef (TrimPrefix (Text nm) (go "@")) (Text ty) (map (tokArg file) args) (tokPos file nm))
| SG_plain k nm args :
    is_word nm -> names_matcher nm = false -> Forall is_word args ->
    stmtG k (nm :: args) (Directive (Text nm) (map (tokArg file) args) [] false (tokPos file nm))
| SG_block k nm args o body c xs :
    is_word nm -> names_matcher nm = false -> Forall is_word args ->
    Kind o = TokenOpenBrace -> Kind c = TokenCloseBrace -> bodyG k body xs ->
    stmtG (S k) (nm :: args ++ o :: body ++ [c])
      (Directive (Text nm) (map (tokArg file) args) xs true (tokPos file nm))
with bodyG : nat -> list Token -> list Node -> Prop :=
| BG_nil k s : Forall is_sep s -> bodyG k s []
| BG_last k s st x : Forall is_sep s -> stmtG k st x -> bodyG k (s ++ st) [x]
| BG_cons k s st x sep rest xs :
    Forall is_sep s -> stmtG k st x -> is_sep sep -> bodyG k rest xs ->
    bodyG k (s ++ st ++ sep :: rest) (x :: xs).

(** ** The parser accepts only the grammar *)

Lemma skipSeparators_split ts :
  exists s, ts = s ++ skipSeparators ts /\ Forall is_sep s /\
    match skipSeparators ts with t :: _ => ~ is_sep t | [] => True end.
Proof.
  induction ts as [|t r (s & Heq & Hs & Hh)]; [exists []; by split_and!|].
  cbn [skipSeparators]. destruct (Kind t) eqn:Ek;
    try (exists []; split_and!; [done|constructor|unfold is_sep; intros [?|[?|?]]; congruence]);
    (exists (t :: s); split_and!; [simpl; congruence| |done]; constructor; [|done];
     unfold is_sep; tauto).
Qed.

Lemma parseArgs_sound ts acc a ts' :
  parseArgs file ts acc = Ok (a, ts') ->
  exists ws, ts = ws ++ ts' /\ Forall is_word ws /\ a = acc ++ map (tokArg file) ws.
Proof.
  revert acc. induction ts as [|t r IH]; intros acc H; cbn [parseArgs] in H; [done|].
  destruct (Kind t) eqn:Ek;
    try (injection H as <- <-; exists []; rewrite app_nil_r; by split_and!).
  apply IH in H as (ws & -> & Hw & ->). exists (t :: ws).
  split_and!; [done|by constructor|]. by rewrite <- app_assoc.
Qed.

(** What follows a statement: a separator that is consumed, or a closing
    brace or the end of input, which is not. *)
Definition ends_stmt (ts rest : list Token) : Prop :=
  (exists sep, is_sep sep /\ ts = sep :: rest) \/
  (ts = rest /\ exists t r, rest = t :: r /\ is_end t).

Lemma expectStatementEnd_sound ts rest :
  expectStatementEnd file ts = Ok rest -> ends_stmt ts rest.
Proof.
  unfold expectStatementEnd. destruct ts as [|t r]; [done|]. cbn [cur obind]. intros H.
  unfold ends_stmt, is_sep, is_end. destruct (Kind t) eqn:Ek; try done;
    try (injection H as <-; right; split; [done|]; exists t, r; tauto);
    (unfold pnext, isKind in H; rewrite Ek in H; simpl in H; injection H as <-; left;
     exists t; tauto).
Qed.

Lemma pnext_consume t r : Kind t <> TokenEOF -> pnext (t :: r) = Ok (t, r).
Proof. intros H. unfold pnext, isKind. by rewrite bool_decide_eq_false_2. Qed.

Lemma pnext_word t r : is_word t -> pnext (t :: r) = Ok (t, r).
Proof. intros H. apply pnext_consume. unfold is_word in H. congruence. Qed.

Lemma parseMatcherDef_sound k t ts x rest :
  is_word t -> names_matcher t = true -> parseMatcherDef file (t :: ts) = Ok (x, rest) ->
  exists st rest', t :: ts = st ++ rest' /\ stmtG k st x /\ ends_stmt rest' rest.
Proof.
  intros Hw Hm H. unfold parseMatcherDef in H. rewrite pnext_word in H by done. cbn [obind] in H.
  case_bool_decide as Hn; [done|]. destruct ts as [|ty ts]; [done|]. cbn [cur obind] in H.
  unfold isArgToken in H. case_bool_decide as Hty; [|done]. cbn [negb] in H.
  destruct (_ || _) eqn:Et in H; [done|]. rewrite pnext_word in H by done. cbn [obind] in H.
  inv_obind. destruct a as [args ts']. cbn beta iota in H. inv_obind.
  destruct (isKind TokenOpenBrace a) eqn:Ek; [done|]. inv_obind. injection H as <- <-.
  apply parseArgs_sound in Ha as (ws & -> & Hws & ->).
  exists (t :: ty :: ws), ts'. split_and!; [done| |by apply expectStatementEnd_sound].
  simpl. apply SG_matcher; try done. unfold type_word. by rewrite Et.
Qed.

Lemma parseDirective_sound k pbb t ts x rest :
  is_word t -> names_matcher t = false ->
  (forall o ts xs rest', Kind o = TokenOpenBrace -> pbb o ts = Ok (xs, rest') ->
     exists j body c, k = S j /\ ts = body ++ c :: rest' /\ Kind c = TokenCloseBrace /\
       bodyG j body xs) ->
  parseDirective file pbb (t :: ts) = Ok (x, rest) ->
  exists st rest', t :: ts = st ++ rest' /\ stmtG k st x /\ ends_stmt rest' rest.
Proof.
  intros Hw Hm Hp H. unfold parseDirective in H. rewrite pnext_word in H by done. cbn [obind] in H.
  inv_obind. destruct a as [args ts']. cbn beta iota in H. inv_obind.
  apply parseArgs_sound in Ha as (ws & -> & Hws & ->).
  destruct ts' as [|o ts']; [done|]. injection Ha0 as ->.
  unfold isKind in H. case_bool_decide as Hk.
  - rewrite pnext_consume in H by congruence. cbn [obind] in H. inv_obind.
    destruct a0 as [xs ts2]. inv_obind. injection H as <- <-.
    apply Hp in Ha as (j & body & c & -> & -> & Hc & Hb); [|done].
    exists (t :: ws ++ a :: body ++ [c]), ts2. split_and!.
    + simpl. rewrite <- !app_assoc. simpl. by rewrite <- app_assoc.
    + by apply SG_block.
    + by apply expectStatementEnd_sound.
  - inv_obind. injection H as <- <-. exists (t :: ws), (a :: ts'). split_and!; [done| |].
    + by apply SG_plain.
    + by apply expectStatementEnd_sound.
Qed.

Lemma parseStatement_sound k pbb ts x rest :
  (forall o ts xs rest', Kind o = TokenOpenBrace -> pbb o ts = Ok (xs, rest') ->
     exists j body c, k = S j /\ ts = body ++ c :: rest' /\ Kind c = TokenCloseBrace /\
       bodyG j body xs) ->
  parseStatement file pbb ts = Ok (x, rest) ->
  exists st rest', ts = st ++ rest' /\ stmtG k st x /\ ends_stmt rest' rest.
Proof.
  intros Hp H. unfold parseStatement in H. destruct ts as [|t ts]; [done|]. cbn [cur obind] in H.
  unfold isKind in H. case_bool_decide as Hw; [|done]. cbn [negb] in H.
  fold (names_matcher t) in H. destruct (names_matcher t) eqn:Hm.
  - by eapply parseMatcherDef_sound.
  - by eapply parseDirective_sound.
Qed.

Lemma stmtG_head k st x : stmtG k st x -> exists t r, st = t :: r /\ is_word t.
Proof. destruct 1; eauto. Qed.

Lemma bodyG_nil_inv k xs : bodyG k [] xs -> xs = [].
Proof.
  intros H. remember [] as l eqn:Heq. destruct H as [|k s st x Hs Hst|k s st x sep r ys Hs Hst];
    [done| |]; apply stmtG_head in Hst as (t & r' & -> & _); by destruct s.
Qed.

Lemma bodyG_head k t r xs : bodyG k (t :: r) xs -> is_sep t \/ is_word t.
Proof.
  intros H. remember (t :: r) as l eqn:Heq.
  destruct H as [k s Hs|k s st x Hs Hst|k s st x sep r' ys Hs Hst];
    [subst; inversion Hs; by left| |];
    apply stmtG_head in Hst as (w & q & -> & Hw); destruct s as [|y s];
    simpl in Heq; injection Heq as -> _; try (by right); left; by inversion Hs.
Qed.

Lemma is_end_not t : is_end t -> ~ (is_sep t \/ is_word t).
Proof. unfold is_end, is_sep, is_word. intros [H|H]; rewrite H; intros [[?|[?|?]]|?]; done. Qed.

Lemma bodyG_extend k s st x mid rest tail e fin xs :
  Forall is_sep s -> stmtG k st x -> ends_stmt mid rest ->
  rest = tail ++ e :: fin -> bodyG k tail xs ->
  exists pre, s ++ st ++ mid = pre ++ e :: fin /\ bodyG k pre (x :: xs).
Proof.
  intros Hs Hst Hend -> Hb. destruct Hend as [(sep & Hsep & ->)|(-> & t & r & Heq & Ht)].
  - exists (s ++ st ++ sep :: tail). split; [by rewrite <- app_assoc, <- app_assoc|by apply BG_cons].
  - destruct tail as [|y tail]; simpl in Heq; injection Heq as ? ?; subst.
    + apply bodyG_nil_inv in Hb as ->. exists (s ++ st).
      split; [by rewrite app_assoc|by apply BG_last].
    + apply bodyG_head in Hb. by apply is_end_not in Ht.
Qed.

Lemma blockLoop_sound n depth o ts body xs rest :
  depth <= maxBlockDepth -> blockLoop file n depth o ts body = Ok (xs, rest) ->
  exists pre c new, ts = pre ++ c :: rest /\ Kind c = TokenCloseBrace /\ xs = body ++ new /\
    bodyG (Z.to_nat (maxBlockDepth - depth)) pre new.
Proof.
  revert depth o ts body xs rest. induction n as [|n IH]; intros depth o ts body xs rest Hd H; [done|].
  cbn [blockLoop] in H. destruct (skipSeparators_split ts) as (s & Heq & Hs & Hh).
  destruct (skipSeparators ts) as [|t r]; [done|]. cbn [cur obind] in H.
  destruct (decide (Kind t = TokenCloseBrace)) as [Hk|Hk].
  { rewrite Hk, pnext_consume in H by congruence. injection H as <- <-.
    exists s, t, []. rewrite app_nil_r. split_and!; try done. by constructor. }
  assert (forall A (a b c : A), match Kind t with
    | TokenCloseBrace => a | TokenEOF => b | _ => c end
    = if decide (Kind t = TokenEOF) then b else c) as Hmatch
    by (intros; destruct (Kind t); done).
  rewrite Hmatch in H. case_decide; [done|]. inv_obind. destruct a as [x ts2].
  apply (parseStatement_sound (Z.to_nat (maxBlockDepth - depth))) in Ha
    as (st & mid & Hst & HstG & Hend).
  - apply IH in H as (pre & c & new & -> & Hc & -> & Hb); [|done].
    destruct (bodyG_extend _ s st x mid _ pre c rest new Hs HstG Hend eq_refl Hb) as (pre' & Hp & Hb').
    exists pre', c, (x :: new). split_and!; [by rewrite Heq, Hst|done| |done].
    by rewrite <- app_assoc.
  - intros o' ts' xs' rest' _ Hp. unfold enterBlock in Hp.
    destruct (Z.ltb_spec maxBlockDepth (depth + 1)) as [|Hlt]; [done|].
    apply IH in Hp as (pre & c & new & -> & Hc & -> & Hb); [|done].
    exists (Z.to_nat (maxBlockDepth - (depth + 1))), pre, c. split_and!; [lia|done|done|done].
Qed.

Lemma enterBlock_sound n depth o ts xs rest :
  depth <= maxBlockDepth -> parseBlockBody file n depth o ts = Ok (xs, rest) ->
  exists j body c, Z.to_nat (maxBlockDepth - depth) = S j /\ ts = body ++ c :: rest /\
    Kind c = TokenCloseBrace /\ bodyG j body xs.
Proof.
  intros Hd Hp. unfold parseBlockBody, enterBlock in Hp.
  destruct (Z.ltb_spec maxBlockDepth (depth + 1)) as [|Hlt]; [done|].
  apply blockLoop_sound in Hp as (pre & c & new & -> & Hc & -> & Hb); [|done].
  exists (Z.to_nat (maxBlockDepth - (depth + 1))), pre, c. split_and!; [lia|done|done|done].
Qed.

Lemma eof_suffix p q : eof_terminated (p ++ q) -> q <> [] -> eof_terminated q.
Proof.
  induction p as [|t p IH]; intros H Hq; [done|]. simpl in H. apply IH; [|done].
  destruct (decide (Kind t = TokenEOF)) as [Hk|Hk]; [|by eapply eof_tail].
  apply eof_head in H; [|done]. by apply app_eq_nil in H as [_ ?].
Qed.

Lemma ends_stmt_eof mid rest : eof_terminated mid -> ends_stmt mid rest -> eof_terminated rest.
Proof.
  intros H [(sep & Hsep & ->)|(-> & _)]; [|done]. eapply eof_tail; [done|].
  unfold is_sep in Hsep. destruct Hsep as [->|[->| ->]]; done.
Qed.

Lemma ends_stmt_nonempty mid rest : ends_stmt mid rest -> mid <> [].
Proof. intros [(sep & _ & ->)|(-> & t & r & -> & _)]; done. Qed.

Lemma parseFragmentBody_sound n ts body xs :
  eof_terminated ts -> parseFragmentBody file n ts body = Ok xs ->
  exists pre e new, ts = pre ++ [e] /\ Kind e = TokenEOF /\ xs = body ++ new /\
    bodyG (Z.to_nat maxBlockDepth) pre new.
Proof.
  revert ts body. induction n as [|n IH]; intros ts body Hts H; [done|].
  cbn [parseFragmentBody] in H. destruct (skipSeparators_split ts) as (s & Heq & Hs & Hh).
  destruct (skipSeparators_ok ts Hts) as [Hsk _].
  destruct (skipSeparators ts) as [|t r] eqn:Er; [done|]. cbn [cur obind] in H.
  destruct (decide (Kind t = TokenEOF)) as [Hk|Hk].
  { rewrite Hk in H. injection H as <-. apply eof_head in Hsk as ->; [|done].
    exists s, t, []. rewrite app_nil_r. split_and!; try done. by constructor. }
  assert (forall A (a b c : A), match Kind t with
    | TokenEOF => a | TokenCloseBrace => b | _ => c end
    = if decide (Kind t = TokenCloseBrace) then b else c) as Hmatch
    by (intros; destruct (Kind t); done).
  rewrite Hmatch in H. case_decide; [done|]. inv_obind. destruct a as [x ts2].
  apply (parseStatement_sound (Z.to_nat maxBlockDepth)) in Ha as (st & mid & Hst & HstG & Hend).
  - assert (eof_terminated mid).
    { eapply (eof_suffix st); [by rewrite <- Hst|by eapply ends_stmt_nonempty]. }
    apply IH in H as (pre & e & new & -> & He & -> & Hb); [|by eapply ends_stmt_eof].
    destruct (bodyG_extend _ s st x mid _ pre e [] new Hs HstG Hend eq_refl Hb) as (pre' & Hp & Hb').
    exists pre', e, (x :: new). split_and!; [by rewrite Heq, Hst|done| |done].
    by rewrite <- app_assoc.
  - intros o' ts' xs' rest' _ Hp. by apply enterBlock_sound in Hp.
Qed.

(** ** The parser accepts the whole grammar *)

Lemma skipSeparators_seps s ts :
  Forall is_sep s -> match ts with t :: _ => ~ is_sep t | [] => True end ->
  skipSeparators (s ++ ts) = ts.
Proof.
  intros Hs Ht. induction Hs as [|t s Hsep _ IH]; simpl.
  - destruct ts as [|t ts]; [done|]. unfold is_sep in Ht. cbn [skipSeparators].
    destruct (Kind t); tauto.
  - unfold is_sep in Hsep. by destruct Hsep as [->|[->| ->]].
Qed.

Lemma parseArgs_complete ws ts acc :
  Forall is_word ws -> match ts with t :: _ => ~ is_word t | [] => False end ->
  parseArgs file (ws ++ ts) acc = Ok (acc ++ map (tokArg file) ws, ts).
Proof.
  intros Hw Ht. revert acc. induction Hw as [|t ws Hk _ IH]; intros acc; simpl.
  - destruct ts as [|t ts]; [done|]. unfold is_word in Ht. rewrite app_nil_r. cbn [parseArgs].
    destruct (Kind t); done.
  - unfold is_word in Hk. rewrite Hk, IH. by rewrite <- app_assoc.
Qed.

Lemma ends_stmt_head mid rest :
  ends_stmt mid rest -> exists t r, mid = t :: r /\ (is_sep t \/ is_end t).
Proof. intros [(sep & H & ->)|(-> & t & r & -> & H)]; eauto. Qed.

Lemma sep_end_not t : is_sep t \/ is_end t -> ~ is_word t /\ Kind t <> TokenOpenBrace.
Proof.
  unfold is_sep, is_end, is_word. intros [[H|[H|H]]|[H|H]]; rewrite H; done.
Qed.

Lemma expectStatementEnd_complete mid rest :
  ends_stmt mid rest -> expectStatementEnd file mid = Ok rest.
Proof.
  intros [(sep & H & ->)|(-> & t & r & -> & H)]; unfold expectStatementEnd; cbn [cur obind].
  - unfold is_sep in H. destruct H as [H|[H|H]]; rewrite H, pnext_consume by congruence; done.
  - unfold is_end in H. by destruct H as [->| ->].
Qed.

Lemma isKind_false k t : Kind t <> k -> isKind k t = false.
Proof. intros. unfold isKind. by rewrite bool_decide_eq_false_2. Qed.
Lemma isKind_true k t : Kind t = k -> isKind k t = true.
Proof. intros. unfold isKind. by rewrite bool_decide_eq_true_2. Qed.

Scheme stmtG_mind := Induction for stmtG Sort Prop
  with bodyG_mind := Induction for bodyG Sort Prop.

Definition stmt_parses (k : nat) (st : list Token) (x : Node) : Prop :=
  forall n depth mid rest, Z.of_nat k <= maxBlockDepth - depth -> (length st <= n)%nat ->
    ends_stmt mid rest ->
    parseStatement file (parseBlockBody file n depth) (st ++ mid) = Ok (x, rest).

Definition body_parses (k : nat) (pre : list Token) (xs : list Node) : Prop :=
  forall n depth o c rest acc, Z.of_nat k <= maxBlockDepth - depth -> (length pre < n)%nat ->
    Kind c = TokenCloseBrace ->
    blockLoop file n depth o (pre ++ c :: rest) acc = Ok (acc ++ xs, rest).

Lemma matcher_parses k nm ty args :
  is_word nm -> names_matcher nm = true -> TrimPrefix (Text nm) (go "@") <> [] ->
  is_word ty -> type_word ty = true -> Forall is_word args ->
  stmt_parses k (nm :: ty :: args)
    (MatcherDef (TrimPrefix (Text nm) (go "@")) (Text ty) (map (tokArg file) args) (tokPos file nm)).
Proof.
  intros Hw Hm Hne Hty Htw Ha n depth mid rest _ _ Hend. unfold parseStatement.
  cbn [app cur obind]. rewrite isKind_true by done. cbn [negb]. fold (names_matcher nm). rewrite Hm.
  unfold parseMatcherDef. rewrite pnext_word by done. cbn [obind].
  rewrite bool_decide_eq_false_2 by done. cbn [cur obind]. unfold isArgToken.
  rewrite bool_decide_eq_true_2 by done. cbn [negb]. unfold type_word in Htw.
  apply negb_true_iff in Htw. rewrite Htw, pnext_word by done. cbn [obind].
  destruct (ends_stmt_head _ _ Hend) as (t & r & -> & Ht). apply sep_end_not in Ht as [Ht1 Ht2].
  rewrite parseArgs_complete by done. cbn [obind cur app]. rewrite isKind_false by done.
  by rewrite expectStatementEnd_complete with (rest := rest).
Qed.

Lemma plain_parses k nm args :
  is_word nm -> names_matcher nm = false -> Forall is_word args ->
  stmt_parses k (nm :: args)
    (Directive (Text nm) (map (tokArg file) args) [] false (tokPos file nm)).
Proof.
  intros Hw Hm Ha n depth mid rest _ _ Hend. unfold parseStatement.
  cbn [app cur obind]. rewrite isKind_true by done. cbn [negb]. fold (names_matcher nm). rewrite Hm.
  unfold parseDirective. rewrite pnext_word by done. cbn [obind].
  destruct (ends_stmt_head _ _ Hend) as (t & r & -> & Ht). apply sep_end_not in Ht as [Ht1 Ht2].
  rewrite parseArgs_complete by done. cbn [obind cur app]. rewrite isKind_false by done.
  by rewrite expectStatementEnd_complete with (rest := rest).
Qed.

Lemma block_parses k nm args o body c xs :
  is_word nm -> names_matcher nm = false -> Forall is_word args ->
  Kind o = TokenOpenBrace -> Kind c = TokenCloseBrace -> body_parses k body xs ->
  stmt_parses (S k) (nm :: args ++ o :: body ++ [c])
    (Directive (Text nm) (map (tokArg file) args) xs true (tokPos file nm)).
Proof.
  intros Hw Hm Ha Ho Hc IH n depth mid rest Hd Hn Hend. unfold parseStatement.
  simpl app. rewrite <- app_assoc. simpl app. rewrite <- app_assoc. cbn [cur obind app].
  rewrite isKind_true by done. cbn [negb]. fold (names_matcher nm). rewrite Hm.
  unfold parseDirective. rewrite pnext_word by done. cbn [obind].
  rewrite parseArgs_complete by (try done; unfold is_word; congruence). cbn [obind cur app].
  rewrite isKind_true, pnext_consume by congruence. cbn [obind].
  unfold parseBlockBody, enterBlock. destruct (Z.ltb_spec maxBlockDepth (depth + 1)); [lia|].
  simpl in Hn. rewrite !length_app in Hn. simpl in Hn. rewrite length_app in Hn. simpl in Hn.
  rewrite IH by (done || lia). cbn [obind app].
  by rewrite expectStatementEnd_complete with (rest := rest).
Qed.

(** One round of the block loop over a statement. *)
Lemma blockLoop_step n depth o s st x mid rest acc :
  Forall is_sep s -> (exists t r, st = t :: r /\ is_word t) ->
  parseStatement file (parseBlockBody file n depth) (st ++ mid) = Ok (x, rest) ->
  blockLoop file (S n) depth o (s ++ st ++ mid) acc = blockLoop file n depth o rest (acc ++ [x]).
Proof.
  intros Hs (t & r & -> & Ht) Hp. cbn [blockLoop]. unfold is_word in Ht.
  rewrite skipSeparators_seps; [|done|unfold is_sep; simpl; rewrite Ht; intros [?|[?|?]]; done].
  simpl app. cbn [cur obind]. rewrite Ht. simpl app in Hp. unfold parseBlockBody in Hp.
  by rewrite Hp.
Qed.

Lemma nil_parses k s : Forall is_sep s -> body_parses k s [].
Proof.
  intros Hs n depth o c rest acc Hd Hn Hc. destruct n as [|n]; [lia|]. cbn [blockLoop].
  rewrite skipSeparators_seps by (try done; unfold is_sep; rewrite Hc; intros [?|[?|?]]; done).
  cbn [cur obind]. rewrite Hc, pnext_consume by congruence. cbn [obind]. by rewrite app_nil_r.
Qed.

Lemma last_parses k s st x :
  Forall is_sep s -> stmtG k st x -> stmt_parses k st x -> body_parses k (s ++ st) [x].
Proof.
  intros Hs Hst IH n depth o c rest acc Hd Hn Hc. apply stmtG_head in Hst as (t & r & -> & Ht).
  rewrite length_app in Hn. simpl in Hn. destruct n as [|[|n]]; [lia|lia|].
  rewrite <- app_assoc. rewrite (blockLoop_step _ _ _ _ _ x _ (c :: rest)); [|done|by do 2 eexists|].
  - rewrite <- (app_nil_r (acc ++ [x])) at 2.
    apply (nil_parses k [] (List.Forall_nil _) (S n) depth o c rest); [done|simpl; lia|done].
  - apply IH; [done|simpl; lia|]. right. split; [done|]. do 2 eexists. split; [done|by left].
Qed.

Lemma cons_parses k s st x sep rest xs :
  Forall is_sep s -> stmtG k st x -> stmt_parses k st x -> is_sep sep -> body_parses k rest xs ->
  body_parses k (s ++ st ++ sep :: rest) (x :: xs).
Proof.
  intros Hs Hst IH Hsep IHb n depth o c tl acc Hd Hn Hc. apply stmtG_head in Hst as (t & r & -> & Ht).
  rewrite !length_app in Hn. simpl in Hn. destruct n as [|n]; [lia|].
  rewrite <- app_assoc, <- app_assoc.
  rewrite (blockLoop_step _ _ _ _ _ x _ (rest ++ c :: tl)); [|done|by do 2 eexists|].
  - rewrite (IHb n depth o c tl); [by rewrite <- app_assoc|done|lia|done].
  - apply IH; [done|simpl; lia|]. left. by exists sep.
Qed.

Lemma stmtG_parses k st x : stmtG k st x -> stmt_parses k st x.
Proof.
  intros H. induction H using stmtG_mind with (P0 := fun k pre xs _ => body_parses k pre xs);
    eauto using matcher_parses, plain_parses, block_parses, nil_parses, last_parses, cons_parses.
Qed.

Lemma parseFragmentBody_complete k pre xs :
  bodyG k pre xs -> Z.of_nat k <= maxBlockDepth -> forall n e acc,
  (length pre < n)%nat -> Kind e = TokenEOF ->
  parseFragmentBody file n (pre ++ [e]) acc = Ok (acc ++ xs).
Proof.
  intros H Hk. induction H as [k s Hs|k s st x Hs Hst|k s st x sep rest xs Hs Hst Hsep Hb IH];
    intros n e acc Hn He; (destruct n as [|n]; [simpl in Hn; lia|]); cbn [parseFragmentBody].
  - rewrite skipSeparators_seps by (try done; unfold is_sep; rewrite He; intros [?|[?|?]]; done).
    simpl. by rewrite He, app_nil_r.
  - destruct (stmtG_head _ _ _ Hst) as (t & r & -> & Ht). unfold is_word in Ht.
    rewrite <- app_assoc, skipSeparators_seps; [|done|unfold is_sep; simpl; rewrite Ht; intros [?|[?|?]]; done].
    simpl app. cbn [cur obind]. rewrite Ht. rewrite length_app in Hn. simpl in Hn.
    pose proof (stmtG_parses _ _ _ Hst n 0 [e] [e]) as Hp. simpl app in Hp. rewrite Hp; [|lia|simpl; lia|].
    + cbn [obind]. destruct n as [|n]; [lia|]. cbn [parseFragmentBody skipSeparators].
      rewrite He. cbn [cur obind]. by rewrite He.
    + right. split; [done|]. do 2 eexists. split; [done|by right].
  - destruct (stmtG_head _ _ _ Hst) as (t & r & -> & Ht). unfold is_word in Ht.
    rewrite <- app_assoc, skipSeparators_seps; [|done|unfold is_sep; simpl; rewrite Ht; intros [?|[?|?]]; done].
    rewrite <- app_assoc.
    simpl app. cbn [cur obind]. rewrite Ht. rewrite !length_app in Hn. simpl in Hn.
    pose proof (stmtG_parses _ _ _ Hst n 0 (sep :: rest ++ [e]) (rest ++ [e])) as Hp.
    simpl app in Hp. rewrite Hp; [|lia|simpl; lia|].
    + cbn [obind]. rewrite IH by (done || lia). by rewrite <- app_assoc.
    + left. by exists sep.
Qed.
End Grammar.

(** C2. [ParseFragment] implements the declarative grammar exactly: it returns
    the statement list [xs] if and only if the source lexes to tokens that the
    grammar, with blocks nested at most [maxBlockDepth] deep, derives as [xs]. *)
Theorem ParseFragment_grammar file src xs :
  ParseFragment file src = Ok xs <->
  exists ts e, tokenize file src = Ok (ts ++ [e]) /\ Kind e = TokenEOF /\
    bodyG file (Z.to_nat maxBlockDepth) ts xs.
Proof.
  unfold ParseFragment. split.
  - intros H. inv_obind. destruct (tokenize file src) as [ts| |] eqn:Et; simpl in Ha; [|done|done].
    injection Ha as <-. pose proof (tokenize_eof _ _ _ Et) as He.
    apply parseFragmentBody_sound in H as (pre & e & new & -> & Hk & -> & Hb); [|done].
    by exists pre, e.
  - intros (ts & e & -> & He & Hb). cbn [lift_lex obind].
    apply (parseFragmentBody_complete file _ ts xs Hb ltac:(by vm_compute) _ e []); [|done].
    rewrite length_app. simpl. lia.
Qed.

Lemma ParseFragment_grammar_witness :
  exists ts e, tokenize [] (go "tls { acme me }; pass") = Ok (ts ++ [e]) /\ Kind e = TokenEOF /\
    bodyG [] (Z.to_nat maxBlockDepth) ts
      [Directive (go "tls") []
         [Directive (go "acme") [mkArg (go "me") false ArgLiteral (mkPos [] 1 12)] [] false (mkPos [] 1 7)]
         true (mkPos [] 1 1);
       Directive (go "pass") [] [] false (mkPos [] 1 18)].
Proof.
  apply (proj1 (ParseFragment_grammar [] (go "tls { acme me }; pass") _)). vm_compute. reflexivity.
Defined.

(** ** Nesting *)

Fixpoint node_depth (x : Node) : nat :=
  match x with
  | MatcherDef _ _ _ _ => 0
  | Directive _ _ b h _ =>
      if h then S (fold_right (fun y m => Nat.max (node_depth y) m) 0%nat b) else 0
  end.

Definition nodes_depth (xs : list Node) : nat := fold_right (fun y m => Nat.max (node_depth y) m) 0%nat xs.

Lemma nodes_depth_app xs ys : nodes_depth (xs ++ ys) = Nat.max (nodes_depth xs) (nodes_depth ys).
Proof. unfold nodes_depth. induction xs as [|x xs IH]; simpl; [done|]. rewrite IH. lia. Qed.

Lemma bodyG_depth file k ts xs : bodyG file k ts xs -> (nodes_depth xs <= k)%nat.
Proof.
  intros H.
  induction H using bodyG_mind with (P := fun k st x _ => (node_depth x <= k)%nat);
    simpl in *; unfold nodes_depth in *; simpl in *; lia.
Qed.

Lemma stmtG_depth file k st x : stmtG file k st x -> (node_depth x <= k)%nat.
Proof.
  intros H. assert (bodyG file k ([] ++ st) [x]) as Hb by (constructor; [constructor|done]).
  apply bodyG_depth in Hb. unfold nodes_depth in Hb. simpl in Hb. lia.
Qed.

Definition file_bounded (f : CFile) : Prop :=
  (forall o, Global f = Some o -> (nodes_depth (o_body o) < Z.to_nat maxBlockDepth)%nat) /\
  Forall (fun s => (nodes_depth (s_body s) < Z.to_nat maxBlockDepth)%nat) (Sites f) /\
  (nodes_depth (f_body f) <= Z.to_nat maxBlockDepth)%nat.

Lemma parseBlockBody_depth file n o ts xs rest :
  parseBlockBody file n 0 o ts = Ok (xs, rest) -> (nodes_depth xs < Z.to_nat maxBlockDepth)%nat.
Proof.
  intros H. apply enterBlock_sound in H as (j & body & c & Hj & _ & _ & Hb); [|done].
  rewrite Z.sub_0_r in Hj. rewrite Hj. apply bodyG_depth in Hb. lia.
Qed.

Lemma fileLoop_bounded file n ts f f' :
  file_bounded f -> fileLoop file n ts f = Ok f' -> file_bounded f'.
Proof.
  revert ts f. induction n as [|n IH]; intros ts f Hf H; [done|]. cbn [fileLoop] in H.
  destruct ts as [|t r]; [done|]. cbn [cur obind] in H.
  destruct (isKind TokenEOF t); [by injection H as <-|]. destruct (isKind TokenCloseBrace t); [done|].
  destruct (startsSiteBlock (t :: r)) as [[]| |]; cbn [obind] in H; try done.
  - inv_obind. destruct a as [s ts']. apply IH in H; [done|]. unfold parseSite in Ha. inv_obind.
    destruct a0 as [[addrs o] ts1]. inv_obind. destruct a0 as [body ts2]. injection Ha as <- <-.
    apply parseBlockBody_depth in Ha2. destruct Hf as (? & ? & ?). split_and!; simpl; try done.
    apply Forall_app_2; [done|]. constructor; [done|constructor].
  - destruct (unseparatedAddrWrap (t :: r)) as [[tok []]| |]; cbn [obind] in H; try done.
    inv_obind. destruct a as [st ts']. apply IH in H; [done|].
    apply (parseStatement_sound file (Z.to_nat maxBlockDepth)) in Ha as (l & mid & _ & HG & _).
    + destruct Hf as (? & ? & ?). split_and!; simpl; try done.
      rewrite nodes_depth_app. apply stmtG_depth in HG. unfold nodes_depth at 2. simpl. lia.
    + intros o ts1 xs rest _ Hp. by apply enterBlock_sound in Hp.
Qed.

(** Block nesting of an accepted file is bounded by [maxBlockDepth], so the
    recursion of every later pass over the AST is bounded whatever the input. *)
Theorem Parse_depth_bounded file src f :
  Parse file src = Ok f -> file_bounded f.
Proof.
  intros H. unfold Parse in H. inv_obind. unfold parseFile in H.
  destruct (skipSeparators a) as [|t r]; [done|]. cbn [cur obind] in H.
  destruct (isKind TokenOpenBrace t).
  - inv_obind. destruct a0 as [o ts']. eapply fileLoop_bounded; [|exact H].
    unfold parseGlobalOptions in Ha0. inv_obind. destruct a0 as [opn ts1]. inv_obind.
    destruct a0 as [body ts2]. injection Ha0 as <- <-. apply parseBlockBody_depth in Ha2.
    split_and!; simpl; [|done|lia]. by intros ? [= <-].
  - eapply fileLoop_bounded; [|exact H]. split_and!; simpl; try done. lia.
Qed.

Lemma Parse_depth_bounded_witness :
  file_bounded (mkCFile None
    [mkSite [go "a.com"] [Directive (go "tls") [] [Directive (go "x") [] [] false (mkPos [] 1 15)] true (mkPos [] 1 9)]
       (mkPos [] 1 1)] []).
Proof. apply (Parse_depth_bounded [] (go "a.com { tls { x } }")). vm_compute. reflexivity. Defined.

(** ** Site headers that wrap over several lines *)

(** A token that keeps an address list open: a line break or comment, or an
    unquoted address-shaped word ending in a comma. *)
Definition header_token (t : Token) : Prop :=
  Kind t = TokenNewline \/ Kind t = TokenComment \/
  (is_word t /\ Quoted t = false /\ isAddressToken (Text t) = true /\ HasSuffix (Text t) (go ",") = true).

Definition header_addresses (ts : list Token) : list bytes :=
  flat_map (fun t => if isKind TokenWord t then splitAddressToken (Text t) else []) ts.

Lemma startsSiteBlock_loop_header hdr lw o rest :
  Forall header_token hdr -> is_word lw -> Kind o = TokenOpenBrace ->
  startsSiteBlock_loop (hdr ++ lw :: o :: rest) true = true.
Proof.
  intros Hh Hl Ho. unfold is_word in Hl. induction Hh as [|t hdr Ht _ IH]; cbn [app startsSiteBlock_loop].
  - by rewrite Hl, Ho.
  - destruct Ht as [->|[->|(Hw & -> & -> & ->)]]; [done|done|]. unfold is_word in Hw. by rewrite Hw.
Qed.

Lemma siteAddresses_header file hdr lw o rest acc :
  Forall header_token hdr -> is_word lw -> Kind o = TokenOpenBrace ->
  acc ++ header_addresses (hdr ++ [lw]) <> [] ->
  siteAddresses file (hdr ++ lw :: o :: rest) acc = Ok (acc ++ header_addresses (hdr ++ [lw]), o, rest).
Proof.
  intros Hh Hl Ho. revert acc. unfold is_word in Hl.
  induction Hh as [|t hdr Ht _ IH]; intros acc Hne; cbn [app siteAddresses].
  - rewrite Hl. unfold header_addresses in *. cbn [app flat_map] in *.
    rewrite (isKind_true TokenWord lw Hl), app_nil_r in *. rewrite Ho.
    by rewrite bool_decide_eq_false_2.
  - unfold header_addresses in *. cbn [app flat_map] in *.
    destruct Ht as [Hk|[Hk|(Hk & _)]]; unfold is_word in *; rewrite Hk.
    + rewrite isKind_false in * by congruence. by apply IH.
    + rewrite isKind_false in * by congruence. by apply IH.
    + rewrite isKind_true in * by done. rewrite IH; [by rewrite <- app_assoc|by rewrite <- app_assoc].
Qed.

(** A site header whose addresses are comma-separated and wrap over any
    number of lines (with comments between them) is read as one site block, and
    every address of every line is in the site's address list. *)
Theorem wrapped_header_one_site file n hdr lw o rest :
  Forall header_token hdr -> is_word lw -> Kind o = TokenOpenBrace ->
  match hdr with t :: _ => HasPrefix (Text t) (go "@") = false | [] => HasPrefix (Text lw) (go "@") = false end ->
  header_addresses (hdr ++ [lw]) <> [] ->
  startsSiteBlock (hdr ++ lw :: o :: rest) = Ok true /\
  forall s rest', parseSite file n (hdr ++ lw :: o :: rest) = Ok (s, rest') ->
    Addresses s = header_addresses (hdr ++ [lw]).
Proof.
  intros Hh Hl Ho Hat Hne. split.
  - unfold startsSiteBlock. pose proof (startsSiteBlock_loop_header hdr lw o rest Hh Hl Ho) as Hs.
    destruct hdr as [|t hdr]; simpl app in *; cbn [cur obind]; rewrite Hs, Hat;
      by destruct (isKind _ _), (negb _).
  - intros s rest' H. unfold parseSite in H. inv_obind. destruct a0 as [[addrs opn] ts1]. inv_obind.
    destruct a0 as [body ts2]. injection H as <- <-.
    rewrite (siteAddresses_header file hdr lw o rest []) in Ha0 by done.
    by injection Ha0 as <- <- <-.
Qed.

Definition tk (k : TokenKind) (s : string) : Token := mkToken k (go s) [] 1 1 false 0.

Lemma wrapped_header_one_site_witness :
  let hdr := [tk TokenWord "a.com,"; tk TokenNewline ""; tk TokenWord "intranet,"; tk TokenComment "# x"] in
  startsSiteBlock (hdr ++ [tk TokenWord "b.com"; tk TokenOpenBrace "{"; tk TokenCloseBrace "}"; tk TokenEOF ""]) = Ok true /\
  (forall s rest', parseSite [] 9 (hdr ++ [tk TokenWord "b.com"; tk TokenOpenBrace "{"; tk TokenCloseBrace "}"; tk TokenEOF ""]) = Ok (s, rest') ->
    Addresses s = header_addresses (hdr ++ [tk TokenWord "b.com"])) /\
  header_addresses (hdr ++ [tk TokenWord "b.com"]) = [go "a.com"; go "intranet"; go "b.com"].
Proof.
  intros hdr.
  destruct (wrapped_header_one_site [] 9 hdr (tk TokenWord "b.com") (tk TokenOpenBrace "{")
    [tk TokenCloseBrace "}"; tk TokenEOF ""]) as [H1 H2]; try done.
  - repeat (apply List.Forall_cons); try apply List.Forall_nil; unfold header_token;
      [right; right|left|right; right|right; left]; by vm_compute.
Defined.
