(* ===== verification/Format.v ===== *)
(** * The formatter ([internal/cadishfile/format.go])

    [Format] rewrites a file token by token.  Its buffer and its flags are a state, and
    each token appends to the buffer; what a token appends is read back by the lexer as
    the tokens of [stepShapes], so the text of the formatted file is known by its tokens. *)

From stdpp Require Import base strings pretty numbers gmap list.
From Stdlib Require Import Lia.
From S2P Require Import Prelude GoStrings Ast Lex Quote Parse.
Open Scope Z_scope.

Definition indentUnit : bytes := go "    ".

Record fmtState : Type := mkFmt {
  b_out : bytes;
  b_depth : nat;
  b_atLineStart : bool;
  b_wroteAny : bool;
  b_pendingBlank : bool;
  b_suppressBlank : bool
}.

Definition initFmt : fmtState := mkFmt [] 0 true false false false.

Definition indentation (depth : nat) : bytes := concat (repeat indentUnit depth).

Definition writeStr (text : bytes) (s : fmtState) : fmtState :=
  mkFmt (b_out s ++ text) (b_depth s) (b_atLineStart s) (b_wroteAny s) (b_pendingBlank s) (b_suppressBlank s).

Definition newlineIfNeeded (s : fmtState) : fmtState :=
  if b_atLineStart s then s
  else mkFmt (b_out s ++ [Zbyte rNL]) (b_depth s) true (b_wroteAny s) (b_pendingBlank s) (b_suppressBlank s).

Definition startLine (s : fmtState) : fmtState :=
  mkFmt (b_out s ++ (if b_pendingBlank s && b_wroteAny s then [Zbyte rNL] else []) ++ indentation (b_depth s))
    (b_depth s) false true false (b_suppressBlank s).

(** The start of a word, a comment or a brace: a fresh line, or a space. *)
Definition startItem (s : fmtState) : fmtState := if b_atLineStart s then startLine s else writeStr (go " ") s.

Definition writeWord (text : bytes) (s : fmtState) : fmtState := writeStr text (startItem s).

(** The bookkeeping before the [switch]. *)
Definition beginToken (t : Token) (s : fmtState) : fmtState :=
  let pending := if (0 <? BlankBefore t) && b_atLineStart s && negb (b_suppressBlank s) then true else b_pendingBlank s in
  let suppress := if negb (bool_decide (Kind t = TokenNewline)) && negb (bool_decide (Kind t = TokenSemicolon) && b_atLineStart s)
    then false else b_suppressBlank s in
  mkFmt (b_out s) (b_depth s) (b_atLineStart s) (b_wroteAny s) pending suppress.

(** [trailingCommentAfter], for a brace, with the tokens after it. *)
Definition trailingCommentAfter (ts : list Token) (line : Z) : option Token :=
  match ts with
  | nt :: _ => if bool_decide (Kind nt = TokenComment) && (Line nt =? line) then Some nt else None
  | [] => None
  end.

Definition writeComment (c : option Token) (s : fmtState) : fmtState :=
  match c with Some c => writeStr (Text c) (writeStr (go " ") s) | None => s end.

Definition set_depth (d : nat) (s : fmtState) : fmtState :=
  mkFmt (b_out s) d (b_atLineStart s) (b_wroteAny s) (b_pendingBlank s) (b_suppressBlank s).

Definition set_blank (pending suppress : bool) (s : fmtState) : fmtState :=
  mkFmt (b_out s) (b_depth s) (b_atLineStart s) (b_wroteAny s) pending suppress.

(** One round of the loop; [c] is the comment kept on the line of a brace. *)
Definition formatToken (t : Token) (c : option Token) (s : fmtState) : fmtState :=
  let s := beginToken t s in
  match Kind t with
  | TokenEOF => s
  | TokenNewline | TokenSemicolon => newlineIfNeeded s
  | TokenComment => newlineIfNeeded (writeStr (Text t) (startItem s))
  | TokenOpenBrace =>
    let s := newlineIfNeeded (writeComment c (writeStr (go "{") (startItem s))) in
    set_blank false true (set_depth (S (b_depth s)) s)
  | TokenCloseBrace =>
    let s := newlineIfNeeded s in
    let s := set_blank false (b_suppressBlank s) (set_depth (pred (b_depth s)) s) in
    newlineIfNeeded (writeComment c (writeStr (go "}") (startLine s)))
  | TokenWord => writeWord (formatWord t) s
  end.

Definition isBrace (t : Token) : bool := bool_decide (Kind t = TokenOpenBrace \/ Kind t = TokenCloseBrace).

Fixpoint formatLoop (toks : list Token) (s : fmtState) : fmtState :=
  match toks with
  | [] => s
  | t :: r =>
    match (if isBrace t then trailingCommentAfter r (Line t) else None), r with
    | Some c, _ :: r' => formatLoop r' (formatToken t (Some c) s)
    | _, _ => formatLoop r (formatToken t None s)
    end
  end.

(** [Format]. *)
Definition Format (src : bytes) : outcome perr bytes :=
  let! toks := lift_lex (tokenize [] src) in
  let! _ := Parse [] src in
  let out := TrimRight (b_out (newlineIfNeeded (formatLoop toks initFmt))) [Zbyte rNL] in
  Ok (if bool_decide (out = []) then [] else out ++ [Zbyte rNL]).

Definition lines (l : list string) : bytes := flat_map (fun s => go s ++ [Zbyte rNL]) l.

Example format_example :
  Format (lines ["# top"; EmptyString; EmptyString; "a.com,  b.com {   # site"; EmptyString; "  tls { acme me };pass @x \"; "   # why"; "}"]%string) =
  Ok (lines ["# top"; EmptyString; "a.com, b.com { # site"; "    tls {"; "        acme me"; "    }"; "    pass @x # why"; "}"]%string).
Proof. vm_compute. reflexivity. Qed.

(** ** The tokens of the output *)

(** A token without its position. *)
Record shape : Type := mkShape { sh_kind : TokenKind; sh_text : bytes; sh_quoted : bool; sh_blank : Z }.

Definition shape_of (t : Token) : shape := mkShape (Kind t) (Text t) (Quoted t) (BlankBefore t).

Definition nlShape : shape := mkShape TokenNewline [] false 0.
Definition eofShape : shape := mkShape TokenEOF [] false 0.

(** The blank lines before what is started next. *)
Definition blankOf (s : fmtState) : Z := if b_atLineStart s && (b_pendingBlank s && b_wroteAny s) then 1 else 0.

Definition endShapes (s : fmtState) : list shape := if b_atLineStart s then [] else [nlShape].

Definition commentShapes (c : option Token) : list shape :=
  match c with Some c => [mkShape TokenComment (Text c) false 0] | None => [] end.

(** The tokens of what [formatToken] appends. *)
Definition stepShapes (t : Token) (c : option Token) (s : fmtState) : list shape :=
  let s := beginToken t s in
  match Kind t with
  | TokenEOF => []
  | TokenNewline | TokenSemicolon => endShapes s
  | TokenComment => [mkShape TokenComment (Text t) false (blankOf s); nlShape]
  | TokenOpenBrace => mkShape TokenOpenBrace (go "{") false (blankOf s) :: commentShapes c ++ [nlShape]
  | TokenCloseBrace => endShapes s ++ mkShape TokenCloseBrace (go "}") false 0 :: commentShapes c ++ [nlShape]
  | TokenWord => [mkShape TokenWord (Text t) (Quoted t || needsQuoting (Text t)) (blankOf s)]
  end.

Fixpoint emitted (toks : list Token) (s : fmtState) : list shape :=
  match toks with
  | [] => endShapes s
  | t :: r =>
    match (if isBrace t then trailingCommentAfter r (Line t) else None), r with
    | Some c, _ :: r' => stepShapes t (Some c) s ++ emitted r' (formatToken t (Some c) s)
    | _, _ => stepShapes t None s ++ emitted r (formatToken t None s)
    end
  end.

(** ** What the lexer guarantees of its tokens *)

(** A run of balanced braces, [d] of them open before it. *)
Inductive braces : Z -> bytes -> Prop :=
| br_close : braces 1 [Zbyte rRB]
| br_open d s : braces (d + 1) s -> braces d (Zbyte rLB :: s)
| br_shut d s : d <> 1 -> braces (d - 1) s -> braces d (Zbyte rRB :: s)
| br_rune d r s : valid_rune r -> r <> rLB -> r <> rRB -> isBlankRune r = false -> isDisallowedControl r = false ->
  braces d s -> braces d (encodeRune r ++ s).

(** The text of a bare word. *)
Inductive bare : bytes -> Prop :=
| ba_nil : bare []
| ba_rune r s : valid_rune r -> r <> rLB -> r <> rRB -> r <> rSEMI -> isBlankRune r = false -> isDisallowedControl r = false ->
  bare s -> bare (encodeRune r ++ s)
| ba_braces p s : braces 0 (Zbyte rLB :: p) -> bare s -> bare (Zbyte rLB :: p ++ s).

Definition comment_text (s : bytes) : Prop :=
  Forall clean s /\ Forall (fun b => b <> Zbyte rNL) s /\ TrimRight s [Zbyte rSP; Zbyte rTAB; Zbyte rCR] = s /\
  exists s', s = Zbyte rHASH :: s'.

Definition token_ok (t : Token) : Prop :=
  match Kind t with
  | TokenWord => word_text (Text t) /\ (Quoted t = false -> bare (Text t) /\ Text t <> [])
  | TokenComment => comment_text (Text t)
  | TokenNewline | TokenSemicolon => BlankBefore t = 0
  | _ => True
  end.

Lemma decodeRune_valid s : valid_rune (fst (decodeRune s)).
Proof.
  unfold decodeRune, decode2, decode3, decode4, is_cont, RuneError, valid_rune.
  destruct s as [|b0 r]; [cbn; lia|]. pose proof (byteZ_range b0).
  destruct r as [|b1 [|b2 [|b3 r]]]; cbn; zcases; cbn; try lia;
    repeat match goal with b : ascii |- _ => pose proof (byteZ_range b); clear b end; lia.
Qed.

Lemma peekRune_valid l r w : peekRune l = (r, w) -> valid_rune r.
Proof.
  unfold peekRune. destruct (l_rest l) as [|c s]; [intros [= <- _]; unfold valid_rune; lia|].
  intros H. pose proof (decodeRune_valid (c :: s)) as Hv. by rewrite H in Hv.
Qed.

Lemma scanPlaceholder_loop_braces n l b d b' l' :
  scanPlaceholder_loop n l b d = Some (b', l') -> exists s, b' = b ++ s /\ braces d s.
Proof.
  revert l b d. induction n as [|n IH]; intros l b d H; cbn [scanPlaceholder_loop] in H; [done|].
  peek l r w E; [done|]. destruct (isBlankRune r || isDisallowedControl r) eqn:Ec; [done|]. adv.
  apply orb_false_iff in Ec as [Eb Ec]. pose proof (peekRune_valid _ _ _ E) as Hv.
  destruct (Z.eqb_spec r rLB) as [-> |]; [|destruct (Z.eqb_spec r rRB) as [-> |]; [destruct (Z.eqb_spec (d - 1) 0)|]].
  - apply IH in H as (s & -> & Hs). exists (Zbyte rLB :: s). rewrite <- app_assoc. split; [done|by constructor].
  - injection H as <- <-. exists [Zbyte rRB]. split; [done|]. replace d with 1 by lia. constructor.
  - apply IH in H as (s & -> & Hs). exists (Zbyte rRB :: s). rewrite <- app_assoc. split; [done|constructor; [lia|done]].
  - apply IH in H as (s & -> & Hs). exists (encodeRune r ++ s). rewrite <- app_assoc. split; [done|by constructor].
Qed.

Lemma scanPlaceholder_braces l w b l' : peekRune l = (rLB, S w) -> scanPlaceholder l = Some (b, l') ->
  exists p, b = Zbyte rLB :: p /\ braces 0 b.
Proof.
  intros E H. unfold scanPlaceholder in H. cbn [scanPlaceholder_loop] in H. rewrite E in H. adv. cbn [isBlankRune Z.eqb orb isDisallowedControl] in H.
  cbn in H. apply scanPlaceholder_loop_braces in H as (s & -> & Hs). exists s. split; [done|by apply br_open].
Qed.

Lemma lexWord_loop_bare_text n l b b' l' : lexWord_loop n l b = Ok (b', l') -> exists s, b' = b ++ s /\ bare s.
Proof.
  revert l b. induction n as [|n IH]; intros l b H; cbn [lexWord_loop] in H; [done|].
  assert (forall x y : lexer, Ok (E := ParseError) (b, x) = Ok (b', y) -> exists s, b' = b ++ s /\ bare s) as Hstop.
  { intros x y [= <- _]. exists []. rewrite app_nil_r. split; [done|constructor]. }
  peek l r w E; [by eapply Hstop|]. adv. pose proof (peekRune_valid _ _ _ E) as Hv.
  assert (forall m, r <> rLB -> r <> rRB -> r <> rSEMI -> isBlankRune r = false -> isDisallowedControl r = false ->
    lexWord_loop n m (b ++ encodeRune r) = Ok (b', l') -> exists s, b' = b ++ s /\ bare s) as Hrune.
  { intros m ? ? ? ? ? (s & -> & Hs)%IH. exists (encodeRune r ++ s). rewrite <- app_assoc. split; [done|by constructor]. }
  destruct (Z.eqb_spec r rBSL) as [-> |]; [destruct (isLineContinuation l); [by eapply Hstop|by eapply Hrune]|].
  destruct (isBlankRune r) eqn:Eb; [by eapply Hstop|]. destruct (isDisallowedControl r) eqn:Ec; [by eapply Hstop|].
  destruct (Z.eqb_spec r rSEMI), (Z.eqb_spec r rRB); cbn [orb] in H; try by eapply Hstop.
  destruct (Z.eqb_spec r rLB) as [-> |]; [|by eapply Hrune].
  destruct (scanPlaceholder l) as [[ph l1]|] eqn:Es; [|by eapply Hstop].
  apply IH in H as (s & -> & Hs). destruct (scanPlaceholder_braces _ _ _ _ E Es) as (p & -> & Hp).
  exists (Zbyte rLB :: p ++ s). rewrite <- app_assoc. split; [done|by constructor].
Qed.

Lemma utf8_app s t : utf8 s -> utf8 t -> utf8 (s ++ t).
Proof. induction 1 as [|r s Hv _ IH]; intros Ht; [done|]. rewrite <- app_assoc. constructor; auto. Qed.

Lemma utf8_rune r : valid_rune r -> utf8 (encodeRune r).
Proof. intros Hv. rewrite <- (app_nil_r (encodeRune r)). by apply utf8_cons; [|constructor]. Qed.

Lemma bare_utf8 s : bare s -> utf8 s.
Proof.
  assert (forall d p, braces d p -> utf8 p) as Hbr.
  { induction 1 as [|d p _ IH|d p _ _ IH|d r p Hv _ _ _ _ _ IH]; [|change (?c :: p) with ([c] ++ p)..|by constructor].
    - apply (utf8_cons rRB []); [unfold valid_rune; lia|constructor].
    - apply (utf8_cons rLB p); [unfold valid_rune; lia|done].
    - apply (utf8_cons rRB p); [unfold valid_rune; lia|done]. }
  induction 1 as [|r s Hv _ _ _ _ _ _ IH|p s Hp _ IH]; [constructor|by constructor|].
  apply Hbr in Hp. rewrite app_comm_cons. by apply utf8_app.
Qed.

Lemma lexQuoted_loop_utf8 n err l b b' l' : utf8 b -> lexQuoted_loop n err l b = Ok (b', l') -> utf8 b'.
Proof.
  revert l b. induction n as [|n IH]; intros l b Hb H; cbn [lexQuoted_loop] in H; [done|].
  assert (forall r, valid_rune r -> utf8 (b ++ encodeRune r)) as Hr by (intros r Hv; by apply utf8_app, utf8_rune).
  peek l r w E; [done|]. adv. pose proof (peekRune_valid _ _ _ E). destruct (isDisallowedControl r); [done|].
  destruct (r =? rBSL).
  - peek (past l r (S w)) r' w' E'; [done|]. adv. pose proof (peekRune_valid _ _ _ E'). destruct (isDisallowedControl r'); [done|].
    destruct (_ || _); (eapply IH; [|exact H]); [auto|]. rewrite app_assoc. apply utf8_app; [|by apply utf8_rune].
    apply (Hr rBSL). unfold valid_rune; lia.
  - destruct (r =? rDQ); [by injection H as <- _|]. eapply IH; [|exact H]. auto.
Qed.

(** Where a comment ends. *)
Definition comment_stop (l : lexer) : Prop :=
  match snd (peekRune l) with O => True | _ => fst (peekRune l) = rNL \/ isDisallowedControl (fst (peekRune l)) = true end.

Lemma take_not_nl l r w : peekRune l = (r, S w) -> r <> rNL -> Forall (fun c => c <> Zbyte rNL) (take (S w) (l_rest l)).
Proof.
  unfold peekRune. destruct (l_rest l) as [|c s]; [done|]. intros E Hr. destruct (decide (r < 0x80)) as [Hl|Hh].
  - destruct (decodeRune_small (c :: s)) as (b0 & t & Heq & Hb & Hw); [rewrite E; cbn; lia|done|].
    rewrite E in Hb, Hw. cbn in Hb, Hw. injection Hw as ->. injection Heq as <- <-. cbn. constructor; [|constructor].
    intros ->. by rewrite <- Hb in Hr.
  - pose proof (decodeRune_high (c :: s)) as H. rewrite E in H. cbn [fst snd] in H. eapply Forall_impl; [apply H; lia|].
    intros b Hb ->. change (byteZ (Zbyte rNL)) with 10 in Hb. lia.
Qed.

Lemma lexComment_loop_text n l b b' l' : lexComment_loop n l b = Ok (b', l') ->
  comment_stop l' /\ l_atLineStart l' = l_atLineStart l /\
  exists s, b' = b ++ s /\ Forall (fun c => c <> Zbyte rNL) s /\ (forall w, peekRune l = (rHASH, S w) -> exists s', s = Zbyte rHASH :: s').
Proof.
  revert l b. induction n as [|n IH]; intros l b H; cbn [lexComment_loop] in H; [done|]. unfold comment_stop.
  peek l r w E; [|adv; destruct (Z.eqb_spec r rNL) as [-> |]; [|destruct (isDisallowedControl r) eqn:Ec]].
  - injection H as <- <-. rewrite E. split_and!; [done|done|]. exists []. rewrite app_nil_r. by split_and!.
  - injection H as <- <-. rewrite E. split_and!; [by left|done|]. exists []. rewrite app_nil_r. by split_and!.
  - injection H as <- <-. rewrite E. split_and!; [by right|done|]. exists []. rewrite app_nil_r. split_and!; [done|constructor|]. by intros ? [= -> _].
  - apply IH in H as (H1 & H2 & s & -> & Hs & _). split_and!; [done|done|]. exists (take (S w) (l_rest l) ++ s).
    rewrite <- app_assoc. split_and!; [done|apply Forall_app_2; [by eapply take_not_nl|done]|].
    intros w' [= -> ->]. unfold peekRune in E. destruct (l_rest l) as [|c t]; [done|].
    destruct (decodeRune_small (c :: t)) as (b0 & t0 & Heq & Hb & Hw); [rewrite E; cbn; lia|done|]. rewrite E in Hb. cbn in Hb.
    injection Heq as <- <-. exists (take w' t ++ s). cbn. by rewrite <- (Zbyte_byteZ c), Hb.
Qed.

Lemma TrimRight_idem s cut : TrimRight (TrimRight s cut) cut = TrimRight s cut.
Proof.
  induction s as [|b r IH]; cbn; [done|]. destruct (TrimRight r cut) as [|c r'] eqn:E; [|by cbn in *; rewrite IH].
  destruct (existsb (Ascii.eqb b) cut) eqn:Eb; cbn; [done|by rewrite Eb].
Qed.

Lemma comment_text_trim s s' : Forall clean s -> Forall (fun c => c <> Zbyte rNL) s -> s = Zbyte rHASH :: s' ->
  comment_text (TrimRight s [Zbyte rSP; Zbyte rTAB; Zbyte rCR]).
Proof.
  intros Hc Hn Hs. split_and!; [| |apply TrimRight_idem|].
  - destruct (TrimRight_prefix s [Zbyte rSP; Zbyte rTAB; Zbyte rCR]) as [tl Htl]. rewrite Htl in Hc. by apply Forall_app in Hc as [? _].
  - destruct (TrimRight_prefix s [Zbyte rSP; Zbyte rTAB; Zbyte rCR]) as [tl Htl]. rewrite Htl in Hn. by apply Forall_app in Hn as [? _].
  - subst s. cbn. destruct (TrimRight s' _) as [|c r]; [by eexists|]. by eexists.
Qed.

Lemma lexWord_loop_nonempty n l b' l' r w : peekRune l = (r, S w) -> starts_word l r -> lexWord_loop n l [] = Ok (b', l') -> b' <> [].
Proof.
  intros E Hs H. destruct n as [|n]; cbn [lexWord_loop] in H; [done|]. rewrite E in H. adv. cbn [app] in H. pose proof (encodeRune_nonempty r) as Hr.
  assert (forall m b, b <> [] -> lexWord_loop n m b = Ok (b', l') -> b' <> []) as Hne
    by (intros m b Hb (s & -> & _)%lexWord_loop_bare_text; by destruct b).
  destruct Hs as [[-> Hc]|[[-> Hp]|(?&?&?&?&Hb&Hd)]].
  - rewrite Hc in H. by eapply Hne, H.
  - destruct (looks_scan _ Hp) as [[ph l1] Es]. rewrite Es in H. destruct (scanPlaceholder_braces _ _ _ _ E Es) as (p & -> & _).
    eapply Hne; [|exact H]. done.
  - rewrite Hb, Hd in H. destruct (Z.eqb_spec r rBSL), (Z.eqb_spec r rSEMI), (Z.eqb_spec r rRB), (Z.eqb_spec r rLB); try done. by eapply Hne, H.
Qed.

(** A token of the lexer, and the end of a comment. *)
Definition next_ok (t : Token) (l' : lexer) : Prop :=
  token_ok t /\ (Kind t = TokenComment -> comment_stop l' /\ l_atLineStart l' = false).

Lemma next_token_ok l t l' : next l = Ok (t, l') -> next_ok t l'.
Proof.
  unfold next. generalize (S (length (l_rest l))). intros n. revert n l t l'. apply (next_loop_ind (fun _ t l' => next_ok t l')); try done.
  - intros l _. unfold mk. by destruct (takeBlank l).
  - intros l r w t l' E Hs H. pose proof (lexWord_kind _ _ _ H) as Hk. split; [|congruence]. unfold token_ok. rewrite Hk.
    rewrite <- (peekRune_takeBlank l), <- (starts_word_takeBlank l) in *. unfold lexWord in H. destruct (takeBlank l) as [bl l1]. cbn [fst snd] in *.
    inv_obind. destruct a as [b l2]. injection H as <- <-. cbn [Text Quoted].
    destruct (lexWord_loop_bare_text _ _ _ _ _ Ha) as (s & -> & Hb). cbn [app] in *.
    split; [split; [by apply bare_utf8|by eapply lexWord_loop_clean in Ha]|]. intros _. split; [done|]. by eapply lexWord_loop_nonempty.
  - intros l w t l' E H. pose proof (lexComment_kind _ _ _ H) as Hk. rewrite <- (peekRune_takeBlank l) in E. unfold lexComment in H.
    destruct (takeBlank l) as [bl l1]. cbn [fst snd] in *. inv_obind. destruct a as [b l2]. injection H as <- <-.
    destruct (lexComment_loop_text _ _ _ _ _ Ha) as (H1 & H2 & s & -> & Hs & Hh). apply lexComment_loop_clean in Ha; [|done].
    destruct (Hh _ E) as [s' Hs']. split; [|by split]. unfold token_ok. cbn [Kind Text app] in *. by eapply comment_text_trim.
  - intros l r w k tx bl _ Hin Hsemi. unfold lexPunct. rewrite !elem_of_cons in Hin.
    destruct Hin as [[= -> ->]|[[= -> ->]|[[= -> ->]|[]%not_elem_of_nil]]]; [..|rewrite (Hsemi eq_refl)];
      destruct bl; try destruct (takeBlank l); destruct (advance _); by split.
  - intros l w t l' _ H. pose proof (lexQuoted_kind _ _ _ H) as Hk. split; [|congruence]. unfold token_ok. rewrite Hk.
    unfold lexQuoted in H. destruct (takeBlank l), (advance _). inv_obind. destruct a. injection H as <- <-. cbn [Text Quoted].
    split; [|done]. split; [by eapply lexQuoted_loop_utf8; [|exact Ha]; constructor|by eapply lexQuoted_loop_clean in Ha].
Qed.

Fixpoint comments_end (ts : list Token) : Prop :=
  match ts with
  | [] => True
  | t :: r => (Kind t = TokenComment -> exists t2 r2, r = t2 :: r2 /\ (Kind t2 = TokenNewline \/ Kind t2 = TokenEOF)) /\ comments_end r
  end.

Lemma next_after_comment l t l' : comment_stop l -> l_atLineStart l = false -> next l = Ok (t, l') -> Kind t = TokenNewline \/ Kind t = TokenEOF.
Proof.
  intros Hs Ha H. unfold next in H. cbn [next_loop] in H. unfold comment_stop in Hs. peek l r w E; cbn [fst snd] in Hs.
  - right. unfold mk in H. destruct (takeBlank l). by injection H as <- _.
  - destruct Hs as [-> |Hc]; [|by rewrite Hc in H]. adv. cbn in H. rewrite Ha in H. left. by injection H as <- _.
Qed.

Lemma tokenize_loop_ok n l acc ts : tokenize_loop n l acc = Ok ts ->
  exists new, ts = acc ++ new /\ Forall token_ok new /\ comments_end new /\
    (comment_stop l -> l_atLineStart l = false -> exists t2 r2, new = t2 :: r2 /\ (Kind t2 = TokenNewline \/ Kind t2 = TokenEOF)).
Proof.
  revert l acc. induction n as [|n IH]; intros l acc H; cbn [tokenize_loop] in H; [done|]. inv_obind. destruct a as [t l'].
  destruct (next_token_ok _ _ _ Ha) as [Hok Hc]. case_bool_decide as Hk.
  - injection H as <-. exists [t]. split_and!; [done|by constructor|split; [congruence|done]|]. intros Hs Hl. exists t, []. split; [done|by right].
  - apply IH in H as (new & -> & Hf & He & Hn). exists (t :: new). rewrite <- app_assoc. split_and!; [done|by constructor| |].
    + split; [|done]. intros Hkc. destruct (Hc Hkc). by apply Hn.
    + intros Hs Hl. exists t, new. split; [done|]. by eapply next_after_comment.
Qed.

Lemma tokenize_ok file src ts : tokenize file src = Ok ts -> Forall token_ok ts /\ comments_end ts /\ eof_terminated ts.
Proof. intros H. pose proof (tokenize_eof _ _ _ H). apply tokenize_loop_ok in H as (new & -> & ? & ? & _). done. Qed.

(** ** Reading back *)

(** The lexer is at [rest], with nothing pending. *)
Definition at_rest (l : lexer) (rest : bytes) (start : bool) (blanks : Z) : Prop :=
  l_rest l = rest /\ l_atLineStart l = start /\ l_pendingBlank l = blanks.

Lemma scan_braces d s n l b rest : braces d s -> (size l < n)%nat -> l_rest l = s ++ rest ->
  exists l', scanPlaceholder_loop n l b d = Some (b ++ s, l') /\ l_rest l' = rest /\
    l_atLineStart l' = l_atLineStart l /\ l_pendingBlank l' = l_pendingBlank l /\ l_line l' = l_line l.
Proof.
  intros Hb. revert n l b. induction Hb as [|d s Hb IH|d s Hd Hb IH|d r s Hv Hlb Hrb Hbl Hc Hb IH]; intros n l b Hn Hl; (destruct n as [|n]; [lia|]); cbn [scanPlaceholder_loop].
  - destruct (peek_encoded l rRB rest) as (w & Hp & Hr); [done|unfold valid_rune; lia|]. rewrite Hp. adv. cbn. change (1 - 1 =? 0) with true. eauto 10.
  - destruct (peek_encoded l rLB (s ++ rest)) as (w & Hp & Hr); [done|unfold valid_rune; lia|]. rewrite Hp. adv. cbn.
    pose proof (past_size _ _ _ Hp). destruct (IH n (past l rLB (S w)) (b ++ [Zbyte rLB])) as (l' & -> & ?); [lia|done|]. exists l'. by rewrite <- app_assoc.
  - destruct (peek_encoded l rRB (s ++ rest)) as (w & Hp & Hr); [done|unfold valid_rune; lia|]. rewrite Hp. adv. cbn.
    destruct (Z.eqb_spec (d - 1) 0); [lia|].
    pose proof (past_size _ _ _ Hp). destruct (IH n (past l rRB (S w)) (b ++ [Zbyte rRB])) as (l' & -> & ?); [lia|done|]. exists l'. by rewrite <- app_assoc.
  - rewrite <- app_assoc in Hl. destruct (peek_encoded l r (s ++ rest)) as (w & Hp & Hr); [done|done|]. rewrite Hp. adv. rewrite Hbl, Hc. cbn [orb].
    destruct (Z.eqb_spec r rLB), (Z.eqb_spec r rRB); try done. pose proof (past_size _ _ _ Hp).
    destruct (IH n (past l r (S w)) (b ++ encodeRune r)) as (l' & -> & H1 & H2 & H3 & H4); [lia|done|]. exists l'. rewrite <- app_assoc. split_and!; try done.
    rewrite H4. unfold past. cbn. by destruct (Z.eqb_spec r rNL) as [-> |].
Qed.

Lemma looks_braces d s n rest : braces d s -> (length (s ++ rest) <= n)%nat -> looksLikePlaceholder_loop n (s ++ rest) d = true.
Proof.
  intros Hb. revert n. induction Hb as [|d s Hb IH|d s Hd Hb IH|d r s Hv Hlb Hrb Hbl Hc Hb IH]; intros n Hn.
  - destruct n as [|n]; [cbn in Hn; lia|]. done.
  - destruct n as [|n]; [cbn in Hn; lia|]. apply IH. cbn in Hn. lia.
  - destruct n as [|n]; [cbn in Hn; lia|]. cbn [app looksLikePlaceholder_loop]. change (decodeRune _) with (rRB, 1%nat). cbn [drop]. cbn -[looksLikePlaceholder_loop Z.sub]. destruct (Z.eqb_spec (d - 1) 0); [lia|]. apply IH. cbn in Hn. lia.
  - rewrite <- app_assoc in *. pose proof (decode_encode r (s ++ rest) Hv) as Hd. pose proof (encodeRune_nonempty r) as Hne.
    rewrite length_app in Hn. destruct (encodeRune r) as [|c e] eqn:E; [done|]. destruct n as [|n]; [cbn in Hn; lia|].
    cbn [looksLikePlaceholder_loop app] in *. rewrite Hd. change (c :: e ++ s ++ rest) with ((c :: e) ++ s ++ rest). rewrite drop_app_length, Hc, Hbl.
    destruct (Z.eqb_spec r rLB), (Z.eqb_spec r rRB); try done. apply IH. cbn in Hn. lia.
Qed.

Lemma encodeRune_head r c s : valid_rune r -> encodeRune r = c :: s -> byteZ c < 0x80 -> byteZ c = r.
Proof.
  intros Hv E Hc. destruct (decide (r < 0x80)) as [Hl|Hh].
  - unfold valid_rune in Hv. rewrite encodeRune_ascii in E by lia. injection E as <- _. apply byteZ_Zbyte. lia.
  - pose proof (encodeRune_high r ltac:(lia)) as H. rewrite E in H. inversion H. lia.
Qed.

(** The first byte of a bare word is no white space. *)
Lemma bare_head c s : bare (c :: s) -> isBlankRune (byteZ c) = false.
Proof.
  intros H. remember (c :: s) as t eqn:Et. destruct H as [|r s' Hv _ _ _ Hb _ _|p s' _ _]; [done| |by injection Et as <- _].
  pose proof (encodeRune_nonempty r). destruct (encodeRune r) as [|c' e] eqn:E; [done|]. injection Et as -> _.
  destruct (decide (byteZ c < 0x80)) as [Hl|Hh]; [by rewrite (encodeRune_head _ _ _ Hv E Hl)|].
  unfold isBlankRune. zcases; (done || lia).
Qed.

Lemma bare_not_continuation l s rest : l_rest l = Zbyte rBSL :: s ++ rest -> bare s -> s <> [] -> isLineContinuation l = false.
Proof.
  intros Hl Hb Hs. destruct s as [|c s]; [done|]. apply bare_head in Hb. unfold isLineContinuation. rewrite Hl. cbn [drop app].
  unfold isBlankRune in Hb. rewrite !orb_false_iff in Hb. destruct Hb as [[[_ _] Hnl] Hcr]. apply Z.eqb_neq in Hnl, Hcr.
  unfold TrimPrefix. destruct (HasPrefix _ [Zbyte rCR]) eqn:E.
  { apply HasPrefix_cons in E as (s' & [= -> _] & _). done. }
  destruct (HasPrefix _ [Zbyte rNL]) eqn:E'; [|done]. apply HasPrefix_cons in E' as (s' & [= -> _] & _). done.
Qed.

Lemma last_app_bsl (s t : bytes) : last (s ++ t) <> Some "\"%char -> last t <> Some "\"%char.
Proof. intros H E. apply H. rewrite last_app. by rewrite E. Qed.

Lemma lexWord_loop_read s n l b rest : bare s -> last s <> Some "\"%char -> delimited rest -> (size l < n)%nat -> l_rest l = s ++ rest ->
  exists l', lexWord_loop n l b = Ok (b ++ s, l') /\ l_rest l' = rest /\
    l_atLineStart l' = l_atLineStart l /\ l_pendingBlank l' = l_pendingBlank l /\ l_line l' = l_line l.
Proof.
  intros Hb. revert n l b. induction Hb as [|r s Hv Hlb Hrb Hse Hbl Hc Hb IH|p s Hp Hb IH]; intros n l b Hlast Hd Hn Hl; (destruct n as [|n]; [lia|]).
  - exists l. rewrite app_nil_r. split; [by eapply delimited_stop|done].
  - rewrite <- app_assoc in Hl. destruct (peek_encoded l r _ Hl) as (w & Hp & Hr); [done|]. pose proof (past_size _ _ _ Hp).
    destruct (IH n (past l r (S w)) (b ++ encodeRune r)) as (l' & H1 & H2 & H3 & H4 & H5); [by eapply last_app_bsl|done|lia|done|].
    exists l'. split_and!; [|done|done|done|rewrite H5; unfold past; cbn; by destruct (Z.eqb_spec r rNL) as [-> |]].
    rewrite app_assoc, <- H1. cbn [lexWord_loop]. rewrite Hp. adv. rewrite Hbl, Hc. destruct (Z.eqb_spec r rBSL) as [-> |].
    + rewrite (bare_not_continuation l s rest); [done|done|done|]. intros ->. by apply Hlast.
    + destruct (Z.eqb_spec r rSEMI), (Z.eqb_spec r rRB), (Z.eqb_spec r rLB); done.
  - cbn [app] in Hl. rewrite <- app_assoc in Hl. destruct (peek_encoded l rLB (p ++ s ++ rest)) as (w & Hpk & _); [done|unfold valid_rune; lia|].
    destruct (scan_braces 0 (Zbyte rLB :: p) (S (size l)) l [] (s ++ rest)) as (l1 & Hs & Hr1 & H1 & H2 & H3); [done|lia|done|].
    assert (size l1 < size l)%nat by (by eapply scanPlaceholder_loop_size).
    destruct (IH n l1 (b ++ Zbyte rLB :: p)) as (l' & H4 & H5 & H6 & H7 & H8); [by eapply (last_app_bsl (Zbyte rLB :: p))|done|lia|done|].
    exists l'. split_and!; [|done|congruence|congruence|congruence].
    rewrite (app_comm_cons p s), app_assoc, <- H4. cbn [lexWord_loop]. rewrite Hpk. unfold scanPlaceholder. unfold size in Hs. rewrite Hs. done.
Qed.

(** Blank lines are counted only at the start of a line. *)
Definition counted_blanks (l : lexer) : Prop := l_atLineStart l = false -> l_pendingBlank l = 0.

Lemma takeBlank_counted l : counted_blanks l -> exists l1, takeBlank l = (l_pendingBlank l, l1) /\
  l_rest l1 = l_rest l /\ l_pendingBlank l1 = 0 /\ l_line l1 = l_line l /\ peekRune l1 = peekRune l.
Proof.
  unfold counted_blanks, takeBlank, peekRune. destruct (l_atLineStart l) eqn:E; intros H; [by eexists|].
  exists l. by rewrite H.
Qed.

(** The lexer reads one token of a shape from some text, and is then inside a line. *)
Definition reads_item (sh : shape) (text rest : bytes) (l : lexer) : Prop :=
  exists t l', next l = Ok (t, l') /\ shape_of t = sh /\ Line t = l_line l /\ l_rest l' = rest /\ l_atLineStart l' = false /\ l_pendingBlank l' = 0 /\
    (sh_kind sh <> TokenWord -> l_line l' = l_line l).

Lemma lexQuoted_loop_pending n err l b b' l' : lexQuoted_loop n err l b = Ok (b', l') -> l_pendingBlank l' = l_pendingBlank l.
Proof.
  revert l b. induction n as [|n IH]; intros l b H; cbn [lexQuoted_loop] in H; [done|].
  peek l r w E; [done|]. adv. destruct (isDisallowedControl r); [done|]. destruct (r =? rBSL).
  - peek (past l r (S w)) r' w' E'; [done|]. adv. destruct (isDisallowedControl r'); [done|]. destruct (_ || _); by apply IH in H.
  - destruct (r =? rDQ); [by injection H as _ <-|by apply IH in H].
Qed.

Lemma reads_quoted text rest l : word_text text -> counted_blanks l -> l_rest l = quote text ++ rest ->
  reads_item (mkShape TokenWord text true (l_pendingBlank l)) (quote text) rest l.
Proof.
  intros [Hu Hc] Hb Hl. unfold quote in Hl. rewrite <- app_assoc in Hl.
  destruct (peek_encoded l rDQ _ Hl) as (w & Hp & Hr); [unfold valid_rune; lia|].
  destruct (takeBlank_counted l Hb) as (l1 & Ht & Hr1 & H0 & Hln & Hp1). unfold reads_item, next. cbn [next_loop]. rewrite Hp. cbn -[lexQuoted].
  unfold lexQuoted. rewrite Ht, Hp in *. rewrite (advance_eq l1 rDQ w) by congruence.
  destruct (lexQuoted_loop_quote text (S (size (past l1 rDQ (S w)))) (mkParseError (l_file l) (l_line l) (l_col l) MsgUnterminatedString)
    (past l1 rDQ (S w)) [] rest) as (l' & H1 & H2); [done|done|unfold size; lia| |].
  { unfold past in *. cbn in *. rewrite Hr1, Hr. by rewrite <- app_assoc. }
  pose proof (lexQuoted_loop_pending _ _ _ _ _ _ H1) as H3. unfold size in H1. rewrite H1. cbn. do 2 eexists. split_and!; [done|done|done|done|done| |done].
  cbn. by rewrite H3.
Qed.

Lemma reads_bare text rest l : bare text -> needsQuoting text = false -> delimited rest -> counted_blanks l -> l_rest l = text ++ rest ->
  reads_item (mkShape TokenWord text false (l_pendingBlank l)) text rest l.
Proof.
  intros Hba Hq Hd Hb Hl. apply needsQuoting_false in Hq as (Hne & Hlast & Hh & Hby).
  assert (next l = lexWord l) as Hnext.
  { unfold next. cbn [next_loop]. destruct Hba as [|r s Hv Hlb Hrb Hse Hbl Hc Hba|p s Hp Hba]; [done| |].
    - rewrite <- app_assoc in Hl. destruct (peek_encoded l r _ Hl) as (w & Hp & _); [done|]. rewrite Hp, Hc.
      unfold isBlankRune in Hbl. rewrite !orb_false_iff in Hbl. destruct Hbl as [[[-> ->] ->] ->]. cbn [orb].
      destruct (Z.eqb_spec r rBSL) as [-> |]; [rewrite (bare_not_continuation l s rest); [done|done|done|intros ->; by apply Hlast]|].
      destruct (Z.eqb_spec r rHASH) as [-> |]; [by destruct (Hh s)|]. destruct (Z.eqb_spec r rLB), (Z.eqb_spec r rRB), (Z.eqb_spec r rSEMI); try done.
      destruct (Z.eqb_spec r rDQ) as [-> |]; [|done]. apply Forall_app in Hby as [Hby _]. by inversion Hby.
    - cbn [app] in Hl. rewrite <- app_assoc in Hl. destruct (peek_encoded l rLB (p ++ s ++ rest)) as (w & Hpk & _); [done|unfold valid_rune; lia|]. rewrite Hpk. cbn -[lexWord looksLikePlaceholder].
      unfold looksLikePlaceholder. rewrite Hl. rewrite (looks_braces 0 (Zbyte rLB :: p) _ (s ++ rest) Hp); [done|]. cbn. lia. }
  destruct (takeBlank_counted l Hb) as (l1 & Ht & Hr1 & H0 & Hln & Hp1). unfold reads_item. rewrite Hnext. unfold lexWord. rewrite Ht.
  destruct (lexWord_loop_read text (S (length (l_rest l1))) l1 [] rest) as (l' & -> & H1 & H2 & H3 & H4); [done|done|done|unfold size; lia|by rewrite Hr1|].
  cbn. do 2 eexists. split_and!; [done|done|done|done|done| |done]. cbn. congruence.
Qed.

Lemma reads_word t rest l : Kind t = TokenWord -> token_ok t -> delimited rest -> counted_blanks l -> l_rest l = formatWord t ++ rest ->
  reads_item (mkShape TokenWord (Text t) (Quoted t || needsQuoting (Text t)) (l_pendingBlank l)) (formatWord t) rest l.
Proof.
  intros Hk Hok Hd Hb Hl. unfold token_ok in Hok. rewrite Hk in Hok. destruct Hok as [Hw Hba]. unfold formatWord in *.
  destruct (Quoted t) eqn:Eq; cbn [orb] in *; [by apply reads_quoted|]. destruct (needsQuoting (Text t)) eqn:En; [by apply reads_quoted|].
  apply reads_bare; try done. by apply Hba.
Qed.

(** A brace that a space or a line break follows. *)
Lemma reads_open rest l : match rest with c :: _ => isBlankRune (byteZ c) = true /\ byteZ c < 0x80 | [] => True end -> counted_blanks l -> l_rest l = go "{" ++ rest ->
  reads_item (mkShape TokenOpenBrace (go "{") false (l_pendingBlank l)) (go "{") rest l.
Proof.
  intros Hd Hb Hl. destruct (peek_encoded l rLB rest) as (w & Hp & Hr); [done|unfold valid_rune; lia|].
  destruct (takeBlank_counted l Hb) as (l1 & Ht & Hr1 & H0 & Hln & Hp1). unfold reads_item, next. cbn [next_loop]. rewrite Hp. cbn -[lexPunct looksLikePlaceholder lexWord].
  assert (looksLikePlaceholder l = false) as ->.
  { unfold looksLikePlaceholder. rewrite Hl. destruct rest as [|c rest]; [done|]. destruct Hd as [Hbl Hlt].
    change (looksLikePlaceholder_loop _ _ 0) with (looksLikePlaceholder_loop (S (length rest)) (c :: rest) 1). cbn [looksLikePlaceholder_loop].
    rewrite decodeRune_ascii by done. rewrite Hbl. by destruct (isDisallowedControl (byteZ c)). }
  unfold lexPunct. rewrite Ht. rewrite (advance_eq l1 rLB w) by congruence. do 2 eexists. split_and!; [done|done|done| |done|done|done].
  cbn. rewrite Hr1. exact Hr.
Qed.

Lemma reads_close rest l : counted_blanks l -> l_rest l = go "}" ++ rest ->
  reads_item (mkShape TokenCloseBrace (go "}") false (l_pendingBlank l)) (go "}") rest l.
Proof.
  intros Hb Hl. destruct (peek_encoded l rRB rest) as (w & Hp & Hr); [done|unfold valid_rune; lia|].
  destruct (takeBlank_counted l Hb) as (l1 & Ht & Hr1 & H0 & Hln & Hp1). unfold reads_item, next. cbn [next_loop]. rewrite Hp. cbn -[lexPunct].
  unfold lexPunct. rewrite Ht. rewrite (advance_eq l1 rRB w) by congruence. do 2 eexists. split_and!; [done|done|done| |done|done|done].
  cbn. rewrite Hr1. exact Hr.
Qed.

(** The rune at the start of a piece of a line. *)
Lemma peek_line c s rest l : Forall clean (c :: s) -> Forall (fun b => b <> Zbyte rNL) (c :: s) -> l_rest l = (c :: s) ++ Zbyte rNL :: rest ->
  exists r w, peekRune l = (r, S w) /\ r <> rNL /\ isDisallowedControl r = false /\ (S w <= length (c :: s))%nat.
Proof.
  intros Hc Hn Hl. inversion Hc as [|? ? Hcc _]; subst. inversion Hn as [|? ? Hcn _]; subst. unfold peekRune. rewrite Hl. cbn [app].
  pose proof (decodeRune_width (c :: s ++ Zbyte rNL :: rest)) as Hw. destruct (decodeRune (c :: s ++ Zbyte rNL :: rest)) as [r w] eqn:E. cbn [fst snd] in Hw.
  destruct w as [|w]; [destruct Hw; [done|lia]|]. exists r, w. split; [done|]. destruct (decide (byteZ c < 0x80)) as [Hl'|Hh].
  - rewrite decodeRune_ascii in E by done. injection E as <- <-. split_and!; [|done|cbn; lia]. intros Hr. apply Hcn. rewrite <- (Zbyte_byteZ c). by rewrite Hr.
  - assert (0x80 <= r) as Hr.
    { destruct (decide (0x80 <= r)); [done|]. destruct (decodeRune_small (c :: s ++ Zbyte rNL :: rest)) as (b0 & t & [= <- <-] & Hb & _); [rewrite E; cbn; lia|done|].
      rewrite E in Hb. cbn in Hb. lia. }
    split_and!; [lia|unfold isDisallowedControl; zcases; (done || lia)|].
    pose proof (decodeRune_high (c :: s ++ Zbyte rNL :: rest)) as H. rewrite E in H. cbn [fst snd] in H. specialize (H Hr).
    destruct (decide (S w <= length (c :: s))%nat) as [|Hgt]; [done|]. exfalso.
    assert (take (S w) (c :: s ++ Zbyte rNL :: rest) !! length (c :: s) = Some (Zbyte rNL)) as Hlk.
    { rewrite lookup_take_lt by lia. by apply (list_lookup_middle (c :: s)). }
    rewrite Forall_lookup in H. specialize (H _ _ Hlk). change (byteZ (Zbyte rNL)) with 10 in H. lia.
Qed.

Lemma lexComment_loop_read n s l b rest : Forall clean s -> Forall (fun b => b <> Zbyte rNL) s -> (size l < n)%nat -> l_rest l = s ++ Zbyte rNL :: rest ->
  exists l', lexComment_loop n l b = Ok (b ++ s, l') /\ l_rest l' = Zbyte rNL :: rest /\ l_pendingBlank l' = l_pendingBlank l /\ l_line l' = l_line l.
Proof.
  revert s l b. induction n as [|n IH]; intros s l b Hc Hn Hsz Hl; [lia|]. cbn [lexComment_loop]. destruct s as [|c s].
  - destruct (peek_encoded l rNL rest) as (w & Hp & _); [done|unfold valid_rune; lia|]. rewrite Hp. exists l. by rewrite app_nil_r.
  - destruct (peek_line c s rest l) as (r & w & Hp & Hr & Hctl & Hw); [done|done|done|]. pose proof (past_size _ _ _ Hp). rewrite Hp. adv.
    destruct (Z.eqb_spec r rNL); [done|]. rewrite Hctl, Hl, take_app_le by done.
    rewrite <- (take_drop (S w) (c :: s)) in Hc, Hn. apply Forall_app in Hc as [_ Hc], Hn as [_ Hn].
    destruct (IH (drop (S w) (c :: s)) (past l r (S w)) (b ++ take (S w) (c :: s))) as (l' & H1 & H2 & H3 & H4); [done|done|lia| |].
    { unfold past. cbn [l_rest]. by rewrite Hl, drop_app_le. }
    exists l'. rewrite H1, <- app_assoc, take_drop. split_and!; [done|done|done|]. rewrite H4. unfold past. cbn. by destruct (Z.eqb_spec r rNL).
Qed.

Lemma reads_comment text rest l : comment_text text -> counted_blanks l -> l_rest l = text ++ Zbyte rNL :: rest ->
  reads_item (mkShape TokenComment text false (l_pendingBlank l)) text (Zbyte rNL :: rest) l.
Proof.
  intros (Hc & Hn & Htrim & s' & Hs) Hb Hl. destruct (peek_encoded l rHASH (s' ++ Zbyte rNL :: rest)) as (w & Hp & _); [by rewrite Hl, Hs|unfold valid_rune; lia|].
  destruct (takeBlank_counted l Hb) as (l1 & Ht & Hr1 & H0 & Hln & Hp1). unfold reads_item, next. cbn [next_loop]. rewrite Hp. cbn -[lexComment].
  unfold lexComment. rewrite Ht.
  destruct (lexComment_loop_read (S (length (l_rest l1))) text l1 [] rest) as (l' & -> & H1 & H2 & H3); [done|done|unfold size; lia|by rewrite Hr1|].
  cbn [obind app]. rewrite Htrim. do 2 eexists. split_and!; [done|done|done|done|done|cbn; congruence|cbn; congruence].
Qed.

(** ** White space *)

Lemma peek_byte l c r : l_rest l = c :: r -> byteZ c < 0x80 -> peekRune l = (byteZ c, 1%nat) /\ l_rest (past l (byteZ c) 1) = r.
Proof. intros Hl Hc. unfold peekRune, past. rewrite Hl. split; [by apply decodeRune_ascii|done]. Qed.

Lemma next_space l r : l_rest l = Zbyte rSP :: r -> next l = next (past l rSP 1).
Proof.
  intros Hl. destruct (peek_byte l _ _ Hl) as [Hp Hr]; [done|]. change (byteZ (Zbyte rSP)) with rSP in *.
  unfold next. rewrite Hr, Hl. cbn [length]. cbn [next_loop]. rewrite Hp. adv. done.
Qed.

Lemma next_blank l r : l_rest l = Zbyte rNL :: r -> l_atLineStart l = true -> next l = next (incr_pendingBlank (past l rNL 1)).
Proof.
  intros Hl Ha. destruct (peek_byte l _ _ Hl) as [Hp Hr]; [done|]. change (byteZ (Zbyte rNL)) with rNL in *.
  unfold next. change (l_rest (incr_pendingBlank (past l rNL 1))) with (l_rest (past l rNL 1)). rewrite Hr, Hl. cbn [length]. cbn [next_loop]. rewrite Hp. adv.
  change (l_atLineStart (past l rNL 1)) with (l_atLineStart l). by rewrite Ha.
Qed.

Lemma next_newline l r : l_rest l = Zbyte rNL :: r -> l_atLineStart l = false ->
  next l = Ok (mkToken TokenNewline [] (l_file l) (l_line l) (l_col l) false 0, set_atLineStart true (past l rNL 1)).
Proof.
  intros Hl Ha. destruct (peek_byte l _ _ Hl) as [Hp Hr]; [done|]. change (byteZ (Zbyte rNL)) with rNL in *.
  unfold next. cbn [next_loop]. rewrite Hp. adv. cbn. by rewrite Ha.
Qed.

(** What [startItem] writes, and that the lexer skips it. *)
Definition startText (s : fmtState) : bytes :=
  if b_atLineStart s then (if b_pendingBlank s && b_wroteAny s then [Zbyte rNL] else []) ++ indentation (b_depth s) else go " ".

Lemma startItem_out s : b_out (startItem s) = b_out s ++ startText s.
Proof. unfold startItem, startText. by destruct (b_atLineStart s). Qed.

Lemma next_spaces k l rest : l_rest l = concat (repeat indentUnit k) ++ rest ->
  exists l2, next l = next l2 /\ l_rest l2 = rest /\ l_atLineStart l2 = l_atLineStart l /\ l_pendingBlank l2 = l_pendingBlank l.
Proof.
  revert l. induction k as [|k IH]; intros l Hl; [by exists l|]. cbn [repeat concat] in Hl. rewrite <- app_assoc in Hl.
  set (l1 := past l rSP 1). set (l2 := past l1 rSP 1). set (l3 := past l2 rSP 1). set (l4 := past l3 rSP 1).
  assert (l_rest l1 = go "   " ++ concat (repeat indentUnit k) ++ rest) as H1 by (unfold l1, past; cbn [l_rest]; by rewrite Hl).
  assert (l_rest l2 = go "  " ++ concat (repeat indentUnit k) ++ rest) as H2 by (unfold l2, past; cbn [l_rest]; by rewrite H1).
  assert (l_rest l3 = go " " ++ concat (repeat indentUnit k) ++ rest) as H3 by (unfold l3, past; cbn [l_rest]; by rewrite H2).
  assert (l_rest l4 = concat (repeat indentUnit k) ++ rest) as H4 by (unfold l4, past; cbn [l_rest]; by rewrite H3).
  destruct (IH l4 H4) as (l5 & H5 & ?). exists l5. split; [|done].
  rewrite (next_space l _ Hl). fold l1. rewrite (next_space l1 _ H1). fold l2. rewrite (next_space l2 _ H2). fold l3. by rewrite (next_space l3 _ H3).
Qed.

Lemma next_start s l rest : l_rest l = startText s ++ rest -> l_atLineStart l = b_atLineStart s -> l_pendingBlank l = 0 ->
  exists l2, next l = next l2 /\ l_rest l2 = rest /\ l_atLineStart l2 = b_atLineStart s /\ l_pendingBlank l2 = blankOf s /\ counted_blanks l2.
Proof.
  intros Hl Ha Hp. unfold startText, blankOf, counted_blanks in *. destruct (b_atLineStart s) eqn:Es; cbn [andb].
  - rewrite <- app_assoc in Hl. destruct (b_pendingBlank s && b_wroteAny s); cbn [app] in Hl.
    + rewrite (next_blank l _ Hl Ha). destruct (next_spaces (b_depth s) (incr_pendingBlank (past l rNL 1)) rest) as (l2 & -> & ? & Ha2 & Hp2).
      { unfold past. cbn. by rewrite Hl. }
      exists l2. cbn in Ha2, Hp2. rewrite Ha2, Hp2, Ha, Hp. by split_and!.
    + destruct (next_spaces (b_depth s) l rest Hl) as (l2 & -> & ? & Ha2 & Hp2). exists l2. rewrite Ha2, Hp2, Ha, Hp. by split_and!.
  - exists (past l rSP 1). rewrite (next_space l _ Hl). split_and!; [done| |done|done|done]. unfold past. cbn. by rewrite Hl.
Qed.

(** ** The tokens the lexer reads from a piece of the output *)

Inductive reads : lexer -> list Token -> lexer -> Prop :=
| reads_nil l : reads l [] l
| reads_cons l t l1 ts l2 : next l = Ok (t, l1) -> Kind t <> TokenEOF -> reads l1 ts l2 -> reads l (t :: ts) l2.

Lemma reads_app l ts l1 us l2 : reads l ts l1 -> reads l1 us l2 -> reads l (ts ++ us) l2.
Proof. induction 1; [done|]. intros. cbn. econstructor; eauto. Qed.

(** A comment right after a brace is on its line. *)
Fixpoint same_line (ts : list Token) : Prop :=
  match ts with
  | t :: r => match r with c :: _ => isBrace t = true -> Kind c = TokenComment -> Line c = Line t | [] => True end /\ same_line r
  | [] => True
  end.

Definition gap_start (text : bytes) : Prop :=
  match text with [] => True | c :: _ => c = Zbyte rSP \/ c = Zbyte rNL end.

Definition ends_brace (shs : list shape) : bool :=
  match last shs with Some sh => bool_decide (sh_kind sh = TokenOpenBrace \/ sh_kind sh = TokenCloseBrace) | None => false end.

Definition reads_as (shs : list shape) (text : bytes) (a a' : bool) : Prop :=
  forall rest l, (a' = false -> gap_start rest) -> l_rest l = text ++ rest -> l_atLineStart l = a -> l_pendingBlank l = 0 ->
  exists ts l', reads l ts l' /\ map shape_of ts = shs /\ same_line ts /\ l_rest l' = rest /\ l_atLineStart l' = a' /\ l_pendingBlank l' = 0.

Lemma same_line_app ts us : same_line ts -> same_line us -> ends_brace (map shape_of ts) = false -> same_line (ts ++ us).
Proof.
  induction ts as [|t [|c r] IH]; intros Ht Hu He; [done| |].
  - cbn [app]. destruct us as [|c us]; [done|]. split; [|done]. intros Hb. unfold ends_brace in He. cbn in He. unfold isBrace in Hb. cbn in *. congruence.
  - destruct Ht as [H1 H2]. split; [done|]. apply IH; done.
Qed.

Lemma reads_as_app s1 s2 t1 t2 a b c : reads_as s1 t1 a b -> reads_as s2 t2 b c -> ends_brace s1 = false -> (b = false -> t2 <> [] /\ gap_start t2 \/ t2 = [] /\ c = false) ->
  reads_as (s1 ++ s2) (t1 ++ t2) a c.
Proof.
  intros H1 H2 He Hg rest l Hrest Hl Ha Hp. rewrite <- app_assoc in Hl.
  destruct (H1 (t2 ++ rest) l) as (ts & l1 & Hr1 & Hm1 & Hs1 & Hl1 & Ha1 & Hp1); [|done|done|done|].
  { intros Hb. destruct (Hg Hb) as [[Hne Hgs]|[-> Hc]]; [by destruct t2|by apply Hrest]. }
  destruct (H2 rest l1) as (us & l2 & Hr2 & Hm2 & Hs2 & Hl2 & Ha2 & Hp2); [done|done|done|done|].
  exists (ts ++ us), l2. split_and!; [by eapply reads_app|by rewrite map_app, Hm1, Hm2| |done|done|done].
  apply same_line_app; [done|done|by rewrite Hm1].
Qed.

Lemma reads_as_nil a : reads_as [] [] a a.
Proof. intros rest l _ Hl Ha Hp. exists [], l. split_and!; try done. constructor. Qed.

Lemma reads_newline rest l : l_rest l = Zbyte rNL :: rest -> l_atLineStart l = false -> l_pendingBlank l = 0 ->
  exists t l', next l = Ok (t, l') /\ shape_of t = nlShape /\ l_rest l' = rest /\ l_atLineStart l' = true /\ l_pendingBlank l' = 0.
Proof.
  intros Hl Ha Hp. rewrite (next_newline l rest Hl Ha). do 2 eexists. split_and!; [done|done| |done|done]. unfold past. cbn. by rewrite Hl.
Qed.

Lemma reads_as_newline : reads_as [nlShape] [Zbyte rNL] false true.
Proof.
  intros rest l _ Hl Ha Hp. destruct (reads_newline rest l Hl Ha Hp) as (t & l' & Hn & Hs & ?). exists [t], l'.
  split_and!; [|by cbn; rewrite Hs|by split|tauto..]. econstructor; [done| |constructor]. intros Hk. unfold shape_of, nlShape in Hs. congruence.
Qed.

Definition endText (s : fmtState) : bytes := if b_atLineStart s then [] else [Zbyte rNL].

Lemma newlineIfNeeded_out s : b_out (newlineIfNeeded s) = b_out s ++ endText s.
Proof. unfold newlineIfNeeded, endText. destruct (b_atLineStart s); [by rewrite app_nil_r|done]. Qed.

Lemma newlineIfNeeded_start s : b_atLineStart (newlineIfNeeded s) = true.
Proof. unfold newlineIfNeeded. by destruct (b_atLineStart s) eqn:E. Qed.

Lemma reads_as_end s : reads_as (endShapes s) (endText s) (b_atLineStart s) true.
Proof. unfold endShapes, endText. destruct (b_atLineStart s); [apply reads_as_nil|apply reads_as_newline]. Qed.

(** A word. *)
Lemma reads_as_word t s : Kind t = TokenWord -> token_ok t ->
  reads_as [mkShape TokenWord (Text t) (Quoted t || needsQuoting (Text t)) (blankOf s)] (startText s ++ formatWord t) (b_atLineStart s) false.
Proof.
  intros Hk Hok rest l Hrest Hl Ha Hp. rewrite <- app_assoc in Hl. destruct (next_start s l _ Hl Ha Hp) as (l2 & Hn & Hl2 & Ha2 & Hp2 & Hc2).
  destruct (reads_word t rest l2) as (t' & l' & Hn' & Hs & _ & H1 & H2 & H3 & _); [done|done| |done|done|].
  { specialize (Hrest eq_refl). destruct rest as [|c rest]; [done|]. cbn. destruct Hrest as [-> | ->]; set_solver. }
  exists [t'], l'. rewrite Hp2 in Hs. split_and!; [|by cbn; rewrite Hs|by split|done..]. econstructor; [by rewrite Hn| |constructor]. intros Hke. unfold shape_of in Hs. congruence.
Qed.

(** A comment, to the end of its line. *)
Lemma reads_as_comment text s : comment_text text ->
  reads_as [mkShape TokenComment text false (blankOf s); nlShape] (startText s ++ text ++ [Zbyte rNL]) (b_atLineStart s) true.
Proof.
  intros Hok rest l _ Hl Ha Hp. rewrite <- !app_assoc in Hl. destruct (next_start s l _ Hl Ha Hp) as (l2 & Hn & Hl2 & Ha2 & Hp2 & Hc2).
  destruct (reads_comment text rest l2) as (t' & l' & Hn' & Hs & _ & H1 & H2 & H3 & _); [done|done|done|].
  destruct (reads_newline rest l') as (t2 & l3 & Hn2 & Hs2 & ? & ? & ?); [done|done|done|]. rewrite Hp2 in Hs.
  exists [t'; t2], l3. split_and!; [|by cbn; rewrite Hs, Hs2| |done..].
  - econstructor; [by rewrite Hn|unfold shape_of in Hs; congruence|]. econstructor; [done|unfold shape_of, nlShape in Hs2; congruence|constructor].
  - split; [|by split]. unfold shape_of, isBrace in *. intros Hb. exfalso. apply bool_decide_eq_true_1 in Hb. injection Hs as Hk _ _ _. rewrite Hk in Hb. by destruct Hb.
Qed.

Definition commentText (c : option Token) : bytes := match c with Some c => go " " ++ Text c | None => [] end.

Definition comment_ok (c : option Token) : Prop := match c with Some c => comment_text (Text c) | None => True end.

(** A brace with the comment on its line. *)
Lemma reads_as_brace k text c s : (k, text) ∈ [(TokenOpenBrace, go "{"); (TokenCloseBrace, go "}")] -> comment_ok c ->
  reads_as (mkShape k text false (blankOf s) :: commentShapes c ++ [nlShape]) (startText s ++ text ++ commentText c ++ [Zbyte rNL]) (b_atLineStart s) true.
Proof.
  intros Hin Hok rest l _ Hl Ha Hp. rewrite <- !app_assoc in Hl. destruct (next_start s l _ Hl Ha Hp) as (l2 & Hn & Hl2 & Ha2 & Hp2 & Hc2).
  assert (reads_item (mkShape k text false (l_pendingBlank l2)) text (commentText c ++ [Zbyte rNL] ++ rest) l2) as (t & l' & Hn' & Hs & Hln & H1 & H2 & H3 & H4).
  { rewrite !elem_of_cons in Hin. destruct Hin as [[= -> ->]|[[= -> ->]|[]%not_elem_of_nil]]; [apply reads_open|by apply reads_close]; try done. by destruct c. }
  rewrite Hp2 in Hs. cbn [sh_kind] in H4.
  assert (k <> TokenWord /\ k <> TokenEOF) as [Hkw Hke] by (rewrite !elem_of_cons in Hin; destruct Hin as [[= -> ->]|[[= -> ->]|[]%not_elem_of_nil]]; done).
  assert (Kind t = k) as Hkt by (unfold shape_of in Hs; congruence). destruct c as [c|]; cbn [commentText commentShapes] in *.
  - rewrite <- app_assoc in H1. assert (l_rest (past l' rSP 1) = Text c ++ Zbyte rNL :: rest) as Hc by (unfold past; cbn [l_rest]; by rewrite H1).
    destruct (reads_comment (Text c) rest (past l' rSP 1)) as (tc & l3 & Hn3 & Hs3 & Hl3 & H5 & H6 & H7 & _); [done|by intros _|done|].
    destruct (reads_newline rest l3) as (t2 & l4 & Hn4 & Hs4 & ? & ? & ?); [done|done|done|]. cbn in Hs3. rewrite H3 in Hs3.
    assert (Kind tc = TokenComment) as Hktc by (unfold shape_of in Hs3; congruence).
    exists [t; tc; t2], l4. split_and!; [|by cbn; rewrite Hs, Hs3, Hs4| |done..].
    + econstructor; [by rewrite Hn|congruence|]. econstructor; [by rewrite (next_space l' _ H1)|congruence|]. econstructor; [done|unfold shape_of, nlShape in Hs4; congruence|constructor].
    + assert (Kind t2 = TokenNewline) by (unfold shape_of, nlShape in Hs4; congruence). cbn [same_line]. split_and!; [|congruence|done|done].
      intros _ _. rewrite Hln, Hl3. cbn. by rewrite H4.
  - destruct (reads_newline rest l') as (t2 & l4 & Hn4 & Hs4 & ? & ? & ?); [done|done|done|]. exists [t; t2], l4.
    assert (Kind t2 = TokenNewline) by (unfold shape_of, nlShape in Hs4; congruence).
    split_and!; [|by cbn; rewrite Hs, Hs4|cbn [same_line]; split_and!; [congruence|done|done]|done..].
    econstructor; [by rewrite Hn|congruence|]. econstructor; [done|congruence|constructor].
Qed.

Lemma beginToken_out t s : b_out (beginToken t s) = b_out s. Proof. done. Qed.
Lemma beginToken_start t s : b_atLineStart (beginToken t s) = b_atLineStart s. Proof. done. Qed.

Lemma startItem_start s : b_atLineStart (startItem s) = false.
Proof. unfold startItem. by destruct (b_atLineStart s) eqn:E. Qed.

Lemma writeComment_out c s : b_out (writeComment c s) = b_out s ++ commentText c.
Proof. destruct c; cbn; [by rewrite <- app_assoc|by rewrite app_nil_r]. Qed.

Lemma writeComment_start c s : b_atLineStart (writeComment c s) = b_atLineStart s.
Proof. by destruct c. Qed.

Lemma gap_startText s text : b_atLineStart s = false -> startText s ++ text <> [] /\ gap_start (startText s ++ text).
Proof. intros H. unfold startText. rewrite H. split; [done|by left]. Qed.

Lemma ends_brace_snoc shs : ends_brace (shs ++ [nlShape]) = false.
Proof. unfold ends_brace. by rewrite last_snoc. Qed.

Lemma formatToken_reads t c s : token_ok t -> comment_ok c ->
  exists text, b_out (formatToken t c s) = b_out s ++ text /\
    reads_as (stepShapes t c s) text (b_atLineStart s) (b_atLineStart (formatToken t c s)) /\ ends_brace (stepShapes t c s) = false /\
    (b_atLineStart s = false -> text <> [] /\ gap_start text \/ text = [] /\ b_atLineStart (formatToken t c s) = false).
Proof.
  intros Hok Hc. rewrite <- (beginToken_out t s), <- (beginToken_start t s). unfold formatToken, stepShapes. set (s1 := beginToken t s). clearbody s1.
  unfold token_ok in Hok. destruct (Kind t) eqn:Hk.
  - exists (startText s1 ++ formatWord t). unfold writeWord, writeStr. cbn [b_out b_atLineStart]. rewrite startItem_out, startItem_start, <- app_assoc. split_and!; [done| |done|].
    + apply reads_as_word; [done|]. unfold token_ok. by rewrite Hk.
    + intros H. left. by apply gap_startText.
  - exists (startText s1 ++ go "{" ++ commentText c ++ [Zbyte rNL]). cbn [set_blank set_depth b_out b_atLineStart]. rewrite newlineIfNeeded_out, newlineIfNeeded_start, writeComment_out.
    unfold endText. rewrite writeComment_start. cbn [writeStr b_atLineStart b_out]. rewrite startItem_start, startItem_out, <- !app_assoc. split_and!; [done| | |].
    + apply reads_as_brace; [set_solver|done].
    + rewrite app_comm_cons. apply ends_brace_snoc.
    + intros H. left. by apply gap_startText.
  - set (s2 := set_blank false _ _). assert (b_atLineStart s2 = true) as Hs2 by apply newlineIfNeeded_start.
    assert (startLine s2 = startItem s2) as -> by (unfold startItem; by rewrite Hs2).
    exists (endText s1 ++ startText s2 ++ go "}" ++ commentText c ++ [Zbyte rNL]).
    rewrite newlineIfNeeded_out, newlineIfNeeded_start, writeComment_out. unfold endText at 1. rewrite writeComment_start. cbn [writeStr b_atLineStart b_out].
    rewrite startItem_start, startItem_out. assert (b_out s2 = b_out s1 ++ endText s1) as -> by apply newlineIfNeeded_out. rewrite <- !app_assoc. split_and!; [done| | |].
    + eapply reads_as_app; [apply reads_as_end| | |].
      * pose proof (reads_as_brace TokenCloseBrace (go "}") c s2 ltac:(set_solver) Hc) as H. rewrite Hs2 in H.
        assert (blankOf s2 = 0) as E by (unfold blankOf; by rewrite Hs2). by rewrite E in H.
      * unfold endShapes. by destruct (b_atLineStart s1).
      * done.
    + rewrite app_comm_cons, app_assoc. apply ends_brace_snoc.
    + intros H. left. unfold endText. rewrite H. split; [done|by right].
  - exists (endText s1). rewrite newlineIfNeeded_out, newlineIfNeeded_start. split_and!; [done|apply reads_as_end|unfold endShapes; by destruct (b_atLineStart s1)|].
    intros H. left. unfold endText. rewrite H. split; [done|by right].
  - exists (endText s1). rewrite newlineIfNeeded_out, newlineIfNeeded_start. split_and!; [done|apply reads_as_end|unfold endShapes; by destruct (b_atLineStart s1)|].
    intros H. left. unfold endText. rewrite H. split; [done|by right].
  - exists (startText s1 ++ Text t ++ [Zbyte rNL]). rewrite newlineIfNeeded_out, newlineIfNeeded_start. unfold endText. cbn [writeStr b_atLineStart b_out].
    rewrite startItem_start, startItem_out, <- !app_assoc. split_and!; [done|by apply reads_as_comment|done|]. intros H. left. by apply gap_startText.
  - exists []. rewrite app_nil_r. split_and!; [done|apply reads_as_nil|done|]. intros H. by right.
Qed.

Lemma trailingCommentAfter_Some ts line c : trailingCommentAfter ts line = Some c -> exists r, ts = c :: r /\ Kind c = TokenComment /\ Line c = line.
Proof.
  unfold trailingCommentAfter. destruct ts as [|t r]; [done|]. destruct (bool_decide _ && _) eqn:E; [|done]. intros [= ->].
  apply andb_true_iff in E as [E1%bool_decide_eq_true_1 E2%Z.eqb_eq]. by exists r.
Qed.

(** Induction over the rounds of the loop. *)
Lemma format_ind (P : list Token -> Prop) :
  P [] -> (forall t r, (if isBrace t then trailingCommentAfter r (Line t) else None) = None -> P r -> P (t :: r)) ->
  (forall t c r, isBrace t = true -> trailingCommentAfter (c :: r) (Line t) = Some c -> P r -> P (t :: c :: r)) -> forall ts, P ts.
Proof.
  intros H0 H1 H2. enough (forall n ts, (length ts <= n)%nat -> P ts) as H by (intros ts; by apply (H (length ts))).
  induction n as [|n IH]; intros [|t r] Hn; try done; cbn in Hn; [lia|].
  destruct (if isBrace t then trailingCommentAfter r (Line t) else None) as [c|] eqn:E; [|apply H1; [exact E|apply IH; lia]].
  destruct (isBrace t) eqn:Eb; [|done]. destruct r as [|c' r]; [done|]. destruct (trailingCommentAfter_Some _ _ _ E) as (r' & [= -> ->] & _).
  apply H2; [done|done|]. apply IH. cbn in Hn. lia.
Qed.

Lemma formatLoop_reads ts s : Forall token_ok ts ->
  exists text, b_out (newlineIfNeeded (formatLoop ts s)) = b_out s ++ text /\ reads_as (emitted ts s) text (b_atLineStart s) true /\
    (b_atLineStart s = false -> text <> [] /\ gap_start text).
Proof.
  revert s. induction ts as [|t r Ec IH|t c r Hb Ec IH] using format_ind; intros s Hok.
  - exists (endText s). cbn [formatLoop emitted]. split_and!; [apply newlineIfNeeded_out|apply reads_as_end|]. intros H. unfold endText. rewrite H. split; [done|by right].
  - inversion Hok as [|? ? Ht Hr]; subst. cbn [formatLoop emitted]. rewrite Ec. destruct (formatToken_reads t None s) as (t1 & Ho & H1 & He & Hg1); [done|done|].
    destruct (IH (formatToken t None s)) as (t2 & Ho2 & H2 & Hg2); [done|]. exists (t1 ++ t2). rewrite Ho2, Ho, <- app_assoc. split_and!; [done| |].
    + eapply reads_as_app; [done|done|done|]. intros H. left. by apply Hg2.
    + intros H. destruct (Hg1 H) as [[Hne Hgs]|[-> Hf]]; [by destruct t1|by apply Hg2].
  - inversion Hok as [|? ? Ht Hr']; subst. inversion Hr' as [|? ? Hcok Hr]; subst. cbn [formatLoop emitted]. rewrite Hb, Ec.
    destruct (trailingCommentAfter_Some _ _ _ Ec) as (r' & [= <-] & Hkc & _).
    destruct (formatToken_reads t (Some c) s) as (t1 & Ho & H1 & He & Hg1); [done|unfold token_ok in Hcok; by rewrite Hkc in Hcok|].
    destruct (IH (formatToken t (Some c) s)) as (t2 & Ho2 & H2 & Hg2); [done|]. exists (t1 ++ t2). rewrite Ho2, Ho, <- app_assoc. split_and!; [done| |].
    + eapply reads_as_app; [done|done|done|]. intros H. left. by apply Hg2.
    + intros H. destruct (Hg1 H) as [[Hne Hgs]|[-> Hf]]; [by destruct t1|by apply Hg2].
Qed.

(** ** Formatting what was formatted *)

Record between (s : fmtState) : Prop := {
  bt_pending : b_pendingBlank s = false;
  bt_suppress : b_atLineStart s = false -> b_suppressBlank s = false
}.

Lemma between_step t c s : between s -> token_ok t -> Kind t <> TokenEOF -> between (formatToken t c s).
Proof.
  intros [Hp Hs] Hok He. unfold token_ok in Hok. unfold formatToken, beginToken, writeWord, startItem, startLine, newlineIfNeeded.
  destruct s as [o d a w p q]. cbn in *. subst p.
  destruct (Kind t) eqn:Hk; try done; destruct a; cbn; rewrite ?Hok; split; cbn; try done; try (destruct c; done); try (by destruct (0 <? BlankBefore t)); auto.
Qed.

Lemma isBrace_kind t k : Kind t = k -> isBrace t = bool_decide (k = TokenOpenBrace \/ k = TokenCloseBrace).
Proof. by intros <-. Qed.

Lemma shape_inv t k x q b : shape_of t = mkShape k x q b -> Kind t = k /\ Text t = x /\ Quoted t = q /\ BlankBefore t = b.
Proof. by intros [= -> -> -> ->]. Qed.

(** A line break in the output, in its place. *)
Lemma formatLoop_newline t rest s : shape_of t = nlShape -> between s -> formatLoop (t :: rest) s = formatLoop rest (newlineIfNeeded s).
Proof.
  intros (Hk & _ & _ & Hb)%shape_inv [Hp Hs]. cbn [formatLoop]. rewrite (isBrace_kind _ _ Hk). cbn. unfold formatToken, beginToken. rewrite Hk, Hb. by destruct s.
Qed.

Lemma startItem_again t t' s : between s -> BlankBefore t' = blankOf (beginToken t s) ->
  Kind t <> TokenNewline -> Kind t <> TokenSemicolon -> Kind t' = Kind t -> startItem (beginToken t' s) = startItem (beginToken t s).
Proof.
  intros [Hp Hs] Hb Hk1 Hk2 Hk. unfold startItem, startLine, writeStr, beginToken, blankOf in *. cbn in *. rewrite Hk, Hb, Hp.
  rewrite !(bool_decide_eq_false_2 (Kind t = _)) by done. cbn. destruct (b_atLineStart s); cbn; [|by destruct (0 <? BlankBefore t)].
  destruct (0 <? BlankBefore t), (b_suppressBlank s), (b_wroteAny s); done.
Qed.

Lemma cons_split {A} (x y : A) l m : x :: l = y :: m -> x = y /\ l = m.
Proof. by intros [= -> ->]. Qed.

Lemma formatLoop_plain t rest s : isBrace t = false -> formatLoop (t :: rest) s = formatLoop rest (formatToken t None s).
Proof. intros H. cbn [formatLoop]. by rewrite H. Qed.

(** A brace and the rest of its line, in the output. *)
Lemma formatLoop_brace c D t' rest s : Kind t' = TokenOpenBrace \/ Kind t' = TokenCloseBrace ->
  map shape_of D = commentShapes c ++ [nlShape] -> same_line (t' :: D) -> between (formatToken t' None s) -> between (formatToken t' c s) ->
  b_atLineStart (formatToken t' c s) = true ->
  formatLoop (t' :: D ++ rest) s = formatLoop rest (formatToken t' c s).
Proof.
  intros Hk Hm Hl Hb0 Hb Ha. assert (isBrace t' = true) as Hbr by by apply bool_decide_eq_true_2. cbn [formatLoop]. rewrite Hbr.
  assert (forall s', b_atLineStart s' = true -> newlineIfNeeded s' = s') as Hnl by (intros s' H; unfold newlineIfNeeded; by rewrite H).
  destruct c as [c|]; cbn [commentShapes app] in Hm.
  - destruct D as [|c' [|n [|]]]; cbn in Hm; try done. apply cons_split in Hm as [Hc [Hn _]%cons_split]. apply shape_inv in Hc as (Hkc & Htc & _ & _). cbn in Hl. destruct Hl as [Hl _].
    cbn [app trailingCommentAfter]. rewrite Hkc, (Hl Hbr Hkc). rewrite bool_decide_eq_true_2, Z.eqb_refl by done. cbn [andb].
    assert (formatToken t' (Some c') s = formatToken t' (Some c) s) as -> by (unfold formatToken, writeComment; by rewrite Htc).
    rewrite formatLoop_newline by done. by rewrite Hnl.
  - destruct D as [|n [|]]; cbn in Hm; try done. apply cons_split in Hm as [Hn _]. pose proof (shape_inv _ _ _ _ _ Hn) as (Hkn & _). cbn [app trailingCommentAfter].
    rewrite Hkn, bool_decide_eq_false_2 by done. cbn [andb]. rewrite formatLoop_newline by done. by rewrite Hnl.
Qed.

Lemma formatToken_again t c s D rest : between s -> token_ok t -> Kind t <> TokenEOF -> map shape_of D = stepShapes t c s -> same_line D ->
  formatLoop (D ++ rest) s = formatLoop rest (formatToken t c s).
Proof.
  intros Hb Hok He Hm Hl. pose proof (between_step t c s Hb Hok He) as Hb'. unfold stepShapes in Hm. unfold token_ok in Hok. destruct (Kind t) eqn:Hk; [..|done].
  - destruct D as [|w [|]]; try done. apply cons_split in Hm as [Hw _]. apply shape_inv in Hw as (Hkw & Htw & Hqw & Hbw). cbn [app].
    rewrite formatLoop_plain by (by rewrite (isBrace_kind _ _ Hkw)). f_equal. unfold formatToken. rewrite Hkw, Hk. unfold writeWord.
    rewrite (startItem_again t w) by congruence. f_equal. unfold formatWord. rewrite Htw, Hqw. by destruct (Quoted t), (needsQuoting (Text t)).
  - destruct D as [|o D]; [done|]. apply cons_split in Hm as [Ho Hm]. apply shape_inv in Ho as (Hko & Hto & Hqo & Hbo). cbn [app].
    assert (formatToken o c s = formatToken t c s) as E by (unfold formatToken; rewrite Hko, Hk; by rewrite (startItem_again t o) by congruence).
    rewrite (formatLoop_brace c); [by rewrite E|by left|done|done| |by rewrite E|].
    + apply between_step; [done|unfold token_ok; by rewrite Hko|congruence].
    + rewrite E. unfold formatToken. rewrite Hk. apply newlineIfNeeded_start.
  - apply map_eq_app in Hm as (D1 & D2 & -> & Hm1 & Hm2). destruct D2 as [|o D]; [done|]. apply cons_split in Hm2 as [Ho Hm]. apply shape_inv in Ho as (Hko & Hto & Hqo & Hbo).
    assert (same_line (o :: D)) as Hlo. { clear -Hl. induction D1 as [|x [|y D1] IH]; [done|by destruct Hl|]. apply IH, Hl. }
    assert (formatLoop ((D1 ++ o :: D) ++ rest) s = formatLoop (o :: D ++ rest) (newlineIfNeeded s)) as ->.
    { unfold endShapes in Hm1. rewrite beginToken_start in Hm1. destruct (b_atLineStart s) eqn:Ea.
      - apply map_eq_nil in Hm1 as ->. unfold newlineIfNeeded. by rewrite Ea.
      - destruct D1 as [|n [|]]; try done. apply cons_split in Hm1 as [Hn _]. cbn [app]. rewrite formatLoop_newline by done. done. }
    assert (between (newlineIfNeeded s)) as Hbn. { destruct Hb as [Hp Hs]. unfold newlineIfNeeded. destruct (b_atLineStart s) eqn:Ea; (split; cbn; [done|congruence]). }
    assert (formatToken o c (newlineIfNeeded s) = formatToken t c s) as E.
    { unfold formatToken. rewrite Hko, Hk. destruct Hb as [Hp Hs]. unfold beginToken. rewrite Hko, Hk, Hbo. unfold newlineIfNeeded. destruct s as [so d a w p q]. by destruct a. }
    rewrite (formatLoop_brace c); [by rewrite E|by right|done|done| |by rewrite E|].
    + apply between_step; [done|unfold token_ok; by rewrite Hko|congruence].
    + rewrite E. unfold formatToken. rewrite Hk. apply newlineIfNeeded_start.
  - assert (formatToken t c s = newlineIfNeeded s) as ->.
    { unfold formatToken, beginToken. rewrite Hk, Hok. destruct Hb as [Hp Hs]. destruct s as [so d a w p q]. destruct a; [done|]. cbn in *. by rewrite Hs. }
    unfold endShapes in Hm. rewrite beginToken_start in Hm. destruct (b_atLineStart s) eqn:Ea.
    + apply map_eq_nil in Hm as ->. unfold newlineIfNeeded. by rewrite Ea.
    + destruct D as [|n [|]]; try done. apply cons_split in Hm as [Hn _]. cbn [app]. by rewrite formatLoop_newline.
  - assert (formatToken t c s = newlineIfNeeded s) as ->.
    { unfold formatToken, beginToken. rewrite Hk, Hok. by destruct s. }
    unfold endShapes in Hm. rewrite beginToken_start in Hm. destruct (b_atLineStart s) eqn:Ea.
    + apply map_eq_nil in Hm as ->. unfold newlineIfNeeded. by rewrite Ea.
    + destruct D as [|n [|]]; try done. apply cons_split in Hm as [Hn _]. cbn [app]. by rewrite formatLoop_newline.
  - destruct D as [|w [|n [|]]]; try done. apply cons_split in Hm as [Hw [Hn _]%cons_split]. apply shape_inv in Hw as (Hkw & Htw & Hqw & Hbw). cbn [app].
    rewrite formatLoop_plain by (by rewrite (isBrace_kind _ _ Hkw)).
    assert (formatToken w None s = formatToken t c s) as E by (unfold formatToken; rewrite Hkw, Hk, Htw; by rewrite (startItem_again t w) by congruence).
    rewrite E, formatLoop_newline by done. f_equal. unfold newlineIfNeeded at 1.
    assert (b_atLineStart (formatToken t c s) = true) as -> by (unfold formatToken; rewrite Hk; apply newlineIfNeeded_start). done.
Qed.

Lemma same_line_suffix ts us : same_line (ts ++ us) -> same_line us.
Proof. induction ts as [|t ts IH]; [done|]. intros [_ H]. auto. Qed.

Lemma same_line_prefix ts us : same_line (ts ++ us) -> same_line ts.
Proof. induction ts as [|t [|c r] IH]; [done|by split|]. intros [H1 H2]. split; [done|]. by apply IH. Qed.

(** The output of the output's tokens is the output. *)
Lemma formatLoop_again ts s D e : between s -> Forall token_ok ts -> ts = [] \/ eof_terminated ts -> map shape_of D = emitted ts s -> same_line D -> Kind e = TokenEOF ->
  b_out (newlineIfNeeded (formatLoop (D ++ [e]) s)) = b_out (newlineIfNeeded (formatLoop ts s)).
Proof.
  assert (forall s D, between s -> map shape_of D = endShapes s -> Kind e = TokenEOF ->
    b_out (newlineIfNeeded (formatLoop (D ++ [e]) s)) = b_out (newlineIfNeeded s)) as Hend.
  { intros s0 D0 Hb Hm He. assert (formatLoop (D0 ++ [e]) s0 = formatLoop [e] (newlineIfNeeded s0)) as ->.
    - unfold endShapes in Hm. destruct (b_atLineStart s0) eqn:Ea; [apply map_eq_nil in Hm as ->; unfold newlineIfNeeded; by rewrite Ea|].
      destruct D0 as [|n [|]]; try done. apply cons_split in Hm as [Hn _]. cbn [app]. by rewrite formatLoop_newline.
    - rewrite formatLoop_plain by (by rewrite (isBrace_kind _ _ He)). cbn [formatLoop]. unfold formatToken. rewrite He, newlineIfNeeded_out. cbn [beginToken b_out]. unfold endText. rewrite beginToken_start, newlineIfNeeded_start. by rewrite app_nil_r. }
  revert s D. induction ts as [|t r Ec IH|t c r Hb Ec IH] using format_ind; intros s D Hbt Hok Hterm Hm Hl He.
  - by apply Hend.
  - destruct Hterm as [|Hterm]; [done|]. inversion Hok as [|? ? Ht Hr]; subst. cbn [formatLoop emitted] in *. rewrite Ec in *. destruct (decide (Kind t = TokenEOF)) as [Hk|Hk].
    + rewrite (eof_head _ _ Hterm Hk) in *. cbn [emitted formatLoop] in *. unfold stepShapes, formatToken, endShapes in Hm. rewrite Hk, beginToken_start in Hm. cbn [app] in Hm.
      rewrite (Hend s D Hbt Hm He). unfold formatToken. rewrite Hk, !newlineIfNeeded_out. unfold endText. by rewrite beginToken_start.
    + apply map_eq_app in Hm as (D1 & D2 & -> & Hm1 & Hm2). rewrite <- app_assoc, (formatToken_again t None s D1); [|done|done|done|done|by eapply same_line_prefix].
      apply IH; [by apply between_step|done|right; by eapply eof_tail|done|by eapply same_line_suffix|done].
  - destruct Hterm as [|Hterm]; [done|]. inversion Hok as [|? ? Ht Hr']; subst. inversion Hr' as [|? ? Hcok Hr]; subst. cbn [formatLoop emitted] in *. rewrite Hb, Ec in *.
    destruct (trailingCommentAfter_Some _ _ _ Ec) as (r' & [= <-] & Hkc & _).
    assert (Kind t <> TokenEOF) as Hk by (intros Hk; by rewrite (isBrace_kind _ _ Hk) in Hb).
    apply map_eq_app in Hm as (D1 & D2 & -> & Hm1 & Hm2). rewrite <- app_assoc, (formatToken_again t (Some c) s D1); [|done|done|done|done|by eapply same_line_prefix].
    apply IH; [by apply between_step|done|right; eapply eof_tail; [by eapply eof_tail|congruence]|done|by eapply same_line_suffix|done].
Qed.

(** ** The end of the output *)

Definition ends_with (o : bytes) : Prop := exists p c, o = p ++ [c] /\ c <> Zbyte rNL.

(** A line in the making ends with no line break, a finished one with one. *)
Definition tidy (s : fmtState) : Prop :=
  if b_atLineStart s then b_out s = [] \/ exists o, b_out s = o ++ [Zbyte rNL] /\ ends_with o else ends_with (b_out s).

Lemma ends_with_app o text : ends_with text -> ends_with (o ++ text).
Proof. intros (p & c & -> & Hc). exists (o ++ p), c. by rewrite app_assoc. Qed.

Lemma tidy_newline s : tidy s -> tidy (newlineIfNeeded s).
Proof. unfold tidy. rewrite newlineIfNeeded_start, newlineIfNeeded_out. unfold endText. destruct (b_atLineStart s) eqn:Ea; [by rewrite app_nil_r|]. intros H. right. eauto. Qed.

Lemma ends_with_word t : Kind t = TokenWord -> token_ok t -> ends_with (formatWord t).
Proof.
  intros Hk Hok. unfold formatWord. destruct (Quoted t || needsQuoting (Text t)) eqn:E.
  - exists ([DQ] ++ flat_map quoteByte (Text t)), DQ. split; [unfold quote; by rewrite app_assoc|done].
  - apply orb_false_iff in E as [_ E]. apply needsQuoting_false in E as (Hne & _ & _ & Hby).
    destruct (Text t) as [|x l _] using rev_ind; [done|]. exists l, x. split; [done|]. intros ->. apply Forall_app in Hby as [_ Hby]. by inversion Hby.
Qed.

Lemma ends_with_comment c : comment_text c -> ends_with c.
Proof.
  intros (_ & Hn & _ & s' & Hs). destruct c as [|x l _] using rev_ind; [done|]. exists l, x. split; [done|]. apply Forall_app in Hn as [_ Hn]. by inversion Hn.
Qed.

Lemma tidy_step t c s : tidy s -> token_ok t -> comment_ok c -> tidy (formatToken t c s).
Proof.
  intros Ht Hok Hc. assert (tidy (beginToken t s)) as H1 by done. unfold formatToken. set (s1 := beginToken t s) in *. clearbody s1.
  assert (forall s2 text, ends_with text -> tidy (writeStr text (startItem s2))) as Hitem.
  { intros s2 text Htx. unfold tidy, writeStr. cbn [b_atLineStart b_out]. rewrite startItem_start. by apply ends_with_app. }
  assert (forall s2, tidy s2 -> b_atLineStart s2 = false -> tidy (writeComment c s2)) as Hcm.
  { intros s2 Hs2 Ha. destruct c as [c|]; [|done]. unfold tidy, writeComment, writeStr in *. cbn [b_atLineStart b_out]. rewrite Ha in *. rewrite <- app_assoc. by apply ends_with_app, ends_with_app, ends_with_comment. }
  assert (ends_with (go "{") /\ ends_with (go "}")) as [Ho Hcl] by (split; [by exists [], "{"%char|by exists [], "}"%char]).
  unfold token_ok in Hok. destruct (Kind t) eqn:Hk; [| | |by apply tidy_newline..| |done].
  - apply Hitem. apply ends_with_word; [done|]. unfold token_ok. by rewrite Hk.
  - assert (tidy (newlineIfNeeded (writeComment c (writeStr (go "{") (startItem s1))))) as H; [|done].
    apply tidy_newline, Hcm; [by apply Hitem|]. unfold writeStr. cbn. apply startItem_start.
  - set (s2 := set_blank _ _ _). assert (b_atLineStart s2 = true) as Hs2 by apply newlineIfNeeded_start.
    assert (startLine s2 = startItem s2) as -> by (unfold startItem; by rewrite Hs2). apply tidy_newline, Hcm; [by apply Hitem|]. unfold writeStr. cbn [b_atLineStart]. apply startItem_start.
  - apply tidy_newline, Hitem. by apply ends_with_comment.
Qed.

Lemma tidy_loop ts s : tidy s -> Forall token_ok ts -> tidy (formatLoop ts s).
Proof.
  revert s. induction ts as [|t r Ec IH|t c r Hb Ec IH] using format_ind; intros s Hs Hok; [done| |]; inversion Hok as [|? ? Ht Hr]; subst; cbn [formatLoop].
  - rewrite Ec. apply IH; [|done]. by apply tidy_step.
  - rewrite Hb, Ec. inversion Hr as [|? ? Hcok Hr']; subst. destruct (trailingCommentAfter_Some _ _ _ Ec) as (r' & [= <-] & Hkc & _).
    apply IH; [|done]. apply tidy_step; [done|done|]. unfold token_ok in Hcok. by rewrite Hkc in Hcok.
Qed.

Lemma TrimRight_snoc s c cut : existsb (Ascii.eqb c) cut = false -> TrimRight (s ++ [c]) cut = s ++ [c].
Proof. intros H. induction s as [|b s IH]; cbn; [by rewrite H|]. rewrite IH. by destruct (s ++ [c]) eqn:E; [destruct s|]. Qed.

Lemma TrimRight_cut s c cut : existsb (Ascii.eqb c) cut = true -> TrimRight (s ++ [c]) cut = TrimRight s cut.
Proof. intros H. induction s as [|b s IH]; cbn; [by rewrite H|]. by rewrite IH. Qed.

(** [Format] writes what its loop wrote. *)
Lemma Format_out src ts f : tokenize [] src = Ok ts -> Parse [] src = Ok f -> Format src = Ok (b_out (newlineIfNeeded (formatLoop ts initFmt))).
Proof.
  intros Ht Hf. unfold Format. rewrite Ht, Hf. cbn [lift_lex obind]. destruct (tokenize_ok _ _ _ Ht) as (Hok & _ & _).
  assert (tidy (newlineIfNeeded (formatLoop ts initFmt))) as Htidy by (apply tidy_newline, tidy_loop; [by left|done]).
  unfold tidy in Htidy. rewrite newlineIfNeeded_start in Htidy. destruct Htidy as [-> |(o & -> & p & c & -> & Hc)]; [done|].
  rewrite TrimRight_cut by done. rewrite TrimRight_snoc; [|cbn; destruct (Ascii.eqb_spec c (Zbyte rNL)); done].
  by rewrite bool_decide_eq_false_2 by (by destruct p).
Qed.

(** ** The tokens of the output *)

Lemma tokenize_reads n l ts l' e l'' acc : reads l ts l' -> next l' = Ok (e, l'') -> Kind e = TokenEOF -> (size l < n)%nat ->
  tokenize_loop n l acc = Ok (acc ++ ts ++ [e]).
Proof.
  intros Hr He Hk. revert n acc. induction Hr as [l|l t l1 ts l2 Hn Hne Hr IH]; intros n acc Hsz; (destruct n as [|n]; [lia|]); cbn [tokenize_loop].
  - rewrite He. cbn. by rewrite bool_decide_eq_true_2.
  - rewrite Hn. cbn [obind]. rewrite bool_decide_eq_false_2 by done. pose proof (next_progress _ _ _ Hn) as [?|Hlt]; [done|].
    rewrite IH by (done || lia). by rewrite <- app_assoc.
Qed.

Lemma tokenize_output ts : Forall token_ok ts -> let out := b_out (newlineIfNeeded (formatLoop ts initFmt)) in HasPrefix out BOM = false ->
  exists D e, tokenize [] out = Ok (D ++ [e]) /\ map shape_of D = emitted ts initFmt /\ same_line D /\ shape_of e = eofShape.
Proof.
  intros Hok out Hbom. destruct (formatLoop_reads ts initFmt Hok) as (text & Ho & Hr & _). cbn in Ho. fold out in Ho.
  destruct (Hr [] (newLexer [] out)) as (D & l' & Hrd & Hm & Hl & Hr' & Ha & Hp); [done| |done|done|].
  { unfold newLexer. cbn. unfold TrimPrefix. by rewrite Hbom, app_nil_r. }
  destruct (mk l' TokenEOF []) as [e l''] eqn:Emk. assert (next l' = Ok (e, l'')) as Hn by (unfold next; cbn [next_loop]; unfold peekRune; by rewrite Hr', Emk).
  unfold mk, takeBlank in Emk. rewrite Ha in Emk. injection Emk as <- _. rewrite Hp in Hn.
  exists D. eexists. split; [unfold tokenize; rewrite (tokenize_reads _ _ _ _ _ _ [] Hrd Hn); [reflexivity|done|unfold size; lia]|]. done.
Qed.
