(* ===== verification/FormatParse.v ===== *)
(** * Formatting keeps the meaning of a file

    The parser reads a file and its formatted version alike: a relation between token
    streams that differ in their separators, and that the parser of
    [internal/cadishfile/parse.go] takes related streams to the same file but for
    positions.  The formatted file is related to the source, unless the source has a
    bare word that the formatter quotes or a statement of addresses that a semicolon
    ends; what happens then is shown by example. *)

From stdpp Require Import base strings pretty numbers gmap list.
From Stdlib Require Import Lia.
From S2P Require Import Prelude GoStrings Ast Lex Quote Parse Grammar Format.
Open Scope Z_scope.

(** ** Syntax without positions *)

Definition noPos : Pos := mkPos [] 0 0.

Definition eraseArg (a : Arg) : Arg := mkArg (Raw a) (ArgQuoted a) (AKind a) noPos.

Fixpoint eraseNode (x : Node) : Node :=
  match x with
  | MatcherDef n t args _ => MatcherDef n t (map eraseArg args) noPos
  | Directive n args block h _ => Directive n (map eraseArg args) (map eraseNode block) h noPos
  end.

Definition eraseFile (f : CFile) : CFile :=
  mkCFile (option_map (fun o => mkOptions (map eraseNode (o_body o)) noPos) (Global f))
    (map (fun s => mkSite (Addresses s) (map eraseNode (s_body s)) noPos) (Sites f)) (map eraseNode (f_body f)).

(** ** Streams that differ in their separators *)

Definition hasSemi (s : list Token) : bool := existsb (isKind TokenSemicolon) s.
Definition breaks (s : list Token) : bool := existsb (fun t => isKind TokenNewline t || isKind TokenSemicolon t) s.

(** An unquoted word that ends with a comma. *)
Definition commaWord (t : Token) : bool := isKind TokenWord t && negb (Quoted t) && HasSuffix (Text t) (go ",").

Definition sameToken (t t' : Token) : Prop := Kind t' = Kind t /\ (Kind t = TokenWord -> Text t' = Text t /\ Quoted t' = Quoted t).

(** The separators between [t] and [n]. *)
Definition gap (t n : Token) (s s' : list Token) : Prop :=
  hasSemi s' = false /\
  match Kind t with
  | TokenWord =>
    match Kind n with
    | TokenWord | TokenOpenBrace => s = [] /\ s' = [] \/ breaks s = true /\ breaks s' = true /\ (hasSemi s = true -> commaWord t = false)
    | _ => True
    end
  | TokenCloseBrace => s' <> []
  | _ => True
  end.

Inductive similar : list Token -> list Token -> Prop :=
| sim_eof t t' : Kind t = TokenEOF -> sameToken t t' -> similar [t] [t']
| sim_tok t t' s s' n u n' u' : ~ is_sep t -> Kind t <> TokenEOF -> sameToken t t' -> Forall is_sep s -> Forall is_sep s' ->
  gap t n s s' -> similar (n :: u) (n' :: u') -> similar (t :: s ++ n :: u) (t' :: s' ++ n' :: u').

Lemma similar_head u u' : similar u u' -> exists t r t' r', u = t :: r /\ u' = t' :: r' /\ ~ is_sep t /\ sameToken t t'.
Proof.
  destruct 1 as [t t' Hk Hs|]; [|by eauto 10]. exists t, [], t', []. split_and!; try done. unfold is_sep. rewrite Hk. naive_solver.
Qed.

Lemma sameToken_sep t t' : sameToken t t' -> is_sep t' <-> is_sep t.
Proof. intros [Hk _]. unfold is_sep. by rewrite Hk. Qed.

(** Where the separators at the start of a stream end. *)
Lemma seps_unique s t u s0 t0 u0 : Forall is_sep s -> ~ is_sep t -> Forall is_sep s0 -> ~ is_sep t0 -> s ++ t :: u = s0 ++ t0 :: u0 -> s = s0 /\ t = t0 /\ u = u0.
Proof.
  intros Hs. revert s0. induction Hs as [|x s Hx _ IH]; intros s0 Ht Hs0 Ht0 E.
  - destruct Hs0 as [|y s0 Hy _]; [by injection E as -> ->|]. by injection E as -> _.
  - destruct Hs0 as [|y s0 Hy Hs0]; [by injection E as -> _|]. injection E as -> E. destruct (IH s0 Ht Hs0 Ht0 E) as (-> & -> & ->). done.
Qed.

Lemma similar_inv t r ts' : similar (t :: r) ts' -> Kind t <> TokenEOF -> exists t' s s' n u n' u', ts' = t' :: s' ++ n' :: u' /\ r = s ++ n :: u /\
  sameToken t t' /\ Forall is_sep s /\ Forall is_sep s' /\ gap t n s s' /\ similar (n :: u) (n' :: u').
Proof. intros H He. inversion H; subst; [done|]. by eauto 20. Qed.

(** ** Statements *)

Lemma tokArg_same t t' : is_word t -> sameToken t t' -> eraseArg (tokArg [] t') = eraseArg (tokArg [] t).
Proof. intros Hw [_ H]. destruct (H Hw) as [Ht Hq]. unfold tokArg, eraseArg. cbn. by rewrite Ht, Hq. Qed.

Lemma word_same t t' : is_word t -> sameToken t t' -> is_word t' /\ Text t' = Text t /\ Quoted t' = Quoted t.
Proof. intros Hw [Hk H]. destruct (H Hw). unfold is_word in *. split_and!; congruence. Qed.

Lemma word_not_sep t : is_word t -> ~ is_sep t /\ Kind t <> TokenEOF.
Proof. unfold is_word, is_sep. intros H. rewrite H. split; [naive_solver|done]. Qed.

(** What follows a statement in both streams. *)
Definition follows_stmt (mid mid' : list Token) : Prop :=
  exists s s' n u n' u', mid = s ++ n :: u /\ mid' = s' ++ n' :: u' /\ Forall is_sep s /\ Forall is_sep s' /\ similar (n :: u) (n' :: u') /\
    (s' <> [] \/ is_end n').

Lemma gap_follows w n s s' n' : is_word w -> gap w n s s' -> sameToken n n' -> ~ is_sep n -> s <> [] \/ is_end n -> s' <> [] \/ is_end n'.
Proof.
  intros Hw [_ Hg] [Hk _] Hns H. unfold is_word, is_end, is_sep in *. rewrite Hw in Hg. rewrite Hk.
  destruct (Kind n) eqn:Ek; try tauto; (destruct Hg as [[-> ->]|(_ & Hb & _)]; [destruct H as [?|[?|?]]; done|left; by destruct s']).
Qed.

(** Words, and what follows the last of them. *)
Lemma words_similar args : forall w mid ts', is_word w -> Forall is_word args -> similar (w :: args ++ mid) ts' ->
  exists w' args' mid', ts' = w' :: args' ++ mid' /\ sameToken w w' /\ Forall2 sameToken args args' /\
    exists lw s s' n u n' u', is_word lw /\ mid = s ++ n :: u /\ mid' = s' ++ n' :: u' /\ Forall is_sep s /\ Forall is_sep s' /\ gap lw n s s' /\ similar (n :: u) (n' :: u').
Proof.
  induction args as [|a args IH]; intros w mid ts' Hw Ha H; (destruct (similar_inv _ _ _ H) as (w' & s & s' & n & u & n' & u' & -> & E & Hs & Hf & Hf' & Hg & Hsim); [by apply word_not_sep|]).
  - exists w', [], (s' ++ n' :: u'). split_and!; [done|done|constructor|]. exists w, s, s', n, u, n', u'. by cbn in E.
  - inversion Ha as [|? ? Haw Hargs]; subst. cbn [app] in E. destruct (similar_head _ _ Hsim) as (? & ? & ? & ? & [= <- <-] & [= <- <-] & Hns & _).
    destruct (seps_unique [] a (args ++ mid) s n u) as (<- & <- & <-); [constructor|by apply word_not_sep|done|done|done|].
    assert (s' = []) as ->. { destruct Hg as [_ Hg]. unfold is_word in *. rewrite Hw, Haw in Hg. by destruct Hg as [[_ ->]|(? & _)]. }
    destruct (IH a mid (n' :: u')) as (a' & args' & mid' & [= -> ->] & Has & Hargs' & Hrest); [done|done|done|].
    exists w', (a' :: args'), mid'. split_and!; [done|done|by constructor|done].
Qed.

Lemma Forall2_words args args' : Forall is_word args -> Forall2 sameToken args args' ->
  Forall is_word args' /\ map eraseArg (map (tokArg []) args') = map eraseArg (map (tokArg []) args).
Proof.
  intros Hw H. induction H as [|a a' args args' Ha _ IH]; [done|]. inversion Hw as [|? ? Haw Hr]; subst. destruct (IH Hr) as [H1 H2].
  split; [constructor; [by apply (word_same a)|done]|]. cbn [map]. rewrite H2. f_equal. by apply tokArg_same.
Qed.

Definition stmt_keeps (k : nat) (st : list Token) (x : Node) : Prop := forall mid rest ts', ends_stmt mid rest -> similar (st ++ mid) ts' ->
  exists st' mid' x', ts' = st' ++ mid' /\ stmtG [] k st' x' /\ eraseNode x' = eraseNode x /\ follows_stmt mid mid'.

Definition body_keeps (k : nat) (body : list Token) (xs : list Node) : Prop := forall c mid s n u s' n' u', Kind c = TokenCloseBrace ->
  body ++ c :: mid = s ++ n :: u -> Forall is_sep s -> Forall is_sep s' -> similar (n :: u) (n' :: u') ->
  exists body' c' mid' xs', s' ++ n' :: u' = body' ++ c' :: mid' /\ bodyG [] k body' xs' /\ map eraseNode xs' = map eraseNode xs /\
    Kind c' = TokenCloseBrace /\ similar (c :: mid) (c' :: mid').

Lemma names_matcher_same t t' : is_word t -> sameToken t t' -> names_matcher t' = names_matcher t /\ type_word t' = type_word t.
Proof. intros Hw H. destruct (word_same _ _ Hw H) as (_ & Ht & Hq). unfold names_matcher, type_word. by rewrite Ht, Hq. Qed.

Lemma ends_stmt_gap mid rest s n u : ends_stmt mid rest -> mid = s ++ n :: u -> ~ is_sep n -> s <> [] \/ is_end n.
Proof.
  intros [(sep & Hsep & ->)|(-> & t & r & -> & Ht)] E Hn.
  - destruct s as [|x s]; [|by left]. injection E as -> _. done.
  - destruct s as [|x s]; [|by left]. injection E as -> _. by right.
Qed.

Lemma matcher_keeps k nm ty args : is_word nm -> names_matcher nm = true -> TrimPrefix (Text nm) (go "@") <> [] -> is_word ty -> type_word ty = true -> Forall is_word args ->
  stmt_keeps k (nm :: ty :: args) (MatcherDef (TrimPrefix (Text nm) (go "@")) (Text ty) (map (tokArg []) args) (tokPos [] nm)).
Proof.
  intros Hw Hm Hne Hty Htw Ha mid rest ts' He H.
  destruct (words_similar (ty :: args) nm mid ts') as (nm' & targs & mid' & -> & Hn & Hargs & lw & s & s' & n & u & n' & u' & Hlw & Em & -> & Hf & Hf' & Hg & Hsim); [done|by constructor|done|].
  inversion Hargs as [|? ty' ? args' Hty' Hargs']; subst. destruct (similar_head _ _ Hsim) as (? & ? & ? & ? & [= <- <-] & [= <- <-] & Hns & Hsn).
  destruct (word_same _ _ Hw Hn) as (Hw' & Htx & _). destruct (word_same _ _ Hty Hty') as (Hwt & Htt & _). destruct (Forall2_words _ _ Ha Hargs') as [Hwa Hea].
  exists (nm' :: ty' :: args'), (s' ++ n' :: u'). eexists. split_and!; [done| | |].
  - constructor; try done; [by rewrite (proj1 (names_matcher_same _ _ Hw Hn))|by rewrite Htx|by rewrite (proj2 (names_matcher_same _ _ Hty Hty'))].
  - cbn. by rewrite Hea, Htx, Htt.
  - exists s, s', n, u, n', u'. split_and!; try done. eapply gap_follows; [exact Hlw|done|done|done|by eapply ends_stmt_gap].
Qed.

Lemma plain_keeps k nm args : is_word nm -> names_matcher nm = false -> Forall is_word args ->
  stmt_keeps k (nm :: args) (Directive (Text nm) (map (tokArg []) args) [] false (tokPos [] nm)).
Proof.
  intros Hw Hm Ha mid rest ts' He H.
  destruct (words_similar args nm mid ts') as (nm' & args' & mid' & -> & Hn & Hargs & lw & s & s' & n & u & n' & u' & Hlw & Em & -> & Hf & Hf' & Hg & Hsim); [done|done|done|].
  destruct (similar_head _ _ Hsim) as (? & ? & ? & ? & [= <- <-] & [= <- <-] & Hns & Hsn).
  destruct (word_same _ _ Hw Hn) as (Hw' & Htx & _). destruct (Forall2_words _ _ Ha Hargs) as [Hwa Hea].
  exists (nm' :: args'), (s' ++ n' :: u'). eexists. split_and!; [done| | |].
  - constructor; try done. by rewrite (proj1 (names_matcher_same _ _ Hw Hn)).
  - cbn. by rewrite Hea, Htx.
  - exists s, s', n, u, n', u'. split_and!; try done. eapply gap_follows; [exact Hlw|done|done|done|by eapply ends_stmt_gap].
Qed.

Lemma close_follows c mid c' mid' : Kind c = TokenCloseBrace -> similar (c :: mid) (c' :: mid') -> follows_stmt mid mid'.
Proof.
  intros Hc H. destruct (similar_inv _ _ _ H) as (? & s & s' & n & u & n' & u' & [= <- ->] & -> & _ & Hf & Hf' & [_ Hg] & Hsim); [congruence|].
  rewrite Hc in Hg. exists s, s', n, u, n', u'. by split_and!; [..|left].
Qed.

Lemma block_keeps k nm args o body c xs : is_word nm -> names_matcher nm = false -> Forall is_word args -> Kind o = TokenOpenBrace -> Kind c = TokenCloseBrace ->
  body_keeps k body xs -> stmt_keeps (S k) (nm :: args ++ o :: body ++ [c]) (Directive (Text nm) (map (tokArg []) args) xs true (tokPos [] nm)).
Proof.
  intros Hw Hm Ha Ho Hc IH mid rest ts' He H. cbn [app] in H. rewrite <- app_assoc in H. cbn [app] in H. rewrite <- app_assoc in H. cbn [app] in H.
  destruct (words_similar args nm (o :: body ++ c :: mid) ts') as (nm' & args' & mid' & -> & Hn & Hargs & lw & s & s' & n & u & n' & u' & Hlw & Em & -> & Hf & Hf' & Hg & Hsim); [done|done|done|].
  destruct (similar_head _ _ Hsim) as (? & ? & ? & ? & [= <- <-] & [= <- <-] & Hns & Hsn).
  assert (~ is_sep o) as Hno by (unfold is_sep; rewrite Ho; naive_solver).
  destruct (seps_unique [] o (body ++ c :: mid) s n u) as (<- & <- & <-); [constructor|done|done|done|done|].
  assert (s' = []) as ->. { destruct Hg as [_ Hg]. unfold is_word in *. rewrite Hlw, Ho in Hg. by destruct Hg as [[_ ->]|(? & _)]. }
  destruct (similar_inv _ _ _ Hsim) as (? & s1 & s1' & n1 & u1 & n1' & u1' & [= <- ->] & E1 & _ & Hf1 & Hf1' & _ & Hsim1); [congruence|].
  destruct (IH c mid s1 n1 u1 s1' n1' u1') as (body' & c' & mid' & xs' & E' & Hb & Hx & Hc' & Hsim2); [done|done|done|done|done|]. rewrite E'.
  destruct (word_same _ _ Hw Hn) as (Hw' & Htx & _). destruct (Forall2_words _ _ Ha Hargs) as [Hwa Hea].
  exists (nm' :: args' ++ n' :: body' ++ [c']), mid'. eexists. split_and!; [cbn; rewrite <- app_assoc; cbn; by rewrite <- app_assoc| | |exact (close_follows _ _ _ _ Hc Hsim2)].
  - apply SG_block; try done; [by rewrite (proj1 (names_matcher_same _ _ Hw Hn))|]. by destruct Hsn as [-> _].
  - cbn. by rewrite Hea, Htx, Hx.
Qed.

Lemma body_nil_keeps k s : Forall is_sep s -> body_keeps k s [].
Proof.
  intros Hs c mid s0 n u s' n' u' Hc E Hs0 Hs' H. destruct (similar_head _ _ H) as (? & ? & ? & ? & [= <- <-] & [= <- <-] & Hns & [Hk _]).
  destruct (seps_unique s c mid s0 n u) as (<- & <- & <-); [done|unfold is_sep; rewrite Hc; naive_solver|done|done|done|].
  exists s', n', u', []. split_and!; [done|by constructor|done|congruence|done].
Qed.

(** A statement of a body and what follows it. *)
Lemma body_stmt_keeps k s st x more mid n u s' n' u' : Forall is_sep s -> stmtG [] k st x -> stmt_keeps k st x -> (exists rest, ends_stmt more rest) ->
  s ++ st ++ more = mid ++ n :: u -> Forall is_sep mid -> Forall is_sep s' -> similar (n :: u) (n' :: u') ->
  exists st' more' x', s' ++ n' :: u' = s' ++ st' ++ more' /\ stmtG [] k st' x' /\ eraseNode x' = eraseNode x /\ follows_stmt more more'.
Proof.
  intros Hs Hst IH [rest He] E Hmid Hs' H. destruct (stmtG_head _ _ _ _ Hst) as (w & r & -> & Hw).
  destruct (similar_head _ _ H) as (? & ? & ? & ? & [= <- <-] & [= <- <-] & Hns & _).
  destruct (seps_unique s w (r ++ more) mid n u) as (<- & <- & <-); [done|by apply word_not_sep|done|done|done|].
  destruct (IH more rest _ He H) as (st' & more' & x' & -> & Hst' & Hx & Hf). by exists st', more', x'.
Qed.

Lemma body_last_keeps k s st x : Forall is_sep s -> stmtG [] k st x -> stmt_keeps k st x -> body_keeps k (s ++ st) [x].
Proof.
  intros Hs Hst IH c mid s0 n u s' n' u' Hc E Hs0 Hs' H. rewrite <- app_assoc in E.
  destruct (body_stmt_keeps k s st x (c :: mid) s0 n u s' n' u') as (st' & more' & x' & -> & Hst' & Hx & (s1 & s1' & n1 & u1 & n1' & u1' & E1 & -> & Hf & Hf' & Hsim & Hend)); try done.
  { exists (c :: mid). right. split; [done|]. exists c, mid. split; [done|]. unfold is_end. tauto. }
  destruct (similar_head _ _ Hsim) as (? & ? & ? & ? & [= <- <-] & [= <- <-] & Hns & [Hk _]).
  destruct (seps_unique [] c mid s1 n1 u1) as (<- & <- & <-); [done|unfold is_sep; rewrite Hc; naive_solver|done|done|done|].
  destruct s1' as [|sep s1'].
  - exists (s' ++ st'), n1', u1', [x']. rewrite <- app_assoc. split_and!; [done|by constructor|cbn; by rewrite Hx|congruence|done].
  - inversion Hf'; subst. exists (s' ++ st' ++ sep :: s1'), n1', u1', [x']. split_and!; [by rewrite <- !app_assoc| |cbn; by rewrite Hx|congruence|done].
    apply BG_cons; [done|done|done|by constructor].
Qed.

Lemma body_cons_keeps k s st x sep rest xs : Forall is_sep s -> stmtG [] k st x -> stmt_keeps k st x -> is_sep sep -> bodyG [] k rest xs -> body_keeps k rest xs ->
  body_keeps k (s ++ st ++ sep :: rest) (x :: xs).
Proof.
  intros Hs Hst IH Hsep Hrest IHr c mid s0 n u s' n' u' Hc E Hs0 Hs' H. rewrite <- !app_assoc in E. cbn [app] in E.
  destruct (body_stmt_keeps k s st x (sep :: rest ++ c :: mid) s0 n u s' n' u') as (st' & more' & x' & -> & Hst' & Hx & (s1 & s1' & n1 & u1 & n1' & u1' & E1 & -> & Hf & Hf' & Hsim & Hend)); try done.
  { exists (rest ++ c :: mid). left. by exists sep. }
  destruct (similar_head _ _ Hsim) as (? & ? & ? & ? & [= <- <-] & [= <- <-] & Hns & Hsn).
  destruct s1 as [|y s1]; [by injection E1 as -> _|]. injection E1 as <- E1. inversion Hf; subst.
  destruct s1' as [|sep' s1'].
  - destruct (IHr c mid s1 n1 u1 [] n1' u1') as (body' & c' & mid' & xs' & E2 & Hb & Hxs & Hc' & Hsim'); try done. cbn [app] in E2.
    destruct Hend as [?|Hend]; [done|]. destruct body' as [|b body'].
    + cbn [app] in E2. rewrite E2. apply bodyG_nil_inv in Hb as ->. exists (s' ++ st'), c', mid', [x']. rewrite <- app_assoc. split_and!; [done|by constructor| |done|done].
      cbn. rewrite Hx. cbn in Hxs. by rewrite Hxs.
    + injection E2 as <- _. apply bodyG_head in Hb. by destruct (is_end_not _ Hend).
  - inversion Hf'; subst. destruct (IHr c mid s1 n1 u1 s1' n1' u1') as (body' & c' & mid' & xs' & E2 & Hb & Hxs & Hc' & Hsim'); try done. cbn [app]. rewrite E2.
    exists (s' ++ st' ++ sep' :: body'), c', mid', (x' :: xs'). split_and!; [by rewrite <- !app_assoc|by apply BG_cons|cbn; by rewrite Hx, Hxs|done|done].
Qed.

Lemma stmt_sim k st x : stmtG [] k st x -> stmt_keeps k st x.
Proof.
  intros H. apply (stmtG_mind [] (fun k st x _ => stmt_keeps k st x) (fun k body xs _ => body_keeps k body xs)); [..|exact H]; intros.
  - by apply matcher_keeps.
  - by apply plain_keeps.
  - by apply block_keeps.
  - by apply body_nil_keeps.
  - by apply body_last_keeps.
  - by apply body_cons_keeps.
Qed.

Lemma body_sim k body xs : bodyG [] k body xs -> body_keeps k body xs.
Proof.
  intros H. apply (bodyG_mind [] (fun k st x _ => stmt_keeps k st x) (fun k body xs _ => body_keeps k body xs)); [..|exact H]; intros.
  - by apply matcher_keeps.
  - by apply plain_keeps.
  - by apply block_keeps.
  - by apply body_nil_keeps.
  - by apply body_last_keeps.
  - by apply body_cons_keeps.
Qed.

(** ** Blocks, addresses and the file *)

Lemma skip_similar s n u s' n' u' : Forall is_sep s -> Forall is_sep s' -> similar (n :: u) (n' :: u') ->
  skipSeparators (s ++ n :: u) = n :: u /\ skipSeparators (s' ++ n' :: u') = n' :: u'.
Proof.
  intros Hs Hs' H. destruct (similar_head _ _ H) as (? & ? & ? & ? & [= <- <-] & [= <- <-] & Hn & Hsn).
  split; apply skipSeparators_seps; try done. by rewrite sameToken_sep.
Qed.

Lemma bodyG_parses k body xs : bodyG [] k body xs -> body_parses [] k body xs.
Proof.
  induction 1; eauto using nil_parses, last_parses, cons_parses, stmtG_parses.
Qed.

Lemma block_sim n n' o rest o' rest' xs r : Kind o = TokenOpenBrace -> parseBlockBody [] n 0 o rest = Ok (xs, r) -> similar (o :: rest) (o' :: rest') ->
  (length rest' < n')%nat ->
  exists xs' r', parseBlockBody [] n' 0 o' rest' = Ok (xs', r') /\ map eraseNode xs' = map eraseNode xs /\
    similar (skipSeparators r) (skipSeparators r') /\ (length (skipSeparators r') < length rest')%nat.
Proof.
  intros Ho H Hsim Hl. apply enterBlock_sound in H as (j & body & c & Hj & -> & Hc & Hb); [|done].
  destruct (similar_inv _ _ _ Hsim) as (? & s & s' & m & u & m' & u' & [= <- ->] & E & _ & Hf & Hf' & _ & Hs); [congruence|].
  destruct (body_sim _ _ _ Hb c r s m u s' m' u') as (body' & c' & r' & xs' & E' & Hb' & Hx & Hc' & Hs2); try done. rewrite E' in *.
  exists xs', r'. rewrite length_app in *. cbn [length] in *. destruct (similar_inv _ _ _ Hs2) as (? & s1 & s1' & n1 & u1 & n1' & u1' & [= <- ->] & -> & _ & Hf1 & Hf1' & _ & Hs3); [congruence|].
  destruct (skip_similar s1 n1 u1 s1' n1' u1') as [-> ->]; try done. split_and!; [|done|done|rewrite length_app in *; lia].
  unfold parseBlockBody, enterBlock. destruct (Z.ltb_spec maxBlockDepth (0 + 1)) as [Hlt|_]; [by vm_compute in Hlt|].
  apply (bodyG_parses _ _ _ Hb'); [lia|lia|done].
Qed.

Lemma siteAddresses_seps s ts acc r : Forall is_sep s -> siteAddresses [] (s ++ ts) acc = Ok r -> siteAddresses [] ts acc = Ok r.
Proof.
  intros Hs. induction Hs as [|t s Ht _ IH]; [done|]. cbn [app siteAddresses]. unfold is_sep in Ht. by destruct Ht as [->|[->| ->]].
Qed.

Lemma siteAddresses_skips s ts acc : Forall is_sep s -> hasSemi s = false -> siteAddresses [] (s ++ ts) acc = siteAddresses [] ts acc.
Proof.
  intros Hs. induction Hs as [|t s Ht _ IH]; [done|]. cbn [app siteAddresses hasSemi existsb]. unfold isKind. unfold is_sep in Ht.
  by destruct Ht as [->|[->| ->]].
Qed.

Lemma siteAddresses_sim ts ts' : similar ts ts' -> forall acc addrs o rest, siteAddresses [] ts acc = Ok (addrs, o, rest) ->
  exists o' rest', siteAddresses [] ts' acc = Ok (addrs, o', rest') /\ Kind o = TokenOpenBrace /\ similar (o :: rest) (o' :: rest') /\ (length rest' < length ts')%nat.
Proof.
  induction 1 as [t t' Hk Hs|t t' s s' n u n' u' Hn He Ht Hs Hs' Hg Hsim IH]; intros acc addrs o rest H; cbn [siteAddresses] in H; [by rewrite Hk in H|].
  destruct (Kind t) eqn:Ek; try done.
  - destruct (word_same t t' Ek Ht) as (Hw' & Htx & _). cbn [siteAddresses]. rewrite Hw', Htx. apply siteAddresses_seps in H; [|done].
    rewrite siteAddresses_skips; [|done|apply Hg]. destruct (IH _ _ _ _ H) as (o' & rest' & -> & ? & ? & ?). exists o', rest'. split_and!; try done.
    cbn [length]. rewrite length_app. lia.
  - case_bool_decide; [done|]. injection H as <- <- <-. exists t', (s' ++ n' :: u'). cbn [siteAddresses].
    pose proof Ht as [Hk _]. rewrite Hk, Ek, bool_decide_eq_false_2 by done. split_and!; [done|done| |cbn; lia]. constructor; try done. congruence.
  - unfold is_sep in Hn. tauto.
  - unfold is_sep in Hn. tauto.
Qed.

Lemma startsSite_true s ts : Forall is_sep s -> startsSiteBlock_loop (s ++ ts) true = negb (hasSemi s) && startsSiteBlock_loop ts true.
Proof.
  induction 1 as [|t s Ht _ IH]; [done|]. cbn [app startsSiteBlock_loop hasSemi existsb]. unfold isKind. unfold is_sep in Ht. by destruct Ht as [->|[->| ->]].
Qed.

Lemma startsSite_false s ts : Forall is_sep s -> startsSiteBlock_loop (s ++ ts) false = negb (breaks s) && startsSiteBlock_loop ts false.
Proof.
  induction 1 as [|t s Ht _ IH]; [done|]. cbn [app startsSiteBlock_loop breaks existsb]. unfold isKind. unfold is_sep in Ht. by destruct Ht as [->|[->| ->]].
Qed.

Lemma startsSite_sim ts ts' : similar ts ts' -> forall b, startsSiteBlock_loop ts' b = startsSiteBlock_loop ts b.
Proof.
  induction 1 as [t t' Hk [Hs _]|t t' s s' n u n' u' Hn He Ht Hs Hs' [Hg1 Hg] Hsim IH]; intros b; cbn [startsSiteBlock_loop]; [by rewrite Hs, Hk|].
  pose proof Ht as [-> _]. destruct (Kind t) eqn:Ek; try done; try (unfold is_sep in Hn; tauto).
  destruct (word_same t t' Ek Ht) as (_ & -> & ->). destruct (similar_head _ _ Hsim) as (? & ? & ? & ? & [= <- <-] & [= <- <-] & Hns & [Hkn _]).
  assert (match Kind n with TokenWord | TokenOpenBrace => True | _ => forall c, startsSiteBlock_loop (n :: u) c = false end) as Hstop.
  { cbn [startsSiteBlock_loop]. unfold is_sep in Hns. destruct (Kind n); try done; tauto. }
  destruct (if _ || _ || _ then false else b) eqn:Ef.
  - rewrite !startsSite_true, Hg1 by done. destruct (hasSemi s) eqn:Es; [|apply IH]. cbn [negb andb]. rewrite IH.
    assert (commaWord t = true) as Hc. { unfold commaWord. rewrite isKind_true by done. destruct (Quoted t), (HasSuffix (Text t) (go ",")); try done; by rewrite ?orb_true_r in Ef. }
    destruct (Kind n); try apply Hstop; (destruct Hg as [[-> _]|(_ & _ & Hx)]; [done|]; rewrite Hx in Hc by done; done).
  - rewrite !startsSite_false, IH by done.
    destruct (Kind n); try (by rewrite !Hstop, !andb_false_r); (destruct Hg as [[-> ->]|(-> & -> & _)]; done).
Qed.

Lemma addrWrap_seps s ts c b : Forall is_sep s -> unseparatedAddrWrap_loop (s ++ ts) c b = unseparatedAddrWrap_loop ts c (b || breaks s).
Proof.
  intros Hs. revert b. induction Hs as [|t s Ht _ IH]; intros b; [by rewrite orb_false_r|]. cbn [app unseparatedAddrWrap_loop breaks existsb].
  unfold isKind. unfold is_sep in Ht. destruct Ht as [Ht|[Ht|Ht]]; rewrite Ht, IH; cbn; by rewrite ?orb_true_r.
Qed.

Lemma addrWrap_sim ts ts' : similar ts ts' -> forall c b, unseparatedAddrWrap_loop ts' c b = unseparatedAddrWrap_loop ts c b.
Proof.
  induction 1 as [t t' Hk [Hs _]|t t' s s' n u n' u' Hn He Ht Hs Hs' [Hg1 Hg] Hsim IH]; intros c b; cbn [unseparatedAddrWrap_loop]; [by rewrite Hs, Hk|].
  pose proof Ht as [-> _]. destruct (Kind t) eqn:Ek; try done; try (unfold is_sep in Hn; tauto).
  destruct (word_same t t' Ek Ht) as (_ & -> & ->). destruct (_ || _); [done|]. destruct (similar_head _ _ Hsim) as (? & ? & ? & ? & [= <- <-] & [= <- <-] & Hns & [Hkn _]).
  rewrite !addrWrap_seps, IH by done. cbn [unseparatedAddrWrap_loop]. unfold is_sep in Hns. destruct (Kind n); try done; try tauto;
    (destruct Hg as [[-> ->]|(-> & -> & _)]; done).
Qed.

Lemma ends_stmt_skip mid rest : ends_stmt mid rest -> skipSeparators rest = skipSeparators mid.
Proof. intros [(sep & Hs & ->)|(-> & _)]; [|done]. cbn [skipSeparators]. unfold is_sep in Hs. by destruct Hs as [->|[->| ->]]. Qed.

Lemma follows_ends mid mid' : follows_stmt mid mid' -> exists rest', ends_stmt mid' rest' /\ similar (skipSeparators mid) (skipSeparators rest') /\
  (length (skipSeparators rest') <= length mid')%nat.
Proof.
  intros (s & s' & n & u & n' & u' & -> & -> & Hs & Hs' & Hsim & Hend). destruct (skip_similar s n u s' n' u') as [E E']; try done. rewrite E.
  assert (forall rest', ends_stmt (s' ++ n' :: u') rest' -> exists rest', ends_stmt (s' ++ n' :: u') rest' /\ similar (n :: u) (skipSeparators rest') /\
    (length (skipSeparators rest') <= length (s' ++ n' :: u'))%nat) as Hgo.
  { intros rest' H. exists rest'. rewrite (ends_stmt_skip _ _ H), E'. split_and!; try done. rewrite length_app. lia. }
  destruct s' as [|x s'].
  - destruct Hend as [?|Hend]; [done|]. apply (Hgo (n' :: u')). right. eauto.
  - inversion Hs'; subst. apply (Hgo (s' ++ n' :: u')). left. eauto.
Qed.

Lemma statement_sim n n' ts ts' x rest : parseStatement [] (parseBlockBody [] n 0) ts = Ok (x, rest) -> similar ts ts' -> (length ts' <= n')%nat ->
  exists x' rest', parseStatement [] (parseBlockBody [] n' 0) ts' = Ok (x', rest') /\ eraseNode x' = eraseNode x /\
    similar (skipSeparators rest) (skipSeparators rest') /\ (length (skipSeparators rest') < length ts')%nat.
Proof.
  intros H Hsim Hl. apply (parseStatement_sound [] (Z.to_nat maxBlockDepth)) in H as (st & mid & -> & Hst & He);
    [|intros ? ? ? ? _ Hp; by apply enterBlock_sound in Hp]. rewrite (ends_stmt_skip _ _ He).
  destruct (stmt_sim _ _ _ Hst mid rest ts' He Hsim) as (st' & mid' & x' & -> & Hst' & Hx & Hf).
  destruct (follows_ends _ _ Hf) as (rest' & He' & Hs' & Hlen). exists x', rest'. rewrite length_app in *.
  destruct (stmtG_head _ _ _ _ Hst') as (w & r & -> & _). split_and!; [|done|done|cbn; lia].
  apply (stmtG_parses [] _ _ _ Hst' n' 0 mid' rest'); [done|lia|done].
Qed.

Lemma isKind_same k t t' : sameToken t t' -> isKind k t' = isKind k t.
Proof. intros [Hk _]. unfold isKind. by rewrite Hk. Qed.

Lemma startsSiteBlock_sim ts ts' : similar ts ts' -> startsSiteBlock ts' = startsSiteBlock ts.
Proof.
  intros H. destruct (similar_head _ _ H) as (t & r & t' & r' & -> & -> & _ & Ht). unfold startsSiteBlock. cbn [cur obind]. rewrite (isKind_same _ _ _ Ht).
  destruct (isKind TokenWord t) eqn:Ek; cbn [andb]; [|by rewrite (startsSite_sim _ _ H)].
  destruct (word_same t t') as (_ & -> & ->); [by apply bool_decide_eq_true in Ek|done|]. by rewrite (startsSite_sim _ _ H).
Qed.

Lemma unseparatedAddrWrap_sim ts ts' t b : similar ts ts' -> unseparatedAddrWrap ts = Ok (t, b) -> exists t', unseparatedAddrWrap ts' = Ok (t', b).
Proof.
  intros H. destruct (similar_head _ _ H) as (t0 & r & t' & r' & -> & -> & _ & Ht). unfold unseparatedAddrWrap. cbn [cur obind]. intros [= <- <-]. rewrite (isKind_same _ _ _ Ht).
  exists t'. do 2 f_equal. destruct (isKind TokenWord t0) eqn:Ek; cbn [negb orb]; [|done].
  destruct (word_same t0 t') as (_ & -> & ->); [by apply bool_decide_eq_true in Ek|done|]. by rewrite (addrWrap_sim _ _ H).
Qed.

Lemma eraseFile_site f f' addrs xs xs' p p' : eraseFile f' = eraseFile f -> map eraseNode xs' = map eraseNode xs ->
  eraseFile (mkCFile (Global f') (Sites f' ++ [mkSite addrs xs' p']) (f_body f')) = eraseFile (mkCFile (Global f) (Sites f ++ [mkSite addrs xs p]) (f_body f)).
Proof. unfold eraseFile. intros H Hx. injection H as Hg Hs Hb. cbn. by rewrite !map_app, Hg, Hs, Hb; cbn; rewrite Hx. Qed.

Lemma eraseFile_stmt f f' x x' : eraseFile f' = eraseFile f -> eraseNode x' = eraseNode x ->
  eraseFile (mkCFile (Global f') (Sites f') (f_body f' ++ [x'])) = eraseFile (mkCFile (Global f) (Sites f) (f_body f ++ [x])).
Proof. unfold eraseFile. intros H Hx. injection H as Hg Hs Hb. cbn. by rewrite !map_app, Hg, Hs, Hb; cbn; rewrite Hx. Qed.

Lemma fileLoop_sim n : forall n' ts ts' f f' g, fileLoop [] n ts f = Ok g -> similar ts ts' -> (length ts' < n')%nat -> eraseFile f' = eraseFile f ->
  exists g', fileLoop [] n' ts' f' = Ok g' /\ eraseFile g' = eraseFile g.
Proof.
  induction n as [|n IH]; intros n' ts ts' f f' g H Hsim Hl Hf; [done|]. destruct n' as [|n']; [lia|]. cbn [fileLoop] in *.
  destruct (similar_head _ _ Hsim) as (t & r & t' & r' & -> & -> & _ & Ht). cbn [cur obind] in *. rewrite !(isKind_same _ _ _ Ht).
  destruct (isKind TokenEOF t); [injection H as <-; eauto|]. destruct (isKind TokenCloseBrace t); [done|].
  rewrite (startsSiteBlock_sim _ _ Hsim). destruct (startsSiteBlock (t :: r)) as [site| |]; [|done|done]. cbn [obind] in *. destruct site.
  - unfold parseSite in *. cbn [cur obind] in *. destruct (siteAddresses [] (t :: r) []) as [[[addrs o] rest]| |] eqn:Es; [|done|done]. cbn [obind] in *.
    destruct (siteAddresses_sim _ _ Hsim _ _ _ _ Es) as (o' & rest' & -> & Ho & Hso & Hlr). cbn [obind].
    destruct (parseBlockBody [] n 0 o rest) as [[xs rst]| |] eqn:Eb; [|done|done]. cbn [obind] in *.
    destruct (block_sim n n' _ _ _ _ _ _ Ho Eb Hso) as (xs' & r2' & -> & Hx & Hs2 & Hl2); [lia|]. cbn [obind].
    eapply IH; [exact H|done|lia|by apply eraseFile_site].
  - destruct (unseparatedAddrWrap (t :: r)) as [[tok bad]| |] eqn:Eu; [|done|done]. destruct (unseparatedAddrWrap_sim _ _ _ _ Hsim Eu) as [tok' ->]. cbn [obind] in *.
    destruct bad; [done|]. destruct (parseStatement [] (parseBlockBody [] n 0) (t :: r)) as [[x rst]| |] eqn:Es; [|done|done]. cbn [obind] in *.
    destruct (statement_sim n n' _ _ _ _ Es Hsim) as (x' & r2' & -> & Hx & Hs2 & Hl2); [lia|]. cbn [obind].
    eapply IH; [exact H|done|lia|by apply eraseFile_stmt].
Qed.

(** Streams that are similar after their leading separators parse to the same file. *)
Lemma parseFile_sim s ts s' ts' f : Forall is_sep s -> Forall is_sep s' -> similar ts ts' -> parseFile [] (s ++ ts) = Ok f ->
  exists f', parseFile [] (s' ++ ts') = Ok f' /\ eraseFile f' = eraseFile f.
Proof.
  intros Hs Hs' Hsim. destruct (similar_head _ _ Hsim) as (t & r & t' & r' & -> & -> & _ & Ht). unfold parseFile.
  destruct (skip_similar s t r s' t' r') as [-> ->]; try done. cbn [cur obind]. rewrite (isKind_same _ _ _ Ht).
  destruct (isKind TokenOpenBrace t) eqn:Ek; [|intros H; eapply fileLoop_sim; [exact H|done|rewrite length_app; lia|done]].
  apply bool_decide_eq_true in Ek. pose proof Ht as [Hk _]. unfold parseGlobalOptions. rewrite !pnext_consume by congruence. cbn [obind]. intros H.
  destruct (parseBlockBody [] _ 0 t r) as [[xs rst]| |] eqn:Eb; [|done|done]. cbn [obind] in *.
  destruct (block_sim _ (S (length (s' ++ t' :: r'))) _ _ _ _ _ _ Ek Eb Hsim) as (xs' & r2' & -> & Hx & Hs2 & Hl2); [rewrite length_app; cbn; lia|]. cbn [obind].
  eapply fileLoop_sim; [exact H|done|rewrite length_app; cbn; lia|]. unfold eraseFile. cbn. by rewrite Hx.
Qed.

(** ** What the formatter keeps *)

(** A word that is written as it was read: quoted, or in need of no quotes. *)
Definition plainToken (t : Token) : bool := negb (isKind TokenWord t) || Quoted t || negb (needsQuoting (Text t)).

(** No semicolon follows an address with a comma, [prev], before the next word or brace. *)
Fixpoint noCommaSemi (prev : bool) (ts : list Token) : bool :=
  match ts with
  | [] => true
  | t :: r =>
    match Kind t with
    | TokenWord => noCommaSemi (commaWord t) r
    | TokenSemicolon => negb prev && noCommaSemi prev r
    | TokenNewline | TokenComment => noCommaSemi prev r
    | _ => noCommaSemi false r
    end
  end.

Lemma noCommaSemi_seps b s u : Forall is_sep s -> noCommaSemi b (s ++ u) = true -> hasSemi s = true -> b = false.
Proof.
  induction 1 as [|t s Ht _ IH]; [done|]. cbn [app noCommaSemi hasSemi existsb]. unfold isKind. unfold is_sep in Ht.
  destruct Ht as [->|[->| ->]]; cbn; try done. by destruct b.
Qed.

Lemma noCommaSemi_tail b t r : noCommaSemi b (t :: r) = true -> exists b', noCommaSemi b' r = true.
Proof. cbn [noCommaSemi]. destruct (Kind t); eauto. intros [_ H]%andb_true_iff. eauto. Qed.

Definition related (s : fmtState) (ts out : list Token) : Prop :=
  exists s0 n u s0' n' u', ts = s0 ++ n :: u /\ out = s0' ++ n' :: u' /\ Forall is_sep s0 /\ Forall is_sep s0' /\ hasSemi s0' = false /\
    similar (n :: u) (n' :: u') /\
    (b_atLineStart s = false -> Kind n = TokenWord \/ Kind n = TokenOpenBrace -> s0 = [] /\ s0' = [] \/ breaks s0 = true /\ breaks s0' = true).

(** The comment that a brace keeps on its line. *)
Definition kept (c : option Token) : list Token := match c with Some c => [c] | None => [] end.

Lemma nl_token D : map shape_of D = [nlShape] -> exists n, D = [n] /\ Kind n = TokenNewline.
Proof. destruct D as [|n [|]]; try done. intros [Hn _]%cons_split. apply shape_inv in Hn as (Hk & _). eauto. Qed.

(** The separators that end a line of the output. *)
Lemma end_tokens D s : map shape_of D = endShapes s -> Forall is_sep D /\ hasSemi D = false /\ (b_atLineStart s = false -> breaks D = true).
Proof.
  unfold endShapes. destruct (b_atLineStart s); [intros ->%map_eq_nil; done|]. intros (n & -> & Hk)%nl_token.
  unfold is_sep, hasSemi, breaks, isKind. cbn. rewrite Hk. split_and!; [by constructor; [left|]|done|done].
Qed.

Lemma kept_tokens D c : map shape_of D = commentShapes c ++ [nlShape] -> Forall is_sep D /\ hasSemi D = false /\ D <> [].
Proof.
  intros (D1 & D2 & -> & H1 & (n & -> & Hk)%nl_token)%map_eq_app. assert (Forall is_sep D1 /\ hasSemi D1 = false) as [Hs Hh].
  { destruct c; cbn in H1; [|by apply map_eq_nil in H1 as ->]. destruct D1 as [|x [|]]; try done. apply cons_split in H1 as [Hx _]. apply shape_inv in Hx as (Hkx & _).
    unfold hasSemi, isKind. cbn. rewrite Hkx. split; [constructor; [unfold is_sep; tauto|done]|done]. }
  split_and!; [apply Forall_app; split; [done|constructor; [by left|done]]| |by destruct D1].
  unfold hasSemi in *. rewrite existsb_app, Hh. cbn. unfold isKind. by rewrite Hk.
Qed.

Lemma hasSemi_app s u : hasSemi (s ++ u) = hasSemi s || hasSemi u.
Proof. apply existsb_app. Qed.

Lemma breaks_app s u : breaks (s ++ u) = breaks s || breaks u.
Proof. apply existsb_app. Qed.

(** A significant token and what follows it. *)
Lemma similar_step t t' x x' s r out : ~ is_sep t -> Kind t <> TokenEOF -> sameToken t t' -> Forall is_sep x -> Forall is_sep x' -> hasSemi x' = false ->
  related s r out ->
  (Kind t = TokenWord -> x = [] /\ x' = [] /\ b_atLineStart s = false /\ noCommaSemi (commaWord t) r = true) -> (Kind t = TokenCloseBrace -> x' <> []) ->
  similar (t :: x ++ r) (t' :: x' ++ out).
Proof.
  intros Hn He Ht Hx Hx' Hh (s0 & n & u & s0' & n' & u' & -> & -> & Hs & Hs' & Hh' & Hsim & Hl) Hw Hc. rewrite !app_assoc. constructor; try done.
  - by apply Forall_app.
  - by apply Forall_app.
  - split; [by rewrite hasSemi_app, Hh, Hh'|]. destruct (Kind t) eqn:Ek; try done.
    + destruct Hw as (-> & -> & Ha & Hcs); [done|]. cbn [app]. specialize (Hl Ha).
      destruct (Kind n); try done; (destruct Hl as [?|[Hb Hb']]; [tauto|by left|right; split_and!; [done|done|]; intros Hsemi; exact (noCommaSemi_seps _ _ _ Hs Hcs Hsemi)]).
    + specialize (Hc eq_refl). by destruct x'.
Qed.

Lemma related_start s t u t' u' : similar (t :: u) (t' :: u') -> related s (t :: u) (t' :: u').
Proof. intros H. exists [], t, u, [], t', u'. split_and!; try done. intros _ _. by left. Qed.

Lemma comment_follows t r s0 n u : Kind t = TokenComment -> comments_end (t :: r) -> r = s0 ++ n :: u -> Forall is_sep s0 ->
  Kind n = TokenWord \/ Kind n = TokenOpenBrace -> breaks s0 = true.
Proof.
  intros Hk [Hc _] -> Hs Hn. destruct (Hc Hk) as (t2 & r2 & E & Ht2). destruct s0 as [|y s0]; injection E as <- _; [naive_solver congruence|].
  inversion Hs as [|? ? Hy _]; subst. unfold breaks, isKind. cbn. unfold is_sep in Hy. destruct Ht2 as [Ht2|Ht2]; rewrite Ht2 in *; [done|naive_solver].
Qed.

Lemma formatToken_start t c s : Kind t <> TokenEOF -> b_atLineStart (formatToken t c s) = negb (bool_decide (Kind t = TokenWord)).
Proof.
  intros He. unfold formatToken. destruct (Kind t) eqn:Ek; try done; cbn [set_blank set_depth b_atLineStart]; rewrite ?newlineIfNeeded_start; try done.
  unfold writeWord, writeStr. cbn. apply startItem_start.
Qed.

Lemma related_sep t s s1 D r out : is_sep t -> related s1 r out -> Forall is_sep D -> hasSemi D = false ->
  (b_atLineStart s = false -> breaks D = true /\ forall s0 n u, r = s0 ++ n :: u -> Forall is_sep s0 -> Kind n = TokenWord \/ Kind n = TokenOpenBrace -> breaks (t :: s0) = true) ->
  related s (t :: r) (D ++ out).
Proof.
  intros Ht (s0 & n & u & s0' & n' & u' & -> & -> & Hs & Hs' & Hh' & Hsim & _) HD Hh Hb. exists (t :: s0), n, u, (D ++ s0'), n', u'.
  split_and!; [done|by rewrite app_assoc|by constructor|by apply Forall_app|by rewrite hasSemi_app, Hh, Hh'|done|].
  intros Ha Hn. right. destruct (Hb Ha) as [HbD Hbs]. split; [by eapply Hbs|by rewrite breaks_app, HbD].
Qed.

Lemma related_step t c s D r out b : Kind t <> TokenEOF -> comments_end (t :: kept c ++ r) -> plainToken t = true -> noCommaSemi b (t :: kept c ++ r) = true ->
  Forall is_sep (kept c) -> (c = None \/ isBrace t = true) -> map shape_of D = stepShapes t c s -> related (formatToken t c s) r out -> related s (t :: kept c ++ r) (D ++ out).
Proof.
  intros He Hce Hp Hcs Hkc Hc Hm Hrel. unfold stepShapes in Hm. pose proof (formatToken_start t c s He) as Hst.
  assert (isBrace t = false -> c = None) as Hnone by (destruct Hc as [-> |Hb]; [done|congruence]).
  rewrite (isBrace_kind t _ eq_refl) in Hnone. destruct (Kind t) eqn:Ek; [..|done].
  - rewrite (Hnone eq_refl) in *. destruct D as [|w [|]]; try done. apply cons_split in Hm as [Hw _]. apply shape_inv in Hw as (Hkw & Htw & Hqw & _). cbn [app]. cbn [noCommaSemi] in Hcs. rewrite Ek in Hcs.
    apply related_start, (similar_step t w [] []  (formatToken t None s)); try done; [unfold is_sep; rewrite Ek; naive_solver|congruence| |congruence].
    split; [congruence|]. intros _. split; [done|]. rewrite Hqw. unfold plainToken in Hp. rewrite isKind_true in Hp by done. by destruct (Quoted t), (needsQuoting (Text t)).
  - destruct D as [|w D]; [done|]. apply cons_split in Hm as [Hw Hm]. apply shape_inv in Hw as (Hkw & _). cbn [app]. destruct (kept_tokens _ _ Hm) as (HD & Hh & Hne).
    apply related_start, (similar_step t w _ _ (formatToken t c s)); try done; [unfold is_sep; rewrite Ek; naive_solver|congruence| |congruence].
    split; [congruence|congruence].
  - apply map_eq_app in Hm as (D1 & D2 & -> & Hm1 & Hm2). destruct D2 as [|w D]; [done|]. apply cons_split in Hm2 as [Hw Hm]. apply shape_inv in Hw as (Hkw & _).
    destruct (kept_tokens _ _ Hm) as (HD & Hh & Hne). destruct (end_tokens _ _ Hm1) as (Hs1 & Hh1 & _). rewrite <- app_assoc. cbn [app].
    exists [], t, (kept c ++ r), D1, w, (D ++ out). split_and!; try done; [|naive_solver congruence].
    apply (similar_step t w _ _ (formatToken t c s)); try done; [unfold is_sep; rewrite Ek; naive_solver|congruence| |congruence].
    split; [congruence|congruence].
  - rewrite (Hnone eq_refl) in *. destruct (end_tokens _ _ Hm) as (HD & Hh & Hb). eapply related_sep; [unfold is_sep; tauto|done|done|done|].
    intros Ha. split; [by apply Hb|]. intros. unfold breaks, isKind. cbn. by rewrite Ek.
  - rewrite (Hnone eq_refl) in *. destruct (end_tokens _ _ Hm) as (HD & Hh & Hb). eapply related_sep; [unfold is_sep; tauto|done|done|done|].
    intros Ha. split; [by apply Hb|]. intros. unfold breaks, isKind. cbn. by rewrite Ek.
  - rewrite (Hnone eq_refl) in *. destruct D as [|w D]; [done|]. apply cons_split in Hm as [Hw (n & -> & Hkn)%nl_token]. apply shape_inv in Hw as (Hkw & _).
    eapply related_sep; [unfold is_sep; tauto|done| | |].
    + constructor; [|constructor; [|done]]; unfold is_sep; tauto.
    + unfold hasSemi, isKind. cbn. by rewrite Hkw, Hkn.
    + intros _. split; [unfold breaks, isKind; cbn; by rewrite Hkw, Hkn|]. intros s0 m u Hr Hs0 Hm. cbn [kept app] in Hce.
      unfold breaks. cbn [existsb]. fold (breaks s0). by rewrite (comment_follows t r s0 m u), orb_true_r.
Qed.

Lemma related_loop e ts : Kind e = TokenEOF -> forall s D b, eof_terminated ts -> comments_end ts -> forallb plainToken ts = true -> noCommaSemi b ts = true ->
  map shape_of D = emitted ts s -> related s ts (D ++ [e]).
Proof.
  intros He. induction ts as [|t r Ec IH|t c r Hb Ec IH] using format_ind; intros s D b Hterm Hce Hp Hcs Hm.
  - by apply eof_nonempty in Hterm as (? & ? & ?).
  - cbn [emitted] in Hm. rewrite Ec in Hm. cbn [forallb] in Hp. apply andb_true_iff in Hp as [Hpt Hp]. destruct (decide (Kind t = TokenEOF)) as [Hk|Hk].
    + rewrite (eof_head _ _ Hterm Hk) in *. unfold stepShapes in Hm. rewrite Hk in Hm. cbn [app emitted] in Hm. destruct (end_tokens _ _ Hm) as (HD & Hh & _).
      exists [], t, [], D, e, []. split_and!; try done; [|naive_solver congruence]. constructor; [done|]. split; congruence.
    + apply map_eq_app in Hm as (D1 & D2 & -> & Hm1 & Hm2). rewrite <- app_assoc. destruct (noCommaSemi_tail _ _ _ Hcs) as [b' Hcs'].
      eapply (related_step t None s D1 r _ b); try done; [by left|]. eapply IH; [by eapply eof_tail|apply Hce|done|exact Hcs'|done].
  - cbn [emitted] in Hm. rewrite Hb, Ec in Hm. destruct (trailingCommentAfter_Some _ _ _ Ec) as (r' & [= <-] & Hkc & _).
    assert (Kind t <> TokenEOF) as Hk by (intros Hk; by rewrite (isBrace_kind _ _ Hk) in Hb).
    cbn [forallb] in Hp. apply andb_true_iff in Hp as [Hpt [_ Hp]%andb_true_iff].
    destruct (noCommaSemi_tail _ _ _ Hcs) as [b1 Hcs1]. destruct (noCommaSemi_tail _ _ _ Hcs1) as [b2 Hcs2].
    apply map_eq_app in Hm as (D1 & D2 & -> & Hm1 & Hm2). rewrite <- app_assoc.
    eapply (related_step t (Some c) s D1 r _ b); try done; [constructor; [unfold is_sep; tauto|done]|by right|].
    eapply IH; [eapply eof_tail; [by eapply eof_tail|congruence]|apply Hce|done|exact Hcs2|done].
Qed.

(** ** The comments *)

Definition comments (ts : list Token) : list bytes := map Text (List.filter (isKind TokenComment) ts).

Definition commentTexts (shs : list shape) : list bytes := map sh_text (List.filter (fun sh => bool_decide (sh_kind sh = TokenComment)) shs).

Lemma comments_shapes ts : comments ts = commentTexts (map shape_of ts).
Proof.
  unfold comments, commentTexts, isKind. induction ts as [|t ts IH]; [done|]. cbn. destruct (bool_decide (Kind t = TokenComment)); cbn; by rewrite IH.
Qed.

Lemma commentTexts_app a b : commentTexts (a ++ b) = commentTexts a ++ commentTexts b.
Proof. unfold commentTexts. by rewrite List.filter_app, map_app. Qed.

Lemma comments_app a b : comments (a ++ b) = comments a ++ comments b.
Proof. unfold comments. by rewrite List.filter_app, map_app. Qed.

Lemma stepShapes_comments t c s : c = None \/ isBrace t = true -> Forall (fun k => Kind k = TokenComment) (kept c) ->
  commentTexts (stepShapes t c s) = comments (t :: kept c).
Proof.
  intros Hc Hk. assert (commentTexts (commentShapes c ++ [nlShape]) = comments (kept c)) as Hkept.
  { destruct c as [c|]; [|done]. inversion Hk as [|? ? Hkc _]; subst. unfold comments, isKind. cbn. by rewrite Hkc. }
  assert (forall s, commentTexts (endShapes s) = []) as Hend by (intros s'; unfold endShapes; by destruct (b_atLineStart s')).
  assert (isBrace t = false -> c = None) as Hnone by (destruct Hc as [-> |Hb]; [done|congruence]).
  rewrite (isBrace_kind t _ eq_refl) in Hnone. unfold stepShapes. change (t :: kept c) with ([t] ++ kept c). rewrite comments_app.
  unfold comments at 1, isKind. cbn [List.filter]. destruct (Kind t); cbn in Hnone |- *; try (rewrite Hnone by done; try done; apply Hend); try done.
  rewrite commentTexts_app, Hend. done.
Qed.

Lemma emitted_comments ts : forall s, commentTexts (emitted ts s) = comments ts.
Proof.
  induction ts as [|t r Ec IH|t c r Hb Ec IH] using format_ind; intros s; cbn [emitted].
  - unfold endShapes. by destruct (b_atLineStart s).
  - rewrite Ec, commentTexts_app, IH, (stepShapes_comments t None) by (by constructor || by left). by rewrite <- comments_app.
  - rewrite Hb, Ec, commentTexts_app, IH. destruct (trailingCommentAfter_Some _ _ _ Ec) as (r' & _ & Hkc & _).
    rewrite (stepShapes_comments t (Some c)), <- comments_app; [done|by right|by constructor].
Qed.

(** ** The formatter *)

(** C8. Formatting a file whose bare words are written without quotes, and in which no
    semicolon ends a list of addresses, succeeds with a file that parses to the same
    syntax but for positions, has the same comments in the same order, and is its own
    formatted version. *)
Theorem Format_roundtrip src ts f : tokenize [] src = Ok ts -> Parse [] src = Ok f -> forallb plainToken ts = true -> noCommaSemi false ts = true ->
  exists out, Format src = Ok out /\
    (HasPrefix out BOM = false ->
      exists ts' f', tokenize [] out = Ok ts' /\ comments ts' = comments ts /\ Parse [] out = Ok f' /\ eraseFile f' = eraseFile f /\ Format out = Ok out).
Proof.
  intros Ht Hf Hp Hcs. destruct (tokenize_ok _ _ _ Ht) as (Hok & Hce & Hterm). pose proof (Format_out _ _ _ Ht Hf) as Hout.
  eexists. split; [exact Hout|]. intros Hbom. destruct (tokenize_output ts Hok Hbom) as (D & e & Ht' & Hm & Hl & He). apply shape_inv in He as (He & _).
  destruct (related_loop e ts He initFmt D false) as (s0 & n & u & s0' & n' & u' & E & E' & Hs & Hs' & _ & Hsim & _); try done.
  unfold Parse in Hf. rewrite Ht, E in Hf. cbn [lift_lex obind] in Hf. destruct (parseFile_sim s0 _ s0' _ f Hs Hs' Hsim Hf) as (f' & Hf' & Hef).
  assert (Parse [] (b_out (newlineIfNeeded (formatLoop ts initFmt))) = Ok f') as Hpo by (unfold Parse; rewrite Ht', E'; exact Hf').
  exists (D ++ [e]), f'. split_and!; try done.
  - rewrite comments_app, comments_shapes, Hm, emitted_comments. unfold comments, isKind. cbn. rewrite He. cbn. apply app_nil_r.
  - rewrite (Format_out _ _ _ Ht' Hpo). f_equal. apply formatLoop_again; try done; [by right].
Qed.

Definition roundtrip_source : bytes :=
  lines ["# sites"; "{ debug on; }"; "a.com,"; "b.com { # both"; EmptyString; "  tls { acme me };@x path /a"; "   pass @x \"; "    'q r'  # why"; "}"]%string.

Definition roundtrip_tokens : list Token := match tokenize [] roundtrip_source with Ok ts => ts | _ => [] end.
Definition roundtrip_file : CFile := match Parse [] roundtrip_source with Ok f => f | _ => mkCFile None [] [] end.

Lemma Format_roundtrip_witness : exists out, Format roundtrip_source = Ok out /\ HasPrefix out BOM = false /\ out <> roundtrip_source /\ Format out = Ok out.
Proof.
  assert (tokenize [] roundtrip_source = Ok roundtrip_tokens) as H1 by (vm_compute; reflexivity).
  assert (Parse [] roundtrip_source = Ok roundtrip_file) as H2 by (vm_compute; reflexivity).
  assert (forallb plainToken roundtrip_tokens = true) as H3 by (vm_compute; reflexivity).
  assert (noCommaSemi false roundtrip_tokens = true) as H4 by (vm_compute; reflexivity).
  pose proof (Format_roundtrip roundtrip_source roundtrip_tokens roundtrip_file H1 H2 H3 H4) as H. destruct H as (out & Ho & Hr).
  assert (HasPrefix out BOM = false) as Hb by (vm_compute in Ho; injection Ho as <-; vm_compute; reflexivity).
  exists out. destruct (Hr Hb) as (ts' & f' & _ & _ & _ & _ & Hf). split; [exact Ho|split; [exact Hb|split; [|exact Hf]]].
  intros E. rewrite E in Ho. vm_compute in Ho. discriminate.
Defined.

(** The parse of a formatted file. *)
Definition reparsed (src : bytes) : outcome perr CFile := let! out := Format src in Parse [] out.

(** The addresses of the sites, and which of the top-level statements define matchers. *)
Definition summary (m : outcome perr CFile) : outcome perr (list (list bytes) * list bool) :=
  let! f := m in Ok (map Addresses (Sites f), map (fun x => match x with MatcherDef _ _ _ _ => true | _ => false end) (f_body f)).

(** ** Names the formatter quotes *)

Lemma emitted_plain t r s : isBrace t = false -> emitted (t :: r) s = stepShapes t None s ++ emitted r (formatToken t None s).
Proof. intros E. cbn [emitted]. by rewrite E. Qed.

Lemma sep_not_brace t : is_sep t -> isBrace t = false.
Proof. unfold is_sep, isBrace. intros H. apply bool_decide_eq_false. naive_solver congruence. Qed.

Lemma map_shape_app D l1 l2 : map shape_of D = l1 ++ l2 -> exists D1 D2, D = D1 ++ D2 /\ map shape_of D1 = l1 /\ map shape_of D2 = l2.
Proof. intros E. apply map_eq_app in E as (D1 & D2 & -> & E1 & E2). by exists D1, D2. Qed.

(** Separators give separators. *)
Lemma sep_step t s D : is_sep t -> map shape_of D = stepShapes t None s -> Forall is_sep D.
Proof.
  intros Ht E. unfold stepShapes in E. destruct Ht as [Ht|[Ht|Ht]]; rewrite Ht in E.
  - by apply end_tokens in E as (H & _).
  - by apply end_tokens in E as (H & _).
  - apply map_eq_cons in E as (c & D' & -> & Hc & E). apply shape_inv in Hc as (Hc & _). apply nl_token in E as (n & -> & Hn).
    constructor; [by right; right|]. constructor; [by left|constructor].
Qed.

Lemma leading_seps sp nm r s D : Forall is_sep sp -> is_word nm -> map shape_of D = emitted (sp ++ nm :: r) s ->
  exists D1 D2 s', D = D1 ++ D2 /\ Forall is_sep D1 /\ map shape_of D2 = emitted (nm :: r) s'.
Proof.
  intros Hs. revert s D. induction Hs as [|t sp Ht _ IH]; intros s D Hn E; [by exists [], D, s|].
  cbn [app] in E. rewrite emitted_plain in E by (by apply sep_not_brace). apply map_shape_app in E as (D1 & D2 & -> & E1 & E2).
  destruct (IH _ _ Hn E2) as (D3 & D4 & s' & -> & H3 & H4). exists (D1 ++ D3), D4, s'. rewrite app_assoc. split_and!; [done| |done].
  apply Forall_app. split; [by eapply sep_step|done].
Qed.

(** The words of a line that ends without a brace are followed by none. *)
Lemma line_no_brace ws mid rest s D tl : Forall is_word ws -> ends_stmt mid rest -> eof_terminated (ws ++ mid) -> b_atLineStart s = false ->
  map shape_of D = emitted (ws ++ mid) s -> startsSiteBlock_loop (D ++ tl) false = false.
Proof.
  intros Hw Hm. revert s D. induction Hw as [|w ws Hw _ IH]; intros s D He Hs E.
  - assert (forall D', map shape_of D' = [nlShape] -> forall l, startsSiteBlock_loop (D' ++ l) false = false) as Hnl.
    { intros D' E' l. apply nl_token in E' as (n & -> & Hn). cbn. by rewrite Hn. }
    cbn [app] in *. destruct Hm as [(t & Ht & ->)|(-> & t & r & -> & Ht)].
    + rewrite emitted_plain in E by (by apply sep_not_brace). apply map_shape_app in E as (D1 & D2 & -> & E1 & _).
      unfold stepShapes, endShapes in E1. cbn [beginToken b_atLineStart] in E1. destruct Ht as [Ht|[Ht|Ht]]; rewrite Ht, ?Hs in E1; rewrite <- app_assoc; [by apply Hnl..|].
      apply map_eq_cons in E1 as (c & D' & -> & Hc & E1). apply shape_inv in Hc as (Hc & _). cbn [app startsSiteBlock_loop]. rewrite Hc. by apply Hnl.
    + destruct Ht as [Ht|Ht].
      * cbn [emitted] in E. assert (exists c l, emitted (t :: r) s = stepShapes t c s ++ l) as (c & l & E').
        { cbn [emitted]. destruct (if isBrace t then _ else _), r; eauto. }
        cbn [emitted] in E'. rewrite E' in E. apply map_shape_app in E as (D1 & D2 & -> & E1 & _). unfold stepShapes in E1. rewrite Ht in E1.
        unfold endShapes in E1. cbn [beginToken b_atLineStart] in E1. rewrite Hs in E1. apply map_shape_app in E1 as (D3 & D4 & -> & E3 & _).
        rewrite <- !app_assoc. by apply Hnl.
      * destruct He as (init & e & Ei & Hek & Hinit). destruct init as [|i init]; [|cbn in Ei; injection Ei as -> _; inversion Hinit; congruence].
        cbn in Ei. injection Ei as -> ->. rewrite emitted_plain in E by (unfold isBrace; apply bool_decide_eq_false; naive_solver congruence).
        unfold stepShapes, formatToken in E. rewrite Ht in E. cbn [app emitted] in E. unfold endShapes in E. cbn [beginToken b_atLineStart] in E.
        rewrite Hs in E. by apply Hnl.
  - cbn [app] in E, He. rewrite emitted_plain in E by (unfold isBrace; apply bool_decide_eq_false; unfold is_word in Hw; naive_solver congruence).
    apply map_shape_app in E as (D1 & D2 & -> & E1 & E2). unfold stepShapes in E1. rewrite Hw in E1.
    apply map_eq_cons in E1 as (w' & D' & -> & Hw' & E1). apply map_eq_nil in E1 as ->. apply shape_inv in Hw' as (Hk & _). cbn [app startsSiteBlock_loop].
    rewrite Hk. match goal with |- startsSiteBlock_loop _ (if ?c then false else false) = _ => replace (if c then false else false) with false by (by destruct c) end. apply (IH (formatToken w None s)); [| |done].
    + apply (eof_suffix [w]); [done|]. destruct Hm as [(? & _ & ->)|(-> & ? & ? & -> & _)]; by destruct ws.
    + rewrite formatToken_start by (unfold is_word in Hw; congruence). by rewrite bool_decide_eq_true_2.
Qed.
Lemma fileLoop_body n : forall ts f g, fileLoop [] n ts f = Ok g -> exists l, f_body g = f_body f ++ l.
Proof.
  induction n as [|n IH]; intros ts f g E; [done|]. cbn [fileLoop] in E. inv_obind. destruct (isKind TokenEOF a); [injection E as <-; exists []; by rewrite app_nil_r|].
  destruct (isKind TokenCloseBrace a); [done|]. inv_obind. destruct a0.
  - inv_obind. destruct a0 as [st ts']. by apply IH in E.
  - inv_obind. destruct a0 as [tok bad]. destruct bad; [done|]. inv_obind. destruct a0 as [x ts'].
    apply IH in E as [l E]. cbn [f_body] in E. exists (x :: l). by rewrite E, <- app_assoc.
Qed.

(** The first statement of a file that does not open with a site or a block. *)
Lemma parseFile_first ts nm r f : skipSeparators ts = nm :: r -> is_word nm -> startsSiteBlock (nm :: r) = Ok false -> parseFile [] ts = Ok f ->
  exists x rest l n, parseStatement [] (parseBlockBody [] n 0) (nm :: r) = Ok (x, rest) /\ f_body f = x :: l.
Proof.
  intros Es Hw Hs E. unfold parseFile in E. rewrite Es in E. cbn [cur obind] in E.
  assert (forall k, k <> TokenWord -> isKind k nm = false) as Hk by (intros k Hk; unfold isKind; rewrite Hw; by apply bool_decide_eq_false).
  rewrite (Hk TokenOpenBrace) in E by done. cbn [fileLoop cur obind] in E. rewrite (Hk TokenEOF), (Hk TokenCloseBrace), Hs in E by done. cbn [obind] in E.
  inv_obind. destruct a as [tok bad]. destruct bad; [done|]. inv_obind. destruct a as [x rest].
  apply fileLoop_body in E as [l E]. cbn [f_body app] in E. by exists x, rest, l, (length ts).
Qed.

(** C35. Formatting can change what a file means: whenever the first statement of a file
    defines a matcher and its name, written bare, is a word that the formatter quotes
    (with a quote in it or a backslash at its end, which the lexer accepts in a bare
    word), the formatted file, if it parses at all, begins with a directive of that name
    instead: a quoted word never names a matcher. *)
Theorem format_changes_meaning src ts f nm r :
  tokenize [] src = Ok ts -> Parse [] src = Ok f -> skipSeparators ts = nm :: r -> is_word nm ->
  names_matcher nm = true -> needsQuoting (Text nm) = true ->
  (exists ty args pos l, f_body f = MatcherDef (TrimPrefix (Text nm) (go "@")) ty args pos :: l) /\
  exists out, Format src = Ok out /\
    (HasPrefix out BOM = false -> forall f', Parse [] out = Ok f' ->
     exists args block hasBlock pos l, f_body f' = Directive (Text nm) args block hasBlock pos :: l).
Proof.
  intros Ht Hf Hsk Hw Hnm Hq. destruct (tokenize_ok _ _ _ Ht) as (Hok & _ & Heof).
  assert (startsSiteBlock (nm :: r) = Ok false) as Hs.
  { unfold startsSiteBlock, isKind. cbn [cur obind]. rewrite bool_decide_eq_true_2 by done. unfold names_matcher in Hnm. cbn [andb]. by rewrite Hnm. }
  assert (parseFile [] ts = Ok f) as Hpf by (unfold Parse in Hf; rewrite Ht in Hf; exact Hf).
  destruct (parseFile_first ts nm r f Hsk Hw Hs Hpf) as (x & rest & l & n & Hst & Hb).
  unfold parseStatement in Hst. cbn [cur obind] in Hst. unfold isKind in Hst. rewrite bool_decide_eq_true_2 in Hst by done.
  fold (names_matcher nm) in Hst. rewrite Hnm in Hst. cbn [negb] in Hst.
  apply (parseMatcherDef_sound [] 0) in Hst as (st & mid & Est & Hg & Hend); [|done|done].
  inversion Hg as [k nm0 ty args Hw0 Hn0 Ht0 Hty Htw Hargs Ek Ex Ey|k nm0 args Hw0 Hn0 Hargs|]; subst;
    [|injection Est as -> _; congruence].
  injection Est as En Er. subst nm0 r. split; [by rewrite Hb; do 4 eexists|].
  destruct (skipSeparators_split ts) as (sp & Ets & Hsp & _). rewrite Hsk in Ets.
  exists (b_out (newlineIfNeeded (formatLoop ts initFmt))). split; [by eapply Format_out|]. intros Hbom f' Hf'.
  destruct (tokenize_output ts Hok Hbom) as (D & e & Hte & HD & _ & _).
  assert (parseFile [] (D ++ [e]) = Ok f') as Hpf' by (unfold Parse in Hf'; rewrite Hte in Hf'; exact Hf').
  rewrite Ets in HD. destruct (leading_seps _ _ _ _ _ Hsp Hw HD) as (D1 & D2 & s' & -> & H1 & H2).
  rewrite emitted_plain in H2 by (unfold isBrace; apply bool_decide_eq_false; unfold is_word in Hw; naive_solver congruence).
  apply map_shape_app in H2 as (D3 & D4 & -> & E3 & E4). unfold stepShapes in E3. rewrite Hw in E3. apply map_eq_cons in E3 as (w & D' & -> & Hsw & E3).
  apply map_eq_nil in E3 as ->. apply shape_inv in Hsw as (Hk & Htx & Hqd & _). rewrite Hq, orb_true_r in Hqd.
  rewrite <- !app_assoc in Hpf'. cbn [app] in Hpf'.
  assert (startsSiteBlock (w :: D4 ++ [e]) = Ok false) as Hs'.
  { unfold startsSiteBlock, isKind. cbn [cur obind startsSiteBlock_loop]. rewrite Hk, Hqd. cbn [negb orb]. rewrite andb_false_r. cbn [andb]. f_equal.
    apply (line_no_brace (ty :: args) mid rest (formatToken nm None s')); [by constructor|done| |rewrite formatToken_start by (unfold is_word in Hw; congruence); by rewrite bool_decide_eq_true_2|exact E4].
    rewrite Ets in Heof. apply (eof_suffix (sp ++ [nm])); [by rewrite <- app_assoc|done]. }
  destruct (parseFile_first (D1 ++ w :: D4 ++ [e]) w (D4 ++ [e]) f') as (x' & rest' & l' & n' & Hst' & Hb'); [|done|done|done|].
  { apply skipSeparators_seps; [done|]. unfold is_sep. rewrite Hk. naive_solver. }
  unfold parseStatement in Hst'. cbn [cur obind] in Hst'. unfold isKind in Hst'. rewrite bool_decide_eq_true_2, Hqd in Hst' by done. cbn [negb andb] in Hst'.
  unfold parseDirective in Hst'. rewrite pnext_word in Hst' by done. cbn [obind] in Hst'. inv_obind. destruct a as [args' ts']. inv_obind.
  rewrite Hb'. destruct (isKind TokenOpenBrace a); inv_obind; [destruct a0 as [? ?]; inv_obind; destruct a0 as [? ?]; inv_obind|]; injection Hst' as <- <-; rewrite Htx; by do 5 eexists.
Qed.

(** A matcher whose name holds a quote. *)
Definition quotedName : bytes := go "@a" ++ [Zbyte rDQ] ++ go "b".
Definition quotedSource : bytes := quotedName ++ go " path /x".

Lemma format_changes_meaning_witness :
  exists out f', Format quotedSource = Ok out /\ Parse [] out = Ok f' /\
    exists args block hasBlock pos l, f_body f' = Directive quotedName args block hasBlock pos :: l.
Proof.
  destruct (tokenize [] quotedSource) as [ts| |] eqn:E1; [|vm_compute in E1; discriminate E1..].
  destruct (Parse [] quotedSource) as [f| |] eqn:E2; [|vm_compute in E2; discriminate E2..].
  destruct (skipSeparators ts) as [|nm r] eqn:E3; [vm_compute in E1; injection E1 as <-; discriminate E3|].
  assert (is_word nm /\ names_matcher nm = true /\ needsQuoting (Text nm) = true /\ Text nm = quotedName) as (H1 & H2 & H3 & H4).
  { vm_compute in E1. injection E1 as <-. vm_compute in E3. injection E3 as <- <-. vm_compute. done. }
  destruct (format_changes_meaning quotedSource ts f nm r E1 E2 E3 H1 H2 H3) as (_ & out & Ho & Hn). rewrite H4 in Hn.
  assert (HasPrefix out BOM = false) as Hb by (vm_compute in Ho; injection Ho as <-; vm_compute; reflexivity).
  destruct (Parse [] out) as [f'| |] eqn:E4; [|vm_compute in Ho; injection Ho as <-; vm_compute in E4; discriminate E4..].
  exists out, f'. split; [exact Ho|]. split; [exact E4|]. exact (Hn Hb f' eq_refl).
Defined.

(** Two more files that parse and that [Format] does not keep: a semicolon after an
    address that ends with a comma is turned into a line break, and the directive
    joins the addresses of the site after it; the second of two byte order marks is left
    as the first of the output, and a second formatting removes it. *)
Example format_drops :
  (let src := go "foo,; bar { x }" in
    summary (Parse [] src) = Ok ([[go "bar"]], [false]) /\ summary (reparsed src) = Ok ([[go "foo"; go "bar"]], [])) /\
  (let out := BOM ++ go "x" ++ [Zbyte rNL] in
    Format (BOM ++ BOM ++ go "x") = Ok out /\ Format out = Ok (go "x" ++ [Zbyte rNL])).
Proof. repeat apply conj; vm_compute; reflexivity. Qed.
