(* ===== verification/Env.v ===== *)
(** * Environment placeholders ([internal/cadishfile/env.go])

    [SubstituteEnv] expands [{$VAR}] spans of the parsed arguments; generated
    configuration relies on [ContainsEnvPlaceholder] to reject values that
    would be expanded. *)

From stdpp Require Import base strings pretty numbers gmap list.
From S2P Require Import Prelude GoStrings Ast Lex Quote Parse.
Open Scope Z_scope.

Section Env.
(** [lookup name] is [Some value] for a set variable. *)
Context (lookup : bytes -> option bytes).

(** The expansion of the text between [{$] and [}]. *)
Definition envValue (spec : bytes) : bytes :=
  let '(name, def) := match IndexByte spec ":" with
    | Some colon => (take colon spec, Some (drop (S colon) spec))
    | None => (spec, None)
    end in
  match lookup name with
  | Some val => val
  | None => match def with Some d => d | None => [] end
  end.

Fixpoint expandEnv_loop (n : nat) (s : bytes) : bytes :=
  match n, s with
  | S n, c :: r =>
      match (if c =b "\" then r else []) with
      | e :: r' => c :: e :: expandEnv_loop n r'
      | [] =>
          if c =b "{" then
            match IndexByte s "}" with
            | None => s
            | Some e =>
                let inner := take (e - 1) r in
                let rest := drop (S e) s in
                if HasPrefix inner (go "$") then envValue (drop 1 inner) ++ expandEnv_loop n rest
                else take (S e) s ++ expandEnv_loop n rest
            end
          else c :: expandEnv_loop n r
      end
  | _, _ => []
  end.

Definition expandEnv (s : bytes) : bytes := expandEnv_loop (length s) s.

(** [substituteArg] *)
Definition substituteArg (a : Arg) : Arg :=
  match AKind a with
  | ArgPlaceholder =>
      let raw := expandEnv (Raw a) in
      mkArg raw (ArgQuoted a) (classifyArg raw (ArgQuoted a)) (APos a)
  | _ =>
      if ArgQuoted a && Contains (Raw a) (go "{$")
      then mkArg (expandEnv (Raw a)) (ArgQuoted a) (AKind a) (APos a)
      else a
  end.

Fixpoint substituteNode (x : Node) : Node :=
  match x with
  | MatcherDef n t args p => MatcherDef n t (map substituteArg args) p
  | Directive n args b h p => Directive n (map substituteArg args) (map substituteNode b) h p
  end.

Definition substituteNodes (xs : list Node) : list Node := map substituteNode xs.

(** [SubstituteEnv] *)
Definition SubstituteEnv (f : CFile) : CFile :=
  mkCFile (option_map (fun o => mkOptions (substituteNodes (o_body o)) (o_pos o)) (Global f))
    (map (fun s => mkSite (Addresses s) (substituteNodes (s_body s)) (s_pos s)) (Sites f))
    (substituteNodes (f_body f)).
End Env.

(** [ContainsEnvPlaceholder] *)
Fixpoint ContainsEnvPlaceholder (s : bytes) : bool :=
  match s with
  | [] | [_] => false
  | c :: ((d :: r') as r) =>
      if c =b "\" then ContainsEnvPlaceholder r'
      else if (c =b "{") && (d =b "$") then true
      else ContainsEnvPlaceholder r
  end.

Example expandEnv_example :
  expandEnv (fun n => if bool_decide (n = go "HOST") then Some (go "h1") else None)
    (go "a{$HOST}b{device}c{$PORT:80}d{$X}\{$HOST}") = go "ah1b{device}c80d\{$HOST}".
Proof. vm_compute. reflexivity. Qed.

(** ** Expansion never runs out of fuel *)

Lemma IndexByte_lt s c i : IndexByte s c = Some i -> (i < length s)%nat.
Proof. intros H. apply IndexByte_Some in H as (p & q & -> & <- & _). rewrite length_app. simpl. lia. Qed.

Lemma expandEnv_fuel lookup n s :
  (length s <= n)%nat -> expandEnv_loop lookup n s = expandEnv lookup s.
Proof.
  unfold expandEnv. remember (length s) as m eqn:Hm. revert s m Hm.
  induction n as [n IH] using lt_wf_ind. intros s m Hm Hn.
  destruct n as [|n]; [by replace m with 0%nat by lia|].
  destruct m as [|m]; [destruct s; [done|simpl in Hm; lia]|].
  destruct s as [|c r]; [done|]. simpl in Hm. injection Hm as Hm.
  assert (forall t, (length t <= m)%nat -> expandEnv_loop lookup n t = expandEnv_loop lookup m t) as Hr.
  { intros t Ht. rewrite (IH n (ltac:(lia)) t (length t) eq_refl) by lia.
    destruct (decide (m = n)) as [->|]; [by rewrite <- (IH n (ltac:(lia)) t (length t) eq_refl)|].
    by rewrite <- (IH m (ltac:(lia)) t (length t) eq_refl) by lia. }
  cbn [expandEnv_loop]. destruct (c =b "\").
  - destruct r as [|e r']; [|rewrite Hr; [done|simpl in Hm; lia]].
    destruct (c =b "{"); [|rewrite Hr; [done|simpl; lia]].
    destruct (IndexByte [c] "}") as [e|]; [|done].
    rewrite Hr; [done|]. rewrite length_drop. simpl. lia.
  - destruct (c =b "{"); [|rewrite Hr; [done|lia]].
    destruct (IndexByte (c :: r) "}") as [e|]; [|done].
    rewrite Hr; [done|]. rewrite length_drop. simpl. lia.
Qed.

(** ** Values without an environment placeholder are inert *)

Lemma ContainsEnv_tail c r :
  c <> "\"%char -> ContainsEnvPlaceholder (c :: r) = false -> ContainsEnvPlaceholder r = false.
Proof.
  intros Hc. destruct r as [|d r']; [done|]. cbn [ContainsEnvPlaceholder].
  destruct (Ascii.eqb_spec c "\"); [done|]. by destruct (_ && _).
Qed.

Lemma ContainsEnv_after_brace p rest :
  ContainsEnvPlaceholder (p ++ "}"%char :: rest) = false -> ContainsEnvPlaceholder rest = false.
Proof.
  remember (length p) as m eqn:Hm. revert p Hm.
  induction m as [m IH] using lt_wf_ind. intros p Hm H.
  destruct p as [|c p]; [by apply ContainsEnv_tail in H|].
  destruct (Ascii.eqb_spec c "\") as [->|Hc].
  - destruct p as [|d p]; cbn in H; [done|]. apply (IH (length p)) in H; [done|simpl in Hm; lia|done].
  - apply ContainsEnv_tail in H; [|done]. apply (IH (length p)) in H; [done|simpl in Hm; lia|done].
Qed.

Lemma expandEnv_inert lookup s :
  ContainsEnvPlaceholder s = false -> expandEnv lookup s = s.
Proof.
  unfold expandEnv. remember (length s) as n eqn:Hn. revert s Hn.
  induction n as [n IH] using lt_wf_ind. intros s Hn H.
  destruct s as [|c r]; [by subst|]. simpl in Hn. subst n. cbn [expandEnv_loop].
  assert (forall t, (length t <= length r)%nat -> ContainsEnvPlaceholder t = false ->
    expandEnv_loop lookup (length r) t = t) as Hrec.
  { intros t Ht Hc. rewrite expandEnv_fuel by lia. unfold expandEnv. apply (IH (length t)); [lia|done|done]. }
  destruct (Ascii.eqb_spec c "\") as [->|Hc].
  - destruct r as [|e r']; [by vm_compute|]. cbn in H. rewrite Hrec; [done|simpl; lia|done].
  - destruct (Ascii.eqb_spec c "{") as [->|Hb].
    + destruct (IndexByte ("{"%char :: r) "}") as [e|] eqn:Ei; [|done].
      apply IndexByte_Some in Ei as (p & q & Heq & <- & Hp).
      destruct p as [|x p]; [done|]. simpl in Heq. injection Heq as <- ->.
      assert (HasPrefix (take (length ("{"%char :: p) - 1) (p ++ "}"%char :: q)) (go "$") = false) as Hd.
      { apply not_true_iff_false. intros Hx. simpl in Hx. rewrite Nat.sub_0_r, take_app_length in Hx.
        apply HasPrefix_cons in Hx as (p' & -> & _). cbn in H. done. }
      rewrite Hd. cbn [length drop take]. rewrite Hrec.
      * change (take (S (S (length p))) ("{"%char :: p ++ "}"%char :: q) ++ drop (S (S (length p))) ("{"%char :: p ++ "}"%char :: q)
                = "{"%char :: p ++ "}"%char :: q). apply take_drop.
      * rewrite length_drop. lia.
      * rewrite drop_app. replace (drop _ p) with ([] : bytes) by (symmetry; apply drop_ge; lia).
        replace (S (length p) - length p)%nat with 1%nat by lia. simpl. rewrite drop_0.
        apply (ContainsEnv_after_brace ("{"%char :: p)). exact H.
    + rewrite Hrec; [done|lia|by apply ContainsEnv_tail in H].
Qed.

(** A value that passes the [ContainsEnvPlaceholder] guard is inert: no
    environment, whatever it holds, changes the argument's text when the
    configuration is loaded. *)
Theorem guarded_value_inert lookup a :
  ContainsEnvPlaceholder (Raw a) = false -> Raw (substituteArg lookup a) = Raw a.
Proof.
  intros H. unfold substituteArg. destruct (AKind a); [|case_match; simpl|simpl];
    rewrite ?expandEnv_inert by done; try done. case_match; simpl; by rewrite ?expandEnv_inert.
Qed.

Lemma guarded_value_inert_witness :
  Raw (substituteArg (fun _ => Some (go "secret"))
         (mkArg (go "/a\{$ADMIN_TOKEN}") true ArgLiteral (mkPos [] 1 1))) = go "/a\{$ADMIN_TOKEN}".
Proof. apply (guarded_value_inert _ (mkArg (go "/a\{$ADMIN_TOKEN}") true ArgLiteral (mkPos [] 1 1))). reflexivity. Defined.

(** ** What an expansion yields *)

Lemma expandEnv_cons lookup c r :
  c <> "\"%char -> c <> "{"%char -> expandEnv lookup (c :: r) = c :: expandEnv lookup r.
Proof.
  intros H1 H2. unfold expandEnv at 1. cbn [length expandEnv_loop].
  destruct (Ascii.eqb_spec c "\"); [done|]. destruct (Ascii.eqb_spec c "{"); [done|].
  by rewrite expandEnv_fuel.
Qed.

Lemma expandEnv_plain lookup pre s :
  "\"%char ∉ pre -> "{"%char ∉ pre -> expandEnv lookup (pre ++ s) = pre ++ expandEnv lookup s.
Proof.
  induction pre as [|c pre IH]; intros H1 H2; [done|].
  apply not_elem_of_cons in H1 as [? ?], H2 as [? ?].
  simpl. rewrite expandEnv_cons by congruence. by rewrite IH.
Qed.

Lemma expandEnv_dollar lookup spec post :
  "}"%char ∉ spec ->
  expandEnv lookup ("{"%char :: ("$"%char :: spec) ++ "}"%char :: post)
  = envValue lookup spec ++ expandEnv lookup post.
Proof.
  intros H. remember ("$"%char :: spec) as inner eqn:Hi.
  assert ("}"%char ∉ "{"%char :: inner) as Hn by (subst; rewrite !not_elem_of_cons; done).
  unfold expandEnv at 1. cbn [length expandEnv_loop].
  change ("{" =b "\") with false. change ("{" =b "{") with true. cbn match.
  replace (IndexByte _ _) with (Some (length ("{"%char :: inner)))
    by (symmetry; exact (IndexByte_app ("{"%char :: inner) _ post Hn)).
  cbn [length Nat.sub]. rewrite Nat.sub_0_r, take_app_length.
  replace (HasPrefix inner (go "$")) with true by (symmetry; apply HasPrefix_spec; by exists spec).
  rewrite expandEnv_fuel by (rewrite length_drop; simpl; lia).
  subst inner. cbn [drop]. rewrite drop_0. f_equal. f_equal.
  transitivity (drop (length (spec ++ go "}")) ((spec ++ go "}") ++ post)); [|apply drop_app_length].
  rewrite length_app, <- app_assoc. simpl. f_equal. lia.
Qed.

(** Expanding a span: after any text without braces or backslashes, the
    span [{$SPEC}] is replaced by the value of the variable the part of [SPEC]
    before its first colon names, if it is set (even to the empty string), else
    by the default after that colon, else by nothing; what follows the span is
    expanded in turn. *)
Theorem expandEnv_span lookup pre spec post :
  "\"%char ∉ pre -> "{"%char ∉ pre -> "}"%char ∉ spec ->
  expandEnv lookup (pre ++ go "{$" ++ spec ++ go "}" ++ post)
  = pre ++ match IndexByte spec ":" with
           | None => default [] (lookup spec)
           | Some i => default (drop (S i) spec) (lookup (take i spec))
           end ++ expandEnv lookup post.
Proof.
  intros H1 H2 H3. rewrite expandEnv_plain by done. f_equal.
  change (go "{$" ++ spec ++ go "}" ++ post) with ("{"%char :: ("$"%char :: spec) ++ "}"%char :: post).
  rewrite expandEnv_dollar by done. apply (f_equal (fun v => v ++ expandEnv lookup post)).
  unfold envValue. destruct (IndexByte spec ":") as [i|]; [destruct (lookup (take i spec)) eqn:E|destruct (lookup spec) eqn:E];
    rewrite ?E; reflexivity.
Qed.

Lemma expandEnv_span_witness :
  expandEnv (fun n => if bool_decide (n = go "A") then Some [] else None)
    (go "x" ++ go "{$" ++ go "A:d" ++ go "}" ++ go "{$B:http://h}") = go "xhttp://h".
Proof.
  etransitivity; [apply (expandEnv_span (fun n => if bool_decide (n = go "A") then Some [] else None)
    (go "x") (go "A:d") (go "{$B:http://h}")); apply (bool_decide_unpack _); vm_compute; exact I
    |vm_compute; reflexivity].
Defined.
