(* ===== verification/Group.v ===== *)
(** * Site-group expansion ([internal/cadishfile/group.go])

    [ExpandGroups] rewrites each [group { … }] block into one ordinary site
    per tenant.  The rewriting is specified by the relation [expands]. *)

From stdpp Require Import base strings pretty numbers gmap list.
From S2P Require Import Prelude GoStrings Ast.
Open Scope Z_scope.

Definition groupAddress : bytes := go "group".

Definition singletonGroupDirectives : list bytes :=
  [go "cache"; go "cache_key"; go "tls"; go "cors"; go "device_detect"; go "geo"; go "tenant"].

Definition namedGroupDirectives : list bytes := [go "upstream"; go "cluster"; go "normalize"].

Definition isSingleton (name : bytes) : bool := bool_decide (name ∈ singletonGroupDirectives).
Definition isNamed (name : bytes) : bool := bool_decide (name ∈ namedGroupDirectives).

Inductive groupMsg : Type :=
  | MsgNoTenant
  | MsgTenantArity
  | MsgDuplicateTenant (name : bytes)
  | MsgTenantNoBlock (name : bytes)
  | MsgTenantNoHost (name : bytes).

Record GroupError : Type := mkGroupError { g_pos : Pos; g_msg : groupMsg }.

Definition IsGroup (s : Site) : bool := bool_decide (Addresses s = [groupAddress]).

(** The fields of a [tenant] directive. *)
Record tenantDir : Type := mkTenant {
  td_args : list Arg;
  td_block : list Node;
  td_hasBlock : bool;
  td_pos : Pos;
}.

(** The first loop of [expandGroup]: the shared nodes and the tenants. *)
Fixpoint partitionGroup (body : list Node) : list Node * list tenantDir :=
  match body with
  | [] => ([], [])
  | n :: rest =>
      let '(base, tenants) := partitionGroup rest in
      match n with
      | Directive name args block has pos =>
          if bool_decide (name = go "tenant") then (base, mkTenant args block has pos :: tenants)
          else (n :: base, tenants)
      | _ => (n :: base, tenants)
      end
  end.

(** The loop of [splitTenantBlock]. *)
Fixpoint splitHosts (block : list Node) : list bytes * list Node :=
  match block with
  | [] => ([], [])
  | n :: rest =>
      let '(hosts, overrides) := splitHosts rest in
      match n with
      | Directive name args _ _ _ =>
          if bool_decide (name = go "host") then (map Raw args ++ hosts, overrides)
          else (hosts, n :: overrides)
      | _ => (hosts, n :: overrides)
      end
  end.

Definition splitTenantBlock (td : tenantDir) (name : bytes)
    : outcome GroupError (list bytes * list Node) :=
  let '(hosts, overrides) := splitHosts (td_block td) in
  match hosts with
  | [] => Err (mkGroupError (td_pos td) (MsgTenantNoHost name))
  | _ => Ok (hosts, overrides)
  end.

(** The three sets [mergeBaseTenant] collects from the overrides. *)
Record overSets : Type := mkOver {
  overSingleton : gset bytes;
  overNamed : gset bytes;
  overMatcher : gset bytes;
}.

Definition NUL : ascii := Zbyte 0.
Definition namedKey (name : bytes) (a : Arg) : bytes := name ++ [NUL] ++ Raw a.

Definition noteOverride (o : overSets) (n : Node) : overSets :=
  match n with
  | Directive name args _ _ _ =>
      let o1 := if isSingleton name then mkOver ({[name]} ∪ overSingleton o) (overNamed o) (overMatcher o) else o in
      match args with
      | a :: _ =>
          if isNamed name then mkOver (overSingleton o1) ({[namedKey name a]} ∪ overNamed o1) (overMatcher o1) else o1
      | [] => o1
      end
  | MatcherDef name _ _ _ => mkOver (overSingleton o) (overNamed o) ({[name]} ∪ overMatcher o)
  end.

Definition overridesOf (overrides : list Node) : overSets :=
  fold_left noteOverride overrides (mkOver ∅ ∅ ∅).

(** The [continue]s of the last loop of [mergeBaseTenant]. *)
Definition dropped (o : overSets) (n : Node) : bool :=
  match n with
  | Directive name args _ _ _ =>
      (isSingleton name && bool_decide (name ∈ overSingleton o)) ||
      match args with
      | a :: _ => isNamed name && bool_decide (namedKey name a ∈ overNamed o)
      | [] => false
      end
  | MatcherDef name _ _ _ => bool_decide (name ∈ overMatcher o)
  end.

Definition tenantNode (name : bytes) (pos : Pos) : Node :=
  Directive (go "tenant") [mkArg name false ArgLiteral pos] [] false pos.

Definition mergeBaseTenant (base overrides : list Node) (name : bytes) (pos : Pos) : list Node :=
  let o := overridesOf overrides in
  tenantNode name pos :: overrides ++ List.filter (fun n => negb (dropped o n)) base.

(** The second loop of [expandGroup]. *)
Fixpoint expandTenants (base : list Node) (seenName : gset bytes) (tenants : list tenantDir)
    : outcome GroupError (list Site) :=
  match tenants with
  | [] => Ok []
  | td :: rest =>
      match td_args td with
      | [a] =>
          let name := Raw a in
          if bool_decide (name ∈ seenName) then Err (mkGroupError (td_pos td) (MsgDuplicateTenant name))
          else if negb (td_hasBlock td) then Err (mkGroupError (td_pos td) (MsgTenantNoBlock name))
          else
            let! (hosts, overrides) := splitTenantBlock td name in
            let body := mergeBaseTenant base overrides name (td_pos td) in
            let! out := expandTenants base ({[name]} ∪ seenName) rest in
            Ok (mkSite hosts body (td_pos td) :: out)
      | _ => Err (mkGroupError (td_pos td) MsgTenantArity)
      end
  end.

Definition expandGroup (g : Site) : outcome GroupError (list Site) :=
  let '(base, tenants) := partitionGroup (s_body g) in
  match tenants with
  | [] => Err (mkGroupError (s_pos g) MsgNoTenant)
  | _ => expandTenants base ∅ tenants
  end.

Fixpoint ExpandGroups (sites : list Site) : outcome GroupError (list Site) :=
  match sites with
  | [] => Ok []
  | s :: rest =>
      if IsGroup s then
        let! expanded := expandGroup s in
        let! out := ExpandGroups rest in
        Ok (expanded ++ out)
      else
        let! out := ExpandGroups rest in
        Ok (s :: out)
  end.

(** ** What expansion promises *)

(** An override node [o] replaces a base node [n]. *)
Inductive replaces : Node -> Node -> Prop :=
  | replaces_singleton name a b h p a' b' h' p' :
      name ∈ singletonGroupDirectives ->
      replaces (Directive name a b h p) (Directive name a' b' h' p')
  | replaces_named name x xs b h p x' xs' b' h' p' :
      name ∈ namedGroupDirectives -> Raw x = Raw x' ->
      replaces (Directive name (x :: xs) b h p) (Directive name (x' :: xs') b' h' p')
  | replaces_matcher name t a p t' a' p' :
      replaces (MatcherDef name t a p) (MatcherDef name t' a' p').

Definition isTenantNode (n : Node) : bool :=
  match n with Directive name _ _ _ _ => bool_decide (name = go "tenant") | _ => false end.

Definition isHostNode (n : Node) : bool :=
  match n with Directive name _ _ _ _ => bool_decide (name = go "host") | _ => false end.

Definition node_args (n : Node) : list bytes :=
  match n with Directive _ args _ _ _ | MatcherDef _ _ args _ => map Raw args end.

(** [kept base overrides l]: [l] is [base] without exactly the nodes some
    override replaces, in the same order. *)
Inductive kept (overrides : list Node) : list Node -> list Node -> Prop :=
  | kept_nil : kept overrides [] []
  | kept_drop n base l :
      Exists (fun o => replaces o n) overrides -> kept overrides base l -> kept overrides (n :: base) l
  | kept_keep n base l :
      ~ Exists (fun o => replaces o n) overrides -> kept overrides base l -> kept overrides (n :: base) (n :: l).

(** The site a [tenant NAME { … }] node of a group with shared nodes [base]
    stands for. *)
Inductive tenant_site (base : list Node) : Node -> bytes -> Site -> Prop :=
  | tenant_site_intro a block pos l :
      let hosts := flat_map node_args (List.filter isHostNode block) in
      let overrides := List.filter (fun n => negb (isHostNode n)) block in
      hosts <> [] -> kept overrides base l ->
      tenant_site base (Directive (go "tenant") [a] block true pos) (Raw a)
        (mkSite hosts (tenantNode (Raw a) pos :: overrides ++ l) pos).

(** The sites a site of the file stands for. *)
Inductive expands : Site -> list Site -> Prop :=
  | expands_plain s : Addresses s <> [groupAddress] -> expands s [s]
  | expands_group s names out :
      Addresses s = [groupAddress] -> out <> [] -> NoDup names ->
      Forall3 (tenant_site (List.filter (fun n => negb (isTenantNode n)) (s_body s)))
        (List.filter isTenantNode (s_body s)) names out ->
      expands s out.

(** ** The override sets *)

(** The NUL separator makes [kind\x00name] keys unambiguous. *)
Lemma app_sep_inj (c : ascii) (p q s t : bytes) :
  c ∉ p -> c ∉ q -> p ++ c :: s = q ++ c :: t -> p = q /\ s = t.
Proof.
  revert q. induction p as [|x p IH]; intros [|y q] Hp Hq H; simpl in H;
    rewrite ?not_elem_of_cons in *; [naive_solver..|].
  injection H as -> H. destruct (IH q) as [-> ->]; naive_solver.
Qed.

Lemma named_no_NUL name : name ∈ namedGroupDirectives -> NUL ∉ name.
Proof.
  intros H. unfold namedGroupDirectives in H.
  repeat (apply elem_of_cons in H as [->|H]; [apply (bool_decide_unpack _); vm_compute; exact I|]).
  by apply not_elem_of_nil in H.
Qed.

Lemma namedKey_inj n1 n2 x y :
  n1 ∈ namedGroupDirectives -> n2 ∈ namedGroupDirectives ->
  namedKey n1 x = namedKey n2 y -> n1 = n2 /\ Raw x = Raw y.
Proof. intros H1 H2. apply app_sep_inj; by apply named_no_NUL. Qed.

(** [replaces] as a test on the two directives' names and first arguments. *)
Lemma replaces_directive nm am bm hm pm nn an bn hn pn :
  replaces (Directive nm am bm hm pm) (Directive nn an bn hn pn) <->
  nm = nn /\ (nn ∈ singletonGroupDirectives \/
    nn ∈ namedGroupDirectives /\ exists x xs y ys, am = x :: xs /\ an = y :: ys /\ Raw x = Raw y).
Proof.
  split.
  - intros H. inversion H; subst; split; eauto 10.
  - intros [-> [H|(H & x & xs & y & ys & -> & -> & E)]]; eauto using replaces.
Qed.

Lemma replaces_matcherdef nm tm am pm nn tn an pn :
  replaces (MatcherDef nm tm am pm) (MatcherDef nn tn an pn) <-> nm = nn.
Proof. split; [by inversion 1|intros ->; constructor]. Qed.

Lemma noteOverride_singleton o nm am bm hm pm k :
  k ∈ overSingleton (noteOverride o (Directive nm am bm hm pm)) <->
  k ∈ overSingleton o \/ k = nm /\ nm ∈ singletonGroupDirectives.
Proof.
  unfold noteOverride, isSingleton. destruct am as [|x xs], (isNamed nm); simpl; case_bool_decide; simpl;
    rewrite ?elem_of_union, ?elem_of_singleton; tauto.
Qed.

Lemma noteOverride_named o nm am bm hm pm k :
  k ∈ overNamed (noteOverride o (Directive nm am bm hm pm)) <->
  k ∈ overNamed o \/ nm ∈ namedGroupDirectives /\ exists x xs, am = x :: xs /\ k = namedKey nm x.
Proof.
  transitivity (k ∈ overNamed o \/ match am with
                | x :: _ => nm ∈ namedGroupDirectives /\ k = namedKey nm x | [] => False end).
  - unfold noteOverride, isNamed. destruct am as [|x xs], (isSingleton nm); simpl; try case_bool_decide; simpl;
      rewrite ?elem_of_union, ?elem_of_singleton; tauto.
  - apply or_iff_compat_l. destruct am as [|x xs].
    + split; [done|]. by intros (_ & ? & ? & ? & _).
    + apply and_iff_compat_l. split; [eauto|]. by intros (? & ? & E & ->); injection E as <- <-.
Qed.

Lemma dropped_directive o name args b h p :
  dropped o (Directive name args b h p) = true <->
  (name ∈ singletonGroupDirectives /\ name ∈ overSingleton o) \/
  (name ∈ namedGroupDirectives /\ exists y ys, args = y :: ys /\ namedKey name y ∈ overNamed o).
Proof.
  unfold dropped, isSingleton, isNamed. rewrite orb_true_iff, andb_true_iff, !bool_decide_eq_true.
  apply or_iff_compat_l. destruct args as [|y ys].
  - split; [done|]. by intros (_ & ? & ? & ? & _).
  - rewrite andb_true_iff, !bool_decide_eq_true. apply and_iff_compat_l. split; [eauto|].
    by intros (? & ? & E & ?); injection E as <- <-.
Qed.

Lemma dropped_note_directive o nm am bm hm pm nn an bn hn pn :
  dropped (noteOverride o (Directive nm am bm hm pm)) (Directive nn an bn hn pn) = true <->
  dropped o (Directive nn an bn hn pn) = true \/
  replaces (Directive nm am bm hm pm) (Directive nn an bn hn pn).
Proof.
  rewrite replaces_directive, !dropped_directive, noteOverride_singleton.
  setoid_rewrite noteOverride_named. split.
  - intros [[H1 [H2|[-> H2]]]|(H1 & y & ys & -> & [H2|(H2 & x & xs & -> & H3)])].
    + by left; left.
    + right. auto.
    + left; right. eauto.
    + right. apply namedKey_inj in H3 as [-> H3]; [|done..]. split; [done|]. right. eauto 10.
  - intros [[[H1 H2]|(H1 & y & ys & -> & H2)]|[-> [H|(H & x & xs & y & ys & -> & -> & E)]]].
    + left. auto.
    + right. split; [done|]. eauto 10.
    + left. auto.
    + right. split; [done|]. exists y, ys. split; [done|]. right. split; [done|]. exists x, xs.
      unfold namedKey. by rewrite E.
Qed.

Lemma dropped_note o m n :
  dropped (noteOverride o m) n = true <-> dropped o n = true \/ replaces m n.
Proof.
  destruct m as [nm tm am pm|nm am bm hm pm], n as [nn tn an pn|nn an bn hn pn].
  - cbn. rewrite !bool_decide_eq_true, replaces_matcherdef, elem_of_union, elem_of_singleton.
    split; intros [?|?]; auto.
  - cbn. split; [by left|]. intros [?|H]; [done|inversion H].
  - cbn. split.
    + intros H. left. destruct am, (isNamed nm), (isSingleton nm); done.
    + intros [H|H]; [|inversion H]. destruct am, (isNamed nm), (isSingleton nm); done.
  - apply dropped_note_directive.
Qed.

Lemma dropped_fold l o n :
  dropped (fold_left noteOverride l o) n = true <-> dropped o n = true \/ Exists (fun m => replaces m n) l.
Proof.
  revert o. induction l as [|m l IH]; intros o; simpl.
  - rewrite Exists_nil. tauto.
  - rewrite IH, dropped_note, Exists_cons. tauto.
Qed.

Lemma dropped_spec overrides n :
  dropped (overridesOf overrides) n = true <-> Exists (fun o => replaces o n) overrides.
Proof.
  unfold overridesOf. rewrite dropped_fold. split; [|by right]. intros [H|]; [|done].
  destruct n as [name t a p|name a b h p].
  - by apply bool_decide_eq_true, not_elem_of_empty in H.
  - apply dropped_directive in H as [[_ H]|(_ & y & ys & _ & H)]; by apply not_elem_of_empty in H.
Qed.

(** ** Refinement of [expands] *)

Lemma filter_kept overrides base :
  kept overrides base (List.filter (fun n => negb (dropped (overridesOf overrides) n)) base).
Proof.
  induction base as [|n base IH]; simpl; [constructor|].
  destruct (dropped (overridesOf overrides) n) eqn:E; simpl.
  - apply kept_drop; [by apply dropped_spec|done].
  - apply kept_keep; [|done]. rewrite <- dropped_spec. by rewrite E.
Qed.

Lemma kept_det overrides base l l' : kept overrides base l -> kept overrides base l' -> l = l'.
Proof.
  intros H. revert l'. induction H; intros l'; inversion 1; subst; try done; [by auto|].
  f_equal. auto.
Qed.

Definition tenant_of (n : Node) : tenantDir :=
  match n with
  | Directive _ a b h p => mkTenant a b h p
  | MatcherDef _ _ _ p => mkTenant [] [] false p
  end.

Lemma partitionGroup_spec body :
  partitionGroup body = (List.filter (fun n => negb (isTenantNode n)) body,
                         map tenant_of (List.filter isTenantNode body)).
Proof.
  induction body as [|n body IH]; simpl; [done|]. rewrite IH.
  destruct n as [? ? ? ?|name ? ? ? ?]; simpl; [done|]. by case_bool_decide.
Qed.

Lemma splitHosts_spec block :
  splitHosts block = (flat_map node_args (List.filter isHostNode block),
                      List.filter (fun n => negb (isHostNode n)) block).
Proof.
  induction block as [|n block IH]; simpl; [done|]. rewrite IH.
  destruct n as [? ? ? ?|name ? ? ? ?]; simpl; [done|]. by case_bool_decide.
Qed.

Lemma tenant_node_inv n : isTenantNode n = true ->
  exists a b h p, n = Directive (go "tenant") a b h p.
Proof.
  destruct n as [|name a b h p]; [done|]. simpl. rewrite bool_decide_eq_true. intros ->. eauto.
Qed.

Lemma tenant_site_fun base a block pos name out :
  tenant_site base (Directive (go "tenant") [a] block true pos) name out <->
  name = Raw a /\
  exists hosts overrides, splitTenantBlock (mkTenant [a] block true pos) (Raw a) = Ok (hosts, overrides) /\
  out = mkSite hosts (mergeBaseTenant base overrides (Raw a) pos) pos.
Proof.
  unfold splitTenantBlock. cbn [td_block td_pos]. rewrite splitHosts_spec. split.
  - intros H. inversion H as [? ? ? l hosts overrides Hh Hk]; subst. split; [done|].
    exists hosts, overrides. split; [fold hosts; by destruct hosts|].
    unfold mergeBaseTenant. do 3 f_equal. eapply kept_det; [done|apply filter_kept].
  - intros (-> & hosts & overrides & H & ->).
    destruct (flat_map node_args (List.filter isHostNode block)) as [|x hs] eqn:E; [done|].
    injection H as <- <-. unfold mergeBaseTenant. rewrite <- E.
    apply tenant_site_intro; [by rewrite E|apply filter_kept].
Qed.

Lemma expandTenants_spec base seen nodes out :
  Forall (fun n => isTenantNode n = true) nodes ->
  expandTenants base seen (map tenant_of nodes) = Ok out <->
  exists names, NoDup names /\ (forall x, x ∈ names -> x ∉ seen) /\
    Forall3 (tenant_site base) nodes names out.
Proof.
  intros Hn. revert seen out. induction Hn as [|n nodes Ht Hn IH]; intros seen out.
  - simpl. split.
    + intros [= <-]. exists []. split_and!; [constructor|set_solver|constructor].
    + intros (names & _ & _ & H). by inversion H.
  - apply tenant_node_inv in Ht as (args & b & h & p & ->). cbn [map tenant_of expandTenants td_args td_hasBlock td_pos].
    split.
    + intros H. destruct args as [|a [|]]; try done. case_bool_decide as Hs; [done|].
      destruct h; [|done]. simpl in H.
      inv_obind. destruct a0 as [hosts overrides]. inv_obind. injection H as <-.
      match goal with H : expandTenants _ _ _ = Ok _ |- _ => apply IH in H as (names & Hnd & Hfresh & Hall) end.
      exists (Raw a :: names). split_and!.
      * constructor; [|done]. intros Hin. apply Hfresh in Hin. set_solver.
      * intros y [->|Hy]%elem_of_cons; [done|]. apply Hfresh in Hy. set_solver.
      * constructor; [|done]. apply tenant_site_fun. eauto 10.
    + intros (names & Hnd & Hfresh & Hall). inversion Hall as [|? name site ? names' out' Hsite Hrest]; subst.
      inversion Hsite as [a block pos l hosts overrides Hh Hk]; subst.
      apply tenant_site_fun in Hsite as (_ & hosts' & overrides' & Hsplit & Hout).
      apply NoDup_cons in Hnd as [Hni Hnd].
      rewrite bool_decide_eq_false_2 by (apply Hfresh; apply list_elem_of_here). cbn [negb].
      rewrite Hsplit. cbn [obind]. rewrite Hout.
      rewrite (proj2 (IH ({[Raw a]} ∪ seen) out')); [done|].
      exists names'. split_and!; [done| |done]. intros y Hy. apply not_elem_of_union. split.
      * rewrite elem_of_singleton. by intros ->.
      * apply Hfresh. by apply list_elem_of_further.
Qed.

Lemma expandGroup_spec s out :
  Addresses s = [groupAddress] -> expandGroup s = Ok out <-> expands s out.
Proof.
  intros Hg. unfold expandGroup. rewrite partitionGroup_spec.
  assert (Forall (fun n => isTenantNode n = true) (List.filter isTenantNode (s_body s))) as Hall.
  { apply list.Forall_forall. intros x Hx%list_elem_of_In. apply List.filter_In in Hx. tauto. }
  pose proof (expandTenants_spec (List.filter (fun n => negb (isTenantNode n)) (s_body s)) ∅ _ out Hall) as Hspec. clear Hall.
  destruct (List.filter isTenantNode (s_body s)) as [|n nodes] eqn:E.
  - split; [done|]. intros H. exfalso. inversion H as [|? names ? _ Hne _ H3]; subst; [done|]. rewrite E in H3.
    by inversion H3; subst.
  - change (map tenant_of (n :: nodes)) with (tenant_of n :: map tenant_of nodes) in *. cbn match.
    rewrite Hspec. split.
    + intros (names & Hnd & _ & H3). eapply expands_group; [done| |done|by rewrite E]. by inversion H3; subst.
    + intros H. inversion H as [|? names ? _ Hne Hnd H3]; subst; [done|]. rewrite E in H3.
      exists names. split_and!; [done|set_solver|done].
Qed.

(** C7. Group expansion implements its specification, errors included:
    [ExpandGroups] succeeds with [out] exactly when [out] is the concatenation,
    in order, of what each site stands for: a plain site stands for itself, a
    group for one site per [tenant] block (with distinct names, at least one,
    each with hosts), whose body is the injected [tenant NAME], the overrides,
    and the base nodes that no override replaces. *)
Theorem ExpandGroups_refines sites out :
  ExpandGroups sites = Ok out <->
  exists parts, Forall2 expands sites parts /\ out = concat parts.
Proof.
  revert out. induction sites as [|s sites IH]; intros out; simpl.
  - split; [intros [= <-]; by exists []|]. by intros (parts & ->%Forall2_nil_inv_l & ->).
  - unfold IsGroup. case_bool_decide as Hg; split.
    + intros H. inv_obind. injection H as <-.
      match goal with H : ExpandGroups _ = Ok _ |- _ => apply IH in H as (parts & Hp & ->) end.
      match goal with H : expandGroup _ = Ok ?e |- _ => exists (e :: parts); split; [|done] end.
      constructor; [by apply expandGroup_spec|done].
    + intros (parts & (p & ps & He & Hp & ->)%Forall2_cons_inv_l & ->).
      apply expandGroup_spec in He as ->; [|done]. cbn [obind].
      by rewrite (proj2 (IH (concat ps))) by eauto.
    + intros H. inv_obind. injection H as <-.
      match goal with H : ExpandGroups _ = Ok _ |- _ => apply IH in H as (parts & Hp & ->) end.
      exists ([s] :: parts). split; [|done]. constructor; [by apply expands_plain|done].
    + intros (parts & (p & ps & He & Hp & ->)%Forall2_cons_inv_l & ->).
      rewrite (proj2 (IH (concat ps))) by eauto. by inversion He; subst.
Qed.
