(* ===== verification/Glob.v ===== *)
(** * Wildcard sets ([internal/pipeline/glob.go], [nameGlobSet] of
    [internal/pipeline/cachekey.go])

    A [path] matcher sorts its patterns into a hash set, a byte trie and a
    list of precompiled globs.  The specification is the textbook relation
    [wild pat s], in which [*] matches any run of bytes. *)

From stdpp Require Import base strings pretty numbers gmap list.
From S2P Require Import Prelude GoStrings.
Open Scope Z_scope.

Abbreviation STAR := ("*"%char).

(** ** The byte trie *)

#[warnings="-register-all"]
Inductive trieNode : Type :=
| TrieNode (children : gmap ascii trieNode) (terminal : bool).

Definition children (t : trieNode) : gmap ascii trieNode := let 'TrieNode c _ := t in c.
Definition terminal (t : trieNode) : bool := let 'TrieNode _ b := t in b.

Definition newTrie : trieNode := TrieNode ∅ false.

Fixpoint insert_trie (cur : trieNode) (prefix : bytes) : trieNode :=
  match prefix with
  | [] => TrieNode (children cur) true
  | b :: rest =>
      let next := default newTrie (children cur !! b) in
      TrieNode (<[b := insert_trie next rest]> (children cur)) (terminal cur)
  end.

Fixpoint hasPrefixOf_loop (cur : trieNode) (s : bytes) : bool :=
  match s with
  | [] => false
  | b :: rest =>
      match children cur !! b with
      | None => false
      | Some next => if terminal next then true else hasPrefixOf_loop next rest
      end
  end.

Definition hasPrefixOf (t : trieNode) (s : bytes) : bool :=
  if terminal t then true else hasPrefixOf_loop t s.

(** ** Compiled globs *)

Record glob : Type := mkGlob {
  leadingStar : bool;
  trailingStar : bool;
  parts : list bytes
}.

Definition nonempty (p : bytes) : bool := negb (bool_decide (p = [])).

Definition compileGlob (pat : bytes) : glob :=
  mkGlob (HasPrefix pat (go "*")) (HasSuffix pat (go "*"))
    (List.filter nonempty (SplitByte pat STAR)).

(** The loop over the remaining parts: what is left of [s] after them. *)
Fixpoint matchParts (ps : list bytes) (s : bytes) : option bytes :=
  match ps with
  | [] => Some s
  | p :: ps =>
      match Index s p with
      | None => None
      | Some i => matchParts ps (drop (i + length p) s)
      end
  end.

(** The part of [match] after the first part is anchored. *)
Definition matchTail (g : glob) (ps : list bytes) (s : bytes) : bool :=
  let '(suffix, ps) :=
    if negb (trailingStar g) && (0 <? length ps)%nat
    then (List.last ps [], removelast ps) else ([], ps) in
  match matchParts ps s with
  | None => false
  | Some s => if bool_decide (suffix = []) then true else HasSuffix s suffix
  end.

Definition glob_match (g : glob) (s : bytes) : bool :=
  match parts g with
  | [] => true
  | p0 :: ps =>
      if negb (leadingStar g) then
        if negb (HasPrefix s p0) then false
        else matchTail g ps (drop (length p0) s)
      else matchTail g (p0 :: ps) s
  end.

(** ** Path sets *)

Record pathSet : Type := mkPathSet {
  exact : gset bytes;
  prefixes : trieNode;
  globs : list glob;
  matchAll : bool
}.

Definition newPathSet : pathSet := mkPathSet ∅ newTrie [] false.

Definition add (s : pathSet) (pat : bytes) : pathSet :=
  if bool_decide (pat = go "*") then mkPathSet (exact s) (prefixes s) (globs s) true
  else if negb (Contains pat (go "*")) then
    mkPathSet ({[pat]} ∪ exact s) (prefixes s) (globs s) (matchAll s)
  else if (CountByte pat STAR =? 1)%nat && HasSuffix pat (go "*") then
    mkPathSet (exact s) (insert_trie (prefixes s) (take (length pat - 1) pat)) (globs s) (matchAll s)
  else mkPathSet (exact s) (prefixes s) (globs s ++ [compileGlob pat]) (matchAll s).

Definition Match (s : pathSet) (path : bytes) : bool :=
  if matchAll s then true
  else if bool_decide (path ∈ exact s) then true
  else if hasPrefixOf (prefixes s) path then true
  else existsb (fun g => glob_match g path) (globs s).

(** ** Parameter-name sets *)

Record nameGlobSet : Type := mkNameGlobSet {
  n_exact : gset bytes;
  n_globs : list glob;
  n_matchAll : bool
}.

Definition addName (s : nameGlobSet) (n : bytes) : nameGlobSet :=
  if bool_decide (n = go "*") then mkNameGlobSet (n_exact s) (n_globs s) true
  else if negb (Contains n (go "*")) then mkNameGlobSet ({[n]} ∪ n_exact s) (n_globs s) (n_matchAll s)
  else mkNameGlobSet (n_exact s) (n_globs s ++ [compileGlob n]) (n_matchAll s).

Definition newNameGlobSet (names : list bytes) : nameGlobSet :=
  fold_left addName names (mkNameGlobSet ∅ [] false).

Definition nameMatch (s : nameGlobSet) (name : bytes) : bool :=
  if n_matchAll s then true
  else if bool_decide (name ∈ n_exact s) then true
  else existsb (fun g => glob_match g name) (n_globs s).

(** ** Specification *)

Inductive wild : bytes -> bytes -> Prop :=
| wild_nil : wild [] []
| wild_lit c p s : c <> STAR -> wild p s -> wild (c :: p) (c :: s)
| wild_skip p s : wild p s -> wild (STAR :: p) s
| wild_eat p c s : wild (STAR :: p) s -> wild (STAR :: p) (c :: s).

(** [starred ps s]: [s] is the parts [ps] in order, each preceded by an
    arbitrary run of bytes. *)
Fixpoint starred (ps : list bytes) (s : bytes) : Prop :=
  match ps with
  | [] => s = []
  | p :: ps => exists x t, s = x ++ p ++ t /\ starred ps t
  end.

(** [inorder ps Q s]: the parts occur in order in [s], leaving a rest in [Q]. *)
Fixpoint inorder (ps : list bytes) (Q : bytes -> Prop) (s : bytes) : Prop :=
  match ps with
  | [] => Q s
  | p :: ps => exists x t, s = x ++ p ++ t /\ inorder ps Q t
  end.

Definition up (Q : bytes -> Prop) : Prop := forall x s, Q s -> Q (x ++ s).

(** ** [wild] by segments *)

Lemma wild_star p s : wild (STAR :: p) s <-> exists x t, s = x ++ t /\ wild p t.
Proof.
  split.
  - intros H. remember (STAR :: p) as q eqn:Hq. induction H as [|c p' s Hc H _|p' s H _|p' c s H IH]; try done.
    + by injection Hq as -> ->.
    + injection Hq as ->. by exists [], s.
    + destruct (IH Hq) as (x & t & -> & Ht). by exists (c :: x), t.
  - intros (x & t & -> & H). induction x as [|c x IH]; simpl; [by apply wild_skip|by apply wild_eat].
Qed.

Lemma wild_segments pat s :
  wild pat s <-> match SplitByte pat STAR with
                 | [] => False
                 | p0 :: ps => exists t, s = p0 ++ t /\ starred ps t
                 end.
Proof.
  revert s. induction pat as [|c pat IH]; intros s; simpl.
  - split; [inversion 1; by exists []|]. intros (t & -> & ->). constructor.
  - pose proof (SplitByte_nonempty pat STAR) as Hne.
    destruct (Ascii.eqb_spec c STAR) as [->|Hc].
    + rewrite wild_star. setoid_rewrite IH. destruct (SplitByte pat STAR) as [|p0 ps]; [done|]. simpl. split.
      * intros (x & t & -> & u & -> & Hu). eexists. split; [done|]. eauto.
      * intros (t & -> & x & u & -> & Hu). exists x. eexists. split; [done|]. eauto.
    + destruct (SplitByte pat STAR) as [|p0 ps]; [done|]. split.
      * inversion 1; subst; [|done..]. match goal with H : wild pat _ |- _ => apply IH in H as (t & -> & Ht) end.
        by exists t.
      * intros (t & -> & Ht). simpl. apply wild_lit; [done|]. apply IH. eauto.
Qed.

(** ** The greedy loop *)

Lemma inorder_up ps Q : up Q -> up (inorder ps Q).
Proof.
  intros HQ. destruct ps as [|p ps]; intros x s; simpl; [apply HQ|].
  intros (y & t & -> & H). exists (x ++ y), t. by rewrite <- app_assoc.
Qed.

Lemma inorder_nonempty ps Q s :
  up Q -> inorder ps Q s <-> inorder (List.filter nonempty ps) Q s.
Proof.
  intros HQ. revert s. induction ps as [|p ps IH]; intros s; simpl; [done|]. destruct p as [|c p]; simpl.
  - rewrite <- IH. split.
    + intros (x & t & -> & H). by apply inorder_up.
    + intros H. by exists [], s.
  - setoid_rewrite IH. done.
Qed.

Lemma starred_inorder ps p s :
  starred (ps ++ [p]) s <-> inorder ps (fun t => HasSuffix t p = true) s.
Proof.
  revert s. induction ps as [|q ps IH]; intros s; simpl.
  - rewrite HasSuffix_spec. split.
    + intros (x & t & -> & ->). exists x. by rewrite app_nil_r.
    + intros (x & ->). exists x, []. by rewrite app_nil_r.
  - by setoid_rewrite IH.
Qed.

Lemma suffix_up p : up (fun t => HasSuffix t p = true).
Proof. intros x s. rewrite !HasSuffix_spec. intros [t ->]. exists (x ++ t). by rewrite app_assoc. Qed.

(** Two ways to write a string: the shorter head leaves the longer tail. *)
Lemma app_longer (u v u' v' : bytes) :
  u ++ v = u' ++ v' -> (length u <= length u')%nat -> exists w, v = w ++ v'.
Proof.
  revert u'. induction u as [|c u IH]; intros [|c' u'] H Hl; simpl in *; try lia.
  - by exists [].
  - by exists (c' :: u').
  - injection H as -> H. apply (IH u' H). lia.
Qed.

(** Taking the leftmost occurrence of each part loses no match. *)
Lemma matchParts_spec ps Q s :
  up Q -> inorder ps Q s <-> exists t, matchParts ps s = Some t /\ Q t.
Proof.
  intros HQ. revert s. induction ps as [|p ps IH]; intros s; cbn [inorder matchParts].
  - split; [eauto|]. by intros (t & [= ->] & H).
  - destruct (Index s p) as [i|] eqn:E.
    + apply Index_Some in E as (u & v & -> & <- & Hmin). rewrite <- (IH (drop _ _)).
      rewrite app_assoc, <- length_app, drop_app_length. split.
      * intros (x & t & Heq & H). rewrite <- app_assoc in Heq. specialize (Hmin _ _ Heq).
        destruct (app_longer (u ++ p) v (x ++ p) t) as [w ->];
          [by rewrite <- !app_assoc|rewrite !length_app; lia|].
        by apply inorder_up.
      * intros H. exists u, v. by rewrite <- app_assoc.
    + split; [|by intros (? & ? & _)]. intros (x & t & -> & _). by apply Index_None with (u := x) (v := t) in E.
Qed.

(** ** Compiled globs implement [wild] *)

Lemma split_shape pat :
  STAR ∈ pat -> exists p0 mid l X,
    SplitByte pat STAR = p0 :: mid ++ [l] /\ pat = X ++ STAR :: l /\ STAR ∉ l.
Proof.
  induction pat as [|c pat IH]; intros H; [by apply not_elem_of_nil in H|]. simpl.
  destruct (Ascii.eqb_spec c STAR) as [->|Hc].
  - destruct (decide (STAR ∈ pat)) as [Hs|Hs].
    + destruct (IH Hs) as (p0 & mid & l & X & -> & -> & Hl). exists [], (p0 :: mid), l, (STAR :: X). done.
    + rewrite SplitByte_single by done. by exists [], [], pat, [].
  - apply elem_of_cons in H as [?|H]; [congruence|].
    destruct (IH H) as (p0 & mid & l & X & -> & -> & Hl). by exists (c :: p0), mid, l, (c :: X).
Qed.

Lemma split_leading pat p0 ps :
  SplitByte pat STAR = p0 :: ps -> HasPrefix pat (go "*") = true <-> p0 = [] /\ ps <> [].
Proof.
  intros E. pose proof (Join_SplitByte pat STAR) as Hj. rewrite HasPrefix_spec.
  pose proof (SplitByte_no_sep pat STAR) as Hn. rewrite E in Hj, Hn. inversion Hn as [|? ? Hp _]; subst. split.
  - intros [t Ht]. destruct ps as [|q ps].
    + simpl in Ht. subst. by destruct Hp; left.
    + split; [|done]. destruct p0 as [|c p0]; [done|]. simpl in Ht. injection Ht as -> _. by destruct Hp; left.
  - intros [-> Hps]. rewrite Join_cons by done. by eexists.
Qed.

Lemma suffix_star X l : STAR ∉ l -> HasSuffix (X ++ STAR :: l) (go "*") = true <-> l = [].
Proof.
  intros Hl. rewrite HasSuffix_spec. split; [|intros ->; by exists X]. intros [t Ht].
  destruct l as [|c l] using rev_ind; [done|]. exfalso. apply Hl.
  rewrite (app_assoc X [STAR] (l ++ [c])) in Ht || idtac.
  change (STAR :: l ++ [c]) with ((STAR :: l) ++ [c]) in Ht. rewrite app_assoc in Ht.
  apply app_inj_tail in Ht as [_ ->]. apply elem_of_app. right. by left.
Qed.

Lemma filter_snoc (mid : list bytes) (l : bytes) :
  List.filter nonempty (mid ++ [l]) = List.filter nonempty mid ++ (if nonempty l then [l] else []).
Proof. by rewrite List.filter_app. Qed.

Lemma matchTail_spec g mid l s :
  trailingStar g = bool_decide (l = []) ->
  matchTail g (List.filter nonempty (mid ++ [l])) s = true <-> starred (mid ++ [l]) s.
Proof.
  intros Ht. rewrite starred_inorder, inorder_nonempty, matchParts_spec by apply suffix_up.
  unfold matchTail. rewrite Ht, filter_snoc. destruct l as [|c l].
  - change (nonempty []) with false. cbn match. rewrite app_nil_r.
    rewrite bool_decide_eq_true_2 by done. cbn [negb andb]. destruct (matchParts _ s) as [t|]; simpl.
    + split; [|done]. intros _. exists t. split; [done|]. apply HasSuffix_spec. exists t. by rewrite app_nil_r.
    + split; [done|]. by intros (? & ? & _).
  - change (nonempty (c :: l)) with true. cbn match. rewrite bool_decide_eq_false_2 by done.
    rewrite length_app, Nat.add_comm. cbn [length negb andb Nat.add Nat.ltb Nat.leb].
    rewrite List.last_last, removelast_last.
    destruct (matchParts _ s) as [t|].
    + split; [eauto|]. by intros (? & [= <-] & ?).
    + split; [done|]. by intros (? & ? & _).
Qed.

Lemma glob_match_spec pat s :
  STAR ∈ pat -> glob_match (compileGlob pat) s = true <-> wild pat s.
Proof.
  intros Hs. destruct (split_shape pat Hs) as (p0 & mid & l & X & E & Hpat & Hl).
  assert (HasPrefix pat (go "*") = bool_decide (p0 = [])) as Hlead.
  { apply eq_true_iff_eq. rewrite (split_leading _ _ _ E), bool_decide_eq_true.
    split; [tauto|]. by destruct mid. }
  assert (HasSuffix pat (go "*") = bool_decide (l = [])) as Htrail.
  { apply eq_true_iff_eq. rewrite bool_decide_eq_true, Hpat. by apply suffix_star. }
  rewrite wild_segments. unfold glob_match, compileGlob. cbn [parts leadingStar]. rewrite E, Hlead.
  set (g := mkGlob _ _ _).
  assert (forall t, matchTail g (List.filter nonempty (mid ++ [l])) t = true <-> starred (mid ++ [l]) t) as Hm.
  { intros t. by apply matchTail_spec. }
  destruct p0 as [|c p0]; cbn [List.filter nonempty bool_decide].
  - change (nonempty []) with false. cbn match. rewrite bool_decide_eq_true_2 by done. cbn [negb].
    destruct (List.filter nonempty (mid ++ [l])) as [|q qs] eqn:Ef.
    + split; [|done]. intros _. exists s. split; [done|]. apply Hm. unfold matchTail.
      destruct (trailingStar g); done.
    + rewrite Hm. split; [by exists s|]. by intros (t & -> & ?).
  - change (nonempty (c :: p0)) with true. cbn match. rewrite bool_decide_eq_false_2 by done. cbn [negb].
    destruct (HasPrefix s (c :: p0)) eqn:Ep; cbn [negb].
    + apply HasPrefix_spec in Ep as [t ->]. rewrite drop_app_length, Hm. split; [by exists t|].
      intros (t' & Heq%app_inv_head & ?). by subst.
    + split; [done|]. intros (t & -> & _). apply not_true_iff_false in Ep. destruct Ep.
      apply HasPrefix_spec. by exists t.
Qed.

(** ** The trie *)

Lemma hasPrefixOf_cons t c s :
  hasPrefixOf t (c :: s) = terminal t || match children t !! c with None => false | Some u => hasPrefixOf u s end.
Proof. unfold hasPrefixOf. simpl. destruct (terminal t); [done|]. by destruct (_ !! c). Qed.

Lemma hasPrefixOf_newTrie s : hasPrefixOf newTrie s = false.
Proof. destruct s; [done|]. rewrite hasPrefixOf_cons. simpl. by rewrite lookup_empty. Qed.

Lemma HasPrefix_nil s : HasPrefix s [] = true.
Proof. apply HasPrefix_spec. by exists s. Qed.

Lemma HasPrefix_step c s d p : HasPrefix (c :: s) (d :: p) = (c =b d) && HasPrefix s p.
Proof.
  apply eq_true_iff_eq. rewrite andb_true_iff, !HasPrefix_spec, Ascii.eqb_eq. split.
  - intros [t [= -> ->]]. eauto.
  - intros [-> [t ->]]. by exists t.
Qed.

Lemma hasPrefixOf_insert t p s :
  hasPrefixOf (insert_trie t p) s = hasPrefixOf t s || HasPrefix s p.
Proof.
  revert t s. induction p as [|b p IH]; intros t s.
  - rewrite HasPrefix_nil, orb_true_r. done.
  - destruct s as [|c s].
    + unfold hasPrefixOf. simpl. destruct (terminal t); done.
    + rewrite !hasPrefixOf_cons, HasPrefix_step. cbn [insert_trie children terminal].
      destruct (Ascii.eqb_spec c b) as [->|Hne]; cbn [andb].
      * rewrite lookup_insert_eq, IH. destruct (children t !! b) as [u|]; cbn [default]; [by rewrite orb_assoc|].
        by rewrite hasPrefixOf_newTrie, orb_false_r.
      * rewrite lookup_insert_ne by done. by rewrite orb_false_r.
Qed.

(** ** Sets of patterns *)

Lemma Contains_star pat : Contains pat (go "*") = true <-> STAR ∈ pat.
Proof.
  unfold Contains. destruct (Index pat (go "*")) as [i|] eqn:E.
  - apply Index_Some in E as (u & v & -> & _). split; [|done]. intros _. apply elem_of_app. right. by left.
  - split; [done|]. intros (u & v & ->)%list_elem_of_split. by apply Index_None with (u := u) (v := v) in E.
Qed.

Lemma wild_exact pat s : STAR ∉ pat -> wild pat s <-> s = pat.
Proof.
  intros H. rewrite wild_segments, SplitByte_single by done. simpl. split.
  - intros (t & -> & ->). apply app_nil_r.
  - intros ->. exists []. by rewrite app_nil_r.
Qed.

Lemma wild_all s : wild (go "*") s.
Proof. apply wild_star. exists s, []. rewrite app_nil_r. split; [done|constructor]. Qed.

Lemma CountByte_app s t c : CountByte (s ++ t) c = (CountByte s c + CountByte t c)%nat.
Proof. induction s as [|b s IH]; simpl; [done|]. rewrite IH. lia. Qed.

Lemma CountByte_zero s c : CountByte s c = 0%nat -> c ∉ s.
Proof.
  induction s as [|b s IH]; simpl; [intros _; apply not_elem_of_nil|].
  destruct (Ascii.eqb_spec b c); [lia|]. intros H. apply not_elem_of_cons. split; [congruence|by apply IH].
Qed.

Lemma wild_prefix pat s :
  (CountByte pat STAR =? 1)%nat && HasSuffix pat (go "*") = true ->
  wild pat s <-> HasPrefix s (take (length pat - 1) pat) = true.
Proof.
  rewrite andb_true_iff, Nat.eqb_eq, HasSuffix_spec. intros [Hc [q ->]].
  rewrite CountByte_app in Hc. simpl in Hc. assert (STAR ∉ q) as Hq by (apply CountByte_zero; lia).
  rewrite length_app. change (length (go "*")) with 1%nat.
  replace (length q + 1 - 1)%nat with (length q) by lia. rewrite take_app_length, HasPrefix_spec.
  clear Hc. revert s. induction q as [|c q IH]; intros s.
  - split; [intros _; by exists s|]. intros _. apply wild_all.
  - apply not_elem_of_cons in Hq as [Hc Hq]. split.
    + intros H. inversion H; subst; [|done..]. match goal with H : wild _ _ |- _ => apply IH in H as [t ->] end; [|done].
      by exists t.
    + intros [t ->]. simpl. apply wild_lit; [done|]. apply IH; [done|]. by exists t.
Qed.

Lemma Match_true s path :
  Match s path = true <->
  matchAll s = true \/ path ∈ exact s \/ hasPrefixOf (prefixes s) path = true \/
  existsb (fun g => glob_match g path) (globs s) = true.
Proof.
  unfold Match. destruct (matchAll s); [tauto|]. case_bool_decide; [tauto|].
  destruct (hasPrefixOf _ _); [tauto|]. intuition congruence.
Qed.

Lemma Match_add s pat path :
  Match (add s pat) path = true <-> Match s path = true \/ wild pat path.
Proof.
  unfold add. case_bool_decide as Hall.
  - subst. rewrite !Match_true. simpl. pose proof (wild_all path). tauto.
  - destruct (Contains pat (go "*")) eqn:Hc; cbn [negb].
    + apply Contains_star in Hc. destruct (_ && _) eqn:Hp; rewrite !Match_true; cbn [exact prefixes globs matchAll].
      * rewrite hasPrefixOf_insert, orb_true_iff, (wild_prefix pat path Hp). tauto.
      * rewrite existsb_app, orb_true_iff. simpl. rewrite orb_false_r, glob_match_spec by done. tauto.
    + rewrite wild_exact by (rewrite <- Contains_star; by rewrite Hc).
      rewrite !Match_true. cbn [exact prefixes globs matchAll]. rewrite elem_of_union, elem_of_singleton. tauto.
Qed.

(** A compiled [path] matcher is exactly the disjunction of its
    patterns: the hash set, the prefix trie and the precompiled globs together
    accept a path if and only if some pattern of the list matches it, where
    [*] stands for any run of bytes. *)
Theorem pathSet_wild pats path :
  Match (fold_left add pats newPathSet) path = true <-> Exists (fun pat => wild pat path) pats.
Proof.
  transitivity (Match newPathSet path = true \/ Exists (fun pat => wild pat path) pats).
  - generalize newPathSet as s. induction pats as [|pat pats IH]; intros s; simpl.
    + rewrite Exists_nil. tauto.
    + rewrite IH, Match_add, Exists_cons. tauto.
  - rewrite Match_true. cbn [newPathSet matchAll exact prefixes globs existsb]. rewrite hasPrefixOf_newTrie. split; [|tauto].
    intros [[?|[?|[?|?]]]|?]; done.
Qed.

Lemma nameMatch_true s n :
  nameMatch s n = true <->
  n_matchAll s = true \/ n ∈ n_exact s \/ existsb (fun g => glob_match g n) (n_globs s) = true.
Proof.
  unfold nameMatch. destruct (n_matchAll s); [tauto|]. case_bool_decide; [tauto|]. intuition congruence.
Qed.

Lemma nameMatch_add s pat n :
  nameMatch (addName s pat) n = true <-> nameMatch s n = true \/ wild pat n.
Proof.
  unfold addName. case_bool_decide as Hall.
  - subst. rewrite !nameMatch_true. simpl. pose proof (wild_all n). tauto.
  - destruct (Contains pat (go "*")) eqn:Hc; cbn [negb]; rewrite !nameMatch_true; cbn [n_exact n_globs n_matchAll].
    + apply Contains_star in Hc. rewrite existsb_app, orb_true_iff. simpl.
      rewrite orb_false_r, glob_match_spec by done. tauto.
    + rewrite wild_exact by (rewrite <- Contains_star; by rewrite Hc).
      rewrite elem_of_union, elem_of_singleton. tauto.
Qed.

(** The parameter-name sets behind [query_allow], [query_strip] and
    [query_present] accept exactly the names some pattern of the list matches. *)
Theorem nameGlobSet_wild names n :
  nameMatch (newNameGlobSet names) n = true <-> Exists (fun pat => wild pat n) names.
Proof.
  unfold newNameGlobSet. set (e := mkNameGlobSet ∅ [] false).
  transitivity (nameMatch e n = true \/ Exists (fun pat => wild pat n) names).
  - generalize e. induction names as [|pat names IH]; intros s; simpl.
    + rewrite Exists_nil. tauto.
    + rewrite IH, nameMatch_add, Exists_cons. tauto.
  - rewrite nameMatch_true. cbn. split; [|tauto]. intros [[?|[?|?]]|?]; done.
Qed.

Example pathSet_example :
  let s := fold_left add [go "/a/*"; go "*sitemap*"; go "/x/*/y"; go "/exact"] newPathSet in
  map (fun p => Match s (go p)) ["/a/b"; "/a"; "/s/sitemap.xml"; "/x//y"; "/x/y"; "/exact"; "/exact/"]%string
  = [true; false; true; true; false; true; false].
Proof. vm_compute. reflexivity. Qed.
