(* ===== verification/Host.v ===== *)
(** * Host names ([normalizeHost] of [internal/pipeline/request.go],
    [hostSet] of [glob.go], [hostparts.go])

    [lr] is the Unicode lower-case table beyond ASCII. *)

From stdpp Require Import base strings pretty numbers gmap list.
From S2P Require Import Prelude GoStrings.
Open Scope Z_scope.

Section Host.
Context (lr : Z -> Z).

Definition normalizeHost (host0 : bytes) : bytes :=
  let host := ToLower lr (TrimSpace host0) in
  if bool_decide (host = []) then []
  else
    let host :=
      if HasPrefix host (go "[") then
        match LastIndexByte host "]" with
        | Some i => if HasPrefix (drop (S i) host) (go ":") then take (S i) host else host
        | None => host
        end
      else
        match LastIndexByte host ":" with
        | Some i => if (CountByte host ":" =? 1)%nat then take i host else host
        | None => host
        end in
    TrimSuffix host (go ".").

Record hostSet : Type := mkHostSet { h_exact : gset bytes; h_suffixes : list bytes }.

Definition newHostSet : hostSet := mkHostSet ∅ [].

Definition addHost (h : hostSet) (pat0 : bytes) : hostSet :=
  let pat := ToLower lr pat0 in
  if HasPrefix pat (go "*.") then mkHostSet (h_exact h) (h_suffixes h ++ [drop 1 pat])
  else mkHostSet ({[pat]} ∪ h_exact h) (h_suffixes h).

Definition MatchHost (h : hostSet) (host0 : bytes) : bool :=
  let host := normalizeHost host0 in
  if bool_decide (host ∈ h_exact h) then true
  else existsb (fun suf => HasSuffix host suf) (h_suffixes h).
End Host.

Definition baseSuffixes : list bytes :=
  map go ["co.uk"; "org.uk"; "gov.uk"; "ac.uk"; "me.uk"; "net.uk"; "sch.uk";
    "com.au"; "net.au"; "org.au"; "edu.au"; "gov.au";
    "com.br"; "net.br"; "org.br";
    "com.mx"; "org.mx";
    "com.cn"; "net.cn"; "org.cn";
    "co.jp"; "ne.jp"; "or.jp";
    "co.nz"; "net.nz"; "org.nz";
    "co.za"; "org.za";
    "co.in"; "co.kr"; "com.tr"; "com.sg"; "com.hk"; "com.tw";
    "tech555.io"]%string.

Definition maxSuffixLabels : nat := 4.

(** The loop of [hostParts], from [k] down to 2. *)
Fixpoint suffixScan (labels : list bytes) (k : nat) : nat :=
  match k with
  | O | 1%nat => 1
  | S k' =>
      if bool_decide (Join (drop (length labels - k) labels) (go ".") ∈ baseSuffixes) then k
      else suffixScan labels k'
  end.

(** The host [hostParts] works on. *)
Definition partsHost (lr : Z -> Z) (host : bytes) : bytes :=
  let h := match IndexByte host ":" with Some i => take i host | None => host end in
  ToLower lr (TrimSuffix h (go ".")).

Definition hostParts (lr : Z -> Z) (host : bytes) : bytes * bytes :=
  let h := partsHost lr host in
  if bool_decide (h = []) then ([], [])
  else
    let labels := SplitByte h "." in
    let n := length labels in
    if (n <=? 1)%nat then (h, [])
    else
      let suffixLabels := suffixScan labels (Nat.min n maxSuffixLabels) in
      if (n <? suffixLabels + 1)%nat then (h, [])
      else
        let baseStart := (n - suffixLabels - 1)%nat in
        (Join (drop baseStart labels) (go "."),
         if (0 <? baseStart)%nat then Join (take baseStart labels) (go ".") else []).

Example hostParts_examples :
  map (fun h => hostParts (fun r => r) (go h))
    ["es.Brand-a.example:8080"; "cam4you.tech555.io"; "a.b.shop.co.uk."; "co.uk"; "localhost"]%string
  = [(go "brand-a.example", go "es"); (go "cam4you.tech555.io", []); (go "shop.co.uk", go "a.b");
     (go "co.uk", []); (go "localhost", [])].
Proof. vm_compute. reflexivity. Qed.

(** ** [hostParts] *)

(** The scan returns the longest listed suffix of at most [k] labels, or 1. *)
Lemma suffixScan_longest labels k :
  let j := suffixScan labels k in
  (j = 1%nat \/ Join (drop (length labels - j) labels) (go ".") ∈ baseSuffixes) /\
  forall i, (2 <= i <= k)%nat -> Join (drop (length labels - i) labels) (go ".") ∈ baseSuffixes -> (i <= j)%nat.
Proof.
  induction k as [|[|k] IH]; cbn [suffixScan]; [split; [by left|lia]..|].
  case_bool_decide as H; cbn zeta.
  - split; [by right|lia].
  - destruct IH as [H1 H2]. split; [done|]. intros i Hi Hin.
    destruct (decide (i = S (S k))) as [->|]; [done|]. apply H2; [lia|done].
Qed.

(** [hostParts] splits a host without empty labels at the registrable
    domain: [base] and [sub] recompose to the normalised host, and either the
    host is itself a bare label or public suffix (and [sub] is empty), or [base] is
    the longest listed suffix of at most [maxSuffixLabels] labels (one label when
    none is listed) with exactly one more label. *)
Theorem hostParts_registrable lr host base sub :
  let h := partsHost lr host in
  let labels := SplitByte h "." in
  hostParts lr host = (base, sub) -> Forall (fun l => l <> []) labels ->
  h = (if bool_decide (sub = []) then base else sub ++ go "." ++ base) /\
  exists k, (k = 1%nat \/ Join (drop (length labels - k) labels) (go ".") ∈ baseSuffixes) /\
    (forall i, (2 <= i <= Nat.min (length labels) maxSuffixLabels)%nat ->
       Join (drop (length labels - i) labels) (go ".") ∈ baseSuffixes -> (i <= k)%nat) /\
    ((length labels <= k)%nat /\ base = h /\ sub = [] \/
     (k < length labels)%nat /\ base = Join (drop (length labels - S k) labels) (go ".")).
Proof.
  intros h labels. unfold hostParts. fold h. fold labels. intros Heq Hl. revert Heq.
  assert (Join labels (go ".") = h) as Hj by apply Join_SplitByte.
  case_bool_decide as Hh.
  { unfold labels in Hl. rewrite Hh in Hl. inversion Hl; done. }
  destruct (Nat.leb_spec (length labels) 1) as [Hn|Hn].
  { intros [= <- <-]. split; [by rewrite bool_decide_eq_true_2|]. exists 1%nat. split_and!; [by left|lia|by left]. }
  set (k := suffixScan labels (Nat.min (length labels) maxSuffixLabels)).
  destruct (suffixScan_longest labels (Nat.min (length labels) maxSuffixLabels)) as [H1 H2]. fold k in H1, H2.
  destruct (Nat.ltb_spec (length labels) (k + 1)) as [Hk|Hk].
  { intros [= <- <-]. split; [by rewrite bool_decide_eq_true_2|]. exists k. split_and!; [done..|]. left. split; [lia|done]. }
  intros [= <- <-]. replace (length labels - k - 1)%nat with (length labels - S k)%nat by lia. split.
  - destruct (Nat.ltb_spec 0 (length labels - S k)) as [Hs|Hs].
    + assert (take (length labels - S k) labels <> []) as Ht.
      { intros E. apply (f_equal length) in E. rewrite length_take in E. simpl in E. lia. }
      rewrite bool_decide_eq_false_2 by (apply Join_nonempty; [done|by apply Forall_take]).
      rewrite <- Join_app; [by rewrite take_drop|done|].
      intros E. apply (f_equal length) in E. rewrite length_drop in E. simpl in E. lia.
    + rewrite bool_decide_eq_true_2 by done. replace (length labels - S k)%nat with 0%nat by lia.
      by rewrite drop_0.
  - exists k. split_and!; [done..|]. right. split; [lia|done].
Qed.

Lemma hostParts_registrable_witness :
  let h := go "a.b.shop.co.uk" in
  h = go "a.b" ++ go "." ++ go "shop.co.uk".
Proof.
  apply (hostParts_registrable (fun r => r) (go "a.b.Shop.co.uk.:443") (go "shop.co.uk") (go "a.b"));
    [vm_compute; reflexivity|apply (bool_decide_unpack _); vm_compute; exact I].
Defined.

(** ** [hostSet] *)

Lemma MatchHost_true lr h host :
  MatchHost lr h host = true <->
  normalizeHost lr host ∈ h_exact h \/ Exists (fun suf => HasSuffix (normalizeHost lr host) suf = true) (h_suffixes h).
Proof.
  unfold MatchHost. case_bool_decide; [tauto|]. rewrite existsb_exists, Exists_exists.
  setoid_rewrite list_elem_of_In. tauto.
Qed.

(** The hosts one [host] pattern covers. *)
Definition host_covers (lr : Z -> Z) (pat host : bytes) : Prop :=
  (exists dom, ToLower lr pat = go "*." ++ dom /\ exists sub, host = sub ++ go "." ++ dom) \/
  ((forall dom, ToLower lr pat <> go "*." ++ dom) /\ host = ToLower lr pat).

Lemma MatchHost_add lr h pat host :
  MatchHost lr (addHost lr h pat) host = true <->
  MatchHost lr h host = true \/ host_covers lr pat (normalizeHost lr host).
Proof.
  rewrite !MatchHost_true. unfold addHost, host_covers.
  destruct (HasPrefix (ToLower lr pat) (go "*.")) eqn:E; cbn [h_exact h_suffixes].
  - apply HasPrefix_spec in E as [dom E]. rewrite E, Exists_app, Exists_cons, Exists_nil.
    change (drop 1 (go "*." ++ dom)) with (go "." ++ dom). rewrite HasSuffix_spec. split.
    + intros [?|[?|[[t ?]|[]]]]; [tauto..|]. right. left. eauto.
    + intros [[?|?]|[(dom' & Hd & sub & ->)|[Hn _]]]; [tauto..| |by destruct (Hn dom)].
      apply app_inv_head in Hd as ->. right; right; left. eauto.
  - assert (forall dom, ToLower lr pat <> go "*." ++ dom) as Hn.
    { intros dom Hd. apply not_true_iff_false in E. apply E, HasPrefix_spec. eauto. }
    rewrite elem_of_union, elem_of_singleton. split; [tauto|].
    intros [[?|?]|[(dom & Hd & _)|[_ ?]]]; [tauto..|by destruct (Hn dom)|tauto].
Qed.

(** A compiled [host] matcher accepts a request host exactly when some
    pattern covers its normalised form: [*.dom] covers the proper subdomains of
    [dom] (never [dom] itself), any other pattern only its own lower-cased text. *)
Theorem hostSet_covers lr pats host :
  MatchHost lr (fold_left (addHost lr) pats newHostSet) host = true <->
  Exists (fun pat => host_covers lr pat (normalizeHost lr host)) pats.
Proof.
  transitivity (MatchHost lr newHostSet host = true \/
    Exists (fun pat => host_covers lr pat (normalizeHost lr host)) pats).
  - generalize newHostSet as s. induction pats as [|pat pats IH]; intros s; simpl.
    + rewrite Exists_nil. tauto.
    + rewrite IH, MatchHost_add, Exists_cons. tauto.
  - rewrite MatchHost_true. cbn. rewrite Exists_nil. split; [|tauto]. intros [[H|[]]|?]; [|done].
    by apply not_elem_of_empty in H.
Qed.
