(* ===== verification/Range.v ===== *)
(** * Byte ranges ([internal/server/range.go]) *)

From stdpp Require Import base strings pretty numbers gmap list.
From S2P Require Import Prelude GoStrings.
Open Scope Z_scope.

Inductive rangeErr : Type := errInvalidRange | errUnsatisfiableRange.

Record httpRange : Type := mkRange { start : Z; len : Z }.

(** The part of [parseSingleRange] after the two bounds are split. *)
Definition resolveRange (startStr endStr : bytes) (size : Z) : outcome rangeErr httpRange :=
  if bool_decide (startStr = []) then
    match ParseInt64 endStr with
    | None => Err errInvalidRange
    | Some n =>
        if n <=? 0 then Err errUnsatisfiableRange
        else
          let n := if n >? size then size else n in
          Ok (mkRange (wrap64 (size - n)) n)
    end
  else
    match ParseInt64 startStr with
    | None => Err errInvalidRange
    | Some start =>
        if start <? 0 then Err errInvalidRange
        else if start >=? size then Err errUnsatisfiableRange
        else
          let finish end_ := Ok (mkRange start (wrap64 (wrap64 (end_ - start) + 1))) in
          if bool_decide (endStr = []) then finish (wrap64 (size - 1))
          else match ParseInt64 endStr with
          | None => Err errInvalidRange
          | Some end_ =>
              if end_ <? start then Err errUnsatisfiableRange
              else finish (if end_ >=? size then wrap64 (size - 1) else end_)
          end
    end.

Definition parseSingleRange (header : bytes) (size : Z) : outcome rangeErr httpRange :=
  if size <=? 0 then Err errUnsatisfiableRange
  else if negb (HasPrefix header (go "bytes=")) then Err errInvalidRange
  else
    let spec := TrimSpace (drop (length (go "bytes=")) header) in
    if bool_decide (spec = []) || Contains spec (go ",") then Err errInvalidRange
    else match IndexByte spec "-" with
    | None => Err errInvalidRange
    | Some dash => resolveRange (TrimSpace (take dash spec)) (TrimSpace (drop (S dash) spec)) size
    end.

Definition contentRange (r : httpRange) (size : Z) : bytes :=
  go "bytes " ++ Itoa (start r) ++ go "-" ++ Itoa (wrap64 (wrap64 (start r + len r) - 1)) ++ go "/" ++ Itoa size.

Example parseSingleRange_examples :
  map (fun h => parseSingleRange (go h) 100)
    ["bytes=0-9"; "bytes=90-"; "bytes=-5"; "bytes=-500"; "bytes=100-"; "bytes=9-5"; "bytes=1-2,3-4"; "bytes=5-1000"]%string
  = [Ok (mkRange 0 10); Ok (mkRange 90 10); Ok (mkRange 95 5); Ok (mkRange 0 100); Err errUnsatisfiableRange;
     Err errUnsatisfiableRange; Err errInvalidRange; Ok (mkRange 5 95)].
Proof. vm_compute. reflexivity. Qed.

(** Whatever the [Range] header holds, a range that is accepted lies
    inside the object, is not empty, and no arithmetic on it overflows. *)
Theorem parseSingleRange_bounds header size r :
  in_int64 size -> parseSingleRange header size = Ok r ->
  0 <= start r /\ 0 < len r /\ start r + len r <= size /\
  contentRange r size = go "bytes " ++ Itoa (start r) ++ go "-" ++ Itoa (start r + len r - 1) ++ go "/" ++ Itoa size.
Proof.
  unfold in_int64, int64_min, int64_max. intros Hs H.
  assert (0 <= start r /\ 0 < len r /\ start r + len r <= size) as (H1 & H2 & H3).
  { revert H. unfold parseSingleRange, resolveRange. repeat (case_match; try done); intros [= <-]; cbn [start len];
      zcases; unwrap64; lia. }
  split_and!; [done..|]. unfold contentRange. by unwrap64.
Qed.

Lemma parseSingleRange_bounds_witness :
  0 <= 5 /\ 0 < 95 /\ 5 + 95 <= 100 /\
  contentRange (mkRange 5 95) 100 = go "bytes 5-99/100".
Proof.
  apply (parseSingleRange_bounds (go "bytes=5-1000") 100 (mkRange 5 95));
    [unfold in_int64, int64_min, int64_max; lia|vm_compute; reflexivity].
Defined.

(** ** The three forms of a range *)

Definition digits (s : bytes) : Prop := Forall (fun c => 0x30 <= byteZ c <= 0x39) s.

Lemma parse_digits_digits s v : parse_digits s = Some v -> digits s /\ s <> [].
Proof.
  unfold parse_digits. destruct s as [|c s]; [done|]. destruct (forallb isDigit _) eqn:E; [|done].
  intros _. split; [|done]. apply list.Forall_forall. intros x Hx%list_elem_of_In.
  rewrite forallb_forall in E. apply E in Hx. unfold isDigit in Hx. lia.
Qed.

Lemma digits_graphic s : digits s -> Forall graphic s.
Proof. intros H. eapply list.Forall_impl; [exact H|]. unfold graphic. intros; lia. Qed.

Lemma digits_not_elem c s : byteZ c < 0x30 -> digits s -> c ∉ s.
Proof. intros Hc H Hin. unfold digits in H. rewrite list.Forall_forall in H. apply H in Hin. lia. Qed.

Lemma ParseInt64_digits s v : parse_digits s = Some v -> v <= int64_max -> ParseInt64 s = Some v.
Proof.
  intros H Hv. destruct (parse_digits_digits _ _ H) as [Hd Hne]. unfold ParseInt64.
  destruct Hd as [|c s Hc Hd]; [done|].
  destruct (Ascii.eqb_spec c "-") as [->|_]; [by vm_compute in Hc; destruct Hc|].
  destruct (Ascii.eqb_spec c "+") as [->|_]; [by vm_compute in Hc; destruct Hc|].
  rewrite H. by rewrite (proj2 (Z.leb_le _ _) Hv).
Qed.

Lemma parseSingleRange_digits u v size :
  0 < size -> digits u -> digits v ->
  parseSingleRange (go "bytes=" ++ u ++ go "-" ++ v) size = resolveRange u v size.
Proof.
  intros Hs Hu Hv. unfold parseSingleRange. rewrite (proj2 (Z.leb_gt _ _) Hs).
  rewrite (proj2 (HasPrefix_spec _ _)) by eauto. cbn [negb]. rewrite drop_app_length.
  assert (Forall graphic (u ++ go "-" ++ v)) as Hg.
  { apply list.Forall_app; split; [by apply digits_graphic|]. constructor; [by vm_compute|by apply digits_graphic]. }
  rewrite (TrimSpace_graphic _ Hg), bool_decide_eq_false_2 by (by destruct u). cbn [orb].
  assert (Contains (u ++ go "-" ++ v) (go ",") = false) as ->.
  { unfold Contains. destruct (Index _ _) as [i|] eqn:E; [|done]. apply Index_Some in E as (p & q & E & _).
    assert (","%char ∈ u ++ go "-" ++ v) as Hin by (rewrite E; apply elem_of_app; right; by left).
    apply elem_of_app in Hin as [Hin|[Hin|Hin]%elem_of_cons]; [|done|];
      by apply digits_not_elem in Hin. }
  change (go "-" ++ v) with ("-"%char :: v). rewrite IndexByte_app by (by apply digits_not_elem).
  rewrite take_app_length, drop_app_cons. by rewrite !TrimSpace_graphic by (by apply digits_graphic).
Qed.

(** The three forms of RFC 9110 byte ranges resolve as the RFC says,
    for decimal bounds [a] (value [x]) and [b] (value [y]): [a-b] to the bytes
    [x..min y (size-1)], [a-] to the bytes from [x], [-b] to the last [y] bytes
    (all of them if the object is shorter); a start past the end, an inverted
    range and an empty suffix are unsatisfiable. *)
Theorem parseSingleRange_forms a b x y size :
  parse_digits a = Some x -> parse_digits b = Some y ->
  x <= int64_max -> y <= int64_max -> 0 < size <= int64_max ->
  parseSingleRange (go "bytes=" ++ a ++ go "-" ++ b) size
  = (if (size <=? x) || (y <? x) then Err errUnsatisfiableRange
     else Ok (mkRange x (Z.min y (size - 1) - x + 1))) /\
  parseSingleRange (go "bytes=" ++ a ++ go "-") size
  = (if size <=? x then Err errUnsatisfiableRange else Ok (mkRange x (size - x))) /\
  parseSingleRange (go "bytes=-" ++ b) size
  = (if y <=? 0 then Err errUnsatisfiableRange
     else Ok (mkRange (size - Z.min y size) (Z.min y size))).
Proof.
  intros Ha Hb Hx Hy Hs.
  destruct (parse_digits_digits _ _ Ha) as [Hda Hna], (parse_digits_digits _ _ Hb) as [Hdb Hnb].
  pose proof (parse_digits_nonneg _ _ Ha). pose proof (parse_digits_nonneg _ _ Hb).
  unfold int64_max in *.
  rewrite (parseSingleRange_digits a b), <- (app_nil_r (go "-")), (parseSingleRange_digits a []) by (done || lia || constructor).
  change (go "bytes=-" ++ b) with (go "bytes=" ++ [] ++ go "-" ++ b).
  rewrite (parseSingleRange_digits [] b) by (done || lia || constructor).
  unfold resolveRange. rewrite !(bool_decide_eq_false_2 (a = [])), !(bool_decide_eq_false_2 (b = [])) by done.
  rewrite !(bool_decide_eq_true_2 ([] = [])) by done.
  rewrite (ParseInt64_digits a x), (ParseInt64_digits b y) by done.
  split_and!; zcases; cbn [orb]; try done; try lia; unwrap64; repeat f_equal; lia.
Qed.

Lemma parseSingleRange_forms_witness :
  parseSingleRange (go "bytes=10-19") 100 = Ok (mkRange 10 10).
Proof.
  apply (parseSingleRange_forms (go "10") (go "19") 10 19 100); vm_compute; done.
Defined.
