(* ===== verification/Shard.v ===== *)
(** * Sharding of the cache tiers ([internal/cache/shard.go], [meta.go])

    Both tiers split their byte budget over [shardCount] shards and route a
    key to a shard by FNV-1a. *)

From stdpp Require Import base strings pretty numbers gmap list.
From S2P Require Import Prelude.
Open Scope Z_scope.

Record ObjectMeta : Type := mkMeta {
  Key : bytes;
  Size : Z;
  ContentType : bytes;
  ETag : bytes;
  LastModified : bytes;
  ContentEncoding : bytes;
  Vary : bytes;
  Status : Z;
  ForcedPrivate : bool;
  TierHint : bytes             (* the field Tier *)
}.

Definition EffectiveStatus (m : ObjectMeta) : Z := if Status m =? 0 then 200 else Status m.

Definition set_Size (n : Z) (m : ObjectMeta) : ObjectMeta :=
  mkMeta (Key m) n (ContentType m) (ETag m) (LastModified m) (ContentEncoding m) (Vary m)
    (Status m) (ForcedPrivate m) (TierHint m).

Definition defaultShards : Z := 64.
Definition minShardBytes : Z := Z.shiftl 1 20.

(** Go's [/] and [%] truncate towards zero. *)
Definition shardCount (maxBytes : Z) : Z :=
  if maxBytes <=? 0 then 1
  else
    let n := Z.quot maxBytes minShardBytes in
    let n := if n <? 1 then 1 else n in
    if n >? defaultShards then defaultShards else n.

(** [hash/fnv]: the 32-bit FNV-1a hash. *)
Definition fnv32a (s : bytes) : Z :=
  fold_left (fun h c => Z.modulo (Z.lxor h (byteZ c) * 16777619) (2 ^ 32)) s 2166136261.

Definition shardIndex (key : bytes) (n : Z) : Z := Z.modulo (fnv32a key) (Z.modulo n (2 ^ 32)).

Definition shardCaps (maxBytes n : Z) : list Z :=
  if maxBytes <=? 0 then replicate (Z.to_nat n) maxBytes
  else
    let base := Z.quot maxBytes n in
    let rem := Z.rem maxBytes n in
    map (fun i => if Z.of_nat i <? rem then base + 1 else base) (seq 0 (Z.to_nat n)).

(** FNV-1a test vectors. *)
Example fnv32a_vectors :
  fnv32a [] = 0x811c9dc5 /\ fnv32a (go "a") = 0xe40c292c /\ fnv32a (go "foobar") = 0xbf9cf968.
Proof. vm_compute. done. Qed.

Lemma shardCount_range maxBytes : 1 <= shardCount maxBytes <= 64.
Proof.
  unfold shardCount, defaultShards. destruct (Z.leb_spec maxBytes 0); [lia|].
  destruct (Z.ltb_spec (Z.quot maxBytes minShardBytes) 1); simpl; [lia|].
  rewrite Z.gtb_ltb. destruct (Z.ltb_spec 64 (Z.quot maxBytes minShardBytes)); lia.
Qed.

Lemma shardCount_floor maxBytes :
  0 < maxBytes -> 1 < shardCount maxBytes -> shardCount maxBytes * minShardBytes <= maxBytes.
Proof.
  intros Hb. unfold shardCount, defaultShards. rewrite (proj2 (Z.leb_gt _ _) Hb).
  change minShardBytes with 1048576. rewrite Z.quot_div_nonneg, Z.gtb_ltb by lia.
  pose proof (Z.mul_div_le maxBytes 1048576).
  destruct (Z.ltb_spec (maxBytes / 1048576) 1); simpl; [lia|].
  destruct (Z.ltb_spec 64 (maxBytes / 1048576)); lia.
Qed.

Lemma shardIndex_range key n : 0 < n < 2 ^ 32 -> 0 <= shardIndex key n < n.
Proof. intros H. unfold shardIndex. rewrite (Z.mod_small n) by lia. apply Z.mod_pos_bound. lia. Qed.

Lemma shardCaps_length maxBytes n : length (shardCaps maxBytes n) = Z.to_nat n.
Proof.
  unfold shardCaps. destruct (maxBytes <=? 0); [by rewrite length_replicate|].
  by rewrite length_map, length_seq.
Qed.

Lemma sum_split base rem a m :
  sumZ (fun i => if Z.of_nat i <? rem then base + 1 else base) (seq a m)
  = Z.of_nat m * base + Z.max 0 (Z.min (Z.of_nat (a + m)) rem - Z.of_nat a).
Proof.
  revert a. induction m as [|m IH]; intros a; cbn [seq sumZ]; [lia|].
  rewrite IH. destruct (Z.ltb_spec (Z.of_nat a) rem); lia.
Qed.

Lemma sumZ_map {A B} (f : B -> Z) (g : A -> B) l : sumZ f (map g l) = sumZ (fun x => f (g x)) l.
Proof. induction l as [|x l IH]; simpl; [done|by rewrite IH]. Qed.

Lemma shardCaps_sum maxBytes n :
  0 < maxBytes -> 0 < n -> sumZ (fun c => c) (shardCaps maxBytes n) = maxBytes.
Proof.
  intros Hb Hn. unfold shardCaps. rewrite (proj2 (Z.leb_gt _ _) Hb), sumZ_map, sum_split.
  rewrite Z.quot_div_nonneg, Z.rem_mod_nonneg by lia.
  pose proof (Z.mod_pos_bound maxBytes n Hn). pose proof (Z.div_mod maxBytes n). lia.
Qed.

Lemma shardCaps_each maxBytes n c :
  0 < maxBytes -> 0 < n -> c ∈ shardCaps maxBytes n -> maxBytes / n <= c <= maxBytes / n + 1.
Proof.
  intros Hb Hn. unfold shardCaps. rewrite (proj2 (Z.leb_gt _ _) Hb).
  rewrite Z.quot_div_nonneg by lia.
  intros (i & -> & _)%list_elem_of_fmap. destruct (_ <? _); lia.
Qed.

(** Splitting a tier's budget is sound: there are between 1 and 64
    shards, every key has one, the per-shard caps add up to exactly the budget,
    and a tier that is split at all gives every shard at least
    [minShardBytes]. *)
Theorem shards_partition_budget maxBytes key :
  0 < maxBytes ->
  let n := shardCount maxBytes in
  let caps := shardCaps maxBytes n in
  1 <= n <= 64 /\ (exists c, caps !! Z.to_nat (shardIndex key n) = Some c) /\
  sumZ (fun c => c) caps = maxBytes /\
  (1 < n -> Forall (fun c => minShardBytes <= c) caps).
Proof.
  intros Hb n caps. pose proof (shardCount_range maxBytes) as Hn. fold n in Hn. split_and!; [lia..| | |].
  - apply lookup_lt_is_Some. unfold caps. rewrite shardCaps_length.
    pose proof (shardIndex_range key n). lia.
  - apply shardCaps_sum; lia.
  - intros H1. apply list.Forall_forall. intros c Hc. apply shardCaps_each in Hc; [|lia..].
    assert (minShardBytes <= maxBytes / n); [|lia]. apply Z.div_le_lower_bound; [lia|].
    by apply shardCount_floor.
Qed.

Lemma shards_partition_budget_witness :
  shardCount 3145729 = 3 /\ sumZ (fun c => c) (shardCaps 3145729 (shardCount 3145729)) = 3145729.
Proof.
  split; [vm_compute; reflexivity|]. apply (shards_partition_budget 3145729 (go "a.m3u8")). lia.
Defined.
