(* ===== verification/Ring.v ===== *)
(** * A map with a ring of its keys and a byte counter

    The structure both cache tiers keep per shard ([ramShard] and [diskShard]
    of [internal/cache]): the ring lists the keys of the map once each, and the
    counter is the sum of the entries' sizes. *)

From stdpp Require Import base strings pretty numbers gmap list.
From S2P Require Import Prelude.
Open Scope Z_scope.

(** [lru.Remove(e.el)] for the entry of [k], on a ring listed from the back:
    the entry's element is the frontmost one with its key. *)
Fixpoint ring_remove (k : bytes) (l : list bytes) : list bytes :=
  match l with
  | [] => []
  | x :: r => if bool_decide (x = k /\ k ∉ r) then r else x :: ring_remove k r
  end.

Lemma elem_of_ring_remove k l x : x ∈ ring_remove k l -> x ∈ l.
Proof.
  induction l as [|y l IH]; simpl; [done|]. case_bool_decide; [by right|].
  rewrite !elem_of_cons. tauto.
Qed.

Lemma ring_remove_perm k l : NoDup l -> k ∈ l -> Permutation l (k :: ring_remove k l) /\ k ∉ ring_remove k l.
Proof.
  intros Hn Hk. induction Hn as [|x l Hx Hn IH]; [by apply not_elem_of_nil in Hk|].
  simpl. case_bool_decide as E; simpl.
  - destruct E as [-> E]. done.
  - assert (x <> k) as Hne by (intros ->; by apply E).
    apply elem_of_cons in Hk as [Hk|Hk]; [congruence|]. destruct (IH Hk) as [Hp Hni]. split.
    + rewrite Hp at 1. apply Permutation_swap.
    + apply not_elem_of_cons. split; [congruence|done].
Qed.

Section Ring.
Context {E : Type} (sz : E -> Z) (sz_nonneg : forall e, 0 <= sz e).

Definition esize (items : gmap bytes E) (k : bytes) : Z :=
  match items !! k with Some e => sz e | None => 0 end.

Definition held_by (items : gmap bytes E) (lru : list bytes) : Z := sumZ (esize items) lru.

Record ring_ok (items : gmap bytes E) (lru : list bytes) (cur : Z) : Prop := {
  ring_nodup : NoDup lru;
  ring_dom : forall k, k ∈ lru <-> is_Some (items !! k);
  ring_sum : cur = held_by items lru
}.

Lemma esize_nonneg items k : 0 <= esize items k.
Proof using sz_nonneg. unfold esize. destruct (items !! k); [apply sz_nonneg|lia]. Qed.

Lemma held_nonneg items lru : 0 <= held_by items lru.
Proof using sz_nonneg. apply sumZ_nonneg, esize_nonneg. Qed.

Lemma ring_empty : ring_ok ∅ [] 0.
Proof.
  split; [constructor| |done]. intros k. rewrite lookup_empty.
  split; [by intros ?%not_elem_of_nil|by intros []].
Qed.

(** Removing an entry and its ring element. *)
Lemma ring_ok_remove items lru cur k e lru' :
  ring_ok items lru cur -> items !! k = Some e -> Permutation lru (k :: lru') -> k ∉ lru' ->
  ring_ok (delete k items) lru' (cur - sz e) /\ sz e <= cur.
Proof using sz_nonneg.
  intros [Hnd Hdom Hsum] He Hp Hk.
  assert (cur = sz e + held_by items lru') as Hcur.
  { rewrite Hsum. unfold held_by. rewrite (sumZ_perm _ _ _ Hp). simpl. unfold esize at 1. by rewrite He. }
  pose proof (held_nonneg items lru'). split; [|lia]. split.
  - rewrite Hp in Hnd. by apply NoDup_cons in Hnd as [_ ?].
  - intros x. rewrite lookup_delete_is_Some, <- Hdom, Hp, elem_of_cons. split; [|intros [? [?|?]]; congruence].
    intros Hx. split; [by intros ->|by right].
  - assert (held_by (delete k items) lru' = held_by items lru') as ->; [|lia].
    apply sumZ_ext. intros x Hx. unfold esize. rewrite lookup_delete_ne; [done|]. by intros ->.
Qed.

Lemma ring_ok_drop items lru cur k e :
  ring_ok items lru cur -> items !! k = Some e ->
  ring_ok (delete k items) (ring_remove k lru) (cur - sz e) /\ sz e <= cur /\ k ∉ ring_remove k lru.
Proof using sz_nonneg.
  intros H He. destruct (ring_remove_perm k lru) as [Hp Hk];
    [by eapply ring_nodup|by apply (ring_dom _ _ _ H); rewrite He|].
  destruct (ring_ok_remove items lru cur k e (ring_remove k lru)); done.
Qed.

(** Replacing an entry by one of the same size and reordering the ring. *)
Lemma ring_ok_touch items lru cur k e e' lru' :
  ring_ok items lru cur -> items !! k = Some e -> sz e' = sz e -> Permutation lru lru' ->
  ring_ok (<[k := e']> items) lru' cur.
Proof.
  intros [Hnd Hdom Hsum] He Hs Hp. split.
  - by rewrite <- Hp.
  - intros x. rewrite <- Hp, Hdom, lookup_insert_is_Some. split.
    + intros Hx. destruct (decide (k = x)); [by left|by right].
    + intros [<-|[_ ?]]; [by rewrite He|done].
  - rewrite Hsum. unfold held_by. rewrite (sumZ_perm _ _ _ Hp). apply sumZ_ext. intros x _. unfold esize.
    destruct (decide (x = k)) as [->|]; [by rewrite lookup_insert_eq, He, Hs|by rewrite lookup_insert_ne].
Qed.

(** Reordering the ring alone. *)
Lemma ring_ok_perm items lru cur lru' :
  ring_ok items lru cur -> Permutation lru lru' -> ring_ok items lru' cur.
Proof.
  intros [Hnd Hdom Hsum] Hp. split; [by rewrite <- Hp|intros x; by rewrite <- Hp|].
  rewrite Hsum. by apply sumZ_perm.
Qed.

(** Inserting a fresh key anywhere in the ring. *)
Lemma ring_ok_insert items lru cur k e lru' :
  ring_ok items lru cur -> k ∉ lru -> Permutation lru' (k :: lru) ->
  ring_ok (<[k := e]> items) lru' (cur + sz e).
Proof.
  intros [Hnd Hdom Hsum] Hk Hp. split.
  - rewrite Hp. by apply NoDup_cons.
  - intros x. rewrite Hp, elem_of_cons, lookup_insert_is_Some, <- Hdom.
    destruct (decide (k = x)) as [->|]; [tauto|]. split; [intros [?|?]; [congruence|tauto]|tauto].
  - unfold held_by. rewrite (sumZ_perm _ _ _ Hp). simpl. unfold esize at 1. rewrite lookup_insert_eq.
    rewrite (sumZ_ext _ (esize items)); [rewrite Hsum; unfold held_by; lia|].
    intros x Hx. unfold esize. rewrite lookup_insert_ne; [done|]. by intros ->.
Qed.
End Ring.
