(* ===== verification/Ram.v ===== *)
(** * The RAM tier ([internal/cache/ram.go])

    A shard is its byte counters, its map and its CLOCK ring.  The ring is the
    list of its keys with the back (the oldest insertion) first; the element of
    an entry is the frontmost one with its key, which the invariant [shard_ok]
    shows to be the only one.
    The lock of a shard makes each of its operations atomic. *)

From stdpp Require Import base strings pretty numbers gmap list.
From S2P Require Import Prelude Shard Ring.
Open Scope Z_scope.

Definition blen (b : bytes) : Z := Z.of_nat (length b).

Record ramEntry : Type := mkEntry { e_meta : ObjectMeta; e_data : bytes; e_ref : bool }.

Record ramShard : Type := mkShard {
  s_maxBytes : Z;
  s_curBytes : Z;
  s_atomicBytes : Z;
  s_items : gmap bytes ramEntry;
  s_lru : list bytes
}.

(** A shard with new contents and an unpublished byte counter. *)
Definition upd (s : ramShard) (cur : Z) (items : gmap bytes ramEntry) (lru : list bytes) : ramShard :=
  mkShard (s_maxBytes s) cur (s_atomicBytes s) items lru.

(** [atomic.StoreInt64(&s.atomicBytes, s.curBytes)] *)
Definition publish (s : ramShard) : ramShard :=
  mkShard (s_maxBytes s) (s_curBytes s) (s_curBytes s) (s_items s) (s_lru s).

Definition newShard (cap : Z) : ramShard := mkShard cap 0 0 ∅ [].

(** Drop the entry of [key], if any, from the map, the ring and [curBytes]. *)
Definition dropEntry (s : ramShard) (key : bytes) : ramShard :=
  match s_items s !! key with
  | Some old =>
      upd s (wrap64 (s_curBytes s - blen (e_data old))) (delete key (s_items s)) (ring_remove key (s_lru s))
  | None => s
  end.

Definition shardGet (s : ramShard) (key : bytes) : option (ObjectMeta * bytes) * ramShard :=
  match s_items s !! key with
  | None => (None, s)
  | Some e =>
      (Some (e_meta e, e_data e),
       upd s (s_curBytes s) (<[key := mkEntry (e_meta e) (e_data e) true]> (s_items s)) (s_lru s))
  end.

Definition shardDelete (s : ramShard) (key : bytes) : ramShard :=
  match s_items s !! key with
  | None => s
  | Some _ => publish (dropEntry s key)
  end.

(** The CLOCK sweep of [commit]. *)
Fixpoint evict (n : nat) (size : Z) (s : ramShard) : outcome Empty_set ramShard :=
  if wrap64 (s_curBytes s + size) >? s_maxBytes s then
    match n with
    | O => NoFuel
    | S n =>
        match s_lru s with
        | [] => Ok s
        | ek :: rest =>
            match s_items s !! ek with
            | None => evict n size (upd s (s_curBytes s) (s_items s) rest)
            | Some ev =>
                if e_ref ev then
                  evict n size (upd s (s_curBytes s)
                    (<[ek := mkEntry (e_meta ev) (e_data ev) false]> (s_items s)) (rest ++ [ek]))
                else
                  evict n size (upd s (wrap64 (s_curBytes s - blen (e_data ev)))
                    (delete ek (s_items s)) rest)
            end
        end
    end
  else Ok s.

(** Every iteration shortens the ring or clears a reference bit. *)
Definition evictFuel (s : ramShard) : nat := 2 * length (s_lru s).

Definition shardCommit (s : ramShard) (meta0 : ObjectMeta) (data : bytes) : outcome Empty_set (bool * ramShard) :=
  let size := blen data in
  let meta := set_Size size meta0 in
  if size >? s_maxBytes s then Ok (false, s)
  else
    let s1 := dropEntry s (Key meta) in
    let! s2 := evict (evictFuel s1) size s1 in
    Ok (true, publish (upd s2 (wrap64 (s_curBytes s2 + size))
      (<[Key meta := mkEntry meta data false]> (s_items s2)) (s_lru s2 ++ [Key meta]))).

Definition shardReset (s : ramShard) : ramShard := mkShard (s_maxBytes s) 0 0 ∅ [].

(** ** The tier *)

Record RAMTier : Type := mkRAMTier {
  r_maxBytes : Z;
  r_shards : list ramShard;
  r_maxObjectBytes : Z;
  r_inflightBytes : Z;
  r_inflightBudget : Z
}.

Definition NewRAMTier (maxBytes maxObjectBytes inflightBudget : Z) : RAMTier :=
  let n := shardCount maxBytes in
  mkRAMTier maxBytes (map newShard (shardCaps maxBytes n)) maxObjectBytes 0 inflightBudget.

Definition with_shards (r : RAMTier) (l : list ramShard) : RAMTier :=
  mkRAMTier (r_maxBytes r) l (r_maxObjectBytes r) (r_inflightBytes r) (r_inflightBudget r).

(** The index of the shard owning [key]. *)
Definition shard (r : RAMTier) (key : bytes) : nat :=
  Z.to_nat (shardIndex key (Z.of_nat (length (r_shards r)))).

Definition Get (r : RAMTier) (key : bytes) : option (ObjectMeta * bytes) * RAMTier :=
  match r_shards r !! shard r key with
  | Some s => let '(o, s') := shardGet s key in (o, with_shards r (<[shard r key := s']> (r_shards r)))
  | None => (None, r)
  end.

Definition Delete (r : RAMTier) (key : bytes) : RAMTier :=
  match r_shards r !! shard r key with
  | Some s => with_shards r (<[shard r key := shardDelete s key]> (r_shards r))
  | None => r
  end.

Definition commit (r : RAMTier) (meta : ObjectMeta) (data : bytes) : outcome Empty_set (bool * RAMTier) :=
  match r_shards r !! shard r (Key meta) with
  | Some s =>
      let! (b, s') := shardCommit s meta data in
      Ok (b, with_shards r (<[shard r (Key meta) := s']> (r_shards r)))
  | None => Ok (false, r)
  end.

Definition Reset (r : RAMTier) : RAMTier := with_shards r (map shardReset (r_shards r)).

Definition Len (r : RAMTier) : Z := sumZ (fun s => Z.of_nat (size (s_items s))) (r_shards r).
Definition Bytes (r : RAMTier) : Z := fold_left (fun n s => wrap64 (n + s_atomicBytes s)) (r_shards r) 0.

(** ** The invariant of a shard *)

(** What a lookup of [k] would return. *)
Definition view (s : ramShard) (k : bytes) : option (ObjectMeta * bytes) :=
  (fun e => (e_meta e, e_data e)) <$> s_items s !! k.

Definition entry_size (e : ramEntry) : Z := blen (e_data e).

Lemma entry_size_nonneg e : 0 <= entry_size e.
Proof. unfold entry_size, blen. lia. Qed.

(** The ring lists the map's keys once each and [curBytes] is the sum of the
    bodies, within the cap; entries are stored under their own key with their
    own size. *)
Record shard_core (s : ramShard) : Prop := {
  sc_ring : ring_ok entry_size (s_items s) (s_lru s) (s_curBytes s);
  sc_cap : s_maxBytes s < 2 ^ 62;
  sc_bound : s_curBytes s <= Z.max 0 (s_maxBytes s);
  sc_meta : forall k e, s_items s !! k = Some e -> Key (e_meta e) = k /\ Size (e_meta e) = blen (e_data e)
}.

Definition shard_ok (s : ramShard) : Prop := shard_core s /\ s_atomicBytes s = s_curBytes s.

(** The bytes of the bodies a shard holds. *)
Definition held (s : ramShard) : Z := held_by entry_size (s_items s) (s_lru s).

Lemma held_pos s : 0 <= held s.
Proof. apply held_nonneg, entry_size_nonneg. Qed.

Lemma sc_sum s : shard_core s -> s_curBytes s = held s.
Proof. intros H. eapply ring_sum, H. Qed.

Lemma cur_nonneg s : shard_core s -> 0 <= s_curBytes s.
Proof. intros H. rewrite sc_sum by done. apply held_pos. Qed.

(** Removing an entry and its ring element. *)
Lemma core_remove s k e lru' :
  shard_core s -> s_items s !! k = Some e -> Permutation (s_lru s) (k :: lru') -> k ∉ lru' ->
  shard_core (upd s (wrap64 (s_curBytes s - blen (e_data e))) (delete k (s_items s)) lru').
Proof.
  intros H He Hp Hk. pose proof (sc_cap _ H). pose proof (sc_bound _ H). pose proof (cur_nonneg s H).
  destruct (ring_ok_remove entry_size entry_size_nonneg _ _ _ _ _ _ (sc_ring _ H) He Hp Hk) as [Hr Hle].
  pose proof (entry_size_nonneg e). unfold entry_size in *. rewrite wrap64_small by lia.
  split; cbn [upd s_lru s_items s_curBytes s_maxBytes]; [done|done|lia|].
  intros x e' Hx. apply lookup_delete_Some in Hx as [_ Hx]. by apply (sc_meta _ H).
Qed.

Lemma dropEntry_core s k : shard_core s -> shard_core (dropEntry s k) /\ k ∉ s_lru (dropEntry s k).
Proof.
  intros H. unfold dropEntry. destruct (s_items s !! k) as [e|] eqn:E.
  - destruct (ring_remove_perm k (s_lru s)) as [Hp Hk];
      [apply (ring_nodup _ _ _ _ (sc_ring _ H))|by apply (ring_dom _ _ _ _ (sc_ring _ H)); rewrite E|].
    split; [by apply core_remove|done].
  - split; [done|]. rewrite (ring_dom _ _ _ _ (sc_ring _ H)), E. by intros [].
Qed.

(** Rewriting an entry's reference bit. *)
Lemma core_touch s k e b lru' :
  shard_core s -> s_items s !! k = Some e -> Permutation (s_lru s) lru' ->
  shard_core (upd s (s_curBytes s) (<[k := mkEntry (e_meta e) (e_data e) b]> (s_items s)) lru').
Proof.
  intros H He Hp. split; cbn [upd s_lru s_items s_curBytes s_maxBytes]; [|apply H|apply H|].
  - by eapply ring_ok_touch; [apply H| | |].
  - intros x e' Hx. apply lookup_insert_Some in Hx as [[<- <-]|[_ Hx]];
      [exact (sc_meta _ H k e He)|by apply (sc_meta _ H)].
Qed.

Lemma view_touch s k e b lru' x :
  s_items s !! k = Some e ->
  view (upd s (s_curBytes s) (<[k := mkEntry (e_meta e) (e_data e) b]> (s_items s)) lru') x = view s x.
Proof.
  intros He. unfold view. cbn [upd s_items]. destruct (decide (k = x)) as [<-|].
  - by rewrite lookup_insert_eq, He.
  - by rewrite lookup_insert_ne.
Qed.

(** ** The CLOCK sweep *)

Definition refd (items : gmap bytes ramEntry) (k : bytes) : bool :=
  match items !! k with Some e => e_ref e | None => false end.

(** The measure of the sweep: ring elements plus second chances. *)
Definition chances (s : ramShard) : nat :=
  length (s_lru s) + length (List.filter (refd (s_items s)) (s_lru s)).

Lemma filter_refd_ext items items' l :
  (forall k, k ∈ l -> refd items k = refd items' k) ->
  List.filter (refd items) l = List.filter (refd items') l.
Proof. intros H. apply List.filter_ext_in. intros k Hk%list_elem_of_In. by apply H. Qed.

Lemma chances_fuel s : (chances s <= evictFuel s)%nat.
Proof. unfold chances, evictFuel. pose proof (List.filter_length_le (refd (s_items s)) (s_lru s)). lia. Qed.

(** [s'] is [s] with some entries gone. *)
Definition shrinks (s s' : ramShard) : Prop :=
  s_maxBytes s' = s_maxBytes s /\ forall k, view s' k = None \/ view s' k = view s k.

Lemma shrinks_refl s : shrinks s s.
Proof. split; auto. Qed.

Lemma shrinks_trans s1 s2 s3 : shrinks s1 s2 -> shrinks s2 s3 -> shrinks s1 s3.
Proof.
  intros [M1 H1] [M2 H2]. split; [congruence|]. intros k.
  destruct (H2 k) as [?| ->]; [by left|apply H1].
Qed.

Lemma view_delete s k cur lru x :
  view (upd s cur (delete k (s_items s)) lru) x = if bool_decide (x = k) then None else view s x.
Proof.
  unfold view. cbn [upd s_items]. case_bool_decide as E.
  - subst. by rewrite lookup_delete_eq.
  - by rewrite lookup_delete_ne.
Qed.

Lemma shrinks_delete s k cur lru : shrinks s (upd s cur (delete k (s_items s)) lru).
Proof. split; [done|]. intros x. rewrite view_delete. case_bool_decide; auto. Qed.

(** The sweep ends within its measure, makes room, and only removes entries. *)
Lemma evict_spec n size s :
  shard_core s -> (chances s <= n)%nat -> 0 <= size <= s_maxBytes s ->
  exists s', evict n size s = Ok s' /\ shard_core s' /\ shrinks s s' /\
    s_curBytes s' + size <= s_maxBytes s' /\ (forall k, k ∉ s_lru s -> k ∉ s_lru s').
Proof.
  revert s. induction n as [|n IH]; intros s H Hn Hsz; pose proof (cur_nonneg s H) as H0;
    pose proof (sc_cap _ H) as Hc; pose proof (sc_bound _ H) as Hb; cbn [evict];
    rewrite wrap64_small, Z.gtb_ltb by lia; destruct (Z.ltb_spec (s_maxBytes s) (s_curBytes s + size)) as [Hgt|Hle];
    try (by exists s; split_and!; [done|done|apply shrinks_refl|done|done]).
  - unfold chances in Hn. assert (s_lru s = []) as E by (destruct (s_lru s); [done|simpl in Hn; lia]).
    pose proof (sc_sum _ H) as Hs. unfold held in Hs. rewrite E in Hs. cbn in Hs. lia.
  - pose proof (ring_nodup _ _ _ _ (sc_ring _ H)) as Hnd. unfold chances in Hn. destruct (s_lru s) as [|ek rest] eqn:El.
    { pose proof (sc_sum _ H) as Hs. unfold held in Hs. rewrite El in Hs. cbn in Hs. lia. }
    apply NoDup_cons in Hnd as [Hek Hnd].
    assert (is_Some (s_items s !! ek)) as [ev Eev] by (apply (ring_dom _ _ _ _ (sc_ring _ H)); rewrite El; left).
    rewrite Eev. cbn [List.filter] in Hn. unfold refd at 1 in Hn. rewrite Eev in Hn.
    destruct (e_ref ev) eqn:Eref.
    + set (s1 := upd s _ _ _).
      destruct (IH s1) as (s' & He & Hc' & Hsh & Hroom & Hin).
      * apply core_touch; [done|done|]. rewrite El. apply Permutation_cons_append.
      * unfold s1, chances. cbn [upd s_lru s_items]. rewrite length_app, List.filter_app, length_app.
        rewrite (filter_refd_ext _ (s_items s) rest).
        -- simpl. unfold refd at 2. rewrite lookup_insert_eq. simpl in *. lia.
        -- intros k Hk. unfold refd. rewrite lookup_insert_ne; [done|]. by intros ->.
      * done.
      * exists s'. split_and!; [done|done| |done|].
        -- eapply shrinks_trans; [|done]. split; [done|]. intros k. right. by apply view_touch.
        -- intros k Hk. apply Hin. unfold s1. cbn [upd s_lru]. rewrite elem_of_app, list_elem_of_singleton.
           apply not_elem_of_cons in Hk. tauto.
    + set (s1 := upd s _ _ _).
      destruct (IH s1) as (s' & He & Hc' & Hsh & Hroom & Hin).
      * apply core_remove; [done|done|by rewrite El|done].
      * unfold s1, chances. cbn [upd s_lru s_items].
        rewrite (filter_refd_ext _ (s_items s) rest); [simpl in Hn; lia|].
        intros k Hk. unfold refd. rewrite lookup_delete_ne; [done|]. by intros ->.
      * done.
      * exists s'. split_and!; [done|done| |done|].
        -- eapply shrinks_trans; [apply shrinks_delete|done].
        -- intros k Hk. apply Hin. apply not_elem_of_cons in Hk. tauto.
Qed.

Lemma dropEntry_shrinks s k : shrinks s (dropEntry s k).
Proof. unfold dropEntry. destruct (s_items s !! k); [apply shrinks_delete|apply shrinks_refl]. Qed.

Lemma core_publish s : shard_core s -> shard_ok (publish s).
Proof. intros H. split; [|done]. split; apply H. Qed.

(** ** The operations of a shard *)

Lemma shardGet_spec s k : shard_ok s ->
  fst (shardGet s k) = view s k /\ shard_ok (snd (shardGet s k)) /\
  s_maxBytes (snd (shardGet s k)) = s_maxBytes s /\ forall x, view (snd (shardGet s k)) x = view s x.
Proof.
  intros [H Ha]. unfold shardGet, view. destruct (s_items s !! k) as [e|] eqn:E; simpl; [|done].
  split_and!; [done| |done|].
  - split; [|done]. by apply core_touch.
  - intros x. by apply (view_touch s k e true (s_lru s)).
Qed.

Lemma shardDelete_spec s k : shard_ok s ->
  shard_ok (shardDelete s k) /\ s_maxBytes (shardDelete s k) = s_maxBytes s /\
  forall x, view (shardDelete s k) x = if bool_decide (x = k) then None else view s x.
Proof.
  intros [H Ha]. unfold shardDelete. destruct (s_items s !! k) as [e|] eqn:E.
  - split_and!.
    + by apply core_publish, dropEntry_core.
    + unfold dropEntry. by rewrite E.
    + intros x. unfold dropEntry. rewrite E. apply (view_delete s k 0 []).
  - split_and!; [done|done|]. intros x. case_bool_decide; subst; [|done]. unfold view. by rewrite E.
Qed.

Lemma shardCommit_spec s meta data : shard_ok s ->
  (s_maxBytes s < blen data /\ shardCommit s meta data = Ok (false, s)) \/
  (blen data <= s_maxBytes s /\ exists s', shardCommit s meta data = Ok (true, s') /\ shard_ok s' /\
    s_maxBytes s' = s_maxBytes s /\
    view s' (Key meta) = Some (set_Size (blen data) meta, data) /\
    forall k, k <> Key meta -> view s' k = None \/ view s' k = view s k).
Proof.
  intros [H Ha]. unfold shardCommit. rewrite Z.gtb_ltb.
  destruct (Z.ltb_spec (s_maxBytes s) (blen data)) as [Hgt|Hle]; [by left|right]. split; [done|].
  change (Key (set_Size (blen data) meta)) with (Key meta).
  destruct (dropEntry_core s (Key meta) H) as [H1 Hk1]. pose proof (dropEntry_shrinks s (Key meta)) as Hs1.
  destruct (evict_spec (evictFuel (dropEntry s (Key meta))) (blen data) (dropEntry s (Key meta)))
    as (s2 & He & H2 & Hs2 & Hroom & Hk2); [done|apply chances_fuel|destruct Hs1 as [-> _]; unfold blen in *; lia|].
  rewrite He. cbn [obind]. eexists. split; [done|]. specialize (Hk2 _ Hk1).
  pose proof (shrinks_trans _ _ _ Hs1 Hs2) as [Hmax Hsh]. pose proof (cur_nonneg _ H2). pose proof (sc_cap _ H2).
  assert (s_items s2 !! Key meta = None) as Hnone.
  { apply eq_None_not_Some. by rewrite <- (ring_dom _ _ _ _ (sc_ring _ H2)). }
  split_and!; [|done| |].
  - apply core_publish. rewrite wrap64_small by (unfold blen in *; lia).
    split; cbn [upd s_lru s_items s_curBytes s_maxBytes].
    + change (blen data) with (entry_size (mkEntry (set_Size (blen data) meta) data false)) at 2.
      eapply ring_ok_insert; [apply H2|done|]. symmetry. apply Permutation_cons_append.
    + done.
    + lia.
    + intros x e Hx. apply lookup_insert_Some in Hx as [[<- <-]|[_ Hx]]; [done|by apply (sc_meta _ H2)].
  - unfold view. cbn. by rewrite lookup_insert_eq.
  - intros k Hk. unfold view. cbn. rewrite lookup_insert_ne by congruence. apply Hsh.
Qed.

Lemma newShard_ok cap : cap < 2 ^ 62 -> shard_ok (newShard cap).
Proof.
  intros H. split; [|done]. split; simpl; [apply ring_empty|done|lia|].
  intros k e. by rewrite lookup_empty.
Qed.

(** ** The tier *)

(** What the tier holds under [k]. *)
Definition tier_view (r : RAMTier) (k : bytes) : option (ObjectMeta * bytes) :=
  match r_shards r !! shard r k with Some s => view s k | None => None end.

Record tier_ok (r : RAMTier) : Prop := {
  to_caps : map s_maxBytes (r_shards r) = shardCaps (r_maxBytes r) (shardCount (r_maxBytes r));
  to_shards : Forall shard_ok (r_shards r);
  to_max : r_maxBytes r < 2 ^ 62
}.

Lemma tier_length r : tier_ok r -> Z.of_nat (length (r_shards r)) = shardCount (r_maxBytes r).
Proof.
  intros H. rewrite <- (length_map s_maxBytes), (to_caps _ H), shardCaps_length.
  pose proof (shardCount_range (r_maxBytes r)). lia.
Qed.

(** Every key has its shard. *)
Lemma tier_shard r k : tier_ok r -> exists s, r_shards r !! shard r k = Some s /\ shard_ok s.
Proof.
  intros H. pose proof (tier_length r H) as Hl. pose proof (shardCount_range (r_maxBytes r)) as Hr.
  assert (is_Some (r_shards r !! shard r k)) as [s Hs].
  { apply lookup_lt_is_Some. unfold shard. pose proof (shardIndex_range k (Z.of_nat (length (r_shards r)))). lia. }
  exists s. split; [done|]. eapply Forall_lookup_1; [apply H|done].
Qed.

(** Replacing the shard of [k] by one with the same cap. *)
Lemma tier_update r k s s' :
  tier_ok r -> r_shards r !! shard r k = Some s -> shard_ok s' -> s_maxBytes s' = s_maxBytes s ->
  let r' := with_shards r (<[shard r k := s']> (r_shards r)) in
  tier_ok r' /\ tier_view r' k = view s' k /\
  (forall x, shard r x = shard r k -> tier_view r' x = view s' x) /\
  (forall x, shard r x <> shard r k -> tier_view r' x = tier_view r x).
Proof.
  intros H Hs Hok Hmax r'. assert (forall x, shard r' x = shard r x) as Hsh.
  { intros x. unfold shard, r'. cbn [with_shards r_shards]. by rewrite length_insert. }
  pose proof (lookup_lt_Some _ _ _ Hs) as Hlt.
  assert (forall x, shard r x = shard r k -> tier_view r' x = view s' x) as Hsame.
  { intros x Hx. unfold tier_view. rewrite Hsh, Hx. unfold r'. cbn [with_shards r_shards].
    by rewrite list_lookup_insert_eq. }
  split_and!; [|by apply Hsame|done|].
  - split; cbn [r' with_shards r_shards r_maxBytes]; [|by apply Forall_insert; [apply H|]|apply H].
    rewrite <- (to_caps _ H), map_insert, Hmax. apply list_insert_id. by rewrite map_lookup, Hs.
  - intros x Hx. unfold tier_view. rewrite Hsh. unfold r'. cbn [with_shards r_shards].
    by rewrite list_lookup_insert_ne by congruence.
Qed.

Lemma Get_spec r k : tier_ok r ->
  fst (Get r k) = tier_view r k /\ tier_ok (snd (Get r k)) /\
  forall x, tier_view (snd (Get r k)) x = tier_view r x.
Proof.
  intros H. destruct (tier_shard r k H) as (s & Hs & Hok). unfold Get. rewrite Hs.
  destruct (shardGet_spec s k Hok) as (Hg & Hok' & Hmax & Hv).
  destruct (shardGet s k) as [o s']. simpl in *.
  destruct (tier_update r k s s' H Hs Hok' Hmax) as (H1 & H2 & H3 & H4). split_and!; [|done|].
  - unfold tier_view. by rewrite Hs.
  - intros x. destruct (decide (shard r x = shard r k)) as [E|]; [|by apply H4].
    rewrite H3, Hv by done. unfold tier_view. by rewrite E, Hs.
Qed.

Lemma Delete_spec r k : tier_ok r ->
  tier_ok (Delete r k) /\
  forall x, tier_view (Delete r k) x = if bool_decide (x = k) then None else tier_view r x.
Proof.
  intros H. destruct (tier_shard r k H) as (s & Hs & Hok). unfold Delete. rewrite Hs.
  destruct (shardDelete_spec s k Hok) as (Hok' & Hmax & Hv).
  destruct (tier_update r k s _ H Hs Hok' Hmax) as (H1 & H2 & H3 & H4). split; [done|].
  intros x. destruct (decide (shard r x = shard r k)) as [E|].
  - rewrite H3, Hv by done. unfold tier_view. by rewrite E, Hs.
  - rewrite H4 by done. case_bool_decide; [by subst|done].
Qed.

Lemma commit_spec r meta data : tier_ok r ->
  (commit r meta data = Ok (false, r) /\ exists s, r_shards r !! shard r (Key meta) = Some s /\ s_maxBytes s < blen data) \/
  (exists r', commit r meta data = Ok (true, r') /\ tier_ok r' /\
    tier_view r' (Key meta) = Some (set_Size (blen data) meta, data) /\
    forall k, k <> Key meta -> tier_view r' k = None \/ tier_view r' k = tier_view r k).
Proof.
  intros H. destruct (tier_shard r (Key meta) H) as (s & Hs & Hok). unfold commit. rewrite Hs.
  destruct (shardCommit_spec s meta data Hok) as [[Hgt ->]|(Hle & s' & -> & Hok' & Hmax & Hv & Ho)].
  - left. split; [|eauto]. cbn [obind]. rewrite list_insert_id by done. by destruct r.
  - right. eexists. split; [done|].
    destruct (tier_update r (Key meta) s s' H Hs Hok' Hmax) as (H1 & H2 & H3 & H4).
    split_and!; [done|by rewrite H2|]. intros k Hk.
    destruct (decide (shard r k = shard r (Key meta))) as [E|]; [|right; by apply H4].
    rewrite H3 by done. unfold tier_view. rewrite E, Hs. by apply Ho.
Qed.

Lemma Reset_spec r : tier_ok r -> tier_ok (Reset r) /\ forall x, tier_view (Reset r) x = None.
Proof.
  intros H. split.
  - split; cbn [Reset with_shards r_shards r_maxBytes]; [|apply Forall_map|apply H].
    + rewrite map_map. rewrite <- (to_caps _ H). by apply map_ext.
    + eapply list.Forall_impl; [apply H|]. intros s [Hs _]. apply newShard_ok, Hs.
  - intros x. unfold tier_view, Reset, shard. cbn [with_shards r_shards].
    rewrite map_lookup.
    destruct (r_shards r !! _); [|done]. simpl. unfold view. simpl. by rewrite lookup_empty.
Qed.

Lemma NewRAMTier_ok m o b : m < 2 ^ 62 -> tier_ok (NewRAMTier m o b).
Proof.
  intros H. split; cbn [NewRAMTier r_shards r_maxBytes]; [|apply Forall_map|done].
  - rewrite map_map. apply map_id.
  - apply list.Forall_forall. intros c Hc. apply newShard_ok.
    pose proof (shardCount_range m). destruct (Z.leb_spec m 0).
    + unfold shardCaps in Hc. rewrite (proj2 (Z.leb_le _ _) H1) in Hc.
      apply elem_of_replicate in Hc as [-> _]. lia.
    + destruct (decide (shardCount m = 1)) as [E|].
      * rewrite E in Hc. pose proof (shardCaps_sum m 1) as Hsum. pose proof (shardCaps_length m 1) as Hlen.
        destruct (shardCaps m 1) as [|c0 [|]]; try done. simpl in Hsum.
        apply list_elem_of_singleton in Hc as ->. lia.
      * apply shardCaps_each in Hc; [|lia..]. pose proof (Z.div_le_upper_bound m (shardCount m) (2 ^ 61)). lia.
Qed.

(** ** Reachable tiers *)

(** The operations callers run against the tier, in any order. *)
Inductive ram_step : RAMTier -> RAMTier -> Prop :=
| step_get r k : ram_step r (snd (Get r k))
| step_delete r k : ram_step r (Delete r k)
| step_commit r meta data b r' : commit r meta data = Ok (b, r') -> ram_step r r'
| step_reset r : ram_step r (Reset r).

Definition reachable (m o b : Z) (r : RAMTier) : Prop := rtc ram_step (NewRAMTier m o b) r.

Lemma ram_step_ok r r' : ram_step r r' -> tier_ok r -> tier_ok r' /\ r_maxBytes r' = r_maxBytes r.
Proof.
  intros Hs H. destruct Hs as [r k|r k|r meta data b r' Hc|r].
  - split; [by apply Get_spec|]. unfold Get. destruct (_ !! _); [|done]. by destruct (shardGet _ _).
  - split; [by apply Delete_spec|]. unfold Delete. by destruct (_ !! _).
  - destruct (commit_spec r meta data H) as [[Hc' _]|(r2 & Hc' & Hok & _)]; rewrite Hc in Hc'; simplify_eq; [done|].
    split; [done|]. unfold commit in Hc. destruct (_ !! _); [|by simplify_eq].
    inv_obind. destruct a as [b' s']. by simplify_eq.
  - split; [by apply Reset_spec|done].
Qed.

Lemma reachable_ok m o b r : m < 2 ^ 62 -> reachable m o b r -> tier_ok r /\ r_maxBytes r = m.
Proof.
  intros Hm Hr. unfold reachable in Hr. remember (NewRAMTier m o b) as r0 eqn:E.
  assert (tier_ok r0 /\ r_maxBytes r0 = m) as H by (subst; split; [by apply NewRAMTier_ok|done]). clear E.
  induction Hr as [r|r1 r2 r3 Hs _ IH]; [done|]. apply IH. destruct H as [H <-]. by apply ram_step_ok.
Qed.

Lemma atomic_held l : Forall shard_ok l -> sumZ s_atomicBytes l = sumZ held l.
Proof. induction 1 as [|s l [Hs Ha] _ IH]; simpl; [done|]. rewrite IH, Ha, (sc_sum _ Hs). done. Qed.

Lemma held_le_caps l :
  Forall shard_ok l -> sumZ held l <= sumZ (fun c => Z.max 0 c) (map s_maxBytes l).
Proof.
  induction 1 as [|s l [Hs _] _ IH]; simpl; [lia|]. pose proof (sc_bound _ Hs) as Hb.
  rewrite (sc_sum _ Hs) in Hb. lia.
Qed.

Lemma caps_sum_pos m :
  sumZ (fun c => Z.max 0 c) (shardCaps m (shardCount m)) = Z.max 0 m.
Proof.
  pose proof (shardCount_range m). destruct (Z.leb_spec m 0) as [Hm|Hm].
  - unfold shardCaps, shardCount. rewrite (proj2 (Z.leb_le _ _) Hm). simpl. lia.
  - rewrite (sumZ_ext _ (fun c => c)).
    + rewrite shardCaps_sum by lia. lia.
    + intros c Hc. apply shardCaps_each in Hc; [|lia..]. pose proof (Z.div_pos m (shardCount m)). lia.
Qed.

(** The RAM tier never outgrows its budget: after any sequence of reads,
    deletes, commits and resets, the lock-free byte count it reports is exactly
    the bytes of the bodies it holds, and at most the configured budget. *)
Theorem ram_bytes_bounded m o b r :
  m < 2 ^ 62 -> reachable m o b r ->
  Bytes r = sumZ held (r_shards r) /\ 0 <= Bytes r <= Z.max 0 m.
Proof.
  intros Hm Hr. destruct (reachable_ok m o b r Hm Hr) as [H <-].
  pose proof (held_le_caps _ (to_shards _ H)) as Hle. rewrite (to_caps _ H), caps_sum_pos in Hle.
  pose proof (sumZ_nonneg held (r_shards r) held_pos).
  assert (Bytes r = sumZ held (r_shards r)) as E; [|lia].
  pose proof (atomic_held _ (to_shards _ H)). pose proof (to_max _ H).
  unfold Bytes. rewrite fold_wrap64_sum; [lia| |lia|lia].
  eapply list.Forall_impl; [apply H|]. intros s [Hs Ha]. rewrite Ha. by apply cur_nonneg.
Qed.

Definition meta0 (k : bytes) : ObjectMeta := mkMeta k (-1) [] [] [] [] [] 0 false [].

(** A 10-byte tier after committing two 6-byte bodies: the first is evicted. *)
Definition tier_example : RAMTier :=
  match commit (NewRAMTier 10 0 0) (meta0 (go "a")) (go "aaaaaa") with
  | Ok (_, r) => match commit r (meta0 (go "b")) (go "bbbbbb") with Ok (_, r') => r' | _ => r end
  | _ => NewRAMTier 10 0 0
  end.

Lemma tier_example_reachable : reachable 10 0 0 tier_example.
Proof.
  unfold reachable. eapply rtc_l; [eapply (step_commit _ (meta0 (go "a")) (go "aaaaaa")); vm_compute; reflexivity|].
  eapply rtc_l; [eapply (step_commit _ (meta0 (go "b")) (go "bbbbbb")); vm_compute; reflexivity|].
  vm_compute. apply rtc_refl.
Defined.

Lemma ram_bytes_bounded_witness : Bytes tier_example = 6 /\ 0 <= 6 <= Z.max 0 10.
Proof.
  split; [vm_compute; reflexivity|].
  apply (ram_bytes_bounded 10 0 0 tier_example); [lia|apply tier_example_reachable].
Defined.

(** A commit to any reachable tier terminates, and either refuses an
    object larger than its shard's cap, changing nothing, or stores it: the next
    lookup of its key returns exactly that body with its size recorded, and no
    other key can start to return anything it did not return before (it is
    evicted or untouched). *)
Theorem ram_commit_get m o b r meta data :
  m < 2 ^ 62 -> reachable m o b r ->
  (commit r meta data = Ok (false, r) /\
    exists s, r_shards r !! shard r (Key meta) = Some s /\ s_maxBytes s < blen data) \/
  (exists r', commit r meta data = Ok (true, r') /\
    fst (Get r' (Key meta)) = Some (set_Size (blen data) meta, data) /\
    forall k, k <> Key meta -> fst (Get r' k) = None \/ fst (Get r' k) = fst (Get r k)).
Proof.
  intros Hm Hr. destruct (reachable_ok m o b r Hm Hr) as [H <-].
  destruct (commit_spec r meta data H) as [?|(r' & Hc & Hok & Hv & Ho)]; [by left|right].
  exists r'. destruct (Get_spec r' (Key meta) Hok) as [Hg _]. split_and!; [done|by rewrite Hg|].
  intros k Hk. destruct (Get_spec r' k Hok) as [-> _], (Get_spec r k H) as [-> _]. by apply Ho.
Qed.

Lemma ram_commit_get_witness :
  (commit tier_example (meta0 (go "c")) (go "ccccccccccc") = Ok (false, tier_example) /\
    exists s, r_shards tier_example !! shard tier_example (go "c") = Some s /\ s_maxBytes s < 11) \/
  (exists r', commit tier_example (meta0 (go "c")) (go "ccccccccccc") = Ok (true, r') /\
    fst (Get r' (go "c")) = Some (set_Size 11 (meta0 (go "c")), go "ccccccccccc") /\
    forall k, k <> go "c" -> fst (Get r' k) = None \/ fst (Get r' k) = fst (Get tier_example k)).
Proof. apply (ram_commit_get 10 0 0 tier_example (meta0 (go "c"))); [lia|apply tier_example_reachable]. Defined.
