(* ===== verification/RamWriter.v ===== *)
(** * Bounded RAM writers ([ramWriter], [reserve] and [release] of
    [internal/cache/ram.go])

    First the writer's methods, run without interference; then any number of
    writers running concurrently, in which the load and the compare-and-swap
    of [reserve] are separate steps. *)

From stdpp Require Import base strings pretty numbers gmap list.
From S2P Require Import Prelude Shard Ram.
Open Scope Z_scope.

Record ramWriter : Type := mkWriter {
  w_meta : ObjectMeta;
  w_buf : option bytes;       (* None is the nil buffer *)
  w_reserved : Z;
  w_overflow : bool;
  w_stored : bool
}.

Definition Writer (meta : ObjectMeta) : ramWriter := mkWriter meta (Some []) 0 false false.

Definition with_inflight (r : RAMTier) (n : Z) : RAMTier :=
  mkRAMTier (r_maxBytes r) (r_shards r) (r_maxObjectBytes r) n (r_inflightBudget r).

(** The test of [reserve] on the value [cur] it loaded. *)
Definition overBudget (r : RAMTier) (cur delta : Z) : bool := wrap64 (cur + delta) >? r_inflightBudget r.

Definition reserve (r : RAMTier) (delta : Z) : bool * RAMTier :=
  if r_inflightBudget r <=? 0 then (true, r)
  else
    let cur := r_inflightBytes r in
    if overBudget r cur delta then (false, r) else (true, with_inflight r (wrap64 (cur + delta))).

Definition release (r : RAMTier) (n : Z) : RAMTier :=
  if n >? 0 then with_inflight r (wrap64 (r_inflightBytes r - n)) else r.

Definition dropBuffer (r : RAMTier) (w : ramWriter) : RAMTier * ramWriter :=
  (release r (w_reserved w), mkWriter (w_meta w) None 0 true (w_stored w)).

Definition buffered (w : ramWriter) : bytes := default [] (w_buf w).

(** [need] of [Write]. *)
Definition need (w : ramWriter) (p : bytes) : Z := wrap64 (blen (buffered w) + blen p).

Definition overCap (r : RAMTier) (w : ramWriter) (p : bytes) : bool :=
  (r_maxObjectBytes r >? 0) && (need w p >? r_maxObjectBytes r).

(** [w.buf.Write(p)] with [w.reserved] at [n]. *)
Definition append (w : ramWriter) (n : Z) (p : bytes) : ramWriter :=
  mkWriter (w_meta w) (Some (buffered w ++ p)) n (w_overflow w) (w_stored w).

Definition Write (r : RAMTier) (w : ramWriter) (p : bytes) : RAMTier * ramWriter :=
  if w_overflow w then (r, w)
  else if overCap r w p then dropBuffer r w
  else
    let delta := wrap64 (need w p - w_reserved w) in
    if delta >? 0 then
      let '(ok, r') := reserve r delta in
      if ok then (r', append w (wrap64 (w_reserved w + delta)) p) else dropBuffer r w
    else (r, append w (w_reserved w) p).

Definition Commit (r : RAMTier) (w : ramWriter) : outcome Empty_set (RAMTier * ramWriter) :=
  let! (r1, stored) :=
    (if w_overflow w then Ok (r, w_stored w)
     else let! (b, r1) := commit r (w_meta w) (buffered w) in Ok (r1, b)) in
  Ok (release r1 (w_reserved w), mkWriter (w_meta w) None 0 (w_overflow w) stored).

Definition Abort (r : RAMTier) (w : ramWriter) : RAMTier * ramWriter :=
  (release r (w_reserved w), mkWriter (w_meta w) None 0 (w_overflow w) (w_stored w)).

Definition Stored (w : ramWriter) : bool := w_stored w.

Definition Writes (r : RAMTier) (w : ramWriter) (ps : list bytes) : RAMTier * ramWriter :=
  fold_left (fun rw p => Write (fst rw) (snd rw) p) ps (r, w).

(** ** Concurrent writers *)

(** Where a writer is: between calls, in [reserve] before its load, or after
    a load of [cur], with the chunk it is writing. *)
Inductive wpc : Type :=
| Idle
| Loading (p : bytes)
| Loaded (p : bytes) (cur : Z)
| Finished.

Record sys : Type := mkSys { y_tier : RAMTier; y_writers : list (ramWriter * wpc) }.

(** The growth [Write] charges for the chunk [p]. *)
Definition wdelta (w : ramWriter) (p : bytes) : Z := wrap64 (need w p - w_reserved w).

(** A step of one writer: its tier and its own state before and after. *)
Inductive wstep : RAMTier -> ramWriter * wpc -> RAMTier -> ramWriter * wpc -> Prop :=
| ws_swallow r w : w_overflow w = true -> wstep r (w, Idle) r (w, Idle)
| ws_cap r w p r' w' :
    w_overflow w = false -> overCap r w p = true -> dropBuffer r w = (r', w') ->
    wstep r (w, Idle) r' (w', Idle)
| ws_nogrowth r w p :
    w_overflow w = false -> overCap r w p = false -> wdelta w p <= 0 -> blen p < 2 ^ 62 ->
    wstep r (w, Idle) r (append w (w_reserved w) p, Idle)
| ws_unbounded r w p :
    w_overflow w = false -> overCap r w p = false -> 0 < wdelta w p -> r_inflightBudget r <= 0 ->
    wstep r (w, Idle) r (append w (wrap64 (w_reserved w + wdelta w p)) p, Idle)
| ws_reserve r w p :
    w_overflow w = false -> overCap r w p = false -> 0 < wdelta w p -> 0 < r_inflightBudget r ->
    blen p < 2 ^ 62 ->
    wstep r (w, Idle) r (w, Loading p)
| ws_load r w p : wstep r (w, Loading p) r (w, Loaded p (r_inflightBytes r))
| ws_refuse r w p cur r' w' :
    overBudget r cur (wdelta w p) = true -> dropBuffer r w = (r', w') ->
    wstep r (w, Loaded p cur) r' (w', Idle)
| ws_cas r w p cur :
    overBudget r cur (wdelta w p) = false -> r_inflightBytes r = cur ->
    wstep r (w, Loaded p cur) (with_inflight r (wrap64 (cur + wdelta w p)))
      (append w (wrap64 (w_reserved w + wdelta w p)) p, Idle)
| ws_retry r w p cur :
    overBudget r cur (wdelta w p) = false -> r_inflightBytes r <> cur ->
    wstep r (w, Loaded p cur) r (w, Loading p)
| ws_commit r w r' w' : Commit r w = Ok (r', w') -> wstep r (w, Idle) r' (w', Finished)
| ws_abort r w r' w' : Abort r w = (r', w') -> wstep r (w, Idle) r' (w', Finished).

Inductive sys_step : sys -> sys -> Prop :=
| ss_open y meta : sys_step y (mkSys (y_tier y) (y_writers y ++ [(Writer meta, Idle)]))
| ss_writer y i r x r' x' :
    y_tier y = r -> y_writers y !! i = Some x -> wstep r x r' x' ->
    sys_step y (mkSys r' (<[i := x']> (y_writers y)))
| ss_tier y r' : ram_step (y_tier y) r' -> sys_step y (mkSys r' (y_writers y)).

(** ** The in-flight invariant *)

(** The part of a tier the writers share. *)
Definition same_budget (r r' : RAMTier) : Prop :=
  r_inflightBudget r' = r_inflightBudget r /\ r_maxObjectBytes r' = r_maxObjectBytes r.

Lemma commit_budget r meta data b r' :
  commit r meta data = Ok (b, r') -> same_budget r r' /\ r_inflightBytes r' = r_inflightBytes r.
Proof.
  unfold commit. intros H. destruct (_ !! _); [|by simplify_eq].
  inv_obind. destruct a as [b' s']. by simplify_eq.
Qed.

Lemma ram_step_budget r r' : ram_step r r' -> same_budget r r' /\ r_inflightBytes r' = r_inflightBytes r.
Proof.
  intros H. destruct H as [r k|r k|r meta data b r' H|r]; [| |by eapply commit_budget|done].
  - unfold Get. destruct (_ !! _); [|done]. by destruct (shardGet _ _).
  - unfold Delete. by destruct (_ !! _).
Qed.

(** A writer holds exactly what it charged, within the per-object cap; inside
    [reserve] it is about to grow, on a loaded value that was within budget. *)
Definition pc_ok (r : RAMTier) (w : ramWriter) (pc : wpc) : Prop :=
  match pc with
  | Idle | Finished => True
  | Loading p => w_overflow w = false /\ overCap r w p = false /\ 0 < wdelta w p /\ blen p < 2 ^ 62
  | Loaded p cur =>
      (w_overflow w = false /\ overCap r w p = false /\ 0 < wdelta w p /\ blen p < 2 ^ 62) /\
      0 <= cur <= r_inflightBudget r
  end.

Definition writer_ok (r : RAMTier) (x : ramWriter * wpc) : Prop :=
  w_reserved (fst x) = blen (buffered (fst x)) /\
  (0 < r_maxObjectBytes r -> blen (buffered (fst x)) <= r_maxObjectBytes r) /\
  pc_ok r (fst x) (snd x).

Definition charged (x : ramWriter * wpc) : Z := w_reserved (fst x).

Record sys_ok (y : sys) : Prop := {
  so_budget : 0 < r_inflightBudget (y_tier y) < 2 ^ 62;
  so_writers : Forall (writer_ok (y_tier y)) (y_writers y);
  so_sum : r_inflightBytes (y_tier y) = sumZ charged (y_writers y);
  so_bound : r_inflightBytes (y_tier y) <= r_inflightBudget (y_tier y)
}.

Lemma writer_ok_same r r' x : same_budget r r' -> writer_ok r x -> writer_ok r' x.
Proof.
  intros [Hb Ho] (H1 & H2 & H3). split_and!; [done|by rewrite Ho|].
  destruct x as [w [|p|p cur|]]; simpl in *; unfold overCap in *; by rewrite ?Hb, ?Ho.
Qed.

Lemma charged_nonneg r x : writer_ok r x -> 0 <= charged x.
Proof. intros [H _]. unfold charged. rewrite H. unfold blen. lia. Qed.

Lemma wdelta_eq r w p pc :
  writer_ok r (w, pc) -> blen (buffered w) < 2 ^ 62 -> blen p < 2 ^ 62 ->
  wdelta w p = blen p /\ need w p = blen (buffered w) + blen p.
Proof.
  intros [H _] Hw Hp. cbn [fst] in H. unfold wdelta, need. unfold blen in *. unwrap64. lia.
Qed.

Lemma append_ok r w p n :
  n = blen (buffered w) + blen p -> (0 < r_maxObjectBytes r -> n <= r_maxObjectBytes r) ->
  writer_ok r (append w n p, Idle).
Proof.
  intros Hn Hc. unfold writer_ok. cbn [fst snd pc_ok].
  change (buffered (append w n p)) with (buffered w ++ p). change (w_reserved (append w n p)) with n.
  unfold blen in *. rewrite length_app. split_and!; [lia| |done]. intros H. apply Hc in H. lia.
Qed.

Lemma overCap_false r w p :
  overCap r w p = false -> 0 < r_maxObjectBytes r -> need w p <= r_maxObjectBytes r.
Proof. unfold overCap. rewrite !Z.gtb_ltb. intros H Hp. lia. Qed.

(** Dropping the buffer, [Commit] and [Abort] give the whole charge back. *)
Lemma writer_finish_ok r w o st pc :
  0 <= w_reserved w <= r_inflightBytes r -> r_inflightBytes r < 2 ^ 62 -> pc = Idle \/ pc = Finished ->
  let r' := release r (w_reserved w) in
  same_budget r r' /\ writer_ok r' (mkWriter (w_meta w) None 0 o st, pc) /\
  r_inflightBytes r' = r_inflightBytes r - w_reserved w.
Proof.
  intros Hw Hi Hpc r'. assert (same_budget r r' /\ r_inflightBytes r' = r_inflightBytes r - w_reserved w) as [Hsb Hin].
  { unfold r', release. rewrite Z.gtb_ltb. destruct (Z.ltb_spec 0 (w_reserved w)); [|split; [done|lia]].
    cbn. rewrite wrap64_small by lia. done. }
  split_and!; [done| |done]. unfold writer_ok. split_and!; [done|change (0 < r_maxObjectBytes r' -> 0 <= r_maxObjectBytes r'); lia|by destruct Hpc as [->| ->]].
Qed.

(** A successful compare-and-swap. *)
Lemma cas_ok r w p cur :
  0 < r_inflightBudget r < 2 ^ 62 -> writer_ok r (w, Loaded p cur) ->
  w_reserved w <= r_inflightBytes r -> overBudget r cur (wdelta w p) = false -> r_inflightBytes r = cur ->
  let r' := with_inflight r (wrap64 (cur + wdelta w p)) in
  let w' := append w (wrap64 (w_reserved w + wdelta w p)) p in
  writer_ok r' (w', Idle) /\ r_inflightBytes r' = cur + w_reserved w' - w_reserved w /\
  r_inflightBytes r' <= r_inflightBudget r.
Proof.
  intros Hb Hx Hle Hov Hcur r' w'. pose proof Hx as (Hres & Hcap & (Ho & Hc & Hd & Hp) & Hr). cbn [fst snd] in *.
  assert (blen (buffered w) < 2 ^ 62) as Hw by lia. destruct (wdelta_eq r w p (Loaded p cur) Hx Hw Hp) as [E1 E2].
  unfold overBudget in Hov. rewrite Z.gtb_ltb in Hov. unfold r', w'. rewrite E1 in *.
  assert (0 <= blen p /\ 0 <= blen (buffered w)) as [] by (unfold blen; lia).
  rewrite wrap64_small in Hov by lia. rewrite !wrap64_small by lia. split_and!; [|cbn; lia|cbn; lia].
  apply append_ok; [lia|]. cbn. intros Hpos. pose proof (overCap_false r w p Hc Hpos). lia.
Qed.

(** One writer's step changes the in-flight count by exactly the change of
    its own charge, and never beyond the budget. *)
Lemma wstep_ok r x r' x' :
  wstep r x r' x' -> 0 < r_inflightBudget r < 2 ^ 62 -> writer_ok r x ->
  charged x <= r_inflightBytes r <= r_inflightBudget r ->
  same_budget r r' /\ writer_ok r' x' /\
  r_inflightBytes r' = r_inflightBytes r + charged x' - charged x /\
  r_inflightBytes r' <= r_inflightBudget r.
Proof.
  intros Hs Hb Hx Hi. pose proof (charged_nonneg _ _ Hx) as H0.
  destruct Hs as [r w Ho|r w p r' w' Ho Hc Hd|r w p Ho Hc Hd Hp|r w p Ho Hc Hd Hu|r w p Ho Hc Hd Hu Hp|r w p
    |r w p cur r' w' Hov Hd|r w p cur Hov Hcur|r w p cur Hov Hcur|r w r' w' Hc|r w r' w' Ha];
    pose proof Hx as (Hres & Hcap & Hpc); unfold charged in *; cbn [fst snd w_reserved] in *.
  - split_and!; [done|done|lia|lia].
  - injection Hd as <- <-. destruct (writer_finish_ok r w true (w_stored w) Idle) as (? & ? & ?); [lia|lia|auto|].
    split_and!; [done|done|cbn; lia|lia].
  - assert (blen (buffered w) < 2 ^ 62) as Hw by lia. destruct (wdelta_eq r w p Idle Hx Hw Hp) as [E1 E2].
    assert (blen p = 0) as E3 by (unfold blen in *; lia).
    split_and!; [done| |cbn; lia|lia]. apply append_ok; [lia|]. intros Hpos. pose proof (overCap_false r w p Hc Hpos). lia.
  - lia.
  - split_and!; [done|unfold writer_ok; by split_and!|lia|lia].
  - split_and!; [done|unfold writer_ok; split_and!; [done|done|split; [done|lia]]|lia|lia].
  - injection Hd as <- <-. destruct (writer_finish_ok r w true (w_stored w) Idle) as (? & ? & ?); [lia|lia|auto|].
    split_and!; [done|done|cbn; lia|lia].
  - destruct (cas_ok r w p cur) as (? & ? & ?); [done|done|lia|done|done|]. split_and!; [done|done|lia|done].
  - destruct Hpc as [Hpc _]. split_and!; [done|unfold writer_ok; by split_and!|lia|lia].
  - unfold Commit in Hc. apply obind_Ok_inv in Hc as ([r1 st] & H1 & Hc). injection Hc as <- <-.
    assert (same_budget r r1 /\ r_inflightBytes r1 = r_inflightBytes r) as [[Hsb1 Hsb2] Hin].
    { destruct (w_overflow w); [by simplify_eq|]. apply obind_Ok_inv in H1 as ([b r2] & H1 & H2). simplify_eq.
      by eapply commit_budget. }
    destruct (writer_finish_ok r1 w (w_overflow w) st Finished) as ((? & ?) & ? & ?); [lia|lia|auto|].
    split_and!; [split; congruence|done|cbn; lia|lia].
  - injection Ha as <- <-. destruct (writer_finish_ok r w (w_overflow w) (w_stored w) Finished) as (? & ? & ?); [lia|lia|auto|].
    split_and!; [done|done|cbn; lia|lia].
Qed.

Lemma sys_step_ok y y' : sys_step y y' -> sys_ok y -> sys_ok y'.
Proof.
  intros Hs [Hb Hw Hsum Hle]. destruct Hs as [y meta|y i r x r' x' <- Hi Hs|y r' Hs]; cbn [y_tier y_writers].
  - split; cbn [y_tier y_writers]; [done| |rewrite sumZ_app; cbn; lia|done].
    apply list.Forall_app. split; [done|]. constructor; [|constructor].
    unfold writer_ok. split_and!; [done|unfold blen; cbn; lia|done].
  - assert (charged x <= r_inflightBytes (y_tier y)) as Hx.
    { rewrite Hsum. eapply sumZ_elem_le; [|done]. eapply list.Forall_impl; [done|]. intros. by eapply charged_nonneg. }
    destruct (wstep_ok _ _ _ _ Hs Hb) as (Hsb & Hok & Hin & Hbd); [by eapply Forall_lookup_1|lia|].
    pose proof Hsb as [Hsb1 Hsb2].
    split; cbn [y_tier y_writers]; [lia| |rewrite (sumZ_insert _ _ _ x) by done; lia|lia].
    apply Forall_insert; [|done]. eapply list.Forall_impl; [done|]. intros. by eapply writer_ok_same.
  - destruct (ram_step_budget _ _ Hs) as [Hsb Hin]. pose proof Hsb as [Hsb1 Hsb2].
    split; cbn [y_tier y_writers]; [lia| |lia|lia].
    eapply list.Forall_impl; [done|]. intros. by eapply writer_ok_same.
Qed.

(** C13. The out-of-memory guard holds under every interleaving: however
    many writers run, and wherever their loads and compare-and-swaps of the
    shared counter interleave with each other and with the tier's other
    operations, the counter is the sum of the live buffers, that sum never exceeds
    the in-flight budget, and no buffer exceeds the per-object cap. *)
Theorem inflight_bounded m o b y :
  0 < b < 2 ^ 62 -> rtc sys_step (mkSys (NewRAMTier m o b) []) y ->
  r_inflightBytes (y_tier y) = sumZ (fun x => blen (buffered (fst x))) (y_writers y) /\
  sumZ (fun x => blen (buffered (fst x))) (y_writers y) <= b /\
  (0 < o -> Forall (fun x => blen (buffered (fst x)) <= o) (y_writers y)).
Proof.
  intros Hb Hr.
  assert (sys_ok y /\ r_inflightBudget (y_tier y) = b /\ r_maxObjectBytes (y_tier y) = o) as (H & <- & <-).
  { remember (mkSys (NewRAMTier m o b) []) as y0 eqn:E.
    assert (sys_ok y0 /\ r_inflightBudget (y_tier y0) = b /\ r_maxObjectBytes (y_tier y0) = o) as H0.
    { subst. split_and!; [split; cbn; [done|constructor|done|lia]|done|done]. }
    clear E. induction Hr as [y|y1 y2 y3 Hs _ IH]; [done|]. apply IH. destruct H0 as (H0 & Hbu & Ho).
    split; [by eapply sys_step_ok|]. rewrite <- Hbu, <- Ho.
    destruct Hs as [y meta|y i r x r' x' <- Hi Hs|y r' Hs]; cbn [y_tier]; [done| |by apply ram_step_budget].
    destruct H0 as [Hb' Hw Hsum Hle]. edestruct wstep_ok as ([? ?] & _); [done|done|by eapply Forall_lookup_1| |done].
    split; [|done]. rewrite Hsum. eapply sumZ_elem_le; [|done].
    eapply list.Forall_impl; [done|]. intros. by eapply charged_nonneg. }
  destruct H as [Hb' Hw Hsum Hle].
  assert (sumZ charged (y_writers y) = sumZ (fun x => blen (buffered (fst x))) (y_writers y)) as E.
  { apply sumZ_ext. intros x Hx. rewrite list.Forall_forall in Hw. by apply Hw. }
  split_and!; [lia|lia|]. intros Ho. eapply list.Forall_impl; [done|]. intros x (_ & Hc & _). auto.
Qed.

(** Two writers of six bytes race for a budget of ten: both load 0, the first
    swaps, the second retries and is refused. *)
Definition race_end : sys :=
  mkSys (with_inflight (NewRAMTier 100 0 10) 6)
    [(mkWriter (meta0 (go "a")) (Some (go "aaaaaa")) 6 false false, Idle);
     (mkWriter (meta0 (go "b")) None 0 true false, Idle)].

Lemma race_reachable : rtc sys_step (mkSys (NewRAMTier 100 0 10) []) race_end.
Proof.
  eapply rtc_l; [apply (ss_open _ (meta0 (go "a")))|].
  eapply rtc_l; [apply (ss_open _ (meta0 (go "b")))|].
  eapply rtc_l; [eapply (ss_writer _ 0); [reflexivity..|apply (ws_reserve _ _ (go "aaaaaa")); vm_compute; done]|].
  eapply rtc_l; [eapply (ss_writer _ 1); [reflexivity..|apply (ws_reserve _ _ (go "bbbbbb")); vm_compute; done]|].
  eapply rtc_l; [eapply (ss_writer _ 0); [reflexivity..|apply ws_load]|].
  eapply rtc_l; [eapply (ss_writer _ 1); [reflexivity..|apply ws_load]|].
  eapply rtc_l; [eapply (ss_writer _ 0); [reflexivity..|apply ws_cas; vm_compute; done]|].
  eapply rtc_l; [eapply (ss_writer _ 1); [reflexivity..|apply ws_retry; vm_compute; done]|].
  eapply rtc_l; [eapply (ss_writer _ 1); [reflexivity..|apply ws_load]|].
  eapply rtc_l; [eapply (ss_writer _ 1); [reflexivity..|eapply ws_refuse; [vm_compute; done|reflexivity]]|].
  vm_compute. apply rtc_refl.
Defined.

Lemma inflight_bounded_witness :
  r_inflightBytes (y_tier race_end) = 6 /\
  sumZ (fun x => blen (buffered (fst x))) (y_writers race_end) <= 10.
Proof.
  split; [reflexivity|]. apply (inflight_bounded 100 0 10 race_end); [lia|apply race_reachable].
Defined.

(** ** What a writer stores *)

(** After some writes of a fresh writer on a tier that held [base] in-flight
    bytes: either everything is buffered and charged, or the writer gave up and
    holds nothing. *)
Definition progress (r0 : RAMTier) (meta : ObjectMeta) (body : bytes) (rw : RAMTier * ramWriter) : Prop :=
  let '(r, w) := rw in
  r = with_inflight r0 (r_inflightBytes r) /\ w_meta w = meta /\ w_stored w = false /\
  ((w_overflow w = false /\ w_buf w = Some body /\ w_reserved w = blen body /\
    r_inflightBytes r = r_inflightBytes r0 + blen body /\ r_inflightBytes r <= r_inflightBudget r0 /\
    (0 < r_maxObjectBytes r0 -> blen body <= r_maxObjectBytes r0)) \/
   (w_overflow w = true /\ w_reserved w = 0 /\ r_inflightBytes r = r_inflightBytes r0 /\
    (r_inflightBudget r0 < r_inflightBytes r0 + blen body \/ 0 < r_maxObjectBytes r0 < blen body))).

Lemma drop_progress r0 meta body p r w :
  progress r0 meta body (r, w) -> w_overflow w = false -> 0 <= r_inflightBytes r0 -> r_inflightBudget r0 < 2 ^ 62 ->
  r_inflightBudget r0 < r_inflightBytes r0 + blen (body ++ p) \/ 0 < r_maxObjectBytes r0 < blen (body ++ p) ->
  progress r0 meta (body ++ p) (dropBuffer r w).
Proof.
  intros (Hr & Hm & Hs & [(_ & _ & Hres & Hin & Hb & _)|[Hov _]]) Ho H0 Hbud Hwhy; [|congruence].
  assert (0 <= blen body) by (unfold blen; lia).
  unfold dropBuffer, release. rewrite Hres, Z.gtb_ltb. destruct (Z.ltb_spec 0 (blen body)).
  - split_and!; [by rewrite Hr|done|done|]. right. cbn. rewrite wrap64_small by lia. split_and!; [done..|lia|done].
  - split_and!; [done|done|done|]. right. split_and!; [done..|lia|done].
Qed.

Lemma Write_progress r0 meta body p rw :
  0 < r_inflightBudget r0 < 2 ^ 62 -> 0 <= r_inflightBytes r0 -> blen p < 2 ^ 62 ->
  progress r0 meta body rw -> progress r0 meta (body ++ p) (Write (fst rw) (snd rw) p).
Proof.
  intros Hb H0 Hp Hpr. destruct rw as [r w]. cbn [fst snd]. pose proof Hpr as (Hr & Hm & Hs & Hcase).
  assert (blen (body ++ p) = blen body + blen p) as Hlen by (unfold blen; rewrite length_app; lia).
  assert (0 <= blen p /\ 0 <= blen body) as [] by (unfold blen; lia).
  destruct Hcase as [(Ho & Hbuf & Hres & Hin & Hle & Hcap)|(Ho & Hres & Hin & Hwhy)]; unfold Write; rewrite Ho.
  2: { split_and!; [done..|]. right. split_and!; [done..|]. lia. }
  assert (need w p = blen body + blen p) as Hneed.
  { unfold need, buffered. rewrite Hbuf. cbn [default]. apply wrap64_small. lia. }
  assert (r_maxObjectBytes r = r_maxObjectBytes r0 /\ r_inflightBudget r = r_inflightBudget r0) as [Emo Ebu]
    by (rewrite Hr; done).
  unfold overCap. rewrite Hneed, Emo, !Z.gtb_ltb.
  destruct ((0 <? r_maxObjectBytes r0) && (r_maxObjectBytes r0 <? blen body + blen p)) eqn:Ecap.
  { apply drop_progress; [done..|lia|]. right. lia. }
  rewrite Hres. replace (wrap64 (blen body + blen p - blen body)) with (blen p) by (rewrite wrap64_small; lia).
  assert (forall n, append w n p = mkWriter meta (Some (body ++ p)) n false false) as Happ.
  { intros n. unfold append, buffered. by rewrite Hbuf, Hm, Ho, Hs. }
  destruct (Z.ltb_spec 0 (blen p)) as [Hpos|Hpos]; rewrite ?Z.gtb_ltb.
  - unfold reserve, overBudget. rewrite Ebu, (proj2 (Z.leb_gt _ _)) by lia. rewrite Z.gtb_ltb.
    rewrite wrap64_small by lia. destruct (Z.ltb_spec (r_inflightBudget r0) (r_inflightBytes r + blen p)).
    + apply drop_progress; [done..|lia|]. left. lia.
    + rewrite Happ. split_and!; [by rewrite Hr|done|done|]. left. cbn. rewrite wrap64_small by lia.
      split_and!; [done..|lia|lia|lia|lia].
  - rewrite Happ. split_and!; [done..|]. left. cbn. split_and!; [done..|lia|lia|lia|lia].
Qed.

Lemma Writes_progress r0 meta body ps rw :
  0 < r_inflightBudget r0 < 2 ^ 62 -> 0 <= r_inflightBytes r0 -> Forall (fun p => blen p < 2 ^ 62) ps ->
  progress r0 meta body rw ->
  progress r0 meta (body ++ concat ps) (fold_left (fun rw p => Write (fst rw) (snd rw) p) ps rw).
Proof.
  intros Hb H0 Hps. revert body rw. induction Hps as [|p ps Hp _ IH]; intros body rw Hpr; cbn [fold_left concat].
  - by rewrite app_nil_r.
  - rewrite app_assoc. apply IH. by apply Write_progress.
Qed.

Lemma with_inflight_view r n k : tier_view (with_inflight r n) k = tier_view r k.
Proof. done. Qed.

Lemma with_inflight_ok r n : tier_ok r -> tier_ok (with_inflight r n).
Proof. intros H. split; apply H. Qed.

Lemma release_inflight r n : release r n = with_inflight r (r_inflightBytes (release r n)).
Proof. unfold release. destruct (n >? 0); [done|]. by destruct r. Qed.

Lemma commit_with_inflight r n meta data :
  commit (with_inflight r n) meta data
  = (let! (b, r') := commit r meta data in Ok (b, with_inflight r' n)).
Proof.
  unfold commit. change (shard (with_inflight r n) (Key meta)) with (shard r (Key meta)). cbn [with_inflight r_shards].
  destruct (r_shards r !! shard r (Key meta)) as [s|]; [|done]. destruct (shardCommit s meta data) as [[b s']|[]|]; done.
Qed.

Lemma writer_whole r meta ps :
  tier_ok r -> 0 < r_inflightBudget r < 2 ^ 62 -> 0 <= r_inflightBytes r <= r_inflightBudget r ->
  Forall (fun p => blen p < 2 ^ 62) ps ->
  exists r2 w2,
    (let '(r1, w1) := Writes r (Writer meta) ps in Commit r1 w1) = Ok (r2, w2) /\ r_inflightBytes r2 = r_inflightBytes r /\
    (tier_ok r2 /\ r_inflightBudget r2 = r_inflightBudget r /\
     forall k, k <> Key meta -> tier_view r2 k = None \/ tier_view r2 k = tier_view r k) /\
    (Stored w2 = true -> fst (Get r2 (Key meta)) = Some (set_Size (blen (concat ps)) meta, concat ps)) /\
    (Stored w2 = false -> r_shards r2 = r_shards r) /\
    (r_inflightBytes r + blen (concat ps) <= r_inflightBudget r ->
     (0 < r_maxObjectBytes r -> blen (concat ps) <= r_maxObjectBytes r) ->
     (forall s, r_shards r !! shard r (Key meta) = Some s -> blen (concat ps) <= s_maxBytes s) ->
     Stored w2 = true).
Proof.
  intros Hok Hb [H0 H1] Hps. unfold Writes.
  assert (progress r meta [] (r, Writer meta)) as Hpr.
  { split_and!; [by destruct r|done|done|]. left. unfold blen. cbn. split_and!; try done; lia. }
  apply (Writes_progress r meta [] ps) in Hpr; [|done..]. cbn [app] in Hpr.
  destruct (fold_left _ ps _) as [r1 w1]. destruct Hpr as (Hr & Hm & Hs & Hcase). unfold Commit.
  destruct Hcase as [(Ho & Hbuf & Hres & Hin & Hle & Hcap)|(Ho & Hres & Hin & Hwhy)]; rewrite Ho; cbn [obind].
  - assert (0 <= blen (concat ps)) by (unfold blen; lia).
    replace (buffered w1) with (concat ps) by (unfold buffered; by rewrite Hbuf).
    rewrite Hm, Hr, commit_with_inflight.
    assert (forall r', r_inflightBytes r' = r_inflightBytes r + blen (concat ps) ->
      r_inflightBytes (release r' (w_reserved w1)) = r_inflightBytes r) as Hrel.
    { intros r' Hr'. unfold release. rewrite Hres, Z.gtb_ltb. destruct (Z.ltb_spec 0 (blen (concat ps))); [|lia].
      cbn. rewrite wrap64_small by lia. lia. }
    destruct (commit_spec r meta (concat ps) Hok) as [[-> (s & Hsh & Hbig)]|(r' & Hcom & Hok' & Hv & Hothers)].
    + cbn [obind]. do 2 eexists. split; [done|]. split_and!; [by apply Hrel|..].
      * rewrite release_inflight. by apply with_inflight_ok, with_inflight_ok.
      * by rewrite release_inflight.
      * intros k _. right. by rewrite release_inflight.
      * done.
      * intros _. by rewrite release_inflight.
      * intros _ _ Hfit. specialize (Hfit s Hsh). lia.
    + pose proof (commit_budget _ _ _ _ _ Hcom) as [[Hbud _] _]. rewrite Hcom. cbn [obind].
      do 2 eexists. split; [done|]. split_and!; [by apply Hrel|..| |done|done].
      { rewrite release_inflight. by apply with_inflight_ok, with_inflight_ok. }
      { by rewrite release_inflight. }
      { intros k Hk. rewrite release_inflight. by apply Hothers. }
      intros _. rewrite release_inflight. destruct (Get_spec (with_inflight (with_inflight r' (r_inflightBytes r1))
        (r_inflightBytes (release (with_inflight r' (r_inflightBytes r1)) (w_reserved w1)))) (Key meta)) as [-> _];
        [by apply with_inflight_ok, with_inflight_ok|done].
  - do 2 eexists. split; [done|]. rewrite Hres. change (release r1 0) with r1. cbn [Stored w_stored].
    rewrite Hs. split_and!; [done|rewrite Hr; by apply with_inflight_ok|by rewrite Hr|intros k _; right; by rewrite Hr
      |done|intros _; by rewrite Hr|]. intros Hf1 Hf2 _. lia.
Qed.

(** A streamed object is stored whole or not at all: after any chunks
    and [Commit], the in-flight charge is returned exactly, [Stored] implies that
    the key reads back as the concatenation of the chunks, not stored leaves
    every shard untouched, and an object that fits the per-object cap, the
    in-flight budget and its shard's cap is stored. *)
Theorem ram_writer_whole r meta ps :
  tier_ok r -> 0 < r_inflightBudget r < 2 ^ 62 -> 0 <= r_inflightBytes r <= r_inflightBudget r ->
  Forall (fun p => blen p < 2 ^ 62) ps ->
  exists r2 w2,
    (let '(r1, w1) := Writes r (Writer meta) ps in Commit r1 w1) = Ok (r2, w2) /\ r_inflightBytes r2 = r_inflightBytes r /\
    (Stored w2 = true -> fst (Get r2 (Key meta)) = Some (set_Size (blen (concat ps)) meta, concat ps)) /\
    (Stored w2 = false -> r_shards r2 = r_shards r) /\
    (r_inflightBytes r + blen (concat ps) <= r_inflightBudget r ->
     (0 < r_maxObjectBytes r -> blen (concat ps) <= r_maxObjectBytes r) ->
     (forall s, r_shards r !! shard r (Key meta) = Some s -> blen (concat ps) <= s_maxBytes s) ->
     Stored w2 = true).
Proof.
  intros Hok Hb H0 Hps. destruct (writer_whole r meta ps Hok Hb H0 Hps) as (r2 & w2 & Hc & Hi & _ & H1 & H2 & H3).
  by exists r2, w2.
Qed.

Lemma ram_writer_whole_witness :
  exists r2 w2,
    (let '(r1, w1) := Writes (NewRAMTier 100 50 60) (Writer (meta0 (go "k"))) [go "ab"; go "cd"] in Commit r1 w1)
    = Ok (r2, w2) /\
    fst (Get r2 (go "k")) = Some (set_Size 4 (meta0 (go "k")), go "abcd").
Proof.
  destruct (ram_writer_whole (NewRAMTier 100 50 60) (meta0 (go "k")) [go "ab"; go "cd"])
    as (r2 & w2 & Hc & _ & Hst & _ & Hfit).
  - apply NewRAMTier_ok. lia.
  - cbn. lia.
  - cbn. lia.
  - repeat constructor.
  - exists r2, w2. split; [exact Hc|]. apply Hst, Hfit; [vm_compute; done|vm_compute; done|].
    vm_compute. intros s [= <-]. done.
Defined.
