(* ===== verification/Disk.v ===== *)
(** * The disk tier ([internal/cache/disk.go])

    The blob directory is a map from file names to contents, and [index.json]
    the list of entries it decodes to ([None] when it is absent).  File names
    come from the parameter [blobPath] (the code hashes the key with SHA-256);
    failing system calls are boolean arguments, chosen by the environment.  The
    ring of a shard lists its keys from the back (least recently used) to the
    front. *)

From stdpp Require Import base strings pretty numbers gmap list.
From S2P Require Import Prelude GoStrings Shard Ring Ram.
Open Scope Z_scope.

Record diskShard : Type := mkDShard {
  d_maxBytes : Z;
  d_curBytes : Z;
  d_atomicBytes : Z;
  d_items : gmap bytes ObjectMeta;
  d_lru : list bytes;
  d_dirty : bool
}.

Record DiskTier : Type := mkDisk {
  k_maxBytes : Z;
  k_shards : list diskShard;
  k_fs : gmap bytes bytes;                  (* blobDir *)
  k_index : option (list ObjectMeta);       (* index.json *)
  k_persistErrs : Z;
  k_oversizeDiscards : Z;
  k_noTierDiscards : Z
}.

Definition newDShard (cap : Z) : diskShard := mkDShard cap 0 0 ∅ [] false.

(** JSON strings are valid UTF-8: [json.Marshal] replaces every invalid byte. *)
Definition jsonString (s : bytes) : bytes := flat_map encodeRune (runes s).

(** An entry after a round trip through [index.json]. *)
Definition persistMeta (m : ObjectMeta) : ObjectMeta :=
  mkMeta (jsonString (Key m)) (Size m) (jsonString (ContentType m)) (jsonString (ETag m))
    (jsonString (LastModified m)) (jsonString (ContentEncoding m)) (jsonString (Vary m))
    (Status m) (ForcedPrivate m) [].

Section Disk.
Context (blobPath : bytes -> bytes).

(** [removeLocked] *)
Definition removeLocked (s : diskShard) (fs : gmap bytes bytes) (k : bytes) : diskShard * gmap bytes bytes :=
  match d_items s !! k with
  | None => (s, fs)
  | Some e =>
      let cur := wrap64 (d_curBytes s - Size e) in
      (mkDShard (d_maxBytes s) cur cur (delete k (d_items s)) (ring_remove k (d_lru s)) true,
       delete (blobPath k) fs)
  end.

(** The eviction loops of [commit] (with [n] the new object's size) and of
    [load] (with [n = 0]). *)
Fixpoint evictBack (fuel : nat) (n : Z) (s : diskShard) (fs : gmap bytes bytes)
    : outcome Empty_set (diskShard * gmap bytes bytes) :=
  if wrap64 (d_curBytes s + n) >? d_maxBytes s then
    match d_lru s with
    | [] => Ok (s, fs)
    | back :: _ =>
        match fuel with
        | O => NoFuel
        | S fuel => let '(s', fs') := removeLocked s fs back in evictBack fuel n s' fs'
        end
    end
  else Ok (s, fs).

Definition dshard (d : DiskTier) (key : bytes) : nat :=
  Z.to_nat (shardIndex key (Z.of_nat (length (k_shards d)))).

Definition with_disk (d : DiskTier) (l : list diskShard) (fs : gmap bytes bytes) : DiskTier :=
  mkDisk (k_maxBytes d) l fs (k_index d) (k_persistErrs d) (k_oversizeDiscards d) (k_noTierDiscards d).

(** [s.lru.MoveToFront(e.el)] *)
Definition touch (s : diskShard) (k : bytes) : diskShard :=
  mkDShard (d_maxBytes s) (d_curBytes s) (d_atomicBytes s) (d_items s) (ring_remove k (d_lru s) ++ [k]) (d_dirty s).

Definition dGet (d : DiskTier) (key : bytes) (openFails : bool) : option (ObjectMeta * bytes) * DiskTier :=
  match k_shards d !! dshard d key with
  | None => (None, d)
  | Some s =>
      match d_items s !! key with
      | None => (None, d)
      | Some meta =>
          let s1 := touch s key in
          match (if openFails then None else k_fs d !! blobPath key) with
          | None =>
              let '(s2, fs) := removeLocked s1 (k_fs d) key in
              (None, with_disk d (<[dshard d key := s2]> (k_shards d)) fs)
          | Some body => (Some (meta, body), with_disk d (<[dshard d key := s1]> (k_shards d)) (k_fs d))
          end
      end
  end.

Definition dDelete (d : DiskTier) (key : bytes) : DiskTier :=
  match k_shards d !! dshard d key with
  | None => d
  | Some s =>
      let '(s', fs) := removeLocked s (k_fs d) key in
      with_disk d (<[dshard d key := s']> (k_shards d)) fs
  end.

(** [commit]: [renameFails] makes [os.Rename] fail; the result is whether the
    object was stored, and whether an error is returned. *)
Definition dcommit (d : DiskTier) (meta0 : ObjectMeta) (tmpPath : bytes) (n : Z) (renameFails : bool)
    : outcome Empty_set (bool * bool * DiskTier) :=
  let meta := set_Size n meta0 in
  let key := Key meta in
  match k_shards d !! dshard d key with
  | None => Ok (false, true, d)
  | Some s =>
      if n >? d_maxBytes s then
        let noTier := d_maxBytes s <=? 0 in
        Ok (false, false,
            mkDisk (k_maxBytes d) (k_shards d) (delete tmpPath (k_fs d)) (k_index d) (k_persistErrs d)
              (k_oversizeDiscards d + (if noTier then 0 else 1)) (k_noTierDiscards d + (if noTier then 1 else 0)))
      else
        let '(s1, fs1) := removeLocked s (k_fs d) key in
        let! (s2, fs2) := evictBack (length (d_lru s1)) n s1 fs1 in
        match (if renameFails then None else fs2 !! tmpPath) with
        | None => Ok (false, true, with_disk d (<[dshard d key := s2]> (k_shards d)) (delete tmpPath fs2))
        | Some body =>
            let cur := wrap64 (d_curBytes s2 + n) in
            let s3 := mkDShard (d_maxBytes s2) cur cur (<[key := meta]> (d_items s2)) (d_lru s2 ++ [key]) true in
            Ok (true, false, with_disk d (<[dshard d key := s3]> (k_shards d))
                               (<[blobPath key := body]> (delete tmpPath fs2)))
        end
  end.

(** ** Persistence *)

(** The entries of a shard, most recently used first. *)
Definition shardEntries (s : diskShard) : list ObjectMeta := omap (fun k => d_items s !! k) (rev (d_lru s)).

Definition clean_dirty (b : bool) (s : diskShard) : diskShard :=
  mkDShard (d_maxBytes s) (d_curBytes s) (d_atomicBytes s) (d_items s) (d_lru s) b.

Definition snapshotIfDirty (d : DiskTier) : list ObjectMeta * bool * DiskTier :=
  (flat_map shardEntries (k_shards d), existsb d_dirty (k_shards d),
   with_disk d (map (clean_dirty false) (k_shards d)) (k_fs d)).

(** [writeIndex]: marshal, write a temporary file, rename. *)
Definition writeIndex (d : DiskTier) (p : list ObjectMeta) (fails : bool) : bool * DiskTier :=
  if fails then (false, d)
  else (true, mkDisk (k_maxBytes d) (k_shards d) (k_fs d) (Some (map persistMeta p)) (k_persistErrs d)
                (k_oversizeDiscards d) (k_noTierDiscards d)).

Definition flushIfDirty (d : DiskTier) (fails : bool) : DiskTier :=
  let '(p, anyDirty, d1) := snapshotIfDirty d in
  if negb anyDirty then d1
  else
    let '(ok, d2) := writeIndex d1 p fails in
    if ok then d2
    else mkDisk (k_maxBytes d2) (map (clean_dirty true) (k_shards d2)) (k_fs d2) (k_index d2)
           (k_persistErrs d2 + 1) (k_oversizeDiscards d2) (k_noTierDiscards d2).

Definition dClose (d : DiskTier) (fails : bool) : DiskTier :=
  let '(p, _, d1) := snapshotIfDirty d in snd (writeIndex d1 p fails).

(** [Reset]: the map iteration order does not matter, so the keys are taken
    in the map's own order. *)
Definition resetShard (s : diskShard) (fs : gmap bytes bytes) : diskShard * gmap bytes bytes :=
  fold_left (fun sf k => removeLocked (fst sf) (snd sf) k) (map fst (map_to_list (d_items s))) (s, fs).

Definition resetShards (l : list diskShard) (fs : gmap bytes bytes) : list diskShard * gmap bytes bytes :=
  fold_left (fun lf s => let '(s', fs') := resetShard s (snd lf) in (fst lf ++ [s'], fs')) l ([], fs).

Definition dReset (d : DiskTier) (fails : bool) : DiskTier :=
  let '(l, fs) := resetShards (k_shards d) (k_fs d) in flushIfDirty (with_disk d l fs) fails.

(** The body of the first loop of [load]. *)
Definition loadEntry (m : ObjectMeta) (d : DiskTier) : DiskTier :=
  let bp := blobPath (Key m) in
  match k_fs d !! bp, k_shards d !! dshard d (Key m) with
  | Some b, Some s =>
      if negb (blen b =? Size m) then with_disk d (k_shards d) (delete bp (k_fs d))
      else if Size m >? d_maxBytes s then with_disk d (k_shards d) (delete bp (k_fs d))
      else
        let cur := wrap64 (d_curBytes s + Size m) in
        let s' := mkDShard (d_maxBytes s) cur cur (<[Key m := m]> (d_items s)) (d_lru s ++ [Key m]) (d_dirty s) in
        with_disk d (<[dshard d (Key m) := s']> (k_shards d)) (k_fs d)
  | _, _ => with_disk d (k_shards d) (delete bp (k_fs d))
  end.

(** The second loop of [load]: shrink every shard to its cap. *)
Fixpoint shrinkShards (l : list diskShard) (fs : gmap bytes bytes)
    : outcome Empty_set (list diskShard * gmap bytes bytes) :=
  match l with
  | [] => Ok ([], fs)
  | s :: rest =>
      let! (s', fs1) := evictBack (length (d_lru s)) 0 s fs in
      let! (rest', fs2) := shrinkShards rest fs1 in
      Ok (s' :: rest', fs2)
  end.

(** [load]; the entries are read from the last to the first. *)
Definition load (d : DiskTier) : outcome Empty_set DiskTier :=
  match k_index d with
  | None => Ok d
  | Some entries =>
      let d1 := fold_right loadEntry d entries in
      let! (l, fs) := shrinkShards (k_shards d1) (k_fs d1) in
      Ok (with_disk d1 l fs)
  end.

(** [reapTempBlobs] *)
Definition reapTempBlobs (fs : gmap bytes bytes) : gmap bytes bytes :=
  filter (fun nb => HasPrefix (fst nb) (go "wip-") = false) fs.

(** [NewDiskTier] on a directory holding [fs] and [index]. *)
Definition NewDiskTier (maxBytes : Z) (fs : gmap bytes bytes) (index : option (list ObjectMeta))
    : outcome Empty_set DiskTier :=
  load (mkDisk maxBytes (map newDShard (shardCaps maxBytes (shardCount maxBytes))) (reapTempBlobs fs) index 0 0 0).

Definition dLen (d : DiskTier) : Z := sumZ (fun s => Z.of_nat (base.size (d_items s))) (k_shards d).
Definition dBytes (d : DiskTier) : Z := fold_left (fun n s => wrap64 (n + d_atomicBytes s)) (k_shards d) 0.

(** ** Writers *)

Record diskWriter : Type := mkDWriter { dw_meta : ObjectMeta; dw_tmp : bytes; dw_n : Z; dw_stored : bool }.

Definition with_fs (d : DiskTier) (fs : gmap bytes bytes) : DiskTier := with_disk d (k_shards d) fs.

(** [Writer]: [tmp] is the fresh name [os.CreateTemp] chose. *)
Definition dWriter (d : DiskTier) (meta : ObjectMeta) (tmp : bytes) : DiskTier * diskWriter :=
  (with_fs d (<[tmp := []]> (k_fs d)), mkDWriter meta tmp 0 false).

(** [Write], of which the file system accepts [k] bytes; they are not visible
    under the temporary name if that has been unlinked. *)
Definition dWrite (d : DiskTier) (w : diskWriter) (p : bytes) (k : nat) : DiskTier * diskWriter :=
  let done_ := take k p in
  (with_fs d (alter (fun b => b ++ done_) (dw_tmp w) (k_fs d)),
   mkDWriter (dw_meta w) (dw_tmp w) (wrap64 (dw_n w + blen done_)) (dw_stored w)).

Definition dCommit (d : DiskTier) (w : diskWriter) (closeFails renameFails : bool)
    : outcome Empty_set (bool * DiskTier * diskWriter) :=
  if closeFails then Ok (true, with_fs d (delete (dw_tmp w) (k_fs d)), w)
  else
    let! (stored, err, d') := dcommit d (dw_meta w) (dw_tmp w) (dw_n w) renameFails in
    Ok (err, d', mkDWriter (dw_meta w) (dw_tmp w) (dw_n w) stored).

Definition dAbort (d : DiskTier) (w : diskWriter) : DiskTier := with_fs d (delete (dw_tmp w) (k_fs d)).
End Disk.
