(* ===== verification/DiskProofs.v ===== *)
(** * The disk tier's invariant and its theorems

    The byte accounting of [Disk.v] under every operation and fault, what a
    lookup can return, and what a restart preserves. *)

From stdpp Require Import base strings pretty numbers gmap list.
From S2P Require Import Prelude GoStrings Shard Ring Ram Disk.
Open Scope Z_scope.

Definition msize (m : ObjectMeta) : Z := Z.max 0 (Size m).

Lemma msize_nonneg m : 0 <= msize m.
Proof. unfold msize. lia. Qed.

Record dshard_ok (s : diskShard) : Prop := {
  ds_ring : ring_ok msize (d_items s) (d_lru s) (d_curBytes s);
  ds_cap : d_maxBytes s < 2 ^ 62;
  ds_bound : d_curBytes s <= Z.max 0 (d_maxBytes s);
  ds_atomic : d_atomicBytes s = d_curBytes s;
  ds_meta : forall k m, d_items s !! k = Some m -> Key m = k /\ 0 <= Size m
}.

(** A shard that may exceed its cap, as while an index is loaded. *)
Record dshard_held (s : diskShard) : Prop := {
  dh_ring : ring_ok msize (d_items s) (d_lru s) (d_curBytes s);
  dh_cap : d_maxBytes s < 2 ^ 62;
  dh_cur : d_curBytes s < 2 ^ 62;
  dh_atomic : d_atomicBytes s = d_curBytes s;
  dh_meta : forall k m, d_items s !! k = Some m -> Key m = k /\ 0 <= Size m
}.

Lemma dshard_ok_held s : dshard_ok s <-> dshard_held s /\ d_curBytes s <= Z.max 0 (d_maxBytes s).
Proof. split; [intros []; split; [split; try done; lia|done]|]. intros [[] ?]. by split. Qed.

Lemma dheld_nonneg s : dshard_held s -> 0 <= d_curBytes s.
Proof. intros H. rewrite (ring_sum _ _ _ _ (dh_ring _ H)). apply held_nonneg, msize_nonneg. Qed.

Lemma dcur_nonneg s : dshard_ok s -> 0 <= d_curBytes s.
Proof. intros H. rewrite (ring_sum _ _ _ _ (ds_ring _ H)). apply held_nonneg, msize_nonneg. Qed.

Lemma newDShard_ok cap : cap < 2 ^ 62 -> dshard_ok (newDShard cap).
Proof. intros H. split; simpl; [apply ring_empty|done|lia|done|]. intros k m. by rewrite lookup_empty. Qed.

Section Proofs.
Context (blobPath : bytes -> bytes).

(** Some entries are dropped together with their blobs, nothing else changes. *)
Record trims (s : diskShard) (fs : gmap bytes bytes) (s' : diskShard) (fs' : gmap bytes bytes) : Prop := {
  tr_max : d_maxBytes s' = d_maxBytes s;
  tr_items : forall k, d_items s' !! k = d_items s !! k \/ d_items s' !! k = None;
  tr_fs : forall p, fs' !! p = fs !! p \/
    (exists k, p = blobPath k /\ is_Some (d_items s !! k) /\ d_items s' !! k = None)
}.

Lemma trims_refl s fs : trims s fs s fs.
Proof. split; auto. Qed.

Lemma trims_trans s fs s1 fs1 s2 fs2 : trims s fs s1 fs1 -> trims s1 fs1 s2 fs2 -> trims s fs s2 fs2.
Proof.
  intros [M1 I1 F1] [M2 I2 F2]. split; [congruence| |].
  - intros k. destruct (I2 k) as [->| ->]; [apply I1|by right].
  - intros p. destruct (F2 p) as [->|(k & -> & Hs & Hn)].
    + destruct (F1 p) as [->|(k & -> & Hs & Hn)]; [by left|]. right. exists k. split_and!; [done..|].
      destruct (I2 k) as [->| ->]; done.
    + right. exists k. split_and!; [done| |done]. destruct (I1 k) as [<-|E]; [done|].
      rewrite E in Hs. by destruct Hs.
Qed.

Lemma removeLocked_held s fs k : dshard_held s ->
  exists s' fs', removeLocked blobPath s fs k = (s', fs') /\ dshard_held s' /\ d_curBytes s' <= d_curBytes s /\ trims s fs s' fs' /\
    d_items s' = delete k (d_items s) /\ (k ∉ d_lru s') /\
    (is_Some (d_items s !! k) -> (length (d_lru s') < length (d_lru s))%nat) /\
    (forall x, x ∈ d_lru s' -> x ∈ d_lru s).
Proof.
  intros H. unfold removeLocked. destruct (d_items s !! k) as [m|] eqn:E.
  - destruct (ring_ok_drop msize msize_nonneg _ _ _ _ _ (dh_ring _ H) E) as (Hr & Hle & Hk).
    destruct (dh_meta _ H k m E) as [_ Hm]. unfold msize in *. replace (Z.max 0 (Size m)) with (Size m) in * by lia.
    pose proof (dh_cap _ H). pose proof (dh_cur _ H). pose proof (dheld_nonneg _ H).
    rewrite wrap64_small by lia. do 2 eexists. split; [done|]. cbn [d_items d_lru d_curBytes]. split_and!.
    + split; cbn; [done|done|lia|done|]. intros x m' Hx. apply lookup_delete_Some in Hx as [_ Hx]. by apply (dh_meta _ H).
    + lia.
    + split; cbn; [done| |].
      * intros x. destruct (decide (x = k)) as [->|]; [right; apply lookup_delete_eq|left; by apply lookup_delete_ne].
      * intros p. destruct (decide (p = blobPath k)) as [->|]; [right|left; by apply lookup_delete_ne].
        exists k. split_and!; [done|by rewrite E|apply lookup_delete_eq].
    + done.
    + done.
    + intros _. destruct (ring_remove_perm k (d_lru s)) as [Hp _];
        [apply (ring_nodup _ _ _ _ (dh_ring _ H))|by apply (ring_dom _ _ _ _ (dh_ring _ H)); rewrite E|].
      apply Permutation_length in Hp. simpl in Hp. lia.
    + intros x. apply elem_of_ring_remove.
  - exists s, fs. split; [done|]. split_and!; [done|lia|apply trims_refl| | | |done].
    + by rewrite delete_id.
    + rewrite (ring_dom _ _ _ _ (dh_ring _ H)), E. by intros [].
    + by intros [].
Qed.

Lemma removeLocked_spec s fs k : dshard_ok s ->
  exists s' fs', removeLocked blobPath s fs k = (s', fs') /\ dshard_ok s' /\ trims s fs s' fs' /\
    d_items s' = delete k (d_items s) /\ (k ∉ d_lru s') /\
    (is_Some (d_items s !! k) -> (length (d_lru s') < length (d_lru s))%nat) /\
    (forall x, x ∈ d_lru s' -> x ∈ d_lru s).
Proof.
  intros [Hh Hb]%dshard_ok_held. destruct (removeLocked_held s fs k Hh) as (s' & fs' & E & Hh' & Hle & T & Hrest).
  exists s', fs'. split; [done|]. split; [|done]. apply dshard_ok_held. split; [done|]. rewrite (tr_max _ _ _ _ T). lia.
Qed.

(** The eviction loop ends within the ring's length and makes room. *)
Lemma evictBack_spec fuel n s fs :
  dshard_ok s -> (length (d_lru s) <= fuel)%nat -> 0 <= n -> n <= Z.max 0 (d_maxBytes s) ->
  exists s' fs', evictBack blobPath fuel n s fs = Ok (s', fs') /\ dshard_ok s' /\ trims s fs s' fs' /\
    (0 <= d_maxBytes s -> d_curBytes s' + n <= d_maxBytes s) /\ (forall x, x ∈ d_lru s' -> x ∈ d_lru s).
Proof.
  revert s fs. induction fuel as [|fuel IH]; intros s fs H Hf Hn Hm;
    pose proof (dcur_nonneg s H) as H0; pose proof (ds_cap _ H) as Hcap; pose proof (ds_bound _ H) as Hb;
    cbn [evictBack]; rewrite wrap64_small, Z.gtb_ltb by lia;
    destruct (Z.ltb_spec (d_maxBytes s) (d_curBytes s + n)) as [Hgt|Hle];
    try (by exists s, fs; split_and!; [done|done|apply trims_refl|lia|done]);
    destruct (d_lru s) as [|back rest] eqn:El; try (simpl in Hf; lia);
    try (exists s, fs; split_and!; [done|done|apply trims_refl| |by rewrite El];
      pose proof (ring_sum _ _ _ _ (ds_ring _ H)) as Hs; rewrite El in Hs; cbn in Hs; lia).
  - destruct (removeLocked_spec s fs back H) as (s1 & fs1 & E1 & H1 & T1 & _ & _ & Hlen & Hin). rewrite E1.
    assert (is_Some (d_items s !! back)) as Hsome
      by (apply (ring_dom _ _ _ _ (ds_ring _ H)); rewrite El; left).
    specialize (Hlen Hsome). rewrite El in Hlen. simpl in Hlen, Hf.
    destruct (IH s1 fs1) as (s2 & fs2 & E2 & H2 & T2 & Hroom & Hin2); [done|lia|done|by rewrite (tr_max _ _ _ _ T1)|].
    exists s2, fs2. split_and!; [done|done|by eapply trims_trans| |].
    + rewrite <- (tr_max _ _ _ _ T1). done.
    + intros x Hx. rewrite <- El. auto.
Qed.

(** The eviction loop of [load] brings a shard within its cap. *)
Lemma evictBack_shrinks fuel s fs : dshard_held s -> (length (d_lru s) <= fuel)%nat ->
  exists s' fs', evictBack blobPath fuel 0 s fs = Ok (s', fs') /\ dshard_ok s' /\ trims s fs s' fs'.
Proof.
  revert s fs. induction fuel as [|fuel IH]; intros s fs H Hf; pose proof (dheld_nonneg s H) as Hpos; pose proof (dh_cur _ H) as Hcur;
    cbn [evictBack]; rewrite Z.add_0_r, wrap64_small, Z.gtb_ltb by lia;
    destruct (Z.ltb_spec (d_maxBytes s) (d_curBytes s)) as [Hgt|Hle];
    try (exists s, fs; split; [done|]; split; [apply dshard_ok_held; split; [done|lia]|apply trims_refl]);
    destruct (d_lru s) as [|back rest] eqn:El; try (simpl in Hf; lia);
    try (exists s, fs; split; [done|]; split; [apply dshard_ok_held; split; [done|]|apply trims_refl];
      pose proof (ring_sum _ _ _ _ (dh_ring _ H)) as Hs; rewrite El in Hs; cbn in Hs; lia).
  destruct (removeLocked_held s fs back H) as (s1 & fs1 & E1 & H1 & _ & T1 & _ & _ & Hlen & _). rewrite E1.
  assert (is_Some (d_items s !! back)) as Hsome by (apply (ring_dom _ _ _ _ (dh_ring _ H)); rewrite El; left).
  specialize (Hlen Hsome). rewrite El in Hlen. simpl in Hlen, Hf.
  destruct (IH s1 fs1) as (s2 & fs2 & E2 & H2 & T2); [done|lia|]. exists s2, fs2. split; [done|]. split; [done|]. by eapply trims_trans.
Qed.

(** ** The tier *)

Hypothesis blobPath_inj : forall k1 k2, blobPath k1 = blobPath k2 -> k1 = k2.

(** The entry of [k], and what a lookup of it returns when [os.Open] works. *)
Definition dmeta (d : DiskTier) (k : bytes) : option ObjectMeta :=
  match k_shards d !! dshard d k with Some s => d_items s !! k | None => None end.

Definition dhit (d : DiskTier) (k : bytes) : option (ObjectMeta * bytes) :=
  match dmeta d k with Some m => (fun b => (m, b)) <$> k_fs d !! blobPath k | None => None end.

Record disk_core (d : DiskTier) : Prop := {
  dk_caps : map d_maxBytes (k_shards d) = shardCaps (k_maxBytes d) (shardCount (k_maxBytes d));
  dk_shards : Forall dshard_ok (k_shards d);
  dk_max : k_maxBytes d < 2 ^ 62;
  dk_home : forall i s k, k_shards d !! i = Some s -> is_Some (d_items s !! k) -> dshard d k = i
}.

(** Every blob has the length its entry records. *)
Definition bodies_ok (d : DiskTier) : Prop := forall k m b, dhit d k = Some (m, b) -> blen b = Size m.

Definition disk_ok (d : DiskTier) : Prop := disk_core d /\ bodies_ok d.

Lemma disk_shard d k : disk_core d -> exists s, k_shards d !! dshard d k = Some s /\ dshard_ok s.
Proof.
  intros H. assert (Z.of_nat (length (k_shards d)) = shardCount (k_maxBytes d)) as Hl.
  { rewrite <- (length_map d_maxBytes), (dk_caps _ H), shardCaps_length.
    pose proof (shardCount_range (k_maxBytes d)). lia. }
  pose proof (shardCount_range (k_maxBytes d)).
  assert (is_Some (k_shards d !! dshard d k)) as [s Hs].
  { apply lookup_lt_is_Some. unfold dshard. pose proof (shardIndex_range k (Z.of_nat (length (k_shards d)))). lia. }
  exists s. split; [done|]. eapply Forall_lookup_1; [apply H|done].
Qed.

(** Replacing the shard of [key] by one that holds only keys of its own. *)
Lemma disk_update d key s s' fs :
  disk_core d -> k_shards d !! dshard d key = Some s -> dshard_ok s' -> d_maxBytes s' = d_maxBytes s ->
  (forall k, is_Some (d_items s' !! k) -> k = key \/ is_Some (d_items s !! k)) ->
  let d' := with_disk d (<[dshard d key := s']> (k_shards d)) fs in
  disk_core d' /\ (forall x, dshard d' x = dshard d x) /\
  (forall x, dmeta d' x = if decide (dshard d x = dshard d key) then d_items s' !! x else dmeta d x).
Proof.
  intros H Hs Hok Hmax Hkeys d'.
  assert (forall x, dshard d' x = dshard d x) as Hsh.
  { intros x. unfold dshard, d'. cbn [with_disk k_shards]. by rewrite length_insert. }
  pose proof (lookup_lt_Some _ _ _ Hs) as Hlt. split_and!; [|done|].
  - split; cbn [d' with_disk k_shards k_maxBytes]; [|by apply Forall_insert; [apply H|]|apply H|].
    + rewrite map_insert, Hmax, <- (dk_caps _ H). apply list_insert_id. by rewrite map_lookup, Hs.
    + intros i s0 k Hi Hk. change (dshard d' k = i). rewrite Hsh.
      apply list_lookup_insert_Some in Hi as [(<- & <- & _)|(_ & Hi)]; [|by apply (dk_home _ H i s0)].
      apply Hkeys in Hk as [->|Hk]; [done|]. by apply (dk_home _ H _ s).
  - intros x. unfold dmeta. rewrite Hsh. unfold d'. cbn [with_disk k_shards].
    destruct (decide (dshard d x = dshard d key)) as [E|].
    + by rewrite E, list_lookup_insert_eq.
    + by rewrite list_lookup_insert_ne by congruence.
Qed.

(** Trimming one shard only makes hits disappear. *)
Lemma trim_tier d key s s' fs' :
  disk_core d -> k_shards d !! dshard d key = Some s -> dshard_ok s' -> trims s (k_fs d) s' fs' ->
  let d' := with_disk d (<[dshard d key := s']> (k_shards d)) fs' in
  disk_core d' /\ forall x, dmeta d' x = None \/ (dmeta d' x = dmeta d x /\ dhit d' x = dhit d x).
Proof.
  intros H Hs Hok T d'. destruct (disk_update d key s s' fs' H Hs Hok (tr_max _ _ _ _ T)) as (H1 & Hsh & Hm).
  { intros k Hk. right. destruct (tr_items _ _ _ _ T k) as [<-|E]; [done|]. rewrite E in Hk. by destruct Hk. }
  split; [done|]. intros x.
  assert (dmeta d' x = None \/ dmeta d' x = dmeta d x) as [?|Hx]; [|by left|].
  { fold d' in Hm. rewrite Hm. destruct (decide _) as [E|]; [|by right].
    destruct (tr_items _ _ _ _ T x) as [->| ->]; [right|by left]. unfold dmeta. by rewrite E, Hs. }
  destruct (dmeta d' x) as [m|] eqn:Em; [|by left]. right. split; [done|].
  unfold dhit. rewrite <- Hx, Em. f_equal. change (k_fs d') with fs'.
  destruct (tr_fs _ _ _ _ T (blobPath x)) as [->|(k & Hk & Hsome & Hnone)]; [done|].
  apply blobPath_inj in Hk as <-. exfalso. pose proof (dk_home _ H _ _ _ Hs Hsome) as Hhome.
  fold d' in Hm. rewrite Hm, decide_True in Em by done. congruence.
Qed.

Lemma trim_bodies d d' :
  bodies_ok d -> (forall x, dmeta d' x = None \/ (dmeta d' x = dmeta d x /\ dhit d' x = dhit d x)) -> bodies_ok d'.
Proof.
  intros Hb Ht k m b Hh. destruct (Ht k) as [E|[_ E]].
  - unfold dhit in Hh. by rewrite E in Hh.
  - rewrite E in Hh. by apply (Hb k).
Qed.

Lemma touch_ok s k : dshard_ok s -> is_Some (d_items s !! k) -> dshard_ok (touch s k).
Proof.
  intros H Hk. split; cbn; [|apply H|apply H|apply H|apply H].
  eapply ring_ok_perm; [apply H|]. destruct (ring_remove_perm k (d_lru s)) as [Hp _];
    [apply (ring_nodup _ _ _ _ (ds_ring _ H))|by apply (ring_dom _ _ _ _ (ds_ring _ H))|].
  rewrite Hp at 1. apply Permutation_cons_append.
Qed.

Lemma trims_touch s fs k : trims s fs (touch s k) fs.
Proof. split; cbn; auto. Qed.

(** Dropping the entry of [k] and its blob, after touching the ring. *)
Lemma remove_tier d k s s0 :
  disk_ok d -> k_shards d !! dshard d k = Some s -> dshard_ok s0 -> trims s (k_fs d) s0 (k_fs d) ->
  d_items s0 = d_items s ->
  let '(s', fs') := removeLocked blobPath s0 (k_fs d) k in
  let d' := with_disk d (<[dshard d k := s']> (k_shards d)) fs' in
  disk_ok d' /\ forall x, dhit d' x = if decide (x = k) then None else dhit d x.
Proof.
  intros [H Hb] Hs Hok0 T0 Hi0.
  destruct (removeLocked_spec s0 (k_fs d) k Hok0) as (s2 & fs2 & -> & Hok2 & T2 & Hi2 & _).
  destruct (trim_tier d k s s2 fs2 H Hs Hok2) as [H1 Ht]; [by eapply trims_trans|].
  destruct (disk_update d k s s2 fs2 H Hs Hok2) as (_ & _ & Hm).
  { by rewrite (tr_max _ _ _ _ T2), (tr_max _ _ _ _ T0). }
  { intros x Hx. right. rewrite Hi2, Hi0 in Hx. by apply lookup_delete_is_Some in Hx as [_ ?]. }
  split; [split; [done|by eapply trim_bodies]|]. intros x.
  assert (dmeta (with_disk d (<[dshard d k:=s2]> (k_shards d)) fs2) x
    = if decide (x = k) then None else dmeta d x) as Hx.
  { rewrite Hm, Hi2, Hi0. destruct (decide (dshard d x = dshard d k)) as [E|], (decide (x = k)) as [->|]; try done.
    - apply lookup_delete_eq.
    - rewrite lookup_delete_ne by done. unfold dmeta. by rewrite E, Hs. }
  destruct (Ht x) as [Hn|[Hmx ->]].
  - unfold dhit at 1. rewrite Hn. destruct (decide (x = k)); [done|]. unfold dhit. by rewrite <- Hx, Hn.
  - destruct (decide (x = k)); [|done]. unfold dhit. by rewrite <- Hmx, Hx.
Qed.

Lemma dGet_spec d k openFails : disk_ok d ->
  let '(o, d') := dGet blobPath d k openFails in
  o = (if openFails then None else dhit d k) /\ disk_ok d' /\
  forall x, dhit d' x = (if decide (x = k) then o else dhit d x).
Proof.
  intros Hd. pose proof Hd as [H Hb]. destruct (disk_shard d k H) as (s & Hs & Hok). unfold dGet. rewrite Hs.
  assert (dmeta d k = d_items s !! k) as Hmk by (unfold dmeta; by rewrite Hs).
  destruct (d_items s !! k) as [m|] eqn:Em.
  2: { assert (dhit d k = None) as Hn by (unfold dhit; by rewrite Hmk). rewrite Hn.
       split_and!; [by destruct openFails|done|]. intros x. by destruct (decide (x = k)) as [->|]. }
  pose proof (touch_ok s k Hok ltac:(by rewrite Em)) as Hok1.
  destruct (if openFails then None else k_fs d !! blobPath k) as [body|] eqn:Eo.
  - assert (openFails = false /\ k_fs d !! blobPath k = Some body) as [-> Hbody] by (destruct openFails; done).
    destruct (trim_tier d k s (touch s k) (k_fs d) H Hs Hok1 (trims_touch _ _ _)) as [H1 Ht].
    assert (dhit d k = Some (m, body)) as Hhit by (unfold dhit; by rewrite Hmk, Hbody).
    rewrite Hhit. split_and!; [done|split; [done|by eapply trim_bodies]|].
    destruct (disk_update d k s (touch s k) (k_fs d) H Hs Hok1 eq_refl) as (_ & _ & Hm'); [by auto|].
    intros x. transitivity (dhit d x); [|by destruct (decide (x = k)) as [->|]].
    unfold dhit. rewrite Hm'. destruct (decide _) as [E|]; [|done]. unfold dmeta. by rewrite E, Hs.
  - pose proof (remove_tier d k s (touch s k) Hd Hs Hok1 (trims_touch _ _ _) eq_refl) as Hrem.
    destruct (removeLocked blobPath (touch s k) (k_fs d) k) as [s2 fs2]. destruct Hrem as [H1 H2].
    split_and!; [|done|done]. destruct openFails; [done|]. unfold dhit. by rewrite Hmk, Eo.
Qed.

Lemma dDelete_spec d k : disk_ok d ->
  disk_ok (dDelete blobPath d k) /\
  forall x, dhit (dDelete blobPath d k) x = if decide (x = k) then None else dhit d x.
Proof.
  intros Hd. destruct (disk_shard d k (proj1 Hd)) as (s & Hs & Hok). unfold dDelete. rewrite Hs.
  pose proof (remove_tier d k s s Hd Hs Hok (trims_refl _ _) eq_refl) as Hrem.
  by destruct (removeLocked blobPath s (k_fs d) k) as [s2 fs2].
Qed.

(** Deleting a file that is not a blob changes no lookup. *)
Lemma fs_delete_ok d tmp :
  disk_ok d -> (forall k, blobPath k <> tmp) ->
  disk_ok (with_disk d (k_shards d) (delete tmp (k_fs d))) /\
  forall x, dhit (with_disk d (k_shards d) (delete tmp (k_fs d))) x = dhit d x.
Proof.
  intros [H Hb] Ht. assert (forall x, dhit (with_disk d (k_shards d) (delete tmp (k_fs d))) x = dhit d x) as Hh.
  { intros x. unfold dhit, dmeta, dshard. cbn [with_disk k_shards k_fs]. by rewrite lookup_delete_ne by (symmetry; apply Ht). }
  split; [|done]. split; [split; apply H|]. intros k m b Hk. rewrite Hh in Hk. by apply (Hb k).
Qed.

(** The replace and eviction steps of [commit]. *)
Lemma make_room d meta n s :
  disk_ok d -> k_shards d !! dshard d (Key meta) = Some s -> 0 <= n <= d_maxBytes s ->
  exists s1 fs1 s2 fs2,
    removeLocked blobPath s (k_fs d) (Key meta) = (s1, fs1) /\
    evictBack blobPath (length (d_lru s1)) n s1 fs1 = Ok (s2, fs2) /\ dshard_ok s2 /\
    trims s (k_fs d) s2 fs2 /\ d_curBytes s2 + n <= d_maxBytes s2 /\ Key meta ∉ d_lru s2.
Proof.
  intros [H _] Hs Hn. destruct (disk_shard d (Key meta) H) as (s0 & Hs0 & Hok). rewrite Hs in Hs0. injection Hs0 as <-.
  destruct (removeLocked_spec s (k_fs d) (Key meta) Hok) as (s1 & fs1 & E1 & Hok1 & T1 & _ & Hk1 & _ & _).
  pose proof (tr_max _ _ _ _ T1) as M1.
  destruct (evictBack_spec (length (d_lru s1)) n s1 fs1 Hok1) as (s2 & fs2 & E2 & Hok2 & T2 & Hroom & Hin); [lia..|].
  exists s1, fs1, s2, fs2. split_and!; [done|done|done|by eapply trims_trans| |auto].
  rewrite (tr_max _ _ _ _ T2). lia.
Qed.

(** Installing the renamed blob. *)
Lemma install d meta n s s2 fs2 tmp body :
  disk_ok d -> k_shards d !! dshard d (Key meta) = Some s -> dshard_ok s2 -> trims s (k_fs d) s2 fs2 ->
  0 <= n -> d_curBytes s2 + n <= d_maxBytes s2 -> Key meta ∉ d_lru s2 -> blen body = n ->
  (forall k, blobPath k <> tmp) ->
  let cur := wrap64 (d_curBytes s2 + n) in
  let s3 := mkDShard (d_maxBytes s2) cur cur (<[Key meta := set_Size n meta]> (d_items s2)) (d_lru s2 ++ [Key meta]) true in
  let d' := with_disk d (<[dshard d (Key meta) := s3]> (k_shards d)) (<[blobPath (Key meta) := body]> (delete tmp fs2)) in
  disk_ok d' /\ dhit d' (Key meta) = Some (set_Size n meta, body) /\
  forall k, k <> Key meta -> dhit d' k = None \/ dhit d' k = dhit d k.
Proof.
  intros Hd Hs Hok2 T Hn Hroom Hk Hbody Htmp cur s3 d'. pose proof Hd as [H Hb].
  pose proof (dcur_nonneg _ Hok2) as Hcn. pose proof (ds_cap _ Hok2) as Hcc.
  assert (cur = d_curBytes s2 + n) as Hcur by (apply wrap64_small; lia).
  assert (dshard_ok s3) as Hok3.
  { split; cbn; [|done|lia|done|].
    - rewrite Hcur. replace n with (msize (set_Size n meta)) at 2 by (unfold msize; cbn; lia).
      eapply ring_ok_insert; [apply Hok2|done|]. symmetry. apply Permutation_cons_append.
    - intros x m Hx. apply lookup_insert_Some in Hx as [[<- <-]|[_ Hx]]; [done|by apply (ds_meta _ Hok2)]. }
  destruct (disk_update d (Key meta) s s3 (<[blobPath (Key meta) := body]> (delete tmp fs2)) H Hs Hok3)
    as (H1 & _ & Hm); [apply (tr_max _ _ _ _ T)| |].
  { intros k Hk'. cbn in Hk'. apply lookup_insert_is_Some in Hk' as [->|[_ Hk']]; [by left|right].
    destruct (tr_items _ _ _ _ T k) as [<-|E]; [done|]. rewrite E in Hk'. by destruct Hk'. }
  fold d' in H1, Hm.
  destruct (trim_tier d (Key meta) s s2 fs2 H Hs Hok2 T) as [_ Ht].
  destruct (disk_update d (Key meta) s s2 fs2 H Hs Hok2 (tr_max _ _ _ _ T)) as (_ & _ & Hm2).
  { intros k Hk'. right. destruct (tr_items _ _ _ _ T k) as [<-|E]; [done|]. rewrite E in Hk'. by destruct Hk'. }
  assert (dhit d' (Key meta) = Some (set_Size n meta, body)) as Hself.
  { unfold dhit. rewrite Hm, decide_True by done. cbn. rewrite lookup_insert_eq. cbn. by rewrite lookup_insert_eq. }
  assert (forall k, k <> Key meta -> dhit d' k = None \/ dhit d' k = dhit d k) as Hother.
  { intros k Hne. assert (dhit d' k = dhit (with_disk d (<[dshard d (Key meta):=s2]> (k_shards d)) fs2) k) as ->.
    { unfold dhit. rewrite Hm, Hm2. cbn [s3 d_items d' with_disk k_fs].
      rewrite (lookup_insert_ne (d_items s2)) by congruence.
      rewrite lookup_insert_ne by (by intros ?%blobPath_inj). by rewrite lookup_delete_ne by (symmetry; apply Htmp). }
    destruct (Ht k) as [E|[_ E]]; [left|by right]. unfold dhit. by rewrite E. }
  split_and!; [split; [done|]|done|done]. intros k m b Hkm.
  destruct (decide (k = Key meta)) as [->|Hne].
  - rewrite Hself in Hkm. injection Hkm as <- <-. done.
  - destruct (Hother k Hne) as [E|E]; rewrite E in Hkm; [done|by apply (Hb k)].
Qed.

Lemma dcommit_spec d meta tmp n rf :
  disk_ok d -> 0 <= n -> (forall k, blobPath k <> tmp) -> (forall b, k_fs d !! tmp = Some b -> blen b = n) ->
  exists stored err d', dcommit blobPath d meta tmp n rf = Ok (stored, err, d') /\ disk_ok d' /\
    (stored = true -> exists body, k_fs d !! tmp = Some body /\ dhit d' (Key meta) = Some (set_Size n meta, body)) /\
    (stored = false -> dhit d' (Key meta) = None \/ dhit d' (Key meta) = dhit d (Key meta)) /\
    (forall k, k <> Key meta -> dhit d' k = None \/ dhit d' k = dhit d k) /\
    (stored = false -> err = false -> forall k, dhit d' k = dhit d k) /\
    (rf = false -> is_Some (k_fs d !! tmp) -> err = false /\
     ((forall s, k_shards d !! dshard d (Key meta) = Some s -> n <= d_maxBytes s) -> stored = true)).
Proof.
  intros Hd Hn Htmp Hlen. destruct (disk_shard d (Key meta) (proj1 Hd)) as (s & Hs & Hok).
  unfold dcommit. change (Key (set_Size n meta)) with (Key meta). rewrite Hs, Z.gtb_ltb.
  destruct (Z.ltb_spec (d_maxBytes s) n) as [Hbig|Hfit].
  - do 3 eexists. split; [done|]. destruct (fs_delete_ok d tmp Hd Htmp) as [[[C1 C2 C3 C4] Hb'] Hh].
    split_and!; [split; [by split|exact Hb']|done|intros _; right; apply Hh|intros; right; apply Hh|intros; apply Hh|].
    intros _ _. split; [done|]. intros Hf. specialize (Hf s eq_refl). lia.
  - destruct (make_room d meta n s Hd Hs) as (s1 & fs1 & s2 & fs2 & -> & -> & Hok2 & T & Hroom & Hk); [lia|].
    cbn [obind]. assert (fs2 !! tmp = k_fs d !! tmp) as Etmp.
    { destruct (tr_fs _ _ _ _ T tmp) as [|(k & Hk' & _)]; [done|]. by destruct (Htmp k). }
    destruct (if rf then None else fs2 !! tmp) as [body|] eqn:Eb.
    + assert (rf = false /\ k_fs d !! tmp = Some body) as [-> Hbody] by (rewrite <- Etmp; destruct rf; done).
      destruct (install d meta n s s2 fs2 tmp body Hd Hs Hok2 T Hn Hroom Hk (Hlen _ Hbody) Htmp) as (H1 & H2 & H3).
      do 3 eexists. split; [done|]. split_and!; [done|eauto|done|done|done|done].
    + destruct (trim_tier d (Key meta) s s2 fs2 (proj1 Hd) Hs Hok2 T) as [H1 Ht].
      pose proof (trim_bodies _ _ (proj2 Hd) Ht) as Hb1.
      destruct (fs_delete_ok _ tmp (conj H1 Hb1) Htmp) as [H2 Hh]. cbn [with_disk k_shards k_fs] in H2, Hh.
      assert (forall k, dhit (with_disk d (<[dshard d (Key meta):=s2]> (k_shards d)) (delete tmp fs2)) k = None \/
        dhit (with_disk d (<[dshard d (Key meta):=s2]> (k_shards d)) (delete tmp fs2)) k = dhit d k) as Hall.
      { intros k. change (with_disk d _ (delete tmp fs2)) with
          (with_disk (with_disk d (<[dshard d (Key meta):=s2]> (k_shards d)) fs2)
             (<[dshard d (Key meta):=s2]> (k_shards d)) (delete tmp fs2)).
        rewrite Hh. destruct (Ht k) as [E|[_ E]]; [left|by right]. unfold dhit. by rewrite E. }
      do 3 eexists. split; [done|]. split_and!; [exact H2|done|intros _; apply Hall|intros; apply Hall|done|].
      intros -> [b Hb']. rewrite Etmp, Hb' in Eb. done.
Qed.

(** ** All shards at once *)

Definition trimsAll (l : list diskShard) (fs : gmap bytes bytes) (l' : list diskShard) (fs' : gmap bytes bytes) : Prop :=
  Forall2 (fun s s' => dshard_ok s' /\ d_maxBytes s' = d_maxBytes s /\ forall k, d_items s' !! k = d_items s !! k \/ d_items s' !! k = None) l l' /\
  forall p, fs' !! p = fs !! p \/
    exists k i s s', p = blobPath k /\ l !! i = Some s /\ l' !! i = Some s' /\ is_Some (d_items s !! k) /\ d_items s' !! k = None.

Lemma trimsAll_nil fs : trimsAll [] fs [] fs.
Proof. split; [constructor|by left]. Qed.

Lemma trimsAll_cons s fs s' fs1 l l' fs' : dshard_ok s' -> trims s fs s' fs1 -> trimsAll l fs1 l' fs' -> trimsAll (s :: l) fs (s' :: l') fs'.
Proof.
  intros Hok [Tm Ti Tf] [HF Hfs]. split; [by constructor|]. intros p.
  destruct (Hfs p) as [->|(k & i & t & t' & -> & Ht & Ht' & Hk)]; [|right; by exists k, (S i), t, t'].
  destruct (Tf p) as [->|(k & -> & Hk & Hn)]; [by left|]. right. by exists k, 0%nat, s, s'.
Qed.

Lemma trimsAll_ok d l' fs' :
  map d_maxBytes (k_shards d) = shardCaps (k_maxBytes d) (shardCount (k_maxBytes d)) -> k_maxBytes d < 2 ^ 62 ->
  (forall i s k, k_shards d !! i = Some s -> is_Some (d_items s !! k) -> dshard d k = i) -> bodies_ok d ->
  trimsAll (k_shards d) (k_fs d) l' fs' -> disk_ok (with_disk d l' fs').
Proof using blobPath_inj.
  intros Hcaps Hmax Hhome Hb [HF Hfs]. set (d' := with_disk d l' fs').
  assert (forall k, dshard d' k = dshard d k) as Hsh by (intros k; unfold dshard; cbn; by rewrite (Forall2_length _ _ _ HF)).
  assert (forall i s', l' !! i = Some s' -> exists s, k_shards d !! i = Some s /\ forall k, d_items s' !! k = d_items s !! k \/ d_items s' !! k = None) as Hi.
  { intros i s' Hs'. destruct (Forall2_lookup_r _ _ _ _ _ HF Hs') as (s & Hs & _ & _ & Hk). eauto. }
  split.
  - split; cbn [d' with_disk k_shards k_maxBytes]; [| |done|].
    + rewrite <- Hcaps. clear -HF. induction HF as [|s s' l l' (_ & E & _) _ IH]; [done|]. cbn. by rewrite E, IH.
    + clear -HF. induction HF as [|s s' l l' (H & _) _ IH]; by constructor.
    + intros i s' k Hs' Hk. rewrite Hsh. destruct (Hi i s' Hs') as (s & Hs & Hkk). apply (Hhome i s k Hs).
      destruct (Hkk k) as [<-|E]; [done|]. rewrite E in Hk. by destruct Hk.
  - intros k m b. unfold dhit, dmeta. rewrite Hsh. cbn [d' with_disk k_shards k_fs].
    destruct (l' !! dshard d k) as [s'|] eqn:Es'; [|done]. destruct (d_items s' !! k) as [m'|] eqn:Em; [|done].
    destruct (Hi _ _ Es') as (s & Hs & Hkk). destruct (Hkk k) as [E|E]; [|congruence].
    destruct (Hfs (blobPath k)) as [->|(k' & i & t & t' & Hp & Ht & Ht' & Hk' & Hn)].
    + intros Hd. apply (Hb k). unfold dhit, dmeta. by rewrite Hs, <- E, Em.
    + apply blobPath_inj in Hp as <-. pose proof (Hhome i t k Ht Hk') as <-. congruence.
Qed.

(** ** Reset *)

Lemma resetShard_spec s fs : dshard_ok s -> exists s' fs', resetShard blobPath s fs = (s', fs') /\ dshard_ok s' /\ trims s fs s' fs'.
Proof.
  unfold resetShard. generalize (map fst (map_to_list (d_items s))). intros ks. revert s fs.
  induction ks as [|k ks IH]; intros s fs H; cbn; [exists s, fs; split_and!; [done|done|apply trims_refl]|].
  destruct (removeLocked_spec s fs k H) as (s1 & fs1 & -> & H1 & T1 & _). destruct (IH s1 fs1 H1) as (s2 & fs2 & E & H2 & T2).
  exists s2, fs2. split_and!; [done|done|by eapply trims_trans].
Qed.

Lemma resetShards_spec l fs : Forall dshard_ok l -> exists l' fs', resetShards blobPath l fs = (l', fs') /\ trimsAll l fs l' fs'.
Proof.
  intros H. unfold resetShards.
  enough (forall acc, exists l' fs', fold_left (fun lf s => let '(s', fs') := resetShard blobPath s (snd lf) in (fst lf ++ [s'], fs')) l (acc, fs)
    = (acc ++ l', fs') /\ trimsAll l fs l' fs') as E by (destruct (E []) as (l' & fs' & -> & T); by exists l', fs').
  revert fs. induction H as [|s l Hs _ IH]; intros fs acc; cbn.
  - exists [], fs. rewrite app_nil_r. split; [done|apply trimsAll_nil].
  - destruct (resetShard_spec s fs Hs) as (s' & fs1 & -> & Hok & T). destruct (IH fs1 (acc ++ [s'])) as (l' & fs' & -> & T').
    exists (s' :: l'), fs'. rewrite <- app_assoc. split; [done|]. by eapply trimsAll_cons.
Qed.

(** ** Opening a directory *)

Lemma shrinkShards_spec l fs : Forall dshard_held l -> exists l' fs', shrinkShards blobPath l fs = Ok (l', fs') /\ trimsAll l fs l' fs'.
Proof.
  intros H. revert fs. induction H as [|s l Hs _ IH]; intros fs; cbn [shrinkShards]; [exists [], fs; split; [done|apply trimsAll_nil]|].
  destruct (evictBack_shrinks (length (d_lru s)) s fs Hs) as (s' & fs1 & -> & Hok & T); [lia|]. cbn [obind].
  destruct (IH fs1) as (l' & fs' & -> & T'). exists (s' :: l'), fs'. split; [done|]. by eapply trimsAll_cons.
Qed.

(** A tier while the entries [done] of its index are loaded. *)
Record loading (done : list ObjectMeta) (d : DiskTier) : Prop := {
  lo_caps : map d_maxBytes (k_shards d) = shardCaps (k_maxBytes d) (shardCount (k_maxBytes d));
  lo_max : k_maxBytes d < 2 ^ 62;
  lo_held : Forall (fun s => dshard_held s /\ d_curBytes s <= sumZ msize done) (k_shards d);
  lo_home : forall i s k, k_shards d !! i = Some s -> is_Some (d_items s !! k) -> dshard d k = i /\ k ∈ map Key done;
  lo_bodies : bodies_ok d
}.

(** A blob is removed. *)
Lemma loading_skip done m d : loading done d -> loading (m :: done) (with_disk d (k_shards d) (delete (blobPath (Key m)) (k_fs d))).
Proof.
  intros [Hc Hm Hh Hk Hb]. split; cbn [with_disk k_shards k_maxBytes]; try done.
  - eapply list.Forall_impl; [exact Hh|]. intros s [Hs Hle]. split; [done|]. cbn. pose proof (msize_nonneg m). lia.
  - intros i s k Hi Hs. destruct (Hk i s k Hi Hs). split; [done|]. by right.
  - intros k mt b. unfold dhit. change (dmeta (with_disk d (k_shards d) _) k) with (dmeta d k). cbn [with_disk k_fs].
    intros Hd. apply (Hb k). unfold dhit. destruct (dmeta d k); [|done]. destruct (decide (blobPath (Key m) = blobPath k)) as [E|E].
    + rewrite E, lookup_delete_eq in Hd. done.
    + by rewrite lookup_delete_ne in Hd.
Qed.

Lemma loading_entry done m d : loading done d -> Key m ∉ map Key done -> sumZ msize (m :: done) < 2 ^ 62 -> loading (m :: done) (loadEntry blobPath m d).
Proof using blobPath_inj.
  intros H Hnew Hsum. unfold loadEntry. destruct (k_fs d !! blobPath (Key m)) as [b|] eqn:Eb; [|by apply loading_skip].
  destruct (k_shards d !! dshard d (Key m)) as [s|] eqn:Es; [|by apply loading_skip].
  destruct (Z.eqb_spec (blen b) (Size m)) as [Hlen|]; cbn [negb]; [|by apply loading_skip].
  rewrite Z.gtb_ltb. destruct (Z.ltb_spec (d_maxBytes s) (Size m)) as [|Hfit]; [by apply loading_skip|].
  pose proof H as [Hc Hm Hh Hk Hb]. pose proof (lookup_lt_Some _ _ _ Es) as Hlt.
  destruct (Forall_lookup_1 _ _ _ _ Hh Es) as [Hs Hcur]. assert (0 <= Size m) as Hsz by (unfold blen in Hlen; lia).
  assert (msize m = Size m) as Hms by (unfold msize; lia). cbn in Hsum. rewrite Hms in Hsum. pose proof (dheld_nonneg s Hs).
  assert (Key m ∉ d_lru s) as Hni.
  { rewrite (ring_dom _ _ _ _ (dh_ring _ Hs)). intros Hsome. destruct (Hk _ s _ Es Hsome) as [_ ?]. done. }
  rewrite wrap64_small by lia. set (s' := mkDShard _ _ _ _ _ _).
  assert (dshard_held s') as Hs'.
  { split; cbn; [|apply Hs|lia|done|].
    - rewrite <- Hms. eapply ring_ok_insert; [apply Hs|done|]. symmetry. apply Permutation_cons_append.
    - intros k mt. rewrite lookup_insert. case_decide as E; [by intros [= <-]|apply Hs]. }
  assert (forall k, is_Some (d_items s' !! k) -> k = Key m \/ is_Some (d_items s !! k)) as Hkeys.
  { intros k. cbn. rewrite lookup_insert. case_decide; [by left|by right]. }
  assert (forall x, dshard (with_disk d (<[dshard d (Key m) := s']> (k_shards d)) (k_fs d)) x = dshard d x) as Hsh
    by (intros x; unfold dshard; cbn; by rewrite length_insert).
  split.
  - cbn [with_disk k_shards k_maxBytes]. rewrite map_insert, <- Hc. apply list_insert_id. by rewrite map_lookup, Es.
  - done.
  - cbn [with_disk k_shards]. apply Forall_insert.
    + eapply list.Forall_impl; [exact Hh|]. intros t [Ht Hle]. split; [done|]. cbn. lia.
    + split; [done|]. cbn. lia.
  - intros i t k Hi Hsome. rewrite Hsh. cbn [with_disk k_shards] in Hi.
    apply list_lookup_insert_Some in Hi as [(<- & <- & _)|(_ & Hi)].
    + destruct (Hkeys k Hsome) as [->|Hold]; [split; [done|by left]|]. destruct (Hk _ s k Es Hold). split; [done|by right].
    + destruct (Hk i t k Hi Hsome). split; [done|by right].
  - intros k mt b' Hd. unfold dhit, dmeta in Hd. rewrite Hsh in Hd. cbn [with_disk k_shards k_fs] in Hd.
    destruct (decide (dshard d k = dshard d (Key m))) as [E|E].
    + rewrite E, list_lookup_insert_eq in Hd by done. cbn in Hd. rewrite lookup_insert in Hd. case_decide as Ek.
      * subst k. rewrite Eb in Hd. by injection Hd as <- <-.
      * apply (Hb k). unfold dhit, dmeta. by rewrite E, Es.
    + rewrite list_lookup_insert_ne in Hd by congruence. by apply (Hb k).
Qed.

Lemma loading_all idx d : loading [] d -> NoDup (map Key idx) -> sumZ msize idx < 2 ^ 62 -> loading idx (fold_right (loadEntry blobPath) d idx).
Proof using blobPath_inj.
  intros H Hn Hsum. induction idx as [|m idx IH]; [done|]. cbn [map] in Hn. apply NoDup_cons in Hn as [Hm Hn]. cbn [fold_right].
  apply loading_entry; [|done|done]. apply IH; [done|]. cbn in Hsum. pose proof (msize_nonneg m). lia.
Qed.
End Proofs.
