(* ===== verification/DiskSystem.v ===== *)
(** * A running disk tier

    The tier of [Disk.v] with its open writers, under any interleaving of
    operations, flushes, failing system calls, vanishing files, and restarts after
    a close or a crash. *)

From stdpp Require Import base strings pretty numbers gmap list.
From S2P Require Import Prelude GoStrings Shard Ring Ram Disk DiskProofs.
Open Scope Z_scope.

Record dsys : Type := mkDsys { u_tier : DiskTier; u_writers : list diskWriter }.

Definition isWip (p : bytes) : Prop := HasPrefix p (go "wip-") = true.

Section System.
Context (blobPath : bytes -> bytes).

(** [us_reopen] is the end of the process, after a [Close] or a crash, and its
    next start with the budget [m]: the writers are gone, the blobs and
    temporary files are still there, and [index.json] is the one last flushed or
    cannot be decoded.  Its entries have distinct keys: two keys that become one
    in JSON are the subject of [reload_collision_hangs]. *)
Inductive dsys_step : dsys -> dsys -> Prop :=
| us_get u k openFails :
    dsys_step u (mkDsys (snd (dGet blobPath (u_tier u) k openFails)) (u_writers u))
| us_delete u k : dsys_step u (mkDsys (dDelete blobPath (u_tier u) k) (u_writers u))
| us_flush u fails : dsys_step u (mkDsys (flushIfDirty (u_tier u) fails) (u_writers u))
| us_vanish u p :
    dsys_step u (mkDsys (with_fs (u_tier u) (delete p (k_fs (u_tier u)))) (u_writers u))
| us_open u meta tmp d w :
    isWip tmp -> tmp ∉ map dw_tmp (u_writers u) -> k_fs (u_tier u) !! tmp = None ->
    dWriter (u_tier u) meta tmp = (d, w) -> dsys_step u (mkDsys d (u_writers u ++ [w]))
| us_write u l1 w l2 p k d w' :
    u_writers u = l1 ++ w :: l2 -> dw_n w + blen p < 2 ^ 62 ->
    dWrite (u_tier u) w p k = (d, w') -> dsys_step u (mkDsys d (l1 ++ w' :: l2))
| us_commit u l1 w l2 closeFails renameFails err d w' :
    u_writers u = l1 ++ w :: l2 -> dCommit blobPath (u_tier u) w closeFails renameFails = Ok (err, d, w') ->
    dsys_step u (mkDsys d (l1 ++ l2))
| us_abort u l1 w l2 :
    u_writers u = l1 ++ w :: l2 -> dsys_step u (mkDsys (dAbort (u_tier u) w) (l1 ++ l2))
| us_reset u fails : dsys_step u (mkDsys (dReset blobPath (u_tier u) fails) (u_writers u))
| us_close u fails : dsys_step u (mkDsys (dClose (u_tier u) fails) (u_writers u))
| us_reopen u m index d :
    m < 2 ^ 62 -> index = None \/ index = k_index (u_tier u) ->
    (forall entries, index = Some entries -> NoDup (map Key entries)) ->
    NewDiskTier blobPath m (k_fs (u_tier u)) index = Ok d -> dsys_step u (mkDsys d []).

(** A tier opened on an empty directory. *)
Definition freshTier (m : Z) : DiskTier :=
  mkDisk m (map newDShard (shardCaps m (shardCount m))) ∅ None 0 0 0.

Lemma freshTier_new m : NewDiskTier blobPath m ∅ None = Ok (freshTier m).
Proof. unfold NewDiskTier, load, freshTier, reapTempBlobs. simpl. by rewrite map_filter_empty. Qed.

Hypothesis blobPath_inj : forall k1 k2, blobPath k1 = blobPath k2 -> k1 = k2.
Hypothesis blobPath_not_wip : forall k, ~ isWip (blobPath k).

Definition dwriter_ok (fs : gmap bytes bytes) (w : diskWriter) : Prop :=
  isWip (dw_tmp w) /\ 0 <= dw_n w < 2 ^ 62 /\ forall b, fs !! dw_tmp w = Some b -> blen b = dw_n w.

(** What the index records fits the counters it is loaded into. *)
Definition index_ok (d : DiskTier) : Prop :=
  match k_index d with Some entries => sumZ msize entries < 2 ^ 62 | None => True end.

Record dsys_ok (u : dsys) : Prop := {
  uo_tier : disk_ok blobPath (u_tier u);
  uo_writers : Forall (dwriter_ok (k_fs (u_tier u))) (u_writers u);
  uo_nodup : NoDup (map dw_tmp (u_writers u));
  uo_index : index_ok (u_tier u)
}.

Lemma wip_not_blob p k : isWip p -> blobPath k <> p.
Proof using blobPath_not_wip. intros H <-. by apply (blobPath_not_wip k). Qed.

(** ** Which temporary files an operation leaves alone *)

(** Every temporary file but [tmp] is unchanged or gone. *)
Definition wips_kept (tmp : option bytes) (fs fs' : gmap bytes bytes) : Prop :=
  forall p, isWip p -> Some p <> tmp -> fs' !! p = fs !! p \/ fs' !! p = None.

Lemma wips_kept_writers tmp fs fs' l :
  wips_kept tmp fs fs' -> Forall (fun w => Some (dw_tmp w) <> tmp) l ->
  Forall (dwriter_ok fs) l -> Forall (dwriter_ok fs') l.
Proof.
  intros Hk Hne Hl. rewrite list.Forall_forall in *. intros w Hw. destruct (Hl w Hw) as (H1 & H2 & H3).
  split_and!; [done|lia|lia|]. intros b Hb.
  destruct (Hk (dw_tmp w) H1 (Hne w Hw)) as [E|E]; rewrite E in Hb; [by apply H3|done].
Qed.

Lemma trims_wips s fs s' fs' : trims blobPath s fs s' fs' -> wips_kept None fs fs'.
Proof using blobPath_not_wip.
  intros T p Hp _. destruct (tr_fs _ _ _ _ _ T p) as [|(k & -> & _)]; [by left|]. by apply blobPath_not_wip in Hp.
Qed.

Lemma removeLocked_wips s fs k : wips_kept None fs (snd (removeLocked blobPath s fs k)).
Proof using blobPath_not_wip.
  intros p Hp _. unfold removeLocked. destruct (d_items s !! k); [|by left]. left. cbn.
  rewrite lookup_delete_ne; [done|]. by apply wip_not_blob.
Qed.

Lemma dGet_wips d k f : wips_kept None (k_fs d) (k_fs (snd (dGet blobPath d k f))).
Proof using blobPath_not_wip.
  unfold dGet. destruct (_ !! _) as [s|]; [|by intros ?; left]. destruct (d_items s !! k) as [m|]; [|by intros ?; left].
  destruct (if f then _ else _); [by intros ?; left|].
  pose proof (removeLocked_wips (touch s k) (k_fs d) k) as H. by destruct (removeLocked _ _ _ _).
Qed.

Lemma dDelete_wips d k : wips_kept None (k_fs d) (k_fs (dDelete blobPath d k)).
Proof using blobPath_not_wip.
  unfold dDelete. destruct (_ !! _) as [s|]; [|by intros ?; left].
  pose proof (removeLocked_wips s (k_fs d) k) as H. by destruct (removeLocked _ _ _ _).
Qed.

Lemma dcommit_wips d meta tmp n rf stored err d' :
  disk_ok blobPath d -> 0 <= n -> isWip tmp ->
  dcommit blobPath d meta tmp n rf = Ok (stored, err, d') -> wips_kept (Some tmp) (k_fs d) (k_fs d').
Proof using blobPath_not_wip.
  intros Hd Hn Hw. unfold dcommit. change (Key (set_Size n meta)) with (Key meta).
  destruct (k_shards d !! dshard d (Key meta)) as [s|] eqn:Hs; [|intros [= <- <- <-]; by left].
  rewrite Z.gtb_ltb. destruct (Z.ltb_spec (d_maxBytes s) n).
  { intros [= <- <- <-] p Hp Hne. cbn. rewrite lookup_delete_ne by congruence. by left. }
  destruct (make_room blobPath d meta n s Hd Hs) as (s1 & fs1 & s2 & fs2 & -> & -> & _ & T & _ & _); [lia|].
  apply trims_wips in T. cbn [obind]. destruct (if rf then None else fs2 !! tmp) as [body|];
    intros [= <- <- <-] p Hp Hne; cbn [with_disk k_fs].
  - rewrite lookup_insert_ne by (by apply wip_not_blob). rewrite lookup_delete_ne by congruence. by apply T.
  - rewrite lookup_delete_ne by congruence. by apply T.
Qed.

(** ** Every step keeps the invariant *)

(** A change of file contents that leaves every blob alone or removes it. *)
Lemma fs_change_ok d fs :
  disk_ok blobPath d -> (forall k, fs !! blobPath k = k_fs d !! blobPath k \/ fs !! blobPath k = None) ->
  disk_ok blobPath (with_fs d fs) /\
  forall k, dhit blobPath (with_fs d fs) k = dhit blobPath d k \/ dhit blobPath (with_fs d fs) k = None.
Proof.
  intros [H Hb] Hfs.
  assert (forall k, dhit blobPath (with_fs d fs) k = dhit blobPath d k \/ dhit blobPath (with_fs d fs) k = None) as Hh.
  { intros k. unfold dhit. change (dmeta (with_fs d fs) k) with (dmeta d k). destruct (dmeta d k); [|by left].
    cbn [with_fs with_disk k_fs]. destruct (Hfs k) as [->| ->]; [by left|by right]. }
  split; [split; [split; apply H|]|done]. intros k m b Hk. destruct (Hh k) as [E|E]; rewrite E in Hk; [by apply (Hb k)|done].
Qed.

Lemma wip_fs_change d p (f : option bytes -> option bytes) :
  isWip p -> forall k, partial_alter f p (k_fs d) !! blobPath k = k_fs d !! blobPath k \/ partial_alter f p (k_fs d) !! blobPath k = None.
Proof using blobPath_not_wip. intros Hp k. left. apply lookup_partial_alter_ne. intros ->. by apply (blobPath_not_wip k). Qed.

Lemma relabel_ok d d' b :
  disk_ok blobPath d -> k_maxBytes d' = k_maxBytes d -> k_fs d' = k_fs d ->
  k_shards d' = map (clean_dirty b) (k_shards d) -> disk_ok blobPath d'.
Proof.
  intros [H Hb] Hm Hf Hs.
  assert (forall k, dshard d' k = dshard d k) as Hsh by (intros k; unfold dshard; by rewrite Hs, length_map).
  assert (forall k, dmeta d' k = dmeta d k) as Hdm.
  { intros k. unfold dmeta. rewrite Hsh, Hs, map_lookup. by destruct (k_shards d !! dshard d k). }
  split.
  - split.
    + rewrite Hs, map_map, Hm, <- (dk_caps _ H). by apply map_ext.
    + rewrite Hs. apply Forall_map. eapply list.Forall_impl; [apply H|]. intros s Hok. split; apply Hok.
    + rewrite Hm. apply H.
    + intros i s k Hi Hk. rewrite Hsh. rewrite Hs, map_lookup in Hi.
      destruct (k_shards d !! i) as [s0|] eqn:E; [|done]. injection Hi as <-. by apply (dk_home _ H i s0).
  - intros k m b' Hk. apply (Hb k). unfold dhit in *. by rewrite <- Hdm, <- Hf.
Qed.

(** The bytes the tier's entries record. *)
Definition dheld (d : DiskTier) : Z := sumZ (fun s => held_by msize (d_items s) (d_lru s)) (k_shards d).

Lemma dheld_caps l :
  Forall dshard_ok l ->
  sumZ d_atomicBytes l = sumZ (fun s => held_by msize (d_items s) (d_lru s)) l /\
  sumZ d_atomicBytes l <= sumZ (fun c => Z.max 0 c) (map d_maxBytes l) /\ Forall (fun s => 0 <= d_atomicBytes s) l.
Proof.
  induction 1 as [|s l H _ (IH1 & IH2 & IH3)]; cbn; [split_and!; [done|lia|constructor]|].
  pose proof (ds_bound _ H). pose proof (ring_sum _ _ _ _ (ds_ring _ H)). pose proof (dcur_nonneg _ H).
  rewrite (ds_atomic _ H). split_and!; [lia|lia|]. constructor; [by rewrite (ds_atomic _ H)|done].
Qed.

Lemma dheld_max d : disk_core d -> dheld d <= Z.max 0 (k_maxBytes d).
Proof.
  intros Hc. destruct (dheld_caps _ (dk_shards _ Hc)) as (E1 & E2 & _). rewrite (dk_caps _ Hc), caps_sum_pos in E2.
  unfold dheld. lia.
Qed.

Lemma shardEntries_size s : dshard_ok s -> sumZ msize (map persistMeta (shardEntries s)) = held_by msize (d_items s) (d_lru s).
Proof.
  intros H. unfold shardEntries, held_by. rewrite sumZ_map, (sumZ_perm (esize msize (d_items s)) (d_lru s) (rev (d_lru s)))
    by apply Permutation_rev.
  assert (forall k, k ∈ rev (d_lru s) -> is_Some (d_items s !! k)) as Hk
    by (intros k Hk; apply (ring_dom _ _ _ _ (ds_ring _ H)); by rewrite <- Permutation_rev in Hk).
  induction (rev (d_lru s)) as [|k l IH]; [done|]. destruct (Hk k) as [m Hm]; [left|]. cbn. unfold esize at 1. rewrite Hm. cbn.
  rewrite IH; [done|]. intros x Hx. apply Hk. by right.
Qed.

Lemma snapshot_size l : Forall dshard_ok l ->
  sumZ msize (map persistMeta (flat_map shardEntries l)) = sumZ (fun s => held_by msize (d_items s) (d_lru s)) l.
Proof.
  induction 1 as [|s l H _ IH]; [done|]. cbn [flat_map sumZ]. by rewrite map_app, sumZ_app, IH, shardEntries_size.
Qed.

(** What a flush writes fits the counters. *)
Lemma snapshot_index_ok d d' :
  disk_ok blobPath d -> k_index d' = Some (map persistMeta (flat_map shardEntries (k_shards d))) -> index_ok d'.
Proof.
  intros [H _] E. unfold index_ok. rewrite E, (snapshot_size _ (dk_shards _ H)). fold (dheld d).
  pose proof (dheld_max d H). pose proof (dk_max _ H). lia.
Qed.

Lemma flush_ok d fails :
  disk_ok blobPath d -> index_ok d ->
  disk_ok blobPath (flushIfDirty d fails) /\ k_fs (flushIfDirty d fails) = k_fs d /\ index_ok (flushIfDirty d fails).
Proof.
  intros H Hi. unfold flushIfDirty, snapshotIfDirty, writeIndex. cbn [fst snd].
  set (d1 := with_disk d _ _). assert (disk_ok blobPath d1) as H1 by (by eapply relabel_ok).
  destruct (negb _); [done|]. destruct fails.
  - split; [|done]. by apply (relabel_ok d1 _ true).
  - split_and!; [destruct H1 as [[C1 C2 C3 C4] Hb]; split; [split|]; done|done|]. by eapply (snapshot_index_ok d).
Qed.

Lemma close_flush_ok d fails :
  disk_ok blobPath d -> index_ok d ->
  disk_ok blobPath (dClose d fails) /\ k_fs (dClose d fails) = k_fs d /\ index_ok (dClose d fails).
Proof.
  intros H Hi. unfold dClose, snapshotIfDirty, writeIndex.
  set (d1 := with_disk d _ _). assert (disk_ok blobPath d1) as H1 by (by eapply relabel_ok).
  destruct fails; [done|].
  split_and!; [destruct H1 as [[C1 C2 C3 C4] Hb]; split; [split|]; done|done|]. by eapply (snapshot_index_ok d).
Qed.

(** The other operations leave the index alone. *)
Lemma dGet_index d k f : k_index (snd (dGet blobPath d k f)) = k_index d.
Proof. unfold dGet. repeat (case_match; try done). Qed.

Lemma dDelete_index d k : k_index (dDelete blobPath d k) = k_index d.
Proof. unfold dDelete. repeat (case_match; try done). Qed.

Lemma dcommit_index d meta tmp n rf stored err d' :
  dcommit blobPath d meta tmp n rf = Ok (stored, err, d') -> k_index d' = k_index d.
Proof.
  unfold dcommit. destruct (_ !! _) as [s|]; [|by intros; simplify_eq]. destruct (_ >? _); [by intros; simplify_eq|].
  destruct (removeLocked _ _ _ _) as [s1 fs1]. intros E. inv_obind. destruct a as [s2 fs2].
  destruct (if rf then _ else _); by simplify_eq.
Qed.

Lemma index_kept d d' : k_index d' = k_index d -> index_ok d -> index_ok d'.
Proof. unfold index_ok. by intros ->. Qed.

Lemma newDShards_ok m : m < 2 ^ 62 -> Forall dshard_ok (map newDShard (shardCaps m (shardCount m))).
Proof.
  intros Hm. apply Forall_map, list.Forall_forall. intros c Hc. apply newDShard_ok.
  pose proof (to_shards _ (NewRAMTier_ok m 0 0 Hm)) as Hall. cbn in Hall. rewrite Forall_map, list.Forall_forall in Hall.
  destruct (Hall c Hc) as [Hs _]. apply (sc_cap _ Hs).
Qed.

(** ** Reset and reopening *)

Lemma trimsAll_wips l fs l' fs' : trimsAll blobPath l fs l' fs' -> wips_kept None fs fs'.
Proof using blobPath_not_wip.
  intros [_ H] p Hp _. destruct (H p) as [|(k & i & s & s' & -> & _)]; [by left|]. by apply blobPath_not_wip in Hp.
Qed.

Lemma dReset_ok d fails :
  disk_ok blobPath d -> index_ok d ->
  disk_ok blobPath (dReset blobPath d fails) /\ wips_kept None (k_fs d) (k_fs (dReset blobPath d fails)) /\
  index_ok (dReset blobPath d fails).
Proof using blobPath_inj blobPath_not_wip.
  intros [H Hb] Hi. unfold dReset.
  destruct (resetShards_spec blobPath (k_shards d) (k_fs d) (dk_shards _ H)) as (l & fs & -> & T).
  pose proof (trimsAll_ok blobPath blobPath_inj d l fs (dk_caps _ H) (dk_max _ H) (dk_home _ H) Hb T) as Hok.
  destruct (flush_ok _ fails Hok Hi) as (H1 & H2 & H3). rewrite H2. split_and!; [done|by eapply trimsAll_wips|done].
Qed.

Lemma loading_fresh m fs index :
  m < 2 ^ 62 -> loading blobPath [] (mkDisk m (map newDShard (shardCaps m (shardCount m))) fs index 0 0 0).
Proof.
  intros Hm. set (d := mkDisk _ _ _ _ _ _ _).
  assert (forall i s k, k_shards d !! i = Some s -> d_items s !! k = None) as Hempty.
  { intros i s k Hi. cbn in Hi. rewrite map_lookup in Hi. destruct (_ !! i); [|done]. injection Hi as <-. apply lookup_empty. }
  split; cbn [d k_shards k_maxBytes]; [by rewrite map_map, map_id|done| | |].
  - pose proof (newDShards_ok m Hm) as Hs. rewrite list.Forall_forall in *. intros s Hin. split; [by apply dshard_ok_held, Hs|].
    apply list_elem_of_fmap_1 in Hin as (c & -> & _). done.
  - intros i s k Hi Hk. rewrite (Hempty i s k Hi) in Hk. by destruct Hk.
  - intros k mt b. unfold dhit, dmeta. destruct (k_shards d !! _) as [s|] eqn:E; [|done]. by rewrite (Hempty _ s k E).
Qed.

Lemma fold_loadEntry_fields l d :
  k_maxBytes (fold_right (loadEntry blobPath) d l) = k_maxBytes d /\ k_index (fold_right (loadEntry blobPath) d l) = k_index d.
Proof. induction l as [|m l [IH1 IH2]]; [done|]. cbn [fold_right]. unfold loadEntry at 1 3. repeat (case_match; try done). Qed.

Lemma reopen_ok m fs index :
  m < 2 ^ 62 -> match index with Some l => NoDup (map Key l) /\ sumZ msize l < 2 ^ 62 | None => True end ->
  exists d, NewDiskTier blobPath m fs index = Ok d /\ disk_ok blobPath d /\ k_maxBytes d = m /\ k_index d = index.
Proof using blobPath_inj.
  intros Hm Hi. pose proof (loading_fresh m (reapTempBlobs fs) index Hm) as H0. unfold NewDiskTier. set (d0 := mkDisk _ _ _ _ _ _ _) in *.
  unfold load. change (k_index d0) with index. destruct index as [l|].
  - destruct Hi as [Hn Hs]. destruct (loading_all blobPath blobPath_inj l d0 H0 Hn Hs) as [Hc Hmx Hh Hk Hb].
    destruct (fold_loadEntry_fields l d0) as [E1 E2]. set (d1 := fold_right _ d0 l) in *.
    destruct (shrinkShards_spec blobPath (k_shards d1) (k_fs d1)) as (l' & fs' & -> & T).
    { eapply list.Forall_impl; [exact Hh|]. by intros s [? _]. }
    eexists. split; [done|]. split_and!; [|done|done]. apply trimsAll_ok; [done|done|done| |done|done].
    intros i s k Hi Hsome. by destruct (Hk i s k Hi Hsome).
  - exists d0. split_and!; [done| |done|done]. destruct H0 as [Hc Hmx Hh Hk Hb]. split; [|done]. split; [done|by apply newDShards_ok|done|].
    intros i s k Hi' Hsome. by destruct (Hk i s k Hi' Hsome).
Qed.

Lemma Forall_middle {A} (P : A -> Prop) l1 x l2 : Forall P (l1 ++ x :: l2) <-> P x /\ Forall P (l1 ++ l2).
Proof. rewrite !list.Forall_app, list.Forall_cons. tauto. Qed.

Lemma NoDup_middle {A} (l1 : list A) x l2 : NoDup (l1 ++ x :: l2) <-> (x ∉ l1 ++ l2) /\ NoDup (l1 ++ l2).
Proof. rewrite <- NoDup_cons. by rewrite Permutation_middle. Qed.

Lemma tmp_fresh l w : dw_tmp w ∉ map dw_tmp l -> Forall (fun w' => Some (dw_tmp w') <> Some (dw_tmp w)) l.
Proof.
  intros H. apply list.Forall_forall. intros w' Hw' [= E]. apply H. rewrite <- E.
  by apply list_elem_of_fmap_2.
Qed.

(** Closing a writer: the others do not notice. *)
Lemma close_ok u l1 w l2 d :
  dsys_ok u -> u_writers u = l1 ++ w :: l2 -> disk_ok blobPath d ->
  k_index d = k_index (u_tier u) -> wips_kept (Some (dw_tmp w)) (k_fs (u_tier u)) (k_fs d) -> dsys_ok (mkDsys d (l1 ++ l2)).
Proof.
  intros [Ht Hw Hn Hix] E Hd Hi Hk. rewrite E in Hw, Hn. rewrite map_app in Hn. apply NoDup_middle in Hn as [Hf Hn].
  apply Forall_middle in Hw as [_ Hw]. split; cbn [u_tier u_writers]; [done| |by rewrite map_app|by eapply index_kept].
  eapply wips_kept_writers; [done| |done]. apply tmp_fresh. by rewrite map_app.
Qed.

Lemma dsys_step_ok u u' : dsys_step u u' -> dsys_ok u -> dsys_ok u'.
Proof using blobPath_inj blobPath_not_wip.
  intros Hs Hu. pose proof Hu as [Ht Hw Hn Hix]. destruct Hs as [u k f|u k|u fails|u p|u meta tmp d w Hwip Hnew Hfs E
    |u l1 w l2 p k d w' El Hp E|u l1 w l2 cf rf err d w' El E|u l1 w l2 El|u fails|u fails|u m index d Hm Hidx Hnd E].
  - pose proof (dGet_spec blobPath blobPath_inj (u_tier u) k f Ht) as Hg. pose proof (dGet_wips (u_tier u) k f) as Hk.
    pose proof (dGet_index (u_tier u) k f) as Hi.
    destruct (dGet blobPath (u_tier u) k f) as [o d]. destruct Hg as (_ & Hok & _).
    split; cbn [u_tier u_writers]; [done| |done|by eapply index_kept]. eapply wips_kept_writers; [done| |done]. by apply list.Forall_forall.
  - destruct (dDelete_spec blobPath blobPath_inj (u_tier u) k Ht) as [Hok _].
    split; cbn [u_tier u_writers]; [done| |done|eapply index_kept; [apply dDelete_index|done]].
    eapply wips_kept_writers; [apply dDelete_wips| |done]. by apply list.Forall_forall.
  - destruct (flush_ok (u_tier u) fails Ht Hix) as (Hok & Hf & Hi). split; cbn [u_tier u_writers]; [done|by rewrite Hf|done|done].
  - destruct (fs_change_ok (u_tier u) (delete p (k_fs (u_tier u))) Ht) as [Hok _].
    { intros k. destruct (decide (p = blobPath k)) as [->|]; [right; apply lookup_delete_eq|left; by apply lookup_delete_ne]. }
    split; cbn [u_tier u_writers]; [done| |done|done]. eapply (wips_kept_writers None); [|by apply list.Forall_forall|done].
    intros q _ _. destruct (decide (p = q)) as [->|]; [right; apply lookup_delete_eq|left; by apply lookup_delete_ne].
  - injection E as <- <-. destruct (fs_change_ok (u_tier u) (<[tmp:=[]]> (k_fs (u_tier u))) Ht) as [Hok _];
      [by apply wip_fs_change|].
    split; cbn [u_tier u_writers]; [done| | |done].
    + apply list.Forall_app. split.
      * eapply (wips_kept_writers (Some tmp)); [|apply (tmp_fresh (u_writers u) (mkDWriter meta tmp 0 false)); done|done].
        intros q _ Hq. left. cbn. apply lookup_insert_ne. congruence.
      * constructor; [|constructor]. split_and!; cbn; [done|lia|lia|]. intros b. rewrite lookup_insert_eq. by intros [= <-].
    + rewrite map_app. apply NoDup_app. split_and!; [done| |apply NoDup_singleton].
      intros x Hx Hx'. apply list_elem_of_singleton in Hx'. cbn in Hx'. by subst.
  - injection E as <- <-. rewrite El in Hw, Hn. rewrite map_app in Hn. pose proof Hn as Hn'.
    apply NoDup_middle in Hn as [Hf Hn]. apply Forall_middle in Hw as [(W1 & W2 & W3) Hw].
    set (fs := alter _ _ _).
    destruct (fs_change_ok (u_tier u) fs Ht) as [Hok _]; [by apply wip_fs_change|].
    split; cbn [u_tier u_writers]; [done| |by rewrite map_app|done].
    apply Forall_middle. split.
    + assert (0 <= blen (take k p) <= blen p) by (unfold blen; rewrite length_take; lia).
      unfold dwriter_ok. cbn. rewrite wrap64_small by lia. split_and!; [done|lia|lia|]. intros b Hb.
      unfold fs in Hb. rewrite lookup_alter_eq in Hb. destruct (k_fs (u_tier u) !! dw_tmp w) as [b0|] eqn:E0; [|done].
      injection Hb as <-. rewrite <- (W3 b0 eq_refl). unfold blen. rewrite length_app. lia.
    + eapply (wips_kept_writers (Some (dw_tmp w))); [|by apply tmp_fresh; rewrite map_app|done].
      intros q _ Hq. left. cbn. apply lookup_alter_ne. congruence.
  - rewrite El in Hw. apply Forall_middle in Hw as [(W1 & W2 & W3) _]. unfold dCommit in E. destruct cf.
    + injection E as <- <- <-. destruct (fs_change_ok (u_tier u) (delete (dw_tmp w) (k_fs (u_tier u))) Ht) as [Hok _];
        [by apply wip_fs_change|].
      eapply close_ok; [done|done|done|done|]. intros q _ Hq. left. cbn. apply lookup_delete_ne. congruence.
    + destruct (dcommit_spec blobPath blobPath_inj (u_tier u) (dw_meta w) (dw_tmp w) (dw_n w) rf Ht)
        as (stored & err' & d' & Hc & Hok & _); [lia|intros k; by apply wip_not_blob|done|].
      rewrite Hc in E. injection E as <- <- <-. eapply close_ok; [done|done|done|by eapply dcommit_index|]. eapply dcommit_wips; [done| |done|done]. lia.
  - rewrite El in Hw. apply Forall_middle in Hw as [(W1 & _ & _) _].
    destruct (fs_change_ok (u_tier u) (delete (dw_tmp w) (k_fs (u_tier u))) Ht) as [Hok _]; [by apply wip_fs_change|].
    eapply close_ok; [done|done|done|done|]. intros q _ Hq. left. cbn. apply lookup_delete_ne. congruence.
  - destruct (dReset_ok (u_tier u) fails Ht Hix) as (Hok & Hk & Hi). split; cbn [u_tier u_writers]; [done| |done|done].
    eapply wips_kept_writers; [done| |done]. by apply list.Forall_forall.
  - destruct (close_flush_ok (u_tier u) fails Ht Hix) as (Hok & Hf & Hi). split; cbn [u_tier u_writers]; [done|by rewrite Hf|done|done].
  - assert (match index with Some l => NoDup (map Key l) /\ sumZ msize l < 2 ^ 62 | None => True end) as Hi.
    { unfold index_ok in Hix. destruct index as [l|]; [|done]. split; [by apply Hnd|]. destruct Hidx as [|Hidx]; [done|]. by rewrite <- Hidx in Hix. }
    destruct (reopen_ok m (k_fs (u_tier u)) index Hm Hi) as (d' & E' & Hok & _ & Ei). rewrite E in E'. injection E' as <-.
    split; cbn [u_tier u_writers]; [done|constructor|constructor|]. unfold index_ok. rewrite Ei. by destruct index as [l|]; [apply Hi|].
Qed.

Lemma freshTier_ok m : m < 2 ^ 62 -> disk_ok blobPath (freshTier m).
Proof.
  intros Hm. assert (forall i s k, k_shards (freshTier m) !! i = Some s -> d_items s !! k = None) as Hempty.
  { intros i s k Hi. cbn in Hi. rewrite map_lookup in Hi. destruct (_ !! i); [|done]. injection Hi as <-. apply lookup_empty. }
  split.
  - split; cbn [freshTier k_shards k_maxBytes]; [by rewrite map_map, map_id|by apply newDShards_ok|done|].
    intros i s k Hi Hk. rewrite (Hempty i s k Hi) in Hk. by destruct Hk.
  - intros k mt b. unfold dhit, dmeta. destruct (k_shards (freshTier m) !! _) as [s|] eqn:E; [|done].
    by rewrite (Hempty _ s k E).
Qed.

Lemma dsys_reachable_ok m u :
  m < 2 ^ 62 -> rtc dsys_step (mkDsys (freshTier m) []) u -> dsys_ok u.
Proof using blobPath_inj blobPath_not_wip.
  intros Hm Hr. remember (mkDsys (freshTier m) []) as u0 eqn:E.
  assert (dsys_ok u0) as H0.
  { subst. split; cbn; [by apply freshTier_ok|constructor|constructor|done]. }
  clear E. induction Hr as [u|u1 u2 u3 Hs _ IH]; [done|]. apply IH. by eapply dsys_step_ok.
Qed.

(** C9. The disk tier under faults: after any interleaving of lookups,
    deletes, resets, writers, flushes, closes, failing opens, closes and renames,
    files that vanish, and restarts (after a [Close] or a crash, with a smaller or
    larger budget, with the last index or none), starting from an empty directory,
    its byte count is exactly the sum of the sizes its entries record and within
    the budget it was opened with, and every hit carries the metadata of its own
    key and a body of exactly the recorded size.  File names are injective in the
    key and no two keys of a reloaded index are equal. *)
Theorem disk_accounting m u :
  m < 2 ^ 62 -> rtc dsys_step (mkDsys (freshTier m) []) u ->
  dBytes (u_tier u) = dheld (u_tier u) /\ 0 <= dBytes (u_tier u) <= Z.max 0 (k_maxBytes (u_tier u)) /\
  forall k openFails mt b, fst (dGet blobPath (u_tier u) k openFails) = Some (mt, b) -> Key mt = k /\ blen b = Size mt.
Proof using blobPath_inj blobPath_not_wip.
  intros Hm Hr. pose proof (dsys_reachable_ok m u Hm Hr) as [[Hc Hb] _ _ _].
  destruct (dheld_caps _ (dk_shards _ Hc)) as (E1 & _ & E3). pose proof (dheld_max _ Hc) as E2. pose proof (dk_max _ Hc).
  assert (dBytes (u_tier u) = dheld (u_tier u)) as EB.
  { unfold dBytes. rewrite (fold_wrap64_sum d_atomicBytes) by (done || (rewrite E1; fold (dheld (u_tier u)); lia)). by rewrite E1. }
  rewrite EB. split_and!; [done|apply sumZ_nonneg; intros s; apply held_nonneg, msize_nonneg|done|].
  intros k f mt b Hg. pose proof (dGet_spec blobPath blobPath_inj (u_tier u) k f (conj Hc Hb)) as Hspec.
  destruct (dGet blobPath (u_tier u) k f) as [o d]. cbn in Hg. subst o. destruct Hspec as [Ho _].
  destruct f; [done|]. split; [|by apply (Hb k)]. unfold dhit, dmeta in Ho.
  destruct (disk_shard (u_tier u) k Hc) as (s & Hs & Hok). rewrite Hs in Ho.
  destruct (d_items s !! k) as [m'|] eqn:Em; [|done]. destruct (k_fs (u_tier u) !! blobPath k); [|done].
  injection Ho as -> _. by apply (ds_meta _ Hok).
Qed.

(** Committing a writer of a running tier terminates whatever fails, and
    stores the object whole or not at all: if it is stored the next lookup of its
    key returns exactly the bytes of the temporary file, with its size recorded;
    if it is refused without an error no lookup changes; an object within its
    shard's cap is stored when no system call fails; and no other key ever
    returns anything new. *)
Theorem disk_commit_whole m u w closeFails renameFails :
  m < 2 ^ 62 -> rtc dsys_step (mkDsys (freshTier m) []) u -> w ∈ u_writers u ->
  exists err d w', dCommit blobPath (u_tier u) w closeFails renameFails = Ok (err, d, w') /\
    let look t k := fst (dGet blobPath t k false) in
    (dw_stored w' = true -> closeFails = false -> exists body, k_fs (u_tier u) !! dw_tmp w = Some body /\
       look d (Key (dw_meta w)) = Some (set_Size (blen body) (dw_meta w), body)) /\
    (dw_stored w' = false -> err = false -> forall k, look d k = look (u_tier u) k) /\
    (closeFails = false -> renameFails = false -> is_Some (k_fs (u_tier u) !! dw_tmp w) ->
     (forall s, k_shards (u_tier u) !! dshard (u_tier u) (Key (dw_meta w)) = Some s -> dw_n w <= d_maxBytes s) ->
     dw_stored w' = true) /\
    (forall k, k <> Key (dw_meta w) -> look d k = None \/ look d k = look (u_tier u) k).
Proof using blobPath_inj blobPath_not_wip.
  intros Hm Hr Hw. pose proof (dsys_reachable_ok m u Hm Hr) as [Hd Hws _ _].
  rewrite list.Forall_forall in Hws. destruct (Hws w Hw) as (W1 & W2 & W3).
  assert (forall t, disk_ok blobPath t -> forall k, fst (dGet blobPath t k false) = dhit blobPath t k) as Hlook.
  { intros t Ht k. pose proof (dGet_spec blobPath blobPath_inj t k false Ht) as H.
    destruct (dGet blobPath t k false). by destruct H as [-> _]. }
  unfold dCommit. destruct closeFails.
  - destruct (fs_change_ok (u_tier u) (delete (dw_tmp w) (k_fs (u_tier u))) Hd) as [Hok Hh]; [by apply wip_fs_change|].
    do 3 eexists. split; [done|]. cbn zeta. split_and!; [done|done|done|].
    intros k _. rewrite !Hlook by done. destruct (Hh k) as [->| ->]; auto.
  - destruct (dcommit_spec blobPath blobPath_inj (u_tier u) (dw_meta w) (dw_tmp w) (dw_n w) renameFails Hd)
      as (stored & err & d' & -> & Hok & Hst & Hns & Ho & Hsame & Hfit); [lia|intros k; by apply wip_not_blob|done|].
    do 3 eexists. split; [done|]. cbn zeta. cbn [dw_stored]. split_and!.
    + intros E _. destruct (Hst E) as (body & Hb & Hh). exists body. split; [done|]. by rewrite Hlook, Hh, (W3 body Hb).
    + intros E1 E2 k. rewrite !Hlook by done. by apply Hsame.
    + intros _ E1 E2. by apply Hfit.
    + intros k Hk. rewrite !Hlook by done. by apply Ho.
Qed.
End System.

(** ** Witnesses *)

(** An injective stand-in for the hashed file names. *)
Definition demoPath (k : bytes) : bytes := "b"%char :: k.

Lemma demoPath_inj k1 k2 : demoPath k1 = demoPath k2 -> k1 = k2.
Proof. by intros [= ->]. Defined.

Lemma demoPath_not_wip k : ~ isWip (demoPath k).
Proof. unfold isWip. rewrite HasPrefix_spec. by intros [t ?]. Defined.

Definition demo_tmp : bytes := go "wip-1".
Definition demo_w : diskWriter := mkDWriter (meta0 (go "k")) demo_tmp 3 false.
Definition demo_open : dsys := mkDsys (with_fs (freshTier 10) {[demo_tmp := go "abc"]}) [demo_w].

Lemma demo_open_reachable : rtc (dsys_step demoPath) (mkDsys (freshTier 10) []) demo_open.
Proof.
  eapply rtc_l; [eapply (us_open _ _ (meta0 (go "k")) demo_tmp); [done| |done|reflexivity];
                 apply (bool_decide_unpack _); vm_compute; exact I|].
  eapply rtc_l; [eapply (us_write _ _ [] _ [] (go "abc") 3); [reflexivity|vm_compute; done|reflexivity]|].
  vm_compute. apply rtc_refl.
Defined.

Definition demo_index : list ObjectMeta := [set_Size 3 (meta0 (go "k"))].

(** The object is committed, the index flushed, a writer left open by a crash,
    and the directory reopened with half the budget. *)
Definition demo_reopened : dsys :=
  mkDsys (mkDisk 5 [mkDShard 5 3 3 {[go "k" := set_Size 3 (meta0 (go "k"))]} [go "k"] false]
            {[demoPath (go "k") := go "abc"]} (Some demo_index) 0 0 0) [].

Lemma demo_reopened_reachable : rtc (dsys_step demoPath) (mkDsys (freshTier 10) []) demo_reopened.
Proof.
  etransitivity; [apply demo_open_reachable|].
  eapply rtc_l; [eapply (us_commit demoPath demo_open [] demo_w [] false false); [reflexivity|vm_compute; reflexivity]|].
  eapply rtc_l; [apply (us_flush _ _ false)|].
  eapply rtc_l; [eapply (us_open _ _ (meta0 (go "z")) demo_tmp); [done| |reflexivity|reflexivity];
                 apply (bool_decide_unpack _); vm_compute; exact I|].
  eapply rtc_l; [|apply rtc_refl].
  eapply (us_reopen demoPath _ 5 (Some demo_index)); [lia|right; vm_compute; reflexivity| |vm_compute; reflexivity].
  intros l [= <-]. apply (bool_decide_unpack _). vm_compute. exact I.
Defined.

Lemma disk_accounting_witness :
  dBytes (u_tier demo_reopened) = dheld (u_tier demo_reopened) /\ 0 <= dBytes (u_tier demo_reopened) <= 5 /\
  fst (dGet demoPath (u_tier demo_reopened) (go "k") false) = Some (set_Size 3 (meta0 (go "k")), go "abc").
Proof.
  destruct (disk_accounting demoPath demoPath_inj demoPath_not_wip 10 demo_reopened) as (H1 & H2 & _);
    [lia|apply demo_reopened_reachable|]. split; [exact H1|]. split; [exact H2|]. vm_compute. reflexivity.
Defined.

Lemma disk_commit_whole_witness :
  exists err d w', dCommit demoPath (u_tier demo_open) demo_w false false = Ok (err, d, w') /\
    dw_stored w' = true.
Proof.
  destruct (disk_commit_whole demoPath demoPath_inj demoPath_not_wip 10 demo_open demo_w false false)
    as (err & d & w' & Hc & _ & _ & Hs & _); [lia|apply demo_open_reachable|left|].
  exists err, d, w'. split; [exact Hc|]. apply Hs; [reflexivity|reflexivity|by eexists|].
  vm_compute. intros s [= <-]. done.
Defined.
