(* ===== verification/DiskRestart.v ===== *)
(** * Restarting the disk tier

    What [NewDiskTier] finds after a clean [Close], and two ways in which the
    state it reloads is not the state that was running. *)

From stdpp Require Import base strings pretty numbers gmap list.
From S2P Require Import Prelude GoStrings Shard Ring Ram Disk DiskProofs DiskSystem.
Open Scope Z_scope.

(** ** A clean restart *)

(** A shard as it is rebuilt from its persisted entries. *)
Definition rebuilt (s : diskShard) : diskShard :=
  mkDShard (d_maxBytes s) (d_curBytes s) (d_curBytes s) (persistMeta <$> d_items s) (d_lru s) false.

(** The shard after the entries of the keys [l] have been loaded. *)
Definition loaded (s : diskShard) (l : list bytes) : diskShard :=
  mkDShard (d_maxBytes s) (held_by msize (d_items s) l) (held_by msize (d_items s) l)
    (filter (fun km => fst km ∈ l) (persistMeta <$> d_items s)) l false.

Lemma loaded_nil s : loaded s [] = newDShard (d_maxBytes s).
Proof.
  unfold loaded, newDShard. f_equal. apply map_eq. intros k. rewrite lookup_empty.
  apply map_lookup_filter_None. right. intros m _ H. by apply not_elem_of_nil in H.
Qed.

Lemma loaded_all s : dshard_ok s -> loaded s (d_lru s) = rebuilt s.
Proof.
  intros H. unfold loaded, rebuilt. rewrite <- (ring_sum _ _ _ _ (ds_ring _ H)). f_equal.
  apply map_filter_id. intros k m Hk. cbn. apply (ring_dom _ _ _ _ (ds_ring _ H)).
  rewrite lookup_fmap in Hk. destruct (d_items s !! k); [by eexists|done].
Qed.

Lemma loaded_items_snoc s l k m :
  d_items s !! k = Some m ->
  <[k := persistMeta m]> (filter (fun km => fst km ∈ l) (persistMeta <$> d_items s))
  = filter (fun km => fst km ∈ l ++ [k]) (persistMeta <$> d_items s).
Proof.
  intros Hk. apply map_eq. intros x. destruct (decide (x = k)) as [->|Hne].
  - rewrite lookup_insert_eq. symmetry. apply map_lookup_filter_Some. rewrite lookup_fmap, Hk.
    split; [done|]. cbn. apply elem_of_app. right. by left.
  - rewrite lookup_insert_ne by done. apply option_eq. intros y. rewrite !map_lookup_filter_Some. cbn.
    rewrite elem_of_app, list_elem_of_singleton. naive_solver.
Qed.

Section Restart.
Context (blobPath : bytes -> bytes).

(** Pushing the next entry of a shard. *)
Lemma loadEntry_push d i s l k m b :
  k_shards d !! i = Some (loaded s l) -> dshard d k = i -> d_items s !! k = Some m ->
  Key m = k -> jsonString k = k -> 0 <= Size m <= d_maxBytes s ->
  k_fs d !! blobPath k = Some b -> blen b = Size m -> 0 <= held_by msize (d_items s) l < 2 ^ 62 -> Size m < 2 ^ 62 ->
  loadEntry blobPath (persistMeta m) d = with_disk d (<[i := loaded s (l ++ [k])]> (k_shards d)) (k_fs d).
Proof.
  intros Hi Hsh Hm Hkey Hjson Hsz Hfs Hb Hh Hs62. unfold loadEntry.
  assert (Key (persistMeta m) = k) as EK by (cbn; by rewrite Hkey). rewrite EK, Hfs, Hsh, Hi.
  change (Size (persistMeta m)) with (Size m). rewrite (proj2 (Z.eqb_eq _ _) Hb). cbn [negb d_maxBytes loaded].
  rewrite Z.gtb_ltb, (proj2 (Z.ltb_ge _ _)) by lia. cbn [loaded d_curBytes d_items d_lru d_dirty d_maxBytes].
  assert (held_by msize (d_items s) (l ++ [k]) = held_by msize (d_items s) l + Size m) as Eh.
  { unfold held_by. rewrite sumZ_app. cbn. unfold esize at 2. rewrite Hm. unfold msize. lia. }
  rewrite wrap64_small by lia. rewrite (loaded_items_snoc s l k m Hm). unfold loaded. by rewrite Eh.
Qed.

(** Loading the remaining keys [l2] of a shard. *)
Lemma load_shard d i s l1 l2 :
  dshard_ok s -> 0 <= d_maxBytes s -> d_lru s = l1 ++ l2 -> k_shards d !! i = Some (loaded s l1) ->
  (forall k, k ∈ d_lru s -> dshard d k = i /\ jsonString k = k) ->
  (forall k m, d_items s !! k = Some m -> exists b, k_fs d !! blobPath k = Some b /\ blen b = Size m) ->
  fold_left (fun d m => loadEntry blobPath m d) (map persistMeta (omap (fun k => d_items s !! k) l2)) d
  = with_disk d (<[i := loaded s (d_lru s)]> (k_shards d)) (k_fs d).
Proof.
  intros H Hpos. revert d l1. induction l2 as [|k l2 IH]; intros d l1 El Hi Hhome Hfs; cbn [omap list_omap map fold_left].
  - rewrite app_nil_r in El. rewrite El, list_insert_id by done. by destruct d.
  - assert (k ∈ d_lru s) as Hk by (rewrite El; apply elem_of_app; right; left).
    destruct (proj1 (ring_dom _ _ _ _ (ds_ring _ H) k) Hk) as [m Hm]. rewrite Hm. cbn [map fold_left].
    destruct (Hhome k Hk) as [Hsh Hj]. destruct (Hfs k m Hm) as (b & Hb & Hlen).
    destruct (ds_meta _ H k m Hm) as [Hkey Hsz].
    pose proof (ring_sum _ _ _ _ (ds_ring _ H)) as Hsum. rewrite El in Hsum. unfold held_by in Hsum.
    rewrite sumZ_app in Hsum. cbn in Hsum. unfold esize at 2 in Hsum. rewrite Hm in Hsum. unfold msize at 2 in Hsum.
    pose proof (sumZ_nonneg (esize msize (d_items s)) l1 (esize_nonneg _ msize_nonneg _)).
    pose proof (sumZ_nonneg (esize msize (d_items s)) l2 (esize_nonneg _ msize_nonneg _)).
    pose proof (ds_bound _ H). pose proof (ds_cap _ H).
    rewrite (loadEntry_push d i s l1 k m b); [|done..|lia|done|done|unfold held_by; lia|lia].
    rewrite (IH _ (l1 ++ [k])).
    + cbn [with_disk k_shards k_fs]. by rewrite list_insert_insert_eq.
    + by rewrite El, <- app_assoc.
    + cbn. apply list_lookup_insert_eq. by eapply lookup_lt_Some.
    + intros x Hx. unfold dshard. cbn. rewrite length_insert. apply Hhome. done.
    + done.
Qed.

Lemma rev_omap {A B} (f : A -> option B) l : omap f (rev l) = rev (omap f l).
Proof.
  induction l as [|x l IH]; [done|]. simpl. rewrite omap_app, IH. simpl. destruct (f x); simpl; [done|by rewrite app_nil_r].
Qed.

Lemma shardEntries_fold s (f : ObjectMeta -> DiskTier -> DiskTier) d :
  fold_right f d (map persistMeta (shardEntries s))
  = fold_left (fun d m => f m d) (map persistMeta (omap (fun k => d_items s !! k) (d_lru s))) d.
Proof. unfold shardEntries. by rewrite rev_omap, map_rev, fold_left_rev_right. Qed.

Definition fresh (s : diskShard) : diskShard := newDShard (d_maxBytes s).

(** Loading the shards [l2] of [l1 ++ l2] into an empty tier. *)
Lemma load_shards d0 l1 l2 :
  k_shards d0 = map fresh (l1 ++ l2) -> Forall dshard_ok l2 -> Forall (fun s => 0 <= d_maxBytes s) l2 ->
  (forall i s k, (l1 ++ l2) !! i = Some s -> k ∈ d_lru s -> dshard d0 k = i /\ jsonString k = k) ->
  (forall i s k m, (l1 ++ l2) !! i = Some s -> d_items s !! k = Some m ->
     exists b, k_fs d0 !! blobPath k = Some b /\ blen b = Size m) ->
  fold_right (loadEntry blobPath) d0 (map persistMeta (flat_map shardEntries l2))
  = with_disk d0 (map fresh l1 ++ map rebuilt l2) (k_fs d0).
Proof.
  revert l1. induction l2 as [|s l2 IH]; intros l1 Hd Hok Hpos Hhome Hfs; cbn [flat_map map fold_right].
  - rewrite map_app in Hd. cbn [map] in Hd. rewrite <- Hd. by destruct d0.
  - inversion Hok as [|? ? Hs Hok']; subst. inversion Hpos as [|? ? Hp Hpos']; subst.
    rewrite map_app, fold_right_app, (IH (l1 ++ [s])); [|by rewrite <- app_assoc|done|done|by rewrite <- app_assoc..].
    rewrite shardEntries_fold.
    assert ((l1 ++ s :: l2) !! length l1 = Some s) as Hi by (by rewrite lookup_app_r, Nat.sub_diag by lia).
    assert (length (map fresh (l1 ++ [s]) ++ map rebuilt l2) = length (k_shards d0)) as Hlen.
    { rewrite Hd, length_app, !length_map, !length_app. simpl. lia. }
    rewrite (load_shard _ (length l1) s []); cbn [with_disk k_shards k_fs app]; [|done|done|done| | |].
    + rewrite loaded_all by done. unfold with_disk. cbn. f_equal. rewrite map_app, <- app_assoc. cbn.
      rewrite insert_app_r_alt by (by rewrite length_map). by rewrite length_map, Nat.sub_diag.
    + rewrite map_app, <- app_assoc, lookup_app_r, length_map, Nat.sub_diag by (by rewrite length_map).
      by rewrite loaded_nil.
    + intros k Hk. unfold dshard. cbn [with_disk k_shards]. rewrite Hlen. by apply (Hhome _ s).
    + intros k m Hk. by apply (Hfs _ s k m Hi).
Qed.

Lemma shrink_noop l fs :
  Forall dshard_ok l -> Forall (fun s => 0 <= d_maxBytes s) l -> shrinkShards blobPath l fs = Ok (l, fs).
Proof.
  intros Hok. induction Hok as [|s l H _ IH]; intros Hp; [done|]. inversion Hp as [|? ? Hs Hp']; subst.
  cbn [shrinkShards]. pose proof (ds_bound _ H). pose proof (ds_cap _ H). pose proof (dcur_nonneg _ H).
  assert (evictBack blobPath (length (d_lru s)) 0 s fs = Ok (s, fs)) as ->.
  { destruct (length (d_lru s)); cbn [evictBack];
      rewrite wrap64_small, Z.gtb_ltb, (proj2 (Z.ltb_ge _ _)) by lia; done. }
  cbn [obind]. by rewrite IH.
Qed.

Lemma rebuilt_ok s : dshard_ok s -> (forall k, k ∈ d_lru s -> jsonString k = k) -> dshard_ok (rebuilt s).
Proof.
  intros H Hj. split; cbn; [|apply H|apply H|done|].
  - destruct (ds_ring _ H) as [H1 H2 H3]. split; [done| |].
    + intros k. by rewrite H2, lookup_fmap, fmap_is_Some.
    + rewrite H3. apply sumZ_ext. intros k _. unfold esize. rewrite lookup_fmap. by destruct (d_items s !! k).
  - intros k m Hk. rewrite lookup_fmap in Hk. destruct (d_items s !! k) as [m0|] eqn:E; [|done].
    injection Hk as <-. destruct (ds_meta _ H k m0 E) as [E1 E2]. cbn. rewrite E1. split; [|done].
    apply Hj, (ring_dom _ _ _ _ (ds_ring _ H)). by rewrite E.
Qed.

Hypothesis blobPath_inj : forall k1 k2, blobPath k1 = blobPath k2 -> k1 = k2.
Hypothesis blobPath_not_wip : forall k, ~ isWip (blobPath k).

Lemma reap_blob fs k : reapTempBlobs fs !! blobPath k = fs !! blobPath k.
Proof using blobPath_not_wip.
  apply option_eq. intros b. unfold reapTempBlobs. rewrite map_lookup_filter_Some. cbn. split; [tauto|].
  intros H. split; [done|]. apply not_true_iff_false. apply blobPath_not_wip.
Qed.

Lemma shard_caps_nonneg d : disk_core d -> 0 <= k_maxBytes d -> Forall (fun s => 0 <= d_maxBytes s) (k_shards d).
Proof.
  intros H Hpos. apply Forall_map with (P := fun c => 0 <= c), list.Forall_forall. rewrite (dk_caps _ H). intros c Hc.
  pose proof (shardCount_range (k_maxBytes d)). destruct (Z.leb_spec (k_maxBytes d) 0) as [Hz|Hz].
  - unfold shardCaps in Hc. rewrite (proj2 (Z.leb_le _ _) Hz) in Hc. apply elem_of_replicate in Hc as [-> _]. lia.
  - apply shardCaps_each in Hc; [|lia..]. pose proof (Z.div_pos (k_maxBytes d) (shardCount (k_maxBytes d))). lia.
Qed.

Definition snapshotIndex (d : DiskTier) : list ObjectMeta := map persistMeta (flat_map shardEntries (k_shards d)).

(** The tier a restart with the same budget rebuilds from [d]'s index and a
    directory with a blob of the right length for each entry. *)
Lemma restart_tier d fs :
  disk_ok blobPath d -> 0 <= k_maxBytes d ->
  (forall k m, dmeta d k = Some m -> jsonString k = k /\ exists b, fs !! blobPath k = Some b /\ blen b = Size m) ->
  exists d2, NewDiskTier blobPath (k_maxBytes d) fs (Some (snapshotIndex d)) = Ok d2 /\
    k_shards d2 = map rebuilt (k_shards d) /\ (forall k, k_fs d2 !! blobPath k = fs !! blobPath k).
Proof using blobPath_not_wip.
  intros [H Hb] Hpos Hkeys. pose proof (shard_caps_nonneg d H Hpos) as Hcaps.
  assert (forall i s k m, k_shards d !! i = Some s -> d_items s !! k = Some m -> dshard d k = i /\ dmeta d k = Some m) as Hat.
  { intros i s k m Hi Hm. pose proof (dk_home _ H i s k Hi (ltac:(by rewrite Hm))) as Hh. split; [done|].
    unfold dmeta. by rewrite Hh, Hi. }
  set (d0 := mkDisk (k_maxBytes d) (map newDShard (shardCaps (k_maxBytes d) (shardCount (k_maxBytes d))))
               (reapTempBlobs fs) (Some (snapshotIndex d)) 0 0 0).
  assert (k_shards d0 = map fresh ([] ++ k_shards d)) as Hd0.
  { cbn. rewrite <- (dk_caps _ H), map_map. done. }
  pose proof (load_shards d0 [] (k_shards d) Hd0 (dk_shards _ H) Hcaps) as Hload.
  change (NewDiskTier blobPath (k_maxBytes d) fs (Some (snapshotIndex d))) with (load blobPath d0).
  unfold load. change (k_index d0) with (Some (map persistMeta (flat_map shardEntries (k_shards d)))). cbn match.
  rewrite Hload; cbn [app map with_disk k_shards k_fs].
  - rewrite shrink_noop.
    + cbn [obind]. eexists. split; [done|]. split; [done|]. intros k. cbn. apply reap_blob.
    + apply Forall_map. rewrite list.Forall_forall. intros s Hs. apply rebuilt_ok.
      * pose proof (dk_shards _ H) as Hf. rewrite list.Forall_forall in Hf. by apply Hf.
      * intros k Hk. apply list_elem_of_lookup_1 in Hs as [i Hi].
        pose proof (Forall_lookup_1 _ _ _ _ (dk_shards _ H) Hi) as Hok.
        apply (ring_dom _ _ _ _ (ds_ring _ Hok)) in Hk as [m Hm]. destruct (Hat i s k m Hi Hm) as [_ E]. by apply (Hkeys k m).
    + apply Forall_map. done.
  - intros i s k Hi Hk. pose proof (Forall_lookup_1 _ _ _ _ (dk_shards _ H) Hi) as Hok.
    apply (ring_dom _ _ _ _ (ds_ring _ Hok)) in Hk as [m Hm]. destruct (Hat i s k m Hi Hm) as [E1 E2].
    split; [|by apply (Hkeys k m)]. unfold dshard. rewrite Hd0, length_map. done.
  - intros i s k m Hi Hm. destruct (Hat i s k m Hi Hm) as [_ E]. destruct (Hkeys k m E) as [_ Hbk].
    change (k_fs d0) with (reapTempBlobs fs). by rewrite reap_blob.
Qed.

(** What a lookup in the rebuilt tier returns. *)
Lemma rebuilt_get (d d2 : DiskTier) (fs : gmap bytes bytes) (k : bytes) :
  k_shards d2 = map rebuilt (k_shards d) -> (forall k : bytes, k_fs d2 !! blobPath k = fs !! blobPath k) ->
  fst (dGet blobPath d2 k false) = match dmeta d k, fs !! blobPath k with
                                   | Some m, Some b => Some (persistMeta m, b)
                                   | _, _ => None
                                   end.
Proof.
  intros Hsh Hfs. assert (dshard d2 k = dshard d k) as Ek by (unfold dshard; by rewrite Hsh, length_map).
  unfold dGet, dmeta. rewrite Ek, Hsh, map_lookup. destruct (k_shards d !! dshard d k) as [s|]; [|done]. cbn [fmap option_fmap option_map].
  cbn [rebuilt d_items]. rewrite lookup_fmap. destruct (d_items s !! k) as [mt|]; [|done]. cbn [fmap option_fmap option_map]. rewrite Hfs.
  destruct (fs !! blobPath k); [done|]. by destruct (removeLocked _ _ _ _).
Qed.

(** C20. A clean restart loses nothing: closing a running tier (the index is
    written) and opening its directory again with the same non-negative budget
    gives the same LRU order and byte count in every shard, and every lookup
    returns the same body and the same metadata after a round trip through the
    index (the placement hint is not persisted, and JSON replaces invalid UTF-8 in
    the other fields), provided that every key is valid UTF-8 and every entry's
    blob is still in the directory. *)
Theorem disk_restart_roundtrip m u :
  m < 2 ^ 62 -> rtc (dsys_step blobPath) (mkDsys (freshTier m) []) u -> 0 <= k_maxBytes (u_tier u) ->
  (forall k mt, dmeta (u_tier u) k = Some mt -> jsonString k = k /\ is_Some (k_fs (u_tier u) !! blobPath k)) ->
  let d1 := dClose (u_tier u) false in
  exists d2, NewDiskTier blobPath (k_maxBytes (u_tier u)) (k_fs d1) (k_index d1) = Ok d2 /\
    map d_lru (k_shards d2) = map d_lru (k_shards (u_tier u)) /\
    map d_curBytes (k_shards d2) = map d_curBytes (k_shards (u_tier u)) /\
    forall k, fst (dGet blobPath d2 k false)
      = (fun mb => (persistMeta (fst mb), snd mb)) <$> fst (dGet blobPath (u_tier u) k false).
Proof using blobPath_inj blobPath_not_wip.
  intros Hm Hr Hpos Hkeys d1. pose proof (dsys_reachable_ok blobPath blobPath_inj blobPath_not_wip m u Hm Hr) as [Hd _ _ _].
  destruct (restart_tier (u_tier u) (k_fs (u_tier u)) Hd Hpos) as (d2 & Hnew & Hsh & Hfs).
  { intros k mt Hk. destruct (Hkeys k mt Hk) as [Hj [b Hb]]. split; [done|]. exists b. split; [done|].
    apply (proj2 Hd k mt b). unfold dhit. by rewrite Hk, Hb. }
  exists d2. split_and!; [exact Hnew|rewrite Hsh, map_map; by apply map_ext|rewrite Hsh, map_map; by apply map_ext|].
  intros k. rewrite (rebuilt_get (u_tier u) d2 _ k Hsh Hfs).
  pose proof (dGet_spec blobPath blobPath_inj (u_tier u) k false Hd) as Hg. destruct (dGet blobPath (u_tier u) k false) as [o d'].
  destruct Hg as [-> _]. cbn [fst]. unfold dhit. destruct (dmeta (u_tier u) k) as [mt|]; [|done].
  by destruct (k_fs (u_tier u) !! blobPath k).
Qed.

(** ** A crash between two versions *)

(** Replacing an object by one of the same length evicts nothing. *)
Lemma recommit_same_size d meta tmp m0 b :
  disk_ok blobPath d -> 0 <= k_maxBytes d -> isWip tmp -> dmeta d (Key meta) = Some m0 ->
  k_fs d !! tmp = Some b -> blen b = Size m0 ->
  exists d', dcommit blobPath d meta tmp (blen b) false = Ok (true, false, d') /\ k_index d' = k_index d /\
    k_fs d' = <[blobPath (Key meta) := b]> (delete tmp (delete (blobPath (Key meta)) (k_fs d))).
Proof using blobPath_not_wip.
  intros [H _] Hpos Hw Hm Hb Hlen. unfold dcommit. change (Key (set_Size (blen b) meta)) with (Key meta).
  destruct (disk_shard d (Key meta) H) as (s & Hs & Hok). unfold dmeta in Hm. rewrite Hs in Hm |- *.
  pose proof (Forall_lookup_1 _ _ _ _ (shard_caps_nonneg d H Hpos) Hs) as Hcap. cbn in Hcap.
  destruct (ring_ok_drop _ msize_nonneg _ _ _ _ _ (ds_ring _ Hok) Hm) as (Hring & Hle & _). pose proof (ds_bound _ Hok) as Hbound. pose proof (ds_cap _ Hok).
  pose proof (ring_sum _ _ _ _ Hring) as Hsum. pose proof (held_nonneg msize msize_nonneg (delete (Key meta) (d_items s)) (ring_remove (Key meta) (d_lru s))).
  destruct (ds_meta _ Hok _ _ Hm) as [_ Hsz]. assert (msize m0 = Size m0) as Hms by (unfold msize; lia).
  rewrite Z.gtb_ltb, (proj2 (Z.ltb_ge _ _)) by lia. unfold removeLocked. rewrite Hm. rewrite wrap64_small by lia.
  set (s1 := mkDShard _ _ _ _ _ _).
  assert (forall fs, evictBack blobPath (length (d_lru s1)) (blen b) s1 fs = Ok (s1, fs)) as ->.
  { intros fs. destruct (length (d_lru s1)); cbn [evictBack]; cbn [s1 d_curBytes d_maxBytes];
      rewrite wrap64_small, Z.gtb_ltb, (proj2 (Z.ltb_ge _ _)) by lia; done. }
  cbn [obind]. rewrite lookup_delete_ne by (by apply wip_not_blob). rewrite Hb. eexists. split; [done|]. done.
Qed.

(** C40. A crash can pair one version's metadata with another version's body.
    Whatever a running tier holds, if its index is flushed and an object is then
    replaced by one of the same length, the running tier serves the new metadata
    with the new body; but if the process dies before the next flush, the tier a
    restart rebuilds serves the new body under the old version's metadata (its
    validators included): the size check of [load] cannot tell them apart.  Keys
    are valid UTF-8 and the blobs are in the directory. *)
Theorem crash_mixes_versions m u w old body :
  m < 2 ^ 62 -> rtc (dsys_step blobPath) (mkDsys (freshTier m) []) u -> 0 <= k_maxBytes (u_tier u) ->
  (forall k mt, dmeta (u_tier u) k = Some mt -> jsonString k = k /\ is_Some (k_fs (u_tier u) !! blobPath k)) ->
  k_index (u_tier u) = Some (snapshotIndex (u_tier u)) ->
  w ∈ u_writers u -> k_fs (u_tier u) !! dw_tmp w = Some body ->
  dmeta (u_tier u) (Key (dw_meta w)) = Some old -> blen body = Size old ->
  exists d w', dCommit blobPath (u_tier u) w false false = Ok (false, d, w') /\
    fst (dGet blobPath d (Key (dw_meta w)) false) = Some (set_Size (blen body) (dw_meta w), body) /\
    exists d2, NewDiskTier blobPath (k_maxBytes (u_tier u)) (k_fs d) (k_index d) = Ok d2 /\
      fst (dGet blobPath d2 (Key (dw_meta w)) false) = Some (persistMeta old, body).
Proof using blobPath_inj blobPath_not_wip.
  intros Hm Hr Hpos Hkeys Hidx Hw Hb Hold Hlen.
  pose proof (dsys_reachable_ok blobPath blobPath_inj blobPath_not_wip m u Hm Hr) as [Hd Hws _ _].
  rewrite list.Forall_forall in Hws. destruct (Hws w Hw) as (W1 & W2 & W3). pose proof (W3 body Hb) as Hn.
  destruct (recommit_same_size (u_tier u) (dw_meta w) (dw_tmp w) old body Hd Hpos W1 Hold Hb Hlen) as (d & Hc & Hi & Hfs).
  destruct (dcommit_spec blobPath blobPath_inj (u_tier u) (dw_meta w) (dw_tmp w) (dw_n w) false Hd)
    as (stored & err & d' & Hc' & Hok & Hst & _); [lia|intros k; by apply (wip_not_blob blobPath blobPath_not_wip)|done|].
  rewrite <- Hn, Hc in Hc'. injection Hc' as <- <- <-. unfold dCommit. rewrite <- Hn, Hc. cbn [obind].
  do 2 eexists. split; [done|]. split.
  - pose proof (dGet_spec blobPath blobPath_inj d (Key (dw_meta w)) false Hok) as Hg. destruct (dGet _ _ _ _) as [o d'].
    destruct Hg as [-> _]. destruct (Hst eq_refl) as (b & Hb' & Hh). cbn [fst]. rewrite Hh, Hn. congruence.
  - rewrite Hi, Hidx. destruct (restart_tier (u_tier u) (k_fs d) Hd Hpos) as (d2 & Hnew & Hsh & Hf2).
    { intros k mt Hk. destruct (Hkeys k mt Hk) as [Hj [b Hbk]]. split; [done|]. rewrite Hfs.
      destruct (decide (k = Key (dw_meta w))) as [->|Hne].
      - exists body. rewrite lookup_insert_eq. split; [done|]. congruence.
      - exists b. rewrite lookup_insert_ne by (intros E; by apply blobPath_inj in E).
        rewrite lookup_delete_ne by (intros E; by apply (wip_not_blob blobPath blobPath_not_wip (dw_tmp w) k W1)).
        rewrite lookup_delete_ne by (intros E; by apply blobPath_inj in E). split; [done|].
        apply (proj2 Hd k mt b). unfold dhit. by rewrite Hk, Hbk. }
    exists d2. split; [done|]. rewrite (rebuilt_get (u_tier u) d2 _ _ Hsh Hf2), Hold, Hfs, lookup_insert_eq. done.
Qed.
End Restart.

(** A running tier with one object. *)
Definition demo_done : dsys :=
  mkDsys (mkDisk 10 [mkDShard 10 3 3 {[go "k" := set_Size 3 (meta0 (go "k"))]} [go "k"] true]
            {[demoPath (go "k") := go "abc"]} None 0 0 0) [].

Lemma demo_done_reachable : rtc (dsys_step demoPath) (mkDsys (freshTier 10) []) demo_done.
Proof.
  eapply rtc_r; [apply demo_open_reachable|].
  eapply (us_commit demoPath demo_open [] demo_w [] false false); [reflexivity|vm_compute; reflexivity].
Defined.

Lemma demo_done_keys k mt :
  dmeta (u_tier demo_done) k = Some mt -> jsonString k = k /\ is_Some (k_fs (u_tier demo_done) !! demoPath k).
Proof.
  unfold dmeta, demo_done. cbn [u_tier k_shards k_fs].
  destruct (dshard _ k) as [|n]; cbn [lookup list_lookup]; [|by destruct n]. cbn [d_items].
  intros H. apply lookup_singleton_Some in H as [<- _]. split; [vm_compute; reflexivity|].
  rewrite lookup_singleton_eq. by eexists.
Defined.

Lemma disk_restart_roundtrip_witness :
  let d1 := dClose (u_tier demo_done) false in
  exists d2, NewDiskTier demoPath 10 (k_fs d1) (k_index d1) = Ok d2 /\
    map d_lru (k_shards d2) = [[go "k"]].
Proof.
  destruct (disk_restart_roundtrip demoPath demoPath_inj demoPath_not_wip 10 demo_done) as (d2 & Hn & Hl & _);
    [lia|exact demo_done_reachable|vm_compute; discriminate|exact demo_done_keys|].
  exists d2. split; [exact Hn|exact Hl].
Defined.

Definition with_etag (m : ObjectMeta) (e : bytes) : ObjectMeta :=
  mkMeta (Key m) (Size m) (ContentType m) e (LastModified m) (ContentEncoding m) (Vary m) (Status m) (ForcedPrivate m) (TierHint m).

(** The index of [demo_done] is flushed and a second version of its object, of
    the same length, is being written. *)
Definition demo_v2 : diskWriter := mkDWriter (with_etag (meta0 (go "k")) (go "v2")) demo_tmp 3 false.
Definition demo_refresh : dsys :=
  mkDsys (mkDisk 10 [mkDShard 10 3 3 {[go "k" := set_Size 3 (meta0 (go "k"))]} [go "k"] false]
            (<[demo_tmp := go "new"]> {[demoPath (go "k") := go "abc"]}) (Some demo_index) 0 0 0) [demo_v2].

Lemma demo_refresh_reachable : rtc (dsys_step demoPath) (mkDsys (freshTier 10) []) demo_refresh.
Proof.
  etransitivity; [apply demo_done_reachable|]. eapply rtc_l; [apply (us_flush _ _ false)|].
  eapply rtc_l; [eapply (us_open _ _ (with_etag (meta0 (go "k")) (go "v2")) demo_tmp); [done| |reflexivity|reflexivity];
                 apply (bool_decide_unpack _); vm_compute; exact I|].
  eapply rtc_l; [eapply (us_write _ _ [] _ [] (go "new") 3); [reflexivity|vm_compute; done|reflexivity]|].
  vm_compute. apply rtc_refl.
Defined.

Lemma demo_refresh_keys k mt :
  dmeta (u_tier demo_refresh) k = Some mt -> jsonString k = k /\ is_Some (k_fs (u_tier demo_refresh) !! demoPath k).
Proof.
  unfold dmeta, demo_refresh. cbn [u_tier k_shards k_fs].
  destruct (dshard _ k) as [|n]; cbn [lookup list_lookup]; [|by destruct n]. cbn [d_items].
  intros H. apply lookup_singleton_Some in H as [<- _]. split; [vm_compute; reflexivity|].
  rewrite lookup_insert_ne by done. rewrite lookup_singleton_eq. by eexists.
Defined.

Lemma crash_mixes_versions_witness :
  exists d w', dCommit demoPath (u_tier demo_refresh) demo_v2 false false = Ok (false, d, w') /\
    exists d2, NewDiskTier demoPath 10 (k_fs d) (k_index d) = Ok d2 /\
      fst (dGet demoPath d2 (go "k") false) = Some (set_Size 3 (meta0 (go "k")), go "new").
Proof.
  destruct (crash_mixes_versions demoPath demoPath_inj demoPath_not_wip 10 demo_refresh demo_v2 (set_Size 3 (meta0 (go "k"))) (go "new"))
    as (d & w' & Hc & _ & d2 & Hn & Hg); [lia|exact demo_refresh_reachable|vm_compute; discriminate|exact demo_refresh_keys
    |vm_compute; reflexivity|left|vm_compute; reflexivity|vm_compute; reflexivity|vm_compute; reflexivity|].
  exists d, w'. split; [exact Hc|]. exists d2. split; [exact Hn|exact Hg].
Defined.

(** ** Keys that collide in the index *)

(** Committing a body under a key, without faults. *)
Definition put (d : DiskTier) (meta : ObjectMeta) (body : bytes) : outcome Empty_set DiskTier :=
  let '(d1, w) := dWriter d meta demo_tmp in
  let '(d2, w2) := dWrite d1 w body (length body) in
  let! (err, d3, w3) := dCommit demoPath d2 w2 false false in Ok d3.

(** A ring element without an entry stops the eviction loop from making
    progress. *)
Lemma evictBack_stale bp fuel n s fs back rest :
  d_lru s = back :: rest -> d_items s !! back = None -> d_maxBytes s < wrap64 (d_curBytes s + n) ->
  evictBack bp fuel n s fs = NoFuel.
Proof.
  intros El Ei Hgt. induction fuel as [|fuel IH]; cbn [evictBack];
    rewrite Z.gtb_ltb, (proj2 (Z.ltb_lt _ _) Hgt), El; [done|]. unfold removeLocked. by rewrite Ei.
Qed.

(** The keys [a%FF] and [a%EF%BF%BD], as requests decode them. *)
Definition keyA : bytes := go "a" ++ [Zbyte 0xFF].
Definition keyB : bytes := go "a" ++ [Zbyte 0xEF; Zbyte 0xBF; Zbyte 0xBD].

(** The tier after both are cached and the process restarts. *)
Definition collided : outcome Empty_set DiskTier :=
  let! d1 := put (freshTier 10) (meta0 keyA) (go "xxx") in
  let! d2 := put d1 (meta0 keyB) (go "yyy") in
  let d3 := dClose d2 false in
  NewDiskTier demoPath 10 (k_fs d3) (k_index d3).

(** The shard and the directory after [commit] has dropped the back of the
    ring once. *)
Definition evictedOnce : outcome Empty_set (diskShard * gmap bytes bytes) :=
  let! d := collided in
  match k_shards d with
  | [s] => Ok (removeLocked demoPath s (k_fs d) keyB)
  | _ => NoFuel
  end.

Lemma collided_ring :
  (let! d := collided in Ok (map d_lru (k_shards d), dLen d)) = Ok ([[keyB; keyB]], 1).
Proof. vm_compute. reflexivity. Qed.

Lemma evictedOnce_stale :
  (let! (s, _) := evictedOnce in Ok (d_lru s, d_items s !! keyB, d_maxBytes s, d_curBytes s))
  = Ok ([keyB], None, 10, 3).
Proof. vm_compute. reflexivity. Qed.

(** C39. After a restart the two distinct keys share one entry but have two ring
    elements, and evicting for an eight-byte object never ends: whatever number
    of iterations is allowed, the loop of [commit] is still running. *)
Theorem reload_collision_hangs fuel :
  (let! (s, fs) := evictedOnce in evictBack demoPath fuel 8 s fs) = NoFuel.
Proof.
  pose proof evictedOnce_stale as H. destruct evictedOnce as [[s fs]|[]|]; [|done]. cbn [obind] in *.
  injection H as Hl Hi Hm Hc. eapply evictBack_stale; [exact Hl|exact Hi|]. rewrite Hm, Hc. vm_compute. reflexivity.
Qed.

(** ** Orphans *)

(** A blob committed after the last flush outlives the crash outside the
    tier's accounting: its bytes are on disk but not in [Bytes], so the directory
    can exceed the budget. *)
Theorem crash_orphans_blob :
  (let! d1 := put (freshTier 10) (meta0 (go "k")) (go "0123456789") in
   let! d := NewDiskTier demoPath 10 (k_fs d1) (k_index d1) in
   Ok (dBytes d, k_fs d !! demoPath (go "k"))) = Ok (0, Some (go "0123456789")).
Proof. vm_compute. reflexivity. Qed.
