(* ===== verification/Store.v ===== *)
(** * The two-tier store ([internal/cache/router.go], [Tier] of [cache.go])

    [Tier] is what the store relies on; [Ram] and [Disk] implement it at the
    end of the file.  The store's writer commits to the destination tier and
    then deletes the key from the sibling; the two are separate steps, so
    concurrent writers of a key can interleave. *)

From stdpp Require Import base strings pretty numbers gmap list.
From S2P Require Import Prelude GoStrings Shard Ring Ram RamWriter Disk DiskProofs DiskSystem.
Open Scope Z_scope.

(** ** The tier interface *)

Class Tier (T : Type) := {
  t_inv : T -> Prop;
  t_get : T -> bytes -> option (ObjectMeta * bytes) * T;
  t_delete : T -> bytes -> T;
  (** A whole write: [Writer], one [Write] and [Commit]; whether it was stored. *)
  t_put : T -> ObjectMeta -> bytes -> outcome Empty_set (bool * T);

  t_get_ok t k : t_inv t -> t_inv (snd (t_get t k)) /\
    forall x, fst (t_get (snd (t_get t k)) x) = fst (t_get t x);
  t_delete_ok t k : t_inv t -> t_inv (t_delete t k) /\
    forall x, fst (t_get (t_delete t k) x) = if decide (x = k) then None else fst (t_get t x);
  t_put_ok t meta body : t_inv t -> blen body < 2 ^ 62 ->
    exists stored t', t_put t meta body = Ok (stored, t') /\ t_inv t' /\
      (stored = true -> fst (t_get t' (Key meta)) = Some (set_Size (blen body) meta, body)) /\
      (stored = false -> forall x, fst (t_get t' x) = fst (t_get t x)) /\
      (forall x, x <> Key meta -> fst (t_get t' x) = None \/ fst (t_get t' x) = fst (t_get t x))
}.

(** What the tier holds under [k]. *)
Definition look {T} `{Tier T} (t : T) (k : bytes) : option (ObjectMeta * bytes) := fst (t_get t k).

(** ** Configuration and placement *)

Record RouterConfig : Type := mkConfig {
  RAMMaxBytes : Z;
  DiskMaxBytes : Z;
  SmallObjectThreshold : Z;
  RAMMaxObjectBytes : Z;
  RAMInflightBudget : Z;
  TierExtensions : gmap bytes bytes
}.

Definition defaultRAMMaxObjectBytes : Z := Z.shiftl 64 20.

Definition DefaultRouterConfig : RouterConfig :=
  mkConfig (Z.shiftl 44 30) (Z.shiftl 350 30) (Z.shiftl 2 20) defaultRAMMaxObjectBytes (Z.shiftl 44 30) ∅.

(** The defaults and the clamp of [NewStore]. *)
Definition resolveConfig (cfg : RouterConfig) : RouterConfig :=
  let obj := if RAMMaxObjectBytes cfg <=? 0 then defaultRAMMaxObjectBytes else RAMMaxObjectBytes cfg in
  let obj := if obj >? RAMMaxBytes cfg then RAMMaxBytes cfg else obj in
  let budget := if RAMInflightBudget cfg <=? 0 then RAMMaxBytes cfg else RAMInflightBudget cfg in
  mkConfig (RAMMaxBytes cfg) (DiskMaxBytes cfg) (SmallObjectThreshold cfg) obj budget (TierExtensions cfg).

(** The configuration [buildStore] of [internal/config/cache.go] passes to
    [NewStore] for a [cache] block. *)
Definition siteConfig (ramBytes diskBytes : Z) (tierExt : gmap bytes bytes) : RouterConfig :=
  mkConfig ramBytes diskBytes (SmallObjectThreshold DefaultRouterConfig)
    (RAMMaxObjectBytes DefaultRouterConfig) (RAMInflightBudget DefaultRouterConfig) tierExt.

Inductive tierId : Type := TRam | TDisk.

#[export] Instance tierId_eq_dec : EqDecision tierId.
Proof. solve_decision. Defined.

Definition sibling (t : tierId) : tierId := match t with TRam => TDisk | TDisk => TRam end.

(** [path.Ext] *)
Fixpoint extOf (rev_path acc : bytes) : bytes :=
  match rev_path with
  | [] => []
  | c :: r => if c =b "/" then [] else if c =b "." then c :: acc else extOf r (c :: acc)
  end.
Definition Ext (path : bytes) : bytes := extOf (rev path) [].

Definition ramExtensions : list bytes :=
  map go [".m3u8"; ".jpg"; ".jpeg"; ".webp"; ".png"; ".gif"]%string.

Section Placement.
Context (lr : Z -> Z) (cfg : RouterConfig).

Definition pickTier (key : bytes) (size : Z) : tierId :=
  let ext := ToLower lr (Ext key) in
  if bool_decide (ext ∈ ramExtensions) then
    if (size >=? 0) && (size >? RAMMaxObjectBytes cfg) then TDisk else TRam
  else if (size >=? 0) && (size <=? SmallObjectThreshold cfg) then TRam
  else TDisk.

Definition resolveTier (tier : bytes) (size : Z) : tierId :=
  if bool_decide (tier = go "disk") then if DiskMaxBytes cfg <=? 0 then TRam else TDisk
  else if bool_decide (tier = go "ram") then
    if (size >=? 0) && (size >? RAMMaxObjectBytes cfg) then TDisk else TRam
  else pickTier [] size.

Definition tierFor (meta : ObjectMeta) : tierId :=
  if bool_decide (TierHint meta = go "ram") || bool_decide (TierHint meta = go "disk") then
    resolveTier (TierHint meta) (Size meta)
  else if negb (bool_decide (TierExtensions cfg = ∅)) then
    match TierExtensions cfg !! ToLower lr (Ext (Key meta)) with
    | Some t => resolveTier t (Size meta)
    | None => pickTier (Key meta) (Size meta)
    end
  else pickTier (Key meta) (Size meta).
End Placement.

(** ** The store *)

Section Store.
Context {R D : Type} `{Tier R} `{Tier D} (lr : Z -> Z).

Record Store : Type := mkStore { st_cfg : RouterConfig; st_ram : R; st_disk : D }.

Definition with_tiers (s : Store) (r : R) (d : D) : Store := mkStore (st_cfg s) r d.

(** [GetTier]: RAM first, then disk. *)
Definition GetTier (s : Store) (key : bytes) : option (ObjectMeta * bytes * tierId) * Store :=
  let '(o, r) := t_get (st_ram s) key in
  match o with
  | Some mb => (Some (mb, TRam), with_tiers s r (st_disk s))
  | None =>
      let '(o', d) := t_get (st_disk s) key in
      ((fun mb => (mb, TDisk)) <$> o', with_tiers s r d)
  end.

Definition Get (s : Store) (key : bytes) : option (ObjectMeta * bytes) * Store :=
  let '(o, s') := GetTier s key in (fst <$> o, s').

(** A write to one tier. *)
Definition putTier (s : Store) (t : tierId) (meta : ObjectMeta) (body : bytes) : outcome Empty_set (bool * Store) :=
  match t with
  | TRam => let! (b, r) := t_put (st_ram s) meta body in Ok (b, with_tiers s r (st_disk s))
  | TDisk => let! (b, d) := t_put (st_disk s) meta body in Ok (b, with_tiers s (st_ram s) d)
  end.

Definition deleteTier (s : Store) (t : tierId) (key : bytes) : Store :=
  match t with
  | TRam => with_tiers s (t_delete (st_ram s) key) (st_disk s)
  | TDisk => with_tiers s (st_ram s) (t_delete (st_disk s) key)
  end.

(** A write through [Writer] and [dedupWriter.Commit]. *)
Definition put (s : Store) (meta : ObjectMeta) (body : bytes) : outcome Empty_set (bool * Store) :=
  let dst := tierFor lr (st_cfg s) meta in
  let! (stored, s1) := putTier s dst meta body in
  Ok (stored, if stored then deleteTier s1 (sibling dst) (Key meta) else s1).

(** The same with the delete of the sibling copy as a separate step: the
    deletes some writers have still to run. *)
Inductive store_step : Store * list (tierId * bytes) -> Store * list (tierId * bytes) -> Prop :=
| st_get s p k : store_step (s, p) (snd (Get s k), p)
| st_commit s p meta body stored s' :
    blen body < 2 ^ 62 -> putTier s (tierFor lr (st_cfg s) meta) meta body = Ok (stored, s') ->
    store_step (s, p) (s', if stored then p ++ [(sibling (tierFor lr (st_cfg s) meta), Key meta)] else p)
| st_dedup s p1 t k p2 : store_step (s, p1 ++ (t, k) :: p2) (deleteTier s t k, p1 ++ p2).
End Store.
Arguments Store R D : clear implicits.

(** ** One tier per key *)

Section StoreProofs.
Context {R D : Type} {TR : Tier R} {TD : Tier D} (lr : Z -> Z).
Implicit Types s : Store R D.

Definition store_inv s : Prop := t_inv (st_ram s) /\ t_inv (st_disk s).

(** The copy of [k] in tier [t]. *)
Definition copy s (t : tierId) (k : bytes) : option (ObjectMeta * bytes) :=
  match t with TRam => look (st_ram s) k | TDisk => look (st_disk s) k end.

Definition in_both s (k : bytes) : Prop := is_Some (copy s TRam k) /\ is_Some (copy s TDisk k).

Lemma Get_store s k : store_inv s ->
  store_inv (snd (Get s k)) /\ (forall t x, copy (snd (Get s k)) t x = copy s t x) /\
  fst (Get s k) = match copy s TRam k with Some mb => Some mb | None => copy s TDisk k end.
Proof.
  intros [Hr Hd]. unfold Get, GetTier, copy, look.
  destruct (t_get_ok (st_ram s) k Hr) as [Hr' Vr]. destruct (t_get (st_ram s) k) as [[mb|] r]; simpl in *.
  - split_and!; [done|by intros []|done].
  - destruct (t_get_ok (st_disk s) k Hd) as [Hd' Vd]. destruct (t_get (st_disk s) k) as [o d]; simpl in *.
    split_and!; [done|by intros []|by destruct o].
Qed.

Lemma deleteTier_ok s t k : store_inv s ->
  store_inv (deleteTier s t k) /\ copy (deleteTier s t k) t k = None /\
  (forall x, x <> k -> copy (deleteTier s t k) t x = copy s t x) /\
  (forall x, copy (deleteTier s t k) (sibling t) x = copy s (sibling t) x).
Proof.
  intros [Hr Hd]. destruct t; simpl.
  - destruct (t_delete_ok (st_ram s) k Hr) as [H1 H2]. unfold look. split_and!; [done|by rewrite H2, decide_True| |done].
    intros x Hx. by rewrite H2, decide_False.
  - destruct (t_delete_ok (st_disk s) k Hd) as [H1 H2]. unfold look. split_and!; [done|by rewrite H2, decide_True| |done].
    intros x Hx. by rewrite H2, decide_False.
Qed.

Lemma putTier_ok s t meta body : store_inv s -> blen body < 2 ^ 62 ->
  exists stored s', putTier s t meta body = Ok (stored, s') /\ store_inv s' /\ st_cfg s' = st_cfg s /\
    (stored = true -> copy s' t (Key meta) = Some (set_Size (blen body) meta, body)) /\
    (stored = false -> forall x, copy s' t x = copy s t x) /\
    (forall x, x <> Key meta -> copy s' t x = None \/ copy s' t x = copy s t x) /\
    (forall x, copy s' (sibling t) x = copy s (sibling t) x).
Proof.
  intros [Hr Hd] Hb. destruct t; unfold putTier.
  - destruct (t_put_ok (st_ram s) meta body Hr Hb) as (st & r & -> & H1 & H2 & H3 & H4). cbn [obind].
    do 2 eexists. split_and!; [done|by split|done|exact H2|exact H3|exact H4|done].
  - destruct (t_put_ok (st_disk s) meta body Hd Hb) as (st & r & -> & H1 & H2 & H3 & H4). cbn [obind].
    do 2 eexists. split_and!; [done|by split|done|exact H2|exact H3|exact H4|done].
Qed.

Lemma in_both_tiers s t k : in_both s k <-> is_Some (copy s t k) /\ is_Some (copy s (sibling t) k).
Proof. destruct t; unfold in_both; simpl; tauto. Qed.

Lemma store_step_inv c c' :
  store_step lr c c' -> store_inv (fst c) -> (forall k, in_both (fst c) k -> exists t, (t, k) ∈ snd c) ->
  store_inv (fst c') /\ (forall k, in_both (fst c') k -> exists t, (t, k) ∈ snd c').
Proof.
  intros Hs Hi Hb. destruct Hs as [s p k|s p meta body stored s' Hl Hp|s p1 t k p2]; cbn [fst snd] in *.
  - destruct (Get_store s k Hi) as (H1 & H2 & _). split; [done|]. intros x Hx. apply Hb. unfold in_both in *. by rewrite !H2 in Hx.
  - destruct (putTier_ok s (tierFor lr (st_cfg s) meta) meta body Hi Hl) as (st & s2 & E & H1 & _ & _ & H3 & H4 & H5).
    rewrite Hp in E. injection E as <- <-. split; [done|]. intros x Hx.
    rewrite (in_both_tiers _ (tierFor lr (st_cfg s) meta)) in Hx. rewrite H5 in Hx. destruct Hx as [X1 X2].
    destruct (decide (x = Key meta)) as [->|Hne].
    + destruct stored; [eexists; apply elem_of_app; right; by left|]. apply Hb, (in_both_tiers s (tierFor lr (st_cfg s) meta)). by rewrite H3 in X1.
    + assert (in_both s x) as Hx. { apply (in_both_tiers s (tierFor lr (st_cfg s) meta)). destruct (H4 x Hne) as [E|E]; rewrite E in X1; [by destruct X1|done]. }
      destruct (Hb x Hx) as [t Ht]. exists t. destruct stored; [apply elem_of_app; by left|done].
  - destruct (deleteTier_ok s t k Hi) as (H1 & H2 & H3 & H4). split; [done|]. intros x Hx. rewrite (in_both_tiers _ t) in Hx.
    rewrite H4 in Hx. destruct (decide (x = k)) as [->|Hne].
    + rewrite H2 in Hx. by destruct Hx as [[] _].
    + rewrite H3 in Hx by done. destruct (Hb x) as [t' Ht]; [by apply (in_both_tiers s t)|]. exists t'.
      rewrite !elem_of_app, elem_of_cons in *. destruct Ht as [?|[[= ? ?]|?]]; [by left|done|by right].
Qed.

(** C15. A key is resident in at most one tier: from a store whose tiers
    share no key, after any interleaving of lookups, commits and the sibling
    deletes that follow them, a key that is in both tiers still has a delete
    outstanding; so whenever no writer is between its commit and its delete, no
    GET can see a shadowed copy. *)
Theorem store_single_tier s0 s p :
  store_inv s0 -> (forall k, ~ in_both s0 k) -> rtc (store_step lr) (s0, []) (s, p) ->
  (forall k, in_both s k -> exists t, (t, k) ∈ p) /\ (p = [] -> forall k, ~ in_both s k).
Proof.
  intros Hi Hn Hr. remember (s0, []) as c0 eqn:E0. remember (s, p) as c eqn:Ec.
  assert (store_inv (fst c0) /\ forall k, in_both (fst c0) k -> exists t, (t, k) ∈ snd c0) as H0.
  { subst. split; [done|]. intros k Hk. by apply Hn in Hk. }
  assert (store_inv (fst c) /\ forall k, in_both (fst c) k -> exists t, (t, k) ∈ snd c) as [_ H].
  { clear E0 Ec Hi Hn. induction Hr as [c|c1 c2 c3 Hs _ IH]; [done|]. apply IH. destruct H0. by eapply store_step_inv. }
  subst c. split; [done|]. intros -> k Hk. apply H in Hk as [t Ht]. by apply not_elem_of_nil in Ht.
Qed.

(** A write through the store behaves like a map update with eviction:
    it terminates; if it is stored, the next GET of its key returns exactly this
    body, from the only tier that has the key; if it is not, nothing changes; and
    every other key returns what it did before, or nothing. *)
Theorem store_put_get s meta body :
  store_inv s -> (forall k, ~ in_both s k) -> blen body < 2 ^ 62 ->
  exists stored s', put lr s meta body = Ok (stored, s') /\ (forall k, ~ in_both s' k) /\
    (stored = true -> fst (Get s' (Key meta)) = Some (set_Size (blen body) meta, body)) /\
    (stored = false -> forall k, fst (Get s' k) = fst (Get s k)) /\
    (forall k, k <> Key meta -> fst (Get s' k) = None \/ fst (Get s' k) = fst (Get s k)).
Proof.
  intros Hi Hn Hb. set (t := tierFor lr (st_cfg s) meta).
  destruct (putTier_ok s t meta body Hi Hb) as (st & s1 & E & H1 & _ & H2 & H3 & H4 & H5).
  assert (forall s2, store_inv s2 -> (forall k, ~ in_both s2 k) -> forall k,
    fst (Get s2 k) = match copy s2 t k with Some mb => Some mb | None => copy s2 (sibling t) k end) as HG.
  { intros s2 Hs2 Hns2 k. destruct (Get_store s2 k Hs2) as (_ & _ & ->). specialize (Hns2 k). unfold in_both in Hns2.
    destruct t; cbn [sibling]; [done|].
    destruct (copy s2 TRam k) as [x|], (copy s2 TDisk k) as [y|]; try done. by destruct Hns2. }
  unfold put. fold t. rewrite E. cbn [obind]. do 2 eexists. split; [done|].
  assert (forall k, k <> Key meta -> ~ in_both s1 k) as Hn1.
  { intros k Hk. rewrite (in_both_tiers _ t), H5. intros [X1 X2]. apply (Hn k). rewrite (in_both_tiers _ t).
    destruct (H4 k Hk) as [Ek|Ek]; rewrite Ek in X1; [by destruct X1|done]. }
  destruct st.
  - destruct (deleteTier_ok s1 (sibling t) (Key meta) H1) as (D1 & D2 & D3 & D4).
    assert (sibling (sibling t) = t) as Ess by (by destruct t). rewrite Ess in D4.
    assert (forall k, ~ in_both (deleteTier s1 (sibling t) (Key meta)) k) as Hn2.
    { intros k. rewrite (in_both_tiers _ t), D4. destruct (decide (k = Key meta)) as [->|Hk].
      - rewrite D2. by intros [_ []].
      - rewrite D3, <- in_both_tiers by done. by apply Hn1. }
    split_and!; [done| |done|].
    + intros _. by rewrite HG, D4, H2.
    + intros k Hk. rewrite !HG, D4, D3, H5 by done. destruct (H4 k Hk) as [->| ->]; [|by right].
      destruct (copy s t k) eqn:Ek; [|by right]. left.
      destruct (copy s (sibling t) k) eqn:Es; [|done]. destruct (Hn k). rewrite (in_both_tiers _ t), Ek, Es. by split.
  - assert (forall k, ~ in_both s1 k) as Hn2.
    { intros k. rewrite (in_both_tiers _ t), H5, H3, <- in_both_tiers by done. apply Hn. }
    assert (forall k, fst (Get s1 k) = fst (Get s k)) as Hsame by (intros k; by rewrite !HG, H5, H3).
    split_and!; [done|done|done|]. intros k _. by right.
Qed.
End StoreProofs.

(** ** The RAM tier is a tier *)

Definition ram_inv (r : RAMTier) : Prop :=
  tier_ok r /\ 0 < r_inflightBudget r < 2 ^ 62 /\ 0 <= r_inflightBytes r <= r_inflightBudget r.

Definition ram_put (r : RAMTier) (meta : ObjectMeta) (body : bytes) : outcome Empty_set (bool * RAMTier) :=
  let! (r2, w2) := (let '(r1, w1) := Writes r (RamWriter.Writer meta) [body] in Commit r1 w1) in
  Ok (Stored w2, r2).

Lemma ram_get_view r k : tier_ok r -> fst (Ram.Get r k) = tier_view r k.
Proof. intros H. by destruct (Get_spec r k H). Qed.

Lemma ram_get_inv r k : ram_inv r -> ram_inv (snd (Ram.Get r k)) /\
  forall x, fst (Ram.Get (snd (Ram.Get r k)) x) = fst (Ram.Get r x).
Proof.
  intros (H & Hb & Hi). destruct (Get_spec r k H) as (_ & Hok & Hv).
  destruct (ram_step_budget r (snd (Ram.Get r k)) (step_get r k)) as [[E1 _] E2]. split.
  - split_and!; [done|lia|lia|lia|lia].
  - intros x. by rewrite !ram_get_view.
Qed.

Lemma ram_delete_inv r k : ram_inv r -> ram_inv (Ram.Delete r k) /\
  forall x, fst (Ram.Get (Ram.Delete r k) x) = if decide (x = k) then None else fst (Ram.Get r x).
Proof.
  intros (H & Hb & Hi). destruct (Delete_spec r k H) as (Hok & Hv).
  destruct (ram_step_budget r (Ram.Delete r k) (step_delete r k)) as [[E1 _] E2]. split.
  - split_and!; [done|lia|lia|lia|lia].
  - intros x. rewrite !ram_get_view, Hv by done. by destruct (decide (x = k)); case_bool_decide.
Qed.

Lemma ram_put_inv r meta body : ram_inv r -> blen body < 2 ^ 62 ->
  exists stored r', ram_put r meta body = Ok (stored, r') /\ ram_inv r' /\
    (stored = true -> fst (Ram.Get r' (Key meta)) = Some (set_Size (blen body) meta, body)) /\
    (stored = false -> forall x, fst (Ram.Get r' x) = fst (Ram.Get r x)) /\
    (forall x, x <> Key meta -> fst (Ram.Get r' x) = None \/ fst (Ram.Get r' x) = fst (Ram.Get r x)).
Proof.
  intros (H & Hb & Hi) Hl. unfold ram_put.
  destruct (writer_whole r meta [body] H Hb Hi) as (r2 & w2 & -> & Hin & (Hok & Hbud & Ho) & H1 & H2 & _);
    [by constructor|]. cbn [obind concat] in *. rewrite app_nil_r in *. do 2 eexists. split; [done|]. split_and!.
  - split_and!; [done|lia|lia|lia|lia].
  - done.
  - intros Hs x. rewrite !ram_get_view by done. unfold tier_view, shard. by rewrite (H2 Hs).
  - intros x Hx. rewrite !ram_get_view by done. by apply Ho.
Qed.

#[export] Instance ram_tier : Tier RAMTier := {|
  t_inv := ram_inv; t_get := Ram.Get; t_delete := Ram.Delete; t_put := ram_put;
  t_get_ok := ram_get_inv; t_delete_ok := ram_delete_inv; t_put_ok := ram_put_inv
|}.

(** ** The disk tier is a tier *)

Section DiskInstance.
Context (blobPath : bytes -> bytes).
Hypothesis blobPath_inj : forall k1 k2, blobPath k1 = blobPath k2 -> k1 = k2.
Hypothesis blobPath_not_wip : forall k, ~ isWip (blobPath k).

(** The name [os.CreateTemp] picks. *)
Definition tmpName : bytes := go "wip-0".

Definition disk_get (d : DiskTier) (k : bytes) := dGet blobPath d k false.

Definition disk_put (d : DiskTier) (meta : ObjectMeta) (body : bytes) : outcome Empty_set (bool * DiskTier) :=
  let '(d1, w1) := dWriter d meta tmpName in
  let '(d2, w2) := dWrite d1 w1 body (length body) in
  let! (err, d3, w3) := dCommit blobPath d2 w2 false false in
  Ok (dw_stored w3, d3).

Lemma disk_get_hit d k : disk_ok blobPath d -> fst (disk_get d k) = dhit blobPath d k.
Proof using blobPath_inj.
  intros H. pose proof (dGet_spec blobPath blobPath_inj d k false H) as Hg. unfold disk_get.
  destruct (dGet blobPath d k false). by destruct Hg as [-> _].
Qed.

Lemma disk_get_inv d k : disk_ok blobPath d -> disk_ok blobPath (snd (disk_get d k)) /\
  forall x, fst (disk_get (snd (disk_get d k)) x) = fst (disk_get d x).
Proof using blobPath_inj.
  intros H. pose proof (dGet_spec blobPath blobPath_inj d k false H) as Hg.
  assert (disk_ok blobPath (snd (disk_get d k)) /\ forall x, dhit blobPath (snd (disk_get d k)) x = dhit blobPath d x) as [H1 H2].
  { unfold disk_get. destruct (dGet blobPath d k false) as [o d']. destruct Hg as (-> & Hok & Hx). split; [done|].
    intros x. cbn [snd]. rewrite Hx. by destruct (decide (x = k)) as [->|]. }
  split; [done|]. intros x. by rewrite !disk_get_hit.
Qed.

Lemma disk_delete_inv d k : disk_ok blobPath d -> disk_ok blobPath (dDelete blobPath d k) /\
  forall x, fst (disk_get (dDelete blobPath d k) x) = if decide (x = k) then None else fst (disk_get d x).
Proof using blobPath_inj.
  intros H. destruct (dDelete_spec blobPath blobPath_inj d k H) as [H1 H2]. split; [done|].
  intros x. by rewrite !disk_get_hit, H2.
Qed.

Lemma disk_put_inv d meta body : disk_ok blobPath d -> blen body < 2 ^ 62 ->
  exists stored d', disk_put d meta body = Ok (stored, d') /\ disk_ok blobPath d' /\
    (stored = true -> fst (disk_get d' (Key meta)) = Some (set_Size (blen body) meta, body)) /\
    (stored = false -> forall x, fst (disk_get d' x) = fst (disk_get d x)) /\
    (forall x, x <> Key meta -> fst (disk_get d' x) = None \/ fst (disk_get d' x) = fst (disk_get d x)).
Proof using blobPath_inj blobPath_not_wip.
  intros H Hl. unfold disk_put. cbn [dWriter dWrite].
  set (d2 := with_fs _ _). assert (isWip tmpName) as Hw by done.
  assert (k_fs d2 = <[tmpName := body]> (k_fs d)) as Efs.
  { unfold d2. cbn [with_fs with_disk k_fs dw_tmp]. rewrite firstn_all. apply map_eq. intros p.
    destruct (decide (p = tmpName)) as [->|]; [by rewrite lookup_alter_eq, !lookup_insert_eq|].
    by rewrite lookup_alter_ne, !lookup_insert_ne. }
  assert (forall x, dhit blobPath d2 x = dhit blobPath d x) as Hsame.
  { intros x. unfold dhit. change (dmeta d2 x) with (dmeta d x). destruct (dmeta d x); [|done]. rewrite Efs.
    rewrite lookup_insert_ne; [done|]. intros E. symmetry in E. by apply (wip_not_blob blobPath blobPath_not_wip _ x) in E. }
  assert (disk_ok blobPath d2) as Hd2.
  { destruct H as [[C1 C2 C3 C4] Hb]. split; [by split|]. intros k m b Hk. rewrite Hsame in Hk. by apply (Hb k). }
  unfold dCommit. cbn [dw_meta dw_tmp dw_n]. rewrite firstn_all.
  replace (wrap64 (0 + blen body)) with (blen body) by (rewrite wrap64_small; unfold blen in *; lia).
  destruct (dcommit_spec blobPath blobPath_inj d2 meta tmpName (blen body) false Hd2)
    as (stored & err & d' & -> & Hok & Hst & _ & Ho & Hns & Hfit).
  { unfold blen. lia. }
  { intros k. by apply (wip_not_blob blobPath blobPath_not_wip). }
  { intros b. rewrite Efs, lookup_insert_eq. by intros [= <-]. }
  cbn [obind dw_stored]. do 2 eexists. split; [done|]. split_and!.
  - done.
  - intros E. destruct (Hst E) as (b & Hb & Hh). rewrite Efs, lookup_insert_eq in Hb. injection Hb as <-.
    by rewrite disk_get_hit, Hh.
  - intros E x. rewrite !disk_get_hit by done. rewrite <- Hsame.
    apply Hns; [done|]. apply Hfit; [done|]. by rewrite Efs, lookup_insert_eq.
  - intros x Hx. rewrite !disk_get_hit, <- Hsame by done. by apply Ho.
Qed.

Definition disk_tier : Tier DiskTier := {|
  t_inv := disk_ok blobPath; t_get := disk_get; t_delete := dDelete blobPath; t_put := disk_put;
  t_get_ok := disk_get_inv; t_delete_ok := disk_delete_inv; t_put_ok := disk_put_inv
|}.

(** [NewStore], on the directory's files and index. *)
Definition NewStore (cfg0 : RouterConfig) (fs : gmap bytes bytes) (index : option (list ObjectMeta))
    : outcome Empty_set (Store RAMTier DiskTier) :=
  let cfg := resolveConfig cfg0 in
  let! disk := NewDiskTier blobPath (DiskMaxBytes cfg) fs index in
  Ok (mkStore cfg (NewRAMTier (RAMMaxBytes cfg) (RAMMaxObjectBytes cfg) (RAMInflightBudget cfg)) disk).
End DiskInstance.

(** ** Witnesses *)

Definition demo_disk : Tier DiskTier := disk_tier demoPath demoPath_inj demoPath_not_wip.

Definition demo_store : Store RAMTier DiskTier :=
  mkStore (resolveConfig (mkConfig 100 100 10 0 0 ∅)) (NewRAMTier 100 100 100) (freshTier 100).

Lemma NewRAMTier_empty m o b k : m < 2 ^ 62 -> fst (Ram.Get (NewRAMTier m o b) k) = None.
Proof.
  intros H. rewrite ram_get_view by (by apply NewRAMTier_ok). unfold tier_view. cbn [NewRAMTier r_shards].
  rewrite map_lookup. destruct (_ !! _); [|done]. cbn. unfold view. cbn. by rewrite lookup_empty.
Qed.

Lemma demo_store_inv : store_inv (TD := demo_disk) demo_store.
Proof.
  split.
  - split_and!; [by apply NewRAMTier_ok|cbn; lia..].
  - by apply freshTier_ok.
Qed.

Lemma demo_store_empty k : ~ in_both (TD := demo_disk) demo_store k.
Proof. intros [[x Hx] _]. unfold copy, look in Hx. cbn [t_get ram_tier st_ram demo_store] in Hx. by rewrite NewRAMTier_empty in Hx. Qed.

Lemma store_single_tier_witness :
  exists s, rtc (store_step (H0 := demo_disk) (fun r => r)) (demo_store, []) (s, []) /\
    forall k, ~ in_both (TD := demo_disk) s k.
Proof.
  assert (exists s, rtc (store_step (H0 := demo_disk) (fun r => r)) (demo_store, []) (s, [])) as [s Hs].
  { eexists. eapply rtc_l; [eapply (st_commit _ demo_store [] (meta0 (go "k")) (go "abc")); [done|vm_compute; reflexivity]|].
    cbn. eapply rtc_l; [apply (st_dedup _ _ [] _ _ [])|]. apply rtc_refl. }
  exists s. split; [exact Hs|].
  apply (store_single_tier (TD := demo_disk) (fun r => r) demo_store s []); [exact demo_store_inv|exact demo_store_empty|exact Hs|reflexivity].
Defined.

Lemma store_put_get_witness :
  exists stored s', put (H0 := demo_disk) (fun r => r) demo_store (meta0 (go "k")) (go "abc") = Ok (stored, s') /\
    (stored = true -> fst (Get (H0 := demo_disk) s' (go "k")) = Some (set_Size 3 (meta0 (go "k")), go "abc")).
Proof.
  destruct (store_put_get (TD := demo_disk) (fun r => r) demo_store (meta0 (go "k")) (go "abc"))
    as (st & s' & Hp & _ & Hg & _); [exact demo_store_inv|exact demo_store_empty|done|].
  exists st, s'. split; [exact Hp|exact Hg].
Defined.

(** ** Placement that loses objects *)

(** Two writers of one key, the first to RAM and the second to disk, each
    committing before either deletes its sibling's copy: both copies go. *)
Theorem concurrent_restore_loses_both :
  (let! (b1, s1) := putTier (H0 := demo_disk) demo_store TRam (meta0 (go "k")) (go "old") in
   let! (b2, s2) := putTier (H0 := demo_disk) s1 TDisk (meta0 (go "k")) (go "new") in
   let s3 := deleteTier (H0 := demo_disk) (deleteTier (H0 := demo_disk) s2 TDisk (go "k")) TRam (go "k") in
   Ok (b1, b2, fst (Get (H0 := demo_disk) s3 (go "k")))) = Ok (true, true, None).
Proof. vm_compute. reflexivity. Qed.

(** The in-flight budget is not clamped to the tier: a site with a 256 MiB
    RAM tier may buffer 44 GiB. *)
Theorem inflight_budget_unclamped :
  let cfg := resolveConfig (siteConfig (Z.shiftl 256 20) 0 ∅) in
  RAMMaxBytes cfg = 268435456 /\ RAMInflightBudget cfg = 47244640256.
Proof. vm_compute. done. Qed.

(** With [ram 0] the clamp turns the per-object cap into 0, which disables it:
    no write is ever over the cap. *)
Theorem ram_zero_disables_cap disk ext w p :
  let cfg := resolveConfig (siteConfig 0 disk ext) in
  overCap (NewRAMTier (RAMMaxBytes cfg) (RAMMaxObjectBytes cfg) (RAMInflightBudget cfg)) w p = false.
Proof. reflexivity. Qed.

(** With a 64 MiB RAM tier every shard holds 1 MiB, but objects of a known size
    up to 2 MiB are routed to RAM: one of 1.5 MiB is refused by every state of the
    tier, although the disk tier has room for it. *)
Theorem small_object_cached_nowhere r meta data :
  reachable (Z.shiftl 64 20) (RAMMaxObjectBytes (resolveConfig (siteConfig (Z.shiftl 64 20) (Z.shiftl 1 40) ∅)))
    (RAMInflightBudget (resolveConfig (siteConfig (Z.shiftl 64 20) (Z.shiftl 1 40) ∅))) r ->
  blen data = 1572864 ->
  pickTier (fun c => c) (resolveConfig (siteConfig (Z.shiftl 64 20) (Z.shiftl 1 40) ∅)) (go "/video/seg.ts") 1572864 = TRam /\
  commit r meta data = Ok (false, r).
Proof.
  intros Hr Hd. split; [vm_compute; reflexivity|].
  assert (Z.shiftl 64 20 < 2 ^ 62) as Hm by (vm_compute; reflexivity).
  destruct (reachable_ok _ _ _ r Hm Hr) as [Hok Hmax].
  unfold commit. destruct (tier_shard r (Key meta) Hok) as (s & Hs & _). rewrite Hs.
  assert (s_maxBytes s = 1048576) as Hcap.
  { assert (s_maxBytes s ∈ map s_maxBytes (r_shards r)) as Hin
      by (apply list_elem_of_fmap_2; by eapply list_elem_of_lookup_2).
    rewrite (to_caps _ Hok), Hmax in Hin.
    assert (Forall (fun c => c = 1048576) (shardCaps (Z.shiftl 64 20) (shardCount (Z.shiftl 64 20)))) as Hall
      by (apply (bool_decide_unpack _); vm_compute; exact I).
    rewrite list.Forall_forall in Hall. by apply Hall. }
  unfold shardCommit. rewrite Hd, Hcap. change (1572864 >? 1048576) with true. cbn [obind].
  rewrite list_insert_id by done. by destruct r.
Qed.
