(* ===== verification/Freshness.v ===== *)
(** The freshness index (src/internal/server/freshness.go): the sharded map of
    TTL, grace, max-stale and hit-for-miss decisions, and the list of regex bans.

    Every operation is one critical section of its shard's lock, so it is one
    function of the index and of the clock reading it makes. [classify] has two
    sections; the second, [classifyPrune], is an operation of its own, since
    others may run in between. The index is compared with a specification that
    never forgets a decision or a ban: pruning, sweeping and the trimming of the
    ban list must be invisible. *)

From stdpp Require Import base strings numbers gmap list.
From Stdlib Require Import Lia.
From S2P Require Import Prelude.
Open Scope Z_scope.

(** ** Instants and durations

    A [time.Time] is a count of nanoseconds since the zero time, a
    [time.Duration] an int64 number of nanoseconds. *)

Definition IsZero (t : Z) : bool := t =? 0.
Definition Before (t u : Z) : bool := t <? u.
Definition After (t u : Z) : bool := u <? t.
Definition TAdd (t d : Z) : Z := t + d.
Definition TSub (t u : Z) : Z := Z.max int64_min (Z.min int64_max (t - u)).

(** ** The index *)

Record freshEntry := mkEntry {
  storedAt : Z;
  expires : Z;
  graceUntil : Z;
  maxStaleUntil : Z;
  hfmUntil : Z;
}.

(** A compiled regular expression is used only through [MatchString]. *)
Record banEntry := mkBan { MatchString : bytes -> bool; issuedAt : Z }.

Inductive freshState := stateMiss | stateFresh | stateStale.

Definition maxBans : nat := 256.
Definition freshnessShards : nat := 64.

Record freshness := mkFresh {
  f_shards : list (gmap bytes freshEntry);
  f_bans : list banEntry;
  f_banCount : Z;
  f_maxGrace : Z;
}.

Definition newFreshness : freshness := mkFresh (replicate freshnessShards ∅) [] 0 0.

Definition fnv32 (key : bytes) : Z :=
  fold_left (fun h c => wrap32u (Z.lxor h (byteZ c) * 16777619)) key 2166136261.

Definition fshard (key : bytes) : nat := Z.to_nat (fnv32 key mod Z.of_nat freshnessShards).

Definition entry (f : freshness) (key : bytes) : option freshEntry :=
  f_shards f !! fshard key ≫= fun sh => sh !! key.

Definition on_shard (g : gmap bytes freshEntry -> gmap bytes freshEntry) (f : freshness) (key : bytes) : freshness :=
  mkFresh (alter g (fshard key) (f_shards f)) (f_bans f) (f_banCount f) (f_maxGrace f).

Definition set_entry (f : freshness) (key : bytes) (e : freshEntry) : freshness := on_shard <[key := e]> f key.
Definition del_entry (f : freshness) (key : bytes) : freshness := on_shard (delete key) f key.

Definition banned (f : freshness) (key : bytes) (stored : Z) : bool :=
  if f_banCount f =? 0 then false
  else existsb (fun b => After (issuedAt b) stored && MatchString b key) (f_bans f).

Definition prunable (e : freshEntry) (now : Z) : bool :=
  if negb (IsZero (maxStaleUntil e)) then negb (Before now (maxStaleUntil e)) else true.

Definition entryReclaimable (f : freshness) (key : bytes) (e : freshEntry) (now : Z) : bool :=
  if banned f key (storedAt e) then true
  else if negb (IsZero (hfmUntil e)) then negb (Before now (hfmUntil e))
  else if Before now (graceUntil e) then false
  else prunable e now.

Definition sweep (f : freshness) (now : Z) : freshness :=
  mkFresh (map (filter (fun ke => entryReclaimable f ke.1 ke.2 now = false)) (f_shards f))
    (f_bans f) (f_banCount f) (f_maxGrace f).

Definition observeWindow (f : freshness) (w : Z) : freshness :=
  if w <=? f_maxGrace f then f else mkFresh (f_shards f) (f_bans f) (f_banCount f) w.

Definition fstore (f : freshness) (key : bytes) (ttl grace maxStale now : Z) : freshness :=
  let e := mkEntry now (TAdd now ttl) (TAdd now (wrap64 (ttl + grace)))
    (if maxStale >? 0 then TAdd now (wrap64 (wrap64 (ttl + grace) + maxStale)) else 0) 0 in
  observeWindow (set_entry f key e) (wrap64 (wrap64 (ttl + grace) + maxStale)).

Definition setHitForMiss (f : freshness) (key : bytes) (d now : Z) : freshness :=
  observeWindow (set_entry f key (mkEntry now 0 0 0 (TAdd now d))) d.

Definition hitForMiss (f : freshness) (key : bytes) (now : Z) : bool * freshness :=
  match entry f key with
  | None => (false, f)
  | Some e =>
    if negb (IsZero (hfmUntil e)) then
      if Before now (hfmUntil e) then
        if banned f key (storedAt e) then (false, del_entry f key) else (true, f)
      else (false, del_entry f key)
    else (false, f)
  end.

Definition classifyPrune (f : freshness) (key : bytes) (now : Z) : freshState * bool * freshness :=
  match entry f key with
  | None => (stateMiss, false, f)
  | Some e =>
    if negb (IsZero (hfmUntil e)) then
      if Before now (hfmUntil e) then
        if banned f key (storedAt e) then (stateMiss, false, del_entry f key) else (stateMiss, true, f)
      else (stateMiss, false, del_entry f key)
    else if banned f key (storedAt e) then (stateMiss, false, del_entry f key)
    else if Before now (expires e) then (stateFresh, false, f)
    else if Before now (graceUntil e) then (stateStale, false, f)
    else if prunable e now then (stateMiss, false, del_entry f key)
    else (stateMiss, false, f)
  end.

(** [now] is the reading of [classify], [now'] the later one of
    [classifyPrune]. *)
Definition classify (f : freshness) (key : bytes) (now now' : Z) : freshState * bool * freshness :=
  match entry f key with
  | None => (stateMiss, false, f)
  | Some e =>
    if negb (IsZero (hfmUntil e)) then
      if Before now (hfmUntil e) && negb (banned f key (storedAt e)) then (stateMiss, true, f)
      else classifyPrune f key now'
    else if banned f key (storedAt e) then classifyPrune f key now'
    else if Before now (expires e) then (stateFresh, false, f)
    else if Before now (graceUntil e) then (stateStale, false, f)
    else classifyPrune f key now'
  end.

Definition flookup (f : freshness) (key : bytes) (now : Z) : freshState * freshness :=
  match entry f key with
  | None => (stateMiss, f)
  | Some e =>
    if negb (IsZero (hfmUntil e)) then (stateMiss, f)
    else if banned f key (storedAt e) then (stateMiss, del_entry f key)
    else if Before now (expires e) then (stateFresh, f)
    else if Before now (graceUntil e) then (stateStale, f)
    else if prunable e now then (stateMiss, del_entry f key)
    else (stateMiss, f)
  end.

Definition staleWithin (f : freshness) (key : bytes) (now : Z) : bool :=
  match entry f key with
  | None => false
  | Some e =>
    if IsZero (maxStaleUntil e) then false
    else if negb (IsZero (hfmUntil e)) then false
    else if banned f key (storedAt e) then false
    else negb (Before now (graceUntil e)) && Before now (maxStaleUntil e)
  end.

Definition banMatches (f : freshness) (re : bytes -> bool) (now : Z) : Z :=
  sumZ (fun sh => Z.of_nat (length (filter (fun ke => Before (storedAt ke.2) now && re ke.1 = true) (map_to_list sh))))
    (f_shards f).

(** The bans that survive the pruning and the cap of an add. *)
Definition keptBans (f : freshness) (now : Z) : list banEntry :=
  let cutoff := TAdd now (wrap64 (-2 * f_maxGrace f)) in
  let kept := filter (fun b => After (issuedAt b) cutoff = true) (f_bans f) in
  if Nat.leb maxBans (length kept) then drop (length kept - maxBans + 1) kept else kept.

Definition fban (f : freshness) (re : option (bytes -> bool)) (now : Z) : Z * freshness :=
  match re with
  | None => (0, f)
  | Some re =>
    let l := keptBans f now ++ [mkBan re now] in
    (banMatches f re now, mkFresh (f_shards f) l (Z.of_nat (length l)) (f_maxGrace f))
  end.

Definition fstoredAt (f : freshness) (key : bytes) : option Z :=
  match entry f key with
  | None => None
  | Some e => if negb (IsZero (hfmUntil e)) then None else Some (storedAt e)
  end.

Definition lifetime (f : freshness) (key : bytes) : option Z :=
  match entry f key with
  | None => None
  | Some e =>
    if negb (IsZero (hfmUntil e)) then None
    else let d := TSub (expires e) (storedAt e) in Some (if d <? 0 then 0 else d)
  end.

Definition forget (f : freshness) (key : bytes) : freshness := del_entry f key.

Definition flen (f : freshness) : Z := sumZ (fun sh => Z.of_nat (size sh)) (f_shards f).

(** ** Specification

    What was last decided for each key, and every ban ever issued; nothing is
    pruned. *)

Inductive decision :=
| Stored (at_ ttl grace maxStale : Z)
| Bypass (at_ d : Z).

Definition made (d : decision) : Z := match d with Stored a _ _ _ => a | Bypass a _ => a end.
Definition window (d : decision) : Z := match d with Stored _ t g m => t + g + m | Bypass _ d => d end.

Record spec := mkSpec { sp_made : bytes -> option decision; sp_bans : list banEntry }.

Definition spec0 : spec := mkSpec (fun _ => None) [].

Definition decide_key (sp : spec) (key : bytes) (d : option decision) : spec :=
  mkSpec (fun k => if decide (k = key) then d else sp_made sp k) (sp_bans sp).

(** A ban hits the decisions made before it for the keys it matches. *)
Definition sbanned (sp : spec) (key : bytes) (d : decision) : bool :=
  existsb (fun b => (made d <? issuedAt b) && MatchString b key) (sp_bans sp).

(** What the index must answer: the state, whether to bypass the cache and, for
    a hit, the instant and the lifetime that the Age and Cache-Control headers
    are computed from. *)
Definition sclass (sp : spec) (key : bytes) (now : Z) : freshState * bool * option (Z * Z) :=
  match sp_made sp key with
  | None => (stateMiss, false, None)
  | Some d =>
    if sbanned sp key d then (stateMiss, false, None)
    else match d with
    | Bypass a w => (stateMiss, now <? a + w, None)
    | Stored a ttl grace _ =>
      if now <? a + ttl then (stateFresh, false, Some (a, ttl))
      else if now <? a + ttl + grace then (stateStale, false, Some (a, ttl))
      else (stateMiss, false, None)
    end
  end.

(** The fallback window of an object when its origin fails. *)
Definition sfallback (sp : spec) (key : bytes) (now : Z) : bool :=
  match sp_made sp key with
  | Some (Stored a ttl grace maxStale as d) =>
    negb (sbanned sp key d) && (a + ttl + grace <=? now) && (now <? a + ttl + grace + maxStale)
  | _ => false
  end.

(** ** Histories *)

Inductive event :=
| EStore (key : bytes) (ttl grace maxStale : Z)
| EHfm (key : bytes) (d : Z)
| EBan (re : option (bytes -> bool))
| EForget (key : bytes)
| ESweep
| EClassify (key : bytes)
| EPrune (key : bytes)
| ELookup (key : bytes)
| EHitForMiss (key : bytes)
| EStaleWithin (key : bytes).

Inductive answer :=
| ANone
| AClass (r : freshState * bool * option (Z * Z))
| AState (s : freshState)
| ABool (b : bool).

Definition hit_info (s : freshState) (f : freshness) (key : bytes) : option (Z * Z) :=
  match s with
  | stateMiss => None
  | _ => a ← fstoredAt f key; l ← lifetime f key; Some (a, l)
  end.

Definition exec (f : freshness) (now : Z) (ev : event) : freshness * answer :=
  match ev with
  | EStore k ttl grace ms => (fstore f k ttl grace ms now, ANone)
  | EHfm k d => (setHitForMiss f k d now, ANone)
  | EBan re => ((fban f re now).2, ANone)
  | EForget k => (forget f k, ANone)
  | ESweep => (sweep f now, ANone)
  | EClassify k => let '(s, h, f') := classify f k now now in (f', AClass (s, h, hit_info s f' k))
  | EPrune k => let '(s, h, f') := classifyPrune f k now in (f', AClass (s, h, hit_info s f' k))
  | ELookup k => let '(s, f') := flookup f k now in (f', AState s)
  | EHitForMiss k => let '(b, f') := hitForMiss f k now in (f', ABool b)
  | EStaleWithin k => (f, ABool (staleWithin f k now))
  end.

Definition sexec (sp : spec) (now : Z) (ev : event) : spec * answer :=
  match ev with
  | EStore k ttl grace ms => (decide_key sp k (Some (Stored now ttl grace ms)), ANone)
  | EHfm k d => (decide_key sp k (Some (Bypass now d)), ANone)
  | EBan None => (sp, ANone)
  | EBan (Some re) => (mkSpec (sp_made sp) (mkBan re now :: sp_bans sp), ANone)
  | EForget k => (decide_key sp k None, ANone)
  | ESweep => (sp, ANone)
  | EClassify k | EPrune k => (sp, AClass (sclass sp k now))
  | ELookup k => (sp, AState (sclass sp k now).1.1)
  | EHitForMiss k => (sp, ABool (sclass sp k now).1.2)
  | EStaleWithin k => (sp, ABool (sfallback sp k now))
  end.

Fixpoint answers (f : freshness) (h : list (Z * event)) : list answer :=
  match h with
  | [] => []
  | (now, ev) :: h => let '(f', a) := exec f now ev in a :: answers f' h
  end.

Fixpoint sanswers (sp : spec) (h : list (Z * event)) : list answer :=
  match h with
  | [] => []
  | (now, ev) :: h => let '(sp', a) := sexec sp now ev in a :: sanswers sp' h
  end.

(** The clock never goes back, and the durations are those of a compiled
    configuration: not negative, and far from the width of a Duration. *)
Definition event_ok (ev : event) : Prop :=
  match ev with
  | EStore _ ttl grace ms => 0 <= ttl /\ 0 <= grace /\ 0 <= ms /\ ttl + grace + ms < 2 ^ 61
  | EHfm _ d => 0 <= d < 2 ^ 61
  | _ => True
  end.

Fixpoint history_ok (t : Z) (h : list (Z * event)) : Prop :=
  match h with
  | [] => True
  | (now, ev) :: h => t <= now /\ event_ok ev /\ history_ok now h
  end.

Fixpoint bans_in (h : list (Z * event)) : nat :=
  match h with
  | [] => 0
  | (_, EBan _) :: h => S (bans_in h)
  | _ :: h => bans_in h
  end.

(** ** Shards *)

Lemma fshard_lt key : (fshard key < freshnessShards)%nat.
Proof.
  unfold fshard. pose proof (Z.mod_pos_bound (fnv32 key) (Z.of_nat freshnessShards) ltac:(done)).
  apply Nat2Z.inj_lt. rewrite Z2Nat.id; lia.
Qed.

Lemma entry_on_shard g f key k :
  (forall sh, k <> key -> g sh !! k = sh !! k) ->
  entry (on_shard g f key) k
  = if decide (k = key) then f_shards f !! fshard key ≫= fun sh => g sh !! key else entry f k.
Proof.
  intros Hg. unfold entry, on_shard. cbn [f_shards]. destruct (decide (k = key)) as [->|Hne].
  - rewrite list_lookup_alter_eq. by destruct (f_shards f !! fshard key).
  - destruct (decide (fshard k = fshard key)) as [->|Hs].
    + rewrite list_lookup_alter_eq. destruct (f_shards f !! fshard key) as [sh|]; [|done]. cbn. by apply Hg.
    + by rewrite list_lookup_alter_ne.
Qed.

Lemma entry_set f key e k :
  length (f_shards f) = freshnessShards ->
  entry (set_entry f key e) k = if decide (k = key) then Some e else entry f k.
Proof.
  intros Hl. unfold set_entry. rewrite entry_on_shard by (intros sh Hne; by apply lookup_insert_ne).
  destruct (decide (k = key)); [|done].
  destruct (lookup_lt_is_Some_2 (f_shards f) (fshard key)) as [sh ->]; [rewrite Hl; apply fshard_lt|].
  cbn. by rewrite lookup_insert_eq.
Qed.

Lemma entry_del f key k :
  entry (del_entry f key) k = if decide (k = key) then None else entry f k.
Proof.
  unfold del_entry. rewrite entry_on_shard by (intros sh Hne; by apply lookup_delete_ne).
  destruct (decide (k = key)); [|done].
  destruct (f_shards f !! fshard key); [|done]. cbn. by rewrite lookup_delete_eq.
Qed.

Lemma entry_sweep f now k :
  entry (sweep f now) k
  = match entry f k with Some e => if entryReclaimable f k e now then None else Some e | None => None end.
Proof.
  unfold entry, sweep. cbn [f_shards]. rewrite map_lookup.
  destruct (f_shards f !! fshard k) as [sh|]; [|done]. cbn. rewrite map_lookup_filter.
  destruct (sh !! k) as [e|]; [|done]. cbn. by destruct (entryReclaimable f k e now).
Qed.

(** ** Simulation *)

Definition entry_of (d : decision) : freshEntry :=
  match d with
  | Stored a ttl grace ms => mkEntry a (a + ttl) (a + ttl + grace) (if ms >? 0 then a + ttl + grace + ms else 0) 0
  | Bypass a d => mkEntry a 0 0 0 (a + d)
  end.

Definition decision_ok (d : decision) : Prop :=
  0 < made d /\
  match d with Stored _ ttl grace ms => 0 <= ttl /\ 0 <= grace /\ 0 <= ms | Bypass _ d => 0 <= d end.

(** A decision whose whole window has passed. *)
Definition over (d : decision) (now : Z) : Prop := made d + window d <= now.

Record sim (f : freshness) (sp : spec) (now : Z) : Prop := {
  sim_len : length (f_shards f) = freshnessShards;
  sim_count : f_banCount f = Z.of_nat (length (f_bans f));
  sim_grace : 0 <= f_maxGrace f < 2 ^ 61;
  sim_now : 0 <= now;
  sim_made k d : sp_made sp k = Some d -> decision_ok d /\ made d <= now /\ window d <= f_maxGrace f;
  sim_issued b : b ∈ sp_bans sp -> issuedAt b <= now;
  (* what the index still holds is the last decision *)
  sim_entry k e : entry f k = Some e -> exists d, sp_made sp k = Some d /\ e = entry_of d;
  (* what it has dropped can answer nothing any more *)
  sim_gone k d : entry f k = None -> sp_made sp k = Some d -> sbanned sp k d = true \/ over d now;
  sim_ban b : b ∈ f_bans f -> b ∈ sp_bans sp;
  (* the bans it has dropped hit only what has passed anyway *)
  sim_lost b : b ∈ sp_bans sp ->
    b ∈ f_bans f \/ forall k d, sp_made sp k = Some d -> made d < issuedAt b -> over d now;
}.

Lemma sim_init : sim newFreshness spec0 0.
Proof.
  constructor; try done; try (by intros b Hb%elem_of_nil).
  intros k e. unfold entry, newFreshness. cbn [f_shards].
  rewrite (lookup_replicate_2 freshnessShards ∅ _ (fshard_lt k)). cbn. by rewrite lookup_empty.
Qed.

Lemma sim_later f sp now now' : sim f sp now -> now <= now' -> sim f sp now'.
Proof.
  intros [H1 H2 H3 H4 H5 H6 H7 H8 H9 H10] Hle. unfold over in *. constructor; try done; try lia.
  - intros k d Hd. destruct (H5 k d Hd) as (? & ? & ?). split_and!; [done|lia|done].
  - intros b Hb. specialize (H6 b Hb). lia.
  - intros k d He Hd. destruct (H8 k d He Hd); [by left|right; unfold over in *; lia].
  - intros b Hb. destruct (H10 b Hb) as [?|H]; [by left|right]. intros k d Hd Hlt. specialize (H k d Hd Hlt).
    unfold over in *. lia.
Qed.

Lemma storedAt_entry_of d : storedAt (entry_of d) = made d.
Proof. by destruct d. Qed.

Lemma sbanned_true sp k d :
  sbanned sp k d = true <-> exists b, b ∈ sp_bans sp /\ made d < issuedAt b /\ MatchString b k = true.
Proof.
  unfold sbanned. rewrite existsb_exists. setoid_rewrite andb_true_iff. setoid_rewrite Z.ltb_lt.
  setoid_rewrite <- list_elem_of_In. done.
Qed.

Lemma banned_true f sp now k stored :
  sim f sp now ->
  banned f k stored = true <-> exists b, b ∈ f_bans f /\ stored < issuedAt b /\ MatchString b k = true.
Proof.
  intros H. unfold banned, After. rewrite (sim_count _ _ _ H).
  assert (existsb (fun b => (stored <? issuedAt b) && MatchString b k) (f_bans f) = true <->
    exists b, b ∈ f_bans f /\ stored < issuedAt b /\ MatchString b k = true) as <-.
  { rewrite existsb_exists. setoid_rewrite andb_true_iff. setoid_rewrite Z.ltb_lt.
    by setoid_rewrite <- list_elem_of_In. }
  destruct (f_bans f); [done|]. done.
Qed.

(** The index sees a ban or the decision is over; and it sees no others. *)
Lemma banned_sim f sp now k d :
  sim f sp now -> sp_made sp k = Some d ->
  if banned f k (made d) then sbanned sp k d = true else sbanned sp k d = false \/ over d now.
Proof.
  intros H Hd. destruct (banned f k (made d)) eqn:E.
  - apply (banned_true _ _ _ _ _ H) in E as (b & Hb & Hlt & Hm). apply sbanned_true. exists b.
    split_and!; [by eapply sim_ban|done..].
  - destruct (sbanned sp k d) eqn:Es; [|by left]. right. apply sbanned_true in Es as (b & Hb & Hlt & Hm).
    destruct (sim_lost _ _ _ H b Hb) as [Hin|Hover]; [|by eapply Hover].
    assert (banned f k (made d) = true) as E'; [|congruence].
    apply (banned_true _ _ _ _ _ H). by exists b.
Qed.

(** Once over or banned, a decision answers like no decision at all. *)
Lemma sclass_gone sp k d now :
  sp_made sp k = Some d -> decision_ok d -> sbanned sp k d = true \/ over d now ->
  sclass sp k now = (stateMiss, false, None) /\ sfallback sp k now = false.
Proof.
  unfold sclass, sfallback, decision_ok, over. intros -> Hok Hg.
  destruct (sbanned sp k d); [by destruct d|]. destruct Hg as [?|Hg]; [done|].
  destruct d as [a ttl grace ms|a w]; cbn [made window negb andb] in *; split; try done.
  - destruct (Z.ltb_spec now (a + ttl)); [lia|]. destruct (Z.ltb_spec now (a + ttl + grace)); [lia|done].
  - destruct (Z.ltb_spec now (a + ttl + grace + ms)); [lia|]. by rewrite andb_false_r.
  - destruct (Z.ltb_spec now (a + w)); [lia|done].
Qed.

(** Dropping an entry that can answer nothing any more is invisible. *)
Lemma sim_drop f sp now k d :
  sim f sp now -> sp_made sp k = Some d -> sbanned sp k d = true \/ over d now -> sim (del_entry f k) sp now.
Proof.
  intros H Hd Hg. destruct H as [H1 H2 H3 H4 H5 H6 H7 H8 H9 H10].
  constructor; try done.
  - unfold del_entry, on_shard. cbn [f_shards]. by rewrite length_alter.
  - intros k' e. rewrite entry_del. case_decide; [done|apply H7].
  - intros k' d'. rewrite entry_del. case_decide as E; [|apply H8]. intros _ Hd'. by simplify_eq.
Qed.

(** What the index knows about a key it holds. *)
Lemma sim_held f sp now k e :
  sim f sp now -> entry f k = Some e ->
  exists d, sp_made sp k = Some d /\ e = entry_of d /\ decision_ok d /\ window d < 2 ^ 61 /\
    if banned f k (made d) then sbanned sp k d = true else sbanned sp k d = false \/ over d now.
Proof.
  intros H He. destruct (sim_entry _ _ _ H k e He) as (d & Hd & ->). exists d.
  destruct (sim_made _ _ _ H k d Hd) as (Hok & _ & Hw). pose proof (sim_grace _ _ _ H).
  split_and!; [done..|lia|by apply (banned_sim f sp now)].
Qed.

Lemma sim_not_held f sp now k :
  sim f sp now -> entry f k = None -> sclass sp k now = (stateMiss, false, None) /\ sfallback sp k now = false.
Proof.
  intros H He. destruct (sp_made sp k) as [d|] eqn:Hd.
  - apply (sclass_gone sp k d); [done|by eapply sim_made|by eapply sim_gone].
  - unfold sclass, sfallback. by rewrite Hd.
Qed.

Lemma hfm_zero d : decision_ok d ->
  IsZero (hfmUntil (entry_of d)) = match d with Stored _ _ _ _ => true | Bypass _ _ => false end.
Proof.
  unfold decision_ok, IsZero. destruct d as [a t g m|a w]; cbn; [done|]. intros [? ?]. apply Z.eqb_neq. lia.
Qed.

(** The headers of a hit. *)
Lemma hit_info_entry f k a ttl grace ms s :
  entry f k = Some (entry_of (Stored a ttl grace ms)) -> 0 <= ttl < 2 ^ 61 -> s <> stateMiss ->
  hit_info s f k = Some (a, ttl).
Proof.
  intros He Ht Hs. unfold hit_info, fstoredAt, lifetime. rewrite He. cbn.
  assert (TSub (a + ttl) a = ttl) as -> by (unfold TSub, int64_min, int64_max; lia).
  destruct (Z.ltb_spec ttl 0); [lia|]. by destruct s.
Qed.

Lemma classifyPrune_sim f sp now k s h f' :
  sim f sp now -> classifyPrune f k now = (s, h, f') ->
  sim f' sp now /\ (s, h, hit_info s f' k) = sclass sp k now.
Proof.
  intros H. unfold classifyPrune. destruct (entry f k) as [e|] eqn:He.
  2: { intros [= <- <- <-]. split; [done|]. by destruct (sim_not_held f sp now k H He) as [-> _]. }
  destruct (sim_held f sp now k e H He) as (d & Hd & -> & Hok & Hw & Hb).
  pose proof (sim_drop f sp now k d H Hd) as Hdrop. pose proof (sclass_gone sp k d now Hd Hok) as Hgone.
  rewrite storedAt_entry_of, (hfm_zero d Hok). unfold Before.
  assert (sbanned sp k d = true \/ over d now ->
    sim (del_entry f k) sp now /\ (stateMiss, false, hit_info stateMiss (del_entry f k) k) = sclass sp k now) as Hg.
  { intros Hg. split; [by apply Hdrop|]. by destruct (Hgone Hg) as [-> _]. }
  destruct (banned f k (made d)); destruct d as [a ttl grace ms|a w];
    cbn [negb expires graceUntil maxStaleUntil hfmUntil entry_of made window] in *.
  - intros [= <- <- <-]. by auto.
  - destruct (now <? a + w); intros [= <- <- <-]; by auto.
  - unfold over, decision_ok, prunable, IsZero, Before in *. cbn [made window maxStaleUntil] in *.
    unfold sclass in *. rewrite Hd in *.
    destruct (Z.ltb_spec now (a + ttl)).
    { intros [= <- <- <-]. destruct Hb as [->|?]; [|lia]. split; [done|]. f_equal.
      apply (hit_info_entry f k a ttl grace ms); [done|lia|done]. }
    destruct (Z.ltb_spec now (a + ttl + grace)).
    { intros [= <- <- <-]. destruct Hb as [->|?]; [|lia]. split; [done|]. f_equal.
      apply (hit_info_entry f k a ttl grace ms); [done|lia|done]. }
    rewrite Z.gtb_ltb. destruct (Z.ltb_spec 0 ms) as [Hm|Hm].
    + destruct (Z.eqb_spec (a + ttl + grace + ms) 0); [lia|]. cbn [negb].
      destruct (Z.ltb_spec now (a + ttl + grace + ms)); cbn [negb]; intros [= <- <- <-].
      * split; [done|]. by destruct (sbanned _ _ _).
      * apply Hg. right. lia.
    + cbn. intros [= <- <- <-]. apply Hg. right. lia.
  - unfold over in *. cbn [made window] in *. unfold sclass in *. rewrite Hd in *.
    destruct (Z.ltb_spec now (a + w)); intros [= <- <- <-].
    + destruct Hb as [->|?]; [done|lia].
    + apply Hg. by right.
Qed.

(** At one instant the fast path of [classify] is the slow one. *)
Lemma classify_prune f k now : classify f k now now = classifyPrune f k now.
Proof.
  unfold classify, classifyPrune. destruct (entry f k) as [e|]; [|done].
  destruct (negb (IsZero (hfmUntil e))), (banned f k (storedAt e)); cbn [negb]; rewrite ?andb_false_r, ?andb_true_r; try done.
  - by destruct (Before now (hfmUntil e)).
  - destruct (Before now (expires e)); [done|]. by destruct (Before now (graceUntil e)).
Qed.

(** The one-lock [classify] is exactly the pair it replaced: the bypass
    flag of [hitForMiss] and, when that is false, the state of [lookup] on the
    index [hitForMiss] leaves, with the same entries pruned. *)
Theorem classify_pair f k now :
  classify f k now now
  = (let '(h, f1) := hitForMiss f k now in
     if h then (stateMiss, true, f1) else let '(s, f2) := flookup f1 k now in (s, false, f2)).
Proof.
  rewrite classify_prune. unfold classifyPrune, hitForMiss.
  destruct (entry f k) as [e|] eqn:He; [|by unfold flookup; rewrite He].
  assert (flookup (del_entry f k) k now = (stateMiss, del_entry f k)) as Hdel
    by (unfold flookup; rewrite entry_del; by case_decide).
  destruct (negb (IsZero (hfmUntil e))) eqn:Hz.
  - destruct (Before now (hfmUntil e)), (banned f k (storedAt e)); by rewrite ?Hdel.
  - unfold flookup. rewrite He, Hz. destruct (banned f k (storedAt e)); [done|].
    destruct (Before now (expires e)); [done|]. destruct (Before now (graceUntil e)); [done|].
    by destruct (prunable e now).
Qed.

Definition is_hfm (f : freshness) (k : bytes) : bool :=
  match entry f k with Some e => negb (IsZero (hfmUntil e)) | None => false end.

Lemma flookup_prune f k now :
  if is_hfm f k then flookup f k now = (stateMiss, f) /\ (classifyPrune f k now).1.1 = stateMiss
  else classifyPrune f k now = let '(s, f') := flookup f k now in (s, false, f').
Proof.
  unfold is_hfm, flookup, classifyPrune. destruct (entry f k) as [e|]; [|done].
  destruct (negb (IsZero (hfmUntil e))); repeat case_match; done.
Qed.

Lemma hitForMiss_prune f k now :
  if is_hfm f k then classifyPrune f k now = let '(h, f') := hitForMiss f k now in (stateMiss, h, f')
  else hitForMiss f k now = (false, f) /\ (classifyPrune f k now).1.2 = false.
Proof.
  unfold is_hfm, hitForMiss, classifyPrune. destruct (entry f k) as [e|]; [|done].
  destruct (negb (IsZero (hfmUntil e))); repeat case_match; done.
Qed.

Lemma flookup_sim f sp now k s f' :
  sim f sp now -> flookup f k now = (s, f') -> sim f' sp now /\ s = (sclass sp k now).1.1.
Proof.
  intros H E. pose proof (flookup_prune f k now) as Hp. destruct (classifyPrune f k now) as [[s1 h1] f1] eqn:Ep.
  destruct (classifyPrune_sim _ _ _ _ _ _ _ H Ep) as [H' <-].
  destruct (is_hfm f k); rewrite E in Hp; cbn in *; [destruct Hp as [[= -> ->] ->]|injection Hp as -> -> ->]; done.
Qed.

Lemma hitForMiss_sim f sp now k b f' :
  sim f sp now -> hitForMiss f k now = (b, f') -> sim f' sp now /\ b = (sclass sp k now).1.2.
Proof.
  intros H E. pose proof (hitForMiss_prune f k now) as Hp. destruct (classifyPrune f k now) as [[s1 h1] f1] eqn:Ep.
  destruct (classifyPrune_sim _ _ _ _ _ _ _ H Ep) as [H' <-].
  destruct (is_hfm f k); rewrite E in Hp; cbn in *; [injection Hp as -> -> ->|destruct Hp as [[= -> ->] ->]]; done.
Qed.

Lemma staleWithin_sim f sp now k : sim f sp now -> staleWithin f k now = sfallback sp k now.
Proof.
  intros H. unfold staleWithin. destruct (entry f k) as [e|] eqn:He.
  2: { by destruct (sim_not_held f sp now k H He) as [_ ->]. }
  destruct (sim_held f sp now k e H He) as (d & Hd & -> & Hok & Hw & Hb).
  pose proof (sclass_gone sp k d now Hd Hok) as Hgone.
  rewrite storedAt_entry_of, (hfm_zero d Hok). unfold Before, IsZero.
  destruct d as [a ttl grace ms|a w]; cbn [maxStaleUntil graceUntil entry_of negb];
    [|unfold sfallback; by rewrite Hd].
  destruct (banned f k (made _)); [rewrite (proj2 (Hgone (or_introl Hb))); by destruct (_ =? 0)|].
  unfold over, decision_ok, sfallback in *. cbn [made window] in *. rewrite Hd in *.
  rewrite Z.gtb_ltb. destruct (Z.ltb_spec 0 ms) as [Hm|Hm].
  - destruct (Z.eqb_spec (a + ttl + grace + ms) 0); [lia|]. rewrite <- Z.leb_antisym.
    destruct (Z.ltb_spec now (a + ttl + grace + ms)); [|by rewrite !andb_false_r].
    destruct Hb as [->|?]; [done|lia].
  - cbn. destruct (Z.leb_spec (a + ttl + grace) now); [|by rewrite andb_false_r].
    destruct (Z.ltb_spec now (a + ttl + grace + ms)); [lia|]. by rewrite andb_false_r.
Qed.

Lemma sweep_sim f sp now : sim f sp now -> sim (sweep f now) sp now.
Proof.
  intros H. pose proof H as [H1 H2 H3 H4 H5 H6 H7 H8 H9 H10]. constructor; try done.
  - unfold sweep. cbn [f_shards]. by rewrite length_map.
  - intros k e. rewrite entry_sweep. destruct (entry f k) as [e'|] eqn:He; [|done].
    destruct (entryReclaimable f k e' now); [done|]. intros [= <-]. by apply H7.
  - intros k d. rewrite entry_sweep. destruct (entry f k) as [e|] eqn:He; [|by intros _; apply H8].
    destruct (entryReclaimable f k e now) eqn:Hr; [|done]. intros _ Hd.
    destruct (sim_held f sp now k e H He) as (d' & Hd' & -> & Hok & Hw & Hb).
    assert (d = d') as -> by congruence.
    revert Hr. unfold entryReclaimable. rewrite storedAt_entry_of, (hfm_zero d' Hok).
    destruct (banned f k (made d')); [by left|]. intros Hr. right.
    unfold over, prunable, Before, IsZero, decision_ok in *.
    destruct d' as [a ttl grace ms|a w]; cbn [made window negb graceUntil maxStaleUntil hfmUntil entry_of] in *.
    + destruct (Z.ltb_spec now (a + ttl + grace)); [done|]. rewrite Z.gtb_ltb in Hr.
      destruct (Z.ltb_spec 0 ms); [|lia]. destruct (Z.eqb_spec (a + ttl + grace + ms) 0); [lia|].
      cbn [negb] in Hr. destruct (Z.ltb_spec now (a + ttl + grace + ms)); [done|lia].
    + destruct (Z.ltb_spec now (a + w)); [done|lia].
Qed.

Lemma observeWindow_grace f w :
  observeWindow f w = mkFresh (f_shards f) (f_bans f) (f_banCount f) (Z.max (f_maxGrace f) w).
Proof.
  unfold observeWindow. destruct f as [sh b c g]. cbn [f_shards f_bans f_banCount f_maxGrace].
  destruct (Z.leb_spec w g); f_equal; lia.
Qed.

Lemma sbanned_now sp k d now : made d = now -> (forall b, b ∈ sp_bans sp -> issuedAt b <= now) -> sbanned sp k d = false.
Proof.
  intros Hm Hb. apply not_true_is_false. rewrite sbanned_true. intros (b & Hin & Hlt & _). specialize (Hb b Hin). lia.
Qed.

(** Recording a decision made now. *)
Lemma record_sim f sp now k d :
  sim f sp now -> decision_ok d -> made d = now -> window d < 2 ^ 61 ->
  sim (observeWindow (set_entry f k (entry_of d)) (window d)) (decide_key sp k (Some d)) now.
Proof.
  intros [H1 H2 H3 H4 H5 H6 H7 H8 H9 H10] Hok Hm Hw. rewrite observeWindow_grace.
  assert (forall k', entry (mkFresh (f_shards (set_entry f k (entry_of d))) (f_bans f) (f_banCount f)
    (Z.max (f_maxGrace f) (window d))) k' = if decide (k' = k) then Some (entry_of d) else entry f k') as He.
  { intros k'. rewrite <- entry_set by done. done. }
  assert (forall k' d', sp_made (decide_key sp k (Some d)) k' = Some d' ->
    (k' = k /\ d' = d) \/ (k' <> k /\ sp_made sp k' = Some d')) as Hmade.
  { intros k' d'. unfold decide_key. cbn [sp_made]. case_decide; [intros [= <-]; by left|by right]. }
  constructor; try done; cbn [f_maxGrace set_entry on_shard] in *.
  - cbn [f_shards set_entry on_shard]. by rewrite length_alter.
  - lia.
  - intros k' d' [[-> ->]|[_ Hd]]%Hmade; [split_and!; [done|lia..]|].
    destruct (H5 k' d' Hd) as (? & ? & ?). split_and!; [done..|lia].
  - intros k' e. rewrite He. unfold decide_key. cbn [sp_made]. case_decide; [|apply H7].
    intros [= <-]. by exists d.
  - intros k' d'. rewrite He. case_decide; [done|]. intros Hn [[-> _]|[_ Hd]]%Hmade; [done|]. by apply H8.
  - intros b Hb. destruct (H10 b Hb) as [?|Hl]; [by left|right].
    intros k' d' [[-> ->]|[_ Hd]]%Hmade Hlt; [specialize (H6 b Hb); lia|by eapply Hl].
Qed.

Lemma forget_sim f sp now k : sim f sp now -> sim (forget f k) (decide_key sp k None) now.
Proof.
  intros [H1 H2 H3 H4 H5 H6 H7 H8 H9 H10].
  assert (forall k' d', sp_made (decide_key sp k None) k' = Some d' -> k' <> k /\ sp_made sp k' = Some d') as Hmade.
  { intros k' d'. unfold decide_key. cbn [sp_made]. by case_decide. }
  constructor; try done.
  - cbn [f_shards forget del_entry on_shard]. by rewrite length_alter.
  - intros k' d' [_ Hd]%Hmade. by eapply H5.
  - intros k' e. unfold forget. rewrite entry_del. unfold decide_key. cbn [sp_made]. case_decide; [done|apply H7].
  - intros k' d'. unfold forget. rewrite entry_del. case_decide; [by intros _ [? _]%Hmade|].
    intros Hn [_ Hd]%Hmade. by apply H8.
  - intros b Hb. destruct (H10 b Hb) as [?|Hl]; [by left|right]. intros k' d' [_ Hd]%Hmade. by apply (Hl k').
Qed.

Lemma keptBans_length f now : (length (keptBans f now) <= length (f_bans f))%nat.
Proof.
  unfold keptBans. pose proof (length_filter (fun b => After (issuedAt b) (TAdd now (wrap64 (-2 * f_maxGrace f))) = true) (f_bans f)).
  case_match; [rewrite length_drop|]; lia.
Qed.

(** Below the cap a ban is dropped only when it is older than twice the largest
    window. *)
Lemma keptBans_elem f now b :
  (length (f_bans f) < maxBans)%nat -> 0 <= f_maxGrace f < 2 ^ 61 ->
  b ∈ keptBans f now <-> now - 2 * f_maxGrace f < issuedAt b /\ b ∈ f_bans f.
Proof.
  intros Hl Hg. unfold keptBans.
  pose proof (length_filter (fun b => After (issuedAt b) (TAdd now (wrap64 (-2 * f_maxGrace f))) = true) (f_bans f)) as Hf.
  rewrite (proj2 (Nat.leb_gt _ _)) by lia. rewrite list_elem_of_filter. unfold After, TAdd. rewrite Z.ltb_lt.
  rewrite wrap64_small by lia. by replace (now + -2 * f_maxGrace f) with (now - 2 * f_maxGrace f) by lia.
Qed.

Lemma ban_sim f sp now re :
  sim f sp now -> (length (f_bans f) < maxBans)%nat ->
  sim (fban f (Some re) now).2 (mkSpec (sp_made sp) (mkBan re now :: sp_bans sp)) now.
Proof.
  intros H Hl. pose proof H as [H1 H2 H3 H4 H5 H6 H7 H8 H9 H10].
  pose proof (keptBans_elem f now) as Hk. unfold fban. cbn [snd].
  constructor; try done.
  - intros b [->|Hb]%elem_of_cons; [cbn; lia|by apply H6].
  - intros k d He Hd. destruct (H8 k d He Hd) as [Hs|?]; [left|by right].
    unfold sbanned in *. cbn [sp_bans existsb]. by rewrite Hs, orb_true_r.
  - intros b. cbn [f_bans sp_bans]. rewrite elem_of_app, list_elem_of_singleton, elem_of_cons.
    intros [Hb| ->]; [|by left]. right. apply H9. by apply Hk in Hb as [_ ?].
  - intros b. cbn [f_bans sp_bans]. rewrite elem_of_app, list_elem_of_singleton, elem_of_cons.
    intros [->|Hb]; [by left; right|]. destruct (H10 b Hb) as [Hin|Ho]; [|by right].
    destruct (Z.lt_ge_cases (now - 2 * f_maxGrace f) (issuedAt b)).
    + left. left. by apply Hk.
    + right. intros k d Hd Hlt. destruct (H5 k d Hd) as (_ & _ & Hw). unfold over. lia.
Qed.

(** ** The refinement *)

Definition ban_room (ev : event) (f : freshness) : Prop :=
  match ev with EBan _ => (length (f_bans f) < maxBans)%nat | _ => True end.

Lemma exec_sim f sp t now ev :
  sim f sp t -> t <= now -> 0 < now -> event_ok ev -> ban_room ev f ->
  sim (exec f now ev).1 (sexec sp now ev).1 now /\ (exec f now ev).2 = (sexec sp now ev).2.
Proof.
  intros H Ht Hpos Hev Hroom. apply (sim_later f sp t now) in H; [|done].
  destruct ev as [k ttl grace ms|k d|[re|]|k| |k|k|k|k|k]; cbn [event_ok ban_room exec sexec] in *.
  - split; [|done]. cbn [fst]. unfold fstore, TAdd. rewrite !wrap64_small by lia.
    rewrite !Z.add_assoc. apply (record_sim f sp now k (Stored now ttl grace ms)); [done| |done|cbn; lia].
    unfold decision_ok. cbn. lia.
  - split; [|done]. apply (record_sim f sp now k (Bypass now d)); [done| |done|cbn; lia]. unfold decision_ok. cbn. lia.
  - split; [by apply ban_sim|done].
  - done.
  - split; [by apply forget_sim|done].
  - split; [by apply sweep_sim|done].
  - rewrite classify_prune. destruct (classifyPrune f k now) as [[s h] f'] eqn:E. cbn.
    destruct (classifyPrune_sim _ _ _ _ _ _ _ H E) as [H' ->]. done.
  - destruct (classifyPrune f k now) as [[s h] f'] eqn:E. cbn.
    destruct (classifyPrune_sim _ _ _ _ _ _ _ H E) as [H' ->]. done.
  - destruct (flookup f k now) as [s f'] eqn:E. cbn. destruct (flookup_sim _ _ _ _ _ _ H E) as [H' ->]. done.
  - destruct (hitForMiss f k now) as [b f'] eqn:E. cbn. destruct (hitForMiss_sim _ _ _ _ _ _ H E) as [H' ->]. done.
  - cbn. by rewrite (staleWithin_sim f sp now k H).
Qed.

(** Only a ban makes the list longer, by at most one. *)
Lemma exec_bans f now ev :
  (length (f_bans (exec f now ev).1) <= length (f_bans f) + match ev with EBan _ => 1 | _ => 0 end)%nat.
Proof.
  destruct ev as [k ttl grace ms|k d|[re|]|k| |k|k|k|k|k]; cbn [exec].
  - unfold fstore. rewrite observeWindow_grace. cbn. lia.
  - unfold setHitForMiss. rewrite observeWindow_grace. cbn. lia.
  - cbn [fst snd fban f_bans]. rewrite length_app. cbn [length]. pose proof (keptBans_length f now). lia.
  - cbn. lia.
  - cbn. lia.
  - cbn. lia.
  - rewrite classify_prune. unfold classifyPrune. repeat case_match; cbn; simplify_eq; cbn; lia.
  - unfold classifyPrune. repeat case_match; cbn; simplify_eq; cbn; lia.
  - unfold flookup. repeat case_match; cbn; simplify_eq; cbn; lia.
  - unfold hitForMiss. repeat case_match; cbn; simplify_eq; cbn; lia.
  - cbn. lia.
Qed.

Lemma answers_sim f sp t h :
  sim f sp t -> 0 < t -> history_ok t h -> (length (f_bans f) + bans_in h <= maxBans)%nat -> answers f h = sanswers sp h.
Proof.
  revert f sp t. induction h as [|[now ev] h IH]; intros f sp t H Hpos Hh Hb; [done|].
  cbn [history_ok] in Hh. destruct Hh as (Ht & Hev & Hh).
  assert (ban_room ev f) as Hroom by (destruct ev; cbn [ban_room bans_in] in *; lia || done).
  destruct (exec_sim f sp t now ev H Ht ltac:(lia) Hev Hroom) as [H' Ha]. pose proof (exec_bans f now ev) as Hl.
  cbn [answers sanswers]. destruct (exec f now ev) as [f' a], (sexec sp now ev) as [sp' a']. cbn [fst snd] in *.
  subst a'. f_equal. apply (IH f' sp' now); [done|lia|done|]. destruct ev; cbn [bans_in] in Hb; lia.
Qed.

(** C21. The freshness index answers as if it never dropped anything: in every
    history of stores, hit-for-miss marks, bans, forgets, sweeps and lookups with
    a clock that does not go back and at most [maxBans] bans, each lookup answers
    what the last decision for its key and all bans issued since prescribe
    (fresh, stale in grace, miss, bypass, origin-error fallback, and the stored
    instant and lifetime of a hit). Lazy pruning, the sweeper and the trimming of
    old bans never show. *)
Theorem freshness_refines t h :
  0 < t -> history_ok t h -> (bans_in h <= maxBans)%nat -> answers newFreshness h = sanswers spec0 h.
Proof.
  intros Ht Hh Hb. apply (answers_sim newFreshness spec0 t); [|done..]. apply (sim_later _ _ 0); [apply sim_init|lia].
Qed.

(** A page with a TTL of 10, a grace of 5 and a fallback of 20, banned and
    fetched again. *)
Definition page : bytes := go "GET /page".
Definition history_example : list (Z * event) :=
  [(100, EStore page 10 5 20); (105, EClassify page); (112, EClassify page); (118, EClassify page);
   (119, EStaleWithin page); (120, EBan (Some (fun _ => true))); (121, EStaleWithin page); (121, EClassify page);
   (122, EStore page 10 0 0); (125, EClassify page); (130, EHfm page 5); (131, EHitForMiss page); (140, ESweep);
   (141, ELookup page); (142, EForget page)].

Lemma freshness_refines_witness :
  answers newFreshness history_example = sanswers spec0 history_example /\
  answers newFreshness history_example
  = [ANone; AClass (stateFresh, false, Some (100, 10)); AClass (stateStale, false, Some (100, 10));
     AClass (stateMiss, false, None); ABool true; ANone; ABool false; AClass (stateMiss, false, None); ANone;
     AClass (stateFresh, false, Some (122, 10)); ANone; ABool true; ANone; AState stateMiss; ANone].
Proof.
  split; [|vm_compute; reflexivity]. apply (freshness_refines 100); [lia| |cbn; unfold maxBans; lia].
  cbn. repeat split; lia.
Defined.

(** ** The cap on the ban list *)



















