(* ===== verification/Coalesce.v ===== *)
(** Request coalescing (src/internal/server/coalesce.go, and [serveMiss] and
    [triggerBgFetch] of handler.go): concurrent misses for one key share one
    origin fetch, and background revalidations run at most one per key and at most
    [maxConcurrentBgRevalidations] in all.

    Every request is a process whose program counter says which critical section
    it enters next; a step runs one section of one process, so the reachable
    states are those of every interleaving. *)

From stdpp Require Import base strings numbers gmap list relations.
From Stdlib Require Import Lia.
From S2P Require Import Prelude.

(** ** Foreground fetches *)

(** A call is a heap cell; [done] is the closed channel. *)
Record fetchCall := mkCall { c_done : bool; succeeded : bool }.

Record fetchCoalescer := mkCo { calls : gmap bytes nat; c_heap : list fetchCall }.

Definition newFetchCoalescer : fetchCoalescer := mkCo ∅ [].

(** [enter] gives the address of the call and whether the caller is the winner. *)
Definition enter (c : fetchCoalescer) (key : bytes) : nat * bool * fetchCoalescer :=
  match calls c !! key with
  | Some existing => (existing, false, c)
  | None =>
    let call := length (c_heap c) in
    (call, true, mkCo (<[key := call]> (calls c)) (c_heap c ++ [mkCall false false]))
  end.

(** The three effects of [finish], in order: under the lock the entry is
    removed if it is still this call's, then the outcome is recorded, then the
    channel is closed. *)
Definition finish_delete (c : fetchCoalescer) (key : bytes) (call : nat) : fetchCoalescer :=
  if bool_decide (calls c !! key = Some call) then mkCo (delete key (calls c)) (c_heap c) else c.

Definition finish_record (c : fetchCoalescer) (call : nat) (ok : bool) : fetchCoalescer :=
  mkCo (calls c) (alter (fun f => mkCall (c_done f) ok) call (c_heap c)).

Definition finish_close (c : fetchCoalescer) (call : nat) : fetchCoalescer :=
  mkCo (calls c) (alter (fun f => mkCall true (succeeded f)) call (c_heap c)).

(** Where a coalescable request is in [serveMiss]. The last states of a request
    remember how it ended. *)
Inductive rpc :=
| Start (key : bytes)
| Win (key : bytes) (call : nat)                 (* in its own serveOrigin *)
| Fin (key : bytes) (call : nat) (ok : bool)     (* serveOrigin has returned or panicked *)
| Rec (key : bytes) (call : nat) (ok : bool)     (* entry removed *)
| Clo (key : bytes) (call : nat) (ok : bool)     (* outcome recorded *)
| Won (key : bytes) (call : nat) (ok : bool)     (* channel closed *)
| Wait (key : bytes) (call : nat)
| FromCache (key : bytes) (call : nat)           (* woken by a success *)
| OwnFetch (key : bytes) (call : nat)            (* fell through to its own fetch *)
| Gone (key : bytes).                            (* served, or the client left *)

Record cosys := mkCoSys { co : fetchCoalescer; reqs : list rpc }.

(** One step of the request at [i]; [None] where the request is blocked or
    over. [choice] is what the environment decides: the result of the origin
    fetch (false also for a panic), whether the client is still there, and
    whether the object is found in the cache. *)
Definition rstep (c : fetchCoalescer) (pc : rpc) (choice : bool) : option (fetchCoalescer * rpc) :=
  match pc with
  | Start key =>
    let '(call, winner, c') := enter c key in
    Some (c', if winner then Win key call else Wait key call)
  | Win key call => Some (c, Fin key call choice)
  | Fin key call ok => Some (finish_delete c key call, Rec key call ok)
  | Rec key call ok => Some (finish_record c call ok, Clo key call ok)
  | Clo key call ok => Some (finish_close c call, Won key call ok)
  | Won _ _ _ => None
  | Wait key call =>
    if choice then
      f ← c_heap c !! call;
      if c_done f then Some (c, if succeeded f then FromCache key call else OwnFetch key call) else None
    else Some (c, Gone key)
  | FromCache key call => Some (c, if choice then Gone key else OwnFetch key call)
  | OwnFetch key _ => Some (c, Gone key)
  | Gone _ => None
  end.

Inductive co_step : cosys -> cosys -> Prop :=
| co_arrive c rs key : co_step (mkCoSys c rs) (mkCoSys c (rs ++ [Start key]))
| co_run c rs i pc choice c' pc' :
    rs !! i = Some pc -> rstep c pc choice = Some (c', pc') ->
    co_step (mkCoSys c rs) (mkCoSys c' (<[i := pc']> rs)).

Definition co_init : cosys := mkCoSys newFetchCoalescer [].

(** ** Background revalidations *)

Record bgState := mkBg { inFlight : gset bytes; bgSem : nat }.

Definition maxConcurrentBgRevalidations : nat := 128.

Definition newBg : bgState := mkBg ∅ 0.

Definition begin (s : bgState) (key : bytes) : bool * bgState :=
  if bool_decide (key ∈ inFlight s) then (false, s) else (true, mkBg ({[key]} ∪ inFlight s) (bgSem s)).

Definition end_ (s : bgState) (key : bytes) : bgState := mkBg (inFlight s ∖ {[key]}) (bgSem s).

(** Where a call of [triggerBgFetch] is. The goroutine's deferred calls run in
    the reverse order: [end], then the slot. *)
Inductive bpc :=
| BStart (key : bytes)
| BBegun (key : bytes)      (* holds the key, before the select *)
| BFull (key : bytes)       (* the select took its default *)
| BRun (key : bytes)        (* revalidating in the background *)
| BEnded (key : bytes)      (* key released, slot still held *)
| BOver.

Definition bstep (s : bgState) (pc : bpc) : option (bgState * bpc) :=
  match pc with
  | BStart key => let '(ok, s') := begin s key in Some (s', if ok then BBegun key else BOver)
  | BBegun key =>
    if Nat.ltb (bgSem s) maxConcurrentBgRevalidations
    then Some (mkBg (inFlight s) (S (bgSem s)), BRun key)
    else Some (s, BFull key)
  | BFull key => Some (end_ s key, BOver)
  | BRun key => Some (end_ s key, BEnded key)
  | BEnded key => Some (mkBg (inFlight s) (pred (bgSem s)), BOver)
  | BOver => None
  end.

Record bgsys := mkBgSys { bg : bgState; bgs : list bpc }.

Inductive bg_step : bgsys -> bgsys -> Prop :=
| bg_trigger s ps key : bg_step (mkBgSys s ps) (mkBgSys s (ps ++ [BStart key]))
| bg_run s ps i pc s' pc' :
    ps !! i = Some pc -> bstep s pc = Some (s', pc') -> bg_step (mkBgSys s ps) (mkBgSys s' (<[i := pc']> ps)).

(** ** Invariant of the foreground *)

(** The call a winner owns, and what the heap cell of the call holds while its
    winner is at [pc] ([succeeded] is not yet meaningful before it is
    recorded). *)
Definition owns (pc : rpc) : option (bytes * nat) :=
  match pc with
  | Win k c | Fin k c _ | Rec k c _ | Clo k c _ | Won k c _ => Some (k, c)
  | _ => None
  end.

Definition cell (pc : rpc) : fetchCall :=
  match pc with
  | Clo _ _ ok => mkCall false ok
  | Won _ _ ok => mkCall true ok
  | _ => mkCall false false
  end.

(** The winners that are still in the in-flight map. *)
Definition registered (pc : rpc) : option (bytes * nat) :=
  match pc with Win k c | Fin k c _ => Some (k, c) | _ => None end.

(** What a waiter relies on. *)
Definition waits (pc : rpc) : option (bytes * nat) :=
  match pc with Wait k c | FromCache k c | OwnFetch k c => Some (k, c) | _ => None end.

Record co_inv (s : cosys) : Prop := {
  ci_cell i pc k c : reqs s !! i = Some pc -> owns pc = Some (k, c) -> c_heap (co s) !! c = Some (cell pc);
  ci_uniq i j pi pj k k' c :
    reqs s !! i = Some pi -> reqs s !! j = Some pj -> owns pi = Some (k, c) -> owns pj = Some (k', c) -> i = j;
  ci_registered i pc k c : reqs s !! i = Some pc -> registered pc = Some (k, c) -> calls (co s) !! k = Some c;
  ci_calls k c : calls (co s) !! k = Some c -> exists i pc, reqs s !! i = Some pc /\ registered pc = Some (k, c);
  ci_waits i pc k c : reqs s !! i = Some pc -> waits pc = Some (k, c) ->
    exists j pj, reqs s !! j = Some pj /\ owns pj = Some (k, c) /\
      match pc with
      | FromCache _ _ => pj = Won k c true
      | OwnFetch _ _ => exists ok, pj = Won k c ok
      | _ => True
      end;
}.

(** The requests after one of them moved. *)
Ltac moved H :=
  apply list_lookup_insert_Some in H as [(<- & <- & _)|(? & H)].

Lemma co_inv_init : co_inv co_init.
Proof. constructor; try done. Qed.

Lemma moved_self {A} (l : list A) i x y : l !! i = Some x -> <[i := y]> l !! i = Some y.
Proof. intros H. rewrite list_lookup_insert_eq; [done|]. by eapply lookup_lt_Some. Qed.

Lemma alter_at {A} (f : A -> A) (l : list A) i x : l !! i = Some x -> alter f i l = <[i := f x]> l.
Proof.
  intros H. apply list_eq. intros j. destruct (decide (i = j)) as [<-|Hne].
  - rewrite list_lookup_alter_eq, H. cbn. symmetry. by eapply moved_self.
  - by rewrite list_lookup_alter_ne, list_lookup_insert_ne.
Qed.

Lemma registered_owns pc k c : registered pc = Some (k, c) -> owns pc = Some (k, c).
Proof. by destruct pc. Qed.

(** A winner moves on: its cell follows, and it may leave the map. *)
Lemma winner_move s i pc pc' k c co' :
  co_inv s -> reqs s !! i = Some pc -> owns pc = Some (k, c) -> owns pc' = Some (k, c) ->
  (forall ok, pc <> Won k c ok) -> c_heap co' = <[c := cell pc']> (c_heap (co s)) ->
  ((registered pc' = registered pc /\ calls co' = calls (co s)) \/
   (registered pc = Some (k, c) /\ registered pc' = None /\ calls co' = delete k (calls (co s)))) ->
  co_inv (mkCoSys co' (<[i := pc']> (reqs s))).
Proof.
  intros [Hcell Huniq Hreg Hcalls Hwaits] Hi Ho Ho' Hnw Hh Hc. pose proof (moved_self _ _ _ pc' Hi) as Hi'.
  constructor; cbn [co reqs].
  - intros j pj k' c1 Hj Hoj. rewrite Hh. moved Hj.
    + simplify_eq. apply list_lookup_insert_eq. by eapply lookup_lt_Some, Hcell.
    + rewrite list_lookup_insert_ne; [by eapply Hcell|]. intros ->. by assert (i = j) by (by eapply Huniq).
  - intros j1 j2 p1 p2 k1 k2 c1 H1 H2 O1 O2. moved H1; moved H2; simplify_eq; [done|..|by eapply Huniq].
    + by eapply (Huniq i j2).
    + by eapply (Huniq j1 i).
  - intros j pj k1 c1 Hj Hr. destruct Hc as [[Hr' ->]|(Hr1 & Hr' & ->)].
    + moved Hj; [rewrite Hr' in Hr; by eapply (Hreg i)|by eapply Hreg].
    + moved Hj; [congruence|]. rewrite lookup_delete_ne; [by eapply Hreg|]. intros <-.
      pose proof (Hreg _ _ _ _ Hi Hr1). pose proof (Hreg _ _ _ _ Hj Hr). simplify_eq.
      by assert (i = j) by (eapply Huniq; eauto using registered_owns).
  - intros k1 c1 Hk. assert (calls (co s) !! k1 = Some c1 /\ (registered pc' = registered pc \/ k1 <> k)) as [Hk' Hor].
    { destruct Hc as [[Hr E]|(_ & _ & E)]; rewrite E in Hk; [by auto|].
      apply lookup_delete_Some in Hk as [? ?]. auto. }
    destruct (Hcalls k1 c1 Hk') as (j & pj & Hj & Hr). destruct (decide (i = j)) as [<-|Hne].
    + simplify_eq. destruct Hor as [E|Hne]; [exists i, pc'; by rewrite E|].
      apply registered_owns in Hr. congruence.
    + exists j, pj. by rewrite list_lookup_insert_ne.
  - intros j pj k1 c1 Hj Hw. moved Hj; [by destruct pc'|].
    destruct (Hwaits _ _ _ _ Hj Hw) as (j' & p' & Hj' & Ho1 & Hm). destruct (decide (i = j')) as [<-|Hne].
    + simplify_eq. exists i, pc'. split_and!; [done..|]. destruct pj; try done; destruct_and?.
      * by apply Hnw in Hm.
      * destruct Hm as [ok Hm]. by apply Hnw in Hm.
    + exists j', p'. by rewrite list_lookup_insert_ne.
Qed.

(** A request that owns no call moves without touching the coalescer. *)
Lemma other_move s i pc pc' :
  co_inv s -> reqs s !! i = Some pc -> owns pc = None -> owns pc' = None ->
  (forall k c, waits pc' = Some (k, c) -> exists j pj, reqs s !! j = Some pj /\ owns pj = Some (k, c) /\
     match pc' with FromCache _ _ => pj = Won k c true | OwnFetch _ _ => exists ok, pj = Won k c ok | _ => True end) ->
  co_inv (mkCoSys (co s) (<[i := pc']> (reqs s))).
Proof.
  intros [Hcell Huniq Hreg Hcalls Hwaits] Hi Ho Ho' Hw'. constructor; cbn [co reqs].
  - intros j pj k c Hj Hoj. moved Hj; [congruence|by eapply Hcell].
  - intros j1 j2 p1 p2 k1 k2 c1 H1 H2 O1 O2. moved H1; [congruence|]. moved H2; [congruence|]. by eapply Huniq.
  - intros j pj k c Hj Hr. moved Hj; [apply registered_owns in Hr; congruence|by eapply Hreg].
  - intros k c Hk. destruct (Hcalls k c Hk) as (j & pj & Hj & Hr). exists j, pj.
    rewrite list_lookup_insert_ne; [done|]. intros ->. apply registered_owns in Hr. congruence.
  - intros j pj k c Hj Hw.
    assert (exists j' p', reqs s !! j' = Some p' /\ owns p' = Some (k, c) /\
      match pj with FromCache _ _ => p' = Won k c true | OwnFetch _ _ => exists ok, p' = Won k c ok | _ => True end)
      as (j' & p' & Hj' & Ho1 & Hm) by (moved Hj; [by apply Hw'|by eapply Hwaits]).
    exists j', p'. rewrite list_lookup_insert_ne; [done|]. intros ->. congruence.
Qed.

(** A new winner. *)
Lemma winner_new s i k c co' :
  co_inv s -> reqs s !! i = Some (Start k) -> enter (co s) k = (c, true, co') ->
  co_inv (mkCoSys co' (<[i := Win k c]> (reqs s))).
Proof.
  intros [Hcell Huniq Hreg Hcalls Hwaits] Hi. unfold enter.
  destruct (calls (co s) !! k) eqn:Hk; [done|]. intros [= <- <-].
  assert (forall j pj k' c', reqs s !! j = Some pj -> owns pj = Some (k', c') -> (c' < length (c_heap (co s)))%nat) as Hlt
    by (intros; by eapply lookup_lt_Some, Hcell).
  constructor; cbn [co reqs c_heap calls].
  - intros j pj k' c' Hj Ho. moved Hj.
    + injection Ho as <- <-. by rewrite lookup_app_r, Nat.sub_diag.
    + rewrite lookup_app_l by (by eapply Hlt). by eapply Hcell.
  - intros j1 j2 p1 p2 k1 k2 c1 H1 H2 O1 O2. moved H1; moved H2; simplify_eq/=; [done|..|by eapply Huniq].
    + specialize (Hlt _ _ _ _ H2 O2). lia.
    + specialize (Hlt _ _ _ _ H1 O1). lia.
  - intros j pj k' c' Hj Hr. moved Hj; [injection Hr as <- <-; by rewrite lookup_insert_eq|].
    pose proof (Hreg _ _ _ _ Hj Hr) as Hk'. rewrite lookup_insert_ne; [done|congruence].
  - intros k' c' [[<- <-]|[Hne Hk']]%lookup_insert_Some.
    + exists i, (Win k (length (c_heap (co s)))). split; [by eapply moved_self|done].
    + destruct (Hcalls k' c' Hk') as (j & pj & Hj & Hr). exists j, pj.
      rewrite list_lookup_insert_ne; [done|]. intros ->. by simplify_eq.
  - intros j pj k' c' Hj Hw. moved Hj; [done|].
    destruct (Hwaits _ _ _ _ Hj Hw) as (j' & p' & Hj' & Ho & Hm). exists j', p'.
    rewrite list_lookup_insert_ne; [done|]. intros ->. by simplify_eq.
Qed.

Lemma arrive_inv c rs k : co_inv (mkCoSys c rs) -> co_inv (mkCoSys c (rs ++ [Start k])).
Proof.
  intros [Hcell Huniq Hreg Hcalls Hwaits]; cbn [co reqs] in *.
  assert (forall j pj, (rs ++ [Start k]) !! j = Some pj -> rs !! j = Some pj \/ pj = Start k) as Hnew.
  { intros j pj [?|[_ Hj]]%lookup_app_Some; [by left|right]. by apply list_lookup_singleton_Some in Hj as [_ <-]. }
  assert (forall j pj, rs !! j = Some pj -> (rs ++ [Start k]) !! j = Some pj) as Hold
    by (intros; by apply lookup_app_l_Some).
  constructor; cbn [co reqs].
  - intros j pj k' c' [Hj| ->]%Hnew Ho; [by eapply Hcell|done].
  - intros j1 j2 p1 p2 k1 k2 c1 [H1| ->]%Hnew [H2| ->]%Hnew O1 O2; [by eapply Huniq|done..].
  - intros j pj k' c' [Hj| ->]%Hnew Hr; [by eapply Hreg|done].
  - intros k' c' Hk. destruct (Hcalls k' c' Hk) as (j & pj & Hj & Hr). eauto.
  - intros j pj k' c' [Hj| ->]%Hnew Hw; [|done].
    destruct (Hwaits _ _ _ _ Hj Hw) as (j' & p' & Hj' & Ho & Hm). eauto 10.
Qed.

Lemma rstep_inv s i pc choice c' pc' :
  co_inv s -> reqs s !! i = Some pc -> rstep (co s) pc choice = Some (c', pc') ->
  co_inv (mkCoSys c' (<[i := pc']> (reqs s))).
Proof.
  intros H Hi Hs. assert (forall k c, owns pc = Some (k, c) -> c_heap (co s) !! c = Some (cell pc)) as Hcell
    by (intros; by eapply ci_cell).
  destruct pc as [k|k c|k c ok|k c ok|k c ok|k c ok|k c|k c|k c|k]; cbn [rstep] in Hs; simplify_eq.
  - destruct (enter (co s) k) as [[c w] co'] eqn:He. destruct w; simplify_eq; [by eapply winner_new|].
    unfold enter in He. destruct (calls (co s) !! k) eqn:Hk; simplify_eq.
    apply (other_move s i (Start k)); [done..|]. intros k' c' [= <- <-].
    destruct (ci_calls _ H _ _ Hk) as (j & pj & Hj & Hr). exists j, pj. split_and!; [done|by apply registered_owns|done].
  - apply (winner_move s i (Win k c) _ k c); try done; [|by left].
    symmetry. apply list_insert_id. by apply (Hcell k).
  - apply (winner_move s i (Fin k c ok) _ k c); try done; unfold finish_delete;
      rewrite bool_decide_eq_true_2 by (by eapply ci_registered); cbn [c_heap calls]; [|by right].
    symmetry. apply list_insert_id. by apply (Hcell k).
  - apply (winner_move s i (Rec k c ok) _ k c); try done; [|by left]. cbn [finish_record c_heap].
    by rewrite (alter_at _ _ _ _ (Hcell k c eq_refl)).
  - apply (winner_move s i (Clo k c ok) _ k c); try done; [|by left]. cbn [finish_close c_heap].
    by rewrite (alter_at _ _ _ _ (Hcell k c eq_refl)).
  - destruct choice; [|simplify_eq; by apply (other_move s i (Wait k c))].
    destruct (c_heap (co s) !! c) as [f|] eqn:Hf; [|done]. cbn in Hs. destruct (c_done f) eqn:Hd; [|done]. simplify_eq.
    destruct (ci_waits _ H _ _ k c Hi eq_refl) as (j & pj & Hj & Ho & _).
    pose proof (ci_cell _ H _ _ _ _ Hj Ho) as Hc. simplify_eq.
    assert (pj = Won k c (succeeded (cell pj))) as Hw by (destruct pj; cbn in *; congruence).
    apply (other_move s i (Wait k c)); [done..|by destruct (succeeded (cell pj))|].
    intros k' c1 Hw'. exists j, pj. destruct (succeeded (cell pj)); cbn in Hw'; simplify_eq; eauto.
  - apply (other_move s i (FromCache k c)); [done..|by destruct choice|].
    intros k' c1 Hw'. destruct choice; [done|]. injection Hw' as <- <-.
    destruct (ci_waits _ H _ _ k c Hi eq_refl) as (j & pj & Hj & Ho & ->). eauto 10.
  - by apply (other_move s i (OwnFetch k c)).
Qed.

Lemma co_step_inv s s' : co_inv s -> co_step s s' -> co_inv s'.
Proof.
  intros H Hs. destruct Hs as [c rs k|c rs i pc choice c' pc' Hi Hr]; [by apply arrive_inv|].
  by apply (rstep_inv _ _ _ _ _ _ H Hi Hr).
Qed.

Lemma co_reachable_inv s : rtc co_step co_init s -> co_inv s.
Proof.
  intros Hr. remember co_init as s0 eqn:E. assert (co_inv s0) as H by (subst; apply co_inv_init). clear E.
  induction Hr as [|s0 s1 s2 Hs _ IH]; [done|]. apply IH. by eapply co_step_inv.
Qed.

(** A winner that has not closed its channel yet. *)
Definition running (pc : rpc) (k : bytes) (c : nat) : Prop :=
  owns pc = Some (k, c) /\ forall ok, pc <> Won k c ok.

(** C27. Coalescing is safe under every interleaving: a key never has two
    winners fetching at once; a channel is closed only while it is open, with the
    outcome already recorded; a waiter reads the cache only after a winner for
    its own key and call reported success; and an in-flight entry always belongs
    to a winner that has not finished. *)
Theorem coalesce_safe s :
  rtc co_step co_init s ->
  (forall i j k c c', reqs s !! i = Some (Win k c) -> reqs s !! j = Some (Win k c') -> i = j) /\
  (forall i k c ok, reqs s !! i = Some (Clo k c ok) -> c_heap (co s) !! c = Some (mkCall false ok)) /\
  (forall i k c, reqs s !! i = Some (FromCache k c) -> exists j, reqs s !! j = Some (Won k c true)) /\
  (forall k c, calls (co s) !! k = Some c -> exists j pj, reqs s !! j = Some pj /\ running pj k c).
Proof.
  intros H%co_reachable_inv. split_and!.
  - intros i j k c c' Hi Hj. pose proof (ci_registered _ H _ _ _ _ Hi eq_refl).
    pose proof (ci_registered _ H _ _ _ _ Hj eq_refl). simplify_eq. by eapply (ci_uniq _ H).
  - intros i k c ok Hi. by apply (ci_cell _ H _ _ _ _ Hi eq_refl).
  - intros i k c Hi. destruct (ci_waits _ H _ _ _ _ Hi eq_refl) as (j & pj & Hj & _ & ->). eauto.
  - intros k c Hk. destruct (ci_calls _ H _ _ Hk) as (j & pj & Hj & Hr). exists j, pj. split; [done|].
    split; [by apply registered_owns|]. by destruct pj.
Qed.

(** ** Waiters are released *)

(** How many of its own steps a winner is from closing its channel. *)
Definition steps_left (pc : rpc) : nat :=
  match pc with Win _ _ => 4 | Fin _ _ _ => 3 | Rec _ _ _ => 2 | Clo _ _ _ => 1 | _ => 0 end.

(** The outcome its waiters will see, if [b] is what a fetch still running
    returns. *)
Definition outcome_of (pc : rpc) (b : bool) : bool :=
  match pc with Fin _ _ ok | Rec _ _ ok | Clo _ _ ok | Won _ _ ok => ok | _ => b end.

Lemma owner_step c pc k i b :
  owns pc = Some (k, i) -> (steps_left pc <> 0)%nat ->
  exists c' pc', rstep c pc b = Some (c', pc') /\ owns pc' = Some (k, i) /\ S (steps_left pc') = steps_left pc /\
    outcome_of pc' b = outcome_of pc b.
Proof. destruct pc; cbn; intros [= <- <-] Hn; try done; eauto 10. Qed.

Lemma owner_finishes n s j pj k c b :
  steps_left pj = n -> co_inv s -> reqs s !! j = Some pj -> owns pj = Some (k, c) ->
  exists s', nsteps co_step n s s' /\ co_inv s' /\ reqs s' !! j = Some (Won k c (outcome_of pj b)) /\
    forall i, i <> j -> reqs s' !! i = reqs s !! i.
Proof.
  revert s pj. induction n as [|n IH]; intros s pj Hn H Hj Ho.
  - destruct pj; cbn in *; simplify_eq. exists s. split_and!; [constructor|done..].
  - destruct (owner_step (co s) pj k c b Ho ltac:(lia)) as (c' & pj' & Hs & Ho' & Hn' & <-).
    pose proof (rstep_inv _ _ _ _ _ _ H Hj Hs) as H'.
    destruct (IH (mkCoSys c' (<[j := pj']> (reqs s))) pj') as (s' & Hst & Hi' & Hw & Hrest);
      [lia|done|cbn; by eapply moved_self|done|].
    exists s'. split_and!; [|done..|].
    + econstructor; [|exact Hst]. destruct s as [c0 rs]. by eapply co_run.
    + intros i Hne. rewrite Hrest by done. cbn. by rewrite list_lookup_insert_ne.
Qed.

(** C31. No waiter is stuck: every waiter has one winner, and from every
    reachable state at most four steps of that winner close the waiter's channel,
    whatever the winner's fetch returns ([b], false for a panic); the waiter then
    goes on, to the cache exactly if the winner succeeded and to its own fetch if
    not. *)
Theorem waiter_released s i k c b :
  rtc co_step co_init s -> reqs s !! i = Some (Wait k c) ->
  exists j pj n s', reqs s !! j = Some pj /\ owns pj = Some (k, c) /\ (n <= 4)%nat /\ nsteps co_step n s s' /\
    reqs s' !! j = Some (Won k c (outcome_of pj b)) /\ (forall i', i' <> j -> reqs s' !! i' = reqs s !! i') /\
    rstep (co s') (Wait k c) true = Some (co s', if outcome_of pj b then FromCache k c else OwnFetch k c).
Proof.
  intros H%co_reachable_inv Hi. destruct (ci_waits _ H _ _ _ _ Hi eq_refl) as (j & pj & Hj & Ho & _).
  destruct (owner_finishes _ s j pj k c b eq_refl H Hj Ho) as (s' & Hst & H' & Hw & Hrest).
  exists j, pj, (steps_left pj), s'. split_and!; [done|done|destruct pj; cbn; lia|done..|].
  cbn. rewrite (ci_cell _ H' _ _ _ _ Hw eq_refl). done.
Qed.

(** ** A herd of two *)

Definition herd_key : bytes := go "GET /cold".
Definition herd : cosys :=
  mkCoSys (mkCo {[herd_key := 0%nat]} [mkCall false false]) [Win herd_key 0; Wait herd_key 0].

Lemma herd_reachable : rtc co_step co_init herd.
Proof.
  eapply rtc_l; [apply (co_arrive _ _ herd_key)|].
  eapply rtc_l; [apply (co_run _ _ 0 (Start herd_key) true); reflexivity|].
  eapply rtc_l; [apply (co_arrive _ _ herd_key)|].
  eapply rtc_l; [apply (co_run _ _ 1 (Start herd_key) true); reflexivity|].
  apply rtc_refl.
Qed.

Lemma coalesce_safe_witness :
  rtc co_step co_init herd /\
  forall i j c c', reqs herd !! i = Some (Win herd_key c) -> reqs herd !! j = Some (Win herd_key c') -> i = j.
Proof.
  split; [exact herd_reachable|]. intros i j c c'. apply (proj1 (coalesce_safe herd herd_reachable) i j herd_key c c').
Defined.

Lemma waiter_released_witness :
  reqs herd !! 1%nat = Some (Wait herd_key 0) /\
  exists j pj n s', reqs herd !! j = Some pj /\ owns pj = Some (herd_key, 0%nat) /\ (n <= 4)%nat /\
    nsteps co_step n herd s' /\ reqs s' !! j = Some (Won herd_key 0 (outcome_of pj false)).
Proof.
  split; [reflexivity|].
  destruct (waiter_released herd 1 herd_key 0 false herd_reachable eq_refl) as (j & pj & n & s' & H1 & H2 & H3 & H4 & H5 & _).
  exists j, pj, n, s'. repeat (split; [assumption|]). assumption.
Defined.

(** ** Background revalidations are bounded *)

(** The key and the slot that a call holds. *)
Definition holds (pc : bpc) : option bytes :=
  match pc with BBegun k | BFull k | BRun k => Some k | _ => None end.

Definition slot (pc : bpc) : Z := match pc with BRun _ | BEnded _ => 1 | _ => 0 end.

Record bg_inv (s : bgsys) : Prop := {
  bi_held i pc k : bgs s !! i = Some pc -> holds pc = Some k -> k ∈ inFlight (bg s);
  bi_uniq i j pi pj k : bgs s !! i = Some pi -> bgs s !! j = Some pj -> holds pi = Some k -> holds pj = Some k -> i = j;
  bi_in k : k ∈ inFlight (bg s) -> exists i pc, bgs s !! i = Some pc /\ holds pc = Some k;
  bi_sem : Z.of_nat (bgSem (bg s)) = sumZ slot (bgs s);
  bi_cap : (bgSem (bg s) <= maxConcurrentBgRevalidations)%nat;
}.

(** A call moves: the keys in flight stay those held. *)
Lemma bg_move s i pc pc' s' :
  bg_inv s -> bgs s !! i = Some pc ->
  Z.of_nat (bgSem s') = (Z.of_nat (bgSem (bg s)) + slot pc' - slot pc)%Z ->
  (bgSem s' <= maxConcurrentBgRevalidations)%nat ->
  ((holds pc' = holds pc /\ inFlight s' = inFlight (bg s)) \/
   (exists k, holds pc = None /\ holds pc' = Some k /\ (k ∉ inFlight (bg s)) /\ inFlight s' = {[k]} ∪ inFlight (bg s)) \/
   (exists k, holds pc = Some k /\ holds pc' = None /\ inFlight s' = inFlight (bg s) ∖ {[k]})) ->
  bg_inv (mkBgSys s' (<[i := pc']> (bgs s))).
Proof.
  intros [Hh Hu Hi Hs Hc] Hpc Hsem Hcap Hk.
  assert (forall k, (exists j pj, <[i := pc']> (bgs s) !! j = Some pj /\ holds pj = Some k) <->
    holds pc' = Some k \/ exists j pj, j <> i /\ bgs s !! j = Some pj /\ holds pj = Some k) as Hex.
  { intros k. split.
    - intros (j & pj & Hj & Hp). moved Hj; [by left|right]. eauto.
    - intros [Hp|(j & pj & Hne & Hj & Hp)]; [exists i, pc'; split; [by eapply moved_self|done]|].
      exists j, pj. by rewrite list_lookup_insert_ne. }
  assert (forall j pj k, j <> i -> bgs s !! j = Some pj -> holds pj = Some k -> holds pc <> Some k) as Hoth
    by (intros j pj k Hne Hj Hp Hp'; apply Hne; by eapply Hu).
  assert (forall k, k ∈ inFlight s' <-> exists j pj, <[i := pc']> (bgs s) !! j = Some pj /\ holds pj = Some k) as Hin.
  { intros k. rewrite Hex. assert (k ∈ inFlight (bg s) <->
      holds pc = Some k \/ exists j pj, j <> i /\ bgs s !! j = Some pj /\ holds pj = Some k) as Hold.
    { split; [|intros [?|(j & pj & _ & ? & ?)]; by eapply Hh]. intros (j & pj & Hj & Hp)%Hi.
      destruct (decide (j = i)) as [->|Hne]; [left; congruence|right; eauto]. }
    destruct Hk as [[-> ->]|[(k' & E & -> & Hn & ->)|(k' & E & -> & ->)]]; [done|..].
    - rewrite elem_of_union, elem_of_singleton, Hold, E. naive_solver.
    - rewrite elem_of_difference, elem_of_singleton, Hold, E. naive_solver. }
  constructor; cbn [bg bgs]; [|..|done].
  - intros j pj k Hj Hp. apply Hin. eauto.
  - intros j1 j2 p1 p2 k H1 H2 O1 O2. moved H1; moved H2; [done|..|by eapply Hu].
    + exfalso. destruct Hk as [[E _]|[(k' & _ & E & Hn & _)|(k' & _ & E & _)]]; rewrite E in O1; [|injection O1 as ->|done].
      * by eapply (Hoth j2).
      * by apply Hn, (Hh j2 p2).
    + exfalso. destruct Hk as [[E _]|[(k' & _ & E & Hn & _)|(k' & _ & E & _)]]; rewrite E in O2; [|injection O2 as ->|done].
      * by eapply (Hoth j1).
      * by apply Hn, (Hh j1 p1).
  - intros k. by rewrite Hin.
  - rewrite (sumZ_insert slot _ _ _ _ Hpc). lia.
Qed.

Lemma bstep_inv s i pc s' pc' :
  bg_inv s -> bgs s !! i = Some pc -> bstep (bg s) pc = Some (s', pc') -> bg_inv (mkBgSys s' (<[i := pc']> (bgs s))).
Proof.
  intros H Hi Hs. pose proof (bi_cap _ H) as Hc. pose proof (bi_sem _ H) as Hsum.
  assert (slot pc <= sumZ slot (bgs s))%Z as Hslot.
  { eapply sumZ_elem_le; [|done]. apply list.Forall_forall. intros p _. destruct p; cbn; lia. }
  destruct pc as [k|k|k|k|k|]; cbn [bstep] in Hs.
  - unfold begin in Hs. case_bool_decide as Hk; simplify_eq; apply (bg_move s i (BStart k)); cbn; try done; try lia.
    + by left.
    + right. left. by exists k.
  - destruct (Nat.ltb_spec (bgSem (bg s)) maxConcurrentBgRevalidations); simplify_eq;
      apply (bg_move s i (BBegun k)); cbn; try done; try lia; by left.
  - simplify_eq. apply (bg_move s i (BFull k)); cbn; try done; try lia. right. right. by exists k.
  - simplify_eq. apply (bg_move s i (BRun k)); cbn; try done; try lia. right. right. by exists k.
  - simplify_eq. cbn in Hslot. apply (bg_move s i (BEnded k)); cbn; try done; try lia. by left.
  - done.
Qed.

Lemma bg_reachable_inv s : rtc bg_step (mkBgSys newBg []) s -> bg_inv s.
Proof.
  intros Hr. remember (mkBgSys newBg []) as s0 eqn:E. assert (bg_inv s0) as H.
  { subst. constructor; cbn; try done; try lia; set_solver. }
  clear E. induction Hr as [|s0 s1 s2 Hs _ IH]; [done|]. apply IH. destruct Hs as [s ps k|s ps i pc s' pc' Hi Hs].
  2: by apply (bstep_inv _ _ _ _ _ H Hi Hs).
  destruct H as [Hh Hu Hin Hsm Hc]; cbn [bg bgs] in *.
  assert (forall j pj, (ps ++ [BStart k]) !! j = Some pj -> ps !! j = Some pj \/ pj = BStart k) as Hnew.
  { intros j pj [?|[_ Hj]]%lookup_app_Some; [by left|right]. by apply list_lookup_singleton_Some in Hj as [_ <-]. }
  constructor; cbn [bg bgs]; [| | | |done].
  - intros j pj k' [Hj| ->]%Hnew Ho; [by eapply Hh|done].
  - intros j1 j2 p1 p2 k' [H1| ->]%Hnew [H2| ->]%Hnew O1 O2; [by eapply Hu|done..].
  - intros k' Hk. destruct (Hin k' Hk) as (j & pj & Hj & Hr). exists j, pj. split; [by apply lookup_app_l_Some|done].
  - rewrite sumZ_app. cbn. lia.
Qed.

(** The background fetches in flight. *)
Definition revalidating (ps : list bpc) : Z := sumZ (fun pc => match pc with BRun _ => 1%Z | _ => 0%Z end) ps.

(** Background revalidation is bounded under every interleaving: no key is
    revalidated twice at once, at most [maxConcurrentBgRevalidations] run at once,
    and nothing leaks: a key is in flight only while some call holds it, and when
    every call is over the key set is empty and every slot is free. *)
Theorem revalidation_bounded s :
  rtc bg_step (mkBgSys newBg []) s ->
  (forall i j k, bgs s !! i = Some (BRun k) -> bgs s !! j = Some (BRun k) -> i = j) /\
  (revalidating (bgs s) <= Z.of_nat maxConcurrentBgRevalidations)%Z /\
  (forall k, k ∈ inFlight (bg s) -> exists i pc, bgs s !! i = Some pc /\ holds pc = Some k) /\
  (Forall (fun pc => pc = BOver) (bgs s) -> bg s = newBg).
Proof.
  intros H%bg_reachable_inv. pose proof (bi_sem _ H) as Hsum. pose proof (bi_cap _ H) as Hc. split_and!.
  - intros i j k Hi Hj. by eapply (bi_uniq _ H).
  - assert (revalidating (bgs s) <= sumZ slot (bgs s))%Z; [|lia].
    unfold revalidating. clear. induction (bgs s) as [|[] l IH]; cbn; lia.
  - apply (bi_in _ H).
  - intros Hall. assert (sumZ slot (bgs s) = 0%Z) as H0.
    { clear -Hall. induction Hall as [|pc l -> _ IH]; cbn; lia. }
    assert (inFlight (bg s) = ∅) as He.
    { apply set_eq. intros k. split; [|by intros ?%not_elem_of_empty].
      intros (i & pc & Hi & Hp)%(bi_in _ H). rewrite list.Forall_forall in Hall.
      rewrite (Hall pc) in Hp by (by eapply list_elem_of_lookup_2). done. }
    destruct (bg s) as [fl sem]. cbn in *. subst fl. unfold newBg. f_equal. lia.
Qed.

Definition bg_example : bgsys := mkBgSys (mkBg ({[herd_key]} ∪ ∅) 1) [BRun herd_key; BOver].

Lemma revalidation_bounded_witness :
  rtc bg_step (mkBgSys newBg []) bg_example /\ (revalidating (bgs bg_example) <= Z.of_nat maxConcurrentBgRevalidations)%Z.
Proof.
  assert (rtc bg_step (mkBgSys newBg []) bg_example) as Hr.
  { eapply rtc_l; [apply (bg_trigger _ _ herd_key)|].
    eapply rtc_l; [apply (bg_run _ _ 0 (BStart herd_key)); reflexivity|].
    eapply rtc_l; [apply (bg_run _ _ 0 (BBegun herd_key)); reflexivity|].
    eapply rtc_l; [apply (bg_trigger _ _ herd_key)|].
    eapply rtc_l; [apply (bg_run _ _ 1 (BStart herd_key)); reflexivity|].
    apply rtc_refl. }
  split; [exact Hr|]. exact (proj1 (proj2 (revalidation_bounded bg_example Hr))).
Defined.
