(* ===== verification/Path.v ===== *)
(** Request paths: the canonical path the pipeline matches
    (src/internal/server/handler.go, [normalizePath]) and the path an HTTP origin
    is asked for (src/internal/origin/httporigin/httporigin.go, [urlFor]), which
    must agree or a path rule could be bypassed. *)

From stdpp Require Import base strings numbers list.
From Stdlib Require Import Lia.
From S2P Require Import Prelude GoStrings.
Open Scope byte_scope.
Open Scope char_scope.

(** ** Definitions *)

(** [path.Clean] of the standard library, element by element: empty elements
    and [.] go, [..] removes the element before it, and at the front of a rooted
    path it goes too. The stack is in reverse order. *)
Definition cleanStep (rooted : bool) (st : list bytes) (e : bytes) : list bytes :=
  if bool_decide (e = []) || bool_decide (e = go ".") then st
  else if bool_decide (e = go "..") then
    match st with
    | top :: st' => if bool_decide (top = go "..") then e :: st else st'
    | [] => if rooted then [] else [e]
    end
  else e :: st.

Definition Clean (p : bytes) : bytes :=
  match p with
  | [] => go "."
  | c :: _ =>
    let rooted := c =b "/" in
    let out := Join (rev (fold_left (cleanStep rooted) (SplitByte p "/") [])) (go "/") in
    if rooted then go "/" ++ out else if bool_decide (out = []) then go "." else out
  end.

Definition isControlByte (c : ascii) : bool := (byteZ c <? 0x20)%Z || (byteZ c =? 0x7f)%Z.

Definition hasControlByte (s : bytes) : bool := existsb isControlByte s.

Definition stripControlBytes (s : bytes) : bytes := List.filter (fun c => negb (isControlByte c)) s.

Definition keepSlash (p cleaned : bytes) : bytes :=
  if Nat.ltb 1 (length p) && HasSuffix p (go "/") && negb (bool_decide (cleaned = go "/"))
  then cleaned ++ go "/" else cleaned.

Definition normalizePath (p : bytes) : bytes :=
  if bool_decide (p = []) then go "/"
  else
    let p := if hasControlByte p then stripControlBytes p else p in
    if bool_decide (p = []) then go "/"
    else
      let cleaned := Clean p in
      if bool_decide (cleaned = p) then p else keepSlash p cleaned.

(** The path of the URL that [urlFor] builds on the base URL's path, or the
    refusal of a key that leaves it. *)
Inductive urlErr := escapesBase.

Definition urlFor (basePathRaw key : bytes) : outcome urlErr bytes :=
  let key := TrimPrefix key (go "/") in
  let basePath := TrimSuffix basePathRaw (go "/") in
  let joined := if bool_decide (basePath = []) then go "/" ++ key else basePath ++ go "/" ++ key in
  let cleaned := Clean joined in
  let cleaned := if HasSuffix joined (go "/") && negb (bool_decide (cleaned = go "/")) then cleaned ++ go "/" else cleaned in
  let confinePrefix := if bool_decide (basePath = []) then go "/" else basePath ++ go "/" in
  let isBaseDir := bool_decide (cleaned = basePath) || bool_decide (cleaned = basePath ++ go "/") in
  let isChild := HasPrefix cleaned confinePrefix in
  if negb isBaseDir && negb isChild then Err escapesBase else Ok cleaned.

Example normalizePath_examples :
  map normalizePath [go "//.env"; go "/a/../b//c/"; go "/a/./b"; go "/.."; go ""; go "/a/.."]
  = [go "/.env"; go "/b/c/"; go "/a/b"; go "/"; go "/"; go "/"].
Proof. vm_compute. reflexivity. Qed.

Example urlFor_examples :
  map (urlFor (go "/tenant-a/")) [go "/x"; go "/../tenant-b/x"; go "/../tenant-ab"; go "/"]
  = [Ok (go "/tenant-a/x"); Err escapesBase; Err escapesBase; Ok (go "/tenant-a/")].
Proof. vm_compute. reflexivity. Qed.

(** ** Absolute paths as lists of elements *)

(** The absolute path of the elements; a trailing slash is an empty last
    element, and the root is [abs [[]]]. *)
Fixpoint abs (es : list bytes) : bytes :=
  match es with [] => [] | e :: es' => "/" :: e ++ abs es' end.

Definition noslash (e : bytes) : Prop := "/" ∉ e.

(** An element that [Clean] keeps. *)
Definition proper (e : bytes) : Prop := noslash e /\ e <> [] /\ e <> go "." /\ e <> go "..".

Lemma abs_app a b : abs (a ++ b) = abs a ++ abs b.
Proof. induction a as [|e a IH]; simpl; [done|]. by rewrite IH, <- app_assoc. Qed.

Lemma SplitByte_abs e es : Forall noslash (e :: es) -> SplitByte (e ++ abs es) "/" = e :: es.
Proof.
  revert e. induction es as [|f es IH]; intros e H; inversion H; subst; simpl.
  - rewrite app_nil_r. by apply SplitByte_single.
  - rewrite SplitByte_sep, IH by done. by rewrite SplitByte_single.
Qed.

Lemma abs_inj a b : Forall noslash a -> Forall noslash b -> abs a = abs b -> a = b.
Proof.
  intros Ha Hb H. assert (SplitByte ([] ++ abs a) "/" = SplitByte ([] ++ abs b) "/") as E by (simpl; by rewrite H).
  assert (noslash []) by apply not_elem_of_nil.
  rewrite !SplitByte_abs in E by (by constructor). by injection E.
Qed.

(** Every rooted path is of this form. *)
Lemma rooted_abs p : HasPrefix p (go "/") = true -> exists l, p = abs l /\ l <> [] /\ Forall noslash l.
Proof.
  intros [t ->]%HasPrefix_spec. exists (SplitByte t "/"). pose proof (SplitByte_nonempty t "/") as Hne.
  split_and!; [|done|apply SplitByte_no_sep]. rewrite <- (Join_SplitByte t "/") at 1.
  destruct (SplitByte t "/") as [|e es]; [done|]. clear. revert e. induction es as [|f es IH]; intros e; simpl.
  - by rewrite app_nil_r.
  - specialize (IH f). simpl in IH. injection IH as IH. by rewrite <- IH.
Qed.

Lemma Join_abs es : es <> [] -> go "/" ++ Join es (go "/") = abs es.
Proof.
  intros Hne. induction es as [|e es IH]; [done|]. destruct es as [|f es]; [simpl; by rewrite app_nil_r|].
  rewrite Join_cons by done. rewrite IH by done. done.
Qed.

(** ** Cleaning elements *)

Definition cleaned (l : list bytes) : list bytes := rev (fold_left (cleanStep true) l []).

Lemma cleanStep_proper st e : Forall proper st -> noslash e -> Forall proper (cleanStep true st e).
Proof.
  intros Hst He. unfold cleanStep. repeat case_bool_decide; simpl; try done.
  - destruct Hst as [|top st Ht Hst]; [done|]. rewrite bool_decide_eq_false_2; [done|]. by destruct Ht as (_ & _ & _ & ?).
  - constructor; [|done]. done.
Qed.

Lemma cleaned_proper l : Forall noslash l -> Forall proper (cleaned l).
Proof.
  intros H. unfold cleaned. apply Forall_rev. assert (Forall proper []) as H0 by done. revert H0.
  generalize (@nil bytes). induction H as [|e l He Hl IH]; intros st Hst; simpl; [done|]. apply IH. by apply cleanStep_proper.
Qed.

(** Proper elements are left alone, and so is a trailing slash. *)
Lemma cleaned_fix es t : Forall proper es -> cleaned (es ++ replicate t []) = es.
Proof.
  intros H. unfold cleaned. rewrite fold_left_app.
  assert (forall st, fold_left (cleanStep true) (replicate t []) st = st) as -> by (induction t; intros st; simpl; [done|auto]).
  assert (forall st, fold_left (cleanStep true) es st = rev es ++ st) as ->; [|by rewrite app_nil_r, rev_involutive].
  induction H as [|e es (Hs & H1 & H2 & H3) _ IH]; intros st; simpl; [done|].
  rewrite IH. unfold cleanStep. rewrite !bool_decide_eq_false_2 by done. simpl. by rewrite <- app_assoc.
Qed.

Definition root_or (es : list bytes) : bytes := match es with [] => go "/" | _ => abs es end.

Lemma Clean_abs l : l <> [] -> Forall noslash l -> Clean (abs l) = root_or (cleaned l).
Proof.
  intros Hne H. destruct l as [|e l]; [done|]. unfold Clean. cbn [abs]. rewrite Ascii.eqb_refl.
  assert (SplitByte ("/" :: e ++ abs l) "/" = [] :: e :: l) as ->.
  { change ("/" :: e ++ abs l) with ([] ++ abs (e :: l)). apply SplitByte_abs. constructor; [apply not_elem_of_nil|done]. }
  change (fold_left (cleanStep true) ([] :: e :: l) []) with (fold_left (cleanStep true) (e :: l) []).
  fold (cleaned (e :: l)). destruct (cleaned (e :: l)) as [|f es]; [done|]. unfold root_or. by apply Join_abs.
Qed.

(** ** The normal form *)

Definition slash (b : bool) : list bytes := if b then [[]] else [].

(** The canonical elements of a rooted path: the cleaned ones and, for the root
    or a path with a trailing slash, the empty one. *)
Definition norm (l : list bytes) : list bytes :=
  cleaned l ++ slash (bool_decide (cleaned l = []) || bool_decide (last l = Some [])).

Lemma noslash_proper es : Forall proper es -> Forall noslash es.
Proof. intros H. eapply list.Forall_impl; [exact H|]. by intros e []. Qed.

Lemma norm_noslash l : Forall noslash l -> Forall noslash (norm l).
Proof.
  intros H. apply list.Forall_app. split; [by apply noslash_proper, cleaned_proper|].
  unfold slash. case_match; [|done]. repeat constructor. apply not_elem_of_nil.
Qed.

Lemma norm_nonempty l : norm l <> [].
Proof. unfold norm. destruct (cleaned l); done. Qed.

(** A path ends in a slash exactly when its last element is empty. *)
Lemma HasSuffix_abs l : l <> [] -> Forall noslash l -> HasSuffix (abs l) (go "/") = bool_decide (last l = Some []).
Proof.
  intros Hne H. destruct (exists_last Hne) as (l' & e & ->). rewrite last_snoc, abs_app. simpl. rewrite app_nil_r.
  apply list.Forall_app in H as [_ He]. inversion He as [|? ? Hs _]; subst.
  case_bool_decide as E.
  - injection E as ->. apply HasSuffix_spec. by exists (abs l').
  - apply not_true_is_false. rewrite HasSuffix_spec. intros [t Ht].
    destruct (decide (e = [])) as [->|Hn]; [done|]. destruct (exists_last Hn) as (e' & c & ->).
    assert (c = "/") as ->; [|apply Hs; apply elem_of_app; right; by apply list_elem_of_singleton].
    rewrite app_comm_cons, app_assoc in Ht. by apply app_inj_tail in Ht as [_ ?].
Qed.

(** The last element of a cleaned path is not empty. *)
Lemma cleaned_last l : Forall noslash l -> last (cleaned l) <> Some [].
Proof.
  intros H%cleaned_proper E. apply last_Some in E as [l' E]. rewrite E in H.
  apply list.Forall_app in H as [_ H]. inversion H as [|? ? (_ & ? & _) _]. done.
Qed.

Lemma root_or_abs es : root_or es = abs (es ++ slash (bool_decide (es = []))).
Proof. destruct es; simpl; [done|]. by rewrite app_nil_r. Qed.

Lemma root_or_root es : Forall proper es -> root_or es = go "/" <-> es = [].
Proof.
  intros H. split; [|by intros ->]. destruct H as [|e es (_ & He & _) _]; [done|]. simpl. intros [= E].
  by apply app_nil in E as [? _].
Qed.

(** Restoring the slash after cleaning, as both callers do. *)
Lemma slash_restored l :
  l <> [] -> Forall noslash l ->
  (if HasSuffix (abs l) (go "/") && negb (bool_decide (Clean (abs l) = go "/")) then Clean (abs l) ++ go "/" else Clean (abs l))
  = abs (norm l).
Proof.
  intros Hne H. rewrite HasSuffix_abs, Clean_abs by done. pose proof (cleaned_proper l H) as Hp. unfold norm.
  rewrite (bool_decide_ext _ _ (root_or_root _ Hp)). rewrite root_or_abs.
  destruct (bool_decide (last l = Some [])), (bool_decide_reflect (cleaned l = [])) as [->|Hc]; simpl;
    rewrite ?app_nil_r, ?abs_app; done.
Qed.

Lemma Clean_same l : l <> [] -> Forall noslash l -> Clean (abs l) = abs l -> abs (norm l) = abs l.
Proof.
  intros Hne H E. rewrite <- slash_restored by done. rewrite E, HasSuffix_abs by done.
  destruct (bool_decide_reflect (last l = Some [])) as [Hl|]; [|done]. case_bool_decide as Hr; [done|]. simpl.
  rewrite Clean_abs in E by done. pose proof (cleaned_proper l H) as Hp.
  destruct (cleaned l) as [|e es] eqn:Ec; [by rewrite <- E in Hr|]. unfold root_or in E.
  apply abs_inj in E; [|by apply noslash_proper|done].
  exfalso. apply (cleaned_last l H). by rewrite Ec, E.
Qed.

Lemma abs_nonnil l : l <> [] -> abs l <> [].
Proof. by destruct l. Qed.

(** A rooted path without control bytes. *)
Lemma normalizePath_abs l :
  l <> [] -> Forall noslash l -> hasControlByte (abs l) = false -> normalizePath (abs l) = abs (norm l).
Proof.
  intros Hne H Hc. pose proof (abs_nonnil l Hne) as Hn. unfold normalizePath. rewrite Hc.
  rewrite !bool_decide_eq_false_2 by done. case_bool_decide as E; [symmetry; by apply Clean_same|].
  rewrite <- slash_restored by done. unfold keepSlash.
  destruct (Nat.ltb_spec 1 (length (abs l))) as [_|Hlen]; [done|].
  assert (abs l = go "/") as Hr.
  { destruct l as [|e l]; [done|]. simpl in *. rewrite length_app in Hlen. destruct e; [|simpl in *; lia].
    destruct l; [done|simpl in *; lia]. }
  exfalso. apply E. by rewrite Hr.
Qed.

Lemma strip_app a b : stripControlBytes (a ++ b) = stripControlBytes a ++ stripControlBytes b.
Proof. apply List.filter_app. Qed.

Lemma strip_clean s : hasControlByte (stripControlBytes s) = false.
Proof.
  unfold hasControlByte, stripControlBytes. induction s as [|c s IH]; simpl; [done|].
  destruct (isControlByte c) eqn:E; simpl; [done|]. by rewrite E.
Qed.

Lemma strip_same s : hasControlByte s = false -> stripControlBytes s = s.
Proof.
  unfold hasControlByte, stripControlBytes. induction s as [|c s IH]; simpl; [done|].
  intros [-> Hs]%orb_false_iff. simpl. by rewrite IH.
Qed.

Lemma strip_abs l : stripControlBytes (abs l) = abs (map stripControlBytes l).
Proof.
  induction l as [|e l IH]; simpl; [done|]. change (isControlByte "/") with false. simpl.
  by rewrite strip_app, IH.
Qed.

Lemma strip_noslash l : Forall noslash l -> Forall noslash (map stripControlBytes l).
Proof.
  intros H. induction H as [|e l He _ IH]; simpl; constructor; [|done]. intros Hin. apply He.
  apply list_elem_of_In in Hin. apply list_elem_of_In. by apply List.filter_In in Hin as [? _].
Qed.

Lemma normalizePath_rooted p :
  HasPrefix p (go "/") = true ->
  exists l, normalizePath p = abs (norm l) /\ l <> [] /\ Forall noslash l /\ stripControlBytes p = abs l.
Proof.
  intros (l & -> & Hne & H)%rooted_abs. exists (map stripControlBytes l).
  pose proof (strip_noslash l H) as Hs.
  assert (map stripControlBytes l <> []) as Hm by (by destruct l).
  split_and!; [|done|done|apply strip_abs].
  rewrite <- normalizePath_abs; [|done|done|rewrite <- strip_abs; apply strip_clean].
  rewrite <- strip_abs. unfold normalizePath at 1 2.
  rewrite strip_clean. pose proof (abs_nonnil l Hne) as Hn. rewrite (bool_decide_eq_false_2 (abs l = [])) by done.
  rewrite strip_abs, (bool_decide_eq_false_2 (abs (map _ _) = [])) by (by apply abs_nonnil).
  destruct (hasControlByte (abs l)) eqn:Hc.
  - by rewrite (bool_decide_eq_false_2 (abs (map _ _) = [])) by (by apply abs_nonnil).
  - rewrite <- strip_abs, (strip_same _ Hc). by rewrite (bool_decide_eq_false_2 (abs l = [])).
Qed.

(** ** The origin's base path *)

(** A base path is empty or made of proper elements; the URL may give it with a
    trailing slash. *)
Lemma TrimSuffix_base bs t : Forall proper bs -> TrimSuffix (abs bs ++ (if t : bool then go "/" else [])) (go "/") = abs bs.
Proof.
  intros H. unfold TrimSuffix. destruct t.
  - rewrite (proj2 (HasSuffix_spec _ _)) by (by exists (abs bs)).
    rewrite length_app. simpl. rewrite Nat.add_sub. by rewrite take_app_length.
  - rewrite app_nil_r. destruct (decide (bs = [])) as [->|Hne]; [done|].
    rewrite HasSuffix_abs by (done || by apply noslash_proper). case_bool_decide as E; [|done].
    exfalso. apply last_Some in E as [bs' E]. rewrite E in H. apply list.Forall_app in H as [_ H].
    inversion H as [|? ? (_ & ? & _) _]. done.
Qed.

(** [urlFor] on the elements of a key. *)
Lemma urlFor_abs bs t l :
  Forall proper bs -> l <> [] -> Forall noslash l ->
  urlFor (abs bs ++ (if t : bool then go "/" else [])) (abs l)
  = (let r := abs (norm (bs ++ l)) in
     if negb (bool_decide (r = abs bs) || bool_decide (r = abs bs ++ go "/")) && negb (HasPrefix r (abs bs ++ go "/"))
     then Err escapesBase else Ok r).
Proof.
  intros Hb Hne H. unfold urlFor. rewrite TrimSuffix_base by done.
  assert ((if bool_decide (abs bs = []) then go "/" ++ TrimPrefix (abs l) (go "/")
           else abs bs ++ go "/" ++ TrimPrefix (abs l) (go "/")) = abs (bs ++ l)) as ->.
  { assert (go "/" ++ TrimPrefix (abs l) (go "/") = abs l) as ->.
    { destruct l as [|e l]; [done|]. unfold TrimPrefix. by rewrite (proj2 (HasPrefix_spec _ _)) by (by eexists). }
    rewrite abs_app. by case_bool_decide as E; [rewrite E|]. }
  rewrite slash_restored; [|by destruct bs|by apply list.Forall_app; split; [apply noslash_proper|]].
  assert ((if bool_decide (abs bs = []) then go "/" else abs bs ++ go "/") = abs bs ++ go "/") as ->
    by (by case_bool_decide as E; [rewrite E|]).
  done.
Qed.

(** Normal elements stay normal, also under a base path. *)
Lemma norm_under bs l :
  Forall proper bs -> Forall noslash l -> norm (bs ++ norm l) = bs ++ norm l.
Proof.
  intros Hb Hl. pose proof (cleaned_proper l Hl) as Hp. unfold norm at 2 3.
  set (b := bool_decide (cleaned l = []) || bool_decide (last l = Some [])).
  assert (b = false -> last (bs ++ cleaned l) <> Some [] /\ cleaned l <> []) as Hlast.
  { intros [Hn _]%orb_false_iff. apply bool_decide_eq_false in Hn. split; [|done].
    intros E. apply (cleaned_last l Hl). destruct (exists_last Hn) as (l' & e & Ee). rewrite Ee, app_assoc, last_snoc in E.
    by rewrite Ee, last_snoc. }
  unfold norm. rewrite app_assoc.
  assert (cleaned ((bs ++ cleaned l) ++ slash b) = bs ++ cleaned l) as ->.
  { replace (slash b) with (replicate (if b then 1 else 0) ([] : bytes)) by (by destruct b).
    apply cleaned_fix. by apply list.Forall_app. }
  f_equal. destruct b; simpl.
  - rewrite last_snoc. by rewrite (bool_decide_eq_true_2 (Some [] = Some [])), orb_true_r by done.
  - rewrite app_nil_r. destruct (Hlast eq_refl) as [? Hn]. rewrite !bool_decide_eq_false_2; [done|done|].
    by intros [_ ?]%app_nil.
Qed.

Lemma SplitByte_rooted l : Forall noslash l -> SplitByte (abs l) "/" = [] :: l.
Proof. intros H. apply (SplitByte_abs [] l). constructor; [apply not_elem_of_nil|done]. Qed.

Lemma cleaned_sub (P : bytes -> Prop) l : Forall P l -> Forall P (cleaned l).
Proof.
  intros H. unfold cleaned. apply Forall_rev. assert (Forall P []) as H0 by done. revert H0.
  generalize (@nil bytes). induction H as [|e l He Hl IH]; intros st Hst; simpl; [done|]. apply IH.
  unfold cleanStep. repeat case_bool_decide; simpl; try done; try (by constructor).
  destruct Hst as [|top st Ht Hst]; [done|]. case_bool_decide; [by repeat constructor|done].
Qed.

Lemma control_abs l : hasControlByte (abs l) = false <-> Forall (fun e => hasControlByte e = false) l.
Proof.
  unfold hasControlByte. induction l as [|e l IH]; simpl; [done|]. rewrite existsb_app, list.Forall_cons, <- IH.
  change (isControlByte "/") with false. simpl. apply orb_false_iff.
Qed.

Lemma norm_control l : hasControlByte (abs l) = false -> hasControlByte (abs (norm l)) = false.
Proof.
  rewrite !control_abs. intros H. apply list.Forall_app. split; [by apply cleaned_sub|].
  unfold slash. case_match; repeat constructor.
Qed.

(** An empty element is the last one. *)
Lemma norm_empty_last l xs w : Forall noslash l -> norm l = xs ++ [] :: w -> w = [].
Proof.
  intros H%cleaned_proper. unfold norm. set (b := _ || _). intros E.
  assert ((cleaned l ++ slash b) !! length xs = Some []) as Hx by (by rewrite E, list_lookup_middle).
  assert (length (cleaned l ++ slash b) = length xs + S (length w))%nat as Hlen by (by rewrite E, length_app).
  apply lookup_app_Some in Hx as [Hx|[Hle _]].
  - rewrite list.Forall_forall in H. apply list_elem_of_lookup_2, H in Hx as (_ & ? & _). done.
  - rewrite length_app in Hlen. destruct w; [done|]. destruct b; simpl in *; lia.
Qed.

(** [normalizePath] is a canonical form for rooted paths: applying it again
    changes nothing, the result is rooted, has no control byte and no double
    slash, and none of its elements is [.] or [..]. *)
Theorem normalizePath_canonical p :
  HasPrefix p (go "/") = true ->
  let q := normalizePath p in
  normalizePath q = q /\ HasPrefix q (go "/") = true /\ hasControlByte q = false /\
  (forall u v, q <> u ++ go "//" ++ v) /\ Forall (fun e => e <> go "." /\ e <> go "..") (SplitByte q "/").
Proof.
  intros (l & E & Hne & Hl & Hs)%normalizePath_rooted q. unfold q. rewrite E. clear q E.
  pose proof (norm_noslash l Hl) as Hn. pose proof (norm_nonempty l) as Hnn.
  assert (hasControlByte (abs (norm l)) = false) as Hc by (apply norm_control; rewrite <- Hs; apply strip_clean).
  split_and!.
  - rewrite normalizePath_abs by done. f_equal. by apply (norm_under []).
  - apply HasPrefix_spec. destruct (norm l); [done|]. by eexists.
  - done.
  - intros u v E. apply (f_equal (fun s => SplitByte s "/")) in E. change (go "//" ++ v) with ("/" :: [] ++ "/" :: v) in E.
    rewrite SplitByte_rooted, !SplitByte_sep in E by done. pose proof (SplitByte_nonempty u "/").
    destruct (SplitByte u "/") as [|x xs]; [done|]. injection E as _ E.
    by apply norm_empty_last, SplitByte_nonempty in E.
  - rewrite SplitByte_rooted by done. constructor; [done|]. apply list.Forall_app. split.
    + eapply list.Forall_impl; [by apply cleaned_proper|]. by intros e (_ & _ & ? & ?).
    + unfold slash. case_match; by repeat constructor.
Qed.

(** C26. What is matched is what is dialled: for a rooted request path and an
    origin whose base path is clean, [urlFor] accepts the canonical path and asks
    for exactly the base path followed by it; so no spelling of a path can be
    matched as one resource and fetched as another. *)
Theorem dial_matches bs t p :
  Forall proper bs -> HasPrefix p (go "/") = true ->
  urlFor (abs bs ++ (if t : bool then go "/" else [])) (normalizePath p) = Ok (abs bs ++ normalizePath p).
Proof.
  intros Hb (l & -> & Hne & Hl & _)%normalizePath_rooted.
  rewrite urlFor_abs by (done || apply norm_nonempty || by apply norm_noslash). cbn zeta.
  rewrite norm_under by done. rewrite abs_app.
  assert (HasPrefix (abs bs ++ abs (norm l)) (abs bs ++ go "/") = true) as ->; [|by rewrite andb_false_r].
  apply HasPrefix_spec. pose proof (norm_nonempty l). destruct (norm l) as [|e es]; [done|].
  exists (e ++ abs es). by rewrite <- app_assoc.
Qed.

(** Only the key without its leading slash counts. *)
Lemma urlFor_rooted b key : urlFor b key = urlFor b (go "/" ++ TrimPrefix key (go "/")).
Proof.
  unfold urlFor. assert (TrimPrefix (go "/" ++ TrimPrefix key (go "/")) (go "/") = TrimPrefix key (go "/")) as ->; [|done].
  unfold TrimPrefix at 1. by rewrite (proj2 (HasPrefix_spec _ _)) by (by eexists).
Qed.

(** A normal path under a base extends it. *)
Lemma norm_extends bs l ts :
  Forall proper bs -> Forall noslash l -> norm l = bs ++ ts ->
  exists es b, Forall proper es /\ norm l = bs ++ es ++ slash b.
Proof.
  intros Hb Hl%cleaned_proper. unfold norm. set (b := _ || _). intros E.
  destruct (app_eq_inv _ _ _ _ E) as [(k & H & _)|(k & H & H2)].
  - rewrite H in Hl |- *. apply list.Forall_app in Hl as [_ Hk]. exists k, b. by rewrite <- app_assoc.
  - exists [], b. split; [done|]. rewrite H in Hb |- *. apply list.Forall_app in Hb as [_ Hk].
    destruct Hk as [|x k (_ & Hx & _) _]; [by rewrite app_nil_r|]. exfalso. apply Hx.
    destruct b; simpl in H2; [|done]. by injection H2 as <-.
Qed.

(** C32. The origin is never asked outside its base path: whatever the key, a
    path that [urlFor] accepts consists of the elements of the base path followed
    by proper ones, with an optional trailing slash. *)
Theorem urlFor_confined bs t key r :
  Forall proper bs -> urlFor (abs bs ++ (if t : bool then go "/" else [])) key = Ok r ->
  exists es b, Forall proper es /\ r = abs (bs ++ es ++ slash b).
Proof.
  intros Hb. rewrite urlFor_rooted.
  destruct (rooted_abs (go "/" ++ TrimPrefix key (go "/"))) as (l & -> & Hne & Hl); [apply HasPrefix_spec; by eexists|].
  rewrite urlFor_abs by done. cbn zeta. assert (Forall noslash (bs ++ l)) as Hbl
    by (apply list.Forall_app; split; [by apply noslash_proper|done]).
  pose proof (norm_noslash _ Hbl) as Hn.
  assert (forall ts, Forall noslash ts -> abs (norm (bs ++ l)) = abs bs ++ abs ts ->
    exists es b, Forall proper es /\ abs (norm (bs ++ l)) = abs (bs ++ es ++ slash b)) as Hext.
  { intros ts Hts E. rewrite <- abs_app in E. apply abs_inj in E; [|done|apply list.Forall_app; split; [by apply noslash_proper|done]].
    destruct (norm_extends bs (bs ++ l) ts Hb Hbl E) as (es & b & Hes & ->). by exists es, b. }
  case_match eqn:Hg; [done|]. intros [= <-].
  assert (noslash []) as Hnil by apply not_elem_of_nil.
  apply andb_false_iff in Hg as [[Hg|Hg]%negb_false_iff%orb_true_iff|Hg%negb_false_iff].
  - apply bool_decide_eq_true in Hg. apply (Hext []); [done|]. by rewrite app_nil_r.
  - apply bool_decide_eq_true in Hg. apply (Hext [[]]); [by repeat constructor|]. done.
  - apply HasPrefix_spec in Hg as [u Hg]. apply (Hext (SplitByte u "/")); [apply SplitByte_no_sep|].
    rewrite Hg, <- app_assoc. f_equal. pose proof (SplitByte_nonempty u "/") as Hu.
    rewrite <- Join_abs by done. by rewrite Join_SplitByte.
Qed.

(** ** Witnesses *)

Lemma proper_example : Forall proper [go "tenant-a"].
Proof. repeat constructor; unfold noslash; try done. by apply (bool_decide_unpack _). Qed.

Lemma normalizePath_canonical_witness :
  HasPrefix (go "//a/../.env") (go "/") = true /\
  normalizePath (normalizePath (go "//a/../.env")) = normalizePath (go "//a/../.env").
Proof. split; [reflexivity|]. exact (proj1 (normalizePath_canonical (go "//a/../.env") eq_refl)). Defined.

Lemma dial_matches_witness :
  urlFor (go "/tenant-a/") (normalizePath (go "//x/../.env")) = Ok (go "/tenant-a/.env").
Proof. exact (dial_matches [go "tenant-a"] true (go "//x/../.env") proper_example eq_refl). Defined.

Lemma urlFor_confined_witness :
  exists es b, Forall proper es /\ go "/tenant-a/y/" = abs ([go "tenant-a"] ++ es ++ slash b).
Proof. exact (urlFor_confined [go "tenant-a"] false (go "x/../y/") (go "/tenant-a/y/") proper_example eq_refl). Defined.
