(* ===== verification/LbRing.v ===== *)
(** The consistent-hash ring of the load balancer (src/internal/lb/ring.go,
    ring_export.go): backends are placed at many points of a 32-bit circle and a
    key belongs to the first eligible backend clockwise from its hash.

    The digest ([md5.Sum]) is a parameter; nothing depends on its values. *)

From stdpp Require Import base strings numbers gmap list sorting.
From Stdlib Require Import Lia.
From S2P Require Import Prelude GoStrings.
Open Scope Z_scope.

Section Ring.
Variable md5 : bytes -> bytes.

(** ** Definitions *)

Definition defaultReplicas : Z := 160.
Definition maxReplicas : Z := 1000000.

(** [binary.LittleEndian.Uint32] of the four bytes at [j]. *)
Definition le32 (s : bytes) (j : nat) : Z :=
  match drop j s with
  | b0 :: b1 :: b2 :: b3 :: _ =>
    Z.lor (byteZ b0) (Z.lor (Z.shiftl (byteZ b1) 8) (Z.lor (Z.shiftl (byteZ b2) 16) (Z.shiftl (byteZ b3) 24))) mod 2 ^ 32
  | _ => 0
  end.

Definition ringHash (key : bytes) : Z := le32 (md5 key) 0.

Record ring := mkRing {
  replicas : Z;
  points : list Z;
  owner : gmap Z bytes;
  ids : list bytes;
}.

(** The loop that moves a virtual node to the next free point. *)
Fixpoint nudge (fuel : nat) (own : gmap Z bytes) (h : Z) : outcome Empty_set Z :=
  match own !! h with
  | None => Ok h
  | Some _ => match fuel with O => NoFuel | S fuel => nudge fuel own (wrap32u (h + 1)) end
  end.

(** Placing one virtual node, then all those of a backend: four per digest. *)
Definition place (id : bytes) (r : ring) (h : Z) : outcome Empty_set ring :=
  let! h := nudge (size (owner r)) (owner r) h in
  Ok (mkRing (replicas r) (points r ++ [h]) (<[h := id]> (owner r)) (ids r)).

Fixpoint placeAll (id : bytes) (r : ring) (hs : list Z) : outcome Empty_set ring :=
  match hs with
  | [] => Ok r
  | h :: hs => let! r := place id r h in placeAll id r hs
  end.

Definition vnodes (rounds : nat) (id : bytes) : list Z :=
  flat_map (fun i => let sum := md5 (Itoa (Z.of_nat i) ++ go "-" ++ id) in
    map (fun j => le32 sum (j * 4)) (seq 0 4)) (seq 0 rounds).

(** [seen] holds exactly the ids already added. *)
Definition addId (rounds : nat) (r : ring) (id : bytes) : outcome Empty_set ring :=
  if bool_decide (id ∈ ids r) then Ok r
  else placeAll id (mkRing (replicas r) (points r) (owner r) (ids r ++ [id])) (vnodes rounds id).

Fixpoint addIds (rounds : nat) (r : ring) (l : list bytes) : outcome Empty_set ring :=
  match l with
  | [] => Ok r
  | id :: l => let! r := addId rounds r id in addIds rounds r l
  end.

Definition rounds_of (replicas : Z) : Z :=
  Z.quot (wrap64 ((if replicas <=? 0 then defaultReplicas else replicas) + 3)) 4.

Definition sortPoints (r : ring) : ring := mkRing (replicas r) (merge_sort Z.le (points r)) (owner r) (ids r).

Definition newRing (replicas : Z) (l : list bytes) : outcome Empty_set ring :=
  let rounds := rounds_of replicas in
  let! r := addIds (Z.to_nat rounds) (mkRing (wrap64 (rounds * 4)) [] ∅ []) l in
  Ok (sortPoints r).

Definition ring_len (r : ring) : Z := Z.of_nat (length (ids r)).

Definition containsString (ss : list bytes) (s : bytes) : bool := existsb (fun x => bool_decide (x = s)) ss.

(** [sort.Search] on the sorted points: the first index whose point is not
    below [h]. *)
Fixpoint search (ps : list Z) (h : Z) : nat :=
  match ps with
  | [] => 0
  | p :: ps => if h <=? p then 0%nat else S (search ps h)
  end.

(** The clockwise walk over the points that remain, with the ids seen so far. *)
Fixpoint walk (own : gmap Z bytes) (total : nat) (eligible : bytes -> bool) (ps : list Z) (seen : list bytes) : option bytes :=
  match ps with
  | [] => None
  | p :: ps =>
    if Nat.ltb (length seen) total then
      let id := default [] (own !! p) in
      if containsString seen id then walk own total eligible ps seen
      else if eligible id then Some id
      else walk own total eligible ps (seen ++ [id])
    else None
  end.

(** The points in the order [points[(idx+i)%n]]. *)
Definition rotate_from (idx : nat) (ps : list Z) : list Z := drop idx ps ++ take idx ps.

Definition lookup_ring (r : ring) (key : bytes) (eligible : option (bytes -> bool)) : option bytes :=
  match points r with
  | [] => None
  | _ =>
    let h := ringHash key in
    let idx := search (points r) h in
    let idx := if Nat.eqb idx (length (points r)) then 0%nat else idx in
    walk (owner r) (length (ids r)) (default (fun _ => true) eligible) (rotate_from idx (points r)) []
  end.

(** ** Hashes *)

Definition u32 (z : Z) : Prop := 0 <= z < 2 ^ 32.

Lemma le32_u32 s j : u32 (le32 s j).
Proof. unfold le32. repeat case_match; try (unfold u32; lia). apply Z.mod_pos_bound. lia. Qed.

Lemma vnodes_u32 rounds id : Forall u32 (vnodes rounds id).
Proof.
  apply list.Forall_forall. intros h Hh%list_elem_of_In. apply in_flat_map in Hh as (i & _ & Hh).
  apply in_map_iff in Hh as (j & <- & _). apply le32_u32.
Qed.

Lemma vnodes_length rounds id : length (vnodes rounds id) = (rounds * 4)%nat.
Proof.
  unfold vnodes. set (f := fun i : nat => _). assert (forall l, length (flat_map f l) = (length l * 4)%nat) as ->.
  { induction l as [|i l IH]; [done|]. cbn [flat_map length]. rewrite length_app, IH. unfold f. by rewrite length_map, length_seq. }
  by rewrite length_seq.
Qed.

(** ** Nudging *)

(** With a free point in the circle the loop ends on one: the points tried are
    different from each other, so as many as there are taken ones cannot all be
    taken. *)
Lemma nudge_free fuel own h h' : u32 h -> nudge fuel own h = Ok h' -> u32 h' /\ own !! h' = None.
Proof.
  revert h. induction fuel as [|fuel IH]; intros h Hh; cbn [nudge].
  - destruct (own !! h) eqn:E; [done|]. by intros [= <-].
  - destruct (own !! h) eqn:E; [|by intros [= <-]]. apply IH. apply Z.mod_pos_bound. lia.
Qed.

Lemma nudge_NoFuel fuel own h :
  u32 h -> nudge fuel own h = NoFuel -> forall i : nat, (i <= fuel)%nat -> is_Some (own !! ((h + Z.of_nat i) mod 2 ^ 32)).
Proof.
  revert h. induction fuel as [|fuel IH]; intros h Hh; cbn [nudge]; destruct (own !! h) eqn:E; try done.
  - intros _ i Hi. replace i with 0%nat by lia. rewrite Z.add_0_r, Z.mod_small by done. by rewrite E.
  - intros Hn i Hi. destruct i as [|i]; [rewrite Z.add_0_r, Z.mod_small by done; by rewrite E|].
    assert (u32 (wrap32u (h + 1))) as Hw by (apply Z.mod_pos_bound; lia).
    specialize (IH _ Hw Hn i ltac:(lia)). unfold wrap32u in IH.
    rewrite Z.add_mod_idemp_l in IH by lia. by replace (h + Z.of_nat (S i)) with (h + 1 + Z.of_nat i) by lia.
Qed.

Lemma nudge_ok own h : u32 h -> Z.of_nat (size own) < 2 ^ 32 -> exists h', nudge (size own) own h = Ok h'.
Proof.
  intros Hh Hs. destruct (nudge (size own) own h) as [h'|[]|] eqn:E; [by exists h'|]. exfalso.
  pose proof (nudge_NoFuel _ _ _ Hh E) as Hall.
  set (tried := map (fun i => (h + Z.of_nat i) mod 2 ^ 32) (seq 0 (S (size own)))).
  assert (NoDup tried) as Hnd.
  { apply (NoDup_fmap_2_strong (fun i : nat => (h + Z.of_nat i) mod 2 ^ 32)); [|apply NoDup_ListNoDup, seq_NoDup].
    intros i j Hi%list_elem_of_In%in_seq Hj%list_elem_of_In%in_seq Hm.
    pose proof (Z.div_mod (h + Z.of_nat i) (2 ^ 32) ltac:(lia)). pose proof (Z.div_mod (h + Z.of_nat j) (2 ^ 32) ltac:(lia)). nia. }
  assert (list_to_set tried ⊆ dom own) as Hsub.
  { intros z Hz%elem_of_list_to_set%list_elem_of_In. apply in_map_iff in Hz as (i & <- & Hi%in_seq).
    apply elem_of_dom, Hall. lia. }
  apply subseteq_size in Hsub. rewrite size_list_to_set in Hsub by done. rewrite size_dom in Hsub.
  unfold tried in Hsub. rewrite length_map, length_seq in Hsub. lia.
Qed.

(** ** Building *)

(** The points and their owners agree. *)
Record agree (r : ring) : Prop := {
  ag_nodup : NoDup (points r);
  ag_u32 : Forall u32 (points r);
  ag_dom p : p ∈ points r <-> is_Some (owner r !! p);
}.

Lemma agree_size r : agree r -> size (owner r) = length (points r).
Proof.
  intros [Hn _ Hd]. rewrite <- size_dom, <- (size_list_to_set (C := gset Z) (points r)) by done.
  f_equal. apply set_eq. intros p. by rewrite elem_of_dom, elem_of_list_to_set, Hd.
Qed.

(** Placing the nodes of a backend gives it that many new points and leaves the
    others. *)
Lemma placeAll_spec id r hs :
  agree r -> Forall u32 hs -> Z.of_nat (length (points r) + length hs) <= 2 ^ 32 ->
  exists r' new, placeAll id r hs = Ok r' /\ agree r' /\ points r' = points r ++ new /\ ids r' = ids r /\
    length new = length hs /\ forall p, owner r' !! p = if decide (p ∈ new) then Some id else owner r !! p.
Proof.
  revert r. induction hs as [|h hs IH]; intros r Ha Hu Hb.
  - exists r, []. split_and!; try done. by rewrite app_nil_r.
  - inversion Hu as [|? ? Hh Hu']; subst. cbn [length] in Hb. cbn [placeAll]. unfold place.
    destruct (nudge_ok (owner r) h Hh) as [h' Hn]; [rewrite agree_size by done; lia|].
    destruct (nudge_free _ _ _ _ Hh Hn) as [Hh' Hfree]. rewrite Hn. cbn [obind].
    set (r1 := mkRing _ _ _ _). assert (h' ∉ points r) as Hnew by (rewrite (ag_dom _ Ha), Hfree; apply is_Some_None).
    assert (agree r1) as Ha1.
    { destruct Ha as [Hn1 Hu1 Hd]. constructor; cbn [points owner r1].
      - apply NoDup_app. split_and!; [done| |apply NoDup_singleton]. intros p Hp ->%list_elem_of_singleton. done.
      - apply list.Forall_app. split; [done|]. by apply list.Forall_singleton.
      - intros p. rewrite elem_of_app, list_elem_of_singleton, Hd, lookup_insert_is_Some. destruct (decide (h' = p)); naive_solver. }
    destruct (IH r1 Ha1 Hu') as (r' & new & -> & Ha' & Hp & Hi & Hl & Ho).
    { cbn [points r1]. rewrite length_app. cbn [length]. lia. }
    exists r', (h' :: new). split_and!; [done|done| | |by cbn; rewrite Hl|].
    + rewrite Hp. cbn [points r1]. by rewrite <- app_assoc.
    + by rewrite Hi.
    + intros p. rewrite Ho. cbn [owner r1]. destruct (decide (p ∈ new)) as [Hin|Hin].
      * rewrite decide_True; [done|set_solver].
      * destruct (decide (p = h')) as [->|Hne]; [rewrite lookup_insert_eq, decide_True by set_solver; done|].
        rewrite lookup_insert_ne by done. rewrite decide_False; [done|set_solver].
Qed.

(** The points a backend has. *)
Definition share (r : ring) (id : bytes) : Z :=
  sumZ (fun p => if bool_decide (owner r !! p = Some id) then 1 else 0) (points r).

Lemma sumZ_const {A} (f : A -> Z) l c : (forall x, x ∈ l -> f x = c) -> sumZ f l = c * Z.of_nat (length l).
Proof.
  induction l as [|x l IH]; intros H; cbn [sumZ length]; [lia|]. rewrite (H x), IH; [lia| |set_solver].
  intros y Hy. apply H. set_solver.
Qed.

(** A ring under construction: every distinct backend has all its points. *)
Record built (rounds : nat) (r : ring) : Prop := {
  bu_agree : agree r;
  bu_ids : NoDup (ids r);
  bu_owner p id : owner r !! p = Some id -> id ∈ ids r;
  bu_share id : id ∈ ids r -> share r id = Z.of_nat (rounds * 4);
  bu_total : length (points r) = (length (ids r) * (rounds * 4))%nat;
}.

Lemma addId_built rounds r id :
  built rounds r -> id ∉ ids r -> Z.of_nat (S (length (ids r)) * (rounds * 4)) <= 2 ^ 32 ->
  exists r' new, addId rounds r id = Ok r' /\ built rounds r' /\ ids r' = ids r ++ [id] /\
    points r' = points r ++ new /\ forall p, owner r' !! p = if decide (p ∈ new) then Some id else owner r !! p.
Proof.
  intros [Ha Hi Ho Hs Ht] Hid Hb. unfold addId. rewrite bool_decide_eq_false_2 by done.
  set (r0 := mkRing _ _ _ _). assert (agree r0) as Ha0 by (by destruct Ha).
  destruct (placeAll_spec id r0 (vnodes rounds id) Ha0 (vnodes_u32 _ _)) as (r' & new & E & Ha' & Hp & Hi' & Hl & Ho').
  { cbn [points r0]. rewrite vnodes_length. lia. }
  rewrite vnodes_length in Hl. cbn [points ids owner r0] in *.
  pose proof (ag_nodup _ Ha') as Hnd. rewrite Hp in Hnd. apply NoDup_app in Hnd as (_ & Hdis & _).
  exists r', new. split_and!; try done. constructor.
  - done.
  - rewrite Hi'. apply NoDup_app. split_and!; [done| |apply NoDup_singleton]. by intros x Hx ->%list_elem_of_singleton.
  - intros p id'. rewrite Ho', Hi', elem_of_app, list_elem_of_singleton. case_decide; [intros [= <-]; by right|].
    intros Hpid. left. by eapply Ho.
  - intros id' Hid'. unfold share. rewrite Hp, sumZ_app.
    rewrite (sumZ_ext _ (fun p => if bool_decide (owner r !! p = Some id') then 1 else 0) (points r)).
    2: { intros p Hin. rewrite Ho'. case_decide; [by apply Hdis in Hin|done]. }
    rewrite (sumZ_ext _ (fun _ => if bool_decide (id = id') then 1 else 0) new).
    2: { intros p Hin. rewrite Ho', decide_True by done.
         rewrite (bool_decide_ext (Some id = Some id') (id = id')); [done|]. split; [by intros [= <-]|by intros ->]. }
    rewrite (sumZ_const (fun _ => _) new _ (fun _ _ => eq_refl)). fold (share r id'). case_bool_decide as E'.
    + subst id'. assert (share r id = 0); [|lia]. unfold share.
      rewrite (sumZ_const _ (points r) 0); [lia|]. intros p _. rewrite bool_decide_eq_false_2; [done|].
      intros Hp'. by apply Ho in Hp'.
    + rewrite Hs; [lia|]. rewrite Hi' in Hid'. set_solver.
  - rewrite Hp, Hi', !length_app, Ht, Hl. cbn [length]. lia.
Qed.

(** The ids in the order they are first given. *)
Definition distinct (acc l : list bytes) : list bytes :=
  fold_left (fun acc id => if bool_decide (id ∈ acc) then acc else acc ++ [id]) l acc.

Lemma addIds_built rounds l r :
  built rounds r -> Z.of_nat ((length (ids r) + length l) * (rounds * 4)) <= 2 ^ 32 ->
  exists r', addIds rounds r l = Ok r' /\ built rounds r' /\ ids r' = distinct (ids r) l.
Proof.
  revert r. induction l as [|id l IH]; intros r H Hb; cbn [addIds length] in *; [by exists r|].
  unfold distinct. cbn [fold_left]. fold (distinct (if bool_decide (id ∈ ids r) then ids r else ids r ++ [id]) l).
  case_bool_decide as Hin.
  - assert (addId rounds r id = Ok r) as -> by (unfold addId; by rewrite bool_decide_eq_true_2). cbn [obind].
    apply IH; [done|lia].
  - destruct (addId_built rounds r id H Hin) as (r1 & new & -> & H1 & Hi & _); [lia|]. cbn [obind].
    rewrite <- Hi. apply IH; [done|]. rewrite Hi, length_app. cbn [length]. lia.
Qed.

Lemma built_empty rounds k : built rounds (mkRing k [] ∅ []).
Proof.
  constructor; cbn; try done; [|by apply NoDup_nil_2|by intros id ?%elem_of_nil].
  constructor; cbn; [by apply NoDup_nil_2|done|]. intros p. rewrite lookup_empty. split; [by intros ?%elem_of_nil|by intros [? ?]].
Qed.

Lemma sortPoints_perm r : Permutation (points (sortPoints r)) (points r).
Proof. apply merge_sort_Permutation. Qed.

Lemma sortPoints_built rounds r : built rounds r -> built rounds (sortPoints r).
Proof.
  intros [[Hn Hu Hd] Hi Ho Hs Ht]. pose proof (sortPoints_perm r) as Hp. constructor; try done.
  - constructor.
    + by rewrite Hp.
    + by rewrite Hp.
    + intros p. rewrite Hp. apply Hd.
  - intros id Hid. unfold share. rewrite (sumZ_perm _ _ _ Hp). by apply Hs.
  - by rewrite (Permutation_length Hp).
Qed.

(** A ring ready for lookups. *)
Record ready (rounds : nat) (r : ring) : Prop := {
  re_built : built rounds r;
  re_sorted : StronglySorted Z.le (points r);
}.

Lemma newRing_ready k l :
  Z.of_nat (length l * (Z.to_nat (rounds_of k) * 4)) <= 2 ^ 32 ->
  exists r, newRing k l = Ok r /\ ready (Z.to_nat (rounds_of k)) r /\ ids r = distinct [] l.
Proof.
  intros Hb. unfold newRing.
  destruct (addIds_built (Z.to_nat (rounds_of k)) l (mkRing (wrap64 (rounds_of k * 4)) [] ∅ [])) as (r & -> & H & Hi);
    [apply built_empty|cbn; lia|]. cbn [obind].
  exists (sortPoints r). split_and!; [done| |done]. constructor; [by apply sortPoints_built|].
  apply (StronglySorted_merge_sort Z.le).
Qed.

(** ** Walking *)

(** The clockwise distance from a hash to a point. *)
Definition clockwise (h p : Z) : Z := (p - h) mod 2 ^ 32.

Lemma clockwise_ge h p : u32 h -> u32 p -> h <= p -> clockwise h p = p - h.
Proof. unfold u32, clockwise. intros. apply Z.mod_small. lia. Qed.

Lemma clockwise_lt h p : u32 h -> u32 p -> p < h -> clockwise h p = p - h + 2 ^ 32.
Proof.
  unfold u32, clockwise. intros. rewrite <- (Z.mod_add (p - h) 1 (2 ^ 32)) by lia. rewrite Z.mul_1_l. apply Z.mod_small. lia.
Qed.

Lemma clockwise_inj h p q : u32 h -> u32 p -> u32 q -> clockwise h p = clockwise h q -> p = q.
Proof.
  intros Hh Hp Hq. destruct (Z.le_gt_cases h p), (Z.le_gt_cases h q);
    rewrite ?(clockwise_ge h p), ?(clockwise_ge h q), ?(clockwise_lt h p), ?(clockwise_lt h q) by done;
    unfold u32 in *; lia.
Qed.

(** The start of the walk: where [search] points, or the first point when every
    point is below the hash. *)
Definition walk_order (h : Z) (ps : list Z) : list Z :=
  let idx := search ps h in rotate_from (if Nat.eqb idx (length ps) then 0%nat else idx) ps.

Lemma search_spec ps h :
  StronglySorted Z.le ps ->
  Forall (fun p => p < h) (take (search ps h) ps) /\ Forall (fun p => h <= p) (drop (search ps h) ps).
Proof.
  induction 1 as [|p ps Hs IH Hp]; cbn [search]; [done|]. destruct (Z.leb_spec h p).
  - split; [done|]. constructor; [done|]. eapply list.Forall_impl; [exact Hp|]. cbn. lia.
  - destruct IH as [H1 H2]. split; [by constructor|done].
Qed.

Lemma walk_order_eq h ps : walk_order h ps = drop (search ps h) ps ++ take (search ps h) ps.
Proof.
  unfold walk_order, rotate_from. destruct (Nat.eqb_spec (search ps h) (length ps)) as [->|]; [|done].
  by rewrite drop_all, firstn_all, drop_0, take_0, app_nil_r.
Qed.

Lemma walk_order_perm h ps : Permutation (walk_order h ps) ps.
Proof. rewrite walk_order_eq, Permutation_app_comm. by rewrite take_drop. Qed.

(** Sorting by an order that agrees with the first on some points. *)
Lemma StronglySorted_on {A} (P : A -> Prop) (R S : A -> A -> Prop) l :
  (forall x y, P x -> P y -> R x y -> S x y) -> Forall P l -> StronglySorted R l -> StronglySorted S l.
Proof.
  intros Hrs Hp Hs. induction Hs as [|x l Hs IH Hx]; [constructor|]. inversion Hp as [|? ? Px Pl]; subst.
  constructor; [by apply IH|]. rewrite list.Forall_forall in *. intros y Hy. apply Hrs; auto.
Qed.

(** It is the points by increasing clockwise distance. *)
Lemma walk_order_sorted h ps :
  u32 h -> Forall u32 ps -> StronglySorted Z.le ps ->
  StronglySorted (fun p q => clockwise h p <= clockwise h q) (walk_order h ps).
Proof.
  intros Hh Hu Hs. destruct (search_spec ps h Hs) as [Hl Hr]. rewrite walk_order_eq.
  rewrite <- (take_drop (search ps h) ps) in Hs, Hu at 1. apply list.Forall_app in Hu as [Hul Hur].
  apply StronglySorted_app in Hs as (_ & Hsl & Hsr).
  pose proof (proj2 (Forall_and _ _) (conj Hul Hl)) as HL. pose proof (proj2 (Forall_and _ _) (conj Hur Hr)) as HR.
  cbn beta in HL, HR.
  apply StronglySorted_app. split_and!.
  - intros p q Hp Hq. rewrite list.Forall_forall in HL, HR. destruct (HR p Hp) as [Hup ?], (HL q Hq) as [Huq ?].
    rewrite (clockwise_ge h p), (clockwise_lt h q) by done. unfold u32 in *. lia.
  - eapply StronglySorted_on; [|exact HR|exact Hsr]. intros p q [? ?] [? ?] ?. rewrite !clockwise_ge by done. lia.
  - eapply StronglySorted_on; [|exact HL|exact Hsl]. intros p q [? ?] [? ?] ?. rewrite !clockwise_lt by done. lia.
Qed.

(** The backend of the first point whose owner is eligible. *)
Definition first_eligible (own : gmap Z bytes) (eligible : bytes -> bool) (ps : list Z) : option bytes :=
  List.find eligible (map (fun p => default [] (own !! p)) ps).

Lemma containsString_elem ss s : containsString ss s = bool_decide (s ∈ ss).
Proof.
  apply eq_bool_prop_intro. rewrite bool_decide_spec. unfold containsString. rewrite Is_true_true, existsb_exists.
  setoid_rewrite bool_decide_eq_true. setoid_rewrite <- list_elem_of_In. split; [by intros (x & ? & ->)|by exists s].
Qed.

(** The bookkeeping of the walk changes nothing: skipping the ids already
    considered, and stopping when all have been, finds the same backend. *)
Lemma walk_first own l eligible ps seen :
  NoDup l -> Forall (fun p => default [] (own !! p) ∈ l) ps -> NoDup seen -> seen ⊆ l ->
  Forall (fun id => eligible id = false) seen ->
  walk own (length l) eligible ps seen = first_eligible own eligible ps.
Proof.
  intros Hl Hps. revert seen. induction Hps as [|p ps Hp Hps IH]; intros seen Hn Hsub He; [done|].
  cbn [walk]. unfold first_eligible. cbn [map List.find]. fold (first_eligible own eligible ps).
  set (id := default [] (own !! p)) in *.
  destruct (Nat.ltb_spec (length seen) (length l)) as [Hlt|Hge].
  - rewrite containsString_elem.
    case_bool_decide as Hin.
    + rewrite list.Forall_forall in He. rewrite (He id Hin). apply IH; [done|done|by apply list.Forall_forall].
    + destruct (eligible id) eqn:E; [done|]. apply IH.
      * apply NoDup_app. split_and!; [done| |apply NoDup_singleton]. by intros x Hx ->%list_elem_of_singleton.
      * intros x [Hx|Hx]%elem_of_app; [by apply Hsub|]. by apply list_elem_of_singleton in Hx as ->.
      * apply list.Forall_app. split; [done|]. by apply list.Forall_singleton.
  - assert (forall x, x ∈ l -> eligible x = false) as Hall.
    { intros x Hx. assert (seen ≡ₚ l) as Hperm by (apply submseteq_length_Permutation; [by apply NoDup_submseteq|lia]).
      rewrite list.Forall_forall in He. apply He. by rewrite Hperm. }
    rewrite (Hall id Hp). symmetry. unfold first_eligible. clear -Hps Hall.
    induction Hps as [|q ps Hq _ IH]; cbn; [done|]. by rewrite (Hall _ Hq).
Qed.

Lemma lookup_first rounds r key eligible :
  ready rounds r ->
  lookup_ring r key eligible
  = first_eligible (owner r) (default (fun _ => true) eligible) (walk_order (ringHash key) (points r)).
Proof.
  intros [[[Hn Hu Hd] Hi Ho _ _] Hs]. unfold lookup_ring. destruct (points r) as [|p ps] eqn:E; [done|].
  apply (walk_first (owner r) (ids r)); [done| |by apply NoDup_nil_2|set_solver|done].
  apply list.Forall_forall. intros q Hq. unfold walk_order in Hq |- *. pose proof (walk_order_perm (ringHash key) (p :: ps)) as Hp.
  unfold walk_order in Hp. cbn zeta in *. rewrite Hp in Hq. apply Hd in Hq as [id Hid]. rewrite Hid. cbn. by eapply Ho.
Qed.

(** ** Ownership *)

Definition may (eligible : option (bytes -> bool)) (id : bytes) : bool := default (fun _ => true) eligible id.

(** [p] is the point of an eligible backend closest to [h] clockwise. *)
Definition owns_key (r : ring) (eligible : option (bytes -> bool)) (h p : Z) (id : bytes) : Prop :=
  owner r !! p = Some id /\ may eligible id = true /\
  forall q id', owner r !! q = Some id' -> may eligible id' = true -> clockwise h p <= clockwise h q.

Lemma find_split {A} (f : A -> bool) l x :
  List.find f l = Some x -> exists l1 l2, l = l1 ++ x :: l2 /\ f x = true /\ Forall (fun y => f y = false) l1.
Proof.
  induction l as [|y l IH]; cbn [List.find]; [done|]. destruct (f y) eqn:E.
  - intros [= ->]. by exists [], l.
  - intros (l1 & l2 & -> & Hx & Hall)%IH. exists (y :: l1), l2. split_and!; [done|done|by constructor].
Qed.

Lemma ringHash_u32 key : u32 (ringHash key).
Proof. apply le32_u32. Qed.

Lemma lookup_owns rounds r key eligible id :
  ready rounds r -> lookup_ring r key eligible = Some id -> exists p, owns_key r eligible (ringHash key) p id.
Proof.
  intros H. rewrite (lookup_first rounds) by done. fold (may eligible). destruct H as [[[Hn Hu Hd] Hi Ho _ _] Hs].
  pose proof (walk_order_sorted (ringHash key) _ (ringHash_u32 key) Hu Hs) as Hsort.
  pose proof (walk_order_perm (ringHash key) (points r)) as Hperm.
  unfold first_eligible. intros (l1 & l2 & E & Hel & Hall)%find_split.
  apply map_eq_app in E as (ps1 & ps2 & Ew & E1 & E2). apply map_eq_cons in E2 as (p & ps3 & -> & Ep & _).
  assert (p ∈ points r) as [id0 Hp]%Hd by (rewrite <- Hperm, Ew; set_solver).
  rewrite Hp in Ep. cbn in Ep. subst id0. exists p. split_and!; [done|done|].
  intros q id' Hq Hq'. assert (q ∈ walk_order (ringHash key) (points r)) as Hin by (rewrite Hperm; apply Hd; by rewrite Hq).
  rewrite Ew in Hsort, Hin. apply StronglySorted_app in Hsort as (_ & _ & Hsort).
  apply elem_of_app in Hin as [Hin|[->|Hin]%elem_of_cons]; [exfalso|lia|].
  - rewrite list.Forall_forall in Hall. assert (may eligible (default [] (owner r !! q)) = false) as Hf.
    { apply Hall. rewrite <- E1. apply list_elem_of_In, in_map_iff. exists q. split; [done|by apply list_elem_of_In]. }
    rewrite Hq in Hf. cbn in Hf. congruence.
  - apply StronglySorted_cons in Hsort as [Hs' _]. rewrite list.Forall_forall in Hs'. by apply Hs'.
Qed.

Lemma lookup_is_Some rounds r key eligible p id :
  ready rounds r -> owner r !! p = Some id -> may eligible id = true -> lookup_ring r key eligible <> None.
Proof.
  intros H Hp Hel E. rewrite (lookup_first rounds) in E by done. fold (may eligible) in E. unfold first_eligible in E.
  assert (may eligible (default [] (owner r !! p)) = false) as Hf; [|rewrite Hp in Hf; cbn in Hf; congruence].
  apply (find_none _ _ E). apply in_map_iff. exists p. split; [done|]. apply list_elem_of_In.
  rewrite walk_order_perm. apply (ag_dom _ (bu_agree _ _ (re_built _ _ H))). by rewrite Hp.
Qed.

Lemma owns_lookup rounds r key eligible p id :
  ready rounds r -> owns_key r eligible (ringHash key) p id -> lookup_ring r key eligible = Some id.
Proof.
  intros H (Hp & Hel & Hmin). pose proof H as [[[Hn Hu Hd] Hi Ho _ _] Hs].
  assert (forall q id', owner r !! q = Some id' -> u32 q) as Hu'
    by (intros q id' Hq; rewrite list.Forall_forall in Hu; apply Hu, Hd; by rewrite Hq).
  destruct (lookup_ring r key eligible) as [id0|] eqn:E.
  - destruct (lookup_owns _ _ _ _ _ H E) as (p0 & Hp0 & Hel0 & Hmin0).
    assert (p = p0) as ->; [|congruence].
    apply (clockwise_inj (ringHash key)); [apply ringHash_u32|by eapply Hu'|by eapply Hu'|].
    pose proof (Hmin _ _ Hp0 Hel0). pose proof (Hmin0 _ _ Hp Hel). lia.
  - by apply (lookup_is_Some _ _ _ _ _ _ H Hp Hel) in E.
Qed.

(** Every backend of a ring with at least one round has a point. *)
Lemma share_point rounds r id : (0 < rounds)%nat -> built rounds r -> id ∈ ids r -> exists p, owner r !! p = Some id.
Proof.
  intros Hr H Hid. pose proof (bu_share _ _ H id Hid) as Hs. unfold share in Hs.
  destruct (decide (Exists (fun p => owner r !! p = Some id) (points r))) as [Hex|Hno].
  - apply list.Exists_exists in Hex as (p & _ & Hp). by exists p.
  - exfalso. rewrite (sumZ_const _ _ 0) in Hs; [lia|]. intros p Hp. rewrite bool_decide_eq_false_2; [done|].
    intros E. apply Hno, list.Exists_exists. by exists p.
Qed.

Lemma rounds_pos k : k <= maxReplicas -> (0 < Z.to_nat (rounds_of k))%nat.
Proof.
  unfold maxReplicas, rounds_of, defaultReplicas. intros Hk. destruct (Z.leb_spec k 0); [vm_compute; lia|].
  rewrite wrap64_small by lia. rewrite Z.quot_div_nonneg by lia.
  assert (1 <= (k + 3) / 4); [|lia]. apply Z.div_le_lower_bound; lia.
Qed.

(** The configured replica count is within its cap, and the circle has room for
    every virtual node. *)
Definition fits (k : Z) (l : list bytes) : Prop :=
  k <= maxReplicas /\ Z.of_nat (length l) * (rounds_of k * 4) <= 2 ^ 32.

Lemma fits_ready k l :
  fits k l -> exists r, newRing k l = Ok r /\ ready (Z.to_nat (rounds_of k)) r /\ ids r = distinct [] l.
Proof. intros [Hk Hb]. apply newRing_ready. pose proof (rounds_pos k Hk). lia. Qed.



Lemma distinct_elem acc l id : id ∈ distinct acc l <-> id ∈ acc \/ id ∈ l.
Proof.
  unfold distinct. revert acc. induction l as [|y l IH]; intros acc; cbn [fold_left]; [set_solver|].
  rewrite IH. case_bool_decide; set_solver.
Qed.



(** ** Rings without collisions *)











(** ** Theorems *)

(** Building a ring ends and drops no virtual node: within the limits of
    [fits] every distinct backend, in the order given, owns exactly the configured
    number of points (rounded up to a multiple of four), however many digests
    collide. *)
Theorem newRing_shares k l :
  fits k l ->
  exists r, newRing k l = Ok r /\ ids r = distinct [] l /\ NoDup (points r) /\
    forall id, id ∈ ids r -> share r id = rounds_of k * 4.
Proof.
  intros Hf. destruct (fits_ready k l Hf) as (r & Hr & [H _] & Hi). exists r. pose proof (rounds_pos k (proj1 Hf)).
  split_and!; [done|done|apply (bu_agree _ _ H)|]. intros id Hid. rewrite (bu_share _ _ H id Hid). lia.
Qed.

(** C28. A lookup returns the owner of the point closest to the key's hash
    clockwise among the points of eligible backends, and fails exactly when no
    backend is eligible. *)
Theorem ring_lookup_clockwise k l key eligible :
  fits k l ->
  exists r, newRing k l = Ok r /\
    (forall id, lookup_ring r key eligible = Some id <-> exists p, owns_key r eligible (ringHash key) p id) /\
    (lookup_ring r key eligible = None <-> forall id, id ∈ l -> may eligible id = false).
Proof.
  intros Hf. destruct (fits_ready k l Hf) as (r & Hr & H & Hi). exists r. split_and!; [done| |].
  - intros id. split; [by apply (lookup_owns _ _ _ _ _ H)|]. intros [p Hp]. by apply (owns_lookup _ _ _ _ _ _ H Hp).
  - split.
    + intros E id Hid. apply not_true_is_false. intros Hel.
      destruct (share_point _ r id (rounds_pos k (proj1 Hf)) (re_built _ _ H)) as [p Hp];
        [rewrite Hi; apply distinct_elem; by right|]. by apply (lookup_is_Some _ _ _ _ _ _ H Hp Hel) in E.
    + intros Hno. destruct (lookup_ring r key eligible) as [id|] eqn:E; [|done].
      destruct (lookup_owns _ _ _ _ _ H E) as (p & Hp & Hel & _). apply (bu_owner _ _ (re_built _ _ H)) in Hp.
      rewrite Hi in Hp. apply distinct_elem in Hp as [?%elem_of_nil|Hp]; [done|]. apply Hno in Hp. congruence.
Qed.


End Ring.

(** ** Witnesses *)

(** A digest that spreads short strings, and one on which everything
    collides. *)
Definition toyDigest (s : bytes) : bytes := take 16 (rev s ++ s ++ replicate 16 (Zbyte 7)).
Definition constDigest (s : bytes) : bytes := replicate 16 (Zbyte 255).

Definition backends : list bytes := [go "a:80"; go "b:80"; go "a:80"].

Lemma backends_fit : fits 4 backends.
Proof. split; vm_compute; discriminate. Qed.

(** Four points per backend although every hash is 2^32-1: the later ones wrap
    around to 0. *)
Lemma newRing_shares_witness :
  exists r, newRing constDigest 4 backends = Ok r /\ ids r = [go "a:80"; go "b:80"] /\ NoDup (points r) /\
    forall id, id ∈ ids r -> share r id = 4.
Proof. exact (newRing_shares constDigest 4 backends backends_fit). Defined.

Lemma ring_lookup_clockwise_witness :
  exists r, newRing toyDigest 4 backends = Ok r /\
    (forall id, lookup_ring toyDigest r (go "/x") None = Some id <->
       exists p, owns_key r None (ringHash toyDigest (go "/x")) p id).
Proof.
  destruct (ring_lookup_clockwise toyDigest 4 backends (go "/x") None backends_fit) as (r & Hr & Hl & _).
  exists r. split; [exact Hr|exact Hl].
Defined.



(** When every virtual node collides, the order decides who owns which point: a
    key can move although no backend was added or removed. *)
Example order_moves_keys :
  let owner_of l := let! r := newRing constDigest 4 l in Ok (lookup_ring constDigest r (go "/x") None) in
  owner_of [go "a:80"; go "b:80"] = Ok (Some (go "a:80")) /\ owner_of [go "b:80"; go "a:80"] = Ok (Some (go "b:80")).
Proof. split; vm_compute; reflexivity. Qed.

(** The ring on which everything collides. *)
Example nudge_wraps :
  (let! r := newRing constDigest 4 backends in Ok (points r)) = Ok [0; 1; 2; 3; 4; 5; 6; 4294967295].
Proof. vm_compute. reflexivity. Qed.
