(* ===== verification/Netip.v ===== *)
(** * IP addresses and prefixes ([net/netip])

    An address is its four or sixteen bytes.  Textual IPv4 addresses are parsed as
    [net/netip] does; the parser of textual IPv6 addresses is a parameter. *)

From stdpp Require Import base strings numbers list.
From Stdlib Require Import Lia.
From S2P Require Import Prelude GoStrings.
Open Scope Z_scope.

(** ** Addresses ([net/netip]) *)

Inductive Addr :=
| Addr4 (b : bytes)
| Addr6 (b : bytes) (zone : bytes).

Record AddrPort := mkAddrPort { ap_addr : Addr; ap_port : Z }.

Definition Is4 (a : Addr) : bool := match a with Addr4 _ => true | _ => false end.
Definition Is6 (a : Addr) : bool := negb (Is4 a).

Definition mappedPrefix : bytes := replicate 10 (Zbyte 0) ++ [Zbyte 255; Zbyte 255].

Definition Unmap (a : Addr) : Addr :=
  match a with
  | Addr6 b _ => if bool_decide (take 12 b = mappedPrefix) then Addr4 (drop 12 b) else a
  | Addr4 _ => a
  end.

(** The loop of [parseIPv4Fields]: the octets so far, the value and the number
    of digits of the current one. *)
Fixpoint ipv4_loop (s : bytes) (octets : bytes) (val : Z) (digLen : nat) : option bytes :=
  match s with
  | [] =>
    if Nat.ltb (length octets) 3 then None
    else Some (octets ++ [Zbyte val])
  | c :: s =>
    if isDigit c then
      if Nat.eqb digLen 1 && (val =? 0) then None
      else
        let val := val * 10 + (byteZ c - 0x30) in
        if val >? 255 then None else ipv4_loop s octets val (S digLen)
    else if (c =b ".")%byte then
      if Nat.eqb digLen 0 || bool_decide (s = []) then None
      else if Nat.eqb (length octets) 3 then None
      else ipv4_loop s (octets ++ [Zbyte val]) 0 0
    else None
  end.

Definition parseIPv4 (s : bytes) : option Addr :=
  match s with [] => None | _ => Addr4 <$> ipv4_loop s [] 0 0 end.

Section ParseAddr.
Variable parseIPv6 : bytes -> option Addr.

(** The first of [.], [:] and [%] says which form it is. *)
Definition ParseAddr (s : bytes) : option Addr :=
  match IndexAny s (go ".:%") with
  | Some i =>
    match s !! i with
    | Some c => if (c =b ".")%byte then parseIPv4 s else if (c =b ":")%byte then parseIPv6 s else None
    | None => None
    end
  | None => None
  end.

(** ** Prefixes *)

Record Prefix := mkPrefix { px_ip : Addr; px_bits : Z }.

Definition addrBytes (a : Addr) : bytes := match a with Addr4 b | Addr6 b _ => b end.
Definition hasZone (a : Addr) : bool := match a with Addr6 _ (_ :: _) => true | _ => false end.
Definition BitLen (a : Addr) : Z := if Is4 a then 32 else 128.

(** [netip.ParsePrefix]. *)
Definition ParsePrefix (s : bytes) : option Prefix :=
  match LastIndexByte s "/" with
  | None => None
  | Some i =>
    match ParseAddr (take i s) with
    | None => None
    | Some ip =>
      if hasZone ip then None
      else
        let bitsStr := drop (S i) s in
        if (1 <? length bitsStr)%nat &&
           match bitsStr with c :: _ => (byteZ c <? 0x31) || (0x39 <? byteZ c) | [] => false end
        then None
        else match ParseInt64 bitsStr with
             | Some bits => if (bits <? 0) || (BitLen ip <? bits) then None else Some (mkPrefix ip bits)
             | None => None
             end
    end
  end.
End ParseAddr.

(** The bits of a byte string, most significant first. *)
Definition byteBits (c : ascii) : list bool := map (Z.testbit (byteZ c)) [7; 6; 5; 4; 3; 2; 1; 0].
Definition bitsOf (s : bytes) : list bool := flat_map byteBits s.

(** [Prefix.Masked] clears the bits after the first [px_bits]. *)
Fixpoint maskBytes (bits : Z) (s : bytes) : bytes :=
  match s with
  | [] => []
  | c :: r =>
    let keep := Z.max 0 (Z.min 8 bits) in
    Zbyte (Z.land (byteZ c) (Z.shiftl 255 (8 - keep))) :: maskBytes (bits - 8) r
  end.

Definition Masked (p : Prefix) : Prefix :=
  mkPrefix (match px_ip p with
            | Addr4 b => Addr4 (maskBytes (px_bits p) b)
            | Addr6 b z => Addr6 (maskBytes (px_bits p) b) z
            end) (px_bits p).

(** [Prefix.Contains] for a valid prefix. *)
Definition PrefixContains (p : Prefix) (ip : Addr) : bool :=
  if hasZone ip then false
  else if negb (BitLen (px_ip p) =? BitLen ip) then false
  else bool_decide (take (Z.to_nat (px_bits p)) (bitsOf (addrBytes (px_ip p)))
                    = take (Z.to_nat (px_bits p)) (bitsOf (addrBytes ip))).

(** ** Text *)

Definition lowerHexDigit (d : Z) : ascii := if d <? 10 then Zbyte (0x30 + d) else Zbyte (0x61 + (d - 10)).

(** A 16-bit group in hexadecimal without leading zeros. *)
Definition hexGroup (g : Z) : bytes :=
  let ds := [g / 4096; (g / 256) mod 16; (g / 16) mod 16] in
  map lowerHexDigit ((fix strip ds := match ds with d :: r => if d =? 0 then strip r else ds | [] => [] end) ds)
  ++ [lowerHexDigit (g mod 16)].

Fixpoint groups16 (b : bytes) : list Z :=
  match b with
  | h :: l :: r => (256 * byteZ h + byteZ l) :: groups16 r
  | _ => []
  end.

Fixpoint zeroRun (gs : list Z) : nat :=
  match gs with g :: r => if g =? 0 then S (zeroRun r) else 0%nat | [] => 0%nat end.

(** The first of the longest runs of at least two zero groups. *)
Definition longestZeros (gs : list Z) : nat * nat :=
  fold_left (fun '(s, l) i => let l' := zeroRun (drop i gs) in if (2 <=? l')%nat && (l <? l')%nat then (i, l') else (s, l))
    (seq 0 8) (0%nat, 0%nat).

Definition string4 (b : bytes) : bytes := Join (map (fun c => Itoa (byteZ c)) b) (go ".").

Definition string6 (b : bytes) : bytes :=
  let gs := groups16 b in
  let '(s, l) := longestZeros gs in
  let hex gs := Join (map hexGroup gs) (go ":") in
  if (l =? 0)%nat then hex gs else hex (take s gs) ++ go "::" ++ hex (drop (s + l) gs).

(** [Addr.String]. *)
Definition addrString (a : Addr) : bytes :=
  match a with
  | Addr4 b => string4 b
  | Addr6 b zone =>
    (if bool_decide (take 12 b = mappedPrefix) then go "::ffff:" ++ string4 (drop 12 b) else string6 b)
    ++ (if bool_decide (zone = []) then [] else go "%" ++ zone)
  end.

Example addrString_examples :
  map addrString
    [Addr4 [Zbyte 10; Zbyte 0; Zbyte 255; Zbyte 1];
     Addr6 (replicate 16 (Zbyte 0)) [];
     Addr6 (replicate 15 (Zbyte 0) ++ [Zbyte 1]) [];
     Addr6 ([Zbyte 0x20; Zbyte 1; Zbyte 0x0d; Zbyte 0xb8] ++ replicate 4 (Zbyte 0) ++ [Zbyte 0; Zbyte 1] ++ replicate 6 (Zbyte 0)) (go "eth0");
     Addr6 (mappedPrefix ++ [Zbyte 1; Zbyte 2; Zbyte 3; Zbyte 4]) []]
  = map go ["10.0.255.1"; "::"; "::1"; "2001:db8:0:0:1::%eth0"; "::ffff:1.2.3.4"]%string.
Proof. reflexivity. Qed.

(** ** Facts *)

Lemma byteBits_length c : length (byteBits c) = 8%nat.
Proof. done. Qed.

(** Masking a byte keeps its first [k] bits. *)
Lemma maskByte_take k c : (k <= 8)%nat ->
  take k (byteBits (Zbyte (Z.land (byteZ c) (Z.shiftl 255 (8 - Z.of_nat k))))) = take k (byteBits c).
Proof.
  intros Hk. assert (forall c, forallb (fun k => bool_decide
    (take k (byteBits (Zbyte (Z.land (byteZ c) (Z.shiftl 255 (8 - Z.of_nat k))))) = take k (byteBits c))) (seq 0 9) = true)
    as H by (apply forall_byte; vm_compute; reflexivity).
  specialize (H c). rewrite forallb_forall in H. specialize (H k). rewrite bool_decide_eq_true in H.
  apply H, in_seq. lia.
Qed.

Lemma maskBytes_take n s : take n (bitsOf (maskBytes (Z.of_nat n) s)) = take n (bitsOf s).
Proof.
  revert n. induction s as [|c s IH]; intros n; [done|]. cbn [maskBytes].
  change (bitsOf (?x :: ?y)) with (byteBits x ++ bitsOf y).
  destruct (Nat.le_gt_cases n 8) as [Hn|Hn].
  - rewrite !take_app_le by (rewrite byteBits_length; lia). rewrite Z.min_r, Z.max_r by lia. by apply maskByte_take.
  - rewrite Z.min_l, Z.max_r by lia. rewrite !take_app, !byteBits_length.
    replace (Z.of_nat n - 8) with (Z.of_nat (n - 8)) by lia. rewrite IH. f_equal.
    rewrite !take_ge by (rewrite byteBits_length; lia).
    pose proof (maskByte_take 8 c ltac:(lia)) as H. by rewrite !take_ge in H by (rewrite byteBits_length; lia).
Qed.
