(* ===== verification/ProxyProto.v ===== *)
(** The PROXY protocol reader and its listener (src/internal/proxyproto): the
    v1 text and v2 binary headers, and the connection that reads one before its
    first byte.

    A stream is the list of bytes that arrive before the peer closes. Textual
    IPv4 addresses are parsed as [net/netip] does; the parser of textual IPv6
    addresses is a parameter. *)

From stdpp Require Import base strings numbers list.
From Stdlib Require Import Lia.
From S2P Require Import Prelude GoStrings Netip.
Open Scope Z_scope.

Section Proxy.
Variable parseIPv6 : bytes -> option Addr.

(** ** The header *)

Record Header := mkHeader { h_local : bool; h_source : option AddrPort; h_dest : option AddrPort }.

Definition localHeader : Header := mkHeader true None None.

Inductive proxyErr :=
| shortHeader | notProxy | v1Read | v1TooLong | v1NotCRLF | v1Malformed | v1Fields (n : nat) | v1UnknownProto
| badIP | expectedIPv4 | expectedIPv6 | badPort
| v2Read | v2BadVersion | v2BadCommand | v2ReadBlock | v2Short4 | v2Short6 | v2UnknownFamily.

Definition v2Signature : bytes :=
  map Zbyte [0x0D; 0x0A; 0x0D; 0x0A; 0x00; 0x0D; 0x0A; 0x51; 0x55; 0x49; 0x54; 0x0A].

Definition v1Prefix : bytes := go "PROXY".
Definition maxV1Line : nat := 108.
Definition CRLF : bytes := [Zbyte 13; Zbyte 10].

(** [readV1Line]: up to and including the first newline, at most [n] bytes. *)
Fixpoint readV1Line (n : nat) (br : bytes) : outcome proxyErr (bytes * bytes) :=
  match n with
  | O => Err v1TooLong
  | S n =>
    match br with
    | [] => Err v1Read
    | b :: br =>
      if byteZ b =? 10 then Ok ([b], br)
      else let! (line, rest) := readV1Line n br in Ok (b :: line, rest)
    end
  end.

Definition parseV1AddrPort (ipStr portStr : bytes) (wantV4 : bool) : outcome proxyErr AddrPort :=
  match ParseAddr parseIPv6 ipStr with
  | None => Err badIP
  | Some addr =>
    if wantV4 && negb (Is4 addr) then Err expectedIPv4
    else if negb wantV4 && negb (Is6 addr) then Err expectedIPv6
    else match portStr with
    | [] => Err badPort
    | c :: _ =>
      if negb (c =b "0")%byte && negb ((0x31 <=? byteZ c) && (byteZ c <=? 0x39)) then Err badPort
      else match ParseUint 16 portStr with
      | None => Err badPort
      | Some port => Ok (mkAddrPort (Unmap addr) port)
      end
    end
  end.

(** The fields of a v1 line without its terminator. *)
Definition parseV1 (line : bytes) : outcome proxyErr Header :=
  let fields := SplitByte line " " in
  match fields with
  | f0 :: f1 :: more =>
    if negb (bool_decide (f0 = v1Prefix)) then Err v1Malformed
    else if bool_decide (f1 = go "UNKNOWN") then Ok localHeader
    else if bool_decide (f1 = go "TCP4") || bool_decide (f1 = go "TCP6") then
      match more with
      | [srcIP; dstIP; srcPort; dstPort] =>
        let wantV4 := bool_decide (f1 = go "TCP4") in
        let! src := parseV1AddrPort srcIP srcPort wantV4 in
        let! dst := parseV1AddrPort dstIP dstPort wantV4 in
        Ok (mkHeader false (Some src) (Some dst))
      | _ => Err (v1Fields (length fields))
      end
    else Err v1UnknownProto
  | _ => Err v1Malformed
  end.

Definition readV1 (br : bytes) : outcome proxyErr (Header * bytes) :=
  let! (line, rest) := readV1Line maxV1Line br in
  if negb (HasSuffix line CRLF) then Err v1NotCRLF
  else let! h := parseV1 (TrimSuffix line CRLF) in Ok (h, rest).

Definition v2HeaderLen : nat := 16.

(** [binary.BigEndian.Uint16] of the two bytes at [i]. *)
Definition be16 (s : bytes) (i : nat) : Z :=
  match drop i s with
  | hi :: lo :: _ => Z.lor (Z.shiftl (byteZ hi) 8) (byteZ lo)
  | _ => 0
  end.

Definition byteAt (s : bytes) (i : nat) : Z := match s !! i with Some c => byteZ c | None => 0 end.

(** The address block of a PROXY command, by family. *)
Definition parseV2 (fam : Z) (addr : bytes) : outcome proxyErr Header :=
  if fam =? 0x10 then
    if Nat.ltb (length addr) 12 then Err v2Short4
    else Ok (mkHeader false
      (Some (mkAddrPort (Addr4 (take 4 addr)) (be16 addr 8)))
      (Some (mkAddrPort (Addr4 (take 4 (drop 4 addr))) (be16 addr 10))))
  else if fam =? 0x20 then
    if Nat.ltb (length addr) 36 then Err v2Short6
    else Ok (mkHeader false
      (Some (mkAddrPort (Unmap (Addr6 (take 16 addr) [])) (be16 addr 32)))
      (Some (mkAddrPort (Unmap (Addr6 (take 16 (drop 16 addr)) [])) (be16 addr 34))))
  else if (fam =? 0x00) || (fam =? 0x30) then Ok localHeader
  else Err v2UnknownFamily.

Definition readV2 (br : bytes) : outcome proxyErr (Header * bytes) :=
  if Nat.ltb (length br) v2HeaderLen then Err v2Read
  else
    let hdr := take v2HeaderLen br in
    let br := drop v2HeaderLen br in
    let verCmd := byteAt hdr 12 in
    if negb (Z.land verCmd 0xF0 =? 0x20) then Err v2BadVersion
    else
      let cmd := Z.land verCmd 0x0F in
      if negb (cmd =? 0x00) && negb (cmd =? 0x01) then Err v2BadCommand
      else
        let addrLen := Z.to_nat (be16 hdr 14) in
        if Nat.ltb (length br) addrLen then Err v2ReadBlock
        else
          let addr := take addrLen br in
          let br := drop addrLen br in
          if cmd =? 0x00 then Ok (localHeader, br)
          else let! h := parseV2 (Z.land (byteAt hdr 13) 0xF0) addr in Ok (h, br).

(** [Peek] fails when the stream ends first. *)
Definition ReadHeader (br : bytes) : outcome proxyErr (Header * bytes) :=
  if bool_decide (take (length v2Signature) br = v2Signature) then readV2 br
  else if Nat.ltb (length br) (length v1Prefix) then Err shortHeader
  else if negb (bool_decide (take (length v1Prefix) br = v1Prefix)) then Err notProxy
  else readV1 br.

Definition SourceTCPAddr (h : Header) : option AddrPort := if h_local h then None else h_source h.

(** ** The listener *)

(** [netip.Prefix.Contains] is the membership test of a trusted prefix. *)
Definition inAny (addr : Addr) (prefixes : list (Addr -> bool)) : bool := existsb (fun p => p addr) prefixes.

(** A connection as [Accept] gets it: the socket peer, if it has a valid
    address, and the bytes that will arrive. *)
Record rawConn := mkRaw { rc_peer : option AddrPort; rc_stream : bytes }.

(** Whether [Accept] hands the connection out. *)
Definition accepts (trust : list (Addr -> bool)) (c : rawConn) : bool :=
  match rc_peer c with Some p => inAny (Unmap (ap_addr p)) trust | None => false end.

(** What the connection reports and delivers after its handshake: the remote
    address and the bytes that [Read] returns, or the error it fails with. *)
Definition handshake (c : rawConn) : option AddrPort * outcome proxyErr bytes :=
  match ReadHeader (rc_stream c) with
  | Ok (h, rest) =>
    (if negb (h_local h) then match SourceTCPAddr h with Some tcp => Some tcp | None => rc_peer c end else rc_peer c, Ok rest)
  | Err e => (rc_peer c, Err e)
  | NoFuel => (rc_peer c, NoFuel)
  end.

(** The two together: [None] for a connection that is closed unread. *)
Definition serve (trust : list (Addr -> bool)) (c : rawConn) : option (option AddrPort * outcome proxyErr bytes) :=
  if accepts trust c then Some (handshake c) else None.

(** ** Framing *)

Lemma readV1Line_spec n br line rest :
  readV1Line n br = Ok (line, rest) ->
  br = line ++ rest /\ (length line <= n)%nat /\ forall rest', readV1Line n (line ++ rest') = Ok (line, rest').
Proof.
  revert br line. induction n as [|n IH]; intros br line; cbn [readV1Line]; [done|].
  destruct br as [|b br]; [done|]. destruct (byteZ b =? 10) eqn:E.
  - intros [= <- <-]. split_and!; [done|cbn; lia|]. intros rest'. cbn [app]. by rewrite E.
  - destruct (readV1Line n br) as [[l r]|e|] eqn:El; cbn [obind]; try done. intros [= <- <-].
    destruct (IH _ _ El) as (-> & Hn & Hr). split_and!; [done|cbn; lia|]. intros rest'. cbn [app]. by rewrite E, Hr.
Qed.

Lemma be16_range s i : 0 <= be16 s i < 2 ^ 16.
Proof.
  unfold be16. destruct (drop i s) as [|hi [|lo r]]; try lia.
  pose proof (byteZ_range hi). pose proof (byteZ_range lo).
  assert (0 <= Z.lor (Z.shiftl (byteZ hi) 8) (byteZ lo)) by (apply Z.lor_nonneg; rewrite Z.shiftl_mul_pow2; lia).
  split; [done|]. destruct (Z.eq_dec (Z.lor (Z.shiftl (byteZ hi) 8) (byteZ lo)) 0) as [->|Hnz]; [lia|].
  apply Z.log2_lt_pow2; [lia|]. rewrite Z.log2_lor by (rewrite ?Z.shiftl_mul_pow2; lia).
  apply Z.max_lub_lt.
  - destruct (Z.eq_dec (byteZ hi) 0) as [->|]; [done|]. rewrite Z.log2_shiftl by lia.
    assert (Z.log2 (byteZ hi) < 8); [|lia]. apply Z.log2_lt_pow2; lia.
  - destruct (Z.eq_dec (byteZ lo) 0) as [->|]; [done|]. assert (Z.log2 (byteZ lo) < 8); [|lia]. apply Z.log2_lt_pow2; lia.
Qed.

Lemma readV2_frame br h rest :
  readV2 br = Ok (h, rest) ->
  exists pre, br = pre ++ rest /\ 16 <= Z.of_nat (length pre) <= 16 + 65535 /\
    forall rest', readV2 (pre ++ rest') = Ok (h, rest').
Proof.
  unfold readV2, v2HeaderLen. destruct (Nat.ltb_spec (length br) 16) as [|Hl]; [done|].
  rewrite <- (take_drop 16 br). set (hdr := take 16 br). set (b := drop 16 br).
  assert (length hdr = 16%nat) as Hh by (unfold hdr; rewrite length_take; lia).
  rewrite <- Hh. rewrite take_app_length, drop_app_length. clearbody hdr b. clear Hl br.
  destruct (negb (Z.land (byteAt hdr 12) 0xF0 =? 0x20)) eqn:E1; [done|].
  destruct (negb (Z.land (byteAt hdr 12) 0x0F =? 0x00) && negb (Z.land (byteAt hdr 12) 0x0F =? 0x01)) eqn:E2; [done|].
  set (n := Z.to_nat (be16 hdr 14)). destruct (Nat.ltb_spec (length b) n) as [|Hn]; [done|]. intros H.
  pose proof (be16_range hdr 14) as Hr.
  exists (hdr ++ take n b).
  assert (rest = drop n b /\ (if Z.land (byteAt hdr 12) 0x0F =? 0x00 then h = localHeader
    else parseV2 (Z.land (byteAt hdr 13) 0xF0) (take n b) = Ok h)) as [-> Hp].
  { destruct (Z.land (byteAt hdr 12) 0x0F =? 0x00); [by injection H as <- <-|]. inv_obind. by simplify_eq. }
  split_and!.
  - by rewrite <- app_assoc, take_drop.
  - rewrite length_app, length_take. lia.
  - rewrite length_app, length_take. lia.
  - intros rest'. rewrite <- app_assoc.
    destruct (Nat.ltb_spec (length (hdr ++ take n b ++ rest')) (length hdr)) as [Hlt|_]; [rewrite length_app in Hlt; lia|].
    rewrite take_app_length, drop_app_length, E1, E2. fold n.
    assert (length (take n b) = n) as Ht by (rewrite length_take; lia).
    destruct (Nat.ltb_spec (length (take n b ++ rest')) n) as [Hlt|_]; [rewrite length_app in Hlt; lia|].
    rewrite (take_app_length' _ _ n), (drop_app_length' _ _ n) by done.
    destruct (Z.land (byteAt hdr 12) 0x0F =? 0x00); [by subst h|]. by rewrite Hp.
Qed.
(** A line that parses begins with the prefix. *)
Lemma parseV1_prefix line h : parseV1 line = Ok h -> exists u, line = v1Prefix ++ u.
Proof.
  unfold parseV1. pose proof (Join_SplitByte line " ") as Hj. destruct (SplitByte line " ") as [|f0 [|f1 more]]; try done.
  case_bool_decide as E; cbn [negb]; [|done]. intros _. rewrite Join_cons, E in Hj by done. eauto.
Qed.

Lemma TrimSuffix_prefix s suf u : TrimSuffix s suf = u -> exists t, s = u ++ t.
Proof.
  unfold TrimSuffix. destruct (HasSuffix s suf); intros <-; [|exists []; by rewrite app_nil_r].
  exists (drop (length s - length suf) s). by rewrite take_drop.
Qed.

Lemma readV1_frame br h rest :
  readV1 br = Ok (h, rest) ->
  exists u, br = (v1Prefix ++ u) ++ rest /\ (length (v1Prefix ++ u) <= maxV1Line)%nat /\
    forall rest', readV1 ((v1Prefix ++ u) ++ rest') = Ok (h, rest').
Proof.
  unfold readV1. destruct (readV1Line maxV1Line br) as [[line r]|e|] eqn:El; cbn [obind]; try done.
  destruct (negb (HasSuffix line CRLF)) eqn:Es; [done|]. destruct (parseV1 (TrimSuffix line CRLF)) as [h'|e|] eqn:Ep; try done.
  cbn [obind]. intros [= -> ->]. destruct (readV1Line_spec _ _ _ _ El) as (-> & Hn & Hr).
  destruct (parseV1_prefix _ _ Ep) as [u Hu]. destruct (TrimSuffix_prefix _ _ _ Hu) as [t Ht].
  exists (u ++ t). rewrite app_assoc, <- Ht. split_and!; [done|done|]. intros rest'.
  rewrite Hr. cbn [obind]. by rewrite Es, Ep.
Qed.

Lemma ReadHeader_v1 u rest : ReadHeader ((v1Prefix ++ u) ++ rest) = readV1 ((v1Prefix ++ u) ++ rest).
Proof. unfold ReadHeader. by rewrite <- app_assoc. Qed.

Lemma ReadHeader_v2 pre rest :
  take (length v2Signature) pre = v2Signature -> ReadHeader (pre ++ rest) = readV2 (pre ++ rest).
Proof.
  intros E. unfold ReadHeader. rewrite bool_decide_eq_true_2; [done|].
  assert (length v2Signature <= length pre)%nat by (rewrite <- E at 1; rewrite length_take; lia).
  by rewrite take_app_le.
Qed.

(** The header is delimited exactly: a header that is accepted is a prefix
    of the stream that begins with the v1 prefix (and has at most [maxV1Line]
    bytes) or with the v2 signature; the application sees the bytes after it,
    none lost and none invented, and what follows has no influence on the header
    that was read. *)
Lemma ReadHeader_frame s h rest :
  ReadHeader s = Ok (h, rest) ->
  exists pre, s = pre ++ rest /\
    ((exists u, pre = v1Prefix ++ u /\ (length pre <= maxV1Line)%nat) \/
     (exists u, pre = v2Signature ++ u /\ Z.of_nat (length pre) <= 16 + 65535)) /\
    forall rest', ReadHeader (pre ++ rest') = Ok (h, rest').
Proof.
  unfold ReadHeader at 1. case_bool_decide as E.
  - intros H. destruct (readV2_frame _ _ _ H) as (pre & -> & Hl & Hr). exists pre. split; [done|].
    assert (take (length v2Signature) pre = v2Signature) as Ep
      by (rewrite take_app_le in E; [done|cbn; lia]).
    pose proof (take_drop (length v2Signature) pre) as Htd. rewrite Ep in Htd.
    split; [right; exists (drop (length v2Signature) pre); split; [done|lia]|].
    intros rest'. rewrite ReadHeader_v2 by done. apply Hr.
  - destruct (Nat.ltb _ _); [done|]. case_bool_decide as E2; cbn [negb]; [|done].
    intros (u & -> & Hl & Hr)%readV1_frame. exists (v1Prefix ++ u). split_and!; [done|left; by exists u|].
    intros rest'. by rewrite ReadHeader_v1.
Qed.

(** Reading always ends in a header or an error. *)
Lemma obind_settles {A B} (m : outcome proxyErr A) (k : A -> outcome proxyErr B) :
  m <> NoFuel -> (forall a, k a <> NoFuel) -> obind m k <> NoFuel.
Proof. intros Hm Hk. by destruct m; cbn. Qed.

Lemma readV1Line_settles n b : readV1Line n b <> NoFuel.
Proof.
  revert b. induction n as [|n IH]; intros b; cbn [readV1Line]; [done|]. destruct b as [|x b]; [done|].
  destruct (byteZ x =? 10); [done|]. apply obind_settles; [done|by intros []].
Qed.

Lemma parseV1AddrPort_settles ip port v4 : parseV1AddrPort ip port v4 <> NoFuel.
Proof. unfold parseV1AddrPort. by repeat case_match. Qed.

Lemma parseV1_settles line : parseV1 line <> NoFuel.
Proof.
  unfold parseV1. repeat (case_match; try done).
  apply obind_settles; [apply parseV1AddrPort_settles|]. intros src.
  apply obind_settles; [apply parseV1AddrPort_settles|done].
Qed.

Lemma ReadHeader_settles s : ReadHeader s <> NoFuel.
Proof.
  unfold ReadHeader, readV2, readV1. repeat (case_match; try done).
  - apply obind_settles; [|done]. unfold parseV2. by repeat case_match.
  - apply obind_settles; [apply readV1Line_settles|]. intros [line rest]. case_match; [done|].
    apply obind_settles; [apply parseV1_settles|done].
Qed.

(** C30. The client address cannot be forged: a connection whose socket peer is
    not in the trusted prefixes is closed unread, and one that is handed out cannot
    be downgraded. Without a valid header it delivers no byte and keeps the socket
    peer's address; with one it delivers exactly the bytes after the header, from
    the announced source, or from the socket peer if the header announces none. *)
Theorem proxy_no_forgery trust c :
  match serve trust c with
  | None => forall p, rc_peer c = Some p -> inAny (Unmap (ap_addr p)) trust = false
  | Some (remote, r) =>
    (exists p, rc_peer c = Some p /\ inAny (Unmap (ap_addr p)) trust = true) /\
    ((exists e, r = Err e /\ ReadHeader (rc_stream c) = Err e /\ remote = rc_peer c) \/
     (exists pre h rest, r = Ok rest /\ rc_stream c = pre ++ rest /\ ReadHeader pre = Ok (h, []) /\
        remote = match SourceTCPAddr h with Some a => Some a | None => rc_peer c end))
  end.
Proof.
  unfold serve, accepts, handshake. destruct (rc_peer c) as [p|]; [|done].
  destruct (inAny (Unmap (ap_addr p)) trust) eqn:Ht; [|by intros ? [= <-]].
  destruct (ReadHeader (rc_stream c)) as [[h rest]|e|] eqn:E.
  - split; [by eauto|right]. destruct (ReadHeader_frame _ _ _ E) as (pre & Hs & _ & Hr). exists pre, h, rest.
    split_and!; [done|done|by specialize (Hr []); rewrite app_nil_r in Hr|].
    unfold SourceTCPAddr. by destruct (h_local h).
  - split; [by eauto|left]. by exists e.
  - by apply ReadHeader_settles in E.
Qed.

(** ** Round trips *)

(** What a load balancer sends. *)
Definition put16 (z : Z) : bytes := [Zbyte (z / 256); Zbyte z].

Definition encodeV2 (six : bool) (src dst : bytes) (sport dport : Z) (tlvs : bytes) : bytes :=
  v2Signature ++ [Zbyte 0x21; Zbyte (if six then 0x21 else 0x11)] ++
  put16 (Z.of_nat (length src + length dst + 4 + length tlvs)) ++
  src ++ dst ++ put16 sport ++ put16 dport ++ tlvs.

Definition dotted (b : bytes) : bytes := Join (map (fun c => Itoa (byteZ c)) b) (go ".").

Definition encodeV1 (src dst : bytes) (sport dport : Z) : bytes :=
  go "PROXY TCP4 " ++ dotted src ++ go " " ++ dotted dst ++ go " " ++ Itoa sport ++ go " " ++ Itoa dport ++ CRLF.

Definition port_ok (z : Z) : Prop := 0 <= z < 2 ^ 16.

Lemma lor_byte a b : 0 <= a -> 0 <= b < 256 -> Z.lor (Z.shiftl a 8) b = a * 256 + b.
Proof.
  intros Ha Hb. assert (Z.land (Z.shiftl a 8) b = 0) as H0.
  { apply Z.bits_inj'. intros n Hn. rewrite Z.land_spec, Z.bits_0. destruct (Z.lt_ge_cases n 8).
    - by rewrite Z.shiftl_spec_low.
    - assert (Z.testbit b n = false) as ->; [|apply andb_false_r].
      destruct (Z.eq_dec b 0) as [->|]; [apply Z.bits_0|]. apply Z.bits_above_log2; [lia|].
      assert (Z.log2 b < 8); [|lia]. apply Z.log2_lt_pow2; lia. }
  pose proof (Z.add_lor_land (Z.shiftl a 8) b) as E. rewrite H0, Z.shiftl_mul_pow2 in E by lia. rewrite Z.shiftl_mul_pow2 by lia. lia.
Qed.

Lemma be16_put16 pre z r : port_ok z -> be16 (pre ++ put16 z ++ r) (length pre) = z.
Proof.
  unfold port_ok. intros Hz. unfold be16, put16. rewrite drop_app_length. cbn [app].
  rewrite byteZ_Zbyte by (split; [apply Z.div_pos; lia|apply Z.div_lt_upper_bound; lia]).
  assert (byteZ (Zbyte z) = z mod 256) as ->.
  { rewrite <- (byteZ_Zbyte (z mod 256)) by (apply Z.mod_pos_bound; lia). f_equal. unfold Zbyte. by rewrite Z.mod_mod. }
  rewrite lor_byte; [|apply Z.div_pos; lia|apply Z.mod_pos_bound; lia].
  pose proof (Z.div_mod z 256 ltac:(lia)). lia.
Qed.

Definition addr_of (six : bool) (b : bytes) : Addr := if six then Unmap (Addr6 b []) else Addr4 b.

Lemma parseV2_encoded (six : bool) src dst sport dport tlvs :
  length src = (if six then 16 else 4)%nat -> length dst = (if six then 16 else 4)%nat -> port_ok sport -> port_ok dport ->
  parseV2 (if six then 0x20 else 0x10) (src ++ dst ++ put16 sport ++ put16 dport ++ tlvs)
  = Ok (mkHeader false (Some (mkAddrPort (addr_of six src) sport)) (Some (mkAddrPort (addr_of six dst) dport))).
Proof.
  intros Hs Hd Hsp Hdp. set (block := src ++ dst ++ put16 sport ++ put16 dport ++ tlvs).
  set (w := (if six then 16 else 4)%nat) in *.
  assert (take w block = src) as E1 by (by apply take_app_length').
  assert (take w (drop w block) = dst) as E2.
  { unfold block. rewrite drop_app_length' by done. by apply take_app_length'. }
  assert (be16 block (w + w) = sport) as E3.
  { rewrite <- Hs at 1. rewrite <- Hd, <- length_app. unfold block. rewrite app_assoc. by apply be16_put16. }
  assert (be16 block (w + w + 2) = dport) as E4.
  { replace (w + w + 2)%nat with (length (src ++ dst ++ put16 sport)) by (rewrite !length_app, Hs, Hd; cbn; lia).
    unfold block. replace (src ++ dst ++ put16 sport ++ put16 dport ++ tlvs)
      with ((src ++ dst ++ put16 sport) ++ put16 dport ++ tlvs) by (by rewrite <- !app_assoc). by apply be16_put16. }
  assert (length block = w + w + 4 + length tlvs)%nat as Hl by (unfold block; rewrite !length_app, Hs, Hd; cbn [put16 length]; lia).
  unfold parseV2, addr_of. destruct six; cbn [w] in *; cbn [Z.eqb Pos.eqb].
  - destruct (Nat.ltb_spec (length block) 36); [unfold w in *; lia|]. unfold w in *. cbn [Nat.add] in *. by rewrite E1, E2, E3, E4.
  - destruct (Nat.ltb_spec (length block) 12); [unfold w in *; lia|]. unfold w in *. cbn [Nat.add] in *. by rewrite E1, E2, E3, E4.
Qed.

(** The binary header decodes to what was encoded, for both families and
    whatever TLVs and application bytes follow (an IPv4-mapped address as its
    IPv4 form). *)
Theorem v2_roundtrip (six : bool) src dst sport dport tlvs rest :
  length src = (if six then 16 else 4)%nat -> length dst = (if six then 16 else 4)%nat ->
  port_ok sport -> port_ok dport -> port_ok (Z.of_nat (length src + length dst + 4 + length tlvs)) ->
  ReadHeader (encodeV2 six src dst sport dport tlvs ++ rest)
  = Ok (mkHeader false (Some (mkAddrPort (addr_of six src) sport)) (Some (mkAddrPort (addr_of six dst) dport)), rest).
Proof.
  intros Hs Hd Hsp Hdp Hlen. unfold encodeV2. set (block := src ++ dst ++ put16 sport ++ put16 dport ++ tlvs).
  set (n := (length src + length dst + 4 + length tlvs)%nat) in *.
  set (hdr := v2Signature ++ [Zbyte 0x21; Zbyte (if six then 0x21 else 0x11)] ++ put16 (Z.of_nat n)).
  assert (length block = n) as Hb by (unfold block, n; rewrite !length_app; cbn [put16 length]; lia).
  replace ((v2Signature ++ _) ++ rest) with (hdr ++ block ++ rest) by (unfold hdr; by rewrite <- !app_assoc).
  rewrite ReadHeader_v2 by done. unfold readV2.
  assert (length hdr = v2HeaderLen) as Hh by done.
  destruct (Nat.ltb_spec (length (hdr ++ block ++ rest)) v2HeaderLen) as [Hlt|_]; [rewrite length_app, Hh in Hlt; lia|].
  rewrite (take_app_length' _ _ v2HeaderLen), (drop_app_length' _ _ v2HeaderLen) by done.
  assert (byteAt hdr 12 = 0x21) as -> by done. assert (byteAt hdr 13 = if six then 0x21 else 0x11) as -> by (by destruct six).
  assert (be16 hdr 14 = Z.of_nat n) as ->.
  { unfold hdr. rewrite app_assoc. rewrite <- (app_nil_r (put16 _)).
    by apply (be16_put16 (v2Signature ++ [Zbyte 0x21; Zbyte (if six then 0x21 else 0x11)]) (Z.of_nat n) []). }
  cbn [Z.land Pos.land Z.eqb Pos.eqb negb andb Pos.Nsucc_double Pos.Ndouble Z.of_N].
  rewrite Nat2Z.id.
  destruct (Nat.ltb_spec (length (block ++ rest)) n) as [Hlt|_]; [rewrite length_app in Hlt; lia|].
  rewrite (take_app_length' _ _ n), (drop_app_length' _ _ n) by done.
  assert (Z.land (if six then 33 else 17) 240 = if six then 0x20 else 0x10) as -> by (by destruct six).
  unfold block. rewrite parseV2_encoded by done. done.
Qed.
(** Decimal octets and ports, checked one by one. *)
Lemma octet_loop c octets s :
  exists n, ipv4_loop (Itoa (byteZ c) ++ s) octets 0 0 = ipv4_loop s octets (byteZ c) (S n).
Proof. destruct c as [[] [] [] [] [] [] [] []]; eexists; reflexivity. Qed.

Lemma octet_digits c : Forall (fun x => isDigit x = true) (Itoa (byteZ c)) /\ (1 <= length (Itoa (byteZ c)) <= 3)%nat.
Proof. pose proof (byteZ_range c). apply (Itoa_digits 3); lia. Qed.

Lemma port_digits z :
  port_ok z -> ParseUint 16 (Itoa z) = Some z /\ Forall (fun c => isDigit c = true) (Itoa z) /\ (1 <= length (Itoa z) <= 5)%nat.
Proof.
  unfold port_ok. intros Hz. destruct (Itoa_digits 5 z) as (Hp & Hd & Hl); [lia|lia|]. split_and!; [|done|lia..].
  unfold ParseUint. rewrite Hp. destruct (Z.ltb_spec z (2 ^ 16)); [done|lia].
Qed.

Lemma isDigit_range c : isDigit c = true -> 0x30 <= byteZ c <= 0x39.
Proof. unfold isDigit. intros [H1 H2]%andb_true_iff. lia. Qed.

(** A dotted quad. *)
Lemma dotted_spec b : length b = 4%nat ->
  exists c0 c1 c2 c3, b = [c0; c1; c2; c3] /\
    dotted b = Itoa (byteZ c0) ++ go "." ++ Itoa (byteZ c1) ++ go "." ++ Itoa (byteZ c2) ++ go "." ++ Itoa (byteZ c3).
Proof. destruct b as [|c0 [|c1 [|c2 [|c3 [|]]]]]; try done. intros _. by exists c0, c1, c2, c3. Qed.

Lemma dot_loop s octets c n :
  (length octets < 3)%nat -> s <> [] ->
  ipv4_loop (go "." ++ s) octets (byteZ c) (S n) = ipv4_loop s (octets ++ [c]) 0 0.
Proof.
  intros Hl Hs. cbn [go app String.list_ascii_of_string ipv4_loop]. change (isDigit ".") with false.
  change ((".") =b ".")%byte with true. cbn [Nat.eqb orb]. rewrite bool_decide_eq_false_2 by done.
  rewrite (proj2 (Nat.eqb_neq (length octets) 3)) by lia. by rewrite Zbyte_byteZ.
Qed.

Lemma ParseAddr_dotted b : length b = 4%nat -> ParseAddr parseIPv6 (dotted b) = Some (Addr4 b).
Proof.
  intros (c0 & c1 & c2 & c3 & -> & E)%dotted_spec. rewrite E.
  destruct (octet_digits c0) as [Hd0 Hl0], (octet_digits c1) as [_ Hl1], (octet_digits c2) as [_ Hl2], (octet_digits c3) as [_ Hl3].
  assert (forall c s, (1 <= length (Itoa (byteZ c)))%nat -> Itoa (byteZ c) ++ s <> []) as Hne
    by (intros c s Hc H; apply app_nil in H as [H _]; rewrite H in Hc; cbn in Hc; lia).
  set (t3 := Itoa (byteZ c3)). set (t2 := Itoa (byteZ c2) ++ go "." ++ t3). set (t1 := Itoa (byteZ c1) ++ go "." ++ t2).
  assert (t3 <> []) as N3 by (intros E3; apply (Hne c3 [] ltac:(lia)); by rewrite app_nil_r).
  assert (t2 <> []) as N2 by (apply Hne; lia). assert (t1 <> []) as N1 by (apply Hne; lia).
  assert (forall d, Forall (fun c => isDigit c = true) d -> IndexAny (d ++ go "." ++ t1) (go ".:%") = Some (length d)) as Hidx.
  { induction 1 as [|c d Hc _ IH]; [done|]. cbn [app IndexAny length] in *. rewrite IH. apply isDigit_range in Hc.
    assert (existsb (Ascii.eqb c) (go ".:%") = false) as ->; [|done].
    apply not_true_is_false. intros (x & Hx & ->%Ascii.eqb_eq)%existsb_exists. cbn in Hx.
    destruct Hx as [<-|[<-|[<-|[]]]]; vm_compute in Hc; destruct Hc as [H1 H2]; by (apply H1 || apply H2). }
  unfold ParseAddr. rewrite Hidx by done. change (go "." ++ t1) with ("."%char :: t1) at 1.
  rewrite list_lookup_middle by done. change ((".") =b ".")%byte with true. cbn iota.
  unfold parseIPv4. pose proof (Hne c0 (go "." ++ t1) ltac:(lia)).
  destruct (Itoa (byteZ c0) ++ go "." ++ t1) eqn:Et; [done|]. rewrite <- Et. clear Et.
  destruct (octet_loop c0 [] (go "." ++ t1)) as [n0 ->]. rewrite dot_loop by (cbn; lia || done).
  destruct (octet_loop c1 [c0] (go "." ++ t2)) as [n1 E1]. unfold t1. cbn [app] in *. rewrite E1, dot_loop by (cbn; lia || done).
  destruct (octet_loop c2 [c0; c1] (go "." ++ t3)) as [n2 E2]. unfold t2. cbn [app] in *. rewrite E2, dot_loop by (cbn; lia || done).
  destruct (octet_loop c3 [c0; c1; c2] []) as [n3 E3]. unfold t3. rewrite app_nil_r in E3. cbn [app] in *. rewrite E3.
  cbn. by rewrite Zbyte_byteZ.
Qed.

Lemma digits_no c d : isDigit c = false -> Forall (fun c => isDigit c = true) d -> c ∉ d.
Proof. intros Hc Hd Hin. rewrite list.Forall_forall in Hd. apply Hd in Hin. congruence. Qed.

(** No field of the line has a space or a newline, and all are short. *)
Lemma dotted_text b c : length b = 4%nat -> isDigit c = false -> c <> "."%char -> (c ∉ dotted b) /\ (length (dotted b) <= 15)%nat.
Proof.
  intros (c0 & c1 & c2 & c3 & -> & E)%dotted_spec Hc Hdot. rewrite E. clear E.
  destruct (octet_digits c0) as [H0 L0], (octet_digits c1) as [H1 L1], (octet_digits c2) as [H2 L2], (octet_digits c3) as [H3 L3].
  split; [|rewrite !length_app; cbn [go String.list_ascii_of_string length]; lia].
  assert (c ∉ go ".") as Hd by (cbn; by intros ?%list_elem_of_singleton).
  rewrite !not_elem_of_app. split_and!; try done; by apply digits_no.
Qed.

Lemma readV1Line_line n u rest :
  Zbyte 10 ∉ u -> (length u < n)%nat -> readV1Line n (u ++ Zbyte 10 :: rest) = Ok (u ++ [Zbyte 10], rest).
Proof.
  revert u. induction n as [|n IH]; intros u Hu Hn; [lia|]. destruct u as [|c u]; [done|].
  apply not_elem_of_cons in Hu as [Hc Hu]. cbn [app readV1Line]. cbn [length] in Hn.
  destruct (Z.eqb_spec (byteZ c) 10) as [E|_]; [exfalso; apply Hc; rewrite <- (Zbyte_byteZ c); by rewrite E|].
  by rewrite IH by (done || lia).
Qed.

Lemma parseV1AddrPort_text b port :
  length b = 4%nat -> port_ok port -> parseV1AddrPort (dotted b) (Itoa port) true = Ok (mkAddrPort (Addr4 b) port).
Proof.
  intros Hb Hp. unfold parseV1AddrPort. rewrite ParseAddr_dotted by done. cbn [Is4 negb andb].
  destruct (port_digits port Hp) as (Hu & Hd & Hl). destruct (Itoa port) as [|c d] eqn:E; [cbn in Hl; lia|].
  rewrite Hu. inversion Hd as [|? ? Hc _]; subst. apply isDigit_range in Hc.
  assert ((0x31 <=? byteZ c) && (byteZ c <=? 0x39) = true \/ c = "0"%char) as [->| ->].
  { destruct (Z.eq_dec (byteZ c) 0x30) as [H0|H0]; [right; rewrite <- (Zbyte_byteZ c); by rewrite H0|left].
    apply andb_true_iff. split; apply Z.leb_le; lia. }
  - by rewrite andb_false_r.
  - done.
Qed.

(** The text line without its terminator. *)
Definition encodeLine (src dst : bytes) (sport dport : Z) : bytes :=
  go "PROXY TCP4 " ++ dotted src ++ go " " ++ dotted dst ++ go " " ++ Itoa sport ++ go " " ++ Itoa dport.

Lemma encodeLine_text src dst sport dport :
  length src = 4%nat -> length dst = 4%nat -> port_ok sport -> port_ok dport ->
  (Zbyte 10 ∉ encodeLine src dst sport dport) /\ (length (encodeLine src dst sport dport) <= 60)%nat.
Proof.
  intros Hs Hd Hsp Hdp. destruct (port_digits sport Hsp) as (_ & D1 & L1), (port_digits dport Hdp) as (_ & D2 & L2).
  destruct (dotted_text src (Zbyte 10) Hs) as [N1 M1], (dotted_text dst (Zbyte 10) Hd) as [N2 M2]; try done.
  unfold encodeLine. split; [|rewrite !length_app; cbn [go String.list_ascii_of_string length]; lia].
  rewrite !not_elem_of_app. split_and!; try done; try (by apply digits_no);
    by apply (bool_decide_unpack _).
Qed.

Lemma encodeLine_parse src dst sport dport :
  length src = 4%nat -> length dst = 4%nat -> port_ok sport -> port_ok dport ->
  parseV1 (encodeLine src dst sport dport)
  = Ok (mkHeader false (Some (mkAddrPort (Addr4 src) sport)) (Some (mkAddrPort (Addr4 dst) dport))).
Proof.
  intros Hs Hd Hsp Hdp. destruct (port_digits sport Hsp) as (_ & D1 & _), (port_digits dport Hdp) as (_ & D2 & _).
  destruct (dotted_text src " " Hs) as [N1 _], (dotted_text dst " " Hd) as [N2 _]; try done.
  assert (SplitByte (encodeLine src dst sport dport) " "
    = [v1Prefix; go "TCP4"; dotted src; dotted dst; Itoa sport; Itoa dport]) as E.
  { unfold encodeLine.
    change (go "PROXY TCP4 " ++ ?t) with (v1Prefix ++ " "%char :: go "TCP4" ++ " "%char :: t).
    change (go " ") with [" "%char]. cbn [app].
    rewrite !SplitByte_sep. rewrite !(SplitByte_single _ " ") by (done || (by apply digits_no) || (apply (bool_decide_unpack _); vm_compute; exact I)). done. }
  unfold parseV1. rewrite E. rewrite bool_decide_eq_true_2 by done. cbn [negb].
  rewrite bool_decide_eq_false_2 by done. rewrite (bool_decide_eq_true_2 (go "TCP4" = go "TCP4")) by done. cbn [orb].
  by rewrite !parseV1AddrPort_text.
Qed.

(** The text header decodes to what was encoded: for any two IPv4 addresses
    and ports the standard v1 line is read back, and the bytes after it are left. *)
Theorem v1_roundtrip src dst sport dport rest :
  length src = 4%nat -> length dst = 4%nat -> port_ok sport -> port_ok dport ->
  ReadHeader (encodeV1 src dst sport dport ++ rest)
  = Ok (mkHeader false (Some (mkAddrPort (Addr4 src) sport)) (Some (mkAddrPort (Addr4 dst) dport)), rest).
Proof.
  intros Hs Hd Hsp Hdp. set (line := encodeLine src dst sport dport).
  replace (encodeV1 src dst sport dport ++ rest) with ((line ++ [Zbyte 13]) ++ Zbyte 10 :: rest)
    by (unfold encodeV1, line, encodeLine, CRLF; by rewrite <- !app_assoc).
  destruct (encodeLine_text src dst sport dport Hs Hd Hsp Hdp) as [Hnl Hlen]. fold line in Hnl, Hlen.
  assert (exists u, line = v1Prefix ++ u) as [u Hu] by (unfold line, encodeLine; by eexists).
  assert (ReadHeader ((line ++ [Zbyte 13]) ++ Zbyte 10 :: rest) = readV1 ((line ++ [Zbyte 13]) ++ Zbyte 10 :: rest)) as ->
    by (rewrite Hu, <- !app_assoc, (app_assoc v1Prefix); apply ReadHeader_v1).
  unfold readV1. rewrite readV1Line_line.
  2: { rewrite not_elem_of_app. split; [done|]. by intros ?%list_elem_of_singleton. }
  2: { rewrite length_app. cbn [length]. unfold maxV1Line. lia. }
  cbn [obind]. rewrite <- app_assoc. change ([Zbyte 13] ++ [Zbyte 10]) with CRLF.
  assert (HasSuffix (line ++ CRLF) CRLF = true) as Hsuf by (apply HasSuffix_spec; by exists line).
  assert (TrimSuffix (line ++ CRLF) CRLF = line) as ->.
  { unfold TrimSuffix. rewrite Hsuf, length_app, Nat.add_sub. by rewrite take_app_length. }
  rewrite Hsuf. cbn [negb]. unfold line. by rewrite encodeLine_parse.
Qed.

End Proxy.

(** ** Witnesses *)

Definition noIPv6 (s : bytes) : option Addr := None.

Lemma ReadHeader_frame_witness :
  ReadHeader noIPv6 (go "PROXY UNKNOWN" ++ CRLF ++ go "GET /") = Ok (localHeader, go "GET /") /\
  exists pre, go "PROXY UNKNOWN" ++ CRLF ++ go "GET /" = pre ++ go "GET /".
Proof.
  assert (ReadHeader noIPv6 (go "PROXY UNKNOWN" ++ CRLF ++ go "GET /") = Ok (localHeader, go "GET /")) as H by reflexivity.
  split; [exact H|]. destruct (ReadHeader_frame noIPv6 _ _ _ H) as (pre & Hp & _). exists pre. exact Hp.
Defined.

Lemma v2_roundtrip_witness :
  ReadHeader noIPv6 (encodeV2 true (mappedPrefix ++ [Zbyte 1; Zbyte 2; Zbyte 3; Zbyte 4]) (replicate 16 (Zbyte 9)) 1234 443 (go "tlv") ++ go "x")
  = Ok (mkHeader false (Some (mkAddrPort (Addr4 [Zbyte 1; Zbyte 2; Zbyte 3; Zbyte 4]) 1234))
      (Some (mkAddrPort (Addr6 (replicate 16 (Zbyte 9)) []) 443)), go "x").
Proof.
  apply (v2_roundtrip noIPv6 true (mappedPrefix ++ [Zbyte 1; Zbyte 2; Zbyte 3; Zbyte 4]) (replicate 16 (Zbyte 9)) 1234 443 (go "tlv"));
    try reflexivity; unfold port_ok; cbn; lia.
Defined.

Lemma v1_roundtrip_witness :
  ReadHeader noIPv6 (encodeV1 [Zbyte 10; Zbyte 0; Zbyte 0; Zbyte 255] [Zbyte 1; Zbyte 2; Zbyte 3; Zbyte 4] 65535 80 ++ go "x")
  = Ok (mkHeader false (Some (mkAddrPort (Addr4 [Zbyte 10; Zbyte 0; Zbyte 0; Zbyte 255]) 65535))
      (Some (mkAddrPort (Addr4 [Zbyte 1; Zbyte 2; Zbyte 3; Zbyte 4]) 80)), go "x").
Proof. apply v1_roundtrip; try reflexivity; unfold port_ok; lia. Defined.
