(* ===== verification/Http.v ===== *)
(** * HTTP headers, queries and strings ([net/http], [net/textproto], [net/url]
    and [strings] as the request pipeline uses them)

    A header and a query are finite maps from names to lists of values; Go's nil
    map reads like the empty one.  What the language leaves to its tables or to the
    machine is in [Platform]. *)

From stdpp Require Import base strings pretty numbers gmap list sorting.
From Stdlib Require Import Lia.
From S2P Require Import Prelude GoStrings.
Open Scope Z_scope.

(** The Unicode case tables beyond ASCII, and the result of converting an out-of-range
    [float64] to [int64], which Go leaves to the implementation. *)
Class Platform := { uni_lower : Z -> Z; uni_upper : Z -> Z; float_oor : Z }.

Definition upperByte (c : ascii) : ascii :=
  if (0x61 <=? byteZ c) && (byteZ c <=? 0x7A) then Zbyte (byteZ c - 32) else c.

Section Case.
Context {U : Platform}.

Definition toLower (s : bytes) : bytes := ToLower uni_lower s.

(** [strings.ToUpper]. *)
Definition toUpper (s : bytes) : bytes :=
  if forallb (fun c => byteZ c <? 0x80) s then map upperByte s
  else flat_map (fun r => encodeRune (if r <? 0x80 then byteZ (upperByte (Zbyte r)) else uni_upper r)) (runes s).
End Case.

(** The representative of a rune under simple folding, for comparison with ASCII
    text: the Kelvin sign folds to [k] and the long s to [s]. *)
Definition foldRune (r : Z) : Z :=
  if r =? 0x212A then 0x6B
  else if r =? 0x17F then 0x73
  else if r <? 0x80 then byteZ (lowerByte (Zbyte r)) else r.

(** [strings.EqualFold] against an ASCII string. *)
Definition EqualFold (s t : bytes) : bool :=
  bool_decide (map foldRune (runes s) = map foldRune (runes t)).

(** ** Header names *)

(** The token characters of RFC 7230. *)
Definition validHeaderFieldByte (c : ascii) : bool :=
  ((0x30 <=? byteZ c) && (byteZ c <=? 0x39)) || ((0x41 <=? byteZ c) && (byteZ c <=? 0x5A))
  || ((0x61 <=? byteZ c) && (byteZ c <=? 0x7A)) || existsb (Ascii.eqb c) (go "!#$%&'*+-.^_`|~").

Fixpoint canonicalBytes (upper : bool) (s : bytes) : bytes :=
  match s with
  | [] => []
  | c :: r => let c := if upper then upperByte c else lowerByte c in c :: canonicalBytes (c =b "-") r
  end.

(** [textproto.CanonicalMIMEHeaderKey]. *)
Definition CanonicalHeaderKey (s : bytes) : bytes :=
  if forallb validHeaderFieldByte s then canonicalBytes true s else s.

(** ** Headers *)

Abbreviation header := (gmap bytes (list bytes)).

Definition Values (h : header) (name : bytes) : list bytes := default [] (h !! CanonicalHeaderKey name).
Definition Get (h : header) (name : bytes) : bytes := default [] (head (Values h name)).
Definition Set_ (h : header) (name v : bytes) : header := <[CanonicalHeaderKey name := [v]]> h.
Definition Del (h : header) (name : bytes) : header := delete (CanonicalHeaderKey name) h.

(** ** Set-Cookie lines ([http.Response.Cookies]) *)

Definition isASCIISpace (c : ascii) : bool :=
  existsb (Ascii.eqb c) [" "%char; Zbyte 9; Zbyte 10; Zbyte 13].

Fixpoint trimLeftASCII (s : bytes) : bytes :=
  match s with
  | c :: r => if isASCIISpace c then trimLeftASCII r else s
  | [] => []
  end.

(** [textproto.TrimString]. *)
Definition TrimString (s : bytes) : bytes := rev (trimLeftASCII (rev (trimLeftASCII s))).

Definition validCookieValueByte (c : ascii) : bool :=
  (0x20 <=? byteZ c) && (byteZ c <? 0x7F) && negb (byteZ c =? 0x22) && negb (c =b ";")%byte
  && negb (byteZ c =? 0x5C).

(** Whether [parseCookieValue] accepts a value; one pair of quotes is removed. *)
Definition cookieValueOk (raw : bytes) : bool :=
  let raw :=
    if (1 <? length raw)%nat && bool_decide (head raw = Some (Zbyte 0x22)) && bool_decide (last raw = Some (Zbyte 0x22))
    then take (length raw - 2) (drop 1 raw) else raw in
  forallb validCookieValueByte raw.

(** The name of the cookie one Set-Cookie line sets, if it parses. *)
Definition setCookieName (line : bytes) : option bytes :=
  let part := TrimString (default [] (head (SplitByte (TrimString line) ";"))) in
  match IndexByte part "=" with
  | None => None
  | Some i =>
    let name := TrimString (take i part) in
    if bool_decide (name = []) || negb (forallb validHeaderFieldByte name) then None
    else if cookieValueOk (drop (S i) part) then Some name else None
  end.

Definition Cookies (h : header) : list bytes := omap setCookieName (Values h (go "Set-Cookie")).

(** ** Escaping ([net/url]) *)

Definition unreserved (c : ascii) : bool :=
  ((0x30 <=? byteZ c) && (byteZ c <=? 0x39)) || ((0x41 <=? byteZ c) && (byteZ c <=? 0x5A))
  || ((0x61 <=? byteZ c) && (byteZ c <=? 0x7A)) || existsb (Ascii.eqb c) (go "-_.~").

Definition upperhex (d : Z) : ascii := if d <? 10 then Zbyte (0x30 + d) else Zbyte (0x41 + (d - 10)).

Definition escapeByte (c : ascii) : bytes :=
  if unreserved c then [c]
  else if (c =b " ")%byte then ["+"%char]
  else ["%"%char; upperhex (byteZ c / 16); upperhex (byteZ c mod 16)].

Definition QueryEscape (s : bytes) : bytes := flat_map escapeByte s.

Definition unhex (c : ascii) : option Z :=
  let b := byteZ c in
  if (0x30 <=? b) && (b <=? 0x39) then Some (b - 0x30)
  else if (0x61 <=? b) && (b <=? 0x66) then Some (b - 0x61 + 10)
  else if (0x41 <=? b) && (b <=? 0x46) then Some (b - 0x41 + 10)
  else None.

(** [url.QueryUnescape] ([plus] true) and [url.PathUnescape] ([plus] false). *)
Fixpoint unescape (plus : bool) (s : bytes) : option bytes :=
  match s with
  | [] => Some []
  | c :: r =>
    if (c =b "%")%byte then
      match r with
      | h :: l :: r =>
        match unhex h, unhex l with
        | Some a, Some b => cons (Zbyte (a * 16 + b)) <$> unescape plus r
        | _, _ => None
        end
      | _ => None
      end
    else cons (if plus && (c =b "+")%byte then " "%char else c) <$> unescape plus r
  end.

Definition QueryUnescape : bytes -> option bytes := unescape true.
Definition PathUnescape : bytes -> option bytes := unescape false.

(** ** Sorting ([sort.Strings]) *)

(** Byte-wise order. *)
Fixpoint leStr (a b : bytes) : Prop :=
  match a, b with
  | [], _ => True
  | _ :: _, [] => False
  | x :: a, y :: b => byteZ x < byteZ y \/ (byteZ x = byteZ y /\ leStr a b)
  end.

#[export] Instance leStr_dec : RelDecision leStr.
Proof.
  intros a. induction a as [|x a IH]; intros [|y b]; simpl; try (left; done); try (right; tauto).
  destruct (IH b); destruct (decide (byteZ x < byteZ y)); destruct (decide (byteZ x = byteZ y));
    solve [left; tauto | right; tauto].
Defined.

Definition sortStrings (l : list bytes) : list bytes := merge_sort leStr l.

(** ** Queries ([url.Values]) *)

Abbreviation values := (gmap bytes (list bytes)).

Definition qget (q : values) (name : bytes) : bytes := default [] (head (default [] (q !! name))).

(** [k=v] pairs in the order of the sorted keys, as [url.Values.Encode] walks them. *)
Definition sortedKeys (q : values) : list bytes := sortStrings (map fst (map_to_list q)).

(** [url.Values.Encode]: keys sorted, values in order. *)
Definition Encode (q : values) : bytes :=
  Join (flat_map (fun k => map (fun v => QueryEscape k ++ go "=" ++ QueryEscape v) (default [] (q !! k)))
                 (sortedKeys q)) (go "&").

Example QueryEscape_examples :
  map (fun s => QueryEscape (go s)) ["a b"; "x&y=z"; "100%"; "~ok_"]%string
  = map go ["a+b"; "x%26y%3Dz"; "100%25"; "~ok_"]%string.
Proof. vm_compute. reflexivity. Qed.

Example CanonicalHeaderKey_examples :
  map (fun s => CanonicalHeaderKey (go s)) ["set-cookie"; "X-CACHE-ttl"; "bad name"; "etag"]%string
  = map go ["Set-Cookie"; "X-Cache-Ttl"; "bad name"; "Etag"]%string.
Proof. vm_compute. reflexivity. Qed.

(** ** Escaping round trips *)

Lemma unescape_escapeByte c s : unescape true (escapeByte c ++ s) = cons c <$> unescape true s.
Proof.
  assert (forall c, match escapeByte c with
    | [a] => negb (a =b "%") && ((if (a =b "+") then " "%char else a) =b c)
    | [p; h; l] => (p =b "%") &&
        match unhex h, unhex l with Some x, Some y => Zbyte (x * 16 + y) =b c | _, _ => false end
    | _ => false end = true)%byte as H by (apply forall_byte; vm_compute; reflexivity).
  specialize (H c). destruct (escapeByte c) as [|a [|h [|l [|? ?]]]]; try done; apply andb_true_iff in H as [H1 H2].
  - apply negb_true_iff in H1. apply Ascii.eqb_eq in H2. cbn [unescape app]. rewrite H1. cbn [andb]. by rewrite H2.
  - cbn [unescape app]. rewrite H1. destruct (unhex h), (unhex l); try done. apply Ascii.eqb_eq in H2. by rewrite H2.
Qed.

Lemma QueryUnescape_QueryEscape s : QueryUnescape (QueryEscape s) = Some s.
Proof.
  unfold QueryUnescape, QueryEscape. induction s as [|c s IH]; [done|]. cbn [flat_map].
  by rewrite unescape_escapeByte, IH.
Qed.

#[export] Instance QueryEscape_inj : Inj (=) (=) QueryEscape.
Proof. intros s t H. apply (f_equal QueryUnescape) in H. rewrite !QueryUnescape_QueryEscape in H. by injection H. Qed.

(** The bytes an escaped field can contain. *)
Definition escaped (c : ascii) : bool := unreserved c || existsb (Ascii.eqb c) (go "+%").

Lemma QueryEscape_bytes s : Forall (fun c => escaped c = true) (QueryEscape s).
Proof.
  unfold QueryEscape. apply list.Forall_forall. intros c Hc%list_elem_of_In. apply in_flat_map in Hc as (x & _ & Hc).
  assert (forall x, forallb escaped (escapeByte x) = true) as H by (apply forall_byte; vm_compute; reflexivity).
  specialize (H x). rewrite forallb_forall in H. by apply H.
Qed.

Lemma QueryEscape_not_elem c s : escaped c = false -> c ∉ QueryEscape s.
Proof. intros Hc H. pose proof (QueryEscape_bytes s) as HF. rewrite list.Forall_forall in HF. apply HF in H. congruence. Qed.

(** ** Sorting *)

#[export] Instance leStr_antisymm : AntiSymm (=) leStr.
Proof.
  intros a. induction a as [|x a IH]; intros [|y b]; simpl; try done.
  intros [|[E H]] [|[E' H']]; try lia. f_equal; [by apply byteZ_inj|by apply IH].
Qed.

#[export] Instance leStr_trans : Transitive leStr.
Proof.
  intros a. induction a as [|x a IH]; intros [|y b] [|z c]; simpl; try done.
  intros [H|[E H]] [H'|[E' H']]; try (left; lia). right. split; [lia|by eapply IH].
Qed.

#[export] Instance leStr_total : Total leStr.
Proof.
  intros a. induction a as [|x a IH]; intros [|y b]; simpl; try tauto.
  destruct (Z.lt_trichotomy (byteZ x) (byteZ y)) as [|[|]]; try tauto.
  destruct (IH b); [left|right]; right; split; first [done|lia].
Qed.

Lemma sortStrings_perm l : sortStrings l ≡ₚ l.
Proof. apply merge_sort_Permutation. Qed.

Lemma sortStrings_sorted l : Sorted leStr (sortStrings l).
Proof. apply Sorted_merge_sort. typeclasses eauto. Qed.

(** Sorting forgets exactly the order. *)
Lemma sortStrings_eq l k : sortStrings l = sortStrings k <-> l ≡ₚ k.
Proof.
  split.
  - intros H. by rewrite <- (sortStrings_perm l), H, sortStrings_perm.
  - intros H. apply (Sorted_unique leStr); [apply sortStrings_sorted..|]. by rewrite !sortStrings_perm.
Qed.

(** ** Header names that fold together *)

Definition ascii_name (s : bytes) : Prop := Forall (fun c => byteZ c < 0x80) s.

Lemma canonicalBytes_lower up s : canonicalBytes up s = canonicalBytes up (map lowerByte s).
Proof.
  assert (forall c, (upperByte (lowerByte c) =b upperByte c) && (lowerByte (lowerByte c) =b lowerByte c) = true)%byte as H
    by (apply forall_byte; vm_compute; reflexivity).
  revert up. induction s as [|c s IH]; intros up; [done|]. cbn. specialize (H c).
  apply andb_true_iff in H as [H1%Ascii.eqb_eq H2%Ascii.eqb_eq]. destruct up; by rewrite ?H1, ?H2, IH.
Qed.

Lemma valid_lower s : forallb validHeaderFieldByte (map lowerByte s) = forallb validHeaderFieldByte s.
Proof.
  assert (forall c, Bool.eqb (validHeaderFieldByte (lowerByte c)) (validHeaderFieldByte c) = true) as H
    by (apply forall_byte; vm_compute; reflexivity).
  induction s as [|c s IH]; [done|]. cbn. specialize (H c). apply eqb_prop in H. by rewrite H, IH.
Qed.

(** Header names that differ in case only are one header. *)
Lemma CanonicalHeaderKey_lower s t :
  forallb validHeaderFieldByte t = true -> map lowerByte s = map lowerByte t -> CanonicalHeaderKey s = CanonicalHeaderKey t.
Proof.
  intros Ht E. unfold CanonicalHeaderKey. rewrite Ht, <- (valid_lower s), E, valid_lower, Ht.
  by rewrite (canonicalBytes_lower true s), E, <- canonicalBytes_lower.
Qed.

Lemma EqualFold_ascii s t : ascii_name s -> ascii_name t -> EqualFold s t = true -> map lowerByte s = map lowerByte t.
Proof.
  assert (forall c, (byteZ c <? 0x80) = false \/ foldRune (byteZ c) = byteZ (lowerByte c)) as Hf.
  { intros c. destruct (byteZ c <? 0x80) eqn:E; [right|by left]. apply Z.ltb_lt in E. unfold foldRune.
    destruct (Z.eqb_spec (byteZ c) 0x212A); [lia|]. destruct (Z.eqb_spec (byteZ c) 0x17F); [lia|].
    destruct (Z.ltb_spec (byteZ c) 0x80); [by rewrite Zbyte_byteZ|lia]. }
  intros Hs Ht E. apply bool_decide_eq_true in E. rewrite !runes_ascii in E by done. rewrite !map_map in E.
  assert (forall l, ascii_name l -> map (fun x => foldRune (byteZ x)) l = map byteZ (map lowerByte l)) as Hm.
  { induction 1 as [|c l Hc Hl IH]; [done|]. cbn. rewrite IH. f_equal. destruct (Hf c) as [H|H]; [|done].
    apply Z.ltb_ge in H. lia. }
  rewrite !Hm in E by done. revert E. generalize (map lowerByte s), (map lowerByte t). clear.
  intros l. induction l as [|c l IH]; intros [|d k]; cbn; try done. intros [= H1%byteZ_inj H2]. f_equal; auto.
Qed.

(** A header name that folds to a token names that header. *)
Lemma EqualFold_header s t : ascii_name s -> ascii_name t -> forallb validHeaderFieldByte t = true ->
  EqualFold s t = true -> CanonicalHeaderKey s = CanonicalHeaderKey t.
Proof. intros Hs Ht Hv E. apply CanonicalHeaderKey_lower; [done|]. by apply EqualFold_ascii. Qed.

Lemma toLower_ascii {U : Platform} s : ascii_name s -> toLower s = map lowerByte s.
Proof.
  intros H. unfold toLower, ToLower.
  assert (forallb (fun c => byteZ c <? 0x80) s = true) as ->; [|done].
  apply forallb_forall. intros c Hc%list_elem_of_In. unfold ascii_name in H. rewrite list.Forall_forall in H. apply Z.ltb_lt. by apply H.
Qed.
