(* ===== verification/Duration.v ===== *)
(** * Durations ([duration.go])

    A [time.Duration] is an [int64] of nanoseconds.  The parser computes with [float64],
    here the standard library's executable IEEE 754 specification. *)

From stdpp Require Import base strings pretty numbers gmap list.
From Stdlib Require Import Lia SpecFloat.
From S2P Require Import Prelude GoStrings Http.
Open Scope Z_scope.

(** ** float64 *)

Abbreviation float64 := spec_float.

Definition f_of_Z (z : Z) : float64 := binary_normalize 53 1024 z 0 false.
Definition fadd : float64 -> float64 -> float64 := SFadd 53 1024.
Definition fmul : float64 -> float64 -> float64 := SFmul 53 1024.
Definition fdiv : float64 -> float64 -> float64 := SFdiv 53 1024.

(** The integer part of a finite float. *)
Definition ftrunc (f : float64) : option Z :=
  match f with
  | S754_finite s m e =>
    let v := if 0 <=? e then Z.pos m * 2 ^ e else Z.pos m / 2 ^ (- e) in
    Some (if s then - v else v)
  | S754_zero _ => Some 0
  | _ => None
  end.

(** [int64(f)]. *)
Definition f_to_int64 {P : Platform} (f : float64) : Z :=
  match ftrunc f with
  | Some z => if (int64_min <=? z) && (z <=? int64_max) then z else float_oor
  | None => float_oor
  end.

Definition isInfNaN (f : float64) : bool :=
  match f with S754_infinity _ | S754_nan => true | _ => false end.

(** ** Units *)

Definition Second : Z := 1000000000.
Definition Hour : Z := 3600 * Second.
Definition maxHeaderTTL : Z := 365 * 24 * Hour.

Definition unitDuration (u : bytes) : option Z :=
  if bool_decide (u = go "ns") then Some 1
  else if bool_decide (u = go "us") || bool_decide (u = encodeRune 0xB5 ++ go "s")
       || bool_decide (u = encodeRune 0x3BC ++ go "s") then Some 1000
  else if bool_decide (u = go "ms") then Some 1000000
  else if bool_decide (u = go "s") then Some Second
  else if bool_decide (u = go "m") then Some (60 * Second)
  else if bool_decide (u = go "h") then Some Hour
  else if bool_decide (u = go "d") then Some (24 * Hour)
  else if bool_decide (u = go "w") then Some (7 * 24 * Hour)
  else None.

(** ** The parser *)

Inductive durErr : Type := durEmpty | durInvalid | durUnknownUnit (u : bytes) | durOutOfRange.

Fixpoint spanDigits (s : bytes) : bytes * bytes :=
  match s with
  | c :: r => if isDigit c then let '(ds, rest) := spanDigits r in (c :: ds, rest) else ([], s)
  | [] => ([], [])
  end.

Fixpoint spanUnit (s : bytes) : bytes * bytes :=
  match s with
  | c :: r => if isDigit c || (c =b ".") then ([], s) else let '(u, rest) := spanUnit r in (c :: u, rest)
  | [] => ([], [])
  end.

(** [whole = whole*10 + digit] in [int64]. *)
Definition wholeOf (ds : bytes) : Z := fold_left (fun w c => wrap64 (wrap64 (w * 10) + (byteZ c - 0x30))) ds 0.

(** The running [frac] and [fracDiv]. *)
Definition fracOf (ds : bytes) : float64 * float64 :=
  fold_left (fun '(f, dv) c => (fadd (fmul f (f_of_Z 10)) (f_of_Z (byteZ c - 0x30)), fmul dv (f_of_Z 10)))
    ds (f_of_Z 0, f_of_Z 1).

Section Parse.
Context {P : Platform}.

(** One term: its nanoseconds and the rest. *)
Definition durTerm (s : bytes) : outcome durErr (Z * bytes) :=
  let '(ds, s1) := spanDigits s in
  let '(fs, s2) := match s1 with c :: r => if c =b "." then spanDigits r else ([], s1) | [] => ([], s1) end in
  if bool_decide (ds = []) && bool_decide (fs = []) then Err durInvalid
  else
    let '(u, s3) := spanUnit s2 in
    match unitDuration u with
    | None => Err (durUnknownUnit u)
    | Some base =>
      let '(frac, fracDiv) := fracOf fs in
      let ns := fmul (fadd (f_of_Z (wholeOf ds)) (fdiv frac fracDiv)) (f_of_Z base) in
      if isInfNaN ns || SFltb (f_of_Z int64_max) ns || SFltb ns (f_of_Z int64_min) then Err durOutOfRange
      else Ok (f_to_int64 ns, s3)
    end.

Fixpoint durLoop (n : nat) (s : bytes) (total : Z) : outcome durErr Z :=
  match n with
  | O => NoFuel
  | S n =>
    match s with
    | [] => Ok total
    | _ =>
      let! (part, rest) := durTerm s in
      if ((0 <? part) && (int64_max - part <? total)) || ((part <? 0) && (total <? int64_min - part))
      then Err durOutOfRange
      else durLoop n rest (wrap64 (total + part))
    end
  end.

Definition parseDuration (s : bytes) : outcome durErr Z :=
  match s with
  | [] => Err durEmpty
  | c :: r =>
    if bool_decide (s = go "0") then Ok 0
    else
      let '(neg, body) := if (c =b "+") || (c =b "-") then (c =b "-", r) else (false, s) in
      match body with
      | [] => Err durInvalid
      | _ =>
        let! total := durLoop (S (length body)) body 0 in
        Ok (if neg then wrap64 (- total) else total)
      end
  end.

(** [headerTTL]: a usable lifetime, if the header gives one. *)
Definition headerTTL (h : option header) (name : bytes) : option Z :=
  match h with
  | None => None
  | Some h =>
    let v := TrimSpace (Get h name) in
    if bool_decide (v = []) then None
    else match ParseInt64 v with
         | Some n =>
           if (n <=? 0) || (int64_max / Second <? n) then None
           else let d := wrap64 (n * Second) in if maxHeaderTTL <? d then None else Some d
         | None =>
           match parseDuration v with
           | Ok d => if (d <=? 0) || (maxHeaderTTL <? d) then None else Some d
           | _ => None
           end
         end
  end.
End Parse.

(** A platform for the examples: ASCII tables, and the x86-64 conversion. *)
Definition amd64 : Platform := {| uni_lower := fun r => r; uni_upper := fun r => r; float_oor := int64_min |}.

Example parseDuration_examples :
  map (fun s => @parseDuration amd64 (go s)) ["1h30m"; "1.5s"; "365d"; "-2m"; "0"; "5x"; ".s"; "9999999999h"]%string
  = [Ok (5400 * Second); Ok 1500000000; Ok (365 * 24 * Hour); Ok (-120 * Second); Ok 0;
     Err (durUnknownUnit (go "x")); Err durInvalid; Err durOutOfRange].
Proof. vm_compute. reflexivity. Qed.

(** ** Termination *)

Lemma spanDigits_app s : s = fst (spanDigits s) ++ snd (spanDigits s).
Proof.
  induction s as [|c s IH]; [done|]. cbn. destruct (isDigit c); [|done].
  destruct (spanDigits s) as [ds rest]; cbn in *. by rewrite IH at 1.
Qed.

Lemma spanUnit_app s : s = fst (spanUnit s) ++ snd (spanUnit s).
Proof.
  induction s as [|c s IH]; [done|]. cbn. destruct (_ || _); [done|].
  destruct (spanUnit s) as [ds rest]; cbn in *. by rewrite IH at 1.
Qed.

Lemma durTerm_shorter {P : Platform} s part rest : durTerm s = Ok (part, rest) -> (length rest < length s)%nat.
Proof.
  unfold durTerm. pose proof (spanDigits_app s) as H1. destruct (spanDigits s) as [ds s1]. cbn in H1.
  set (x := match s1 with c :: r => _ | [] => _ end).
  assert (length (snd x) <= length s1)%nat as H2.
  { subst x. destruct s1 as [|c r]; [done|]. destruct (c =b ".")%byte; [|done].
    pose proof (spanDigits_app r) as H. apply (f_equal length) in H. rewrite length_app in H. cbn. lia. }
  destruct x as [fs s2]. cbn in H2. destruct (_ && _); [done|].
  pose proof (spanUnit_app s2) as H3. destruct (spanUnit s2) as [u s3]. cbn in H3.
  destruct (unitDuration u) as [base|] eqn:Eu; [|done]. destruct (fracOf fs) as [f dv]. destruct (_ || _); [done|].
  intros [= _ ->]. subst s. apply (f_equal length) in H3. rewrite length_app in *. destruct u; [done|]. cbn in H3. lia.
Qed.

(** The parser always gives a result. *)
Lemma parseDuration_total {P : Platform} s : parseDuration s <> NoFuel.
Proof.
  assert (forall n s total, (length s < n)%nat -> durLoop n s total <> NoFuel) as H.
  { induction n as [|n IH]; intros t total Hn; [lia|]. cbn [durLoop]. destruct t as [|c t]; [done|].
    destruct (durTerm (c :: t)) as [[part rest]|e|] eqn:E; cbn [obind]; [|done|].
    - apply durTerm_shorter in E. destruct (_ || _); [done|]. apply IH. cbn in *. lia.
    - unfold durTerm in E. repeat case_hyp E; done. }
  unfold parseDuration. destruct s as [|c r]; [done|]. destruct (bool_decide _); [done|].
  set (nb := if (_ : bool) then (_, r) else _). destruct nb as [neg [|b body]]; [done|]. pose proof (H (S (length (b :: body))) (b :: body) 0 ltac:(lia)).
  by destruct (durLoop _ _ _).
Qed.

(** ** Lifetimes from a header *)

(** A lifetime taken from an origin header is positive and at most a year. *)
Lemma headerTTL_range {P : Platform} h name d : headerTTL h name = Some d -> 0 < d <= maxHeaderTTL.
Proof.
  unfold headerTTL. destruct h as [h|]; [|done]. destruct (bool_decide _); [done|].
  destruct (ParseInt64 _) as [n|].
  - destruct (_ || _) eqn:E; [done|]. apply orb_false_iff in E as [E1 E2].
    apply Z.leb_gt in E1. apply Z.ltb_ge in E2. destruct (maxHeaderTTL <? _) eqn:E; [done|]. apply Z.ltb_ge in E.
    assert (n * Second <= int64_max) as Hn by (pose proof (Z.mul_div_le int64_max Second eq_refl); unfold Second in *; lia).
    unfold int64_max, Second in *. rewrite wrap64_small in E |- * by lia. intros [= <-]. lia.
  - destruct (parseDuration _) as [d'|e|]; try done. destruct (_ || _) eqn:E; [done|]. apply orb_false_iff in E as [E1 E2].
    apply Z.leb_gt in E1. apply Z.ltb_ge in E2. intros [= <-]. lia.
Qed.
