(* ===== verification/Float64.v ===== *)
(** * Binary64 arithmetic, from above

    The standard library specifies [float64] operations in [SpecFloat].  This file
    bounds the results of adding, subtracting, multiplying and dividing finite
    non-negative numbers: the rounded result exceeds the exact one by at most a
    relative error of 2^-52 and the smallest positive number.  Comparisons are exact. *)

From stdpp Require Import base numbers.
From Stdlib Require Import Lia SpecFloat QArith Qround Qpower Lqa.
From S2P Require Import Prelude GoStrings Duration.
Open Scope Z_scope.

(** ** Powers of two *)

Definition pow2 (e : Z) : Q := Qpower 2 e.

Lemma pow2_pos e : (0 < pow2 e)%Q.
Proof. by apply Qpower_0_lt. Qed.

Lemma pow2_add a b : (pow2 (a + b) == pow2 a * pow2 b)%Q.
Proof. by apply Qpower_plus. Qed.

Lemma pow2_le a b : a <= b -> (pow2 a <= pow2 b)%Q.
Proof. intros H. by apply Qpower_le_compat_l. Qed.

Lemma pow2_Z n : 0 <= n -> (pow2 n == inject_Z (2 ^ n))%Q.
Proof. intros H. symmetry. by apply Zpower_Qpower. Qed.

(** [m * 2^e] *)
Definition scaled (m e : Z) : Q := (inject_Z m * pow2 e)%Q.

Lemma scaled_shift m e k : 0 <= k -> (scaled (m * 2 ^ k) (e - k) == scaled m e)%Q.
Proof.
  intros H. unfold scaled. replace e with (k + (e - k)) at 2 by lia. rewrite pow2_add, (pow2_Z k H), inject_Z_mult. ring.
Qed.

Lemma scaled_le m m' e : m <= m' -> (scaled m e <= scaled m' e)%Q.
Proof. intros H. unfold scaled. apply Qmult_le_compat_r; [by rewrite <- Zle_Qle|]. apply Qlt_le_weak, pow2_pos. Qed.

Lemma scaled_lt m m' e : m < m' -> (scaled m e < scaled m' e)%Q.
Proof. intros H. unfold scaled. apply Qmult_lt_compat_r; [apply pow2_pos|by rewrite <- Zlt_Qlt]. Qed.

Lemma scaled_add m m' e : (scaled (m + m') e == scaled m e + scaled m' e)%Q.
Proof. unfold scaled. rewrite inject_Z_plus. ring. Qed.

(** ** Numbers *)

(** A finite mantissa and exponent in their unique form. *)
Definition canon (m e : Z) : Prop := 0 < m < 2 ^ 53 /\ -1074 <= e /\ (-1074 < e -> 2 ^ 52 <= m).

(** A finite number that is not negative. *)
Definition fin (f : float64) : Prop :=
  match f with S754_zero _ => True | S754_finite false m e => canon (Z.pos m) e | _ => False end.

Definition val (f : float64) : Q := match f with S754_finite _ m e => scaled (Z.pos m) e | _ => 0%Q end.

Lemma val_nonneg f : (0 <= val f)%Q.
Proof.
  destruct f as [| | |s m e]; cbn; try lra. unfold scaled. apply Qmult_le_0_compat; [by rewrite <- (Zle_Qle 0)|].
  apply Qlt_le_weak, pow2_pos.
Qed.

(** ** Digits *)

Lemma digits2_bounds p : 2 ^ (Z.pos (digits2_pos p) - 1) <= Z.pos p < 2 ^ Z.pos (digits2_pos p).
Proof.
  induction p as [p IH|p IH|]; cbn [digits2_pos]; [| |done]; rewrite Pos2Z.inj_succ.
  - replace (Z.succ (Z.pos (digits2_pos p)) - 1) with (Z.succ (Z.pos (digits2_pos p) - 1)) by lia. rewrite !Z.pow_succ_r by lia. lia.
  - replace (Z.succ (Z.pos (digits2_pos p)) - 1) with (Z.succ (Z.pos (digits2_pos p) - 1)) by lia. rewrite !Z.pow_succ_r by lia. lia.
Qed.

Lemma Zdigits2_bounds m : 0 < m -> 0 < Zdigits2 m /\ 2 ^ (Zdigits2 m - 1) <= m < 2 ^ Zdigits2 m.
Proof. destruct m as [|p|p]; try lia. intros _. cbn [Zdigits2]. split; [lia|apply digits2_bounds]. Qed.

Lemma Zdigits2_nonneg m : 0 <= m -> 0 <= Zdigits2 m.
Proof. destruct m; cbn; lia. Qed.

Lemma Zdigits2_ge m k : 0 <= k -> 2 ^ k <= m -> k + 1 <= Zdigits2 m.
Proof.
  intros Hk Hm. assert (0 < m) as H0 by (pose proof (Z.pow_pos_nonneg 2 k); lia). destruct (Zdigits2_bounds m H0) as (Hd & _ & Hb).
  destruct (Z.le_gt_cases (k + 1) (Zdigits2 m)); [done|]. pose proof (Z.pow_le_mono_r 2 (Zdigits2 m) k). lia.
Qed.

Lemma Zdigits2_le m k : 0 <= m -> 0 <= k -> m < 2 ^ k -> Zdigits2 m <= k.
Proof.
  intros H0 Hk Hm. destruct (Z.eq_dec m 0) as [->|]; [done|]. destruct (Zdigits2_bounds m ltac:(lia)) as (Hd & Hb & _).
  destruct (Z.le_gt_cases (Zdigits2 m) k); [done|]. pose proof (Z.pow_le_mono_r 2 k (Zdigits2 m - 1)). lia.
Qed.

(** ** Shifting *)

Lemma shr_1_div r : 0 <= shr_m r -> shr_m (shr_1 r) = shr_m r / 2.
Proof.
  destruct r as [m b s]. cbn [shr_m]. intros H. destruct m as [|[p|p|]|p]; cbn; try done; try lia.
  - rewrite Pos2Z.inj_xI. rewrite Z.add_comm, Z.mul_comm, Z.div_add by lia. done.
  - rewrite Pos2Z.inj_xO. rewrite Z.mul_comm, Z.div_mul by lia. done.
Qed.

Lemma iter_shr_1 p r : 0 <= shr_m r -> shr_m (SpecFloat.iter_pos shr_1 p r) = shr_m r / 2 ^ Z.pos p /\ 0 <= shr_m (SpecFloat.iter_pos shr_1 p r).
Proof.
  revert r. induction p as [p IH|p IH|]; intros r H; cbn [SpecFloat.iter_pos].
  - pose proof (shr_1_div r H) as E1. assert (0 <= shr_m (shr_1 r)) as H1 by (rewrite E1; by apply Z.div_pos).
    destruct (IH _ H1) as [E2 H2]. destruct (IH _ H2) as [E3 H3]. split; [|done]. rewrite E3, E2, E1.
    rewrite !Z.div_div by lia. replace (Z.pos p~1) with (1 + Z.pos p + Z.pos p) by lia. rewrite !Z.pow_add_r by lia. f_equal; lia.
  - destruct (IH _ H) as [E2 H2]. destruct (IH _ H2) as [E3 H3]. split; [|done]. rewrite E3, E2, Z.div_div by lia.
    replace (Z.pos p~0) with (Z.pos p + Z.pos p) by lia. rewrite Z.pow_add_r by lia. done.
  - rewrite shr_1_div by done. split; [done|]. by apply Z.div_pos.
Qed.

Definition fexp64 (e : Z) : Z := Z.max (e - 53) (-1074).

(** [shr_fexp] on a mantissa that is at least as fine as the target. *)
Lemma shr_fexp_spec m e l : 0 <= m -> e <= fexp64 (Zdigits2 m + e) ->
  exists r, shr_fexp 53 1024 m e l = (r, fexp64 (Zdigits2 m + e)) /\ shr_m r = m / 2 ^ (fexp64 (Zdigits2 m + e) - e) /\
    (fexp64 (Zdigits2 m + e) = e -> r = shr_record_of_loc m l).
Proof.
  intros Hm He. unfold shr_fexp. change (fexp 53 1024 (Zdigits2 m + e)) with (fexp64 (Zdigits2 m + e)).
  set (e' := fexp64 (Zdigits2 m + e)) in *. assert (shr_m (shr_record_of_loc m l) = m) as El by (by destruct l as [|[]]).
  destruct (e' - e) as [|p|p] eqn:E; [| |lia].
  - exists (shr_record_of_loc m l). cbn. split_and!; [f_equal; lia| |done]. by rewrite El, Z.div_1_r.
  - exists (SpecFloat.iter_pos shr_1 p (shr_record_of_loc m l)). cbn [shr]. split_and!; [f_equal; lia| |lia].
    rewrite (proj1 (iter_shr_1 p _ ltac:(by rewrite El))). by rewrite El.
Qed.

(** A mantissa that already fits is not shifted. *)
Lemma shr_fexp_id m e : fexp64 (Zdigits2 m + e) <= e -> shr_fexp 53 1024 m e loc_Exact = (Build_shr_record m false false, e).
Proof.
  intros H. unfold shr_fexp. change (fexp 53 1024 (Zdigits2 m + e)) with (fexp64 (Zdigits2 m + e)).
  destruct (fexp64 (Zdigits2 m + e) - e) eqn:E; [done|lia|done].
Qed.

Lemma nearest_cases m l : round_nearest_even m l = m \/ round_nearest_even m l = m + 1.
Proof. destruct l as [|[]]; cbn; auto. destruct (Z.even m); auto. Qed.

(** ** Rounding *)

(** [f] is finite and at most [X], or infinite and [X] is huge. *)
Definition upto (X : Q) (f : float64) : Prop := f = S754_infinity false /\ (pow2 1000 <= X)%Q \/ fin f /\ (val f <= X)%Q.

Definition ulp : Q := pow2 (-52).
Definition tiny : Q := pow2 (-1074).

(** The result of rounding, before the exponent is checked. *)
Lemma round_aux_spec m e l : 0 <= m -> e <= fexp64 (Zdigits2 m + e) ->
  let e1 := fexp64 (Zdigits2 m + e) in let m1 := m / 2 ^ (e1 - e) in
  exists m2, (m2 = m1 \/ m2 = m1 + 1) /\ (e1 = e -> l = loc_Exact -> m2 = m) /\ 0 <= m1 < 2 ^ 53 /\ (-1074 < e1 -> 2 ^ 52 <= m1) /\
    let f := binary_round_aux 53 1024 false m e l in
    f = S754_infinity false /\ 971 <= e1 \/ fin f /\ (val f == scaled m2 e1)%Q.
Proof.
  intros Hm He e1 m1. destruct (shr_fexp_spec m e l Hm He) as (r & E & Er & Ex). fold e1 in E, Er, Ex. fold m1 in Er.
  assert (-1074 <= e1 /\ Zdigits2 m + e - 53 <= e1 /\ (-1074 < e1 -> e1 = Zdigits2 m + e - 53)) as (He1 & He2 & He3) by (unfold e1, fexp64; lia).
  assert (0 <= m1 < 2 ^ 53) as Hm1.
  { unfold m1. split; [apply Z.div_pos; [done|apply Z.pow_pos_nonneg; lia]|]. apply Z.div_lt_upper_bound; [apply Z.pow_pos_nonneg; lia|].
    destruct (Z.eq_dec m 0) as [->|]; [apply Z.mul_pos_pos; apply Z.pow_pos_nonneg; lia|].
    destruct (Zdigits2_bounds m ltac:(lia)) as (Hd & _ & Hb). rewrite <- Z.pow_add_r by lia.
    pose proof (Z.pow_le_mono_r 2 (Zdigits2 m) (e1 - e + 53)). lia. }
  assert (-1074 < e1 -> 2 ^ 52 <= m1) as Hn1.
  { intros Hlt. pose proof (He3 Hlt) as E1. assert (0 < m) as H0.
    { destruct (Z.eq_dec m 0) as [->|]; [|lia]. cbn [Zdigits2] in E1. lia. }
    destruct (Zdigits2_bounds m H0) as (Hd & Hb & _). apply Z.div_le_lower_bound; [apply Z.pow_pos_nonneg; lia|].
    rewrite <- Z.pow_add_r by lia. replace (e1 - e + 52) with (Zdigits2 m - 1) by lia. done. }
  exists (round_nearest_even (shr_m r) (loc_of_shr_record r)). rewrite Er.
  split; [apply nearest_cases|]. split.
  { intros E0 ->. rewrite (Ex E0). cbn. unfold m1. by rewrite E0, Z.sub_diag, Z.div_1_r. }
  split; [done|]. split; [done|]. cbn zeta. unfold binary_round_aux. rewrite E, Er.
  set (m2 := round_nearest_even m1 _). assert (m2 = m1 \/ m2 = m1 + 1) as Hm2 by apply nearest_cases.
  destruct (Z.eq_dec m2 (2 ^ 53)) as [Hc|Hc].
  - rewrite Hc. assert (fexp64 (Zdigits2 (2 ^ 53) + e1) = e1 + 1) as Ef by (change (Zdigits2 (2 ^ 53)) with 54; unfold fexp64; lia).
    destruct (shr_fexp_spec (2 ^ 53) e1 loc_Exact ltac:(lia) ltac:(lia)) as (r' & -> & Er' & _). rewrite Ef in *.
    replace (e1 + 1 - e1) with 1 in Er' by lia. rewrite Er'. change (2 ^ 53 / 2 ^ 1) with (Z.pos 4503599627370496). cbn match.
    change (1024 - 53) with 971. destruct (Z.leb_spec (e1 + 1) 971); [right|left; split; [done|lia]].
    split; [split; [lia|]; split; [lia|]; intros _; vm_compute; discriminate|]. cbn [val].
    rewrite <- (scaled_shift _ (e1 + 1) 1 ltac:(lia)). replace (e1 + 1 - 1) with e1 by lia. done.
  - assert (0 <= m2 < 2 ^ 53) as Hr by lia. rewrite shr_fexp_id.
    2: { pose proof (Zdigits2_le m2 53). unfold fexp64. lia. }
    cbn [shr_m]. destruct m2 as [|p|p] eqn:Ep; [right; split; [done|]; cbn; unfold scaled; ring| |lia].
    change (1024 - 53) with 971. destruct (Z.leb_spec e1 971); [right|left; split; [done|lia]].
    split; [|reflexivity]. split; [lia|]. split; [done|]. intros Hlt. specialize (Hn1 Hlt). lia.
Qed.

(** Rounding goes up by one unit in the last place at most. *)
Lemma round_aux_upto m e l X : 0 <= m -> e <= fexp64 (Zdigits2 m + e) -> (scaled m e <= X)%Q ->
  upto (X * (1 + ulp) + tiny) (binary_round_aux 53 1024 false m e l).
Proof.
  intros Hm He HX. destruct (round_aux_spec m e l Hm He) as (m2 & Hm2 & _ & Hm1 & Hn & Hf). set (e1 := fexp64 (Zdigits2 m + e)) in *.
  set (m1 := m / 2 ^ (e1 - e)) in *. assert (0 <= e1 - e) as Hk by lia.
  assert (scaled m1 e1 <= X)%Q as Hle.
  { rewrite <- (scaled_shift m1 e1 (e1 - e) Hk). replace (e1 - (e1 - e)) with e by lia.
    eapply Qle_trans; [apply scaled_le|exact HX]. rewrite Z.mul_comm. apply Z.mul_div_le, Z.pow_pos_nonneg; lia. }
  pose proof (pow2_pos (-52)) as Hu. pose proof (pow2_pos (-1074)) as Ht. fold ulp in Hu. fold tiny in Ht.
  assert (0 <= X)%Q as HX0. { eapply Qle_trans; [|exact HX]. unfold scaled. apply Qmult_le_0_compat; [by rewrite <- (Zle_Qle 0)|apply Qlt_le_weak, pow2_pos]. }
  assert (0 <= X * ulp)%Q as HXu by (apply Qmult_le_0_compat; lra).
  destruct Hf as [[-> He1]|[Hfin Hv]].
  - left. split; [done|]. specialize (Hn ltac:(lia)).
    assert (pow2 1000 <= scaled m1 e1)%Q; [|lra]. eapply Qle_trans; [apply (pow2_le 1000 (52 + e1)); lia|].
    rewrite pow2_add, (pow2_Z 52 ltac:(lia)). by apply scaled_le.
  - right. split; [done|]. rewrite Hv.
    assert (scaled m2 e1 <= scaled m1 e1 + pow2 e1)%Q as H2.
    { eapply Qle_trans; [apply (scaled_le _ (m1 + 1)); lia|]. rewrite scaled_add. unfold scaled at 2. apply Qle_lteq. right. ring. }
    assert (pow2 e1 <= X * ulp + tiny)%Q; [|lra].
    assert (-1074 <= e1) by (unfold e1, fexp64; lia). destruct (Z.eq_dec e1 (-1074)) as [->|Hne]; [unfold tiny; lra|].
    assert (pow2 e1 <= X * ulp)%Q; [|lra]. apply Qle_trans with (scaled m1 e1 * ulp)%Q; [|apply Qmult_le_compat_r; lra].
    unfold ulp, scaled. rewrite <- Qmult_assoc, (Qmult_comm (pow2 e1)), Qmult_assoc.
    assert (1 <= inject_Z m1 * pow2 (-52))%Q as H1.
    { apply Qle_trans with (inject_Z (2 ^ 52) * pow2 (-52))%Q; [rewrite <- (pow2_Z 52 ltac:(lia)), <- pow2_add; vm_compute; discriminate|].
      apply Qmult_le_compat_r; [rewrite <- Zle_Qle; apply Hn; lia|apply Qlt_le_weak, pow2_pos]. }
    rewrite <- (Qmult_1_l (pow2 e1)) at 1. apply Qmult_le_compat_r; [done|apply Qlt_le_weak, pow2_pos].
Qed.

Lemma iter_xO m d : Z.pos (Pos.iter xO m d) = Z.pos m * 2 ^ Z.pos d.
Proof.
  induction d as [|d IH] using Pos.peano_ind; [cbn; lia|]. rewrite Pos.iter_succ, Pos2Z.inj_succ, Z.pow_succ_r by lia.
  rewrite Pos2Z.inj_xO, IH. lia.
Qed.

Lemma digits_xO m d : digits2_pos (Pos.iter xO m d) = (digits2_pos m + d)%positive.
Proof. induction d as [|d IH] using Pos.peano_ind; [cbn; lia|]. rewrite Pos.iter_succ. cbn [digits2_pos]. rewrite IH. lia. Qed.

Lemma shl_align_spec m e e' : exists m', shl_align m e e' = (m', Z.min e e') /\ (scaled (Z.pos m') (Z.min e e') == scaled (Z.pos m) e)%Q /\
  Z.pos (digits2_pos m') + Z.min e e' = Z.pos (digits2_pos m) + e /\ Z.pos m' = Z.pos m * 2 ^ (e - Z.min e e').
Proof.
  unfold shl_align. destruct (e' - e) as [|d|d] eqn:E.
  - exists m. replace (Z.min e e') with e by lia. rewrite Z.sub_diag, Z.mul_1_r. split_and!; done || reflexivity.
  - exists m. replace (Z.min e e') with e by lia. rewrite Z.sub_diag, Z.mul_1_r. split_and!; done || reflexivity.
  - exists (Pos.iter xO m d). replace (Z.min e e') with e' by lia. assert (e - e' = Z.pos d) as Ed by lia. split_and!; [done| | |].
    + rewrite iter_xO, <- (scaled_shift (Z.pos m) e (Z.pos d) ltac:(lia)). replace (e - Z.pos d) with e' by lia. reflexivity.
    + rewrite digits_xO. lia.
    + by rewrite iter_xO, Ed.
Qed.

Lemma binary_round_upto m e X : (scaled (Z.pos m) e <= X)%Q -> upto (X * (1 + ulp) + tiny) (binary_round 53 1024 false m e).
Proof.
  intros HX. unfold binary_round. change (fexp 53 1024) with fexp64. set (e' := fexp64 (Z.pos (digits2_pos m) + e)).
  destruct (shl_align_spec m e e') as (m' & -> & Ev & Ed & _). apply round_aux_upto; [done| |by rewrite Ev].
  cbn [Zdigits2]. rewrite Ed. fold e'. lia.
Qed.

(** Integers of at most 53 bits are exact. *)
Lemma f_of_Z_exact z : 0 <= z < 2 ^ 53 -> fin (f_of_Z z) /\ (val (f_of_Z z) == inject_Z z)%Q.
Proof.
  intros Hz. unfold f_of_Z, binary_normalize. destruct z as [|m|m]; [split; [done|reflexivity]| |lia].
  unfold binary_round. change (fexp 53 1024) with fexp64. set (e' := fexp64 (Z.pos (digits2_pos m) + 0)).
  assert (Z.pos (digits2_pos m) <= 53) as Hd by (apply (Zdigits2_le (Z.pos m)); lia).
  assert (e' <= 0) as He' by (unfold e', fexp64; lia).
  destruct (shl_align_spec m 0 e') as (m' & -> & Ev & Ed & _). replace (Z.min 0 e') with e' in * by lia.
  assert (fexp64 (Zdigits2 (Z.pos m') + e') = e') as Ef by (cbn [Zdigits2]; by rewrite Ed).
  destruct (round_aux_spec (Z.pos m') e' loc_Exact ltac:(lia) ltac:(lia)) as (m2 & _ & Hx & _ & _ & Hf). rewrite Ef in *.
  rewrite (Hx eq_refl eq_refl) in Hf. destruct Hf as [[_ ?]|[Hfin Hv]]; [lia|]. split; [done|]. rewrite Hv, Ev.
  unfold scaled. change (pow2 0) with 1%Q. ring.
Qed.

(** ** Operations *)

Lemma fin_cases f : fin f -> (exists s, f = S754_zero s) \/ exists m e, f = S754_finite false m e /\ canon (Z.pos m) e.
Proof. destruct f as [s| | |[] m e]; try done; [left; eauto|right; eauto]. Qed.

Lemma ulp_pos : (0 < ulp)%Q.
Proof. apply pow2_pos. Qed.

Lemma tiny_pos : (0 < tiny)%Q.
Proof. apply pow2_pos. Qed.

Lemma upto_weaken X Y f : upto X f -> (X <= Y)%Q -> upto Y f.
Proof. intros [[E HX]|[E HX]] H; [left|right]; (split; [done|]); by eapply Qle_trans. Qed.

Lemma upto_round X f : (0 <= X)%Q -> upto X f -> upto (X * (1 + ulp) + tiny) f.
Proof.
  intros H0 H. eapply upto_weaken; [done|]. pose proof ulp_pos. pose proof tiny_pos.
  assert (0 <= X * ulp)%Q by (apply Qmult_le_0_compat; lra). lra.
Qed.

Lemma fin_upto f : fin f -> upto (val f) f.
Proof. intros H. right. split; [done|apply Qle_refl]. Qed.

(** The aligned sum or difference of two finite numbers. *)
Lemma aligned mx ex my ey : let ez := Z.min ex ey in
  (scaled (Z.pos (fst (shl_align mx ex ez))) ez == scaled (Z.pos mx) ex)%Q /\
  (scaled (Z.pos (fst (shl_align my ey ez))) ez == scaled (Z.pos my) ey)%Q.
Proof.
  intros ez. destruct (shl_align_spec mx ex ez) as (m' & -> & E1 & _). destruct (shl_align_spec my ey ez) as (m'' & -> & E2 & _).
  replace (Z.min ex ez) with ez in E1 by lia. replace (Z.min ey ez) with ez in E2 by lia. done.
Qed.

Lemma fadd_upto a b X Y : fin a -> (val a <= X)%Q -> upto Y b -> upto ((X + Y) * (1 + ulp) + tiny) (fadd a b).
Proof.
  intros Ha HX Hb. pose proof (val_nonneg a) as Ha0. pose proof (val_nonneg b) as Hb0. pose proof ulp_pos as Hu. pose proof tiny_pos as Ht.
  assert (0 <= Y)%Q as HY.
  { destruct Hb as [[_ ?]|[_ ?]]; [|lra]. apply Qle_trans with (pow2 1000); [apply Qlt_le_weak, pow2_pos|done]. }
  assert (forall f, upto (X + Y) f -> upto ((X + Y) * (1 + ulp) + tiny) f) as Hr by (intros f; apply upto_round; lra).
  destruct Hb as [[-> HY']|[Hb Hbv]].
  - apply Hr. left. split; [|lra]. by destruct a as [| | |[]].
  - destruct (fin_cases a Ha) as [[sa ->]|(ma & ea & -> & Ca)].
    + apply Hr, (upto_weaken (val b)); [|lra]. destruct (fin_cases b Hb) as [[sb ->]|(mb & eb & -> & Cb)].
      * right. split; [by destruct sa, sb|]. destruct sa, sb; apply Qle_refl.
      * by apply fin_upto.
    + destruct (fin_cases b Hb) as [[sb ->]|(mb & eb & -> & Cb)].
      * apply Hr, (upto_weaken (val (S754_finite false ma ea))); [by apply fin_upto|lra].
      * unfold fadd, SFadd. destruct (aligned ma ea mb eb) as [E1 E2]. set (ez := Z.min ea eb) in *. cbn [cond_Zopp].
        rewrite <- Pos2Z.inj_add. cbn [binary_normalize]. apply binary_round_upto. rewrite Pos2Z.inj_add, scaled_add, E1, E2.
        cbn [val] in HX, Hbv. lra.
Qed.

(** Taking away a number that is not greater. *)
Lemma fsub_upto a b : fin a -> fin b -> (val b <= val a)%Q ->
  upto ((val a - val b) * (1 + ulp) + tiny) (SFsub 53 1024 a b).
Proof.
  intros Ha Hb Hle. assert (forall f, upto (val a - val b) f -> upto ((val a - val b) * (1 + ulp) + tiny) f) as Hr
    by (intros f; apply upto_round; lra).
  destruct (fin_cases b Hb) as [[sb ->]|(mb & eb & -> & Cb)].
  - apply Hr. destruct (fin_cases a Ha) as [[sa ->]|(ma & ea & -> & Ca)].
    + right. split; [by destruct sa, sb|]. destruct sa, sb; vm_compute; discriminate.
    + right. split; [done|]. cbn [SFsub val]. lra.
  - destruct (fin_cases a Ha) as [[sa ->]|(ma & ea & -> & Ca)].
    + exfalso. cbn [val] in Hle. pose proof (scaled_lt 0 (Z.pos mb) eb ltac:(lia)) as H0.
      assert (scaled 0 eb == 0)%Q as E0 by (unfold scaled; ring). lra.
    + unfold SFsub. destruct (aligned ma ea mb eb) as [E1 E2]. set (ez := Z.min ea eb) in *. cbn [cond_Zopp].
      set (p := fst (shl_align ma ea ez)) in *. set (q := fst (shl_align mb eb ez)) in *. cbn [val] in *.
      assert (scaled (Z.pos p - Z.pos q) ez == scaled (Z.pos ma) ea - scaled (Z.pos mb) eb)%Q as Ed.
      { rewrite <- E1, <- E2. unfold scaled. unfold Z.sub. rewrite inject_Z_plus, inject_Z_opp. ring. }
      destruct (Z.pos p - Z.pos q) as [|d|d] eqn:Epq; cbn [binary_normalize].
      * apply Hr. right. split; [done|]. cbn [val]. lra.
      * apply binary_round_upto. rewrite Ed. apply Qle_refl.
      * exfalso. pose proof (scaled_lt (Z.neg d) 0 ez ltac:(lia)) as H0. assert (scaled 0 ez == 0)%Q as E0 by (unfold scaled; ring). lra.
Qed.

Lemma scaled_mult m m' e e' : (scaled (m * m') (e + e') == scaled m e * scaled m' e')%Q.
Proof. unfold scaled. rewrite pow2_add, inject_Z_mult. ring. Qed.

Lemma canon_digits m e : canon (Z.pos m) e -> (-1074 < e -> Z.pos (digits2_pos m) = 53) /\ Z.pos (digits2_pos m) <= 53.
Proof.
  intros ([_ H1] & H2 & H3). split; [|apply (Zdigits2_le (Z.pos m)); lia]. intros Hlt.
  pose proof (Zdigits2_ge (Z.pos m) 52 ltac:(lia) (H3 Hlt)). pose proof (Zdigits2_le (Z.pos m) 53 ltac:(lia) ltac:(lia) H1). cbn [Zdigits2] in *. lia.
Qed.

Lemma fmul_upto a b X : fin a -> fin b -> (val a * val b <= X)%Q -> upto (X * (1 + ulp) + tiny) (fmul a b).
Proof.
  intros Ha Hb HX. pose proof (val_nonneg a). pose proof (val_nonneg b).
  assert (0 <= X)%Q as HX0 by (eapply Qle_trans; [|exact HX]; by apply Qmult_le_0_compat).
  destruct (fin_cases a Ha) as [[sa ->]|(ma & ea & -> & Ca)]; [|destruct (fin_cases b Hb) as [[sb ->]|(mb & eb & -> & Cb)]].
  - apply upto_round; [done|]. right. destruct (fin_cases b Hb) as [[sb ->]|(mb & eb & -> & Cb)]; done.
  - apply upto_round; [done|]. right. done.
  - unfold fmul, SFmul. cbn [xorb]. apply round_aux_upto; [done| |].
    + destruct (canon_digits ma ea Ca) as [Da _], (canon_digits mb eb Cb) as [Db _].
      destruct (digits2_bounds ma) as [Ba _], (digits2_bounds mb) as [Bb _].
      assert (Z.pos (digits2_pos ma) - 1 + (Z.pos (digits2_pos mb) - 1) + 1 <= Zdigits2 (Z.pos (ma * mb))) as Hd.
      { apply Zdigits2_ge; [lia|]. rewrite Z.pow_add_r by lia. rewrite Pos2Z.inj_mul. apply Z.mul_le_mono_nonneg; try done; apply Z.pow_nonneg; lia. }
      destruct Ca as (_ & Ea & _), Cb as (_ & Eb & _). unfold fexp64.
      destruct (Z.eq_dec ea (-1074)), (Z.eq_dec eb (-1074)); lia.
    + rewrite Pos2Z.inj_mul, scaled_mult. exact HX.
Qed.

(** Dividing by a positive number. *)
Lemma fdiv_upto a mb eb X : fin a -> canon (Z.pos mb) eb -> (val a <= X * scaled (Z.pos mb) eb)%Q -> (0 <= X)%Q ->
  upto (X * (1 + ulp) + tiny) (fdiv a (S754_finite false mb eb)).
Proof.
  intros Ha Cb HX HX0. destruct (fin_cases a Ha) as [[sa ->]|(ma & ea & -> & Ca)].
  { apply upto_round; [done|]. right. done. }
  unfold fdiv, SFdiv, SFdiv_core_binary. change (fexp 53 1024) with fexp64. cbn [Zdigits2 xorb].
  set (d1 := Z.pos (digits2_pos ma)) in *. set (d2 := Z.pos (digits2_pos mb)) in *.
  set (e' := Z.min (fexp64 (d1 + ea - (d2 + eb))) (ea - eb)). set (s := ea - eb - e').
  assert (0 <= s) as Hs by lia. set (m' := match s with 0 => Z.pos ma | Z.pos _ => Z.shiftl (Z.pos ma) s | Z.neg _ => 0 end).
  assert (m' = Z.pos ma * 2 ^ s) as Em'.
  { unfold m'. destruct s as [|p|p]; [lia|by rewrite Z.shiftl_mul_pow2|lia]. }
  pose proof (Z_div_mod m' (Z.pos mb) ltac:(lia)) as Hdm. destruct (Z.div_eucl m' (Z.pos mb)) as [q r]. destruct Hdm as [Eq Hr].
  assert (0 <= q) as Hq. { assert (0 <= m') by (rewrite Em'; apply Z.mul_nonneg_nonneg; [lia|apply Z.pow_nonneg; lia]). nia. }
  apply round_aux_upto; [done| |].
  - assert (d1 + s - d2 <= Zdigits2 q) as Hd.
    { pose proof (Zdigits2_nonneg q Hq). destruct (Z.le_gt_cases (d1 + s - d2) 0); [lia|].
      enough (d1 + s - d2 - 1 + 1 <= Zdigits2 q) by lia. apply Zdigits2_ge; [lia|].
      destruct (digits2_bounds ma) as [Ba _], (digits2_bounds mb) as [_ Bb]. fold d1 in Ba. fold d2 in Bb.
      assert (2 ^ (d1 + s - d2 - 1) * 2 ^ d2 <= m') as H2.
      { rewrite <- Z.pow_add_r by lia. replace (d1 + s - d2 - 1 + d2) with (d1 - 1 + s) by lia. rewrite Z.pow_add_r by lia. rewrite Em'.
        apply Z.mul_le_mono_nonneg_r; [apply Z.pow_nonneg; lia|done]. }
      pose proof (Z.pow_pos_nonneg 2 (d1 + s - d2 - 1) ltac:(lia) ltac:(lia)). nia. }
    unfold fexp64 in *. lia.
  - apply (Qmult_le_r _ _ (scaled (Z.pos mb) eb)).
    { pose proof (scaled_lt 0 (Z.pos mb) eb ltac:(lia)) as H0. assert (scaled 0 eb == 0)%Q as E0 by (unfold scaled; ring). lra. }
    eapply Qle_trans; [|exact HX]. rewrite <- scaled_mult. cbn [val]. rewrite <- (scaled_shift (Z.pos ma) ea s Hs), <- Em'.
    replace (ea - s) with (e' + eb) by lia. apply scaled_le. lia.
Qed.

(** ** Comparisons *)

Lemma canon_lt m e m' e' : canon m e -> canon m' e' -> e < e' -> (scaled m e < scaled m' e')%Q.
Proof.
  intros ((_ & H1) & H2 & _) (_ & _ & H3) He. specialize (H3 ltac:(lia)). apply Qlt_le_trans with (scaled (2 ^ 53) e); [by apply scaled_lt|].
  apply Qle_trans with (scaled (2 ^ 52) e'); [|by apply scaled_le]. unfold scaled.
  rewrite <- (pow2_Z 53 ltac:(lia)), <- (pow2_Z 52 ltac:(lia)), <- !pow2_add. apply pow2_le. lia.
Qed.

Lemma SFcompare_val a b : fin a -> fin b -> SFcompare a b = Some (Qcompare (val a) (val b)).
Proof.
  assert (forall m e, (0 < scaled (Z.pos m) e)%Q) as Hpos.
  { intros m e. pose proof (scaled_lt 0 (Z.pos m) e ltac:(lia)) as H0. assert (scaled 0 e == 0)%Q as E0 by (unfold scaled; ring). lra. }
  intros Ha Hb. destruct (fin_cases a Ha) as [[sa ->]|(ma & ea & -> & Ca)], (fin_cases b Hb) as [[sb ->]|(mb & eb & -> & Cb)]; cbn [val SFcompare].
  - done.
  - f_equal. symmetry. apply Qlt_alt, Hpos.
  - f_equal. symmetry. apply Qgt_alt, Hpos.
  - f_equal. symmetry. destruct (Z.compare_spec ea eb) as [->|Hlt|Hgt].
    + change (Pos.compare_cont Eq ma mb) with (Pos.compare ma mb). destruct (Pos.compare_spec ma mb) as [->|Hlt|Hgt].
      * apply Qeq_alt. reflexivity.
      * apply Qlt_alt, scaled_lt. lia.
      * apply Qgt_alt, scaled_lt. lia.
    + by apply Qlt_alt, canon_lt.
    + by apply Qgt_alt, canon_lt.
Qed.

Lemma SFltb_val a b : fin a -> fin b -> SFltb a b = true <-> (val a < val b)%Q.
Proof.
  intros Ha Hb. unfold SFltb. rewrite SFcompare_val by done. rewrite Qlt_alt. by destruct (Qcompare (val a) (val b)).
Qed.

Lemma SFleb_val a b : fin a -> fin b -> SFleb a b = true <-> (val a <= val b)%Q.
Proof.
  intros Ha Hb. unfold SFleb. rewrite SFcompare_val by done. rewrite Qle_alt. by destruct (Qcompare (val a) (val b)).
Qed.
