(* ===== verification/CookieJson.v ===== *)
(** * JSON field matchers ([internal/pipeline/cookie_json.go])

    [cookie_json] and [header_json] test one dotted field inside a JSON value.  The
    streaming decoder is [encoding/json]'s [Decoder.Token]: a scanner, a token state
    and the stack of the states of the open containers. *)

From stdpp Require Import base strings pretty numbers gmap list.
From Stdlib Require Import Lia.
From S2P Require Import Prelude GoStrings Http Ast.
Open Scope Z_scope.

Definition jsonValueSizeCap : Z := 8 * 1024.
Definition jsonDepthCap : Z := 32.

(** ** The path *)

Inductive jsonPathSeg : Type :=
| segKey (key : bytes)
| segIndex (index : Z).

Inductive jsonPathErr : Type := emptyPath | pathTooDeep | emptySegment.

Definition isAllASCIIDigits (s : bytes) : bool :=
  match s with [] => false | _ => forallb isDigit s end.

Definition compileSeg (p : bytes) : jsonPathSeg :=
  if isAllASCIIDigits p then
    match ParseInt64 p with Some n => segIndex n | None => segKey p end
  else segKey p.

Fixpoint compileSegs (parts : list bytes) : outcome jsonPathErr (list jsonPathSeg) :=
  match parts with
  | [] => Ok []
  | p :: ps =>
    if bool_decide (p = []) then Err emptySegment
    else let! segs := compileSegs ps in Ok (compileSeg p :: segs)
  end.

Definition compileJSONPath (path : bytes) : outcome jsonPathErr (list jsonPathSeg) :=
  if bool_decide (path = []) then Err emptyPath
  else
    let parts := SplitByte path "." in
    if jsonDepthCap <? Z.of_nat (length parts) then Err pathTooDeep else compileSegs parts.

(** [jsonPathString], which writes a compiled path back. *)
Definition jsonPathString (segs : list jsonPathSeg) : bytes :=
  Join (map (fun s => match s with segKey k => k | segIndex n => Itoa n end) segs) (go ".").

(** ** Scanning scalars *)

Definition DQ : ascii := Zbyte 0x22.
Definition BS : ascii := Zbyte 0x5C.

Definition isHex (c : ascii) : bool := match unhex c with Some _ => true | None => false end.

(** The raw content of a string literal after its opening quote, and the rest. *)
Fixpoint scanString (s : bytes) : option (bytes * bytes) :=
  match s with
  | [] => None
  | c :: r =>
    if c =b DQ then Some ([], r)
    else if c =b BS then
      match r with
      | e :: r =>
        if existsb (Ascii.eqb e) [DQ; BS; "/"; "b"; "f"; "n"; "r"; "t"]%char then
          '(raw, rest) ← scanString r; Some (c :: e :: raw, rest)
        else if (e =b "u") then
          match r with
          | h1 :: h2 :: h3 :: h4 :: r =>
            if isHex h1 && isHex h2 && isHex h3 && isHex h4 then
              '(raw, rest) ← scanString r; Some (c :: e :: h1 :: h2 :: h3 :: h4 :: raw, rest)
            else None
          | _ => None
          end
        else None
      | [] => None
      end
    else if byteZ c <? 0x20 then None
    else '(raw, rest) ← scanString r; Some (c :: raw, rest)
  end.

Fixpoint takeDigits (s : bytes) : bytes * bytes :=
  match s with
  | c :: r => if isDigit c then let '(ds, rest) := takeDigits r in (c :: ds, rest) else ([], s)
  | [] => ([], [])
  end.

(** The parts of a number literal: sign, integer, fraction and exponent digits. *)
Record numLit : Type := mkNum { n_neg : bool; n_int : bytes; n_frac : bytes; n_eneg : bool; n_exp : bytes }.

Definition scanInt (s : bytes) : option (bytes * bytes) :=
  match s with
  | c :: r =>
    if c =b "0" then Some ([c], r)
    else if isDigit c then let '(ds, rest) := takeDigits r in Some (c :: ds, rest) else None
  | [] => None
  end.

Definition scanFrac (s : bytes) : option (bytes * bytes) :=
  match s with
  | c :: r =>
    if c =b "." then match takeDigits r with ([], _) => None | p => Some p end else Some ([], s)
  | [] => Some ([], [])
  end.

Definition scanExp (s : bytes) : option (bool * bytes * bytes) :=
  match s with
  | c :: r =>
    if (c =b "e") || (c =b "E") then
      let '(neg, r) := match r with
        | x :: r' => if x =b "-" then (true, r') else if x =b "+" then (false, r') else (false, r)
        | [] => (false, r)
        end in
      match takeDigits r with ([], _) => None | (ds, rest) => Some (neg, ds, rest) end
    else Some (false, [], s)
  | [] => Some (false, [], [])
  end.

Definition scanNumber (s : bytes) : option (numLit * bytes) :=
  let '(neg, s) := match s with c :: r => if c =b "-" then (true, r) else (false, s) | [] => (false, s) end in
  '(int, s) ← scanInt s;
  '(frac, s) ← scanFrac s;
  '(eneg, ex, s) ← scanExp s;
  Some (mkNum neg int frac eneg ex, s).

(** The value is at least [2^1024 - 2^970], the least that rounds out of range:
    [strconv.ParseFloat] then fails, and so does a decode into a [float64]. *)
Definition numOverflows (n : numLit) : bool :=
  let m := digits_value (n_int n ++ n_frac n) in
  let e := (if n_eneg n then - digits_value (n_exp n) else digits_value (n_exp n)) - Z.of_nat (length (n_frac n)) in
  let limit := 2 ^ 1024 - 2 ^ 970 in
  if m =? 0 then false
  else if 400 <? e then true
  else if 0 <=? e then limit <=? m * 10 ^ e
  else if Z.of_nat (length (n_int n ++ n_frac n)) <? - e then false
  else limit * 10 ^ (- e) <=? m.

(** [getu4]: the code unit of a [\uXXXX] escape, or -1. *)
Definition getu4 (s : bytes) : Z :=
  match s with
  | b :: u :: h1 :: h2 :: h3 :: h4 :: _ =>
    if (b =b BS) && (u =b "u") then
      match unhex h1, unhex h2, unhex h3, unhex h4 with
      | Some a, Some b, Some c, Some d => ((a * 16 + b) * 16 + c) * 16 + d
      | _, _, _, _ => -1
      end
    else -1
  | _ => -1
  end.

Definition IsSurrogate (r : Z) : bool := (0xD800 <=? r) && (r <? 0xE000).

(** [utf16.DecodeRune]. *)
Definition DecodeRune16 (r1 r2 : Z) : Z :=
  if (0xD800 <=? r1) && (r1 <? 0xDC00) && (0xDC00 <=? r2) && (r2 <? 0xE000)
  then (r1 - 0xD800) * 1024 + (r2 - 0xDC00) + 0x10000
  else RuneError.

Definition unescapeByte (c : ascii) : ascii :=
  if c =b "b" then Zbyte 8
  else if c =b "f" then Zbyte 12
  else if c =b "n" then Zbyte 10
  else if c =b "r" then Zbyte 13
  else if c =b "t" then Zbyte 9
  else c.

(** [unquote] of the content of a scanned literal. *)
Fixpoint unquote (n : nat) (s : bytes) : bytes :=
  match n with
  | O => []
  | S n =>
    match s with
    | [] => []
    | c :: r =>
      if c =b BS then
        match r with
        | e :: r' =>
          if e =b "u" then
            let rr := getu4 s in
            let s' := drop 6 s in
            if IsSurrogate rr then
              let dec := DecodeRune16 rr (getu4 s') in
              if dec =? RuneError then encodeRune RuneError ++ unquote n s'
              else encodeRune dec ++ unquote n (drop 6 s')
            else encodeRune rr ++ unquote n s'
          else unescapeByte e :: unquote n r'
        | [] => []
        end
      else if byteZ c <? 0x80 then c :: unquote n r
      else let '(rr, size) := decodeRune s in encodeRune rr ++ unquote n (drop size s)
    end
  end.

(** ** The decoder *)

Inductive jtok : Type :=
| TDelim (c : ascii)
| TString (s : bytes)
| TNumber (s : bytes)
| TBool (b : bool)
| TNull.

Inductive tokenState : Type :=
| tokenTopValue | tokenArrayStart | tokenArrayValue | tokenArrayComma
| tokenObjectStart | tokenObjectKey | tokenObjectColon | tokenObjectValue | tokenObjectComma.

#[export] Instance tokenState_eq_dec : EqDecision tokenState.
Proof. solve_decision. Defined.

Record decoder : Type := mkDec {
  d_rest : bytes;
  d_state : tokenState;
  d_stack : list tokenState;
  d_err : bool   (* the sticky error of [Decode] *)
}.

Definition newDecoder (raw : bytes) : decoder := mkDec raw tokenTopValue [] false.

Definition isJSpace (c : ascii) : bool := existsb (Ascii.eqb c) [" "%char; Zbyte 9; Zbyte 10; Zbyte 13].

Fixpoint skipSpace (s : bytes) : bytes :=
  match s with c :: r => if isJSpace c then skipSpace r else s | [] => [] end.

Definition with_rest (d : decoder) (s : bytes) : decoder := mkDec s (d_state d) (d_stack d) (d_err d).
Definition with_state (d : decoder) (st : tokenState) : decoder := mkDec (d_rest d) st (d_stack d) (d_err d).

Definition tokenValueAllowed (st : tokenState) : bool :=
  match st with tokenTopValue | tokenArrayStart | tokenArrayValue | tokenObjectValue => true | _ => false end.

Definition tokenValueEnd (st : tokenState) : tokenState :=
  match st with
  | tokenArrayStart | tokenArrayValue => tokenArrayComma
  | tokenObjectValue => tokenObjectComma
  | st => st
  end.

(** [Decode] of the scalar at the head of the buffer into an [any] (or, for
    [useNumber], keeping the literal's text). *)
Definition decodeLit (useNumber : bool) (s : bytes) : option (jtok * bytes) :=
  match s with
  | [] => None
  | c :: r =>
    if c =b DQ then '(raw, rest) ← scanString r; Some (TString (unquote (length raw) raw), rest)
    else if HasPrefix s (go "true") then Some (TBool true, drop 4 s)
    else if HasPrefix s (go "false") then Some (TBool false, drop 5 s)
    else if HasPrefix s (go "null") then Some (TNull, drop 4 s)
    else '(n, rest) ← scanNumber s;
         if negb useNumber && numOverflows n then None
         else Some (TNumber (take (length s - length rest) s), rest)
  end.

Inductive tokRes : Type :=
| TokOk (t : jtok) (d : decoder)
| TokEOF (d : decoder)
| TokErr (d : decoder).

Definition decode (useNumber : bool) (d : decoder) : tokRes :=
  if d_err d then TokErr d
  else match decodeLit useNumber (d_rest d) with
       | Some (t, rest) => TokOk t (mkDec rest (tokenValueEnd (d_state d)) (d_stack d) false)
       | None => TokErr (mkDec (d_rest d) (d_state d) (d_stack d) true)
       end.

(** Opening and closing a container. *)
Definition openDelim (c : ascii) (st : tokenState) (r : bytes) (d : decoder) : tokRes :=
  if tokenValueAllowed (d_state d) then TokOk (TDelim c) (mkDec r st (d_state d :: d_stack d) (d_err d))
  else TokErr d.

Definition closeDelim (c : ascii) (st st' : tokenState) (r : bytes) (d : decoder) : tokRes :=
  if bool_decide (d_state d = st \/ d_state d = st') then
    match d_stack d with
    | top :: stack => TokOk (TDelim c) (mkDec r (tokenValueEnd top) stack (d_err d))
    | [] => TokErr d
    end
  else TokErr d.

(** One turn of the loop of [Token]: a result, or the decoder to continue with. *)
Definition tokenStep (useNumber : bool) (d : decoder) : tokRes + decoder :=
  let d := with_rest d (skipSpace (d_rest d)) in
  match d_rest d with
  | [] => inl (TokEOF d)
  | c :: r =>
    if c =b "[" then inl (openDelim c tokenArrayStart r d)
    else if c =b "]" then inl (closeDelim c tokenArrayStart tokenArrayComma r d)
    else if c =b "{" then inl (openDelim c tokenObjectStart r d)
    else if c =b "}" then inl (closeDelim c tokenObjectStart tokenObjectComma r d)
    else if c =b ":" then
      if bool_decide (d_state d = tokenObjectColon) then inr (with_state (with_rest d r) tokenObjectValue)
      else inl (TokErr d)
    else if c =b "," then
      match d_state d with
      | tokenArrayComma => inr (with_state (with_rest d r) tokenArrayValue)
      | tokenObjectComma => inr (with_state (with_rest d r) tokenObjectKey)
      | _ => inl (TokErr d)
      end
    else if (c =b DQ) && bool_decide (d_state d = tokenObjectStart \/ d_state d = tokenObjectKey) then
      inl match decode useNumber (with_state d tokenTopValue) with
          | TokOk t d' => TokOk t (with_state d' tokenObjectColon)
          | TokEOF d' => TokEOF (with_state d' (d_state d))
          | TokErr d' => TokErr (with_state d' (d_state d))
          end
    else if tokenValueAllowed (d_state d) then inl (decode useNumber d)
    else inl (TokErr d)
  end.

(** [Decoder.Token]; a turn after a [:] or a [,] never continues again. *)
Definition nextToken (useNumber : bool) (d : decoder) : tokRes :=
  match tokenStep useNumber d with
  | inl r => r
  | inr d => match tokenStep useNumber d with inl r => r | inr d => TokErr d end
  end.

(** [Decoder.More]; the white space it skips is skipped again by [Token]. *)
Definition More (d : decoder) : bool :=
  match skipSpace (d_rest d) with
  | [] => false
  | c :: _ => negb ((c =b "]") || (c =b "}"))
  end.

(** ** The engine *)

(** [jsonDocDepthValid]: [None] when the fuel is out. *)
Fixpoint docDepthLoop (n : nat) (d : decoder) (depth : Z) (complete : bool) : option bool :=
  match n with
  | O => None
  | S n =>
    match nextToken false d with
    | TokEOF _ => Some true
    | TokErr _ => Some false
    | TokOk t d =>
      if complete then Some false
      else match t with
           | TDelim c =>
             if (c =b "{") || (c =b "[") then
               if jsonDepthCap <? depth + 1 then Some false else docDepthLoop n d (depth + 1) complete
             else docDepthLoop n d (depth - 1) (if depth - 1 =? 0 then true else complete)
           | _ => docDepthLoop n d depth (if depth =? 0 then true else complete)
           end
    end
  end.

(** Enough turns for every token of a document. *)
Definition jsonFuel (raw : bytes) : nat := (4 * length raw + 8)%nat.

Definition jsonDocDepthValid (raw : bytes) : bool :=
  default false (docDepthLoop (jsonFuel raw) (newDecoder raw) 0 false).

Definition isOpen (t : jtok) : bool :=
  match t with TDelim c => (c =b "{") || (c =b "[") | _ => false end.

(** [skipValue] and its loop over the elements of an open container. *)
Fixpoint skipValue (n : nat) (d : decoder) (depth : Z) {struct n} : option (bool * decoder) :=
  match n with
  | O => None
  | S n =>
    if jsonDepthCap <? depth then Some (false, d)
    else match nextToken true d with
         | TokErr d | TokEOF d => Some (false, d)
         | TokOk (TDelim c) d =>
           if negb ((c =b "{") || (c =b "[")) then Some (false, d) else skipLoop n d depth
         | TokOk _ d => Some (true, d)
         end
  end
with skipLoop (n : nat) (d : decoder) (depth : Z) {struct n} : option (bool * decoder) :=
  match n with
  | O => None
  | S n =>
    if More d then
      '(ok, d) ← skipValue n d (depth + 1);
      if (ok : bool) then skipLoop n d depth else Some (false, d)
    else match nextToken true d with
         | TokOk _ d => Some (true, d)
         | TokErr d | TokEOF d => Some (false, d)
         end
  end.

Fixpoint drainContainer (n : nat) (d : decoder) : option decoder :=
  match n with
  | O => None
  | S n =>
    if More d then
      '(ok, d) ← skipValue n d 0;
      if (ok : bool) then drainContainer n d else Some d
    else match nextToken true d with TokOk _ d | TokErr d | TokEOF d => Some d end
  end.

(** [decodeScalar]: the coerced scalar, if the value is one. *)
Definition decodeScalar (n : nat) (d : decoder) (depth : Z) : option (option bytes * decoder) :=
  if jsonDepthCap <? depth then Some (None, d)
  else match nextToken true d with
       | TokErr d | TokEOF d => Some (None, d)
       | TokOk (TDelim c) d =>
         if (c =b "{") || (c =b "[") then d ← drainContainer n d; Some (None, d) else Some (None, d)
       | TokOk (TString s) d => Some (Some s, d)
       | TokOk (TNumber s) d => Some (Some s, d)
       | TokOk (TBool b) d => Some (Some (if b then go "true" else go "false"), d)
       | TokOk TNull d => Some (None, d)
       end.

(** [descend] on the remaining segments, with the loops of [descendObject] and
    [descendArray]; [res] is the result of the last match so far. *)
Fixpoint descend (n : nat) (d : decoder) (segs : list jsonPathSeg) (depth : Z) {struct n}
    : option (option bytes * decoder) :=
  match n with
  | O => None
  | S n =>
    if jsonDepthCap <? depth then Some (None, d)
    else match segs with
    | [] => Some (None, d)
    | seg :: segs =>
      match nextToken true d with
      | TokErr d | TokEOF d => Some (None, d)
      | TokOk (TDelim c) d =>
        if c =b "{" then
          match seg with
          | segIndex _ => d ← drainContainer n d; Some (None, d)
          | segKey key => descendObject n d segs depth key None
          end
        else if c =b "[" then
          match seg with
          | segKey _ => d ← drainContainer n d; Some (None, d)
          | segIndex index => descendArray n d segs depth index 0 None
          end
        else Some (None, d)
      | TokOk _ d => Some (None, d)
      end
    end
  end
with descendObject (n : nat) (d : decoder) (segs : list jsonPathSeg) (depth : Z) (key : bytes)
    (res : option bytes) {struct n} : option (option bytes * decoder) :=
  match n with
  | O => None
  | S n =>
    if More d then
      match nextToken true d with
      | TokOk (TString k) d =>
        if bool_decide (k = key) then
          '(res, d) ← match segs with
                      | [] => decodeScalar n d (depth + 1)
                      | _ => descend n d segs (depth + 1)
                      end;
          descendObject n d segs depth key res
        else
          '(ok, d) ← skipValue n d (depth + 1);
          if (ok : bool) then descendObject n d segs depth key res else Some (None, d)
      | TokOk _ d | TokErr d | TokEOF d => Some (None, d)
      end
    else match nextToken true d with
         | TokOk _ d => Some (res, d)
         | TokErr d | TokEOF d => Some (None, d)
         end
  end
with descendArray (n : nat) (d : decoder) (segs : list jsonPathSeg) (depth index i : Z)
    (res : option bytes) {struct n} : option (option bytes * decoder) :=
  match n with
  | O => None
  | S n =>
    if More d then
      if i =? index then
        '(res, d) ← match segs with
                    | [] => decodeScalar n d (depth + 1)
                    | _ => descend n d segs (depth + 1)
                    end;
        descendArray n d segs depth index (i + 1) res
      else
        '(ok, d) ← skipValue n d (depth + 1);
        if (ok : bool) then descendArray n d segs depth index (i + 1) res else Some (None, d)
    else match nextToken true d with
         | TokOk _ d => Some (res, d)
         | TokErr d | TokEOF d => Some (None, d)
         end
  end.

(** [resolveJSONField]: the scalar at the path, if any. *)
Definition resolveJSONField (raw : bytes) (segs : list jsonPathSeg) : option bytes :=
  if jsonValueSizeCap <? Z.of_nat (length raw) then None
  else if bool_decide (length segs = 0%nat) then None
  else if negb (jsonDocDepthValid raw) then None
  else match descend (jsonFuel raw) (newDecoder raw) segs 0 with
       | Some (res, _) => res
       | None => None
       end.

Definition decodeJSONCookieValue (raw : bytes) : bytes :=
  match IndexByte raw "%" with
  | None => raw
  | Some _ => default raw (PathUnescape raw)
  end.

Definition jsonMatch (raw : bytes) (present : bool) (segs : list jsonPathSeg) (vals : list bytes) : bool :=
  if negb present then false
  else match resolveJSONField (decodeJSONCookieValue raw) segs with
       | None => false
       | Some v => match vals with [] => true | _ => existsb (fun want => bool_decide (v = want)) vals end
       end.

(** A quoted JSON text, for the examples. *)
Definition jq (s : string) : bytes := map (fun c => if c =b "'" then DQ else c) (go s).

Example resolveJSONField_examples :
  map (fun '(s, segs) => resolveJSONField (jq s) segs)
    [("{'a':1,'a':true}"%string, [segKey (go "a")]);
     ("{'u':{'v':'x y'},'n':[10,{'k':-1.50e2}]}"%string, [segKey (go "n"); segIndex 1; segKey (go "k")]);
     ("{'a':1} true"%string, [segKey (go "a")]);
     ("{'a':1"%string, [segKey (go "a")]);
     ("{'a':1e999,'b':2}"%string, [segKey (go "b")]);
     (" { 'a' : null } "%string, [segKey (go "a")])]
  = [Some (go "true"); Some (go "-1.50e2"); None; None; None; None].
Proof. vm_compute. reflexivity. Qed.
