(* ===== verification/Request.v ===== *)
(** * The data of the request pipeline ([internal/pipeline]: [request.go], and the
    compiled forms of [matcher.go], [classify.go], [normalize.go], [tenant.go] and
    [cachekey.go]), and the readers of a request

    Matchers live in a heap: a [*matcher] is an index into the list of the compiled
    matchers, so that sharing and the memo slot each matcher carries are as in the
    code.  Regular expressions are the functions a compiled [regexp.Regexp] offers. *)

From stdpp Require Import base strings pretty numbers gmap list.
From Stdlib Require Import Lia SpecFloat.
From S2P Require Import Prelude GoStrings Http Ast Netip Glob Host CookieJson Duration.
Open Scope Z_scope.

(** ** Compiled matchers *)

Record regexp : Type := mkRegexp {
  reMatch : bytes -> bool;                      (* MatchString *)
  reSubmatch : bytes -> option (list bytes);    (* FindStringSubmatch *)
  reExpand : bytes -> bytes -> option bytes     (* the template expanded on the leftmost match, if any *)
}.

(** What the sources call in the standard library and is not defined here:
    [regexp.Compile], [strconv.ParseFloat] and the parser of IPv6 addresses. *)
Class GoLib := {
  reCompile : bytes -> option regexp;
  parseFloat : bytes -> option float64;
  parseIPv6 : bytes -> option Addr
}.

(** A [*matcher]. *)
Abbreviation ptr := nat.

Record classifyRow : Type := mkRow { conj : list ptr; row_value : bytes }.

Record classifier : Type := mkClassifier {
  cl_name : bytes;
  cl_pos : Pos;
  cl_rows : list classifyRow;
  cl_def : bytes;
  derivesFrom : list bytes;
  derivesForward : list bytes
}.

Record secTerm : Type := mkTerm { t_m : ptr; t_negate : bool }.

Inductive geoGranularity : Type := geoCountry | geoContinent | geoRegion.

(** [matcherKind] with the fields each kind populates. *)
Inductive matcherKind : Type :=
| kindPath (paths : pathSet)
| kindPathRegex (re : regexp)
| kindHost (hosts : hostSet)
| kindHostRegex (re : regexp)
| kindHeader (headerName : bytes) (headerValues : list bytes)
| kindHeaderPresent (headerName : bytes)
| kindHeaderRegex (headerName : bytes) (re : regexp)
| kindMethod (methods : gset bytes)
| kindUpstream (upstreams : gset bytes)
| kindContentType (contentTypes : list bytes)
| kindRespHeader (headerName : bytes) (respValuePatterns : list bytes) (respValues : option nameGlobSet)
| kindCookie (cookieName : bytes) (cookieGlob : bool) (cookieValues : list bytes)
| kindSetCookie (setCookieNames : list bytes)
| kindClassify (cl : classifier) (classifyValue : bytes) (classifyNegate : bool)
| kindGeo (geoGran : geoGranularity) (geoValues : gset bytes)
| kindQueryPresent (queryNames : nameGlobSet) (queryNamesNonEmpty : option nameGlobSet)
| kindQuery (queryName : bytes) (queryValues : list bytes)
| kindIP (ipPrefixes : list Prefix)
| kindCookieJSON (jsonName : bytes) (jsonPath : list jsonPathSeg) (jsonValues : list bytes)
| kindHeaderJSON (jsonName : bytes) (jsonPath : list jsonPathSeg) (jsonValues : list bytes)
| kindAll (subTerms : list secTerm)
| kindUpstreamHealthy (healthyPools : list bytes).

Record matcher : Type := mkMatcher {
  m_name : bytes;
  m_pos : Pos;
  m_idx : Z;        (* memo slot, -1 until assigned *)
  m_kind : matcherKind
}.

Abbreviation heap := (list matcher).

(** An OR of matchers; a nil [*scope] is [None] and always matches. *)
Abbreviation scope := (list ptr).

(** ** Normalizers and tenants *)

Inductive normSourceKind : Type := normHeader | normCookie | normQuery.

Record normalizer : Type := mkNormalizer {
  nz_name : bytes;
  nz_source : normSourceKind;
  nz_sourceName : bytes;
  nz_mapping : gmap bytes bytes;
  nz_def : bytes
}.

Record tenantRule : Type := mkTenantRule { tr_pattern : bytes; tr_name : bytes }.

Record tenantResolver : Type := mkTenantResolver {
  tr_fromHeader : bytes;
  tr_rules : list tenantRule;
  tr_def : bytes
}.

(** ** Key tokens *)

(** [keyToken], by kind. *)
Inductive keyToken : Type :=
| tokMethod
| tokHost
| tokPath
| tokURL
| tokQuery
| tokQueryAllow (allow : nameGlobSet)
| tokQueryStrip (deny : nameGlobSet)
| tokHeader (name : bytes)
| tokCookie (name : bytes)
| tokSticky
| tokDevice
| tokGeo
| tokGeoContinent
| tokGeoRegion
| tokNormalize (norm : normalizer)
| tokClassify (clsf : classifier)
| tokTenant (tenantR : option tenantResolver) (tenant : bytes)
| tokLiteral (text : bytes).

(** ** Requests *)

Record cookieKV : Type := mkCookie { ck_name : bytes; ck_value : bytes }.

Record Request : Type := mkRequest {
  rq_Method : bytes;
  rq_Host : bytes;
  rq_Path : bytes;
  rq_Query : values;
  rq_Header : header;
  rq_ClientIP : bytes;
  rq_RealClientIP : option Addr;
  rq_Device : bytes;
  rq_Geo : bytes;
  rq_GeoContinent : bytes;
  rq_GeoRegion : bytes;
  rq_TLS : bool;
  rq_PoolHealthy : option (bytes -> bool);
  rq_selKey : option (list keyToken);            (* the captured recipe, when [selKeySet] *)
  rq_cookieMemo : option (bytes * list cookieKV) (* [cookieMemoRaw], [cookieMemo] when set *)
}.

Definition set_Method (r : Request) (m : bytes) : Request :=
  let 'mkRequest _ ho p q h ip rip dv g gc gr tls ph sk cm := r in mkRequest m ho p q h ip rip dv g gc gr tls ph sk cm.
Definition set_Header (r : Request) (h : header) : Request :=
  let 'mkRequest m ho p q _ ip rip dv g gc gr tls ph sk cm := r in mkRequest m ho p q h ip rip dv g gc gr tls ph sk cm.
Definition set_PoolHealthy (ph : option (bytes -> bool)) (q : Request) : Request :=
  let 'mkRequest m ho p qu h ip rip dv g gc gr tls _ sk cm := q in mkRequest m ho p qu h ip rip dv g gc gr tls ph sk cm.

Definition set_classes (r : Request) (dv g gc gr : bytes) : Request :=
  let 'mkRequest m ho p q h ip rip _ _ _ _ tls ph sk cm := r in mkRequest m ho p q h ip rip dv g gc gr tls ph sk cm.
Definition set_selKey (r : Request) (sk : option (list keyToken)) : Request :=
  let 'mkRequest m ho p q h ip rip dv g gc gr tls ph _ cm := r in mkRequest m ho p q h ip rip dv g gc gr tls ph sk cm.
Definition set_cookieMemo (r : Request) (cm : option (bytes * list cookieKV)) : Request :=
  let 'mkRequest m ho p q h ip rip dv g gc gr tls ph sk _ := r in mkRequest m ho p q h ip rip dv g gc gr tls ph sk cm.

Section Readers.
Context {U : Platform}.

Definition method (r : Request) : bytes :=
  if bool_decide (rq_Method r = []) then go "GET" else toUpper (rq_Method r).

Definition normHost (r : Request) : bytes := normalizeHost uni_lower (rq_Host r).

Definition headerGet (r : Request) (name : bytes) : bytes := Get (rq_Header r) name.

(** All the lines of a header as one field value. *)
Definition headerCombined (r : Request) (name : bytes) : bytes := Join (Values (rq_Header r) name) (go ", ").

(** ** Cookies *)

Definition DQUOTE : bytes := [Zbyte 0x22].

Definition unquoteCookie (v : bytes) : bytes :=
  if (2 <=? length v)%nat && HasPrefix v DQUOTE && HasSuffix v DQUOTE then take (length v - 2) (drop 1 v) else v.

(** One [;]-separated part. *)
Definition parseCookiePart (part0 : bytes) : option cookieKV :=
  let part := TrimSpace part0 in
  if bool_decide (part = []) then None
  else
    let '(name, value) :=
      match IndexByte part "=" with
      | Some eq => (TrimSpace (take eq part), TrimSpace (drop (S eq) part))
      | None => (part, [])
      end in
    if bool_decide (name = []) then None
    else Some (mkCookie name (unquoteCookie value)).

Definition parseLenientCookies (raw : bytes) : list cookieKV := omap parseCookiePart (SplitByte raw ";").

(** The package-level reader: every Cookie line, in order. *)
Definition lenientCookies (h : header) : list cookieKV :=
  match default [] (h !! go "Cookie") with
  | [] => []
  | lines => parseLenientCookies (Join lines (go "; "))
  end.

(** The memoized per-request reader: the cookies and the request with its memo. *)
Definition lenientCookiesMemo (r : Request) : list cookieKV * Request :=
  match default [] (rq_Header r !! go "Cookie") with
  | [] => ([], r)
  | lines =>
    let raw := Join lines (go "; ") in
    let parse := (parseLenientCookies raw, set_cookieMemo r (Some (raw, parseLenientCookies raw))) in
    match rq_cookieMemo r with
    | Some (raw', cs) => if bool_decide (raw' = raw) then (cs, r) else parse
    | None => parse
    end
  end.

(** The cookies of a request, as both readers see them ([lenientCookiesMemo_ok]). *)
Definition cookies (r : Request) : list cookieKV := lenientCookies (rq_Header r).

Definition findCookie (cs : list cookieKV) (name : bytes) : option bytes :=
  ck_value <$> List.find (fun c => bool_decide (ck_name c = name)) cs.

Definition cookie (r : Request) (name : bytes) : bytes := default [] (findCookie (cookies r) name).

Definition LenientCookieValue (h : header) (name : bytes) : bytes := default [] (findCookie (lenientCookies h) name).

Definition cookieNames (r : Request) : list bytes := map ck_name (cookies r).

(** ** Normalizers and tenants *)

Definition sourceValue (n : normalizer) (r : Request) : bytes :=
  match nz_source n with
  | normHeader => headerCombined r (nz_sourceName n)
  | normCookie => cookie r (nz_sourceName n)
  | normQuery => qget (rq_Query r) (nz_sourceName n)
  end.

Definition normalizer_resolve (n : normalizer) (r : Request) : bytes :=
  default (nz_def n) (nz_mapping n !! sourceValue n r).

Definition tenantRule_match (r : tenantRule) (v : bytes) : bool :=
  if HasPrefix (tr_pattern r) (go "*.") then
    bool_decide (v = drop 2 (tr_pattern r)) || HasSuffix v (drop 1 (tr_pattern r))
  else bool_decide (v = tr_pattern r).

Definition tenantResolver_resolve (tr : tenantResolver) (r : Request) : bytes :=
  let v := if bool_decide (tr_fromHeader tr = []) then normHost r
           else toLower (headerCombined r (tr_fromHeader tr)) in
  match List.find (fun ru => tenantRule_match ru v) (tr_rules tr) with
  | Some ru => tr_name ru
  | None => tr_def tr
  end.

(** The bounded set of values a token can take ([buckets], [tenants], [values]). *)
Definition distinctNonEmpty (l : list bytes) : list bytes :=
  fold_left (fun out s => if bool_decide (s = []) || bool_decide (s ∈ out) then out else out ++ [s]) l [].

Definition tenants (tr : tenantResolver) : list bytes := distinctNonEmpty (map tr_name (tr_rules tr) ++ [tr_def tr]).
Definition classifier_values (cl : classifier) : list bytes :=
  distinctNonEmpty (map row_value (cl_rows cl) ++ [cl_def cl]).

Definition isForwardCookie (cl : classifier) (name : bytes) : bool :=
  existsb (fun c => bool_decide (c = name)) (derivesForward cl).
End Readers.

(** ** The cookie memo *)

(** A set memo is the parse of the bytes it is keyed on. *)
Definition memo_fresh (r : Request) : Prop :=
  match rq_cookieMemo r with Some (raw, cs) => cs = parseLenientCookies raw | None => True end.

(** Reading through the memo is reading the header, whatever the header has become
    since the memo was filled, and the memo stays usable. *)
Lemma lenientCookiesMemo_ok r : memo_fresh r ->
  fst (lenientCookiesMemo r) = cookies r /\ memo_fresh (snd (lenientCookiesMemo r)) /\
  rq_Header (snd (lenientCookiesMemo r)) = rq_Header r.
Proof.
  intros H. unfold lenientCookiesMemo, cookies, lenientCookies.
  destruct (default [] (rq_Header r !! go "Cookie")) as [|l ls]; [done|].
  unfold memo_fresh in *. destruct r as [m ho p q h ip rip dv g gc gr tls ph sk [[raw cs]|]]; cbn in *; [|done].
  case_bool_decide as E; cbn; [by subst|done].
Qed.

(** ** Cookie text *)

(** The values read are pieces of the header. *)
Lemma parseLenientCookies_elem raw ck c : ck ∈ parseLenientCookies raw -> c ∈ ck_value ck -> c ∈ raw.
Proof.
  unfold parseLenientCookies. intros (part & Hpart & Hck)%list_elem_of_omap Hc.
  apply (SplitByte_elem c raw ";" part Hpart). apply TrimSpace_elem. revert Hck. unfold parseCookiePart.
  assert (forall v, c ∈ unquoteCookie v -> c ∈ v) as Hu.
  { intros v. unfold unquoteCookie. destruct (_ && _); [|done]. intros Hv.
    rewrite <- (take_drop 1 v). apply elem_of_app. right.
    rewrite <- (take_drop (length v - 2) (drop 1 v)). apply elem_of_app. by left. }
  set (t := TrimSpace part). destruct (bool_decide (t = [])); [done|].
  destruct (IndexByte t "=") as [i|]; cbn; case_bool_decide; try done; intros [= <-]; cbn in Hc; try apply Hu in Hc.
  - apply TrimSpace_elem in Hc. rewrite <- (take_drop (S i) t). apply elem_of_app. by right.
  - by apply elem_of_nil in Hc.
Qed.

Lemma cookie_elem r n c : c ∈ cookie r n -> exists line, line ∈ default [] (rq_Header r !! go "Cookie") /\ c ∈ line \/ c ∈ go "; ".
Proof.
  unfold cookie, findCookie, cookies, lenientCookies.
  destruct (default [] (rq_Header r !! go "Cookie")) as [|l ls]; [by intros ?%elem_of_nil|].
  destruct (List.find _ _) as [ck|] eqn:E; [|by intros ?%elem_of_nil]. cbn. intros Hc. apply find_some in E as [E _].
  apply list_elem_of_In in E. apply (parseLenientCookies_elem _ _ c E) in Hc.
  apply Join_elem in Hc as [Hc|(line & Hl & Hc)]; [exists []; by right|]. exists line. by left.
Qed.

(** ** For the examples *)

(** A library that compiles no regular expression and parses no number or IPv6 address. *)
Definition noLib : GoLib := {| reCompile := fun _ => None; parseFloat := fun _ => None; parseIPv6 := fun _ => None |}.

(** A plain request for a path with headers. *)
Definition exampleRequest (path : bytes) (h : header) : Request :=
  mkRequest (go "GET") (go "example.com") path ∅ h (go "192.0.2.1") None [] [] [] [] false None None None.
