(* ===== verification/Matcher.v ===== *)
(** * Matcher evaluation ([matcher.go], [classify.go], [respondTermsMatch] of
    [secgate.go])

    [match], the classifiers and the phases only ask for the results of matchers: they
    are programs of type [prog], whose one effect is to evaluate a matcher.  [run]
    interprets them with the memo of the code's [matchContext]; [pure] without it.
    The two agree ([memo_transparent]), so the later files reason with [pure]. *)

From stdpp Require Import base strings pretty numbers gmap list.
From Stdlib Require Import Lia.
From S2P Require Import Prelude GoStrings Http Ast Netip Glob Host CookieJson Request.
Open Scope Z_scope.

(** ** Programs that ask for matchers *)

Inductive prog (A : Type) : Type :=
| Ret (a : A)
| Ask (p : ptr) (k : bool -> prog A).
Arguments Ret {A} a.
Arguments Ask {A} p k.

Fixpoint pbind {A B} (m : prog A) (f : A -> prog B) : prog B :=
  match m with
  | Ret a => f a
  | Ask p k => Ask p (fun b => pbind (k b) f)
  end.

Definition matches (p : ptr) : prog bool := Ask p Ret.

Declare Scope prog_scope.
Delimit Scope prog_scope with prog.
Notation "'do' x <- m ; k" := (pbind m (fun x => k)) (at level 10, x name, m at level 100, k at level 200) : prog_scope.
Open Scope prog_scope.

(** First-match and every-match loops with early return. *)
Fixpoint anyP {A} (f : A -> prog bool) (l : list A) : prog bool :=
  match l with
  | [] => Ret false
  | x :: l => do b <- f x; if (b : bool) then Ret true else anyP f l
  end.

Fixpoint allP {A} (f : A -> prog bool) (l : list A) : prog bool :=
  match l with
  | [] => Ret true
  | x :: l => do b <- f x; if (b : bool) then allP f l else Ret false
  end.

(** The first element a test accepts. *)
Fixpoint findP {A} (f : A -> prog bool) (l : list A) : prog (option A) :=
  match l with
  | [] => Ret None
  | x :: l => do b <- f x; if (b : bool) then Ret (Some x) else findP f l
  end.

Fixpoint filterP {A} (f : A -> prog bool) (l : list A) : prog (list A) :=
  match l with
  | [] => Ret []
  | x :: l => do b <- f x; do r <- filterP f l; Ret (if (b : bool) then x :: r else r)
  end.

(** ** The context *)

(** [matchContext] without its memo; [mc_respHeader] is [None] for a nil header. *)
Record mctx : Type := mkCtx {
  mc_req : Request;
  mc_upstream : bytes;
  mc_respHeader : option header
}.

(** A cell is [None] for [memoUnknown]. *)
Abbreviation memo := (list (option bool)).

Definition newMemo (n : nat) : memo := replicate n None.

(** ** Evaluation *)

(** [scopeMatches]. *)
Definition scopeMatches (s : option scope) : prog bool :=
  match s with None => Ret true | Some ms => anyP matches ms end.

(** [conjMatches]. *)
Definition conjMatches (c : list ptr) : prog bool := allP matches c.

(** [classifier.resolve]. *)
Definition classifier_resolve (cl : classifier) : prog bytes :=
  do r <- findP (fun r => conjMatches (conj r)) (cl_rows cl);
  Ret (match r with Some row => row_value row | None => cl_def cl end).

(** [respondTermsMatch]. *)
Definition respondTermsMatch (ts : list secTerm) : prog bool :=
  allP (fun t => do got <- matches (t_m t); Ret (negb (Bool.eqb got (t_negate t)))) ts.

Section Match.
Context {U : Platform}.

Definition headerPresent (r : Request) (name : bytes) : bool :=
  match rq_Header r !! CanonicalHeaderKey name with Some _ => true | None => false end.

Definition cookieRaw (r : Request) (name : bytes) : bytes * bool :=
  match findCookie (cookies r) name with Some v => (v, true) | None => ([], false) end.

Definition cookiePresent (r : Request) (name : bytes) : bool :=
  existsb (fun c => bool_decide (ck_name c = name)) (cookies r).

Definition cookieNamePrefixPresent (r : Request) (prefix : bytes) : bool :=
  existsb (fun c => HasPrefix (ck_name c) prefix) (cookies r).

Definition memBytes (v : bytes) (l : list bytes) : bool := existsb (fun w => bool_decide (v = w)) l.

(** [matcher.match]. *)
Definition match_ (m : matcher) (c : mctx) : prog bool :=
  let req := mc_req c in
  match m_kind m with
  | kindPath paths => Ret (Match paths (rq_Path req))
  | kindPathRegex re => Ret (reMatch re (rq_Path req))
  | kindHost hosts => Ret (MatchHost uni_lower hosts (rq_Host req))
  | kindHostRegex re => Ret (reMatch re (normHost req))
  | kindHeaderPresent name => Ret (headerPresent req name)
  | kindHeaderRegex name re => Ret (existsb (reMatch re) (Values (rq_Header req) name))
  | kindHeader name vals =>
    Ret (match vals with
         | [] => headerPresent req name
         | _ => existsb (fun v => memBytes v vals) (Values (rq_Header req) name)
         end)
  | kindMethod methods => Ret (bool_decide (method req ∈ methods))
  | kindUpstream upstreams => Ret (bool_decide (mc_upstream c ∈ upstreams))
  | kindContentType contentTypes =>
    Ret (match mc_respHeader c with
         | None => false
         | Some h =>
           let ct := toLower (Get h (go "Content-Type")) in
           if bool_decide (ct = []) then false else existsb (fun want => Contains ct want) contentTypes
         end)
  | kindRespHeader name _ respValues =>
    Ret (match mc_respHeader c with
         | None => false
         | Some h =>
           match respValues with
           | None => negb (bool_decide (Values h name = []))
           | Some g => existsb (nameMatch g) (Values h name)
           end
         end)
  | kindCookie name glob vals =>
    Ret (if glob then cookieNamePrefixPresent req name
         else match vals with
              | [] => cookiePresent req name
              | _ => memBytes (cookie req name) vals
              end)
  | kindCookieJSON name path vals =>
    Ret (let '(raw, present) := cookieRaw req name in jsonMatch raw present path vals)
  | kindHeaderJSON name path vals => Ret (existsb (fun raw => jsonMatch raw true path vals) (Values (rq_Header req) name))
  | kindSetCookie names =>
    Ret (match mc_respHeader c with
         | None => false
         | Some h =>
           match Cookies h, names with
           | [], _ => false
           | _, [] => true
           | cs, _ => existsb (fun ck => memBytes ck names) cs
           end
         end)
  | kindClassify cl v negate =>
    do got <- classifier_resolve cl;
    let eq := bool_decide (got = v) in Ret (if negate then negb eq else eq)
  | kindGeo gran vals =>
    Ret (let got := match gran with
                    | geoCountry => rq_Geo req
                    | geoContinent => rq_GeoContinent req
                    | geoRegion => rq_GeoRegion req
                    end in
         if bool_decide (got = []) then false else bool_decide (got ∈ vals))
  | kindQueryPresent names nonEmpty =>
    Ret (existsb (fun '(name, vals) =>
           if negb (nameMatch names name) then false
           else match nonEmpty with
                | Some ne => if nameMatch ne name then existsb (fun v => negb (bool_decide (v = []))) vals else true
                | None => true
                end) (map_to_list (rq_Query req)))
  | kindQuery name vals =>
    Ret (match rq_Query req !! name with
         | None => false
         | Some got => match vals with [] => true | _ => existsb (fun v => memBytes v vals) got end
         end)
  | kindAll terms => respondTermsMatch terms
  | kindIP prefixes =>
    Ret (match rq_RealClientIP req with
         | None => false
         | Some ip => existsb (fun p => PrefixContains p (Unmap ip)) prefixes
         end)
  | kindUpstreamHealthy pools =>
    Ret (match rq_PoolHealthy req with None => false | Some up => existsb up pools end)
  end.

(** ** Running a program *)

Section Run.
Variables (h : heap) (c : mctx).

Fixpoint runWith {A} (ev : ptr -> memo -> bool * memo) (pr : prog A) (mm : memo) : A * memo :=
  match pr with
  | Ret a => (a, mm)
  | Ask p k => let '(b, mm) := ev p mm in runWith ev (k b) mm
  end.

(** [matchContext.matches]; the fuel bounds the depth of the references. *)
Fixpoint matchesMemo (n : nat) (p : ptr) (mm : memo) : bool * memo :=
  match n, h !! p with
  | S n, Some m =>
    let compute mm := runWith (matchesMemo n) (match_ m c) mm in
    if (0 <=? m_idx m) && (m_idx m <? Z.of_nat (length mm)) then
      match mm !! Z.to_nat (m_idx m) with
      | Some (Some v) => (v, mm)
      | _ => let '(v, mm) := compute mm in (v, <[Z.to_nat (m_idx m) := Some v]> mm)
      end
    else compute mm
  | _, _ => (false, mm)
  end.

Fixpoint pureWith {A} (ev : ptr -> bool) (pr : prog A) : A :=
  match pr with
  | Ret a => a
  | Ask p k => pureWith ev (k (ev p))
  end.

Fixpoint matchesPure (n : nat) (p : ptr) : bool :=
  match n, h !! p with
  | S n, Some m => pureWith (matchesPure n) (match_ m c)
  | _, _ => false
  end.

(** The depth of references is at most the size of the heap. *)
Definition run {A} (numMatchers : nat) (pr : prog A) : A :=
  fst (runWith (matchesMemo (length h)) pr (newMemo numMatchers)).

Definition pure {A} (pr : prog A) : A := pureWith (matchesPure (length h)) pr.
End Run.
End Match.

(** ** Well-formed heaps *)

(** The matchers a matcher refers to. *)
Definition classifier_refs (cl : classifier) : list ptr := flat_map conj (cl_rows cl).

Definition refs (m : matcher) : list ptr :=
  match m_kind m with
  | kindClassify cl _ _ => classifier_refs cl
  | kindAll ts => map t_m ts
  | _ => []
  end.

(** References go to matchers compiled before, and no two matchers share a slot. *)
Record heap_wf (h : heap) : Prop := {
  wf_refs : forall p m q, h !! p = Some m -> q ∈ refs m -> (q < p)%nat;
  wf_idx : forall p q m m', h !! p = Some m -> h !! q = Some m' -> 0 <= m_idx m -> m_idx m = m_idx m' -> p = q
}.

(** The pointers a program may ask for. *)
Fixpoint asks {A} (P : ptr -> Prop) (pr : prog A) : Prop :=
  match pr with
  | Ret _ => True
  | Ask p k => P p /\ forall b, asks P (k b)
  end.

(** ** Asking and running *)

Section Laws.
Context {U : Platform}.

Lemma asks_bind {A B} P (m : prog A) (f : A -> prog B) :
  asks P m -> (forall a, asks P (f a)) -> asks P (pbind m f).
Proof. induction m as [a|p k IH]; cbn; [auto|]. intros [Hp Hk] Hf. split; [done|]. eauto. Qed.

Lemma asks_impl {A} (P Q : ptr -> Prop) (pr : prog A) : (forall p, P p -> Q p) -> asks P pr -> asks Q pr.
Proof. intros HPQ. induction pr as [a|p k IH]; cbn; [done|]. intros [Hp Hk]. eauto. Qed.

Lemma asks_allP {A} P (f : A -> prog bool) l : (forall x, x ∈ l -> asks P (f x)) -> asks P (allP f l).
Proof.
  induction l as [|x l IH]; intros H; [done|]. cbn. apply asks_bind; [apply H; by left|].
  intros [|]; [|done]. apply IH. intros y Hy. apply H. by right.
Qed.

Lemma asks_anyP {A} P (f : A -> prog bool) l : (forall x, x ∈ l -> asks P (f x)) -> asks P (anyP f l).
Proof.
  induction l as [|x l IH]; intros H; [done|]. cbn. apply asks_bind; [apply H; by left|].
  intros [|]; [done|]. apply IH. intros y Hy. apply H. by right.
Qed.

Lemma asks_findP {A} P (f : A -> prog bool) l : (forall x, x ∈ l -> asks P (f x)) -> asks P (findP f l).
Proof.
  induction l as [|x l IH]; intros H; [done|]. cbn. apply asks_bind; [apply H; by left|].
  intros [|]; [done|]. apply IH. intros y Hy. apply H. by right.
Qed.

Lemma asks_classifier cl : asks (fun q => q ∈ classifier_refs cl) (classifier_resolve cl).
Proof.
  unfold classifier_resolve. apply asks_bind; [|done]. apply asks_findP. intros row Hrow.
  apply asks_allP. intros q Hq. cbn. split; [|done].
  unfold classifier_refs. apply list_elem_of_In, in_flat_map. exists row. by rewrite <- !list_elem_of_In.
Qed.

Lemma asks_terms ts : asks (fun q => q ∈ map t_m ts) (respondTermsMatch ts).
Proof.
  apply asks_allP. intros t Ht. cbn. split; [|done]. by apply (list_elem_of_fmap_2 t_m) in Ht.
Qed.

(** A matcher asks only for the matchers it refers to. *)
Lemma asks_match m c : asks (fun q => q ∈ refs m) (match_ m c).
Proof.
  unfold match_, refs. destruct (m_kind m); try exact I.
  - apply asks_bind; [apply asks_classifier|done].
  - apply asks_terms.
Qed.

Lemma pureWith_bind {A B} ev (m : prog A) (f : A -> prog B) :
  pureWith ev (pbind m f) = pureWith ev (f (pureWith ev m)).
Proof. induction m as [a|p k IH]; cbn; [done|]. apply IH. Qed.

Lemma pureWith_ext {A} (P : ptr -> Prop) ev ev' (pr : prog A) :
  asks P pr -> (forall p, P p -> ev p = ev' p) -> pureWith ev pr = pureWith ev' pr.
Proof. intros Hp H. induction pr as [a|p k IH]; cbn in *; [done|]. destruct Hp as [Hp Hk]. rewrite H by done. by apply IH. Qed.

Lemma pureWith_anyP {A} ev (f : A -> prog bool) l :
  pureWith ev (anyP f l) = existsb (fun x => pureWith ev (f x)) l.
Proof.
  induction l as [|x l IH]; [done|]. cbn. rewrite pureWith_bind. by destruct (pureWith ev (f x)).
Qed.

Lemma pureWith_allP {A} ev (f : A -> prog bool) l :
  pureWith ev (allP f l) = forallb (fun x => pureWith ev (f x)) l.
Proof.
  induction l as [|x l IH]; [done|]. cbn. rewrite pureWith_bind. by destruct (pureWith ev (f x)).
Qed.

Lemma pureWith_findP {A} ev (f : A -> prog bool) l :
  pureWith ev (findP f l) = List.find (fun x => pureWith ev (f x)) l.
Proof.
  induction l as [|x l IH]; [done|]. cbn. rewrite pureWith_bind. by destruct (pureWith ev (f x)).
Qed.

Lemma pureWith_filterP {A} ev (f : A -> prog bool) l :
  pureWith ev (filterP f l) = List.filter (fun x => pureWith ev (f x)) l.
Proof. induction l as [|x l IH]; [done|]. cbn. rewrite !pureWith_bind. cbn. rewrite IH. done. Qed.

Lemma asks_filterP {A} P (f : A -> prog bool) l : (forall x, x ∈ l -> asks P (f x)) -> asks P (filterP f l).
Proof.
  induction l as [|x l IH]; intros H; [done|]. cbn. apply asks_bind; [apply H; by left|]. intros b.
  apply asks_bind; [|done]. apply IH. intros y Hy. apply H. by right.
Qed.

Lemma asks_scope P sc : Forall P (default [] sc) -> asks P (scopeMatches sc).
Proof.
  unfold scopeMatches. destruct sc as [l|]; [|done]. cbn. intros H. apply asks_anyP. intros q Hq. cbn.
  rewrite list.Forall_forall in H. auto.
Qed.

(** ** What a matcher reads *)

(** All matchers that deciding [q] may consult satisfy [ok]. *)
Fixpoint consults (h : heap) (ok : matcher -> bool) (n : nat) (q : ptr) : bool :=
  match n, h !! q with
  | S n, Some m => ok m && forallb (consults h ok n) (refs m)
  | _, _ => true
  end.

(** Contexts that look alike to such matchers decide alike. *)
Lemma matchesPure_alike h ok c c' : (forall m, ok m = true -> match_ m c = match_ m c') ->
  forall n q, consults h ok n q = true -> matchesPure h c n q = matchesPure h c' n q.
Proof.
  intros Hok n. induction n as [|n IH]; intros q Hq; [done|]. cbn in *. destruct (h !! q) as [m|]; [|done].
  apply andb_true_iff in Hq as [Hm Hr]. rewrite (Hok m Hm). eapply pureWith_ext; [apply asks_match|].
  intros q' Hq'. apply IH. rewrite forallb_forall in Hr. by apply Hr, list_elem_of_In.
Qed.

(** ** The memo *)

Section Memo.
Variables (h : heap) (c : mctx).
Hypothesis Hwf : heap_wf h.

(** Fuel beyond the address of a matcher does not matter. *)
Lemma matchesPure_fuel n n' p : (p < n)%nat -> (p < n')%nat -> matchesPure h c n p = matchesPure h c n' p.
Proof.
  revert n n'. induction p as [p IH] using lt_wf_ind. intros [|n] [|n'] Hn Hn'; try lia. cbn.
  destruct (h !! p) as [m|] eqn:Em; [|done].
  eapply pureWith_ext; [apply asks_match|]. intros q Hq. pose proof (wf_refs h Hwf p m q Em Hq). apply IH; lia.
Qed.

Definition sem (p : ptr) : bool := matchesPure h c (length h) p.

Lemma sem_unfold p m : h !! p = Some m -> sem p = pureWith sem (match_ m c).
Proof.
  intros Em. pose proof (lookup_lt_Some _ _ _ Em) as Hp. unfold sem.
  rewrite (matchesPure_fuel (length h) (S (length h)) p) by lia. cbn [matchesPure]. by rewrite Em.
Qed.

(** Every filled cell holds the matcher's value. *)
Definition memo_ok (mm : memo) : Prop :=
  forall p m v, h !! p = Some m -> 0 <= m_idx m -> mm !! Z.to_nat (m_idx m) = Some (Some v) -> v = sem p.

Lemma memo_ok_new n : memo_ok (newMemo n).
Proof. intros p m v _ _ H. apply lookup_replicate in H as [H _]. done. Qed.

Lemma runWith_ok {A} ev (P : ptr -> Prop) (pr : prog A) mm :
  (forall p mm, P p -> memo_ok mm -> fst (ev p mm) = sem p /\ memo_ok (snd (ev p mm))) ->
  asks P pr -> memo_ok mm ->
  fst (runWith ev pr mm) = pureWith sem pr /\ memo_ok (snd (runWith ev pr mm)).
Proof.
  intros Hev. revert mm. induction pr as [a|p k IH]; intros mm; cbn; [done|]. intros [Hp Hk] Hmm.
  destruct (ev p mm) as [b mm'] eqn:E. destruct (Hev p mm Hp Hmm) as [Hb Hmm']. rewrite E in Hb, Hmm'. cbn in Hb, Hmm'.
  subst b. apply IH; [apply Hk|done].
Qed.

Lemma memo_ok_insert mm p m : memo_ok mm -> h !! p = Some m -> 0 <= m_idx m ->
  memo_ok (<[Z.to_nat (m_idx m) := Some (sem p)]> mm).
Proof.
  intros Hmm Em Hi q m' v Em' Hi' Hv. destruct (decide (Z.to_nat (m_idx m) = Z.to_nat (m_idx m'))) as [E|E].
  - assert (m_idx m = m_idx m') as Eidx by lia. pose proof (wf_idx h Hwf p q m m' Em Em' Hi Eidx) as ->.
    rewrite E in Hv. apply list_lookup_insert_Some in Hv as [(_ & Hv & _)|[Hne _]]; [by injection Hv|done].
  - rewrite list_lookup_insert_ne in Hv by done. by eapply Hmm.
Qed.

Lemma matchesMemo_ok n p mm : (length h <= n)%nat \/ (p < n)%nat -> memo_ok mm ->
  fst (matchesMemo h c n p mm) = sem p /\ memo_ok (snd (matchesMemo h c n p mm)).
Proof.
  revert p mm. induction n as [|n IH]; intros p mm Hn Hmm.
  - cbn. split; [|done]. destruct Hn as [Hn|]; [|lia]. unfold sem. destruct h; [|cbn in Hn; lia]. done.
  - cbn [matchesMemo]. destruct (h !! p) as [m|] eqn:Em; cycle 1.
    { cbn. split; [|done]. unfold sem. destruct (length h); cbn; [done|by rewrite Em]. }
    assert (fst (runWith (matchesMemo h c n) (match_ m c) mm) = sem p
            /\ memo_ok (snd (runWith (matchesMemo h c n) (match_ m c) mm))) as [Hv Hmm'].
    { rewrite (sem_unfold p m Em). eapply runWith_ok; [|apply asks_match|done].
      intros q mm' Hq Hmm'. apply IH; [|done]. pose proof (wf_refs h Hwf p m q Em Hq).
      pose proof (lookup_lt_Some _ _ _ Em). lia. }
    destruct (_ && _) eqn:Ei; [|done]. apply andb_true_iff in Ei as [Hi _]. apply Z.leb_le in Hi.
    destruct (mm !! Z.to_nat (m_idx m)) as [[v|]|] eqn:Ec; [split; [by eapply Hmm|done]| |];
      destruct (runWith _ _ _) as [v mm']; cbn in Hv, Hmm' |- *; subst v; (split; [done|by apply memo_ok_insert]).
Qed.

(** Running with the memo is evaluating without it. *)
Lemma run_pure {A} n (pr : prog A) : run h c n pr = pure h c pr.
Proof.
  unfold run, pure. destruct (runWith_ok (matchesMemo h c (length h)) (fun _ => True) pr (newMemo n)) as [H _].
  - intros p mm _ Hmm. apply matchesMemo_ok; [by left|done].
  - eapply asks_impl with (P := fun _ => True); [done|]. clear. induction pr; cbn; auto.
  - apply memo_ok_new.
  - exact H.
Qed.
End Memo.
End Laws.
