(* ===== verification/CacheKey.v ===== *)
(** * The cache key ([cachekey.go])

    The tokens of a recipe, their compilation and the key they render, with what equal
    keys say about two requests. *)

From stdpp Require Import base strings pretty numbers gmap list sorting.
From Stdlib Require Import Lia.
From S2P Require Import Prelude GoStrings Http Ast Netip Glob Host CookieJson Request Matcher.
Open Scope Z_scope.

(** ** Compilation *)

Definition isKeyTokenStart (raw : bytes) : bool :=
  memBytes raw (map go ["method"; "host"; "path"; "url"; "query"; "query_allow"; "query_strip"]%string)
  || HasPrefix raw (go "header:") || HasPrefix raw (go "cookie:")
  || (HasPrefix raw (go "{") && HasSuffix raw (go "}") && (2 <? length raw)%nat).

Inductive keyErr : Type :=
| keyNeedsParam (tok : bytes)
| keyHeaderNeedsName
| keyCookieNeedsName
| keyUnknownToken (raw : bytes)
| keyAllowAndStrip
| keyStripWholeQuery
| keyStatusSelector
| keyScopedNeedsDefault.

Section Compile.
Variables (normalizers : gmap bytes normalizer) (classifiers : gmap bytes classifier).
Variables (tenant : bytes) (tenantR : option tenantResolver).

Definition keyPlain (raw : bytes) : option keyToken :=
  if bool_decide (raw = go "method") then Some tokMethod
  else if bool_decide (raw = go "host") then Some tokHost
  else if bool_decide (raw = go "path") then Some tokPath
  else if bool_decide (raw = go "url") then Some tokURL
  else if bool_decide (raw = go "query") then Some tokQuery
  else if bool_decide (raw = go "{sticky}") then Some tokSticky
  else if bool_decide (raw = go "{device}") then Some tokDevice
  else if bool_decide (raw = go "{geo}") then Some tokGeo
  else if bool_decide (raw = go "{geo.continent}") then Some tokGeoContinent
  else if bool_decide (raw = go "{geo.region}") then Some tokGeoRegion
  else if bool_decide (raw = go "{tenant}") then
    Some (match tenantR with Some tr => tokTenant (Some tr) [] | None => tokTenant None tenant end)
  else None.

Definition compileKeyToken (raw : bytes) : outcome keyErr keyToken :=
  match keyPlain raw with
  | Some t => Ok t
  | None =>
    if HasPrefix raw (go "header:") then
      let name := drop 7 raw in if bool_decide (name = []) then Err keyHeaderNeedsName else Ok (tokHeader name)
    else if HasPrefix raw (go "cookie:") then
      let name := drop 7 raw in if bool_decide (name = []) then Err keyCookieNeedsName else Ok (tokCookie name)
    else if HasPrefix raw (go "{") && HasSuffix raw (go "}") && (2 <? length raw)%nat then
      let name := take (length raw - 2) (drop 1 raw) in
      match normalizers !! name, classifiers !! name with
      | Some n, _ => Ok (tokNormalize n)
      | None, Some cl => Ok (tokClassify cl)
      | None, None => Err (keyUnknownToken raw)
      end
    else Ok (tokLiteral raw)
  end.

(** The parameter names a [query_allow] or [query_strip] consumes. *)
Fixpoint takeParams (args : list bytes) : list bytes * list bytes :=
  match args with
  | a :: r => if isKeyTokenStart a then ([], args) else let '(ns, rest) := takeParams r in (a :: ns, rest)
  | [] => ([], [])
  end.

(** The loop of [compileCacheKey], with the flags [hasAllow] and [hasStrip]. *)
Fixpoint keyLoop (n : nat) (args : list bytes) : outcome keyErr (list keyToken * bool * bool) :=
  match n with
  | O => NoFuel
  | S n =>
    match args with
    | [] => Ok ([], false, false)
    | a :: r =>
      if bool_decide (a = go "query_allow") || bool_decide (a = go "query_strip") then
        let '(names, rest) := takeParams r in
        match names with
        | [] => Err (keyNeedsParam a)
        | _ =>
          let! (toks, hasAllow, hasStrip) := keyLoop n rest in
          if bool_decide (a = go "query_allow")
          then Ok (tokQueryAllow (newNameGlobSet names) :: toks, true, hasStrip)
          else Ok (tokQueryStrip (newNameGlobSet names) :: toks, hasAllow, true)
        end
      else
        let! t := compileKeyToken a in
        let! (toks, hasAllow, hasStrip) := keyLoop n r in
        Ok (t :: toks, hasAllow, hasStrip)
    end
  end.

Definition isWholeQuery (t : keyToken) : bool := match t with tokURL | tokQuery => true | _ => false end.

Definition compileCacheKey (args : list bytes) : outcome keyErr (list keyToken) :=
  let! (toks, hasAllow, hasStrip) := keyLoop (S (length args)) args in
  if hasAllow && hasStrip then Err keyAllowAndStrip
  else if hasStrip && existsb isWholeQuery toks then Err keyStripWholeQuery
  else Ok toks.
End Compile.

(** ** Rendering *)

Definition SEP : ascii := Zbyte 0x1f.
Definition keyTokenSep : bytes := [SEP].

Definition defaultKeyTokens : list keyToken := [tokMethod; tokHost; tokPath].

(** The value without the separator byte. *)
Definition writeKeyValue (s : bytes) : bytes := List.filter (fun c => negb (c =b SEP)) s.

Definition keepParam (allow deny : option nameGlobSet) (k : bytes) : bool :=
  match allow with Some g => nameMatch g k | None => true end
  && match deny with Some g => negb (nameMatch g k) | None => true end.

(** The parameters written, in order. *)
Definition canonicalPairs (q : values) (allow deny : option nameGlobSet) : list (bytes * bytes) :=
  flat_map (fun k => map (pair k) (sortStrings (default [] (q !! k))))
    (sortStrings (List.filter (keepParam allow deny) (map fst (map_to_list q)))).

Definition renderPair (kv : bytes * bytes) : bytes := QueryEscape (fst kv) ++ go "=" ++ QueryEscape (snd kv).

Definition writeCanonicalQuery (q : values) (prefix : bool) (allow deny : option nameGlobSet) : bytes :=
  match canonicalPairs q allow deny with
  | [] => []
  | ps => (if prefix then go "?" else []) ++ Join (map renderPair ps) (go "&")
  end.

Section Build.
Context {U : Platform}.

(** [writeToken] without the classify token, whose matchers are asked for. *)
Definition tokenText (t : keyToken) (req : Request) (stickyCookie : bytes) : bytes :=
  match t with
  | tokMethod => method req
  | tokHost => normHost req
  | tokPath => writeKeyValue (rq_Path req)
  | tokURL => writeKeyValue (rq_Path req) ++ writeCanonicalQuery (rq_Query req) true None None
  | tokQuery => writeCanonicalQuery (rq_Query req) false None None
  | tokQueryAllow g => writeCanonicalQuery (rq_Query req) false (Some g) None
  | tokQueryStrip g => writeCanonicalQuery (rq_Query req) false None (Some g)
  | tokHeader name => writeKeyValue (headerCombined req name)
  | tokCookie name => writeKeyValue (cookie req name)
  | tokSticky =>
    let v := if bool_decide (stickyCookie = []) then [] else cookie req stickyCookie in
    if bool_decide (v = []) then rq_ClientIP req else writeKeyValue v
  | tokDevice => rq_Device req
  | tokGeo => rq_Geo req
  | tokGeoContinent => rq_GeoContinent req
  | tokGeoRegion => rq_GeoRegion req
  | tokNormalize n => normalizer_resolve n req
  | tokClassify _ => []
  | tokTenant (Some tr) _ => tenantResolver_resolve tr req
  | tokTenant None t => t
  | tokLiteral s => s
  end.

Definition writeToken (t : keyToken) (req : Request) (stickyCookie : bytes) : prog bytes :=
  match t with
  | tokClassify cl => classifier_resolve cl
  | t => Ret (tokenText t req stickyCookie)
  end.

Fixpoint mapP {A B} (f : A -> prog B) (l : list A) : prog (list B) :=
  match l with
  | [] => Ret []
  | x :: l => do y <- f x; do ys <- mapP f l; Ret (y :: ys)
  end.

Definition buildKey (toks : list keyToken) (req : Request) (stickyCookie : bytes) : prog bytes :=
  let toks := match toks with [] => defaultKeyTokens | _ => toks end in
  do parts <- mapP (fun t => writeToken t req stickyCookie) toks;
  Ret (Join parts keyTokenSep).

(** [canonicalQuery] of [redirect.go]. *)
Definition canonicalQuery (req : Request) : bytes := writeCanonicalQuery (rq_Query req) false None None.
End Build.

(** ** Joining with a separator *)

Lemma Join_split sep l : l <> [] -> Forall (fun p => sep ∉ p) l -> SplitByte (Join l [sep]) sep = l.
Proof.
  intros Hne Hl. induction Hl as [|p l Hp Hl IH]; [done|]. destruct l as [|q l].
  - by apply SplitByte_single.
  - rewrite Join_cons by done. cbn [app]. rewrite SplitByte_sep, SplitByte_single by done. by rewrite IH.
Qed.

Lemma Join_inj sep ps qs :
  Forall (fun p => sep ∉ p) ps -> Forall (fun p => sep ∉ p) qs -> length ps = length qs ->
  Join ps [sep] = Join qs [sep] -> ps = qs.
Proof.
  intros Hp Hq Hlen HJ. destruct ps as [|p ps], qs as [|q qs]; cbn in Hlen; try lia; [done|].
  apply (f_equal (fun s => SplitByte s sep)) in HJ. by rewrite !Join_split in HJ by done.
Qed.

Lemma pureWith_mapP {A B} ev (f : A -> prog B) l : pureWith ev (mapP f l) = map (fun x => pureWith ev (f x)) l.
Proof. induction l as [|x l IH]; [done|]. cbn. rewrite !pureWith_bind. cbn. by rewrite IH. Qed.

Lemma writeKeyValue_clean s : SEP ∉ s -> writeKeyValue s = s.
Proof.
  unfold writeKeyValue. induction s as [|c s IH]; [done|]. intros [Hc Hs]%not_elem_of_cons. cbn.
  destruct (Ascii.eqb_spec c SEP); [congruence|]. cbn. by rewrite IH.
Qed.

Lemma writeKeyValue_sep s : SEP ∉ writeKeyValue s.
Proof.
  unfold writeKeyValue. intros [_ H]%list_elem_of_In%filter_In. by rewrite Ascii.eqb_refl in H.
Qed.

(** ** The canonical query *)

Lemma split_unique (c : ascii) a b a' b' : c ∉ a -> c ∉ a' -> a ++ c :: b = a' ++ c :: b' -> a = a' /\ b = b'.
Proof.
  intros Ha Ha' E. pose proof (IndexByte_app a c b Ha) as H. rewrite E, (IndexByte_app a' c b' Ha') in H.
  injection H as Hl. apply app_inj_1 in E as [-> E]; [|done]. injection E as ->. done.
Qed.

#[export] Instance renderPair_inj : Inj (=) (=) renderPair.
Proof.
  intros [k v] [k' v'] E. unfold renderPair in E. cbn [fst snd] in E. change (go "=") with ["="%char] in E. cbn [app] in E.
  apply split_unique in E as [Hk Hv]; [|by apply QueryEscape_not_elem..].
  apply QueryEscape_inj in Hk, Hv. by subst.
Qed.

Lemma renderPair_amp kv : "&"%char ∉ renderPair kv.
Proof.
  unfold renderPair. rewrite !elem_of_app. change (go "=") with ["="%char]. rewrite list_elem_of_singleton.
  intros [H|[H|H]]; [by eapply QueryEscape_not_elem in H|done|by eapply QueryEscape_not_elem in H].
Qed.

Lemma renderPair_nonempty kv : renderPair kv <> [].
Proof. unfold renderPair. by destruct (QueryEscape (fst kv)). Qed.

Lemma writeCanonicalQuery_pairs q q' prefix a d a' d' :
  writeCanonicalQuery q prefix a d = writeCanonicalQuery q' prefix a' d' <-> canonicalPairs q a d = canonicalPairs q' a' d'.
Proof.
  unfold writeCanonicalQuery. split; [|by intros ->].
  assert (forall p ps, Join (map renderPair (p :: ps)) (go "&") <> []) as Hne.
  { intros p ps. apply Join_nonempty; [done|]. apply Forall_fmap, list.Forall_true. intros kv. apply renderPair_nonempty. }
  assert (forall l, Forall (fun p => "&"%char ∉ p) (map renderPair l)) as Hamp.
  { intros l. apply Forall_fmap, list.Forall_true. intros kv. apply renderPair_amp. }
  destruct (canonicalPairs q a d) as [|p ps], (canonicalPairs q' a' d') as [|p' ps']; [done| | |].
  - intros E. symmetry in E. apply app_nil in E as [_ E]. by apply Hne in E.
  - intros E. apply app_nil in E as [_ E]. by apply Hne in E.
  - intros E. apply app_inv_head in E. apply (f_equal (fun s => SplitByte s "&")) in E.
    rewrite !(Join_split "&") in E by done. by apply (inj (fmap renderPair) (p :: ps) (p' :: ps')) in E.
Qed.

Lemma filter_sortStrings f l : List.filter f (sortStrings l) = sortStrings (List.filter f l).
Proof.
  apply (Sorted_unique leStr).
  - apply StronglySorted_Sorted. pose proof (Sorted_StronglySorted leStr (sortStrings l) (sortStrings_sorted l)) as H.
    induction H as [|x k Hk IH Hx]; cbn; [constructor|]. destruct (f x); [|done]. constructor; [done|].
    apply list.Forall_forall. intros y [Hy _]%list_elem_of_In%filter_In. rewrite list.Forall_forall in Hx.
    by apply Hx, list_elem_of_In.
  - apply sortStrings_sorted.
  - rewrite (sortStrings_perm (List.filter f l)). generalize (sortStrings_perm l). generalize (sortStrings l). intros k Hk.
    induction Hk as [|x ? ? ? IH|x y ?|]; cbn; [done| | |by etrans].
    + destruct (f x); by rewrite IH.
    + destruct (f x), (f y); try done. constructor.
Qed.

Lemma flat_map_nonempty {A B} (f : A -> list B) (ne : A -> bool) l :
  (forall x, ne x = false -> f x = []) -> flat_map f l = flat_map f (List.filter ne l).
Proof. intros H. induction l as [|x l IH]; [done|]. cbn. destruct (ne x) eqn:E; cbn; by rewrite IH, ?(H x E). Qed.

Lemma NoDup_filter_list {A} (f : A -> bool) l : NoDup l -> NoDup (List.filter f l).
Proof.
  induction 1 as [|x l Hx Hl IH]; cbn; [constructor|]. destruct (f x); [|done]. constructor; [|done].
  intros [H _]%list_elem_of_In%filter_In. by apply Hx, list_elem_of_In.
Qed.

(** The parameters of one name, in the order they are written. *)
Lemma canonicalPairs_values q a d k :
  map snd (List.filter (fun kv => bool_decide (fst kv = k)) (canonicalPairs q a d))
  = if keepParam a d k then sortStrings (default [] (q !! k)) else [].
Proof.
  unfold canonicalPairs.
  set (ks := sortStrings _).
  assert (NoDup ks) as Hnd.
  { unfold ks. rewrite sortStrings_perm. apply NoDup_filter_list. apply (NoDup_fst_map_to_list q). }
  assert (k ∈ ks <-> keepParam a d k = true /\ is_Some (q !! k)) as Hin.
  { unfold ks. rewrite sortStrings_perm. rewrite list_elem_of_In, filter_In, <- list_elem_of_In.
    assert (k ∈ map fst (map_to_list q) <-> is_Some (q !! k)) as ->; [|tauto]. rewrite list_elem_of_fmap. split.
    - intros ([k' v] & -> & H%elem_of_map_to_list). by exists v.
    - intros [v H]. exists (k, v). split; [done|]. by apply elem_of_map_to_list. }
  assert (forall l, NoDup l ->
    map snd (List.filter (fun kv => bool_decide (fst kv = k))
      (flat_map (fun k => map (pair k) (sortStrings (default [] (q !! k)))) l))
    = if bool_decide (k ∈ l) then sortStrings (default [] (q !! k)) else []) as H.
  { clear. induction 1 as [|x l Hx Hl IH]; [done|]. cbn [flat_map]. rewrite List.filter_app, map_app, IH.
    assert (map snd (List.filter (fun kv => bool_decide (fst kv = k)) (map (pair x) (sortStrings (default [] (q !! x)))))
            = if bool_decide (x = k) then sortStrings (default [] (q !! x)) else []) as ->.
    { generalize (sortStrings (default [] (q !! x))). intros vs.
      induction vs as [|v vs IHv]; [by destruct (bool_decide (x = k))|]. cbn in IHv |- *.
      destruct (bool_decide (x = k)); cbn; by rewrite IHv. }
    destruct (decide (x = k)) as [->|E]; [rewrite (bool_decide_true (k = k)) by done|rewrite (bool_decide_false (x = k)) by done].
    - rewrite bool_decide_false by done. rewrite bool_decide_true by (by left). by rewrite app_nil_r.
    - cbn [app]. destruct (decide (k ∈ l)) as [Hl'|Hl'].
      + by rewrite !bool_decide_true by first [done|by right].
      + rewrite !bool_decide_false; [done| |done]. rewrite elem_of_cons. intros [|]; congruence. }
  rewrite H by done. clearbody ks. destruct (keepParam a d k) eqn:Ek; case_bool_decide as Hk; [done| | |done].
  - destruct (q !! k) eqn:E; [|done]. exfalso. apply Hk, Hin. eauto.
  - apply Hin in Hk as [? _]. done.
Qed.

Lemma canonicalPairs_perm q q' a d :
  (forall k, keepParam a d k = true -> default [] (q !! k) ≡ₚ default [] (q' !! k)) ->
  canonicalPairs q a d = canonicalPairs q' a d.
Proof.
  intros H. unfold canonicalPairs.
  set (f (q : values) k := map (pair k) (sortStrings (default [] (q !! k)))).
  set (ne (q : values) k := negb (bool_decide (default [] (q !! k) = []))).
  assert (forall q x, ne q x = false -> f q x = []) as Hne.
  { intros q0 x. unfold ne, f. rewrite negb_false_iff, bool_decide_eq_true. by intros ->. }
  change (flat_map (f q) (sortStrings (List.filter (keepParam a d) (map fst (map_to_list q))))
        = flat_map (f q') (sortStrings (List.filter (keepParam a d) (map fst (map_to_list q'))))).
  rewrite (flat_map_nonempty (f q) (ne q)), (flat_map_nonempty (f q') (ne q')) by apply Hne.
  rewrite !filter_sortStrings.
  assert (sortStrings (List.filter (ne q) (List.filter (keepParam a d) (map fst (map_to_list q))))
        = sortStrings (List.filter (ne q') (List.filter (keepParam a d) (map fst (map_to_list q'))))) as ->.
  { apply sortStrings_eq, NoDup_Permutation; [apply NoDup_filter_list, NoDup_filter_list, NoDup_fst_map_to_list..|].
    assert (forall (q : values) k, k ∈ List.filter (ne q) (List.filter (keepParam a d) (map fst (map_to_list q)))
      <-> keepParam a d k = true /\ default [] (q !! k) <> []) as Hel.
    { intros q0 k. rewrite list_elem_of_In, !filter_In, <- list_elem_of_In. unfold ne.
      rewrite negb_true_iff, bool_decide_eq_false. split; [tauto|]. intros [Hk Hv]. split_and!; [|done|done].
      destruct (q0 !! k) as [v|] eqn:E; [|done]. apply list_elem_of_fmap. exists (k, v). split; [done|]. by apply elem_of_map_to_list. }
    intros k. rewrite !Hel. split; intros [Hk Hv]; split; try done; specialize (H k Hk); intros E; rewrite E in H.
    + symmetry in H. by apply Permutation_nil_r in H || (apply Permutation_nil in H).
    + by apply Permutation_nil in H. }
  assert (Forall (fun k => keepParam a d k = true)
    (sortStrings (List.filter (ne q') (List.filter (keepParam a d) (map fst (map_to_list q')))))) as Hall.
  { apply list.Forall_forall. intros k. rewrite sortStrings_perm. rewrite list_elem_of_In, !filter_In. tauto. }
  induction Hall as [|k l Hk Hl IH]; [done|]. cbn [flat_map]. rewrite IH. f_equal. unfold f. f_equal.
  by apply sortStrings_eq, H.
Qed.

(** C34. Two queries render alike exactly when every kept parameter has the same values,
    up to their order. *)
Lemma canonical_query_spec q q' prefix a d :
  writeCanonicalQuery q prefix a d = writeCanonicalQuery q' prefix a d <->
  forall k, keepParam a d k = true -> default [] (q !! k) ≡ₚ default [] (q' !! k).
Proof.
  rewrite writeCanonicalQuery_pairs. split; [|apply canonicalPairs_perm].
  intros E k Hk. pose proof (canonicalPairs_values q a d k) as H. rewrite E, canonicalPairs_values, Hk in H.
  by apply sortStrings_eq.
Qed.

(** ** Equal keys *)

(** The text of a token when the matchers have the values [ev]. *)
Definition tokenValue {U : Platform} (ev : ptr -> bool) (req : Request) (stickyCookie : bytes) (t : keyToken) : bytes :=
  pureWith ev (writeToken t req stickyCookie).

(** A recipe as it is rendered. *)
Definition recipe (toks : list keyToken) : list keyToken := match toks with [] => defaultKeyTokens | _ => toks end.

Lemma buildKey_pure {U : Platform} ev toks req sc :
  pureWith ev (buildKey toks req sc) = Join (map (tokenValue ev req sc) (recipe toks)) keyTokenSep.
Proof. unfold buildKey. rewrite pureWith_bind, pureWith_mapP. by destruct toks. Qed.

(** What a configuration's own text may not contain. *)
Definition token_clean (t : keyToken) : Prop :=
  match t with
  | tokNormalize n => (SEP ∉ nz_def n) /\ map_Forall (fun _ v => SEP ∉ v) (nz_mapping n)
  | tokClassify cl => (SEP ∉ cl_def cl) /\ Forall (fun r => SEP ∉ row_value r) (cl_rows cl)
  | tokTenant (Some tr) _ => (SEP ∉ tr_def tr) /\ Forall (fun r => SEP ∉ tr_name r) (tr_rules tr)
  | tokTenant None t => SEP ∉ t
  | tokLiteral s => SEP ∉ s
  | _ => True
  end.

(** What the server lets through: no control byte in the method, the host, the client
    address and the classes. *)
Record request_clean {U : Platform} (req : Request) : Prop := {
  clean_method : SEP ∉ method req;
  clean_host : SEP ∉ normHost req;
  clean_ip : SEP ∉ rq_ClientIP req;
  clean_device : SEP ∉ rq_Device req;
  clean_geo : SEP ∉ rq_Geo req;
  clean_geoContinent : SEP ∉ rq_GeoContinent req;
  clean_geoRegion : SEP ∉ rq_GeoRegion req
}.

Lemma writeCanonicalQuery_sep q prefix a d : SEP ∉ writeCanonicalQuery q prefix a d.
Proof.
  unfold writeCanonicalQuery. destruct (canonicalPairs q a d) as [|p ps]; [by apply not_elem_of_nil|].
  rewrite elem_of_app. intros [H|H].
  - destruct prefix; cbn in H; [|by apply elem_of_nil in H]. by apply list_elem_of_singleton in H.
  - revert H. generalize (p :: ps). clear. intros l. induction l as [|kv l IH]; [by apply not_elem_of_nil|].
    assert (SEP ∉ renderPair kv) as Hkv.
    { unfold renderPair. rewrite !elem_of_app. intros [H|[H|H]]; [|by apply list_elem_of_singleton in H|];
        by eapply QueryEscape_not_elem in H. }
    destruct l as [|kv' l]; [done|]. cbn [map]. rewrite Join_cons by done. rewrite !elem_of_app.
    intros [H|[H|H]]; [done|by apply list_elem_of_singleton in H|by apply IH].
Qed.

Lemma tokenValue_sep {U : Platform} ev req sc t : request_clean req -> token_clean t -> SEP ∉ tokenValue ev req sc t.
Proof.
  intros [] Ht. unfold tokenValue, writeToken.
  destruct t as [ | | | | |g|g|n|n| | | | | |n|cl|[tr|] tn|s]; cbn [pureWith tokenText token_clean] in *;
    try first [done|apply writeKeyValue_sep|apply writeCanonicalQuery_sep].
  - rewrite elem_of_app. intros [H|H]; [by apply writeKeyValue_sep in H|by apply writeCanonicalQuery_sep in H].
  - case_bool_decide; [done|]. apply writeKeyValue_sep.
  - destruct Ht as [Hd Hm]. unfold normalizer_resolve. destruct (nz_mapping n !! _) eqn:E; [|done]. by apply Hm in E.
  - destruct Ht as [Hd Hr]. unfold classifier_resolve. rewrite pureWith_bind, pureWith_findP. cbn.
    destruct (List.find _ _) as [row|] eqn:E; [|done]. apply find_some in E as [E _].
    rewrite list.Forall_forall in Hr. by apply Hr, list_elem_of_In.
  - destruct Ht as [Hd Hr]. unfold tenantResolver_resolve. destruct (List.find _ _) as [ru|] eqn:E; [|done].
    apply find_some in E as [E _]. rewrite list.Forall_forall in Hr. by apply Hr, list_elem_of_In.
Qed.

(** Two clean requests with the same key under one recipe agree on every token of it. *)
Lemma key_tokens_agree {U : Platform} ev ev' toks r r' sc :
  Forall token_clean toks -> request_clean r -> request_clean r' ->
  pureWith ev (buildKey toks r sc) = pureWith ev' (buildKey toks r' sc) ->
  Forall (fun t => tokenValue ev r sc t = tokenValue ev' r' sc t) (recipe toks).
Proof.
  intros Ht Hr Hr' HK. rewrite !buildKey_pure in HK.
  assert (Forall token_clean (recipe toks)) as Ht'.
  { destruct toks; [|done]. repeat constructor. }
  apply Join_inj in HK.
  - clear Ht Ht'. revert HK. generalize (recipe toks). intros l. induction l as [|t l IH]; [constructor|].
    cbn. intros [= H1 H2]. constructor; [done|]. by apply IH.
  - apply Forall_fmap. eapply list.Forall_impl; [exact Ht'|]. intros t. by apply tokenValue_sep.
  - apply Forall_fmap. eapply list.Forall_impl; [exact Ht'|]. intros t. by apply tokenValue_sep.
  - by rewrite !length_map.
Qed.
