(* ===== verification/Device.v ===== *)
(** * Device classes ([internal/classify])

    The classifier behind the [{device}] token: ordered substring rules over the
    User-Agent and a map of folds, compiled from a [device_detect] block. *)

From stdpp Require Import base strings pretty numbers gmap list.
From Stdlib Require Import Lia.
From S2P Require Import Prelude GoStrings Http Ast.
Open Scope Z_scope.

(** ** Classifiers ([classify.go]) *)

Record Rule : Type := mkRule { Class_ : bytes; Substrings : list bytes; Exclude : list bytes }.
Record Fold : Type := mkFold { From_ : bytes; Into : bytes }.

Record Classifier : Type := mkDevice { d_rules : list Rule; defaultClass : bytes; d_folds : gmap bytes bytes }.

Definition builtinDefaultClass : bytes := go "desktop".

Definition DefaultRules : list Rule :=
  [mkRule (go "bot") (map go ["bot"; "crawler"; "spider"; "slurp"; "facebookexternalhit"; "bingpreview"]%string) [];
   mkRule (go "tablet") (map go ["ipad"; "tablet"; "kindle"; "silk"; "playbook"]%string) [];
   mkRule (go "tablet") [go "android"] [go "mobile"];
   mkRule (go "mobile") (map go ["mobile"; "android"; "iphone"; "ipod"; "blackberry"; "opera mini"; "windows phone"]%string) []].

Definition nonempty_bytes (s : bytes) : bool := negb (bool_decide (s = [])).

Section Device.
Context {U : Platform}.

Definition lowerNonEmpty (l : list bytes) : list bytes :=
  List.filter nonempty_bytes (map (fun s => toLower (TrimSpace s)) l).

(** [New]. *)
Definition New_ (rules : list Rule) (defaultCls : bytes) (folds : list Fold) : Classifier :=
  mkDevice (map (fun r => mkRule (Class_ r) (lowerNonEmpty (Substrings r)) (lowerNonEmpty (Exclude r))) rules)
    (if bool_decide (defaultCls = []) then builtinDefaultClass else defaultCls)
    (fold_left (fun fm f => if nonempty_bytes (From_ f) && nonempty_bytes (Into f) then <[From_ f := Into f]> fm else fm) folds ∅).

Definition Rule_matches (r : Rule) (lua : bytes) : bool :=
  existsb (Contains lua) (Substrings r) && negb (existsb (Contains lua) (Exclude r)).

(** The loop of [applyFold]; [seen] grows within the keys of the map. *)
Fixpoint foldLoop (n : nat) (folds : gmap bytes bytes) (seen : list bytes) (class : bytes) : option bytes :=
  match n with
  | O => None
  | S n =>
    match folds !! class with
    | None => Some class
    | Some next => if bool_decide (class ∈ seen) then Some class else foldLoop n folds (class :: seen) next
    end
  end.

Definition foldFuel (c : Classifier) : nat := S (S (size (d_folds c))).

Definition applyFold (c : Classifier) (class : bytes) : bytes :=
  default class (foldLoop (foldFuel c) (d_folds c) [] class).

Definition maxClassifyUALen : nat := 1024.

Definition Classify (c : Classifier) (ua : bytes) : bytes :=
  let class :=
    if bool_decide (ua = []) then defaultClass c
    else
      let lua := toLower (take maxClassifyUALen ua) in
      match List.find (fun r => Rule_matches r lua) (d_rules c) with
      | Some r => Class_ r
      | None => defaultClass c
      end in
  applyFold c class.

(** [Classes]: the distinct non-empty results, rules first. *)
Definition Classes (c : Classifier) : list bytes :=
  fold_left (fun out s => let s := applyFold c s in if bool_decide (s = []) || bool_decide (s ∈ out) then out else out ++ [s])
    (map Class_ (d_rules c) ++ [defaultClass c]) [].

(** ** [device_detect] blocks ([device_detect.go]) *)

Inductive deviceErr : Type :=
| devTwoBlocks | devNoBlock | devDefaultArgs | devDefaultTwice | devFoldArgs | devRule | devNoSubstring | devEmpty.

Fixpoint splitExcludes (args : list Arg) (excludes : bool) : list bytes * list bytes :=
  match args with
  | [] => ([], [])
  | a :: r =>
    if bool_decide (Raw a = go "ua_excludes") then splitExcludes r true
    else let '(s, e) := splitExcludes r excludes in if excludes then (s, Raw a :: e) else (Raw a :: s, e)
  end.

Definition parseDeviceRule (name : bytes) (args : list Arg) (pos : Pos) : outcome (Pos * deviceErr) Rule :=
  match args with
  | a :: ((_ :: _) as rest) =>
    if negb (bool_decide (Raw a = go "ua_contains")) then Err (pos, devRule)
    else let '(subs, excl) := splitExcludes rest false in
         match subs with [] => Err (pos, devNoSubstring) | _ => Ok (mkRule name subs excl) end
  | _ => Err (pos, devRule)
  end.

(** One statement of the block over the rules, folds and default so far. *)
Definition deviceStep (st : list Rule * list Fold * bytes) (n : Node) : outcome (Pos * deviceErr) (list Rule * list Fold * bytes) :=
  let '(rules, folds, def) := st in
  match n with
  | MatcherDef _ _ _ _ => Ok st
  | Directive name args _ _ pos =>
    if bool_decide (name = go "default") then
      match args with
      | [a] => if nonempty_bytes def then Err (pos, devDefaultTwice) else Ok (rules, folds, Raw a)
      | _ => Err (pos, devDefaultArgs)
      end
    else if bool_decide (name = go "fold") then
      match args with
      | [a; b] => Ok (rules, folds ++ [mkFold (Raw a) (Raw b)], def)
      | _ => Err (pos, devFoldArgs)
      end
    else let! r := parseDeviceRule name args pos in Ok (rules ++ [r], folds, def)
  end.

Fixpoint deviceBlock (st : list Rule * list Fold * bytes) (ns : list Node) : outcome (Pos * deviceErr) (list Rule * list Fold * bytes) :=
  match ns with
  | [] => Ok st
  | n :: ns => let! st' := deviceStep st n in deviceBlock st' ns
  end.

Definition isDeviceDetect (n : Node) : bool :=
  match n with Directive name _ _ _ _ => bool_decide (name = go "device_detect") | _ => false end.

Definition FromSite (body : list Node) : outcome (Pos * deviceErr) Classifier :=
  match List.filter isDeviceDetect body with
  | [] => Ok (New_ DefaultRules builtinDefaultClass [])
  | [Directive _ _ block hasBlock pos] =>
    if negb hasBlock then Err (pos, devNoBlock)
    else
      let! (rules, folds, def) := deviceBlock ([], [], []) block in
      match rules, folds with
      | [], [] => if bool_decide (def = []) then Err (pos, devEmpty)
                  else Ok (New_ DefaultRules def [])
      | [], _ => Ok (New_ DefaultRules (if bool_decide (def = []) then builtinDefaultClass else def) folds)
      | _, _ => Ok (New_ rules def folds)
      end
  | _ :: Directive _ _ _ _ pos :: _ => Err (pos, devTwoBlocks)
  | _ => Err (mkPos [] 0 0, devTwoBlocks)
  end.
End Device.

(** ** Folding terminates *)

(** With the classes seen among the keys, the fuel left covers the keys not yet seen. *)
Lemma foldLoop_total n folds seen class :
  NoDup seen -> Forall (fun s => is_Some (folds !! s)) seen -> (size folds + 1 <= n + length seen)%nat ->
  exists c', foldLoop n folds seen class = Some c'.
Proof.
  revert seen class. induction n as [|n IH]; intros seen class Hnd Hin Hn.
  - exfalso. assert (length seen <= size folds)%nat; [|lia].
    rewrite <- (size_dom folds (D := gset bytes)). rewrite <- (size_list_to_set (C := gset bytes) seen) by done.
    apply subseteq_size. intros s Hs. apply elem_of_list_to_set in Hs. rewrite list.Forall_forall in Hin.
    by apply elem_of_dom, Hin.
  - cbn. destruct (folds !! class) as [next|] eqn:E; [|by eexists]. case_bool_decide; [by eexists|].
    apply IH; [by constructor| |cbn; lia]. constructor; [by rewrite E|done].
Qed.

Lemma applyFold_loop c class : foldLoop (foldFuel c) (d_folds c) [] class = Some (applyFold c class).
Proof.
  unfold applyFold. destruct (foldLoop_total (foldFuel c) (d_folds c) [] class) as [c' ->]; [constructor..| |done].
  unfold foldFuel. cbn. lia.
Qed.

(** The class of a User-Agent is one of the classes, or none. *)
Lemma Classify_class {U : Platform} c ua : Classify c ua ∈ Classes c \/ Classify c ua = [].
Proof.
  set (step := fun out s => let s := applyFold c s in if bool_decide (s = []) || bool_decide (s ∈ out) then out else out ++ [s]).
  assert (forall l out s, applyFold c s ∈ out \/ s ∈ l -> applyFold c s ∈ fold_left step l out \/ applyFold c s = []) as Hin.
  { induction l as [|x l IH]; intros out s H; cbn [fold_left].
    - destruct H as [H|H]; [by left|by apply elem_of_nil in H].
    - destruct H as [H|[->|H]%elem_of_cons]; [apply IH; left| |apply IH; by right].
      + unfold step. cbn zeta. destruct (_ || _); [done|]. apply elem_of_app. by left.
      + destruct (decide (applyFold c x = [])) as [E|E]; [by right|]. apply IH. left. unfold step. cbn zeta.
        rewrite (bool_decide_false (applyFold c x = [])) by done. cbn [orb]. case_bool_decide; [done|]. apply elem_of_app. right. by apply list_elem_of_singleton. }
  unfold Classify. cbn zeta. apply (Hin (map Class_ (d_rules c) ++ [defaultClass c]) []). right. apply elem_of_app.
  case_bool_decide; [right; by apply list_elem_of_singleton|].
  destruct (List.find _ _) as [r|] eqn:E; [left|right; by apply list_elem_of_singleton].
  apply find_some in E as [E _]. apply list_elem_of_fmap. exists r. split; [done|by apply list_elem_of_In].
Qed.

(** Every request gets one of the site's declared device classes: the class of any
    User-Agent, however long and whatever folds the block declares, cycles included, is
    in [Classes] unless it is empty, and [Classes] has at most one entry per rule and
    one for the default. *)
Theorem Classify_bounded {U : Platform} c ua :
  (Classify c ua ∈ Classes c \/ Classify c ua = []) /\ (length (Classes c) <= length (d_rules c) + 1)%nat /\
  (forall class, foldLoop (foldFuel c) (d_folds c) [] class <> None).
Proof.
  set (step := fun out s => let s := applyFold c s in if bool_decide (s = []) || bool_decide (s ∈ out) then out else out ++ [s]).
  assert (forall l out, (length (fold_left step l out) <= length out + length l)%nat) as Hlen.
  { induction l as [|x l IH]; intros out; cbn [fold_left length]; [lia|]. specialize (IH (step out x)).
    assert (length (step out x) <= S (length out))%nat; [|lia]. unfold step. cbn zeta. destruct (_ || _); [lia|]. rewrite length_app. cbn. lia. }
  split_and!; [apply Classify_class|..].
  - specialize (Hlen (map Class_ (d_rules c) ++ [defaultClass c]) []). rewrite length_app, length_map in Hlen. exact Hlen.
  - intros class. by rewrite applyFold_loop.
Qed.
