(* ===== verification/Rules.v ===== *)
(** * Compiled rules ([compile.go], [header.go], [rewrite.go], [redirect.go],
    [secgate.go], [ratelimit.go]) and the pipeline they form

    The record types of the compiled directives, the enumeration of the matchers they
    use and the assignment of memo slots. *)

From stdpp Require Import base strings pretty numbers gmap list.
From Stdlib Require Import Lia SpecFloat.
From S2P Require Import Prelude GoStrings Http Ast Netip Glob Host CookieJson Request Matcher CacheKey Duration Device.
Open Scope Z_scope.

(** ** Selectors *)

Inductive selectorKind : Type :=
| selStatusIn (codes : gset Z)
| selStatusNotIn (codes : gset Z)
| selScope (sc : scope)
| selDefault.

Record selector : Type := mkSel { sel_kind : selectorKind; sel_respHeader : option ptr }.

Definition selector_matches (s : selector) (status : Z) : prog bool :=
  do rh <- match sel_respHeader s with None => Ret true | Some m => matches m end;
  if negb rh then Ret false
  else match sel_kind s with
       | selStatusIn codes => Ret (bool_decide (status ∈ codes))
       | selStatusNotIn codes => Ret (negb (bool_decide (status ∈ codes)))
       | selScope sc => scopeMatches (Some sc)
       | selDefault => Ret true
       end.

Definition isStatusIn (s : selector) : bool := match sel_kind s with selStatusIn _ => true | _ => false end.

(** ** Rules *)

(** [terms] is [None] for the exact-path form. *)
Record respondRule : Type := mkRespond {
  rs_path : bytes; rs_terms : option (list secTerm); rs_status : Z; rs_body : bytes
}.

Record onErrorRule : Type := mkOnError {
  oe_scope : option scope; oe_status : Z; oe_body : bytes; oe_contentType : bytes
}.

Record purgeRule : Type := mkPurge { pu_guard : option scope; pu_regexToken : bytes; pu_regexPath : bool }.

Record routeRule : Type := mkRoute { ro_scope : option scope; ro_upstream : bytes }.

Record ttlRule : Type := mkTTL {
  tl_sel : selector;
  tl_ttl : Z;
  tl_grace : Z;
  tl_hfm : Z;
  tl_isHFM : bool;
  tl_maxStale : Z;
  tl_fromHeader : bytes;
  tl_graceFromHeader : bytes;
  tl_maxStaleFromHeader : bytes
}.

Definition nonEmpty (s : bytes) : bool := negb (bool_decide (s = [])).

Definition consumedHeaders (r : ttlRule) : list bytes :=
  List.filter nonEmpty [tl_fromHeader r; tl_graceFromHeader r; tl_maxStaleFromHeader r].

Record storageRule : Type := mkStorage { sg_sel : selector; sg_tier : bytes }.

Record keyRule : Type := mkKeyRule { kr_sel : selector; kr_toks : list keyToken; kr_pos : Pos }.

Inductive HeaderOpKind : Type := OpSet | OpAppend | OpRemove | OpCacheStatus | OpCacheKey | OpCacheAge.

#[export] Instance HeaderOpKind_eq_dec : EqDecision HeaderOpKind.
Proof. solve_decision. Defined.

Record HeaderOp : Type := mkHeaderOp { ho_op : HeaderOpKind; ho_name : bytes; ho_value : bytes; ho_tpl : bool }.

Record headerRule : Type := mkHeaderRule { hr_scope : option scope; hr_ops : list HeaderOp }.

Inductive rewriteOp : Type :=
| rwPath (re : regexp) (repl : bytes)
| rwStripQuery (names : nameGlobSet)
| rwSetQuery (name valueTpl : bytes).

Record rewriteRule : Type := mkRewrite { rw_scope : option scope; rw_op : rewriteOp }.

Record redirectRule : Type := mkRedirectRule {
  rd_re : option regexp; rd_sc : option scope; rd_status : Z; rd_target : bytes; rd_noStore : bool
}.

Record secRule : Type := mkSecRule { sr_terms : list secTerm; sr_monitor : bool; sr_pos : Pos; sr_name : bytes }.

Inductive rlKeyKind : Type := rlKeyIP | rlKeyHeader (name : bytes) | rlKeyGlobal.

Record rateLimitRule : Type := mkRateLimit {
  rl_id : Z; rl_scope : option scope; rl_ratePerSec : float64; rl_burst : Z; rl_key : rlKeyKind;
  rl_monitor : bool; rl_name : bytes
}.

Record CORSDecision : Type := mkCORS {
  AllowAllOrigins : bool; Origins : list bytes; Methods : list bytes; CORSHeaders : list bytes
}.
Record corsRule : Type := mkCorsRule { cr_scope : option scope; cr_cors : CORSDecision }.

Record Replacement : Type := mkReplacement { Old : bytes; New : bytes }.
Record transformRule : Type := mkTransform { tf_scope : option scope; tf_repl : Replacement }.

Record encodeRule : Type := mkEncodeRule { en_codecs : list bytes; en_types : list bytes; en_minLength : Z }.

(** The compiled [edge] block ([edge.go]). *)
Record edgeTierRule : Type := mkEdgeTier { et_scope : option scope; et_tier : bytes }.

Record edgeConfig : Type := mkEdge {
  ec_account : bytes; ec_zone : bytes; ec_worker : bytes; ec_routes : list bytes; ec_kvNamespace : bytes;
  ec_defaultTier : bytes; ec_policies : list edgeTierRule; ec_kvTTL : Z; ec_kvMaxBytes : Z;
  ec_bypassPasses : bool; ec_bypassPatterns : list bytes
}.

(** [Pipeline], with the heap its matchers live in. *)
Record Pipeline : Type := mkPipeline {
  addresses : list bytes;
  trustedHosts : option hostSet;
  canonicalHost : bytes;
  p_heap : heap;
  p_matchers : gmap bytes ptr;
  p_normalizers : gmap bytes normalizer;
  p_classifiers : gmap bytes classifier;
  numMatchers : nat;
  respondRules : list respondRule;
  onErrorRules : list onErrorRule;
  redirectRules : list redirectRule;
  purgeRules : list purgeRule;
  routeRules : list routeRule;
  passRules : list (option scope);
  upgradeRules : list (option scope);
  credentialedRules : list (option scope);
  reqHeaderRules : list headerRule;
  rewriteRules : list rewriteRule;
  allowRules : list secRule;
  denyRules : list secRule;
  rateLimitRules : list rateLimitRule;
  securityMonitor : bool;
  keyRules : list keyRule;
  stickyCookie : bytes;
  defaultUpstream : bytes;
  p_tenant : bytes;
  p_tenantResolver : option tenantResolver;
  ttlRules : list ttlRule;
  storageRules : list storageRule;
  cacheUnsafe : bool;
  ignoreClientRevalidation : bool;
  cookieAllow : option nameGlobSet;
  respHeaderRules : list headerRule;
  stripRules : list (option scope);
  p_corsRule : option corsRule;
  transformRules : list transformRule;
  p_encodeRule : option encodeRule;
  p_edge : option edgeConfig;
  deviceClassifier : Classifier
}.

(** ** The matchers in use *)

Definition sel_scopes (s : selector) : list (option scope) :=
  match sel_kind s with selScope sc => [Some sc] | _ => [] end.

(** [forEachScope], in its order. *)
Definition allScopes (p : Pipeline) : list scope :=
  omap id (map pu_guard (purgeRules p) ++ map oe_scope (onErrorRules p) ++ map ro_scope (routeRules p)
    ++ passRules p ++ upgradeRules p ++ map hr_scope (reqHeaderRules p) ++ map rw_scope (rewriteRules p)
    ++ flat_map (fun r => sel_scopes (tl_sel r)) (ttlRules p) ++ flat_map (fun r => sel_scopes (sg_sel r)) (storageRules p)
    ++ flat_map (fun r => sel_scopes (kr_sel r)) (keyRules p) ++ map hr_scope (respHeaderRules p) ++ stripRules p
    ++ match p_corsRule p with Some r => [cr_scope r] | None => [] end
    ++ map tf_scope (transformRules p) ++ map rl_scope (rateLimitRules p)).

(** [forEachSecRule]. *)
Definition allSecRules (p : Pipeline) : list secRule := allowRules p ++ denyRules p.

(** The matchers [indexMatchers] visits, in its order: the scopes, the classify tokens
    of the recipes, the security terms and the scoped responds. *)
Definition indexRoots (p : Pipeline) : list ptr :=
  concat (allScopes p)
  ++ flat_map (fun r => flat_map (fun t => match t with tokClassify cl => classifier_refs cl | _ => [] end) (kr_toks r)) (keyRules p)
  ++ flat_map (fun r => map t_m (sr_terms r)) (allSecRules p)
  ++ flat_map (fun r => map t_m (default [] (rs_terms r))) (respondRules p).

(** [assign]: the next free slot to the matcher, then to those it refers to; the fuel
    bounds the depth of the references. *)
Definition set_idx (m : matcher) (i : Z) : matcher := mkMatcher (m_name m) (m_pos m) i (m_kind m).

Fixpoint assign (n : nat) (p : ptr) (st : heap * nat) : heap * nat :=
  match n, fst st !! p with
  | S n, Some m =>
    if 0 <=? m_idx m then st
    else fold_left (fun st q => assign n q st) (refs m)
           (<[p := set_idx m (Z.of_nat (snd st))]> (fst st), S (snd st))
  | _, _ => st
  end.

Definition indexHeap (h : heap) (roots : list ptr) : heap * nat :=
  fold_left (fun st q => assign (length h) q st) roots (h, 0%nat).

(** [indexMatchers]. *)
Definition indexMatchers (p : Pipeline) : Pipeline :=
  let '(h, next) := indexHeap (p_heap p) (indexRoots p) in
  mkPipeline (addresses p) (trustedHosts p) (canonicalHost p) h (p_matchers p) (p_normalizers p) (p_classifiers p) next
    (respondRules p) (onErrorRules p) (redirectRules p) (purgeRules p) (routeRules p) (passRules p) (upgradeRules p)
    (credentialedRules p) (reqHeaderRules p) (rewriteRules p) (allowRules p) (denyRules p) (rateLimitRules p)
    (securityMonitor p) (keyRules p) (stickyCookie p) (defaultUpstream p) (p_tenant p) (p_tenantResolver p) (ttlRules p)
    (storageRules p) (cacheUnsafe p) (ignoreClientRevalidation p) (cookieAllow p) (respHeaderRules p) (stripRules p)
    (p_corsRule p) (transformRules p) (p_encodeRule p) (p_edge p) (deviceClassifier p).

(** ** Slots *)

Definition erase (m : matcher) : matcher := set_idx m (-1).

(** The state of the walk over a heap: only slots changed, those given are below the
    next free one, and no two matchers have the same. *)
Record walked (h0 : heap) (st : heap * nat) : Prop := {
  walk_erase : map erase (fst st) = map erase h0;
  walk_bound : forall p m, fst st !! p = Some m -> m_idx m < Z.of_nat (snd st);
  walk_unique : forall p q m m', fst st !! p = Some m -> fst st !! q = Some m' -> 0 <= m_idx m -> m_idx m = m_idx m' -> p = q
}.

Lemma walk_insert h0 st p m : walked h0 st -> fst st !! p = Some m ->
  walked h0 (<[p := set_idx m (Z.of_nat (snd st))]> (fst st), S (snd st)).
Proof.
  destruct st as [h n]. intros [He Hb Hu] Hp. cbn [fst snd] in *. split; cbn [fst snd].
  - rewrite map_insert. rewrite <- He. apply list_insert_id. rewrite map_lookup, Hp. done.
  - intros q m' [(-> & <- & _)|[_ H]]%list_lookup_insert_Some; [cbn; lia|]. apply Hb in H. lia.
  - intros a b ma mb [(-> & <- & _)|[Ha HA]]%list_lookup_insert_Some [(-> & <- & _)|[Hb' HB]]%list_lookup_insert_Some; cbn; intros H0 E.
    + done.
    + apply Hb in HB. lia.
    + apply Hb in HA. lia.
    + by eapply Hu.
Qed.

Lemma walk_assign h0 n p st : walked h0 st -> walked h0 (assign n p st).
Proof.
  revert p st. induction n as [|n IH]; intros p st H; [done|]. cbn [assign].
  destruct (fst st !! p) as [m|] eqn:Ep; [|done]. destruct (0 <=? m_idx m); [done|].
  pose proof (walk_insert h0 st p m H Ep) as H'. revert H'. generalize (<[p := set_idx m (Z.of_nat (snd st))]> (fst st), S (snd st)).
  induction (refs m) as [|q qs IHq]; intros st' Hst'; [done|]. cbn [fold_left]. by apply IHq, IH.
Qed.

Lemma walk_index h roots : Forall (fun m => m_idx m = -1) h -> walked h (indexHeap h roots).
Proof.
  intros Hh. unfold indexHeap. assert (walked h (h, 0%nat)) as H0.
  { rewrite list.Forall_forall in Hh. split; cbn [fst snd]; [done| |].
    - intros p m H%list_elem_of_lookup_2%Hh. lia.
    - intros p q m m' H _ H0. apply list_elem_of_lookup_2, Hh in H. lia. }
  revert H0. generalize (h, 0%nat). generalize (length h). intros n.
  induction roots as [|q roots IH]; intros st Hst; [done|]. cbn [fold_left]. by apply IH, walk_assign.
Qed.

(** References go to matchers compiled before. *)
Definition refs_below (h : heap) : Prop := forall p m q, h !! p = Some m -> q ∈ refs m -> (q < p)%nat.

Lemma erase_lookup h h' p m : map erase h = map erase h' -> h !! p = Some m -> exists m', h' !! p = Some m' /\ m_kind m = m_kind m'.
Proof.
  intros E H. apply (f_equal (.!! p)) in E. rewrite !map_lookup, H in E. cbn in E.
  destruct (h' !! p) as [m'|]; [|done]. injection E as _ _ E. by exists m'.
Qed.

Lemma walk_wf h st : refs_below h -> walked h st -> heap_wf (fst st).
Proof.
  intros Hr [He Hb Hu]. split; [|done]. intros p m q Hp Hq. destruct (erase_lookup _ _ p m He Hp) as (m' & Hp' & Hk).
  apply (Hr p m' q Hp'). unfold refs in *. by rewrite <- Hk.
Qed.

Lemma matchesPure_erase {U : Platform} h h' c n p : map erase h = map erase h' -> matchesPure h c n p = matchesPure h' c n p.
Proof.
  intros E. revert p. induction n as [|n IH]; intros p; [done|]. cbn. destruct (h !! p) as [m|] eqn:Ep.
  - destruct (erase_lookup _ _ p m E Ep) as (m' & -> & Hk).
    assert (match_ m c = match_ m' c) as -> by (unfold match_; by rewrite Hk).
    eapply pureWith_ext with (P := fun _ => True); [|done]. generalize (match_ m' c). intros pr. induction pr; cbn; auto.
  - destruct (h' !! p) as [m'|] eqn:Ep'; [|done]. destruct (erase_lookup _ _ p m' (eq_sym E) Ep') as (? & ? & _). congruence.
Qed.

(** C23. The memo changes no decision: after every matcher in use has been given its slot,
    evaluating any program over matchers with the memo (each matcher at most once per
    context, classifiers and conjunctions through their parts) gives what evaluating it
    without one gives. *)
Theorem memo_transparent {U : Platform} {A : Type} p c (pr : prog A) :
  refs_below (p_heap p) -> Forall (fun m => m_idx m = -1) (p_heap p) ->
  let p' := indexMatchers p in run (p_heap p') c (numMatchers p') pr = pure (p_heap p) c pr.
Proof.
  intros Hr Hi p'. unfold p', indexMatchers.
  pose proof (walk_index (p_heap p) (indexRoots p) Hi) as Hw. destruct (indexHeap (p_heap p) (indexRoots p)) as [h n].
  cbn [p_heap numMatchers]. rewrite run_pure by (by apply (walk_wf (p_heap p) (h, n))).
  unfold pure. assert (length h = length (p_heap p)) as ->.
  { apply walk_erase in Hw. apply (f_equal length) in Hw. by rewrite !length_map in Hw. }
  eapply pureWith_ext with (P := fun _ => True).
  - clear. induction pr; cbn; auto.
  - intros q _. apply matchesPure_erase. by apply walk_erase in Hw.
Qed.

(** A pipeline with these matchers, key recipes, lifetimes and deny rules, and no others. *)
Definition examplePipeline (h : heap) (keys : list keyRule) (ttls : list ttlRule) (deny : list secRule) : Pipeline :=
  mkPipeline [go "example.com"] None (go "example.com") h ∅ ∅ ∅ 0 [] [] [] [] [] [] [] [] [] [] [] deny [] false keys [] [] [] None
    ttls [] false false None [] [] None [] None None (@New_ amd64 [] [] []).

(** [@safe method GET HEAD] and [@page all @safe !@admin], with [@admin path /admin]. *)
Definition exampleHeap : heap :=
  [mkMatcher (go "safe") (mkPos [] 1 1) (-1) (kindMethod {[go "GET"; go "HEAD"]});
   mkMatcher (go "admin") (mkPos [] 2 1) (-1) (kindPath (Glob.add newPathSet (go "/admin")));
   mkMatcher (go "page") (mkPos [] 3 1) (-1) (kindAll [mkTerm 0 false; mkTerm 1 true])]%nat.

Lemma memo_transparent_witness :
  let p := examplePipeline exampleHeap [] [] [mkSecRule [mkTerm 2 false] false (mkPos [] 4 1) []] in
  let c := mkCtx (exampleRequest (go "/a") ∅) [] None in
  let p' := indexMatchers p in
  @run amd64 (p_heap p') c bool (numMatchers p') (matches 2) = @pure amd64 (p_heap p) c bool (matches 2)
  /\ @pure amd64 (p_heap p) c bool (matches 2) = true.
Proof.
  split; [|vm_compute; reflexivity].
  apply (@memo_transparent amd64).
  - intros q m r Hq Hr. destruct q as [|[|[|q]]]; cbn in Hq; try discriminate; injection Hq as <-; cbn in Hr.
    + by apply elem_of_nil in Hr.
    + by apply elem_of_nil in Hr.
    + apply elem_of_cons in Hr as [->|Hr]; [lia|]. apply list_elem_of_singleton in Hr. lia.
  - by repeat constructor.
Defined.
