(* ===== verification/Template.v ===== *)
(** * Placeholder templates and redirects ([template.go], [redirect.go])

    The expansion of redirect targets, rewrites and header values, and the evaluation
    of a redirect with its guard against open redirects. *)

From stdpp Require Import base strings pretty numbers gmap list.
From Stdlib Require Import Lia.
From S2P Require Import Prelude GoStrings Http Ast Netip Glob Host CookieJson Request Matcher CacheKey Duration Device Rules.
Open Scope Z_scope.

(** ** Templates *)

(** [te_Header] is [None] for a nil header. *)
Record TemplateEnv : Type := mkEnv {
  te_Host : bytes;
  te_Path : bytes;
  te_Query : bytes;
  te_Capture : list bytes;
  te_Header : option header;
  te_ClientIP : bytes;
  te_Geo : bytes;
  te_GeoContinent : bytes;
  te_GeoRegion : bytes;
  te_Device : bytes;
  te_QueryParams : values;
  te_Scheme : bytes
}.

Definition uri (e : TemplateEnv) : bytes :=
  if bool_decide (te_Query e = []) then te_Path e else te_Path e ++ go "?" ++ te_Query e.

(** [classifyResolver.resolve]; the zero resolver is [None], and the context is the
    one the program runs in. *)
Definition resolveClassify (cr : option (gmap bytes classifier)) (name : bytes) : prog (option bytes) :=
  match cr with
  | None => Ret None
  | Some cls =>
    match cls !! name with
    | None => Ret None
    | Some cl => do v <- classifier_resolve cl; Ret (Some v)
    end
  end.

(** [strings.CutPrefix], for a non-empty rest. *)
Definition cutPrefix (s p : bytes) : option bytes :=
  if HasPrefix s p then (let r := drop (length p) s in if bool_decide (r = []) then None else Some r) else None.

Section Expand.
Context {U : Platform}.

Definition namedPlain (e : TemplateEnv) (name : bytes) : option bytes :=
  if bool_decide (name = go "host") then Some (te_Host e)
  else if bool_decide (name = go "host.base") then Some (fst (hostParts uni_lower (te_Host e)))
  else if bool_decide (name = go "host.sub") then Some (snd (hostParts uni_lower (te_Host e)))
  else if bool_decide (name = go "path") then Some (te_Path e)
  else if bool_decide (name = go "query") then Some (te_Query e)
  else if bool_decide (name = go "uri") then Some (uri e)
  else if bool_decide (name = go "client_ip") then Some (te_ClientIP e)
  else if bool_decide (name = go "geo") then Some (te_Geo e)
  else if bool_decide (name = go "geo.continent") then Some (te_GeoContinent e)
  else if bool_decide (name = go "geo.region") then Some (te_GeoRegion e)
  else if bool_decide (name = go "device") then Some (te_Device e)
  else if bool_decide (name = go "proto") || bool_decide (name = go "scheme") then
    Some (if bool_decide (te_Scheme e = go "https") then go "https" else go "http")
  else match cutPrefix name (go "query.") with
       | Some qn => Some (qget (te_QueryParams e) qn)
       | None =>
         match cutPrefix name (go "http.") with
         | Some hn => Some (match te_Header e with None => [] | Some h => Get h hn end)
         | None => None
         end
       end.

Definition named (e : TemplateEnv) (name : bytes) (cr : option (gmap bytes classifier)) : prog (option bytes) :=
  match namedPlain e name with
  | Some v => Ret (Some v)
  | None =>
    match cutPrefix name (go "classify.") with
    | Some cn => resolveClassify cr cn
    | None => Ret None
    end
  end.

Definition hasPlaceholder (s : bytes) : bool :=
  match IndexAny s (go "{$") with Some _ => true | None => false end.

(** The loop of [expandTemplate]; every step consumes a byte of the template. *)
Fixpoint expandLoop (n : nat) (tmpl : bytes) (env : TemplateEnv) (cr : option (gmap bytes classifier)) : prog bytes :=
  match n, tmpl with
  | S n, c :: r =>
    if (c =b "{")%byte then
      match IndexByte tmpl "}" with
      | None => Ret tmpl
      | Some e =>
        do v <- named env (take (e - 1) r) cr;
        do rest <- expandLoop n (drop (S e) tmpl) env cr;
        Ret (default (take (S e) tmpl) v ++ rest)
      end
    else if (c =b "$")%byte then
      match r with
      | d :: r' =>
        if (d =b "$")%byte then do rest <- expandLoop n r' env cr; Ret ("$"%char :: rest)
        else if isDigit d then
          do rest <- expandLoop n r' env cr;
          Ret (default [] (te_Capture env !! Z.to_nat (byteZ d - 0x30)) ++ rest)
        else do rest <- expandLoop n r env cr; Ret ("$"%char :: rest)
      | [] => Ret ["$"%char]
      end
    else do rest <- expandLoop n r env cr; Ret (c :: rest)
  | _, _ => Ret []
  end.

Definition expandTemplate (tmpl : bytes) (env : TemplateEnv) (cr : option (gmap bytes classifier)) : prog bytes :=
  if negb (hasPlaceholder tmpl) then Ret tmpl else expandLoop (length tmpl) tmpl env cr.

(** ** Redirect targets *)

Definition isLetter (c : ascii) : bool :=
  ((0x41 <=? byteZ c) && (byteZ c <=? 0x5A)) || ((0x61 <=? byteZ c) && (byteZ c <=? 0x7A)).

(** [redirectSchemePrefix]: the length of the scheme and its colon. *)
Fixpoint schemeTail (s : bytes) : option nat :=
  match s with
  | c :: r =>
    if (c =b ":")%byte then Some 1%nat
    else if isLetter c || isDigit c || existsb (Ascii.eqb c) (go "+.-") then S <$> schemeTail r
    else None
  | [] => None
  end.

Definition schemePrefix (s : bytes) : option nat :=
  match s with
  | c :: r => if isLetter c then S <$> schemeTail r else None
  | [] => None
  end.

Definition foldSlash (s : bytes) : bytes := map (fun c => if (c =b "\")%byte then "/"%char else c) s.

Fixpoint trimSlash (s : bytes) : bytes :=
  match s with
  | c :: r => if (c =b "/")%byte then trimSlash r else s
  | [] => []
  end.

(** The text after the scheme or the leading slashes of an absolute location. *)
Definition redirectAuthorityRest (s : bytes) : option bytes :=
  match schemePrefix s with
  | Some n => Some (trimSlash (foldSlash (drop n s)))
  | None => if HasPrefix (foldSlash s) (go "//") then Some (trimSlash (foldSlash s)) else None
  end.

Definition locationAuthority (s : bytes) : option bytes :=
  match redirectAuthorityRest s with
  | None => None
  | Some rest => Some (match IndexAny rest (go "/?#") with Some j => take j rest | None => rest end)
  end.

Definition droppedRune (r : Z) : bool := (r =? 9) || (r =? 10) || (r =? 13) || (r =? 12) || (r =? 0).

Fixpoint trimControl (s : bytes) : bytes :=
  match s with
  | c :: r => if byteZ c <=? 0x20 then trimControl r else s
  | [] => []
  end.

(** [strings.Map] rewrites an invalid byte as the replacement character. *)
Definition normalizeRedirectLocation (s : bytes) : bytes :=
  let s := flat_map (fun r => if droppedRune r then [] else encodeRune r) (runes s) in
  rev (trimControl (rev (trimControl s))).

Definition redirectAuthorityAllowedToken (name : bytes) : bool :=
  memBytes name (map go ["host"; "host.base"; "host.sub"]%string).

Definition redirectAuthorityTerminatesToken (name : bytes) : bool :=
  memBytes name (map go ["uri"; "path"]%string).

(** The scan of the authority of a target; [Some] is the offending token. *)
Fixpoint unsafeScan (n : nat) (rest : bytes) (sawHost : bool) : option bytes :=
  match n, rest with
  | S n, c :: r =>
    if existsb (Ascii.eqb c) (go "/?#") then None
    else if (c =b "{")%byte then
      match IndexByte rest "}" with
      | None => Some rest
      | Some e =>
        let name := take (e - 1) r in
        if redirectAuthorityTerminatesToken name then None
        else if negb (redirectAuthorityAllowedToken name) then Some (go "{" ++ name ++ go "}")
        else unsafeScan n (drop (S e) rest) true
      end
    else
      match r with
      | d :: _ =>
        if (c =b "$")%byte && isDigit d && negb sawHost then Some [c; d] else unsafeScan n r sawHost
      | [] => unsafeScan n r sawHost
      end
  | _, _ => None
  end.

Definition redirectTargetUnsafeAuthorityToken (target : bytes) : option bytes :=
  match redirectAuthorityRest target with
  | None => None
  | Some rest => unsafeScan (length rest) rest false
  end.

Definition redirectHost (p : Pipeline) (req : Request) : bytes :=
  let h := normHost req in
  match trustedHosts p with
  | None => h
  | Some ts => if MatchHost uni_lower ts h then h else canonicalHost p
  end.

Record Redirect : Type := mkRedirect { Status : Z; Location : bytes; NoStore : bool }.

Definition redirectEnv (p : Pipeline) (req : Request) (capture : list bytes) : TemplateEnv :=
  mkEnv (redirectHost p req) (rq_Path req) (canonicalQuery req) capture (Some (rq_Header req)) (rq_ClientIP req)
    (rq_Geo req) (rq_GeoContinent req) (rq_GeoRegion req) (rq_Device req) (rq_Query req)
    (if rq_TLS req then go "https" else go "http").

(** The environment with every request-sourced value blanked. *)
Definition redirectRef (p : Pipeline) (req : Request) : TemplateEnv :=
  mkEnv (redirectHost p req) [] [] [] None [] [] [] [] [] ∅ (if rq_TLS req then go "https" else go "http").

(** [redirectRule.eval]. *)
Definition redirect_eval (r : redirectRule) (p : Pipeline) (req : Request) : prog (option Redirect) :=
  do inScope <- scopeMatches (rd_sc r);
  if negb inScope then Ret None
  else
    match (match rd_re r with None => Some [] | Some re => reSubmatch re (rq_Path req) end) with
    | None => Ret None
    | Some capture =>
      do loc0 <- expandTemplate (rd_target r) (redirectEnv p req capture) (Some (p_classifiers p));
      let loc := normalizeRedirectLocation loc0 in
      let rd := mkRedirect (rd_status r) loc (rd_noStore r) in
      match locationAuthority loc with
      | None => Ret (Some rd)
      | Some gotAuth =>
        do refLoc <- expandTemplate (rd_target r) (redirectRef p req) None;
        match locationAuthority (normalizeRedirectLocation refLoc) with
        | None => Ret None
        | Some refAuth => Ret (if bool_decide (refAuth = gotAuth) then Some rd else None)
        end
      end
    end.

(** The site address as a trusted host. *)
Definition normalizeRedirectHost (addr0 : bytes) : bytes :=
  let addr := TrimSpace addr0 in
  let addr := match Index addr (go "://") with Some i => drop (i + 3) addr | None => addr end in
  let addr := match IndexAny addr (go "/?#") with Some i => take i addr | None => addr end in
  let wildcard := HasPrefix addr (go "*.") in
  let addr := normalizeHost uni_lower (if wildcard then drop 2 addr else addr) in
  if bool_decide (addr = []) then [] else if wildcard then go "*." ++ addr else addr.

(** The trusted hosts and the canonical host of a site's addresses ([Compile]). *)
Definition siteHosts (addresses : list bytes) : option hostSet * bytes :=
  match addresses with
  | [] => (None, [])
  | first :: _ =>
    let '(ts, canon) :=
      fold_left (fun '(ts, canon) addr =>
        let h := normalizeRedirectHost addr in
        if bool_decide (h = []) then (ts, canon)
        else (addHost uni_lower ts h,
              if bool_decide (canon = []) && negb (HasPrefix h (go "*.")) then h else canon))
        addresses (newHostSet, []) in
    (Some ts, if bool_decide (canon = []) then normalizeRedirectHost first else canon)
  end.
End Expand.

(** ** What a template expands to *)

(** The pieces of a template: literal text, [{name}], [$0] to [$9] and [$$]. *)
Inductive segment : Type :=
| segLit (s : bytes)
| segName (name : bytes)
| segCapture (d : ascii)
| segDollar.

Definition segText (g : segment) : bytes :=
  match g with
  | segLit s => s
  | segName name => go "{" ++ name ++ go "}"
  | segCapture d => ["$"%char; d]
  | segDollar => go "$$"
  end.

Definition segOk (g : segment) : Prop :=
  match g with
  | segLit s => ("{"%char ∉ s) /\ ("$"%char ∉ s)
  | segName name => "}"%char ∉ name
  | segCapture d => isDigit d = true
  | segDollar => True
  end.

Lemma take_app_cons {A} (u v : list A) (c : A) : take (S (length u)) (u ++ c :: v) = u ++ [c].
Proof. induction u as [|x u IH]; [done|]. cbn in *. by rewrite IH. Qed.

Section Expansion.
Context {U : Platform}.
Variables (ev : ptr -> bool) (env : TemplateEnv) (cr : option (gmap bytes classifier)).

Definition segValue (g : segment) : bytes :=
  match g with
  | segLit s => s
  | segName name => default (go "{" ++ name ++ go "}") (pureWith ev (named env name cr))
  | segCapture d => default [] (te_Capture env !! Z.to_nat (byteZ d - 0x30))
  | segDollar => go "$"
  end.

Lemma expandLoop_lit n s t : "{"%char ∉ s -> "$"%char ∉ s -> (length (s ++ t) <= n)%nat ->
  pureWith ev (expandLoop n (s ++ t) env cr) = s ++ pureWith ev (expandLoop (n - length s) t env cr).
Proof.
  revert n. induction s as [|c s IH]; intros n H1 H2 Hn; [by rewrite Nat.sub_0_r|].
  apply not_elem_of_cons in H1 as [H1 H1'], H2 as [H2 H2']. destruct n as [|n]; [cbn in Hn; lia|]. cbn [app expandLoop length Nat.sub].
  destruct (Ascii.eqb_spec c "{"); [congruence|]. destruct (Ascii.eqb_spec c "$"); [congruence|].
  rewrite pureWith_bind. cbn [pureWith]. rewrite IH; [done|done|done|cbn in Hn; lia].
Qed.

Lemma expandLoop_segments segs n : Forall segOk segs -> (length (flat_map segText segs) <= n)%nat ->
  pureWith ev (expandLoop n (flat_map segText segs) env cr) = flat_map segValue segs.
Proof.
  intros Hok. revert n. induction Hok as [|g segs Hg Hsegs IH]; intros n Hn; [by destruct n|].
  cbn [flat_map] in *. rewrite length_app in Hn. destruct g as [s|name|d|]; cbn [segText segValue segOk] in *.
  - destruct Hg as [Hg1 Hg2]. rewrite expandLoop_lit by (rewrite ?length_app; first [done|lia]). f_equal. apply IH. lia.
  - assert (IndexByte (("{"%char :: name) ++ "}"%char :: flat_map segText segs) "}" = Some (S (length name))) as Hi.
    { apply (IndexByte_app ("{"%char :: name)). apply not_elem_of_cons. done. }
    destruct n as [|n]; [cbn in Hn; lia|]. rewrite <- !app_assoc.
    change (go "{" ++ name ++ go "}" ++ flat_map segText segs)
      with (("{"%char :: name) ++ "}"%char :: flat_map segText segs).
    cbn [app expandLoop]. change (("{" =b "{")%byte) with true. cbv iota.
    change ("{"%char :: name ++ "}"%char :: flat_map segText segs)
      with (("{"%char :: name) ++ "}"%char :: flat_map segText segs). rewrite Hi.
    rewrite !pureWith_bind. cbn [pureWith]. rewrite Nat.sub_1_r. cbn [Nat.pred].
    rewrite take_app_length. change (S (S (length name))) with (S (length ("{"%char :: name))). rewrite drop_app_cons.
    rewrite IH by (rewrite !length_app in Hn; cbn in Hn; lia). f_equal.
    rewrite take_app_cons. by destruct (pureWith ev (named env name cr)).
  - destruct n as [|n]; [cbn in Hn; lia|]. cbn [app expandLoop]. change (("$" =b "{")%byte) with false.
    change (("$" =b "$")%byte) with true. cbv iota.
    destruct (Ascii.eqb_spec d "$") as [->|_]; [done|]. rewrite Hg. rewrite pureWith_bind. cbn [pureWith].
    rewrite IH by (cbn in Hn; lia). done.
  - destruct n as [|n]; [cbn in Hn; lia|]. cbn [app expandLoop go String.list_ascii_of_string].
    change (("$" =b "{")%byte) with false. change (("$" =b "$")%byte) with true. cbv iota. rewrite pureWith_bind. cbn [pureWith].
    rewrite IH by (cbn in Hn; lia). done.
Qed.
End Expansion.

(** Expanding a template replaces each known [{name}] by its value, each [$N] by the
    capture (nothing when there is none) and [$$] by a dollar, and leaves every other byte
    and every unknown [{name}] as written. *)
Theorem expandTemplate_segments {U : Platform} ev env cr segs : Forall segOk segs ->
  pureWith ev (expandTemplate (flat_map segText segs) env cr) = flat_map (segValue ev env cr) segs.
Proof.
  intros Hok. unfold expandTemplate. destruct (hasPlaceholder _) eqn:E; cbn [negb]; [by apply expandLoop_segments|].
  rewrite <- (expandLoop_segments ev env cr segs (length (flat_map segText segs))) by done. cbn [pureWith].
  revert E. generalize (flat_map segText segs). intros s E.
  assert (("{"%char ∉ s) /\ ("$"%char ∉ s)) as [H1 H2].
  { unfold hasPlaceholder in E. destruct (IndexAny s (go "{$")) eqn:Ei; [done|].
    split; apply (IndexAny_None s (go "{$")); try done; by repeat constructor. }
  rewrite <- (app_nil_r s) at 2 3. rewrite expandLoop_lit by (rewrite ?app_nil_r; done).
  by destruct (length (s ++ []) - length s)%nat; cbn; rewrite app_nil_r.
Qed.

(** ** Redirects stay on the site *)

Section Redirects.
Context {U : Platform}.

(** Without classifiers an expansion asks for nothing. *)
Lemma expandLoop_noask ev ev' n tmpl env :
  pureWith ev (expandLoop n tmpl env None) = pureWith ev' (expandLoop n tmpl env None).
Proof.
  revert tmpl. induction n as [|n IH]; intros tmpl; [done|]. destruct tmpl as [|c r]; [done|]. cbn [expandLoop].
  assert (forall name, pureWith ev (named env name None) = pureWith ev' (named env name None)) as Hn.
  { intros name. unfold named. destruct (namedPlain env name); [done|]. by destruct (cutPrefix name (go "classify.")). }
  destruct (c =b "{")%byte.
  - destruct (IndexByte (c :: r) "}"); [|done]. rewrite !pureWith_bind, Hn. cbn [pureWith]. by rewrite IH.
  - destruct (c =b "$")%byte; [|by rewrite !pureWith_bind, IH].
    destruct r as [|d r]; [done|]. destruct (d =b "$")%byte; [by rewrite !pureWith_bind, IH|].
    destruct (isDigit d); by rewrite !pureWith_bind, IH.
Qed.

Lemma expandTemplate_noask ev ev' tmpl env :
  pureWith ev (expandTemplate tmpl env None) = pureWith ev' (expandTemplate tmpl env None).
Proof. unfold expandTemplate. destruct (negb _); [done|apply expandLoop_noask]. Qed.

(** The authority of a target for a host and a scheme, with nothing of the request in it. *)
Definition targetAuthority (target host scheme : bytes) : option bytes :=
  locationAuthority (normalizeRedirectLocation
    (pureWith (fun _ => false) (expandTemplate target (mkEnv host [] [] [] None [] [] [] [] [] ∅ scheme) None))).

Definition schemeOf (req : Request) : bytes := if rq_TLS req then go "https" else go "http".

Lemma redirect_eval_authority ev r p req rd auth :
  pureWith ev (redirect_eval r p req) = Some rd -> locationAuthority (Location rd) = Some auth ->
  targetAuthority (rd_target r) (redirectHost p req) (schemeOf req) = Some auth.
Proof.
  unfold redirect_eval. rewrite pureWith_bind. destruct (pureWith ev (scopeMatches (rd_sc r))); [|done]. cbn [negb].
  destruct (match rd_re r with None => Some [] | Some re => reSubmatch re (rq_Path req) end) as [cap|]; [|done].
  rewrite pureWith_bind. cbn zeta. set (loc := normalizeRedirectLocation _).
  destruct (locationAuthority loc) as [got|] eqn:El; cycle 1.
  { cbn. intros [= <-]. cbn. congruence. }
  rewrite pureWith_bind. unfold targetAuthority.
  rewrite (expandTemplate_noask ev (fun _ => false)). fold (redirectRef p req).
  change (mkEnv (redirectHost p req) [] [] [] None [] [] [] [] [] ∅ (schemeOf req)) with (redirectRef p req).
  destruct (locationAuthority (normalizeRedirectLocation
    (pureWith (fun _ => false) (expandTemplate (rd_target r) (redirectRef p req) None)))) as [refAuth|]; [|done]. cbn [pureWith].
  destruct (bool_decide (refAuth = got)) eqn:E; [|done]. apply bool_decide_eq_true in E as ->. intros [= <-].
  cbn [Location]. congruence.
Qed.

Lemma redirectHost_trusted p req ts : trustedHosts p = Some ts ->
  MatchHost uni_lower ts (redirectHost p req) = true \/ redirectHost p req = canonicalHost p.
Proof. unfold redirectHost. intros ->. destruct (MatchHost _ ts (normHost req)) eqn:E; [by left|by right]. Qed.

Lemma siteHosts_covers addrs ts canon host : siteHosts addrs = (Some ts, canon) -> MatchHost uni_lower ts host = true ->
  exists a, a ∈ addrs /\ host_covers uni_lower (normalizeRedirectHost a) (normalizeHost uni_lower host).
Proof.
  destruct addrs as [|first rest] eqn:Ea; [done|]. unfold siteHosts. rewrite <- Ea at 1. rewrite <- Ea. clear Ea.
  set (step := fun '(ts, canon) addr => _).
  assert (forall l ts canon ts' canon', fold_left step l (ts, canon) = (ts', canon') -> MatchHost uni_lower ts' host = true ->
    MatchHost uni_lower ts host = true \/ exists a, a ∈ l /\ host_covers uni_lower (normalizeRedirectHost a) (normalizeHost uni_lower host)) as H.
  { induction l as [|a l IH]; intros t c t' c'; cbn [fold_left]; [intros [= -> ->]; by left|].
    unfold step at 2. case_bool_decide.
    - intros E Hm. destruct (IH _ _ _ _ E Hm) as [?|(x & ? & ?)]; [by left|right]. exists x. split; [by right|done].
    - intros E Hm. destruct (IH _ _ _ _ E Hm) as [Hm'|(x & ? & ?)]; [|right; exists x; split; [by right|done]].
      apply MatchHost_add in Hm' as [?|?]; [by left|right]. exists a. split; [by left|done]. }
  destruct (fold_left step addrs (newHostSet, [])) as [ts' canon'] eqn:Ef. intros [= -> _] Hm.
  destruct (H _ _ _ _ _ Ef Hm) as [Hn|?]; [|done]. apply MatchHost_true in Hn as [Hn|Hn]; [by apply not_elem_of_empty in Hn|].
  by apply Exists_nil in Hn.
Qed.
End Redirects.

(** C22. No open redirect: a redirect that names an authority names the one its target has
    for the scheme of the connection and a host of the site, one its addresses cover or
    its canonical host. Whatever a client puts in the path, the query, the headers or the
    Host cannot change it. *)
Theorem redirect_stays_on_site {U : Platform} h c r p req rd auth :
  pure h c (redirect_eval r p req) = Some rd -> locationAuthority (Location rd) = Some auth ->
  (trustedHosts p, canonicalHost p) = siteHosts (addresses p) -> addresses p <> [] ->
  exists host scheme,
    (host = canonicalHost p \/ exists a, a ∈ addresses p /\ host_covers uni_lower (normalizeRedirectHost a) (normalizeHost uni_lower host)) /\
    (scheme = go "http" \/ scheme = go "https") /\
    targetAuthority (rd_target r) host scheme = Some auth.
Proof.
  intros Hrd Hauth Hs Hne. exists (redirectHost p req), (schemeOf req). split_and!.
  - destruct (trustedHosts p) as [ts|] eqn:Et; cycle 1.
    { destruct (addresses p); [done|]. cbn in Hs. destruct (fold_left _ _ _). done. }
    destruct (redirectHost_trusted p req ts Et) as [Hm|]; [right|by left]. by eapply siteHosts_covers.
  - unfold schemeOf. destruct (rq_TLS req); [by right|by left].
  - by eapply redirect_eval_authority.
Qed.

(** ** Examples *)

#[local] Existing Instance amd64.

(** [/u/{device}?x=$1&p=$$5 {nope}] for a phone and a match of [/a(b)]. *)
Lemma expandTemplate_segments_witness :
  let env := mkEnv (go "example.com") (go "/ab") [] [go "/ab"; go "b"] None [] [] [] [] (go "phone") ∅ (go "https") in
  @pureWith bytes (fun _ => false) (@expandTemplate amd64 (go "/u/{device}?x=$1&p=$$5 {nope}") env None) = go "/u/phone?x=b&p=$5 {nope}".
Proof.
  intros env. etransitivity; [apply (@expandTemplate_segments amd64 (fun _ => false) env None
    [segLit (go "/u/"); segName (go "device"); segLit (go "?x="); segCapture "1"; segLit (go "&p="); segDollar; segLit (go "5 "); segName (go "nope")])|reflexivity].
  repeat constructor; by apply (bool_decide_unpack _).
Defined.

(** A redirect to the site's own host, for a request with a forged Host. *)
Lemma redirect_stays_on_site_witness :
  let sh := siteHosts [go "example.com"] in
  let p := mkPipeline [go "example.com"] (fst sh) (snd sh) [] ∅ ∅ ∅ 0 [] [] [] [] [] [] [] [] [] [] [] [] [] false [] [] [] [] None
    [] [] false false None [] [] None [] None None (@New_ amd64 [] [] []) in
  let r := mkRedirectRule None None 301 (go "https://{host}{path}") false in
  let req := mkRequest (go "GET") (go "evil.test") (go "/a") ∅ ∅ [] None [] [] [] [] true None None None in
  (Location <$> @pure amd64 [] (mkCtx req [] None) _ (redirect_eval r p req)) = Some (go "https://example.com/a") /\
  exists host scheme,
    (host = canonicalHost p \/ exists a, a ∈ addresses p /\ host_covers uni_lower (normalizeRedirectHost a) (normalizeHost uni_lower host)) /\
    (scheme = go "http" \/ scheme = go "https") /\
    targetAuthority (rd_target r) host scheme = Some (go "example.com").
Proof.
  intros sh p r req. split; [vm_compute; reflexivity|].
  apply (redirect_stays_on_site [] (mkCtx req [] None) r p req (mkRedirect 301 (go "https://example.com/a") false) (go "example.com"));
    [vm_compute; reflexivity..|done].
Defined.
