(* ===== verification/Eval.v ===== *)
(** * The request phases ([pipeline.go], [secgate.go], [ratelimit.go], [rewrite.go])

    The security gate, RECV with the cache key, the origin-error phase and DELIVER.
    Each phase is a program over matchers, run in a context of its own. *)

From stdpp Require Import base strings pretty numbers gmap list.
From Stdlib Require Import Lia SpecFloat.
From S2P Require Import Prelude GoStrings Http Ast Netip Glob Host CookieJson Request Matcher CacheKey Duration Device Rules Template.
Open Scope Z_scope.

(** ** Decisions ([decision.go]) *)

Record Synthetic : Type := mkSynthetic { sy_status : Z; sy_body : bytes }.
Record PurgeDecision : Type := mkPurgeDecision { pd_authorized : bool; pd_regex : bytes }.
Record RewriteDecision : Type := mkRewriteDecision { rwd_path : bytes; rwd_rawQuery : bytes }.

Record RequestDecision : Type := mkReqDec {
  Pass : bool;
  Upgrade : bool;
  d_synthetic : option Synthetic;
  d_redirect : option Redirect;
  Upstream : bytes;
  CacheKey : bytes;
  d_purge : option PurgeDecision;
  ReqHeaderOps : list HeaderOp;
  d_rewrite : option RewriteDecision
}.

Record OnError : Type := mkOnErr { er_status : Z; er_body : bytes; er_contentType : bytes }.

Record RateLimitHit : Type := mkHit {
  hit_key : bytes; hit_ratePerSec : float64; hit_burst : Z; hit_monitor : bool; hit_rule : bytes
}.

Record SecurityDecision : Type := mkSec {
  Block : bool; Monitor : bool; Allow : bool; sec_status : Z; sec_rule : bytes; sec_rateLimit : option RateLimitHit
}.

Inductive CacheStatus : Type :=
| CacheStatusUnknown | CacheStatusHit | CacheStatusMiss | CacheStatusHitStale | CacheStatusHitStaleError.

Definition statusString (c : CacheStatus) : bytes :=
  match c with
  | CacheStatusHit => go "HIT"
  | CacheStatusHitStale => go "HIT-STALE"
  | CacheStatusHitStaleError => go "HIT-STALE-ERROR"
  | _ => go "MISS"
  end.

Record DeliverDecision : Type := mkDeliver {
  RespHeaderOps : list HeaderOp;
  StripCookies : bool;
  dv_cors : option CORSDecision;
  CacheStatusHeader : bytes;
  CacheKeyHeader : bytes;
  CacheKeyRaw : bool;
  CacheAgeHeader : bytes;
  Transforms : list Replacement;
  dv_encode : option encodeRule
}.

Section Eval.
Context {U : Platform} {R : GoLib}.

(** A program in a fresh context of the pipeline. *)
Definition evalIn {A : Type} (p : Pipeline) (req : Request) (up : bytes) (resp : option header) (pr : prog A) : A :=
  run (p_heap p) (mkCtx req up resp) (numMatchers p) pr.

(** ** Routing and recipes *)

Definition resolveUpstream (p : Pipeline) (req : Request) : bytes :=
  match routeRules p with
  | [] => defaultUpstream p
  | rules =>
    evalIn p req [] None
      (do r <- findP (fun r => scopeMatches (ro_scope r)) rules;
       Ret (match r with Some r => ro_upstream r | None => defaultUpstream p end))
  end.

Definition selectKeyTokens (p : Pipeline) : prog (list keyToken) :=
  do r <- findP (fun r => selector_matches (kr_sel r) 0) (keyRules p);
  Ret (match r with Some r => kr_toks r | None => [] end).

Definition resolvedKeyTokens (p : Pipeline) (req : Request) : prog (list keyToken) :=
  match rq_selKey req with Some toks => Ret toks | None => selectKeyTokens p end.

Definition recipeTokensForReq (p : Pipeline) (req : Request) : list keyToken :=
  let toks := match rq_selKey req with
              | Some toks => toks
              | None => evalIn p req (resolveUpstream p req) None (selectKeyTokens p)
              end in
  match toks with [] => defaultKeyTokens | _ => toks end.

(** ** Header operations *)

Record classKeyMask : Type := mkMask { k_device : bool; k_geo : bool; k_geoContinent : bool; k_geoRegion : bool }.

Definition isDevice (t : keyToken) : bool := match t with tokDevice => true | _ => false end.
Definition isGeo (t : keyToken) : bool := match t with tokGeo => true | _ => false end.
Definition isGeoContinent (t : keyToken) : bool := match t with tokGeoContinent => true | _ => false end.
Definition isGeoRegion (t : keyToken) : bool := match t with tokGeoRegion => true | _ => false end.

Definition maskFromTokens (toks : list keyToken) : classKeyMask :=
  mkMask (existsb isDevice toks) (existsb isGeo toks) (existsb isGeoContinent toks) (existsb isGeoRegion toks).

Definition allKeyed (m : classKeyMask) : bool := k_device m && k_geo m && k_geoContinent m && k_geoRegion m.

(** The request of [maskedClone]. *)
Definition maskedReq (req : Request) (m : classKeyMask) : Request :=
  set_classes req (if k_device m then rq_Device req else []) (if k_geo m then rq_Geo req else [])
    (if k_geoContinent m then rq_GeoContinent req else []) (if k_geoRegion m then rq_GeoRegion req else []).

Definition fillHeaderTemplateEnv (req : Request) : TemplateEnv :=
  mkEnv (normHost req) (rq_Path req) (canonicalQuery req) [] (Some (rq_Header req)) (rq_ClientIP req)
    (rq_Geo req) (rq_GeoContinent req) (rq_GeoRegion req) (rq_Device req) (rq_Query req)
    (if rq_TLS req then go "https" else go "http").

(** The operation an applicable rule contributes, its template still to be expanded. *)
Definition emitOp (status : CacheStatus) (resolveStatus : bool) (op : HeaderOp) : list HeaderOp :=
  match ho_op op with
  | OpCacheStatus => if resolveStatus then [mkHeaderOp OpSet (ho_name op) (statusString status) false] else []
  | OpCacheKey | OpCacheAge => []
  | _ => [op]
  end.

(** The scope half of [applyHeaderRules], in the request's context. *)
Definition matchedOps (rules : list headerRule) (status : CacheStatus) (resolveStatus : bool) : prog (list HeaderOp) :=
  do rs <- filterP (fun r => scopeMatches (hr_scope r)) rules;
  Ret (flat_map (fun r => flat_map (emitOp status resolveStatus) (hr_ops r)) rs).

(** The value half, in the context values resolve against. *)
Definition resolveOps (req : Request) (classifiers : gmap bytes classifier) (ops : list HeaderOp) : prog (list HeaderOp) :=
  mapP (fun op =>
    if ho_tpl op then
      do v <- expandTemplate (ho_value op) (fillHeaderTemplateEnv req) (Some classifiers);
      Ret (mkHeaderOp (ho_op op) (ho_name op) v false)
    else Ret op) ops.

(** [applyHeaderRules]; a mask marks the request phase. *)
Definition applyHeaderRules (p : Pipeline) (rules : list headerRule) (req : Request) (up : bytes)
    (status : CacheStatus) (resolveStatus : bool) (reqMask : option classKeyMask) : prog (list HeaderOp) :=
  do ops <- matchedOps rules status resolveStatus;
  match reqMask with
  | Some m =>
    if allKeyed m then resolveOps req (p_classifiers p) ops
    else Ret (evalIn p (maskedReq req m) up None (resolveOps (maskedReq req m) (p_classifiers p) ops))
  | None => resolveOps req (p_classifiers p) ops
  end.

(** ** Purge patterns *)

Definition maxRequestPurgeRegexLen : nat := 256.

Definition purgeProbes : list bytes :=
  [go "a"; go "/"; go "9"; go "x9Q_z"; go "GET" ++ keyTokenSep ++ go "example.com" ++ keyTokenSep ++ go "/some/path"].

Definition boundRequestPurgeRegex (pattern : bytes) : bytes :=
  if bool_decide (pattern = []) || (maxRequestPurgeRegexLen <? length pattern)%nat then []
  else match reCompile pattern with
       | None => []
       | Some re =>
         if reMatch re [] then []
         else if forallb (reMatch re) purgeProbes then [] else pattern
       end.

Definition resolveHTTPPlaceholder (token : bytes) (req : Request) : bytes :=
  if bool_decide (token = []) then []
  else if HasPrefix token (go "{http.") && HasSuffix token (go "}") then
    boundRequestPurgeRegex (headerGet req (take (length token - 7) (drop 6 token)))
  else token.

Definition pathToKeyRegex (pat : bytes) : bytes :=
  if HasPrefix pat (go "^") then go "(^|" ++ keyTokenSep ++ go ")" ++ drop 1 pat
  else if negb (Contains pat (go "/")) then
    go "(^|" ++ keyTokenSep ++ go ")/[^" ++ keyTokenSep ++ go "]*" ++ pat
  else pat.

(** ** Rewrites *)

(** [encodeQuerySorted]; [rawQueryOf] applies it to the request's query. *)
Definition encodeQuerySorted (q : values) : bytes :=
  Join (flat_map (fun k => map (fun v => QueryEscape k ++ go "=" ++ QueryEscape v) (sortStrings (default [] (q !! k))))
          (sortStrings (map fst (map_to_list q)))) (go "&").

Definition resolveRewriteValue (tpl : bytes) (req : Request) : prog bytes :=
  if negb (Contains tpl (go "{")) then Ret tpl
  else expandTemplate tpl
         (mkEnv (normHost req) (rq_Path req) (canonicalQuery req) [] (Some (rq_Header req)) [] [] [] [] [] ∅ []) None.

(** The state of [evalRewrite]'s loop: the path, the copied query and whether a rule
    applied. *)
Definition rewriteStep (req : Request) (r : rewriteRule) (st : bytes * option values * bool)
    : prog (bytes * option values * bool) :=
  let '(path, q, matched) := st in
  do inScope <- scopeMatches (rw_scope r);
  if negb inScope then Ret st
  else
    let q' := default (rq_Query req) q in
    match rw_op r with
    | rwPath re repl =>
      Ret (match reExpand re repl path with Some path' => (path', q, true) | None => st end)
    | rwStripQuery names => Ret (path, Some (filter (fun '(k, _) => nameMatch names k = false) q'), true)
    | rwSetQuery name tpl =>
      do v <- resolveRewriteValue tpl req;
      Ret (path, Some (<[name := [v]]> q'), true)
    end.

Fixpoint foldP {A S : Type} (f : A -> S -> prog S) (l : list A) (s : S) : prog S :=
  match l with [] => Ret s | x :: l => do s' <- f x s; foldP f l s' end.

Definition evalRewrite (p : Pipeline) (req : Request) : prog (option RewriteDecision) :=
  do st <- foldP (rewriteStep req) (rewriteRules p) (rq_Path req, None, false);
  let '(path, q, matched) := st in
  Ret (if matched then
         Some (mkRewriteDecision path (encodeQuerySorted (match q with Some q => q | None => rq_Query req end)))
       else None).

(** ** RECV and the key *)

(** A [respond] rule fires on its terms or its exact path. *)
Definition respondFires (req : Request) (r : respondRule) : prog bool :=
  match rs_terms r with
  | Some ts => respondTermsMatch ts
  | None => Ret (bool_decide (rq_Path req = rs_path r))
  end.

Fixpoint firstRedirect (p : Pipeline) (req : Request) (rules : list redirectRule) : prog (option Redirect) :=
  match rules with
  | [] => Ret None
  | r :: rules => do o <- redirect_eval r p req; match o with Some rd => Ret (Some rd) | None => firstRedirect p req rules end
  end.

Definition purgeDecision (req : Request) (r : purgeRule) : PurgeDecision :=
  let pat := resolveHTTPPlaceholder (pu_regexToken r) req in
  mkPurgeDecision true (if negb (bool_decide (pat = [])) && pu_regexPath r then pathToKeyRegex pat else pat).

(** The body of [EvalRequest] in its context; the second component is the recipe it
    captured on the request, if it got that far. *)
Definition requestPhase (p : Pipeline) (req : Request) (up : bytes) : prog (RequestDecision * option (list keyToken)) :=
  do syn <- findP (respondFires req) (respondRules p);
  match syn with
  | Some r => Ret (mkReqDec false false (Some (mkSynthetic (rs_status r) (rs_body r))) None up [] None [] None, None)
  | None =>
    do rd <- firstRedirect p req (redirectRules p);
    match rd with
    | Some rd => Ret (mkReqDec false false None (Some rd) up [] None [] None, None)
    | None =>
      do pu <- findP (fun r => scopeMatches (pu_guard r)) (purgeRules p);
      do pass <- anyP scopeMatches (passRules p);
      do upg <- anyP scopeMatches (upgradeRules p);
      do toks <- selectKeyTokens p;
      do ops <- applyHeaderRules p (reqHeaderRules p) req up CacheStatusUnknown false (Some (maskFromTokens toks));
      do rw <- evalRewrite p req;
      do key <- buildKey toks req (stickyCookie p);
      Ret (mkReqDec (pass || upg) upg None None up key (purgeDecision req <$> pu) ops rw, Some toks)
    end
  end.

(** [EvalRequest], with the request it leaves behind. *)
Definition EvalRequest (p : Pipeline) (req : Request) : RequestDecision * Request :=
  let up := resolveUpstream p req in
  let '(dec, toks) := evalIn p req up None (requestPhase p req up) in
  (dec, match toks with Some toks => set_selKey req (Some toks) | None => req end).

(** ** Origin errors *)

Definition EvalOnError (p : Pipeline) (req : Request) : option OnError :=
  match onErrorRules p with
  | [] => None
  | rules =>
    evalIn p req (resolveUpstream p req) None
      (do r <- findP (fun r => scopeMatches (oe_scope r)) rules;
       Ret (match r with Some r => Some (mkOnErr (oe_status r) (oe_body r) (oe_contentType r)) | None => None end))
  end.

(** ** The security gate *)

Definition bucketKey (r : rateLimitRule) (req : Request) : bytes :=
  Itoa (rl_id r) ++ go "|" ++
  match rl_key r with
  | rlKeyIP => match rq_RealClientIP req with Some ip => addrString ip | None => go "noip" end
  | rlKeyHeader name => let dim := headerCombined req name in if bool_decide (dim = []) then go "noheader" else dim
  | rlKeyGlobal => go "global"
  end.

Definition evalRateLimit (p : Pipeline) (req : Request) : prog (option RateLimitHit) :=
  do r <- findP (fun r => scopeMatches (rl_scope r)) (rateLimitRules p);
  Ret (match r with
       | Some r => Some (mkHit (bucketKey r req) (rl_ratePerSec r) (rl_burst r) (rl_monitor r || securityMonitor p) (rl_name r))
       | None => None
       end).

Definition hasSecurityGate (p : Pipeline) : bool :=
  negb (bool_decide (length (allowRules p) = 0%nat)) || negb (bool_decide (length (denyRules p) = 0%nat))
  || negb (bool_decide (length (rateLimitRules p) = 0%nat)).

Definition securityBlockStatus : Z := 403.

Definition noSecurity : SecurityDecision := mkSec false false false 0 [] None.

Definition securityPhase (p : Pipeline) (req : Request) : prog SecurityDecision :=
  do al <- findP (fun r => respondTermsMatch (sr_terms r)) (allowRules p);
  match al with
  | Some r => Ret (mkSec false false true 0 (sr_name r) None)
  | None =>
    do de <- findP (fun r => respondTermsMatch (sr_terms r)) (denyRules p);
    match de with
    | Some r =>
      Ret (if securityMonitor p || sr_monitor r then mkSec false true false securityBlockStatus (sr_name r) None
           else mkSec true false false securityBlockStatus (sr_name r) None)
    | None => do hit <- evalRateLimit p req; Ret (mkSec false false false 0 [] hit)
    end
  end.

Definition EvalSecurity (p : Pipeline) (req : Request) : SecurityDecision :=
  if negb (hasSecurityGate p) then noSecurity else evalIn p req [] None (securityPhase p req).

(** ** DELIVER *)

Definition lastOf (k : HeaderOpKind) (rs : list headerRule) : option HeaderOp :=
  last (List.filter (fun op => bool_decide (ho_op op = k)) (flat_map hr_ops rs)).

Definition deliverPhase (p : Pipeline) (req : Request) (up : bytes) (status : CacheStatus) : prog DeliverDecision :=
  do ops <- applyHeaderRules p (respHeaderRules p) req up status true None;
  do rs <- filterP (fun r => scopeMatches (hr_scope r)) (respHeaderRules p);
  do strip <- anyP scopeMatches (stripRules p);
  do cors <- match p_corsRule p with
             | None => Ret None
             | Some r => do b <- scopeMatches (cr_scope r); Ret (if (b : bool) then Some (cr_cors r) else None)
             end;
  do trs <- filterP (fun r => scopeMatches (tf_scope r)) (transformRules p);
  Ret (mkDeliver ops strip cors
         (from_option ho_name [] (lastOf OpCacheStatus rs))
         (from_option ho_name [] (lastOf OpCacheKey rs))
         (from_option (fun op => bool_decide (ho_value op = go "raw")) false (lastOf OpCacheKey rs))
         (from_option ho_name [] (lastOf OpCacheAge rs))
         (map tf_repl trs) (p_encodeRule p)).

Definition EvalDeliver (p : Pipeline) (req : Request) (resp : option header) (status : CacheStatus) : DeliverDecision :=
  let up := resolveUpstream p req in evalIn p req up resp (deliverPhase p req up status).
End Eval.

(** ** Evaluation without the memo *)

Section Pure.
Context {U : Platform} {R : GoLib}.

Definition evalPure {A : Type} (p : Pipeline) (req : Request) (up : bytes) (resp : option header) (pr : prog A) : A :=
  pure (p_heap p) (mkCtx req up resp) pr.

Lemma evalIn_pure {A : Type} p req up resp (pr : prog A) :
  heap_wf (p_heap p) -> evalIn p req up resp pr = evalPure p req up resp pr.
Proof. intros H. by apply run_pure. Qed.

Lemma evalPure_bind {A B : Type} p req up resp (m : prog A) (f : A -> prog B) :
  evalPure p req up resp (pbind m f) = evalPure p req up resp (f (evalPure p req up resp m)).
Proof. apply pureWith_bind. Qed.

(** The values of a rule set, as the first rule that applies. *)
Lemma evalPure_findP {A : Type} p req up resp (f : A -> prog bool) l :
  evalPure p req up resp (findP f l) = List.find (fun x => evalPure p req up resp (f x)) l.
Proof. apply pureWith_findP. Qed.

Lemma evalPure_anyP {A : Type} p req up resp (f : A -> prog bool) l :
  evalPure p req up resp (anyP f l) = existsb (fun x => evalPure p req up resp (f x)) l.
Proof. apply pureWith_anyP. Qed.

Lemma evalPure_terms p req up resp ts :
  evalPure p req up resp (respondTermsMatch ts)
  = forallb (fun t => negb (Bool.eqb (evalPure p req up resp (matches (t_m t))) (t_negate t))) ts.
Proof. unfold respondTermsMatch, evalPure, pure. by rewrite pureWith_allP. Qed.

(** The recipe a request captured is the one its key was built from and its forwarded
    headers were masked by. *)
Lemma EvalRequest_key p req dec req' toks :
  heap_wf (p_heap p) -> rq_selKey req = None ->
  EvalRequest p req = (dec, req') -> rq_selKey req' = Some toks ->
  let up := resolveUpstream p req in
  req' = set_selKey req (Some toks) /\
  CacheKey dec = evalPure p req up None (buildKey toks req (stickyCookie p)) /\
  ReqHeaderOps dec = evalPure p req up None
    (applyHeaderRules p (reqHeaderRules p) req up CacheStatusUnknown false (Some (maskFromTokens toks))).
Proof.
  intros Hwf Hn. unfold EvalRequest. rewrite evalIn_pure by done. unfold requestPhase.
  rewrite evalPure_bind. destruct (evalPure _ _ _ _ (findP _ _)); [cbn; intros [= <- <-]; congruence|].
  rewrite evalPure_bind. destruct (evalPure _ _ _ _ (firstRedirect _ _ _)); [cbn; intros [= <- <-]; congruence|].
  rewrite !evalPure_bind. cbn [evalPure pure pureWith]. intros [= <- <-]. destruct req; cbn. intros [= ->]. done.
Qed.

(** The headers to forward are expanded for the request without the classes its key does
    not hold. *)
Lemma applyHeaderRules_masked p rules req up status m :
  heap_wf (p_heap p) ->
  evalPure p req up None (applyHeaderRules p rules req up status false (Some m))
  = evalPure p (maskedReq req m) up None
      (resolveOps (maskedReq req m) (p_classifiers p) (evalPure p req up None (matchedOps rules status false))).
Proof.
  intros Hwf. unfold applyHeaderRules. rewrite evalPure_bind. destruct (allKeyed m) eqn:E.
  - assert (maskedReq req m = req) as ->; [|done]. unfold allKeyed in E. unfold maskedReq.
    destruct m as [[] [] [] []]; try done. by destruct req.
  - cbn [evalPure pure pureWith]. by rewrite evalIn_pure.
Qed.
End Pure.

(** ** Classes outside the key *)

(** A matcher that reads no geo class the mask hides. No matcher reads the device. *)
Definition readsKeyed (m : classKeyMask) (mt : matcher) : bool :=
  match m_kind mt with
  | kindGeo geoCountry _ => k_geo m
  | kindGeo geoContinent _ => k_geoContinent m
  | kindGeo geoRegion _ => k_geoRegion m
  | _ => true
  end.

(** The scopes that decide which header rules apply and where the request goes. *)
Definition forwardScopes (p : Pipeline) : list ptr :=
  flat_map (fun r => default [] (hr_scope r)) (reqHeaderRules p) ++ flat_map (fun r => default [] (ro_scope r)) (routeRules p).

Definition scopesKeyed {U : Platform} (p : Pipeline) (m : classKeyMask) : bool :=
  forallb (consults (p_heap p) (readsKeyed m) (length (p_heap p))) (forwardScopes p).

Section Keyed.
Context {U : Platform} {R : GoLib}.

Lemma match_masked m mt r r' up resp : readsKeyed m mt = true -> maskedReq r m = maskedReq r' m ->
  match_ mt (mkCtx r up resp) = match_ mt (mkCtx r' up resp).
Proof.
  unfold readsKeyed. intros Hk Hm.
  assert (rq_Method r = rq_Method r' /\ rq_Host r = rq_Host r' /\ rq_Path r = rq_Path r' /\ rq_Query r = rq_Query r' /\ rq_Header r = rq_Header r'
    /\ rq_RealClientIP r = rq_RealClientIP r' /\ rq_PoolHealthy r = rq_PoolHealthy r' /\ rq_cookieMemo r = rq_cookieMemo r') as Hsame.
  { destruct r, r'. unfold maskedReq in Hm. cbn in *. by injection Hm as -> -> -> -> -> _ -> _ _ _ _ _ -> _ ->. }
  assert ((k_geo m = true -> rq_Geo r = rq_Geo r') /\ (k_geoContinent m = true -> rq_GeoContinent r = rq_GeoContinent r') /\
    (k_geoRegion m = true -> rq_GeoRegion r = rq_GeoRegion r')) as (Hg & Hc & Hr).
  { destruct r, r'. unfold maskedReq in Hm. cbn in *. injection Hm as _ _ _ _ _ _ _ _ E1 E2 E3 _ _ _ _.
    split_and!; intros E; rewrite E in *; done. }
  destruct Hsame as (E1 & E2 & E3 & E4 & E5 & E6 & E7 & E8).
  assert (cookies r = cookies r') as Ec by (unfold cookies; by rewrite E5, ?E8).
  destruct (m_kind mt) eqn:Ek; unfold match_; rewrite Ek; cbn [mc_req mc_upstream mc_respHeader];
    unfold normHost, headerPresent, method, cookieRaw, cookiePresent, cookieNamePrefixPresent, cookie; rewrite ?E1, ?E2, ?E3, ?E4, ?E5, ?E6, ?E7, ?Ec; try done.
  match goal with g : geoGranularity |- _ => destruct g end; by rewrite ?Hg, ?Hc, ?Hr.
Qed.

Lemma evalPure_keyed {A : Type} p m r r' up resp (pr : prog A) :
  maskedReq r m = maskedReq r' m -> asks (fun q => consults (p_heap p) (readsKeyed m) (length (p_heap p)) q = true) pr ->
  evalPure p r up resp pr = evalPure p r' up resp pr.
Proof.
  intros Hm Ha. unfold evalPure, pure. eapply pureWith_ext; [exact Ha|]. apply matchesPure_alike.
  intros mt Hmt. by apply (match_masked m).
Qed.

Lemma asks_scoped {A : Type} (P : ptr -> Prop) (sc : A -> option scope) l x :
  Forall P (flat_map (fun r => default [] (sc r)) l) -> x ∈ l -> asks P (scopeMatches (sc x)).
Proof.
  rewrite Forall_flat_map, list.Forall_forall. intros H Hx. apply asks_scope. by apply H.
Qed.

Lemma resolveUpstream_keyed p m r r' : heap_wf (p_heap p) -> scopesKeyed p m = true -> maskedReq r m = maskedReq r' m ->
  resolveUpstream p r = resolveUpstream p r'.
Proof.
  intros Hwf Hs Hm. unfold resolveUpstream. destruct (routeRules p) as [|ru rus] eqn:E; [done|]. rewrite !evalIn_pure by done.
  apply (evalPure_keyed p m); [done|]. apply asks_bind; [|by intros []]. apply asks_findP. intros x Hx.
  unfold scopesKeyed, forwardScopes in Hs. rewrite forallb_app, andb_true_iff, E in Hs. destruct Hs as [_ Hs].
  apply (asks_scoped _ ro_scope (ru :: rus)); [|done]. rewrite list.Forall_forall. rewrite forallb_forall in Hs. intros q Hq. by apply Hs, list_elem_of_In.
Qed.

Lemma matchedOps_keyed p m r r' up : scopesKeyed p m = true -> maskedReq r m = maskedReq r' m ->
  evalPure p r up None (matchedOps (reqHeaderRules p) CacheStatusUnknown false)
  = evalPure p r' up None (matchedOps (reqHeaderRules p) CacheStatusUnknown false).
Proof.
  intros Hs Hm. apply (evalPure_keyed p m); [done|]. unfold matchedOps. apply asks_bind; [|done]. apply asks_filterP. intros x Hx.
  unfold scopesKeyed, forwardScopes in Hs. rewrite forallb_app, andb_true_iff in Hs. destruct Hs as [Hs _].
  apply (asks_scoped _ hr_scope (reqHeaderRules p)); [|done]. rewrite list.Forall_forall. rewrite forallb_forall in Hs. intros q Hq. by apply Hs, list_elem_of_In.
Qed.
End Keyed.

(** C33. What is forwarded to the origin does not depend on a class the key does not
    hold. Two requests that have the same recipe and differ only in device or geo classes
    missing from it go to the same upstream with the same request headers, templates and
    classifiers included, provided that no scope of a header rule or of a route consults,
    through any nesting of matchers, a geo class missing from the recipe. *)
Theorem forwarded_values_keyed {U : Platform} {R : GoLib} p r r' d d' r1 r1' toks :
  heap_wf (p_heap p) -> rq_selKey r = None -> rq_selKey r' = None ->
  EvalRequest p r = (d, r1) -> EvalRequest p r' = (d', r1') ->
  rq_selKey r1 = Some toks -> rq_selKey r1' = Some toks ->
  maskedReq r (maskFromTokens toks) = maskedReq r' (maskFromTokens toks) -> scopesKeyed p (maskFromTokens toks) = true ->
  resolveUpstream p r = resolveUpstream p r' /\ ReqHeaderOps d = ReqHeaderOps d'.
Proof.
  intros Hwf Hn Hn' E E' Hk Hk' Hm Hs. pose proof (resolveUpstream_keyed p _ r r' Hwf Hs Hm) as Hup. split; [done|].
  destruct (EvalRequest_key p r d r1 toks Hwf Hn E Hk) as (_ & _ & ->).
  destruct (EvalRequest_key p r' d' r1' toks Hwf Hn' E' Hk') as (_ & _ & ->).
  rewrite !applyHeaderRules_masked by done. rewrite <- Hup, Hm. by rewrite (matchedOps_keyed p _ r r' _ Hs Hm).
Qed.

(** The security gate: allow rules come first and let the request through; then the
    first deny rule that matches blocks it with a 403, or is only recorded when the site
    or the rule is in monitor mode; only then does a rate limit apply. A rule applies when
    each of its matchers has the value its sign asks for. *)
Theorem security_gate_order {U : Platform} {R : GoLib} p req :
  heap_wf (p_heap p) ->
  let holds r := forallb (fun t => negb (Bool.eqb (evalPure p req [] None (matches (t_m t))) (t_negate t))) (sr_terms r) in
  EvalSecurity p req =
  match List.find holds (allowRules p), List.find holds (denyRules p) with
  | Some r, _ => mkSec false false true 0 (sr_name r) None
  | None, Some r => let quiet := securityMonitor p || sr_monitor r in mkSec (negb quiet) quiet false 403 (sr_name r) None
  | None, None =>
    mkSec false false false 0 []
      ((fun r => mkHit (bucketKey r req) (rl_ratePerSec r) (rl_burst r) (rl_monitor r || securityMonitor p) (rl_name r))
       <$> List.find (fun r => evalPure p req [] None (scopeMatches (rl_scope r))) (rateLimitRules p))
  end.
Proof.
  intros Hwf holds. unfold EvalSecurity.
  assert (forall l, List.find (fun r => evalPure p req [] None (respondTermsMatch (sr_terms r))) l = List.find holds l) as Hf.
  { induction l as [|r l IH]; [done|]. cbn. by rewrite IH, evalPure_terms. }
  destruct (negb (hasSecurityGate p)) eqn:Eg.
  - unfold hasSecurityGate in Eg. apply negb_true_iff, orb_false_iff in Eg as [Eg E3]. apply orb_false_iff in Eg as [E1 E2].
    apply negb_false_iff, bool_decide_eq_true, nil_length_inv in E1, E2, E3. by rewrite E1, E2, E3.
  - rewrite evalIn_pure by done. unfold securityPhase. rewrite evalPure_bind, evalPure_findP, Hf.
    destruct (List.find holds (allowRules p)); [done|]. rewrite evalPure_bind, evalPure_findP, Hf.
    destruct (List.find holds (denyRules p)) as [r|]; [cbn zeta; by destruct (securityMonitor p || sr_monitor r)|].
    unfold evalRateLimit. rewrite !evalPure_bind, evalPure_findP. cbn. by destruct (List.find _ (rateLimitRules p)).
Qed.

(** ** Examples *)

#[local] Existing Instance amd64.
#[local] Existing Instance noLib.

(** Two devices under a recipe with the country and without the device: a header set for
    one country has the same value for both. *)
Lemma forwarded_values_keyed_witness :
  let ops := [mkHeaderOp OpSet (go "X-Device") (go "{device}") true] in
  let key := mkKeyRule (mkSel selDefault None) [tokPath; tokGeo] (mkPos [] 1 1) in
  let heap := [mkMatcher (go "es") (mkPos [] 1 1) 0 (kindGeo geoCountry {[go "ES"]})] in
  let p := mkPipeline [go "example.com"] None (go "example.com") heap ∅ ∅ ∅ 1 [] [] [] [] [] [] [] [] [mkHeaderRule (Some [0%nat]) ops] [] [] [] [] false
    [key] [] [] [] None [] [] false false None [] [] None [] None None (@New_ amd64 [] [] []) in
  let r dev := mkRequest (go "GET") (go "example.com") (go "/a") ∅ ∅ [] None dev (go "ES") [] dev false None None None in
  let sent dev := ReqHeaderOps (fst (EvalRequest p (r dev))) in
  length (sent (go "phone")) = 1%nat /\ sent (go "phone") = sent (go "desktop").
Proof.
  intros ops key heap p r sent. split; [vm_compute; reflexivity|].
  apply (@forwarded_values_keyed amd64 noLib p (r (go "phone")) (r (go "desktop")) _ _
           (snd (EvalRequest p (r (go "phone")))) (snd (EvalRequest p (r (go "desktop")))) [tokPath; tokGeo]);
    try (vm_compute; reflexivity); try apply surjective_pairing.
  split.
  - intros [|q] m q' H Hq'; [|done]. injection H as <-. by apply elem_of_nil in Hq'.
  - intros [|q] [|q'] m m' H H' _ _; by try discriminate.
Defined.

Lemma security_gate_order_witness :
  let deny := mkSecRule [mkTerm 1 false] false (mkPos [] 1 1) (go "admin") in
  let p := indexMatchers (examplePipeline exampleHeap [] [] [deny]) in
  EvalSecurity p (exampleRequest (go "/admin") ∅) = mkSec true false false 403 (go "admin") None.
Proof.
  cbn zeta. rewrite (@security_gate_order amd64 noLib); [vm_compute; reflexivity|].
  set (p := examplePipeline _ _ _ _). unfold indexMatchers. pose proof (walk_index (p_heap p) (indexRoots p)) as Hw.
  destruct (indexHeap (p_heap p) (indexRoots p)) as [h n]. apply (walk_wf (p_heap p) (h, n)); [|apply Hw; by repeat constructor].
  intros q m r Hq Hr. destruct q as [|[|[|q]]]; cbn in Hq; try discriminate; injection Hq as <-; cbn in Hr;
    repeat (apply elem_of_cons in Hr as [->|Hr]; [lia|]); by apply elem_of_nil in Hr.
Defined.
