(* ===== verification/Credentials.v ===== *)
(** * Credentials ([pipeline.go])

    The cookie allowlist, the cookies derived axes consume and the bypass of credentialed
    requests, with the isolation of users they give together. *)

From stdpp Require Import base strings pretty numbers gmap list.
From Stdlib Require Import Lia.
From S2P Require Import Prelude GoStrings Http Ast Netip Glob Host CookieJson Request Matcher CacheKey Duration Rules Template Eval.
Open Scope Z_scope.

(** ** Cookies of derived axes *)

Definition tokenDerives (t : keyToken) : list bytes :=
  match t with tokClassify cl => derivesFrom cl | _ => [] end.

(** The cookies of [computeDerivedSurviveCookies]. *)
Definition derivedSurvive (p : Pipeline) : list bytes :=
  flat_map (fun r => flat_map tokenDerives (kr_toks r)) (keyRules p).

Definition HasDerivesFrom (p : Pipeline) : bool := negb (bool_decide (derivedSurvive p = [])).

(** The cookies as one header line. *)
Definition renderCookies (cs : list cookieKV) : bytes :=
  Join (map (fun c => ck_name c ++ go "=" ++ ck_value c) cs) (go "; ").

(** [FilterRequestCookies]; [None] when there is no allowlist. *)
Definition FilterRequestCookies (p : Pipeline) (raw : bytes) : option bytes :=
  match cookieAllow p with
  | None => None
  | Some allow =>
    Some (if bool_decide (raw = []) then []
          else renderCookies (List.filter (fun c => nameMatch allow (ck_name c) || memBytes (ck_name c) (derivedSurvive p))
                                (lenientCookies {[go "Cookie" := [raw]]})))
  end.

Section Credentials.
Context {U : Platform} {R : GoLib}.

Definition stripNames (toks : list keyToken) : list bytes :=
  flat_map (fun t => match t with
                     | tokClassify cl => List.filter (fun c => negb (isForwardCookie cl c)) (derivesFrom cl)
                     | _ => []
                     end) toks.

Definition forwardNames (toks : list keyToken) : list bytes :=
  flat_map (fun t => match t with tokClassify cl => derivesForward cl | _ => [] end) toks.

Definition SelectedDerivedStripCookies (p : Pipeline) (req : Request) : list bytes :=
  if HasDerivesFrom p then sortStrings (remove_dups (stripNames (recipeTokensForReq p req))) else [].

Definition SelectedDerivedForwardCookies (p : Pipeline) (req : Request) : list bytes :=
  if HasDerivesFrom p then sortStrings (remove_dups (forwardNames (recipeTokensForReq p req))) else [].

(** Whether [StripDerivedCookies] removes a cookie. *)
Definition removeCookie (p : Pipeline) (req : Request) (name : bytes) : bool :=
  if negb (memBytes name (derivedSurvive p)) then false
  else if memBytes name (SelectedDerivedForwardCookies p req) then false
  else if memBytes name (SelectedDerivedStripCookies p req) then true
  else match cookieAllow p with Some allow => negb (nameMatch allow name) | None => false end.

(** The request after [StripDerivedCookies]. *)
Definition StripDerivedCookies (p : Pipeline) (req : Request) : Request :=
  if negb (HasDerivesFrom p) then req
  else
    let cs := cookies req in
    if negb (existsb (fun c => removeCookie p req (ck_name c)) cs) then req
    else
      let s := renderCookies (List.filter (fun c => negb (removeCookie p req (ck_name c))) cs) in
      set_Header req (if bool_decide (s = []) then Del (rq_Header req) (go "Cookie")
                      else Set_ (rq_Header req) (go "Cookie") s).

(** ** Coverage *)

Definition tokenCoversAuth (t : keyToken) : bool :=
  match t with tokHeader name => EqualFold name (go "Authorization") | _ => false end.
Definition tokenCoversCookie (t : keyToken) : bool :=
  match t with tokCookie _ => true | tokHeader name => EqualFold name (go "Cookie") | _ => false end.
Definition tokenCoversForwardCookie (t : keyToken) : bool :=
  match t with tokClassify cl => negb (bool_decide (derivesForward cl = [])) | _ => false end.

Definition keyCanCoverCred (p : Pipeline) : bool :=
  existsb (fun r => existsb (fun t => tokenCoversCookie t || tokenCoversAuth t || tokenCoversForwardCookie t) (kr_toks r))
    (keyRules p).

Definition keyCoversAuthorization (toks : list keyToken) : bool := existsb tokenCoversAuth toks.

Definition keysCookieHeader (t : keyToken) : bool :=
  match t with tokHeader name => EqualFold name (go "Cookie") | _ => false end.

Definition keysCookie (name : bytes) (t : keyToken) : bool :=
  match t with tokCookie n => bool_decide (n = name) | _ => false end.

Definition allEqualStrings (vs : list bytes) : bool :=
  match vs with v :: r => forallb (fun w => bool_decide (w = v)) r | [] => true end.

(** The values of one cookie, in order. *)
Definition cookieValues (cs : list cookieKV) (name : bytes) : list bytes :=
  map ck_value (List.filter (fun c => bool_decide (ck_name c = name)) cs).

Definition keyCoversAllCookies (toks : list keyToken) (req : Request) (forwardCovered : list bytes) : bool :=
  if existsb keysCookieHeader toks then true
  else
    let cs := cookies req in
    if bool_decide (cs = []) then false
    else
      forallb (fun n =>
        let isKeyed := existsb (keysCookie n) toks in
        if negb isKeyed && negb (memBytes n forwardCovered) then false
        else
          let vals := cookieValues cs n in
          if (length vals <=? 1)%nat then true
          else if isKeyed then false
          else allEqualStrings vals) (map ck_name cs).

(** [BypassForCredentials]. *)
Definition BypassForCredentials (p : Pipeline) (req : Request) : bool :=
  let hasCookie := negb (bool_decide (cookieNames req = [])) in
  let authVals := Values (rq_Header req) (go "Authorization") in
  let hasAuth := existsb nonEmpty authVals in
  if negb hasCookie && negb hasAuth then false
  else if negb (keyCanCoverCred p) then true
  else
    let toks := recipeTokensForReq p req in
    if hasAuth && (negb (keyCoversAuthorization toks) || (1 <? length authVals)%nat) then true
    else hasCookie && negb (keyCoversAllCookies toks req (SelectedDerivedForwardCookies p req)).

(** [cacheCredentialedMatches] and its entry point. *)
Definition credentialedMatches (p : Pipeline) : prog bool := anyP scopeMatches (credentialedRules p).

Definition CacheCredentialedMatches (p : Pipeline) (req : Request) : bool :=
  match credentialedRules p with
  | [] => false
  | _ => evalIn p req (resolveUpstream p req) None (credentialedMatches p)
  end.
End Credentials.

(** ** What the server lets through *)

Section Isolation.
Context {U : Platform} {R : GoLib}.

(** Header values carry no control byte ([net/http] refuses them), and the Cookie
    header is one line ([canonicalizeRequestCookies]). *)
Record admitted (req : Request) : Prop := {
  ad_clean : request_clean req;
  ad_header : map_Forall (fun _ vs => Forall (fun v => SEP ∉ v) vs) (rq_Header req);
  ad_line : (length (default [] (rq_Header req !! go "Cookie")) <= 1)%nat;
  ad_fresh : rq_selKey req = None
}.

Definition ascii_token (t : keyToken) : Prop := match t with tokHeader name => ascii_name name | _ => True end.

Lemma admitted_lines req name : admitted req -> Forall (fun v => SEP ∉ v) (Values (rq_Header req) name).
Proof.
  intros [_ H _ _]. unfold Values. destruct (rq_Header req !! _) as [vs|] eqn:E; [|constructor]. by apply H in E.
Qed.

Lemma Join_sep_free (lines : list bytes) (sep : bytes) :
  SEP ∉ sep -> Forall (fun v => SEP ∉ v) lines -> SEP ∉ Join lines sep.
Proof.
  intros Hs Hl [H|(line & Hin & H)]%Join_elem; [done|]. rewrite list.Forall_forall in Hl. by eapply Hl.
Qed.

Lemma admitted_combined req name : admitted req -> SEP ∉ headerCombined req name.
Proof. intros H. apply Join_sep_free; [|by apply admitted_lines]. by apply (bool_decide_unpack _). Qed.

Lemma admitted_cookie req n : admitted req -> SEP ∉ cookie req n.
Proof.
  intros H Hc. apply cookie_elem in Hc as (line & [[Hl Hc]|Hc]); [|by apply (bool_decide_unpack (SEP ∉ go "; ")) in Hc].
  pose proof (admitted_lines req (go "Cookie") H) as HF. unfold Values in HF. rewrite list.Forall_forall in HF.
  by apply (HF line).
Qed.

(** The cookies of a request with one Cookie line are a function of that line. *)
Lemma cookies_combined r r' : admitted r -> admitted r' ->
  headerCombined r (go "Cookie") = headerCombined r' (go "Cookie") -> cookies r = cookies r'.
Proof.
  intros Hr Hr'. apply ad_line in Hr, Hr'. unfold headerCombined, Values, cookies, lenientCookies.
  change (CanonicalHeaderKey (go "Cookie")) with (go "Cookie").
  destruct (default [] (rq_Header r !! go "Cookie")) as [|l [|? ?]], (default [] (rq_Header r' !! go "Cookie")) as [|l' [|? ?]];
    cbn in Hr, Hr' |- *; try lia; intros E; subst; done.
Qed.

(** ** Coverage *)

Lemma memBytes_true v l : memBytes v l = true <-> v ∈ l.
Proof.
  unfold memBytes. rewrite existsb_exists. split.
  - intros (w & Hw & ->%bool_decide_eq_true). by apply list_elem_of_In.
  - intros H. exists v. split; [by apply list_elem_of_In|]. by apply bool_decide_eq_true.
Qed.

Lemma strip_selKey p req : rq_selKey (StripDerivedCookies p req) = rq_selKey req.
Proof. unfold StripDerivedCookies. destruct (negb _); [done|]. destruct (negb _); [done|]. by destruct req. Qed.

Lemma strip_other p req name : CanonicalHeaderKey name <> go "Cookie" ->
  Values (rq_Header (StripDerivedCookies p req)) name = Values (rq_Header req) name.
Proof.
  intros Hn. unfold StripDerivedCookies. destruct (negb _); [done|]. destruct (negb _); [done|].
  assert (forall h, rq_Header (set_Header req h) = h) as E by (by destruct req). rewrite E. clear E.
  unfold Values, Del, Set_. change (CanonicalHeaderKey (go "Cookie")) with (go "Cookie").
  case_bool_decide; [by rewrite lookup_delete_ne|by rewrite lookup_insert_ne].
Qed.

Lemma recipeTokens_captured p req toks : rq_selKey req = Some toks -> recipeTokensForReq p req = recipe toks.
Proof. unfold recipeTokensForReq. by intros ->. Qed.

Lemma forward_selected p req toks n : rq_selKey req = Some toks ->
  n ∈ SelectedDerivedForwardCookies p req -> n ∈ forwardNames (recipe toks).
Proof.
  intros Hk. unfold SelectedDerivedForwardCookies. rewrite (recipeTokens_captured p req toks Hk).
  destruct (HasDerivesFrom p); [|by intros ?%elem_of_nil]. rewrite sortStrings_perm. by rewrite elem_of_remove_dups.
Qed.

(** A request that is not bypassed has its recipe cover every cookie it carries... *)
Lemma bypass_cookie p req toks n :
  rq_selKey req = Some toks -> BypassForCredentials p req = false -> n ∈ cookieNames req -> n ∉ forwardNames (recipe toks) ->
  existsb keysCookieHeader (recipe toks) = true \/
  (existsb (keysCookie n) (recipe toks) = true /\ (length (cookieValues (cookies req) n) <= 1)%nat).
Proof.
  intros Hk Hb Hn Hf. unfold BypassForCredentials in Hb. rewrite (recipeTokens_captured p req toks Hk) in Hb.
  assert (cookieNames req <> []) as Hne by (intros E; rewrite E in Hn; by apply elem_of_nil in Hn).
  rewrite (bool_decide_false (cookieNames req = [])) in Hb by done. cbn [negb andb] in Hb.
  destruct (keyCanCoverCred p); [|done]. cbn [negb] in Hb. destruct (_ && _) eqn:Ea; [done|].
  apply negb_false_iff in Hb. unfold keyCoversAllCookies in Hb.
  destruct (existsb keysCookieHeader (recipe toks)); [by left|right].
  destruct (bool_decide (cookies req = [])); [done|]. rewrite forallb_forall in Hb.
  specialize (Hb n (proj1 (list_elem_of_In _ _) Hn)). cbn zeta in Hb.
  assert (memBytes n (SelectedDerivedForwardCookies p req) = false) as Hm.
  { apply not_true_iff_false. rewrite memBytes_true. intros H. by apply Hf, (forward_selected p req). }
  rewrite Hm in Hb. destruct (existsb (keysCookie n) (recipe toks)); [|done]. cbn in Hb. split; [done|].
  destruct (Nat.leb_spec (length (cookieValues (cookies req) n)) 1); [lia|done].
Qed.

(** ... and its Authorization. *)
Lemma bypass_auth p req toks :
  rq_selKey req = Some toks -> BypassForCredentials p req = false -> existsb nonEmpty (Values (rq_Header req) (go "Authorization")) = true ->
  existsb tokenCoversAuth (recipe toks) = true /\ (length (Values (rq_Header req) (go "Authorization")) <= 1)%nat.
Proof.
  intros Hk Hb Ha. unfold BypassForCredentials in Hb. rewrite (recipeTokens_captured p req toks Hk), Ha in Hb.
  rewrite andb_false_r in Hb. destruct (keyCanCoverCred p); [|done]. cbn [negb andb] in Hb.
  unfold keyCoversAuthorization in Hb. destruct (existsb tokenCoversAuth (recipe toks)); [|done]. split; [done|].
  destruct (Nat.ltb_spec 1 (length (Values (rq_Header req) (go "Authorization")))); [done|lia].
Qed.

(** ** Isolation *)

(** What a recipe's header and cookie tokens say when keys agree. *)
Section Agree.
Variables (ev ev' : ptr -> bool) (toks : list keyToken) (a b : Request) (sc : bytes).
Hypotheses (Ha : admitted a) (Hb : admitted b).
Hypothesis Hagree : Forall (fun t => tokenValue ev a sc t = tokenValue ev' b sc t) (recipe toks).

Lemma agree_header name : tokHeader name ∈ recipe toks -> headerCombined a name = headerCombined b name.
Proof.
  intros Ht. rewrite list.Forall_forall in Hagree. apply Hagree in Ht. cbn in Ht.
  by rewrite !writeKeyValue_clean in Ht by (by apply admitted_combined).
Qed.

Lemma agree_cookie n : existsb (keysCookie n) (recipe toks) = true -> cookie a n = cookie b n.
Proof.
  intros (t & Ht & Hn)%existsb_exists. destruct t; try done. cbn in Hn. apply bool_decide_eq_true in Hn as ->.
  apply list_elem_of_In in Ht. rewrite list.Forall_forall in Hagree. apply Hagree in Ht. cbn in Ht.
  by rewrite !writeKeyValue_clean in Ht by (by apply admitted_cookie).
Qed.

Hypothesis Hascii : Forall ascii_token (recipe toks).

Lemma agree_fold name : ascii_name name -> forallb validHeaderFieldByte name = true ->
  existsb (fun t => match t with tokHeader n => EqualFold n name | _ => false end) (recipe toks) = true ->
  headerCombined a name = headerCombined b name.
Proof.
  intros Hn Hv (t & Ht & Hf)%existsb_exists. destruct t as [ | | | | |g|g|n|n| | | | | |m|cl|tr tn|s]; try done.
  apply list_elem_of_In in Ht. pose proof (agree_header n Ht) as H. rewrite list.Forall_forall in Hascii.
  apply Hascii in Ht. unfold headerCombined, Values in *. by rewrite (EqualFold_header n name) in H.
Qed.

Lemma agree_cookies : existsb keysCookieHeader (recipe toks) = true -> cookies a = cookies b.
Proof.
  intros H. apply cookies_combined; [done..|]. apply agree_fold; [|done..]. by apply (bool_decide_unpack _).
Qed.

Lemma agree_auth : existsb tokenCoversAuth (recipe toks) = true ->
  headerCombined a (go "Authorization") = headerCombined b (go "Authorization").
Proof. intros H. apply agree_fold; [|done..]. by apply (bool_decide_unpack _). Qed.
End Agree.

End Isolation.

(** Whether a request carries a bearer token or the like. *)
Definition hasAuth (r : Request) : bool := existsb nonEmpty (Values (rq_Header r) (go "Authorization")).

(** One request of a pair with the same key: evaluated, stripped and not bypassed. *)
Section OneSide.
Context {U : Platform} {R : GoLib}.
Variables (p : Pipeline) (a a1 : Request) (da : RequestDecision) (toks : list keyToken).
Hypotheses (Hwf : heap_wf (p_heap p)) (Ha : admitted a).
Hypotheses (Ea : EvalRequest p a = (da, a1)) (Hk : rq_selKey a1 = Some toks).
Hypothesis Hby : BypassForCredentials p (StripDerivedCookies p a1) = false.

Lemma side_key : CacheKey da = pureWith (matchesPure (p_heap p) (mkCtx a (resolveUpstream p a) None) (length (p_heap p)))
                                 (buildKey toks a (stickyCookie p)).
Proof. by apply (EvalRequest_key p a da a1 toks Hwf (ad_fresh a Ha) Ea) in Hk as (_ & -> & _). Qed.

Lemma side_values name : CanonicalHeaderKey name <> go "Cookie" ->
  Values (rq_Header (StripDerivedCookies p a1)) name = Values (rq_Header a) name.
Proof.
  intros Hn. rewrite strip_other by done.
  apply (EvalRequest_key p a da a1 toks Hwf (ad_fresh a Ha) Ea) in Hk as (-> & _). by destruct a.
Qed.

Lemma side_cookie n : n ∈ cookieNames (StripDerivedCookies p a1) -> n ∉ forwardNames (recipe toks) ->
  existsb keysCookieHeader (recipe toks) = true \/
  existsb (keysCookie n) (recipe toks) = true /\ (length (cookieValues (cookies (StripDerivedCookies p a1)) n) <= 1)%nat.
Proof. intros Hn Hf. apply (bypass_cookie p _ toks n); [by rewrite strip_selKey|done..]. Qed.

Lemma side_auth : hasAuth (StripDerivedCookies p a1) = true -> existsb tokenCoversAuth (recipe toks) = true.
Proof. intros H. by apply (bypass_auth p _ toks) in H as [H _]; [|rewrite strip_selKey|]. Qed.

(** A cookie a covered request does not carry counts for nothing. *)
Lemma side_count n : n ∉ cookieNames (StripDerivedCookies p a1) ->
  length (cookieValues (cookies (StripDerivedCookies p a1)) n) = 0%nat.
Proof.
  unfold cookieNames, cookieValues. rewrite length_map. induction (cookies _) as [|c cs IH]; [done|].
  cbn [map List.filter]. intros [Hc Hcs]%not_elem_of_cons. rewrite bool_decide_false by congruence. by apply IH.
Qed.
End OneSide.

(** Requests with one key under one recipe agree on their credentials. *)
Lemma credentials_agree {U : Platform} {R : GoLib} p a b da db a1 b1 toks :
  heap_wf (p_heap p) -> admitted a -> admitted b ->
  Forall token_clean toks -> Forall ascii_token toks ->
  EvalRequest p a = (da, a1) -> EvalRequest p b = (db, b1) ->
  rq_selKey a1 = Some toks -> rq_selKey b1 = Some toks -> CacheKey da = CacheKey db ->
  let a2 := StripDerivedCookies p a1 in let b2 := StripDerivedCookies p b1 in
  BypassForCredentials p a2 = false -> BypassForCredentials p b2 = false ->
  (forall n, n ∈ cookieNames a2 \/ n ∈ cookieNames b2 -> n ∉ forwardNames (recipe toks) ->
     cookie a n = cookie b n /\
     (cookies a = cookies b \/
      (length (cookieValues (cookies a2) n) <= 1)%nat /\ (length (cookieValues (cookies b2) n) <= 1)%nat)) /\
  (headerCombined a2 (go "Authorization") = headerCombined b2 (go "Authorization") \/
   hasAuth a2 = false /\ hasAuth b2 = false).
Proof.
  intros Hwf Ha Hb Hc Hasc Ea Eb Hka Hkb HK a2 b2 Hba Hbb.
  rewrite (side_key p a a1 da toks Hwf Ha Ea Hka), (side_key p b b1 db toks Hwf Hb Eb Hkb) in HK.
  pose proof (key_tokens_agree _ _ toks a b _ Hc (ad_clean a Ha) (ad_clean b Hb) HK) as Hag.
  assert (Forall ascii_token (recipe toks)) as Hasc' by (destruct toks; [repeat constructor|done]).
  split.
  - intros n Hn Hf.
    assert (existsb keysCookieHeader (recipe toks) = true \/ existsb (keysCookie n) (recipe toks) = true) as [Hh|Hh].
    { destruct Hn as [Hn|Hn]; [pose proof (side_cookie p a1 toks Hka Hba n Hn Hf) as H
                              |pose proof (side_cookie p b1 toks Hkb Hbb n Hn Hf) as H]; tauto. }
    + assert (cookies a = cookies b) as E by (by eapply (agree_cookies _ _ toks a b)).
      split; [|by left]. unfold cookie. by rewrite E.
    + split; [by eapply (agree_cookie _ _ toks a b)|].
      destruct (existsb keysCookieHeader (recipe toks)) eqn:Ehdr.
      { left. by eapply (agree_cookies _ _ toks a b). }
      right. split.
      * destruct (decide (n ∈ cookieNames a2)) as [Hi|Hi]; [|pose proof (side_count p a1 n Hi : length (cookieValues (cookies a2) n) = _); lia].
        destruct (side_cookie p a1 toks Hka Hba n Hi Hf) as [H|[_ H]]; [congruence|done].
      * destruct (decide (n ∈ cookieNames b2)) as [Hi|Hi]; [|pose proof (side_count p b1 n Hi : length (cookieValues (cookies b2) n) = _); lia].
        destruct (side_cookie p b1 toks Hkb Hbb n Hi Hf) as [H|[_ H]]; [congruence|done].
  - destruct (hasAuth a2 || hasAuth b2) eqn:E; [left|right; by apply orb_false_iff].
    unfold headerCombined, a2, b2.
    rewrite (side_values p a a1 da toks Hwf Ha Ea Hka), (side_values p b b1 db toks Hwf Hb Eb Hkb) by done.
    apply (agree_auth _ _ toks a b _ Ha Hb Hag Hasc').
    apply orb_true_iff in E as [E|E]; [by apply (side_auth p a1)|by apply (side_auth p b1)].
Qed.

(** Requests that share a cache entry share their credentials. Two requests are
    evaluated, have the cookies of their derived axes stripped and are not bypassed; they
    selected the same recipe and have the same key. Then every cookie either of them still
    carries, other than those the recipe forwards by name, was sent with the same value by
    both clients, and it was sent once or within a Cookie header that is keyed whole; and
    both sent the same Authorization, if any. So a response stored for one user is never
    served to a user with other credentials. *)
Theorem shared_entry_same_credentials {U : Platform} {R : GoLib} p a b da db a1 b1 toks :
  heap_wf (p_heap p) -> admitted a -> admitted b ->
  Forall token_clean toks -> Forall ascii_token toks ->
  EvalRequest p a = (da, a1) -> EvalRequest p b = (db, b1) ->
  rq_selKey a1 = Some toks -> rq_selKey b1 = Some toks -> CacheKey da = CacheKey db ->
  let a2 := StripDerivedCookies p a1 in let b2 := StripDerivedCookies p b1 in
  BypassForCredentials p a2 = false -> BypassForCredentials p b2 = false ->
  (forall n, n ∈ cookieNames a2 \/ n ∈ cookieNames b2 -> n ∉ forwardNames (recipe toks) ->
     cookie a n = cookie b n /\
     (cookies a = cookies b \/
      (length (cookieValues (cookies a2) n) <= 1)%nat /\ (length (cookieValues (cookies b2) n) <= 1)%nat)) /\
  (headerCombined a2 (go "Authorization") = headerCombined b2 (go "Authorization") \/
   hasAuth a2 = false /\ hasAuth b2 = false).
Proof. apply credentials_agree. Qed.

(** ** Examples *)

#[local] Existing Instance amd64.
#[local] Existing Instance noLib.

Definition headers (l : list (bytes * bytes)) : header := list_to_map (map (fun kv => (fst kv, [snd kv])) l).

(** A site keyed by the path, the session cookie and a header. *)
Definition exampleSite (ttls : list ttlRule) : Pipeline :=
  examplePipeline [] [mkKeyRule (mkSel selDefault None) [tokPath; tokCookie (go "session"); tokHeader (go "Accept-Language")] (mkPos [] 1 1)] ttls [].

Lemma example_admitted ua :
  bool_decide (SEP ∉ ua) = true ->
  admitted (exampleRequest (go "/a") (headers [(go "Cookie", go "session=42"); (go "Accept-Language", go "es"); (go "User-Agent", ua)])).
Proof.
  intros Hua%bool_decide_eq_true. split.
  - split; by apply (bool_decide_unpack _).
  - unfold headers, exampleRequest. cbn [rq_Header map list_to_map fst snd].
    repeat (apply map_Forall_insert_2; [constructor; [first [exact Hua|by apply (bool_decide_unpack _)]|constructor]|]).
    apply map_Forall_empty.
  - cbn. vm_compute. lia.
  - done.
Defined.

(** Two browsers of one session share an entry; both sent that session. *)
Lemma shared_entry_same_credentials_witness :
  let p := exampleSite [] in
  let r ua := exampleRequest (go "/a") (headers [(go "Cookie", go "session=42"); (go "Accept-Language", go "es"); (go "User-Agent", ua)]) in
  CacheKey (fst (EvalRequest p (r (go "x")))) = CacheKey (fst (EvalRequest p (r (go "y")))) /\
  cookie (r (go "x")) (go "session") = cookie (r (go "y")) (go "session").
Proof.
  intros p r. split; [vm_compute; reflexivity|].
  apply (shared_entry_same_credentials p (r (go "x")) (r (go "y")) (fst (EvalRequest p (r (go "x")))) (fst (EvalRequest p (r (go "y"))))
    (snd (EvalRequest p (r (go "x")))) (snd (EvalRequest p (r (go "y")))) [tokPath; tokCookie (go "session"); tokHeader (go "Accept-Language")]).
  - split; by intros [].
  - by apply example_admitted.
  - by apply example_admitted.
  - by repeat constructor.
  - by repeat constructor.
  - apply surjective_pairing.
  - apply surjective_pairing.
  - vm_compute. reflexivity.
  - vm_compute. reflexivity.
  - vm_compute. reflexivity.
  - vm_compute. reflexivity.
  - vm_compute. reflexivity.
  - left. apply (bool_decide_unpack _). vm_compute. exact I.
  - apply (bool_decide_unpack _). vm_compute. exact I.
Defined.
