(* ===== verification/Response.v ===== *)
(** * The response phase ([EvalResponse] of [pipeline.go])

    Whether and for how long a response is stored, and what the entries of a shared
    cache then have in common. *)

From stdpp Require Import base strings pretty numbers gmap list.
From Stdlib Require Import Lia.
From S2P Require Import Prelude GoStrings Http Ast Netip Glob Host CookieJson Request Matcher CacheKey Duration Rules Template Eval Credentials.
Open Scope Z_scope.

Section Defs.
Context {U : Platform} {R : GoLib}.

Record ResponseDecision : Type := mkRespDec {
  TTL : Z;
  Grace : Z;
  MaxStale : Z;
  HitForMiss : Z;
  StoreTier : bytes;
  Cacheable : bool;
  ForcedPrivate : bool;
  CredentialedStore : bool;
  StripHeaders : list bytes
}.

Definition keyHeaderNamesForTokens (toks : list keyToken) : list bytes :=
  omap (fun t => match t with tokHeader name => if nonEmpty name then Some (toLower name) else None | _ => None end) toks.

Definition hasSetCookie (h : header) : bool := negb (bool_decide (Values h (go "Set-Cookie") = [])).

Definition commaParts (v : bytes) : list bytes := map TrimSpace (SplitByte v ",").

Definition varyStar (h : header) : bool :=
  existsb (fun v => memBytes (go "*") (commaParts v)) (Values h (go "Vary")).

(** [strings.Trim] of double quotes. *)
Fixpoint trimLeftQuote (s : bytes) : bytes :=
  match s with c :: r => if (byteZ c =? 0x22) then trimLeftQuote r else s | [] => [] end.
Definition trimQuotes (s : bytes) : bytes := rev (trimLeftQuote (rev (trimLeftQuote s))).

Definition uncacheableDirective (part : bytes) : bool :=
  let '(name, val) :=
    match IndexByte part "=" with
    | Some i => (take i part, TrimSpace (drop (S i) part))
    | None => (part, [])
    end in
  let name := toLower (TrimSpace name) in
  if memBytes name (map go ["no-store"; "private"; "no-cache"]%string) then true
  else bool_decide (name = go "s-maxage") && bool_decide (trimQuotes val = go "0").

Definition hasUncacheableCC (value : bytes) : bool := existsb uncacheableDirective (commaParts value).

Definition varyCovered (value : bytes) (keyHeaders : list bytes) : bool :=
  forallb (fun field =>
    if bool_decide (field = []) then true
    else if bool_decide (field = go "*") then false
    else let lf := toLower field in bool_decide (lf = go "accept-encoding") || memBytes lf keyHeaders)
    (commaParts value).

Definition safelyShareable (h : header) (keyHeaders : list bytes) : bool :=
  negb (existsb hasUncacheableCC (Values h (go "Cache-Control")))
  && forallb (fun v => varyCovered v keyHeaders) (Values h (go "Vary")).

Definition isUncacheableError (status : Z) : bool := (400 <=? status) && negb (status =? 404) && negb (status =? 410).

Definition resolveGraceMaxStale (r : ttlRule) (h : option header) : Z * Z :=
  let grace := if nonEmpty (tl_graceFromHeader r) then default (tl_grace r) (headerTTL h (tl_graceFromHeader r)) else tl_grace r in
  let maxStale := if nonEmpty (tl_maxStaleFromHeader r) then default (tl_maxStale r) (headerTTL h (tl_maxStaleFromHeader r)) else tl_maxStale r in
  (grace, if (0 <? maxStale) && (maxStale <? grace) then 0 else maxStale).

(** What the [cache_ttl] rules decide: hit-for-miss, or a lifetime and whether it came
    from the origin's response. *)
Inductive ttlDecision : Type :=
| ttlNone
| ttlHFM (d : Z)
| ttlStore (ttl grace maxStale : Z) (strip : list bytes) (signal : bool).

Fixpoint ttlPhase (rules : list ttlRule) (status : Z) (h : option header) : prog ttlDecision :=
  match rules with
  | [] => Ret ttlNone
  | r :: rules =>
    do b <- selector_matches (tl_sel r) status;
    if negb b then ttlPhase rules status h
    else if tl_isHFM r then Ret (ttlHFM (tl_hfm r))
    else if isUncacheableError status && negb (isStatusIn (tl_sel r)) then Ret ttlNone
    else
      let '(grace, maxStale) := resolveGraceMaxStale r h in
      if nonEmpty (tl_fromHeader r) then
        match headerTTL h (tl_fromHeader r) with
        | None => ttlPhase rules status h
        | Some ttl => Ret (ttlStore ttl grace maxStale (consumedHeaders r) true)
        end
      else Ret (ttlStore (tl_ttl r) grace maxStale (consumedHeaders r) false)
  end.

(** The verdict on a response a rule would store. *)
Inductive verdict : Type := vRefuse | vShare | vPrivate | vCredentialed.

Definition shareVerdict (p : Pipeline) (req : Request) (h : header) (signal : bool) : prog verdict :=
  do toks <- resolvedKeyTokens p req;
  do cred <- credentialedMatches p;
  if (cred : bool) then Ret (if signal then vCredentialed else vRefuse)
  else
    do strips <- (if hasSetCookie h then anyP scopeMatches (stripRules p) else Ret true);
    let shareable := safelyShareable h (keyHeaderNamesForTokens toks) in
    Ret (if varyStar h || (hasSetCookie h && negb strips) || (negb (cacheUnsafe p) && negb shareable) then vRefuse
         else if cacheUnsafe p && negb shareable then vPrivate else vShare).

Definition responsePhase (p : Pipeline) (req : Request) (status : Z) (h : option header) : prog ResponseDecision :=
  do t <- ttlPhase (ttlRules p) status h;
  do v <- match t, h with
          | ttlStore _ _ _ _ signal, Some h => shareVerdict p req h signal
          | _, _ => Ret vShare
          end;
  do st <- findP (fun r => selector_matches (sg_sel r) status) (storageRules p);
  let tier := match st with Some r => sg_tier r | None => [] end in
  Ret (match t with
       | ttlNone => mkRespDec 0 0 0 0 tier false false false []
       | ttlHFM d => mkRespDec 0 0 0 d tier false false false []
       | ttlStore ttl grace maxStale strip _ =>
         match v with
         | vRefuse => mkRespDec 0 0 0 0 tier false false false strip
         | vShare => mkRespDec ttl grace maxStale 0 tier true false false strip
         | vPrivate => mkRespDec ttl grace maxStale 0 tier true true false strip
         | vCredentialed => mkRespDec ttl grace maxStale 0 tier true false true strip
         end
       end).

Definition EvalResponse (p : Pipeline) (req : Request) (status : Z) (h : option header) : ResponseDecision :=
  evalIn p req (resolveUpstream p req) h (responsePhase p req status h).
End Defs.

(** ** Rules and verdicts *)

Section Response.
Context {U : Platform} {R : GoLib}.

(** The rule behind a decision to store. *)
Lemma ttlPhase_store p req up resp rules status h ttl grace maxStale strip signal :
  evalPure p req up resp (ttlPhase rules status h) = ttlStore ttl grace maxStale strip signal ->
  exists r, r ∈ rules /\ evalPure p req up resp (selector_matches (tl_sel r) status) = true /\
    (isUncacheableError status = true -> isStatusIn (tl_sel r) = true) /\
    (grace, maxStale) = resolveGraceMaxStale r h /\ strip = consumedHeaders r /\
    (if signal then headerTTL h (tl_fromHeader r) = Some ttl else tl_fromHeader r = [] /\ ttl = tl_ttl r).
Proof.
  induction rules as [|r rules IH]; [done|]. cbn [ttlPhase]. rewrite evalPure_bind.
  destruct (evalPure p req up resp (selector_matches (tl_sel r) status)) eqn:Esel; cbn [negb]; cycle 1.
  { intros (r' & Hr' & H)%IH. exists r'. split; [by right|done]. }
  destruct (tl_isHFM r); [done|]. destruct (isUncacheableError status && negb (isStatusIn (tl_sel r))) eqn:Eerr; [done|].
  assert (isUncacheableError status = true -> isStatusIn (tl_sel r) = true) as Herr.
  { intros E. rewrite E in Eerr. by apply negb_false_iff in Eerr. }
  destruct (resolveGraceMaxStale r h) as [g ms] eqn:Eg. destruct (nonEmpty (tl_fromHeader r)) eqn:Ef.
  - destruct (headerTTL h (tl_fromHeader r)) as [t|] eqn:Et.
    + cbn. intros [= <- <- <- <- <-]. exists r. split_and!; try done. by left.
    + intros (r' & Hr' & H)%IH. exists r'. split; [by right|done].
  - cbn. intros [= <- <- <- <- <-]. exists r. split_and!; try done; [by left|].
    apply negb_false_iff, bool_decide_eq_true in Ef. done.
Qed.

(** The verdict on a response that may be stored. *)
Lemma shareVerdict_spec p req up h signal v :
  evalPure p req up (Some h) (shareVerdict p req h signal) = v -> v <> vRefuse ->
  let toks := evalPure p req up (Some h) (resolvedKeyTokens p req) in
  let cred := evalPure p req up (Some h) (credentialedMatches p) in
  (v = vCredentialed -> cred = true /\ signal = true) /\
  (v <> vCredentialed -> cred = false /\ varyStar h = false /\
     (hasSetCookie h = true -> evalPure p req up (Some h) (anyP scopeMatches (stripRules p)) = true) /\
     (v = vShare -> safelyShareable h (keyHeaderNamesForTokens toks) = true) /\
     (v = vPrivate -> cacheUnsafe p = true)).
Proof.
  intros Hv Hne toks cred. unfold shareVerdict in Hv. rewrite evalPure_bind in Hv. fold toks in Hv.
  rewrite evalPure_bind in Hv. fold cred in Hv. destruct cred.
  { cbn in Hv. destruct signal; subst v; [|done]. split; [done|]. by intros []. }
  rewrite evalPure_bind in Hv. cbn zeta in Hv.
  set (strips := evalPure p req up (Some h) (anyP scopeMatches (stripRules p))).
  assert (evalPure p req up (Some h) (if hasSetCookie h then anyP scopeMatches (stripRules p) else Ret true)
          = if hasSetCookie h then strips else true) as E by (by destruct (hasSetCookie h)).
  rewrite E in Hv. clear E. cbn in Hv.
  destruct (varyStar h); [by subst v|]. destruct (hasSetCookie h), strips, (cacheUnsafe p) eqn:Eu,
    (safelyShareable h (keyHeaderNamesForTokens toks)) eqn:Es; cbn in Hv; subst v; try done; split_and!; done.
Qed.

Lemma resolveGraceMaxStale_order r h grace maxStale :
  (grace, maxStale) = resolveGraceMaxStale r h -> maxStale <= 0 \/ grace <= maxStale.
Proof.
  unfold resolveGraceMaxStale. intros [= -> ->]. destruct (_ && _) eqn:E; [by left|].
  apply andb_false_iff in E as [E%Z.ltb_ge|E%Z.ltb_ge]; lia.
Qed.

(** A response the phase lets the server store, by the rule and the verdict. *)
Lemma EvalResponse_store p req status h :
  heap_wf (p_heap p) -> let d := EvalResponse p req status (Some h) in let up := resolveUpstream p req in
  Cacheable d = true -> exists strip signal v,
    evalPure p req up (Some h) (ttlPhase (ttlRules p) status (Some h)) = ttlStore (TTL d) (Grace d) (MaxStale d) strip signal /\
    evalPure p req up (Some h) (shareVerdict p req h signal) = v /\ v <> vRefuse /\
    (CredentialedStore d = true <-> v = vCredentialed) /\ (ForcedPrivate d = true <-> v = vPrivate).
Proof.
  intros Hwf. cbn zeta. unfold EvalResponse. rewrite evalIn_pure by done. unfold responsePhase.
  rewrite evalPure_bind. destruct (evalPure _ _ _ _ (ttlPhase _ _ _)) as [|d|ttl g ms strip signal];
    rewrite !evalPure_bind; cbn; try done.
  destruct (evalPure _ _ _ _ (shareVerdict p req h signal)) eqn:Ev; cbn; try done; intros _;
    exists strip, signal; eexists; split_and!; try done; split; done.
Qed.
End Response.

(** C3. A response the store phase accepts is safe for a shared cache. An error status
    other than 404 and 410 was named by the rule's own status selector; a response stored
    in a [cache_credentialed] scope carries a lifetime the origin sent with it; outside
    those scopes it has no [Vary: *], any Set-Cookie is one a [strip_cookies] rule removes
    at delivery, and, unless the site opted into [cache_unsafe] and the entry is marked
    private, no Cache-Control forbids sharing and every Vary field is keyed. The stale
    window is off or reaches past the grace window. *)
Theorem stored_response_safe {U : Platform} {R : GoLib} p req status h :
  heap_wf (p_heap p) -> let d := EvalResponse p req status (Some h) in Cacheable d = true ->
  (isUncacheableError status = true ->
     exists r codes, r ∈ ttlRules p /\ sel_kind (tl_sel r) = selStatusIn codes /\ status ∈ codes) /\
  (if CredentialedStore d
   then exists r, r ∈ ttlRules p /\ headerTTL (Some h) (tl_fromHeader r) = Some (TTL d)
   else varyStar h = false /\
        (hasSetCookie h = true -> forall st, StripCookies (EvalDeliver p req (Some h) st) = true) /\
        (if ForcedPrivate d then cacheUnsafe p = true
         else existsb hasUncacheableCC (Values h (go "Cache-Control")) = false /\
              (forall toks, rq_selKey req = Some toks ->
                 forallb (fun v => varyCovered v (keyHeaderNamesForTokens toks)) (Values h (go "Vary")) = true))) /\
  (MaxStale d <= 0 \/ Grace d <= MaxStale d).
Proof.
  intros Hwf d Hd. destruct (EvalResponse_store p req status h Hwf Hd) as (strip & signal & v & Ht & Hv & Hne & Hcr & Hpr).
  fold d in Ht, Hcr, Hpr. apply ttlPhase_store in Ht as (r & Hr & Hsel & Herr & Hg & _ & Hsig).
  destruct (shareVerdict_spec p req _ h signal v Hv Hne) as [Hc Hs]. split_and!.
  - intros E%Herr. exists r. unfold isStatusIn in E. destruct (sel_kind (tl_sel r)) as [codes| | |] eqn:Ek; try done.
    exists codes. split_and!; try done. revert Hsel. unfold selector_matches. rewrite evalPure_bind, Ek.
    destruct (negb _); [done|]. cbn. by rewrite bool_decide_eq_true.
  - destruct (CredentialedStore d) eqn:Ecr.
    + destruct (Hc (proj1 Hcr eq_refl)) as [_ ->]. by exists r.
    + assert (v <> vCredentialed) as Hvc by (intros H%Hcr; congruence).
      destruct (Hs Hvc) as (_ & Hvs & Hsc & Hsh & Hun). split_and!; [done| |].
      * intros E st. unfold EvalDeliver. rewrite evalIn_pure by done. unfold deliverPhase.
        rewrite !evalPure_bind. cbn [evalPure pure pureWith StripCookies]. by apply Hsc.
      * destruct (ForcedPrivate d) eqn:Ep; [by apply Hun, Hpr|].
        assert (v = vShare) as E.
        { destruct v; try done. by discriminate (proj2 Hpr eq_refl). }
        apply Hsh in E. unfold safelyShareable in E. apply andb_true_iff in E as [E1 E2]. split; [by apply negb_true_iff in E1|].
        intros toks Hk. unfold resolvedKeyTokens in E2. by rewrite Hk in E2.
  - by apply (resolveGraceMaxStale_order r (Some h)).
Qed.

(** C14. Requests that share an entry agree on everything the response varies on. If a
    response is stored as shareable (neither as credentialed nor as forced private) under a
    recipe of clean ASCII tokens, and another request has its key under the same recipe,
    the two requests have the same value of every header its Vary names but
    Accept-Encoding. *)
Theorem shared_entry_same_variant {U : Platform} {R : GoLib} p a b da db a1 b1 toks status h v field :
  heap_wf (p_heap p) -> admitted a -> admitted b ->
  Forall token_clean toks -> Forall ascii_token toks ->
  EvalRequest p a = (da, a1) -> EvalRequest p b = (db, b1) ->
  rq_selKey a1 = Some toks -> rq_selKey b1 = Some toks -> CacheKey da = CacheKey db ->
  let d := EvalResponse p (StripDerivedCookies p a1) status (Some h) in
  Cacheable d = true -> CredentialedStore d = false -> ForcedPrivate d = false ->
  v ∈ Values h (go "Vary") -> field ∈ commaParts v -> field <> [] ->
  ascii_name field -> forallb validHeaderFieldByte field = true -> toLower field <> go "accept-encoding" ->
  headerCombined a field = headerCombined b field.
Proof.
  intros Hwf Ha Hb Hc Hasc Ea Eb Hka Hkb HK d Hd Hcr Hpr Hv Hf Hne Hfa Hfv Hae.
  assert (varyCovered v (keyHeaderNamesForTokens toks) = true) as Hcov.
  { destruct (EvalResponse_store p (StripDerivedCookies p a1) status h Hwf Hd) as (strip & signal & vd & _ & Hvd & Hne' & Hcr' & Hpr').
    fold d in Hcr', Hpr'. destruct (shareVerdict_spec p _ _ h signal vd Hvd Hne') as [_ Hs].
    destruct Hs as (_ & _ & _ & Hsh & _); [intros H%Hcr'; congruence|].
    assert (vd = vShare) as E%Hsh.
    { destruct vd; try done; [by discriminate (eq_trans (eq_sym Hpr) (proj2 Hpr' eq_refl))
                             |by discriminate (eq_trans (eq_sym Hcr) (proj2 Hcr' eq_refl))]. }
    unfold safelyShareable, resolvedKeyTokens in E. rewrite strip_selKey, Hka in E. apply andb_true_iff in E as [_ E].
    rewrite forallb_forall in E. by apply E, list_elem_of_In. }
  unfold varyCovered in Hcov. rewrite forallb_forall in Hcov. specialize (Hcov field (proj1 (list_elem_of_In _ _) Hf)).
  cbn zeta in Hcov. rewrite (bool_decide_false (field = [])) in Hcov by done. destruct (bool_decide (field = go "*")); [done|].
  rewrite (bool_decide_false (toLower field = _)) in Hcov by done. cbn [orb] in Hcov. apply memBytes_true in Hcov.
  unfold keyHeaderNamesForTokens in Hcov. apply list_elem_of_omap in Hcov as (t & Ht & Hn).
  destruct t as [ | | | | |g|g|name|n| | | | | |m|cl|tr tn|s]; try done. destruct (nonEmpty name); [|done]. injection Hn as Hn.
  rewrite (side_key p a a1 da toks Hwf Ha Ea Hka), (side_key p b b1 db toks Hwf Hb Eb Hkb) in HK.
  pose proof (key_tokens_agree _ _ toks a b _ Hc (ad_clean a Ha) (ad_clean b Hb) HK) as Hag.
  assert (tokHeader name ∈ recipe toks) as Ht' by (destruct toks; [by apply elem_of_nil in Ht|done]).
  pose proof (agree_header _ _ toks a b _ Ha Hb Hag name Ht') as H.
  rewrite list.Forall_forall in Hasc. apply Hasc in Ht. cbn in Ht.
  rewrite !toLower_ascii in Hn by done. apply CanonicalHeaderKey_lower in Hn; [|done].
  unfold headerCombined, Values in *. by rewrite Hn in H.
Qed.

(** ** Examples *)

#[local] Existing Instance amd64.
#[local] Existing Instance noLib.

Definition exampleTTL : ttlRule := mkTTL (mkSel selDefault None) 60000000000 0 0 false 0 [] [] [].

Lemma stored_response_safe_witness :
  let p := exampleSite [exampleTTL] in
  let req := exampleRequest (go "/a") ∅ in
  let h := headers [(go "Content-Type", go "text/html")] in
  Cacheable (EvalResponse p req 200 (Some h)) = true /\ varyStar h = false.
Proof.
  intros p req h. assert (Cacheable (EvalResponse p req 200 (Some h)) = true) as Hc by (vm_compute; reflexivity). split; [done|].
  destruct (stored_response_safe p req 200 h ltac:(split; by intros []) Hc) as (_ & H & _).
  assert (CredentialedStore (EvalResponse p req 200 (Some h)) = false) as E by (vm_compute; reflexivity).
  rewrite E in H. by destruct H.
Defined.

Lemma shared_entry_same_variant_witness :
  let p := exampleSite [exampleTTL] in
  let r ua := exampleRequest (go "/a") (headers [(go "Cookie", go "session=42"); (go "Accept-Language", go "es"); (go "User-Agent", ua)]) in
  headerCombined (r (go "x")) (go "Accept-Language") = headerCombined (r (go "y")) (go "Accept-Language").
Proof.
  intros p r.
  apply (shared_entry_same_variant p (r (go "x")) (r (go "y")) (fst (EvalRequest p (r (go "x")))) (fst (EvalRequest p (r (go "y"))))
    (snd (EvalRequest p (r (go "x")))) (snd (EvalRequest p (r (go "y")))) [tokPath; tokCookie (go "session"); tokHeader (go "Accept-Language")]
    200 (headers [(go "Vary", go "Accept-Language")]) (go "Accept-Language") (go "Accept-Language")).
  - split; by intros [].
  - by apply example_admitted.
  - by apply example_admitted.
  - by repeat constructor.
  - by repeat constructor.
  - apply surjective_pairing.
  - apply surjective_pairing.
  - vm_compute. reflexivity.
  - vm_compute. reflexivity.
  - vm_compute. reflexivity.
  - vm_compute. reflexivity.
  - vm_compute. reflexivity.
  - vm_compute. reflexivity.
  - apply (bool_decide_unpack _). vm_compute. exact I.
  - apply (bool_decide_unpack _). vm_compute. exact I.
  - done.
  - by apply (bool_decide_unpack _).
  - reflexivity.
  - done.
Defined.
