(* ===== verification/Compile.v ===== *)
(** * Compiling a site ([compile.go] and the compilers of each directive)

    [Compile] turns a parsed site into a pipeline.  Compiling a matcher allocates it, so
    the compilers run in a monad with the heap of matchers as its state. *)

From stdpp Require Import base strings pretty numbers gmap list.
From Stdlib Require Import Lia SpecFloat.
From S2P Require Import Prelude GoStrings Http Ast Netip Glob Host CookieJson Duration Request Matcher CacheKey Rules Template Eval Device.
Open Scope Z_scope.

(** ** The monad *)

(** [CompileError]: the position and the fixed part of the message. *)
Record CompileError : Type := mkCE { ce_pos : Pos; ce_msg : string }.

Definition cm (A : Type) : Type := heap -> outcome CompileError (A * heap).

Definition cret {A} (a : A) : cm A := fun h => Ok (a, h).
Definition cbind {A B} (m : cm A) (f : A -> cm B) : cm B :=
  fun h => match m h with Ok (a, h') => f a h' | Err e => Err e | NoFuel => NoFuel end.
Definition fail {A} (pos : Pos) (msg : string) : cm A := fun _ => Err (mkCE pos msg).

Declare Scope cm_scope.
Delimit Scope cm_scope with cm.
Notation "x <~ m ; k" := (cbind m (fun x => k)) (at level 100, m at next level, k at level 200, right associativity) : cm_scope.
Open Scope cm_scope.

(** An outcome without allocation. *)
Definition lift {A} (m : outcome CompileError A) : cm A :=
  fun h => match m with Ok a => Ok (a, h) | Err e => Err e | NoFuel => NoFuel end.

Definition alloc (m : matcher) : cm ptr := fun h => Ok (length h, h ++ [m]).

(** The kind of a compiled matcher. *)
Definition kindOf (p : ptr) : cm (option matcherKind) := fun h => Ok (m_kind <$> h !! p, h).

Fixpoint mapM {A B} (f : A -> cm B) (l : list A) : cm (list B) :=
  match l with
  | [] => cret []
  | x :: l => y <~ f x; ys <~ mapM f l; cret (y :: ys)
  end.

Fixpoint foldM {A S} (f : S -> A -> cm S) (l : list A) (s : S) : cm S :=
  match l with
  | [] => cret s
  | x :: l => s' <~ f s x; foldM f l s'
  end.

Definition guard (b : bool) (pos : Pos) (msg : string) : cm unit := if b then cret tt else fail pos msg.

Definition rawArgs (args : list Arg) : list bytes := map Raw args.

Definition isTok (s : bytes) (lit : string) : bool := bool_decide (s = go lit).

(** [isAllDigits]. *)
Definition isAllDigits (s : bytes) : bool := nonEmpty s && forallb isDigit s.

(** [strconv.Atoi]; its value on an out-of-range number is the nearest [int]. *)
Definition Atoi (s : bytes) : option Z := ParseInt64 s.

(** The position of the first argument with the text. *)
Fixpoint findArg (args : list Arg) (lit : string) : option nat :=
  match args with
  | [] => None
  | a :: r => if isTok (Raw a) lit then Some 0%nat else S <$> findArg r lit
  end.

(** ** Matchers ([matcher.go]) *)

Definition matcherTypes : list bytes :=
  map go ["path"; "path_regex"; "host"; "host_regex"; "header"; "header_present"; "header_regex"; "method"; "upstream";
    "content_type"; "resp_header"; "cookie"; "cookie_json"; "header_json"; "set_cookie"; "geo"; "query_present"; "query";
    "ip"; "upstream_healthy"]%string.

Definition isMatcherType (t : bytes) : bool := memBytes t matcherTypes.

Definition isResponsePhaseKind (k : matcherKind) : bool :=
  match k with kindContentType _ | kindSetCookie _ | kindRespHeader _ _ _ => true | _ => false end.

Section Compile.
Context {U : Platform} {R : GoLib}.

(** [parseIPOrCIDR]. *)
Definition parseIPOrCIDR (s0 : bytes) : option Prefix :=
  let s := TrimSpace s0 in
  if Contains s (go "/") then Masked <$> ParsePrefix parseIPv6 s
  else match ParseAddr parseIPv6 s with
       | Some a =>
         let a := Unmap a in
         (* [PrefixFrom] drops the zone *)
         Some (mkPrefix (match a with Addr6 b _ => Addr6 b [] | a => a end) (BitLen a))
       | None => None
       end.

Fixpoint mapO {A B} (f : A -> option B) (l : list A) : option (list B) :=
  match l with
  | [] => Some []
  | x :: l => match f x, mapO f l with Some y, Some ys => Some (y :: ys) | _, _ => None end
  end.

(** The names of [query_present] and those of them that must have a value. *)
Fixpoint presentNames (args : list bytes) : option (list bytes * list bytes) :=
  match args with
  | [] => Some ([], [])
  | a :: r =>
    if HasSuffix a (go "+") then
      let clean := TrimSuffix a (go "+") in
      if bool_decide (clean = []) then None
      else match presentNames r with Some (ns, ne) => Some (clean :: ns, clean :: ne) | None => None end
    else match presentNames r with Some (ns, ne) => Some (a :: ns, ne) | None => None end
  end.

Definition geoGranularityOf (s : bytes) : option geoGranularity :=
  if isTok s "country" then Some geoCountry else if isTok s "continent" then Some geoContinent
  else if isTok s "region" then Some geoRegion else None.

(** The kind of a matcher by its type keyword and arguments. *)
Definition compileKind (typ : bytes) (args : list bytes) : sum string matcherKind :=
  if isTok typ "path" then
    match args with [] => inl "path matcher needs at least one pattern"%string
    | _ => inr (kindPath (fold_left Glob.add args newPathSet)) end
  else if isTok typ "host" then
    match args with [] => inl "host matcher needs at least one host"%string
    | _ => inr (kindHost (fold_left (addHost uni_lower) args newHostSet)) end
  else if isTok typ "path_regex" || isTok typ "host_regex" then
    match args with
    | [] => inl "matcher needs a regex"%string
    | _ => match reCompile (concat args) with
           | Some re => inr (if isTok typ "path_regex" then kindPathRegex re else kindHostRegex re)
           | None => inl "invalid regex"%string
           end
    end
  else if isTok typ "header" then
    match args with [] => inl "header matcher needs a header name"%string | n :: vs => inr (kindHeader n vs) end
  else if isTok typ "header_present" then
    match args with [n] => inr (kindHeaderPresent n) | _ => inl "header_present matcher takes exactly one header name"%string end
  else if isTok typ "header_regex" then
    match args with
    | n :: ((_ :: _) as pats) =>
      if bool_decide (n = []) then inl "header_regex matcher needs a non-empty NAME"%string
      else match reCompile (concat pats) with Some re => inr (kindHeaderRegex n re) | None => inl "invalid regex"%string end
    | _ => inl "header_regex matcher needs a NAME and a PATTERN"%string
    end
  else if isTok typ "cookie" then
    match args with
    | [] => inl "cookie matcher needs a cookie name"%string
    | n :: vs =>
      if HasSuffix n (go "*") then
        match vs with
        | [] => inr (kindCookie (TrimSuffix n (go "*")) true [])
        | _ => inl "a glob cookie name is presence-only and cannot take value args"%string
        end
      else inr (kindCookie n false vs)
    end
  else if isTok typ "cookie_json" || isTok typ "header_json" then
    match args with
    | n :: path :: vs =>
      if bool_decide (n = []) then inl "matcher needs a non-empty NAME"%string
      else match compileJSONPath path with
           | Ok segs => inr (if isTok typ "cookie_json" then kindCookieJSON n segs vs else kindHeaderJSON n segs vs)
           | _ => inl "bad JSON path"%string
           end
    | _ => inl "matcher needs a NAME and a PATH"%string
    end
  else if isTok typ "method" then
    match args with [] => inl "method matcher needs at least one method"%string
    | _ => inr (kindMethod (list_to_set (map toUpper args))) end
  else if isTok typ "upstream" then
    match args with [] => inl "upstream matcher needs at least one upstream name"%string
    | _ => inr (kindUpstream (list_to_set args)) end
  else if isTok typ "content_type" then
    match args with [] => inl "content_type matcher needs at least one media type"%string
    | _ => inr (kindContentType (map toLower args)) end
  else if isTok typ "resp_header" then
    match args with
    | n :: vs =>
      if bool_decide (n = []) then inl "resp_header matcher needs a NAME"%string
      else inr (kindRespHeader n vs (match vs with [] => None | _ => Some (newNameGlobSet vs) end))
    | [] => inl "resp_header matcher needs a NAME"%string
    end
  else if isTok typ "set_cookie" then inr (kindSetCookie args)
  else if isTok typ "geo" then
    match args with
    | [] => inl "geo matcher needs a granularity"%string
    | g :: vs =>
      match geoGranularityOf g, vs with
      | None, _ => inl "geo granularity must be country, continent, or region"%string
      | _, [] => inl "geo needs at least one value"%string
      | Some gran, _ => inr (kindGeo gran (list_to_set (map toUpper vs)))
      end
    end
  else if isTok typ "query_present" then
    match args with
    | [] => inl "query_present matcher needs at least one param name"%string
    | _ => match presentNames args with
           | None => inl "query_present: `+` needs a param name"%string
           | Some (ns, ne) => inr (kindQueryPresent (newNameGlobSet ns) (match ne with [] => None | _ => Some (newNameGlobSet ne) end))
           end
    end
  else if isTok typ "query" then
    match args with [] => inl "query matcher needs a param name"%string | n :: vs => inr (kindQuery n vs) end
  else if isTok typ "ip" then
    match args with
    | [] => inl "ip matcher needs at least one IP or CIDR"%string
    | _ => match mapO parseIPOrCIDR args with Some ps => inr (kindIP ps) | None => inl "ip matcher: bad IP/CIDR"%string end
    end
  else if isTok typ "upstream_healthy" then
    match args with [] => inl "upstream_healthy matcher needs at least one upstream pool name"%string
    | _ => inr (kindUpstreamHealthy args) end
  else inl "unknown matcher type"%string.

(** [compileMatcher]. *)
Definition compileMatcher (name typ : bytes) (args : list bytes) (pos : Pos) : cm ptr :=
  match compileKind typ args with
  | inl msg => fail pos msg
  | inr k => alloc (mkMatcher name pos (-1) k)
  end.
(** ** Scopes *)

Section Scopes.
Variable matchers : gmap bytes ptr.

Definition isRef (a : Arg) : bool := bool_decide (AKind a = ArgMatcherRef).

Definition resolveRef (a : Arg) : cm ptr :=
  if isTok (Raw a) "and" || isTok (Raw a) "AND" then fail (APos a) "AND across matchers is not supported in v1"
  else if negb (isRef a) then fail (APos a) "expected a @matcher reference"
  else match matchers !! TrimPrefix (Raw a) (go "@") with
       | Some m => cret m
       | None => fail (APos a) "undefined matcher"
       end.

(** [resolveRefs]. *)
Definition resolveRefs (refs : list Arg) : cm (list ptr) := mapM resolveRef refs.

Fixpoint spanRefs (args : list Arg) : list Arg * list Arg :=
  match args with
  | a :: r => if isRef a then let '(x, y) := spanRefs r in (a :: x, y) else ([], args)
  | [] => ([], [])
  end.

(** [leadingRefScope]. *)
Definition leadingRefScope (args : list Arg) : cm (option scope * list Arg) :=
  match spanRefs args with
  | ([], _) => cret (None, args)
  | (refs, rest) => ms <~ resolveRefs refs; cret (Some ms, rest)
  end.

(** [parseScopeAll]. *)
Definition parseScopeAll (args : list Arg) (pos : Pos) : cm (option scope) :=
  match args with
  | [] => cret None
  | a :: r =>
    if isRef a then ms <~ resolveRefs args; cret (Some ms)
    else if isMatcherType (Raw a) then m <~ compileMatcher [] (Raw a) (rawArgs r) pos; cret (Some [m])
    else fail pos "expected @matcher or inline matcher"
  end.

(** Whether a matcher may be used before the response exists. *)
Definition requestPhase_ok (k : option matcherKind) : bool :=
  match k with Some k => negb (isResponsePhaseKind k) | None => false end.

Definition ensureRequest (m : ptr) (pos : Pos) : cm unit :=
  k <~ kindOf m; guard (requestPhase_ok k) pos "response-phase matcher in a request-phase directive".

(** [ensureNotResponsePhase]. *)
Definition ensureNotResponsePhase (sc : option scope) (pos : Pos) : cm unit :=
  _ <~ mapM (fun m => ensureRequest m pos) (default [] sc); cret tt.

(** A scope for a request-phase directive. *)
Definition requestScope (args : list Arg) (pos : Pos) : cm (option scope) :=
  sc <~ parseScopeAll args pos; _ <~ ensureNotResponsePhase sc pos; cret sc.

(** The same, where the directive needs one ([pass], [upgrade], [cache_credentialed]). *)
Definition requiredScope (args : list Arg) (pos : Pos) : cm (option scope) :=
  sc <~ parseScopeAll args pos;
  _ <~ guard (bool_decide (is_Some sc)) pos "needs a matcher or condition";
  _ <~ ensureNotResponsePhase sc pos; cret sc.

(** [isSecRefArg] and [parseSecRef]. *)
Definition isSecRefArg (a : Arg) : bool := isRef a || HasPrefix (Raw a) (go "!@").

Definition parseSecRef (a : Arg) : option (bytes * bool) :=
  if HasPrefix (Raw a) (go "!@") then Some (drop 2 (Raw a), true)
  else if HasPrefix (Raw a) (go "@") then Some (drop 1 (Raw a), false)
  else None.

(** A signed reference to a request-phase matcher. *)
Definition secTermOf (a : Arg) : cm (bytes * secTerm) :=
  match parseSecRef a with
  | None => fail (APos a) "expected a @matcher reference (optionally !-negated)"
  | Some (name, negate) =>
    match matchers !! name with
    | None => fail (APos a) "undefined matcher"
    | Some m => _ <~ ensureRequest m (APos a); cret (name, mkTerm m negate)
    end
  end.

(** ** The security gate and rate limits *)

Definition isAnd (a : Arg) : bool := isTok (Raw a) "and" || isTok (Raw a) "AND".

(** Whether the last argument is [monitor], and the others. *)
Definition cutMonitor (args : list Arg) : bool * list Arg :=
  match last args with
  | Some a => if isTok (Raw a) "monitor" then (true, removelast args) else (false, args)
  | None => (false, args)
  end.

(** [compileSecurityRule]. *)
Definition compileSecurityRule (args0 : list Arg) (pos : Pos) : cm secRule :=
  let '(monitor, args) := cutMonitor args0 in
  match args with
  | [] => fail pos "needs a matcher or condition"
  | a :: r =>
    if isSecRefArg a then
      nts <~ mapM secTermOf (List.filter (fun a => negb (isAnd a)) args);
      _ <~ guard (negb (bool_decide (nts = []))) pos "needs at least one matcher";
      cret (mkSecRule (map snd nts) monitor pos
              (default [] (fst <$> List.find (fun nt => negb (t_negate (snd nt)) && nonEmpty (fst nt)) nts)))
    else if isMatcherType (Raw a) then
      m <~ compileMatcher [] (Raw a) (rawArgs r) pos;
      _ <~ ensureRequest m pos;
      cret (mkSecRule [mkTerm m false] monitor pos [])
    else fail pos "expects @matcher refs (optionally !-negated) or one inline matcher"
  end.

(** [compileMonitorToggle]. *)
Definition compileMonitorToggle (args : list Arg) (pos : Pos) : cm bool :=
  match args with
  | [] => cret true
  | [a] => if isTok (Raw a) "on" then cret true else if isTok (Raw a) "off" then cret false else fail (APos a) "monitor takes `on` or `off`"
  | _ => fail pos "monitor takes at most one arg"
  end.

Definition isRateSpec (s : bytes) : bool := Contains s (go "r/").

(** [n <= 0] on [float64], false for a NaN. *)
Definition fle0 (f : float64) : bool :=
  match SFcompare f (S754_zero false) with Some Lt | Some Eq => true | _ => false end.

(** [parseRateSpec]: requests per second. *)
Definition parseRateSpec (s : bytes) : option float64 :=
  match IndexByte s "/" with
  | None => None
  | Some slash =>
    if negb (HasSuffix (take slash s) (go "r")) then None
    else match parseFloat (take (slash - 1) s) with
         | None => None
         | Some n =>
           if fle0 n then None
           else
             let unit := drop (S slash) s in
             if isTok unit "s" then Some n
             else if isTok unit "m" then Some (fdiv n (f_of_Z 60))
             else if isTok unit "h" then Some (fdiv n (f_of_Z 3600))
             else None
         end
  end.

(** The options after the rate; the fuel is the number of arguments. *)
Fixpoint rateOptions (n : nat) (rest : list Arg) (burst : Z) (key : rlKeyKind) : cm (Z * rlKeyKind) :=
  match n, rest with
  | _, [] => cret (burst, key)
  | O, _ => fun _ => NoFuel
  | S n, kw :: rest' =>
    if isTok (Raw kw) "burst" then
      match rest' with
      | [] => fail (APos kw) "rate_limit: `burst` needs a count"
      | b :: rest'' =>
        match Atoi (Raw b) with
        | Some v => if v <? 0 then fail (APos b) "rate_limit: burst must be a non-negative integer" else rateOptions n rest'' v key
        | None => fail (APos b) "rate_limit: burst must be a non-negative integer"
        end
      end
    else if isTok (Raw kw) "key" then
      match rest' with
      | [] => fail (APos kw) "rate_limit: `key` needs `ip`, `header NAME`, or `global`"
      | k :: rest'' =>
        if isTok (Raw k) "ip" then rateOptions n rest'' burst rlKeyIP
        else if isTok (Raw k) "global" then rateOptions n rest'' burst rlKeyGlobal
        else if isTok (Raw k) "header" then
          match rest'' with
          | hn :: rest3 =>
            if bool_decide (Raw hn = []) then fail (APos k) "rate_limit: `key header` needs a header name"
            else rateOptions n rest3 burst (rlKeyHeader (Raw hn))
          | [] => fail (APos k) "rate_limit: `key header` needs a header name"
          end
        else fail (APos k) "rate_limit: key must be `ip`, `header NAME`, or `global`"
      end
    else fail (APos kw) "rate_limit: unexpected token"
  end.

(** An optional trailing [-> block]. *)
Definition cutBlock (args : list Arg) : cm (list Arg) :=
  match rev args with
  | a :: arrow :: r =>
    if isTok (Raw arrow) "->" then
      (if isTok (Raw a) "block" then cret (rev r) else fail (APos a) "rate_limit action must be `block`")
    else cret args
  | _ => cret args
  end.

(** The name of the first named matcher of a scope. *)
Definition scopeName (sc : option scope) : cm bytes :=
  fun h => Ok (default [] (List.find nonEmpty (omap (fun p => m_name <$> h !! p) (default [] sc))), h).

(** [compileRateLimit]. *)
Definition compileRateLimit (args0 : list Arg) (pos : Pos) (id : Z) : cm rateLimitRule :=
  let '(monitor, args1) := cutMonitor args0 in
  args <~ cutBlock args1;
  sr <~ leadingRefScope args;
  let '(sc0, rest0) := sr in
  sr' <~ match sc0, rest0 with
         | None, t :: rest =>
           if isMatcherType (Raw t) && negb (isRateSpec (Raw t)) then
             match rest with
             | [] => fail pos "rate_limit inline matcher needs an argument"
             | a :: rest => m <~ compileMatcher [] (Raw t) [Raw a] pos; cret (Some [m], rest)
             end
           else cret (None, rest0)
         | _, _ => cret (sc0, rest0)
         end;
  let '(sc, rest) := sr' in
  _ <~ ensureNotResponsePhase sc pos;
  name <~ scopeName sc;
  match rest with
  | [] => fail pos "rate_limit needs a rate"
  | spec :: opts =>
    match parseRateSpec (Raw spec) with
    | None => fail (APos spec) "rate_limit: bad rate"
    | Some rate =>
      bk <~ rateOptions (length opts) opts 0 rlKeyIP;
      cret (mkRateLimit id sc rate (fst bk) (snd bk) monitor name)
    end
  end.

(** ** Synthetic responses *)

Fixpoint spanSecRefs (args : list Arg) : list Arg * list Arg :=
  match args with
  | a :: r => if isSecRefArg a then let '(x, y) := spanSecRefs r in (a :: x, y) else ([], args)
  | [] => ([], [])
  end.

Definition atoiArg (a : Arg) (msg : string) : cm Z :=
  match Atoi (Raw a) with Some v => cret v | None => fail (APos a) msg end.

(** [compileScopedRespond]. *)
Definition compileScopedRespond (args : list Arg) (pos : Pos) : cm respondRule :=
  let '(refs, rest) := spanSecRefs args in
  nts <~ mapM secTermOf refs;
  match rest with
  | [] => fail pos "respond @scope needs a STATUS code"
  | c :: r =>
    code <~ atoiArg c "respond status must be a number";
    cret (mkRespond [] (Some (map snd nts)) code (match r with b :: _ => Raw b | [] => [] end))
  end.

(** [compileRespond]. *)
Definition compileRespond (args : list Arg) (pos : Pos) : cm respondRule :=
  match args with
  | p :: c :: r =>
    if isSecRefArg p then compileScopedRespond args pos
    else
      code <~ atoiArg c "respond status must be a number";
      cret (mkRespond (Raw p) None code (match r with b :: _ => Raw b | [] => [] end))
  | _ => fail pos "respond needs PATH and CODE"
  end.

Definition defaultOnErrorContentType : bytes := go "text/html; charset=utf-8".

(** The first [content_type T] pair and the other arguments. *)
Fixpoint cutContentType (args : list Arg) : bytes * list Arg :=
  match args with
  | a :: ((t :: r) as rest) =>
    if isTok (Raw a) "content_type" then (Raw t, r)
    else let '(ct, rest) := cutContentType rest in (ct, a :: rest)
  | _ => (defaultOnErrorContentType, args)
  end.

(** [compileOnError], on the arguments after the keyword. *)
Definition compileOnError (args : list Arg) (pos : Pos) : cm onErrorRule :=
  let '(contentType, args) := cutContentType args in
  sr <~ leadingRefScope args;
  let '(sc, rest) := sr in
  _ <~ ensureNotResponsePhase sc pos;
  match rest with
  | c :: b :: _ => code <~ atoiArg c "respond on_error status must be a number"; cret (mkOnError sc code (Raw b) contentType)
  | _ => fail pos "respond on_error needs STATUS and BODY"
  end.

(** ** Purges and routes *)

(** The condition and the optional pattern after it. *)
Fixpoint cutRegex (args : list Arg) : cm (list Arg * bytes * bool) :=
  match args with
  | [] => cret ([], [], false)
  | a :: r =>
    if isTok (Raw a) "regex" || isTok (Raw a) "regex-path" then
      match r with
      | [] => fail (APos a) "purge regex needs an expression"
      | e :: _ => cret ([], Raw e, isTok (Raw a) "regex-path")
      end
    else x <~ cutRegex r; let '(cond, re, isPath) := x in cret (a :: cond, re, isPath)
  end.

(** [compilePurge], with the phase check of [Compile]. *)
Definition compilePurge (args : list Arg) (pos : Pos) : cm purgeRule :=
  match args with
  | w :: cond =>
    if negb (isTok (Raw w) "when") then fail pos "purge requires `when <condition>`"
    else
      x <~ cutRegex cond;
      let '(cond, re, isPath) := x in
      sc <~ requiredScope cond pos;
      cret (mkPurge sc re isPath)
  | [] => fail pos "purge requires `when <condition>`"
  end.

(** [compileRoute], with the phase check of [Compile]. *)
Definition compileRoute (args : list Arg) (pos : Pos) (upstreams : gset bytes) : cm routeRule :=
  match findArg args "->" with
  | None => fail pos "route requires `@matcher -> UPSTREAM`"
  | Some arrow =>
    match args !! S arrow with
    | None => fail pos "route requires `@matcher -> UPSTREAM`"
    | Some up =>
      if negb (bool_decide (upstreams = ∅)) && negb (bool_decide (Raw up ∈ upstreams))
      then fail (APos up) "route target is not a declared upstream/cluster"
      else sc <~ requestScope (take arrow args) pos; cret (mkRoute sc (Raw up))
    end
  end.

(** ** Selectors *)

Definition isSelectorTailKeyword (tok : bytes) : bool :=
  memBytes tok (map go ["ttl"; "from_header"; "hit_for_miss"; "grace"; "grace_from_header"; "max_stale"; "max_stale_from_header"; "status"; "->"]%string).

Fixpoint spanCodes (args : list Arg) : list Z * list Arg :=
  match args with
  | a :: r =>
    if isAllDigits (Raw a) then let '(cs, rest) := spanCodes r in (default int64_max (Atoi (Raw a)) :: cs, rest)
    else ([], args)
  | [] => ([], [])
  end.

(** The selectors but [resp_header]: the selector and the arguments after it. *)
Definition parsePlainSelector (args : list Arg) (pos : Pos) : cm (selectorKind * list Arg) :=
  match args with
  | [] => fail pos "missing selector"
  | first :: r =>
    if isTok (Raw first) "default" then cret (selDefault, r)
    else if isTok (Raw first) "status" then
      let '(isNot, r) := match r with a :: r' => if isTok (Raw a) "not" then (true, r') else (false, r) | [] => (false, r) end in
      let '(codes, rest) := spanCodes r in
      match codes with
      | [] => fail (APos first) "status selector needs at least one code"
      | _ => cret (if isNot then selStatusNotIn (list_to_set codes) else selStatusIn (list_to_set codes), rest)
      end
    else if isRef first then
      let '(refs, rest) := spanRefs args in
      ms <~ resolveRefs refs; cret (selScope ms, rest)
    else fail (APos first) "unknown selector"
  end.

(** [parseSelector]. *)
Definition parseSelector (args : list Arg) (pos : Pos) : cm (selector * list Arg) :=
  match args with
  | first :: r =>
    if isTok (Raw first) "resp_header" then
      match r with
      | n :: v :: rest =>
        if bool_decide (Raw n = []) || isSelectorTailKeyword (Raw v) then fail (APos first) "resp_header needs NAME VALUE"
        else
          m <~ compileMatcher [] (go "resp_header") [Raw n; Raw v] (APos first);
          match rest with
          | a :: _ =>
            if isTok (Raw a) "status" || isRef a then
              s <~ parsePlainSelector rest pos; cret (mkSel (fst s) (Some m), snd s)
            else cret (mkSel selDefault (Some m), rest)
          | [] => cret (mkSel selDefault (Some m), rest)
          end
      | _ => fail (APos first) "resp_header needs NAME VALUE"
      end
    else s <~ parsePlainSelector args pos; cret (mkSel (fst s) None, snd s)
  | [] => fail pos "missing selector"
  end.

(** ** Lifetimes and storage *)

Definition durArg (a : Arg) : cm Z := match parseDuration (Raw a) with Ok d => cret d | _ => fail (APos a) "bad duration" end.

(** The windows of a [cache_ttl] rule: grace, max_stale and the headers they come from. *)
Record ttlTail : Type := mkTail { tt_grace : Z; tt_maxStale : Z; tt_graceH : bytes; tt_maxStaleH : bytes }.

Fixpoint ttlTailLoop (tail : list Arg) (r : ttlTail) (seen : list bytes) : cm ttlTail :=
  match tail with
  | [] => cret r
  | kw :: tail' =>
    let once (r' : ttlTail) rest := if bool_decide (Raw kw ∈ seen) then fail (APos kw) "duplicate" else ttlTailLoop rest r' (Raw kw :: seen) in
    if isTok (Raw kw) "grace" || isTok (Raw kw) "max_stale" then
      match tail' with
      | [] => fail (APos kw) "needs a duration"
      | v :: rest =>
        d <~ durArg v;
        once (if isTok (Raw kw) "grace" then mkTail d (tt_maxStale r) (tt_graceH r) (tt_maxStaleH r)
              else mkTail (tt_grace r) d (tt_graceH r) (tt_maxStaleH r)) rest
      end
    else if isTok (Raw kw) "grace_from_header" || isTok (Raw kw) "max_stale_from_header" then
      match tail' with
      | [] => fail (APos kw) "needs a response-header name"
      | v :: rest =>
        if bool_decide (Raw v = []) then fail (APos kw) "needs a response-header name"
        else once (if isTok (Raw kw) "grace_from_header" then mkTail (tt_grace r) (tt_maxStale r) (Raw v) (tt_maxStaleH r)
                   else mkTail (tt_grace r) (tt_maxStale r) (tt_graceH r) (Raw v)) rest
      end
    else fail (APos kw) "expected grace or max_stale"
  end.

(** [parseTTLTail]. *)
Definition parseTTLTail (tail : list Arg) (pos : Pos) : cm ttlTail :=
  r <~ ttlTailLoop tail (mkTail 0 0 [] []) [];
  if bool_decide (tt_graceH r = []) && bool_decide (tt_maxStaleH r = []) && (0 <? tt_maxStale r) && (tt_maxStale r <? tt_grace r)
  then fail (from_option APos pos (head tail)) "max_stale must be >= grace"
  else cret r.

Definition isHFMForbidden (a : Arg) : bool :=
  isTok (Raw a) "max_stale" || isTok (Raw a) "max_stale_from_header" || isTok (Raw a) "grace_from_header".

(** [compileTTL]. *)
Definition compileTTL (args : list Arg) (pos : Pos) : cm ttlRule :=
  s <~ parseSelector args pos;
  let '(sel, rest) := s in
  match rest with
  | [] => fail pos "cache_ttl needs `ttl`, `from_header` or `hit_for_miss`"
  | act :: rest =>
    if isTok (Raw act) "from_header" then
      match rest with
      | hn :: tail =>
        if bool_decide (Raw hn = []) then fail (APos act) "from_header needs a response-header name"
        else t <~ parseTTLTail tail pos; cret (mkTTL sel 0 (tt_grace t) 0 false (tt_maxStale t) (Raw hn) (tt_graceH t) (tt_maxStaleH t))
      | [] => fail (APos act) "from_header needs a response-header name"
      end
    else if isTok (Raw act) "ttl" then
      match rest with
      | v :: tail =>
        d <~ durArg v; t <~ parseTTLTail tail pos;
        cret (mkTTL sel d (tt_grace t) 0 false (tt_maxStale t) [] (tt_graceH t) (tt_maxStaleH t))
      | [] => fail (APos act) "ttl needs a duration"
      end
    else if isTok (Raw act) "hit_for_miss" then
      match rest with
      | v :: tail =>
        d <~ durArg v;
        match List.find isHFMForbidden tail with
        | Some a => fail (APos a) "not valid on hit_for_miss"
        | None => cret (mkTTL sel 0 0 d true 0 [] [] [])
        end
      | [] => fail (APos act) "hit_for_miss needs a duration"
      end
    else fail (APos act) "expected `ttl` or `hit_for_miss`"
  end.

(** [compileStorage]. *)
Definition compileStorage (args : list Arg) (pos : Pos) : cm storageRule :=
  s <~ parseSelector args pos;
  match snd s with
  | [arrow; tier] =>
    if negb (isTok (Raw arrow) "->") then fail pos "storage needs `<selector> -> ram|disk`"
    else if isTok (Raw tier) "ram" || isTok (Raw tier) "disk" then cret (mkStorage (fst s) (Raw tier))
    else fail (APos tier) "storage tier must be ram or disk"
  | _ => fail pos "storage needs `<selector> -> ram|disk`"
  end.
(** ** Headers and bodies *)

(** [parseHeaderOps]; the fuel is the number of arguments. *)
Fixpoint headerOpsLoop (n : nat) (args : list Arg) (pos : Pos) : cm (list HeaderOp) :=
  match n, args with
  | _, [] => cret []
  | O, _ => fun _ => NoFuel
  | S n, a :: rest =>
    let next op rest := ops <~ headerOpsLoop n rest pos; cret (op :: ops) in
    match Raw a with
    | "-"%char :: ((_ :: _) as name) => next (mkHeaderOp OpRemove name [] false) rest
    | "+"%char :: ((_ :: _) as name) =>
      match rest with
      | [] => fail pos "header op needs a value"
      | v :: rest' =>
        if isTok name "cache_status" then next (mkHeaderOp OpCacheStatus (Raw v) [] false) rest'
        else if isTok name "cache_age" then next (mkHeaderOp OpCacheAge (Raw v) [] false) rest'
        else if isTok name "cache_key" then
          match rest' with
          | [] => next (mkHeaderOp OpCacheKey (Raw v) [] false) rest'
          | md :: rest'' =>
            if isTok (Raw md) "raw" then next (mkHeaderOp OpCacheKey (Raw v) (go "raw") false) rest''
            else fail pos "header +cache_key: unknown modifier"
          end
        else next (mkHeaderOp OpAppend name (Raw v) (hasPlaceholder (Raw v))) rest'
      end
    | tok =>
      match rest with
      | [] => fail pos "header op needs a value"
      | v :: rest' => next (mkHeaderOp OpSet tok (Raw v) (hasPlaceholder (Raw v))) rest'
      end
    end
  end.

Definition parseHeaderOps (args : list Arg) (pos : Pos) : cm (list HeaderOp) :=
  match args with
  | [] => fail pos "header directive needs at least one operation"
  | _ => headerOpsLoop (length args) args pos
  end.

(** [compileHeader]. *)
Definition compileHeader (args : list Arg) (pos : Pos) : cm headerRule :=
  match args with
  | [] => fail pos "header directive needs an operation"
  | _ =>
    sr <~ leadingRefScope args;
    sr' <~ match fst sr, args with
           | None, t :: a :: ((_ :: _) as rest) =>
             if isMatcherType (Raw t) then m <~ compileMatcher [] (Raw t) [Raw a] pos; cret (Some [m], rest) else cret sr
           | _, _ => cret sr
           end;
    ops <~ parseHeaderOps (snd sr') pos;
    cret (mkHeaderRule (fst sr') ops)
  end.

(** [compileReplace]. *)
Definition compileReplace (args : list Arg) (pos : Pos) : cm transformRule :=
  sr <~ leadingRefScope args;
  match snd sr with
  | [o; n] => if bool_decide (Raw o = []) then fail (APos o) "replace: OLD must be non-empty"
              else cret (mkTransform (fst sr) (mkReplacement (Raw o) (Raw n)))
  | _ => fail pos "replace needs `[@matcher...] OLD NEW`"
  end.

Definition encodeAlias (s : bytes) : option bytes :=
  if isTok s "gzip" then Some (go "gzip")
  else if isTok s "br" || isTok s "brotli" then Some (go "br")
  else if isTok s "zstd" then Some (go "zstd") else None.

Definition defaultEncodeCodecs : list bytes := map go ["zstd"; "br"; "gzip"]%string.
Definition defaultEncodeTypes : list bytes :=
  map go ["text/*"; "application/json"; "application/javascript"; "application/xml"; "application/xhtml+xml";
    "application/rss+xml"; "application/atom+xml"; "application/wasm"; "image/svg+xml"]%string.
Definition defaultEncodeMinLength : Z := 1024.

Fixpoint encodeCodecs (args : list Arg) (seen : list bytes) : cm (list bytes) :=
  match args with
  | [] => cret []
  | a :: r =>
    match encodeAlias (Raw a) with
    | None => fail (APos a) "encode: unknown codec"
    | Some wire =>
      if bool_decide (wire ∈ seen) then fail (APos a) "encode: duplicate codec"
      else cs <~ encodeCodecs r (wire :: seen); cret (wire :: cs)
    end
  end.

(** [compileEncode]. *)
Definition compileEncode (args : list Arg) (hasBlock : bool) (pos : Pos) : cm encodeRule :=
  if hasBlock then fail pos "encode block form is not supported in v1"
  else
    cs <~ match args with [] => cret defaultEncodeCodecs | _ => encodeCodecs args [] end;
    cret (mkEncodeRule cs defaultEncodeTypes defaultEncodeMinLength).

Fixpoint spanUntil (stops : list string) (args : list Arg) : list bytes * list Arg :=
  match args with
  | a :: r => if existsb (isTok (Raw a)) stops then ([], args) else let '(x, y) := spanUntil stops r in (Raw a :: x, y)
  | [] => ([], [])
  end.

(** The [methods] and [headers] lists; the fuel is the number of arguments. *)
Fixpoint corsLoop (n : nat) (args : list Arg) (ms hs : list bytes) : cm (list bytes * list bytes) :=
  match n, args with
  | _, [] => cret (ms, hs)
  | O, _ => fun _ => NoFuel
  | S n, a :: r =>
    if isTok (Raw a) "methods" then let '(l, rest) := spanUntil ["headers"%string] r in corsLoop n rest (ms ++ l) hs
    else if isTok (Raw a) "headers" then let '(l, rest) := spanUntil ["methods"%string] r in corsLoop n rest ms (hs ++ l)
    else fail (APos a) "unexpected cors token"
  end.

(** [compileCORS]. *)
Definition compileCORS (args : list Arg) (pos : Pos) : cm corsRule :=
  sr <~ leadingRefScope args;
  match snd sr with
  | [] => fail pos "cors needs `*` or an origin list"
  | a :: r =>
    let '(star, origins, rest) :=
      if isTok (Raw a) "*" then (true, [], r)
      else let '(l, rest) := spanUntil ["methods"; "headers"]%string (snd sr) in (false, l, rest) in
    mh <~ corsLoop (length rest) rest [] [];
    cret (mkCorsRule (fst sr) (mkCORS star origins (fst mh) (snd mh)))
  end.

(** ** Rewrites and redirects *)

Definition regexArg (a : Arg) (msg : string) : cm regexp :=
  match reCompile (Raw a) with Some re => cret re | None => fail (APos a) msg end.

(** [compileRewrite]. *)
Definition compileRewrite (args : list Arg) (pos : Pos) : cm rewriteRule :=
  sr <~ leadingRefScope args;
  let '(sc, args) := sr in
  _ <~ ensureNotResponsePhase sc pos;
  match args with
  | [] => fail pos "rewrite needs an operation"
  | op :: rest =>
    if isTok (Raw op) "path" then
      match rest with
      | [pat; repl] => re <~ regexArg pat "rewrite path: invalid regex"; cret (mkRewrite sc (rwPath re (Raw repl)))
      | _ => fail pos "rewrite path needs `PATTERN REPLACEMENT`"
      end
    else if isTok (Raw op) "strip_query" then
      match rest with
      | [] => fail pos "rewrite strip_query needs at least one param name"
      | _ => cret (mkRewrite sc (rwStripQuery (newNameGlobSet (rawArgs rest))))
      end
    else if isTok (Raw op) "set_query" then
      match rest with
      | [n; v] => if bool_decide (Raw n = []) then fail (APos n) "rewrite set_query: NAME must be non-empty"
                  else cret (mkRewrite sc (rwSetQuery (Raw n) (Raw v)))
      | _ => fail pos "rewrite set_query needs `NAME VALUE`"
      end
    else fail (APos op) "unknown rewrite operation"
  end.

Definition validRedirectCode (code : Z) : bool := existsb (Z.eqb code) [301; 302; 303; 307; 308].

Definition isRedirectCodeToken (raw : bytes) : bool :=
  match Atoi raw with Some n => validRedirectCode n | None => false end.

Definition redirectCode (a : Arg) : cm Z :=
  n <~ atoiArg a "redirect status must be a number";
  _ <~ guard (validRedirectCode n) (APos a) "redirect status must be 301/302/303/307/308";
  cret n.

(** The code, the target and the modifier of both [PATH_REGEX] and scoped forms. *)
Definition redirectTail (re : option regexp) (sc : option scope) (c t : Arg) (rest : list Arg) : cm redirectRule :=
  code <~ redirectCode c;
  _ <~ guard (nonEmpty (Raw t)) (APos t) "redirect: TARGET must be non-empty";
  _ <~ guard (bool_decide (redirectTargetUnsafeAuthorityToken (Raw t) = None)) (APos t) "redirect: open redirect";
  match rest with
  | [] => cret (mkRedirectRule re sc code (Raw t) false)
  | m :: rest' =>
    if negb (isTok (Raw m) "no_store") then fail (APos m) "redirect: unexpected extra argument(s)"
    else match rest' with
         | [] => cret (mkRedirectRule re sc code (Raw t) true)
         | x :: _ => fail (APos x) "redirect: unexpected extra argument(s)"
         end
  end.

(** [compileRedirectScoped]. *)
Definition compileRedirectScoped (args : list Arg) (pos : Pos) : cm redirectRule :=
  sr <~ leadingRefScope args;
  let '(sc, rest) := sr in
  _ <~ ensureNotResponsePhase sc pos;
  match rest with
  | c :: t :: tail =>
    match tail with
    | t' :: tail' =>
      if isRedirectCodeToken (Raw c) then redirectTail None sc c t tail
      else re <~ regexArg c "redirect: invalid path regex"; redirectTail (Some re) sc t t' tail'
    | [] => redirectTail None sc c t tail
    end
  | _ => fail pos "redirect scoped form needs `@scope CODE TARGET`"
  end.

(** [regexp.QuoteMeta]. *)
Definition QuoteMeta (s : bytes) : bytes :=
  flat_map (fun c => if existsb (Ascii.eqb c) (go "\.+*?()|[]{}^$") then ["\"%char; c] else [c]) s.

Definition redirectMapEntry (code : Z) (n : Node) : cm (list redirectRule) :=
  match n with
  | MatcherDef _ _ _ _ => cret []
  | Directive from args _ _ pos =>
    match args with
    | [arrow; to] =>
      if negb (isTok (Raw arrow) "->") then fail pos "redirect map entry must be `PFX -> NEWPFX`"
      else if bool_decide (from = []) || bool_decide (Raw to = []) then fail pos "redirect map entry needs a non-empty PFX and NEWPFX"
      else match reCompile (go "^" ++ QuoteMeta from ++ go "(/.*|)$") with
           | None => fail pos "redirect map"
           | Some re => cret [mkRedirectRule (Some re) None code (go "https://{host}" ++ Raw to ++ go "$1") false]
           end
    | _ => fail pos "redirect map entry must be `PFX -> NEWPFX`"
    end
  end.

(** [compileRedirectMap]. *)
Definition compileRedirectMap (args : list Arg) (block : list Node) (hasBlock : bool) (pos : Pos) : cm (list redirectRule) :=
  match args with
  | [] => fail pos "redirect map needs a status"
  | c :: r =>
    code <~ redirectCode c;
    match r with
    | m :: _ =>
      if negb (isTok (Raw m) "map") then fail pos "redirect map form is `redirect CODE map { ... }`"
      else if negb hasBlock || bool_decide (length block = 0%nat) then fail pos "redirect map needs a non-empty block"
      else rs <~ mapM (redirectMapEntry code) block; cret (concat rs)
    | [] => fail pos "redirect map form is `redirect CODE map { ... }`"
    end
  end.

(** [compileRedirect]. *)
Definition compileRedirect (args : list Arg) (block : list Node) (hasBlock : bool) (pos : Pos) : cm (list redirectRule) :=
  if hasBlock || match args with _ :: m :: _ => isTok (Raw m) "map" | _ => false end then compileRedirectMap args block hasBlock pos
  else if match args with a :: _ => isRef a | [] => false end then r <~ compileRedirectScoped args pos; cret [r]
  else match args with
       | p :: c :: t :: rest => re <~ regexArg p "redirect: invalid path regex"; r <~ redirectTail (Some re) None c t rest; cret [r]
       | _ => fail pos "redirect needs `PATH_REGEX CODE TARGET`"
       end.

(** ** Cache keys *)

Definition looksLikeKeySelector (a : Arg) : bool := isRef a || isTok (Raw a) "default" || isTok (Raw a) "status".

(** [compileCacheKeyRule]. *)
Definition compileCacheKeyRule (args : list Arg) (pos : Pos) (normalizers : gmap bytes normalizer)
    (classifiers : gmap bytes classifier) (tenant : bytes) (tenantR : option tenantResolver) : cm keyRule :=
  sr <~ match args with
        | a :: _ =>
          if looksLikeKeySelector a then
            s <~ parseSelector args pos;
            match sel_kind (fst s) with
            | selStatusIn _ | selStatusNotIn _ => fail pos "cache_key runs in the KEY phase; a `status` selector is response-phase only"
            | selScope sc => _ <~ ensureNotResponsePhase (Some sc) pos; cret s
            | selDefault => cret s
            end
          else cret (mkSel selDefault None, args)
        | [] => cret (mkSel selDefault None, args)
        end;
  match compileCacheKey normalizers classifiers tenant tenantR (rawArgs (snd sr)) with
  | Ok toks => cret (mkKeyRule (fst sr) toks pos)
  | Err _ => fail pos "cache_key"
  | NoFuel => fun _ => NoFuel
  end.

(** [validateKeyRules]. *)
Definition isDefaultSel (r : keyRule) : bool := match sel_kind (kr_sel r) with selDefault => true | _ => false end.

Definition validateKeyRules (rules : list keyRule) : bool :=
  negb (existsb (fun r => negb (isDefaultSel r)) rules && negb (existsb isDefaultSel rules)).
End Scopes.

(** ** Normalizers and tenants *)

Definition reservedNormalizerNames : list bytes := map go ["sticky"; "device"; "geo"; "tenant"]%string.

Definition normSource (s : bytes) : option normSourceKind :=
  if isTok s "header" then Some normHeader else if isTok s "cookie" then Some normCookie
  else if isTok s "query" then Some normQuery else None.

(** The values before the arrow of a [map] row. *)
Definition mapValues (args : list Arg) : list bytes :=
  List.filter nonEmpty (map TrimSpace (flat_map (fun a => SplitByte (Raw a) ",") args)).

(** One row of a [normalize] block over the source, the map and the default so far. *)
Definition normalizeStep (st : option (normSourceKind * bytes) * gmap bytes bytes * bytes) (n : Node)
    : cm (option (normSourceKind * bytes) * gmap bytes bytes * bytes) :=
  let '(src, mp, def) := st in
  match n with
  | MatcherDef _ _ _ _ => cret st
  | Directive name args _ _ pos =>
    if isTok name "from" then
      if bool_decide (is_Some src) then fail pos "normalize: duplicate `from`"
      else match args with
           | [k; s] => match normSource (Raw k) with
                       | Some ks => cret (Some (ks, Raw s), mp, def)
                       | None => fail (APos k) "normalize: `from` source must be header, cookie, or query"
                       end
           | _ => fail pos "normalize: `from header|cookie|query NAME`"
           end
    else if isTok name "map" then
      match findArg args "->", rev args with
      | Some arrow, bucket :: _ =>
        if (arrow <? 1)%nat || negb (S (S arrow) =? length args)%nat then fail pos "normalize: `map VALUE[,VALUE...] -> BUCKET`"
        else match mapValues (take arrow args) with
             | [] => fail pos "normalize: `map` needs at least one value before `->`"
             | vs => cret (src, fold_left (fun m v => <[v := Raw bucket]> m) vs mp, def)
             end
      | _, _ => fail pos "normalize: `map VALUE[,VALUE...] -> BUCKET`"
      end
    else if isTok name "default" then
      match args with [d] => cret (src, mp, Raw d) | _ => fail pos "normalize: `default BUCKET`" end
    else fail pos "normalize: unknown setting"
  end.

(** [compileNormalize]. *)
Definition compileNormalize (args : list Arg) (block : list Node) (hasBlock : bool) (pos : Pos) : cm normalizer :=
  match args with
  | [a] =>
    let name := Raw a in
    if memBytes name reservedNormalizerNames then fail pos "normalize name is reserved"
    else if negb hasBlock then fail pos "normalize needs a { } block"
    else
      st <~ foldM normalizeStep block (None, ∅, []);
      let '(src, mp, def) := st in
      match src with
      | None => fail pos "normalize needs a `from` source"
      | Some (k, s) =>
        if bool_decide (mp = ∅) && bool_decide (def = []) then fail pos "normalize needs at least one `map` or a `default`"
        else cret (mkNormalizer name k s mp def)
      end
  | _ => fail pos "normalize needs a name"
  end.

Definition tenantStep (st : option bytes * list tenantRule * bytes) (n : Node) : cm (option bytes * list tenantRule * bytes) :=
  let '(from, rules, def) := st in
  match n with
  | MatcherDef _ _ _ _ => cret st
  | Directive name args _ _ pos =>
    if isTok name "from" then
      if bool_decide (is_Some from) then fail pos "tenant: duplicate `from`"
      else match args with
           | [a] => if isTok (Raw a) "host" then cret (Some [], rules, def) else fail pos "tenant: `from host` or `from header NAME`"
           | [a; b] => if isTok (Raw a) "header" then cret (Some (Raw b), rules, def) else fail pos "tenant: `from host` or `from header NAME`"
           | _ => fail pos "tenant: `from host` or `from header NAME`"
           end
    else if isTok name "map" then
      match args with
      | [p; arrow; t] => if isTok (Raw arrow) "->" then cret (from, rules ++ [mkTenantRule (toLower (Raw p)) (Raw t)], def)
                         else fail pos "tenant: `map PATTERN -> NAME`"
      | _ => fail pos "tenant: `map PATTERN -> NAME`"
      end
    else if isTok name "default" then
      match args with [d] => cret (from, rules, Raw d) | _ => fail pos "tenant: `default NAME`" end
    else fail pos "tenant: unknown setting"
  end.

(** [compileTenantBlock]. *)
Definition compileTenantBlock (block : list Node) (pos : Pos) : cm tenantResolver :=
  st <~ foldM tenantStep block (None, [], []);
  let '(from, rules, def) := st in
  match from with
  | None => fail pos "tenant needs a `from host` or `from header NAME`"
  | Some f => if bool_decide (length rules = 0%nat) && bool_decide (def = []) then fail pos "tenant needs at least one `map` or a `default`"
              else cret (mkTenantResolver f rules def)
  end.
(** ** Classifiers ([classify.go]) *)

(** [classifyTokenName]. *)
Definition classifyTokenName (raw : bytes) : option bytes :=
  if HasPrefix raw (go "{") && HasSuffix raw (go "}") && (2 <? length raw)%nat then
    let name := take (length raw - 2) (drop 1 raw) in
    match IndexAny name (go "{}") with Some _ => None | None => Some name end
  else None.

(** [classifyArrowValue]. *)
Definition classifyArrowValue (args : list Arg) (pos : Pos) : cm bytes :=
  match findArg args "->" with
  | None => fail pos "classify needs `-> VALUE`"
  | Some arrow =>
    match drop (S arrow) args with
    | [v] => if bool_decide (Raw v = []) then fail (APos v) "classify value must be non-empty" else cret (Raw v)
    | _ => fail pos "classify needs exactly one literal VALUE after `->`"
    end
  end.

(** [compileConjunction]. *)
Definition compileConjunction (matchers : gmap bytes ptr) (args : list Arg) (pos : Pos) : cm (list ptr) :=
  match args with
  | a :: r =>
    if isRef a then
      out <~ mapM (fun a =>
               if negb (isRef a) then fail (APos a) "expected a @matcher reference in a classify `when` row"
               else match matchers !! TrimPrefix (Raw a) (go "@") with
                    | Some m => cret m
                    | None => fail (APos a) "undefined matcher"
                    end) (List.filter (fun a => negb (isAnd a)) args);
      _ <~ guard (negb (bool_decide (out = []))) pos "classify `when` needs at least one matcher";
      cret out
    else if isMatcherType (Raw a) then m <~ compileMatcher [] (Raw a) (rawArgs r) pos; cret [m]
    else fail pos "classify `when` expects @matcher refs or one inline matcher"
  | [] => fail pos "classify `when` needs at least one matcher before `->`"
  end.

(** [compileClassifyRow]. *)
Definition compileClassifyRow (matchers : gmap bytes ptr) (args : list Arg) (pos : Pos) : cm classifyRow :=
  match findArg args "->" with
  | None => fail pos "classify row needs `when <matchers> -> VALUE`"
  | Some arrow =>
    conj <~ compileConjunction matchers (take arrow args) pos;
    v <~ classifyArrowValue (drop arrow args) pos;
    _ <~ ensureNotResponsePhase (Some conj) pos;
    cret (mkRow conj v)
  end.

(** [compileDerivesFrom]: the cookies and whether they are forwarded. *)
Definition compileDerivesFrom (args : list Arg) (pos : Pos) : cm (list bytes * bool) :=
  match args with
  | src :: ((_ :: _) as rest) =>
    if negb (isTok (Raw src) "cookie") then fail pos "classify: derives_from needs `cookie NAME...`"
    else
      let forward := (2 <=? length rest)%nat &&
        match last rest with Some a => isTok (Raw a) "forward" || isTok (Raw a) "keep" | None => false end in
      let names := if forward then removelast rest else rest in
      match List.find (fun a => bool_decide (Raw a = [])) names with
      | Some a => fail (APos a) "classify: derives_from cookie name must be non-empty"
      | None => cret (rawArgs names, forward)
      end
  | _ => fail pos "classify: derives_from needs `cookie NAME...`"
  end.

(** A classifier under construction: rows, default, and the cookies stripped and forwarded. *)
Record classifyState : Type := mkCS {
  cs_rows : list classifyRow; cs_def : option bytes; cs_derives : list bytes; cs_forward : list bytes; cs_strip : list (bytes * Pos)
}.

Definition classifyStep (matchers : gmap bytes ptr) (st : classifyState) (n : Node) : cm classifyState :=
  let 'mkCS rows def der fwd strip := st in
  match n with
  | MatcherDef _ _ _ _ => cret st
  | Directive name args _ _ pos =>
    if isTok name "when" then r <~ compileClassifyRow matchers args pos; cret (mkCS (rows ++ [r]) def der fwd strip)
    else if isTok name "default" then
      _ <~ guard (negb (bool_decide (is_Some def))) pos "classify: duplicate `default`";
      v <~ classifyArrowValue args pos; cret (mkCS rows (Some v) der fwd strip)
    else if isTok name "derives_from" then
      cf <~ compileDerivesFrom args pos;
      let '(cookies, forward) := cf in
      cret (if forward then mkCS rows def (der ++ cookies) (fwd ++ cookies) strip else mkCS rows def (der ++ cookies) fwd (strip ++ map (fun c => (c, pos)) cookies))
    else fail pos "classify: unknown row"
  end.

(** No cookie is both stripped and forwarded; of several conflicts (the source ranges
    over a map) the first is reported. *)
Definition noCookieConflict (strip : list (bytes * Pos)) (fwd : list bytes) (msg : string) : cm unit :=
  match List.find (fun c => memBytes (fst c) fwd) strip with
  | Some c => fail (snd c) msg
  | None => cret tt
  end.

(** [compileClassify]. *)
Definition compileClassify (matchers : gmap bytes ptr) (args : list Arg) (block : list Node) (hasBlock : bool) (pos : Pos) : cm classifier :=
  match args with
  | [a] =>
    match classifyTokenName (Raw a) with
    | None => fail (APos a) "classify token must be a {NAME} placeholder"
    | Some name =>
      if memBytes name reservedNormalizerNames then fail pos "classify token is reserved"
      else if negb hasBlock then fail pos "classify needs a { } block"
      else
        st <~ foldM (classifyStep matchers) block (mkCS [] None [] [] []);
        _ <~ noCookieConflict (cs_strip st) (cs_forward st) "classify: cookie declared both strip and forward";
        _ <~ guard (negb (bool_decide (length (cs_rows st) = 0%nat))) pos "classify needs at least one `when ... -> VALUE` row";
        match cs_def st with
        | None => fail pos "classify needs a `default -> VALUE` row"
        | Some d => cret (mkClassifier name pos (cs_rows st) d (cs_derives st) (cs_forward st))
        end
    end
  | _ => fail pos "classify needs a token name"
  end.

(** [parseClassifyTest]: the token, the value and whether the test is negated. *)
Definition parseClassifyTest (s : bytes) (pos : Pos) : cm (bytes * bytes * bool) :=
  let op := match Index s (go "!=") with Some i => Some (i, true) | None => (fun i => (i, false)) <$> Index s (go "==") end in
  match op with
  | None => fail pos "classify matcher must be `{TOKEN}==VALUE` or `{TOKEN}!=VALUE`"
  | Some (i, negate) =>
    match classifyTokenName (take i s) with
    | None => fail pos "classify matcher left side must be a {TOKEN} placeholder"
    | Some name =>
      let right := drop (i + 2) s in
      if bool_decide (right = []) then fail pos "classify matcher needs a non-empty VALUE" else cret (name, right, negate)
    end
  end.

(** [compileClassifyMatcher]. *)
Definition compileClassifyMatcher (name : bytes) (args : list bytes) (pos : Pos) (classifiers : gmap bytes classifier) : cm ptr :=
  match args with
  | [s] =>
    t <~ parseClassifyTest s pos;
    let '(token, value, negate) := t in
    match classifiers !! token with
    | None => fail pos "classify matcher references unknown token"
    | Some cl => alloc (mkMatcher name pos (-1) (kindClassify cl value negate))
    end
  | _ => fail pos "classify matcher needs one `{TOKEN}==VALUE` (or `!=`) test"
  end.

(** A deferred unit ([classifyItem]). *)
Inductive classifyItem : Type :=
| itemDir (args : list Arg) (block : list Node) (hasBlock : bool) (pos : Pos)
| itemMatcher (name : bytes) (args : list Arg) (pos : Pos).

(** [classifyDirMatcherRefs]. *)
Definition dirMatcherRefs (block : list Node) : list bytes :=
  flat_map (fun n => match n with
    | Directive name args _ _ _ =>
      if isTok name "when" then map (fun a => TrimPrefix (Raw a) (go "@")) (List.filter isRef args) else []
    | _ => []
    end) block.

(** [classifyMatcherToken]. *)
Definition classifyMatcherToken (args : list Arg) : option bytes :=
  match args with
  | [a] =>
    let s := Raw a in
    match Index s (go "==") with
    | Some i => classifyTokenName (take i s)
    | None => match Index s (go "!=") with Some i => classifyTokenName (take i s) | None => None end
    end
  | _ => None
  end.

Definition itemProduces (it : classifyItem) : option bytes :=
  match it with
  | itemDir args _ _ _ => match args with [a] => classifyTokenName (Raw a) | _ => None end
  | itemMatcher _ _ _ => None
  end.

Section Classify.
Variables (normalizers : gmap bytes normalizer) (pendMatcher pendToken : list bytes).

(** Whether everything an item refers to is built, or will never be. *)
Definition itemReady (it : classifyItem) (ms : gmap bytes ptr) (cls : gmap bytes classifier) : bool :=
  match it with
  | itemDir _ block _ _ =>
    forallb (fun name => bool_decide (is_Some (ms !! name)) || negb (memBytes name pendMatcher)) (dirMatcherRefs block)
  | itemMatcher _ args _ =>
    match classifyMatcherToken args with
    | None => true
    | Some tok => bool_decide (is_Some (cls !! tok)) || negb (memBytes tok pendToken)
    end
  end.

Definition compileItem (it : classifyItem) (ms : gmap bytes ptr) (cls : gmap bytes classifier)
    : cm (gmap bytes ptr * gmap bytes classifier) :=
  match it with
  | itemDir args block hasBlock pos =>
    cl <~ compileClassify ms args block hasBlock pos;
    _ <~ guard (bool_decide (cls !! cl_name cl = None)) pos "duplicate classify";
    _ <~ guard (bool_decide (normalizers !! cl_name cl = None)) pos "classify token collides with a normalize of the same name";
    cret (ms, <[cl_name cl := cl]> cls)
  | itemMatcher name args pos =>
    m <~ compileClassifyMatcher name (rawArgs args) pos cls;
    cret (<[name := m]> ms, cls)
  end.

(** One item of a round: what is built, what is left, and whether there was progress. *)
Definition classifyRoundStep (st : gmap bytes ptr * gmap bytes classifier * list classifyItem * bool) (it : classifyItem)
    : cm (gmap bytes ptr * gmap bytes classifier * list classifyItem * bool) :=
  let '(ms, cls, next, progressed) := st in
  if itemReady it ms cls then x <~ compileItem it ms cls; cret (fst x, snd x, next, true)
  else cret (ms, cls, next ++ [it], progressed).

(** The rounds of [resolveClassifyDeps]; each but the last compiles an item. *)
Fixpoint classifyRounds (n : nat) (remaining : list classifyItem) (ms : gmap bytes ptr) (cls : gmap bytes classifier)
    : cm (gmap bytes ptr * gmap bytes classifier) :=
  match remaining with
  | [] => cret (ms, cls)
  | it :: _ =>
    match n with
    | O => fun _ => NoFuel
    | S n =>
      st <~ foldM classifyRoundStep remaining (ms, cls, [], false);
      let '(ms', cls', next, progressed) := st in
      if progressed then classifyRounds n next ms' cls'
      else fail (match it with itemDir _ _ _ pos | itemMatcher _ _ pos => pos end) "classify dependency cycle"
    end
  end.
End Classify.

(** [resolveClassifyDeps]. *)
Definition resolveClassifyDeps (normalizers : gmap bytes normalizer) (dirs mdefs : list classifyItem) (ms : gmap bytes ptr)
    : cm (gmap bytes ptr * gmap bytes classifier) :=
  classifyRounds normalizers (omap (fun it => match it with itemMatcher n _ _ => Some n | _ => None end) mdefs)
    (omap itemProduces dirs) (length (dirs ++ mdefs)) (dirs ++ mdefs) ms ∅.

(** One definition of [resolveAllMatchers]. *)
Definition compileAll (ms : gmap bytes ptr) (def : bytes * list Arg * Pos) : cm (gmap bytes ptr) :=
  let '(name, args, pos) := def in
  _ <~ guard (negb (bool_decide (length args = 0%nat))) pos "all matcher needs at least one @matcher reference";
  terms <~ mapM (fun a =>
    match parseSecRef a with
    | None => fail (APos a) "all matcher: expected a @matcher reference (optionally !-negated)"
    | Some (n, negate) =>
      match ms !! n with
      | None => fail (APos a) "undefined matcher"
      | Some sub =>
        k <~ kindOf sub;
        _ <~ guard (match k with Some (kindAll _) => false | _ => true end) (APos a) "all matcher cannot reference another all matcher";
        _ <~ guard (requestPhase_ok k) (APos a) "all matcher cannot reference a response-phase matcher";
        cret (mkTerm sub negate)
      end
    end) args;
  m <~ alloc (mkMatcher name pos (-1) (kindAll terms));
  cret (<[name := m]> ms).

(** ** The edge block ([edge.go]) *)

Definition validEdgeTier (t : bytes) : bool := memBytes t (map go ["local"; "distribute"; "skip"]%string).

(** [validateBypassPattern]. *)
Definition validateBypassPattern (p : bytes) : bool :=
  HasPrefix p (go "/") && negb (isTok p "/") && negb (isTok p "/*") &&
  match CountByte p "*" with
  | O => true
  | 1%nat => HasSuffix p (go "*")
  | _ => false
  end.

Definition sizeUnits : list (string * Z) :=
  [("kib", 2 ^ 10); ("mib", 2 ^ 20); ("gib", 2 ^ 30); ("tib", 2 ^ 40); ("pib", 2 ^ 50);
   ("kb", 10 ^ 3); ("mb", 10 ^ 6); ("gb", 10 ^ 9); ("tb", 10 ^ 12); ("pb", 10 ^ 15); ("b", 1)]%string.

Definition flt0 (f : float64) : bool := match SFcompare f (S754_zero false) with Some Lt => true | _ => false end.

(** [parseSize]. *)
Definition parseSize (s : bytes) : option Z :=
  let raw := TrimSpace s in
  if bool_decide (raw = []) then None
  else
    let lower := toLower raw in
    let '(mult, numPart) :=
      match List.find (fun u => HasSuffix lower (go (fst u))) sizeUnits with
      | Some (suffix, mult) => (mult, TrimSpace (take (length lower - length (go suffix)) lower))
      | None => (1, lower)
      end in
    if bool_decide (numPart = []) then None
    else match parseFloat numPart with
         | None => None
         | Some n => if flt0 n then None else Some (f_to_int64 (fmul n (f_of_Z mult)))
         end.

Definition defaultKVMaxBytes : Z := 2 ^ 20.

Definition edgeOneArg (args : list Arg) (pos : Pos) : cm bytes :=
  match args with [a] => cret (Raw a) | _ => fail pos "edge: setting needs exactly one value" end.

Definition edgeStep (matchers : gmap bytes ptr) (e : edgeConfig) (n : Node) : cm edgeConfig :=
  let 'mkEdge acc zone wk routes kv def pols ttl mx bp pats := e in
  match n with
  | MatcherDef _ _ _ _ => cret e
  | Directive name args _ _ pos =>
    if isTok name "account" then v <~ edgeOneArg args pos; cret (mkEdge v zone wk routes kv def pols ttl mx bp pats)
    else if isTok name "zone" then v <~ edgeOneArg args pos; cret (mkEdge acc v wk routes kv def pols ttl mx bp pats)
    else if isTok name "worker" then v <~ edgeOneArg args pos; cret (mkEdge acc zone v routes kv def pols ttl mx bp pats)
    else if isTok name "kv" then v <~ edgeOneArg args pos; cret (mkEdge acc zone wk routes v def pols ttl mx bp pats)
    else if isTok name "route" then
      match args with
      | [] => fail pos "edge: `route PATTERN...` needs at least one route pattern"
      | _ => cret (mkEdge acc zone wk (routes ++ rawArgs args) kv def pols ttl mx bp pats)
      end
    else if isTok name "default" then
      v <~ edgeOneArg args pos;
      if validEdgeTier v then cret (mkEdge acc zone wk routes kv v pols ttl mx bp pats)
      else fail pos "edge default tier must be local, distribute, or skip"
    else if isTok name "kv_ttl" then
      v <~ edgeOneArg args pos;
      match parseDuration v with
      | Ok d => if d <=? 0 then fail pos "edge: kv_ttl must be positive" else cret (mkEdge acc zone wk routes kv def pols d mx bp pats)
      | _ => fail pos "edge: kv_ttl is not a valid duration"
      end
    else if isTok name "kv_max_bytes" then
      v <~ edgeOneArg args pos;
      match parseSize v with
      | Some m => if m <=? 0 then fail pos "edge: kv_max_bytes must be positive" else cret (mkEdge acc zone wk routes kv def pols ttl m bp pats)
      | None => fail pos "edge: kv_max_bytes is not a valid size"
      end
    else if isTok name "bypass_passes" then
      match args with [] => cret (mkEdge acc zone wk routes kv def pols ttl mx true pats) | _ => fail pos "edge: `bypass_passes` takes no arguments" end
    else if isTok name "bypass" then
      match args with
      | [] => fail pos "edge: `bypass PATTERN...` needs at least one path pattern"
      | _ => if forallb validateBypassPattern (rawArgs args) then cret (mkEdge acc zone wk routes kv def pols ttl mx bp (pats ++ rawArgs args))
             else fail pos "edge: `bypass`"
      end
    else if isTok name "distribute" || isTok name "local" || isTok name "skip" then
      sc <~ parseScopeAll matchers args pos;
      _ <~ guard (bool_decide (is_Some sc)) pos "edge tier needs a @matcher scope";
      cret (mkEdge acc zone wk routes kv def (pols ++ [mkEdgeTier sc name]) ttl mx bp pats)
    else fail pos "edge: unknown setting"
  end.

(** [compileEdgeBlock]. *)
Definition compileEdgeBlock (matchers : gmap bytes ptr) (block : list Node) (hasBlock : bool) (pos : Pos) : cm edgeConfig :=
  if negb hasBlock then fail pos "edge needs a `{ ... }` block"
  else
    e <~ foldM (edgeStep matchers) block (mkEdge [] [] [] [] [] [] [] 0 0 false []);
    let 'mkEdge acc zone wk routes kv def pols ttl mx bp pats := e in
    cret (mkEdge acc zone wk routes kv (if bool_decide (def = []) then go "local" else def) pols ttl
            (if mx =? 0 then defaultKVMaxBytes else mx) bp pats).
(** ** The first pass *)

Fixpoint firstCookie (args : list Arg) : option bytes :=
  match args with
  | a :: ((b :: _) as r) => if isTok (Raw a) "cookie" then Some (Raw b) else firstCookie r
  | _ => None
  end.

(** [stickyCookieOf]. *)
Definition stickyCookieOf (block : list Node) : bytes :=
  default [] (head (omap (fun n =>
    match n with
    | Directive name args _ _ _ => if isTok name "sticky" then firstCookie args else None
    | _ => None
    end) block)).

Record pass1 : Type := mkPass1 {
  s_matchers : gmap bytes ptr;
  s_normalizers : gmap bytes normalizer;
  s_upstreams : gset bytes;
  s_sticky : bytes;
  s_tenant : bytes;
  s_tenantR : option tenantResolver;
  s_classifyDirs : list classifyItem;
  s_classifyMatchers : list classifyItem;
  s_allMatchers : list (bytes * list Arg * Pos)
}.

(** One node of the first pass of [Compile]. *)
Definition pass1Step (st : pass1) (n : Node) : cm pass1 :=
  let 'mkPass1 ms nz ups sticky ten tenR cd cmd am := st in
  match n with
  | MatcherDef name typ args pos =>
    if bool_decide (is_Some (ms !! name)) then fail pos "duplicate matcher"
    else if isTok typ "classify" then cret (mkPass1 ms nz ups sticky ten tenR cd (cmd ++ [itemMatcher name args pos]) am)
    else if isTok typ "all" then cret (mkPass1 ms nz ups sticky ten tenR cd cmd (am ++ [(name, args, pos)]))
    else m <~ compileMatcher name typ (rawArgs args) pos; cret (mkPass1 (<[name := m]> ms) nz ups sticky ten tenR cd cmd am)
  | Directive name args block hasBlock pos =>
    if isTok name "upstream" || isTok name "cluster" then
      cret (mkPass1 ms nz (match args with a :: _ => {[Raw a]} ∪ ups | [] => ups end)
              (if isTok name "upstream" && bool_decide (sticky = []) then stickyCookieOf block else sticky) ten tenR cd cmd am)
    else if isTok name "normalize" then
      nm <~ compileNormalize args block hasBlock pos;
      _ <~ guard (bool_decide (nz !! nz_name nm = None)) pos "duplicate normalize";
      cret (mkPass1 ms (<[nz_name nm := nm]> nz) ups sticky ten tenR cd cmd am)
    else if isTok name "classify" then
      cret (mkPass1 ms nz ups sticky ten tenR (cd ++ [itemDir args block hasBlock pos]) cmd am)
    else if isTok name "tenant" then
      if hasBlock then
        _ <~ guard (negb (bool_decide (is_Some tenR))) pos "only one tenant block allowed per site";
        tr <~ compileTenantBlock block pos; cret (mkPass1 ms nz ups sticky ten (Some tr) cd cmd am)
      else match args with
           | [a] => cret (mkPass1 ms nz ups sticky (Raw a) tenR cd cmd am)
           | _ => fail pos "tenant needs exactly one name"
           end
    else cret st
  end.

(** ** The second pass *)

(** What a directive contributes to the pipeline. *)
Inductive item : Type :=
| iRespond (r : respondRule)
| iOnError (r : onErrorRule)
| iRedirect (rs : list redirectRule)
| iPurge (r : purgeRule)
| iRoute (r : routeRule)
| iPass (sc : option scope)
| iUpgrade (sc : option scope)
| iCredentialed (sc : option scope)
| iRewrite (r : rewriteRule)
| iAllow (r : secRule)
| iDeny (r : secRule)
| iRateLimit (r : rateLimitRule)
| iMonitor (on : bool)
| iKey (r : keyRule)
| iTTL (r : ttlRule)
| iUnsafe
| iIgnoreRevalidation
| iStorage (r : storageRule)
| iCookieAllow (names : nameGlobSet)
| iStrip (sc : option scope)
| iCors (r : corsRule)
| iReplace (r : transformRule)
| iEncode (r : encodeRule)
| iEdge (e : edgeConfig)
| iReqHeader (r : headerRule)
| iRespHeader (r : headerRule)
| iNone.

Definition setupDirectives : list bytes :=
  map go ["tls"; "cache"; "upstream"; "cluster"; "origin"; "lb"; "sticky"; "device_detect"; "geo"; "normalize"; "tenant"; "classify"]%string.

Definition globalOnlyDirectives : list bytes :=
  map go ["server"; "admin"; "access_log"; "strict_host"; "security"; "proxy_protocol"]%string.

(** [DefaultDirectives]. *)
Definition knownDirectives : list bytes :=
  map go ["tls"; "cache"; "upstream"; "cluster"; "origin"; "pass"; "upgrade"; "cache_key"; "cache_ttl"; "cache_unsafe";
    "cache_credentialed"; "client_cache_control"; "storage"; "lb"; "sticky"; "host_header"; "sni"; "http_reuse";
    "tls_insecure"; "ca_file"; "alpn"; "resolve"; "header"; "strip_cookies"; "cookie_allow"; "route"; "rewrite";
    "respond"; "redirect"; "purge"; "cors"; "import"; "device_detect"; "geo"; "trust_proxy"; "normalize"; "tenant";
    "replace"; "encode"; "classify"; "edge"; "access_log"; "strict_host"; "admin"; "proxy_protocol"; "security";
    "server"; "allow"; "deny"; "block"; "monitor"; "rate_limit"]%string.

(** The directives after which [header] acts on the response. *)
Definition marksKey (name : bytes) : bool :=
  memBytes name (map go ["cache_key"; "cache_ttl"; "storage"; "strip_cookies"; "cors"; "replace"; "encode"]%string).

Section Pass2.
Variables (ms : gmap bytes ptr) (nz : gmap bytes normalizer) (cls : gmap bytes classifier)
  (ups : gset bytes) (ten : bytes) (tenR : option tenantResolver).

(** A directive of the second pass of [Compile], with those compiled before it. *)
Definition compileDirective (pastKey : bool) (before : list item) (name : bytes) (args : list Arg) (block : list Node)
    (hasBlock : bool) (pos : Pos) : cm item :=
  if isTok name "import" then fail pos "unresolved import; call SpliceImports before Compile"
  else if memBytes name setupDirectives then cret iNone
  else if isTok name "respond" then
    match args with
    | a :: rest =>
      if isTok (Raw a) "on_error" then r <~ compileOnError ms rest pos; cret (iOnError r)
      else r <~ compileRespond ms args pos; cret (iRespond r)
    | [] => r <~ compileRespond ms args pos; cret (iRespond r)
    end
  else if isTok name "redirect" then rs <~ compileRedirect ms args block hasBlock pos; cret (iRedirect rs)
  else if isTok name "purge" then r <~ compilePurge ms args pos; cret (iPurge r)
  else if isTok name "route" then r <~ compileRoute ms args pos ups; cret (iRoute r)
  else if isTok name "pass" then sc <~ requiredScope ms args pos; cret (iPass sc)
  else if isTok name "upgrade" then sc <~ requiredScope ms args pos; cret (iUpgrade sc)
  else if isTok name "cache_credentialed" then sc <~ requiredScope ms args pos; cret (iCredentialed sc)
  else if isTok name "rewrite" then r <~ compileRewrite ms args pos; cret (iRewrite r)
  else if isTok name "allow" then r <~ compileSecurityRule ms args pos; cret (iAllow r)
  else if isTok name "deny" || isTok name "block" then r <~ compileSecurityRule ms args pos; cret (iDeny r)
  else if isTok name "rate_limit" then
    let id := Z.of_nat (length (List.filter (fun i => match i with iRateLimit _ => true | _ => false end) before)) in
    r <~ compileRateLimit ms args pos id; cret (iRateLimit r)
  else if isTok name "monitor" then on <~ compileMonitorToggle args pos; cret (iMonitor on)
  else if isTok name "cache_key" then r <~ compileCacheKeyRule ms args pos nz cls ten tenR; cret (iKey r)
  else if isTok name "cache_ttl" then r <~ compileTTL ms args pos; cret (iTTL r)
  else if isTok name "cache_unsafe" then
    match args with [] => cret iUnsafe | _ => fail pos "cache_unsafe takes no arguments" end
  else if isTok name "client_cache_control" then
    match args with
    | [a] => if isTok (Raw a) "ignore" then cret iIgnoreRevalidation else fail pos "client_cache_control takes exactly one value: `ignore`"
    | _ => fail pos "client_cache_control takes exactly one value: `ignore`"
    end
  else if isTok name "storage" then r <~ compileStorage ms args pos; cret (iStorage r)
  else if isTok name "cookie_allow" then
    if hasBlock then fail pos "cookie_allow takes a cookie-name list, not a block"
    else cret (iCookieAllow (newNameGlobSet (rawArgs args)))
  else if isTok name "strip_cookies" then sc <~ parseScopeAll ms args pos; cret (iStrip sc)
  else if isTok name "cors" then
    r <~ compileCORS ms args pos;
    _ <~ guard (negb (existsb (fun i => match i with iCors _ => true | _ => false end) before)) pos "only one cors directive allowed per site";
    cret (iCors r)
  else if isTok name "replace" then r <~ compileReplace ms args pos; cret (iReplace r)
  else if isTok name "encode" then
    r <~ compileEncode args hasBlock pos;
    _ <~ guard (negb (existsb (fun i => match i with iEncode _ => true | _ => false end) before)) pos "only one encode directive allowed per site";
    cret (iEncode r)
  else if isTok name "edge" then e <~ compileEdgeBlock ms block hasBlock pos; cret (iEdge e)
  else if isTok name "header" then
    r <~ compileHeader ms args pos;
    if pastKey then cret (iRespHeader r)
    else _ <~ ensureNotResponsePhase (hr_scope r) pos; cret (iReqHeader r)
  else if memBytes name globalOnlyDirectives then fail pos "is a global-only block; move it to the top-level { ... } options block"
  else if negb (memBytes name knownDirectives) then fail pos "unknown directive"
  else cret iNone.

(** The second pass: whether a key-phase directive was seen, and the items so far. *)
Definition pass2Step (st : bool * list item) (n : Node) : cm (bool * list item) :=
  let '(pastKey, items) := st in
  match n with
  | MatcherDef _ _ _ _ => cret st
  | Directive name args block hasBlock pos =>
    i <~ compileDirective pastKey items name args block hasBlock pos;
    cret (pastKey || marksKey name, items ++ [i])
  end.
End Pass2.

(** The pipeline with the compiled items, before its matchers are indexed. *)
Definition assemble (site : Site) (ms : gmap bytes ptr) (cls : gmap bytes classifier) (st : pass1) (items : list item)
    (dc : Classifier) (h : heap) : Pipeline :=
  let '(ts, canon) := siteHosts (Addresses site) in
  mkPipeline (Addresses site) ts canon h ms (s_normalizers st) cls 0
    (omap (fun i => match i with iRespond r => Some r | _ => None end) items)
    (omap (fun i => match i with iOnError r => Some r | _ => None end) items)
    (flat_map (fun i => match i with iRedirect rs => rs | _ => [] end) items)
    (omap (fun i => match i with iPurge r => Some r | _ => None end) items)
    (omap (fun i => match i with iRoute r => Some r | _ => None end) items)
    (omap (fun i => match i with iPass sc => Some sc | _ => None end) items)
    (omap (fun i => match i with iUpgrade sc => Some sc | _ => None end) items)
    (omap (fun i => match i with iCredentialed sc => Some sc | _ => None end) items)
    (omap (fun i => match i with iReqHeader r => Some r | _ => None end) items)
    (omap (fun i => match i with iRewrite r => Some r | _ => None end) items)
    (omap (fun i => match i with iAllow r => Some r | _ => None end) items)
    (omap (fun i => match i with iDeny r => Some r | _ => None end) items)
    (omap (fun i => match i with iRateLimit r => Some r | _ => None end) items)
    (default false (last (omap (fun i => match i with iMonitor on => Some on | _ => None end) items)))
    (omap (fun i => match i with iKey r => Some r | _ => None end) items)
    (s_sticky st) [] (s_tenant st) (s_tenantR st)
    (omap (fun i => match i with iTTL r => Some r | _ => None end) items)
    (omap (fun i => match i with iStorage r => Some r | _ => None end) items)
    (existsb (fun i => match i with iUnsafe => true | _ => false end) items)
    (existsb (fun i => match i with iIgnoreRevalidation => true | _ => false end) items)
    (last (omap (fun i => match i with iCookieAllow names => Some names | _ => None end) items))
    (omap (fun i => match i with iRespHeader r => Some r | _ => None end) items)
    (omap (fun i => match i with iStrip sc => Some sc | _ => None end) items)
    (last (omap (fun i => match i with iCors r => Some r | _ => None end) items))
    (omap (fun i => match i with iReplace r => Some r | _ => None end) items)
    (last (omap (fun i => match i with iEncode r => Some r | _ => None end) items))
    (last (omap (fun i => match i with iEdge e => Some e | _ => None end) items))
    dc.

(** ** Checks of the whole site *)

(** The matchers [computeNeedsPoolHealth] and [validateUpstreamHealthy] look at. *)
Definition healthRoots (p : Pipeline) : list ptr :=
  map snd (map_to_list (p_matchers p)) ++ concat (allScopes p)
  ++ flat_map (fun r => map t_m (sr_terms r)) (allSecRules p)
  ++ flat_map (fun r => map t_m (default [] (rs_terms r))) (respondRules p)
  ++ flat_map (fun c => classifier_refs (snd c)) (map_to_list (p_classifiers p)).

(** The pool names of an [upstream_healthy] matcher. *)
Definition healthyPools (m : matcher) : option (list bytes) :=
  match m_kind m with kindUpstreamHealthy pools => Some pools | _ => None end.

(** [validateUpstreamHealthy]: the first matcher with an undeclared pool. *)
Definition validateUpstreamHealthy (p : Pipeline) (ups : gset bytes) : option matcher :=
  if bool_decide (ups = ∅) then None
  else List.find (fun m => match healthyPools m with
                           | Some pools => negb (forallb (fun name => bool_decide (name ∈ ups)) pools)
                           | None => false
                           end) (omap (fun q => p_heap p !! q) (healthRoots p)).

(** [computeNeedsPoolHealth]. *)
Definition computeNeedsPoolHealth (p : Pipeline) : bool :=
  existsb (fun m => bool_decide (is_Some (healthyPools m))) (omap (fun q => p_heap p !! q) (healthRoots p)).

(** [deliverTemplateReferencesToken]. *)
Definition deliverTemplateReferencesToken (p : Pipeline) (needles : list string) : bool :=
  let hit s := existsb (fun n => Contains s (go n)) needles in
  existsb (fun r => existsb (fun o => hit (ho_value o)) (hr_ops r)) (respHeaderRules p)
  || existsb (fun r => hit (rd_target r)) (redirectRules p).

Definition isGeoKeyToken (t : keyToken) : bool :=
  match t with tokGeo | tokGeoContinent | tokGeoRegion => true | _ => false end.

(** [computeUsesGeo]. *)
Definition computeUsesGeo (p : Pipeline) : bool :=
  existsb (fun r => existsb isGeoKeyToken (kr_toks r)) (keyRules p)
  || deliverTemplateReferencesToken p ["{geo}"; "{geo.continent}"; "{geo.region}"]%string
  || existsb (fun m => match m_kind m with kindGeo _ _ => true | _ => false end)
       (omap (fun q => p_heap p !! q)
          (map snd (map_to_list (p_matchers p)) ++ concat (allScopes p)
           ++ flat_map (fun c => classifier_refs (snd c)) (map_to_list (p_classifiers p))
           ++ flat_map (fun r => map t_m (sr_terms r)) (allSecRules p))).

(** [UsesDeviceToken] and [UsesDeviceClassification]. *)
Definition UsesDeviceToken (p : Pipeline) : bool :=
  existsb (fun r => existsb (fun t => match t with tokDevice => true | _ => false end) (kr_toks r)) (keyRules p).

Definition UsesDeviceClassification (p : Pipeline) : bool :=
  UsesDeviceToken p || deliverTemplateReferencesToken p ["{device}"%string].

(** The cookies a recipe strips, with the position of their classifier, and those it forwards. *)
Definition derivedModes (toks : list keyToken) : list (bytes * Pos) * list bytes :=
  let pairs := flat_map (fun t => match t with tokClassify cl => map (fun c => (cl, c)) (derivesFrom cl) | _ => [] end) toks in
  (map (fun x => (snd x, cl_pos (fst x))) (List.filter (fun x => negb (isForwardCookie (fst x) (snd x))) pairs),
   map snd (List.filter (fun x => isForwardCookie (fst x) (snd x)) pairs)).

(** [checkDerivedCookieModeConflict]. *)
Definition checkDerivedCookieModeConflict (p : Pipeline) : cm unit :=
  _ <~ mapM (fun r => let '(strip, fwd) := derivedModes (kr_toks r) in
                      noCookieConflict strip fwd "cookie is declared both forward and strip within one cache_key recipe") (keyRules p);
  cret tt.

(** [checkCredentialedStripCookiesConflict]: a matcher in both kinds of scope. *)
Definition checkCredentialedStripCookiesConflict (p : Pipeline) : cm unit :=
  let cred := concat (omap id (credentialedRules p)) in
  match List.find (fun m => bool_decide (m ∈ cred)) (concat (omap id (stripRules p))) with
  | None => cret tt
  | Some m => fail (from_option m_pos (mkPos [] 0 0) (p_heap p !! m)) "strip_cookies and cache_credentialed both cover a matcher"
  end.

(** ** Compile *)

(** The two passes, with the deferred matchers between them. *)
Definition compileItems (site : Site) : cm (pass1 * gmap bytes ptr * gmap bytes classifier * list item) :=
  st <~ foldM pass1Step (s_body site) (mkPass1 ∅ ∅ ∅ [] [] None [] [] []);
  mc <~ resolveClassifyDeps (s_normalizers st) (s_classifyDirs st) (s_classifyMatchers st) (s_matchers st);
  ms <~ foldM compileAll (s_allMatchers st) (fst mc);
  r <~ foldM (pass2Step ms (s_normalizers st) (snd mc) (s_upstreams st) (s_tenant st) (s_tenantR st)) (s_body site) (false, []);
  cret (st, ms, snd mc, snd r).

(** [Compile]. *)
Definition Compile (site : Site) : outcome CompileError Pipeline :=
  match compileItems site [] with
  | Err e => Err e
  | NoFuel => NoFuel
  | Ok ((st, ms, cls, items), h) =>
    let p0 := assemble site ms cls st items (New_ [] [] []) h in
    if negb (validateKeyRules (keyRules p0)) then
      Err (mkCE (from_option kr_pos (s_pos site) (head (keyRules p0))) "a scoped cache_key needs a catch-all")
    else match validateUpstreamHealthy p0 (s_upstreams st) with
    | Some m => Err (mkCE (m_pos m) "upstream_healthy references a pool which is not a declared upstream/cluster")
    | None =>
      match FromSite (s_body site) with
      | Err e => Err (mkCE (fst e) "device_detect")
      | NoFuel => NoFuel
      | Ok dc =>
        let p := indexMatchers (assemble site ms cls st items dc h) in
        match (_ <~ checkDerivedCookieModeConflict p; checkCredentialedStripCookiesConflict p) (p_heap p) with
        | Ok _ => Ok p
        | Err e => Err e
        | NoFuel => NoFuel
        end
      end
    end
  end.
End Compile.
