(* ===== verification/CompileTypes.v ===== *)
(** * What a compiled site is made of

    A type system for the result of [Compile]: every matcher a rule refers to exists, a
    rule that is applied before the origin has answered refers only to matchers that do
    not read the response, and matchers refer only to earlier ones.  [okh] is the
    Hoare triple of the compile monad; the compilers are typed one by one. *)

From stdpp Require Import base strings pretty numbers gmap list.
From Stdlib Require Import Lia.
From S2P Require Import Prelude GoStrings Http Ast Netip Glob Host CookieJson Duration Request Matcher CacheKey Rules Template Eval Device Credentials Response Compile Parse.
Open Scope Z_scope.

(** ** Types *)

(** When a rule is applied: before the response is known, or at any time. *)
Inductive phase : Type := RequestPhase | AnyPhase.

Definition ptrOk (ph : phase) (h : heap) (q : ptr) : Prop :=
  exists m, h !! q = Some m /\ (ph = RequestPhase -> isResponsePhaseKind (m_kind m) = false).

Abbreviation ptrsOk ph h l := (Forall (ptrOk ph h) l).
Abbreviation scopeOk ph h sc := (Forall (ptrOk ph h) (default [] sc)).

(** A heap under construction: no slot is given, references go to earlier matchers that
    do not read the response. *)
Record heapOk (h : heap) : Prop := {
  ho_idx : Forall (fun m => m_idx m = -1) h;
  ho_below : refs_below h;
  ho_refs : forall p m, h !! p = Some m -> ptrsOk RequestPhase h (refs m)
}.

Definition sel_ptrs (s : selector) : list ptr :=
  match sel_respHeader s with Some m => [m] | None => [] end ++ match sel_kind s with selScope sc => sc | _ => [] end.

Definition tokenRefs (t : keyToken) : list ptr := match t with tokClassify cl => classifier_refs cl | _ => [] end.

(** The matchers of an item, and the phase it is applied in. *)
Definition itemPtrs (i : item) : list ptr :=
  match i with
  | iRespond r => map t_m (default [] (rs_terms r))
  | iOnError r => default [] (oe_scope r)
  | iRedirect rs => flat_map (fun r => default [] (rd_sc r)) rs
  | iPurge r => default [] (pu_guard r)
  | iRoute r => default [] (ro_scope r)
  | iPass sc | iUpgrade sc | iCredentialed sc | iStrip sc => default [] sc
  | iRewrite r => default [] (rw_scope r)
  | iAllow r | iDeny r => map t_m (sr_terms r)
  | iRateLimit r => default [] (rl_scope r)
  | iKey r => sel_ptrs (kr_sel r) ++ flat_map tokenRefs (kr_toks r)
  | iTTL r => sel_ptrs (tl_sel r)
  | iStorage r => sel_ptrs (sg_sel r)
  | iCors r => default [] (cr_scope r)
  | iReplace r => default [] (tf_scope r)
  | iEdge e => flat_map (fun r => default [] (et_scope r)) (ec_policies e)
  | iReqHeader r | iRespHeader r => default [] (hr_scope r)
  | iMonitor _ | iUnsafe | iIgnoreRevalidation | iCookieAllow _ | iEncode _ | iNone => []
  end.

Definition itemPhase (i : item) : phase :=
  match i with
  | iTTL _ | iStorage _ | iStrip _ | iCors _ | iReplace _ | iEdge _ | iRespHeader _ => AnyPhase
  | _ => RequestPhase
  end.

Abbreviation itemOk h i := (Forall (ptrOk (itemPhase i) h) (itemPtrs i)).

(** The matchers of a pipeline that are applied to requests alone. *)
Definition requestPtrs (p : Pipeline) : list ptr :=
  flat_map (fun r => map t_m (default [] (rs_terms r))) (respondRules p)
  ++ flat_map (fun r => default [] (oe_scope r)) (onErrorRules p)
  ++ flat_map (fun r => default [] (rd_sc r)) (redirectRules p)
  ++ flat_map (fun r => default [] (pu_guard r)) (purgeRules p)
  ++ flat_map (fun r => default [] (ro_scope r)) (routeRules p)
  ++ flat_map (default []) (passRules p) ++ flat_map (default []) (upgradeRules p)
  ++ flat_map (default []) (credentialedRules p)
  ++ flat_map (fun r => default [] (hr_scope r)) (reqHeaderRules p)
  ++ flat_map (fun r => default [] (rw_scope r)) (rewriteRules p)
  ++ flat_map (fun r => map t_m (sr_terms r)) (allowRules p ++ denyRules p)
  ++ flat_map (fun r => default [] (rl_scope r)) (rateLimitRules p)
  ++ flat_map (fun r => sel_ptrs (kr_sel r) ++ flat_map tokenRefs (kr_toks r)) (keyRules p).

(** The other matchers of the rules. *)
Definition responsePtrs (p : Pipeline) : list ptr :=
  flat_map (fun r => sel_ptrs (tl_sel r)) (ttlRules p) ++ flat_map (fun r => sel_ptrs (sg_sel r)) (storageRules p)
  ++ flat_map (default []) (stripRules p) ++ flat_map (fun r => default [] (hr_scope r)) (respHeaderRules p)
  ++ flat_map (fun r => default [] (tf_scope r)) (transformRules p)
  ++ match p_corsRule p with Some r => default [] (cr_scope r) | None => [] end
  ++ match p_edge p with Some e => flat_map (fun r => default [] (et_scope r)) (ec_policies e) | None => [] end.

Record typed (p : Pipeline) : Prop := {
  ty_heap : heap_wf (p_heap p);
  ty_refs : forall q m, p_heap p !! q = Some m -> ptrsOk RequestPhase (p_heap p) (refs m);
  ty_request : ptrsOk RequestPhase (p_heap p) (requestPtrs p);
  ty_response : ptrsOk AnyPhase (p_heap p) (responsePtrs p);
  ty_named : map_Forall (fun _ q => ptrOk AnyPhase (p_heap p) q) (p_matchers p);
  ty_classifiers : map_Forall (fun _ cl => ptrsOk RequestPhase (p_heap p) (classifier_refs cl)) (p_classifiers p);
  ty_slots : forall q m, p_heap p !! q = Some m -> m_idx m < Z.of_nat (numMatchers p);
  ty_default : (exists r, r ∈ keyRules p) -> exists r, r ∈ keyRules p /\ sel_kind (kr_sel r) = selDefault
}.

(** ** Triples *)

(** From a heap that is [heapOk], the compiler returns, extends the heap, keeps it
    [heapOk] and establishes [Q], or reports an error. *)
Definition okh {A : Type} (h : heap) (m : cm A) (Q : A -> heap -> Prop) : Prop :=
  heapOk h -> match m h with
              | Ok (a, h') => heapOk h' /\ h `prefix_of` h' /\ Q a h'
              | Err _ => True
              | NoFuel => False
              end.

(** Facts that survive allocation. *)
Class Mono (P : heap -> Prop) := mono : forall h h', h `prefix_of` h' -> P h -> P h'.

#[export] Instance ptrOk_mono ph q : Mono (fun h => ptrOk ph h q).
Proof. intros h h' Hp (m & Hm & H). exists m. split; [|done]. by eapply prefix_lookup_Some. Qed.

#[export] Instance Forall_mono {A : Type} (P : heap -> A -> Prop) l : (forall x, Mono (fun h => P h x)) -> Mono (fun h => Forall (P h) l).
Proof. intros H h h' Hp. apply List.Forall_impl. intros x. by apply (H x). Qed.

#[export] Instance map_Forall_mono {A : Type} (P : heap -> bytes -> A -> Prop) (l : gmap bytes A) :
  (forall k x, Mono (fun h => P h k x)) -> Mono (fun h => map_Forall (P h) l).
Proof. intros H h h' Hp Hl k x Hx. eapply (H k x); [done|]. by apply Hl. Qed.

#[export] Instance and_mono P Q : Mono P -> Mono Q -> Mono (fun h => P h /\ Q h).
Proof. intros HP HQ h h' Hp [? ?]. split; by eapply mono. Qed.

#[export] Instance impl_mono (A : Prop) P : Mono P -> Mono (fun h => A -> P h).
Proof. intros HP h h' Hp H a. by eapply mono, H. Qed.

#[export] Instance True_mono : Mono (fun _ => True).
Proof. by intros h h'. Qed.

Create HintDb cm discriminated.
#[export] Hint Constants Opaque : cm.

Lemma okh_ret {A : Type} h (a : A) (Q : A -> heap -> Prop) : (heapOk h -> Q a h) -> okh h (cret a) Q.
Proof. intros H Hh. split_and!; [done|done|by apply H]. Qed.

Lemma okh_fail {A : Type} h pos msg (Q : A -> heap -> Prop) : okh h (fail pos msg) Q.
Proof. done. Qed.

Lemma okh_bind {A B : Type} h (m : cm A) (f : A -> cm B) P Q :
  okh h m P -> (forall a h', h `prefix_of` h' -> P a h' -> okh h' (f a) Q) -> okh h (cbind m f) Q.
Proof.
  intros Hm Hf Hh. specialize (Hm Hh). unfold cbind. destruct (m h) as [[a h']|e|]; [|done..].
  destruct Hm as (Hh' & Hp & HP). specialize (Hf a h' Hp HP Hh'). destruct (f a h') as [[b h'']|e|]; [|done..].
  destruct Hf as (? & ? & ?). split_and!; [done|by etrans|done].
Qed.

Lemma okh_bind_ret {A B : Type} h (a : A) (f : A -> cm B) Q : okh h (f a) Q -> okh h (cbind (cret a) f) Q.
Proof. done. Qed.

Lemma okh_bind_fail {A B : Type} h pos msg (f : A -> cm B) Q : okh h (cbind (fail pos msg) f) Q.
Proof. done. Qed.

Lemma okh_assoc {A B C : Type} h (m : cm A) (f : A -> cm B) (g : B -> cm C) Q :
  okh h (cbind m (fun a => cbind (f a) g)) Q -> okh h (cbind (cbind m f) g) Q.
Proof.
  intros H Hh. specialize (H Hh). unfold cbind in *. by destruct (m h) as [[a h']|e|].
Qed.

Lemma okh_impl {A : Type} h (m : cm A) (P Q : A -> heap -> Prop) : okh h m P -> (forall a h', P a h' -> Q a h') -> okh h m Q.
Proof. intros H HPQ Hh. specialize (H Hh). destruct (m h) as [[a h']|e|]; [|done..]. naive_solver. Qed.

Lemma okh_mapM {A B : Type} h (f : A -> cm B) l (P : B -> heap -> Prop) : (forall y, Mono (P y)) ->
  (forall x h', x ∈ l -> h `prefix_of` h' -> okh h' (f x) P) -> okh h (mapM f l) (fun ys h' => Forall (fun y => P y h') ys).
Proof.
  intros Hm. revert h. induction l as [|x l IH]; intros h Hf; cbn [mapM]; [by apply okh_ret; intros _|].
  eapply okh_bind; [apply Hf; [by left|done]|]. intros y h' Hp Hy.
  eapply okh_bind; [apply IH; intros z h'' Hz Hp'; apply Hf; [by right|by etrans]|].
  intros ys h'' Hp' Hys. apply okh_ret. intros _. constructor; [|done]. by eapply mono.
Qed.

Lemma okh_mapM_each {A B : Type} h (f : A -> cm B) l (P : A -> heap -> Prop) : (forall x, Mono (P x)) ->
  (forall x h', okh h' (f x) (fun _ => P x)) -> okh h (mapM f l) (fun _ h' => Forall (fun x => P x h') l).
Proof.
  intros Hm Hf. revert h. induction l as [|x l IH]; intros h; cbn [mapM]; [by apply okh_ret; intros _|].
  eapply okh_bind; [apply Hf|]. intros y h' Hp Hy. eapply okh_bind; [apply IH|].
  intros ys h'' Hp' Hys. apply okh_ret. intros _. constructor; [|done]. by eapply mono.
Qed.

Lemma okh_foldM {A B : Type} h (f : B -> A -> cm B) l s (I : B -> heap -> Prop) : I s h ->
  (forall s x h', x ∈ l -> h `prefix_of` h' -> I s h' -> okh h' (f s x) I) -> okh h (foldM f l s) I.
Proof.
  revert h s. induction l as [|x l IH]; intros h s Hs Hf; cbn [foldM]; [by apply okh_ret; intros _|].
  eapply okh_bind; [apply Hf; [by left|done..]|]. intros s' h' Hp Hs'. apply IH; [done|].
  intros s'' y h'' Hy Hp'. apply Hf; [by right|by etrans].
Qed.

Lemma okh_nofuel {A : Type} h (Q : A -> heap -> Prop) : False -> okh h (fun _ => NoFuel) Q.
Proof. done. Qed.

Lemma okh_guard h b pos msg : okh h (guard b pos msg) (fun _ _ => b = true).
Proof. unfold guard. destruct b; [by apply okh_ret; intros _|done]. Qed.

Lemma okh_mapM_any {A B : Type} h (f : A -> cm B) l :
  (forall x h', okh h' (f x) (fun _ _ => True)) -> okh h (mapM f l) (fun _ _ => True).
Proof. intros H. eapply okh_impl; [apply (okh_mapM h f l (fun _ _ => True)); [intros ?; apply _|by intros]|done]. Qed.

Lemma okh_foldM_any {A B : Type} h (f : B -> A -> cm B) l s :
  (forall s x h', okh h' (f s x) (fun _ _ => True)) -> okh h (foldM f l s) (fun _ _ => True).
Proof. intros H. apply okh_foldM; [done|]. by intros. Qed.

#[export] Hint Resolve okh_guard : cm.
#[export] Hint Resolve okh_mapM_any okh_foldM_any | 50 : cm.

(** Carry the facts about the heap over an allocation. *)
Ltac cm_lift h h' Hp :=
  repeat match goal with
  | H : ?T |- _ =>
    lazymatch T with
    | h `prefix_of` h' => fail
    | heapOk h => clear H
    | context [h] => let P := eval pattern h in T in
                     lazymatch P with
                     | ?F _ => let H' := fresh in pose proof (mono (P := F) h h' Hp H) as H'; cbv beta in H'; clear H; rename H' into H
                     end
    end
  end; clear Hp; try clear h.

(** One step of a typing proof. *)
Ltac cm_step :=
  lazymatch goal with
  | |- okh _ (cret _) _ => apply okh_ret; intros _
  | |- okh _ (fail _ _) _ => apply okh_fail
  | |- okh _ (cbind (cret _) _) _ => apply okh_bind_ret
  | |- okh _ (cbind (fail _ _) _) _ => apply okh_bind_fail
  | |- okh _ (cbind (cbind _ _) _) _ => apply okh_assoc
  | |- okh _ (cbind (match ?x with _ => _ end) _) _ => destruct x eqn:?
  | |- okh ?h (cbind _ _) _ =>
    eapply okh_bind; [solve [eauto with cm]|];
    let a := fresh "a" in let h' := fresh "h" in let Hp := fresh "Hp" in let H := fresh "H" in
    intros a h' Hp H; cbv beta in H; cm_lift h h' Hp
  | |- okh _ (match ?x with _ => _ end) _ => destruct x eqn:?
  | |- okh _ _ _ => solve [eauto with cm]
  end.

Ltac cm_auto := repeat cm_step; eauto with cm;
  lazymatch goal with |- okh _ _ _ => idtac | _ => cbn; try match goal with E : fst ?a = _ |- context [fst ?a] => rewrite E end;
                                            try solve [repeat constructor; eauto with cm] end.

(** The lexer marks as references words that start with an at sign. *)
Definition marked (a : Arg) : Prop := AKind a = ArgMatcherRef -> HasPrefix (Raw a) (go "@") = true.

Abbreviation msOk h ms := (map_Forall (fun (_ : bytes) q => ptrOk AnyPhase h q) ms).
Abbreviation clsOk h cls := (map_Forall (fun (_ : bytes) cl => Forall (ptrOk RequestPhase h) (classifier_refs cl)) cls).

(** ** Matchers and scopes *)

Section Typing.
Context {U : Platform} {R : GoLib}.

Lemma ptrOk_any ph h q : ptrOk ph h q -> ptrOk AnyPhase h q.
Proof. intros (m & Hm & _). by exists m. Qed.

Lemma okh_alloc h m : ptrsOk RequestPhase h (refs m) -> m_idx m = -1 ->
  okh h (alloc m) (fun q h' => h' !! q = Some m).
Proof.
  intros Hr Hi [Hidx Hb Href]. cbn. split_and!.
  - split.
    + apply Forall_app. split; [done|]. by constructor.
    + intros p m' q [[_ Hp]|[-> <-]]%lookup_snoc_Some Hq; [by eapply Hb|].
      rewrite list.Forall_forall in Hr. apply Hr in Hq as (mq & Hq & _). apply lookup_lt_Some in Hq. lia.
    + intros p m' [[_ Hp]|[-> <-]]%lookup_snoc_Some.
      * eapply (mono (P := fun h => ptrsOk RequestPhase h (refs m'))); [by apply prefix_app_r|by eapply Href].
      * eapply (mono (P := fun h => ptrsOk RequestPhase h (refs m))); [by apply prefix_app_r|done].
  - by apply prefix_app_r.
  - by apply list_lookup_middle.
Qed.

(** The matchers of type keywords refer to no other. *)
Lemma compileKind_refs typ args k name pos i : compileKind typ args = inr k -> refs (mkMatcher name pos i k) = [].
Proof.
  unfold compileKind. intros E.
  repeat match type of E with
  | (match ?x with _ => _ end) = _ => destruct x; try discriminate
  | inr _ = inr _ => injection E as <-
  end; try done; unfold refs; cbn [m_kind]; by repeat case_match.
Qed.

Lemma okh_compileMatcher h name typ args pos : okh h (compileMatcher name typ args pos) (fun q h' => ptrOk AnyPhase h' q).
Proof.
  unfold compileMatcher. destruct (compileKind typ args) as [msg|k] eqn:E; [done|].
  eapply okh_impl; [apply okh_alloc; [by erewrite compileKind_refs|done]|]. intros q h' Hq. by exists (mkMatcher name pos (-1) k).
Qed.
Hint Resolve okh_compileMatcher : cm.

Section WithMatchers.
Variable ms : gmap bytes ptr.

Lemma okh_resolveRef h a : msOk h ms -> okh h (resolveRef ms a) (fun q h' => ptrOk AnyPhase h' q).
Proof. intros Hm. unfold resolveRef. cm_auto. Qed.

Lemma okh_resolveRefs h l : msOk h ms -> okh h (resolveRefs ms l) (fun qs h' => ptrsOk AnyPhase h' qs).
Proof.
  intros Hm. unfold resolveRefs. apply (okh_mapM h _ _ (fun q h => ptrOk AnyPhase h q)); [apply _|].
  intros x h' _ Hp. apply okh_resolveRef. by eapply (mono (P := fun h => msOk h ms)).
Qed.
Hint Resolve okh_resolveRef okh_resolveRefs : cm.

Lemma okh_leadingRefScope h args : msOk h ms ->
  okh h (leadingRefScope ms args) (fun r h' => scopeOk AnyPhase h' (fst r)).
Proof. intros Hm. unfold leadingRefScope. cm_auto. Qed.

Lemma okh_parseScopeAll h args pos : msOk h ms ->
  okh h (parseScopeAll ms args pos) (fun sc h' => scopeOk AnyPhase h' sc).
Proof. intros Hm. unfold parseScopeAll. cm_auto. Qed.
Hint Resolve okh_leadingRefScope okh_parseScopeAll : cm.

Lemma okh_kindOf h q : okh h (kindOf q) (fun k h' => requestPhase_ok k = true -> ptrOk RequestPhase h' q).
Proof.
  unfold kindOf, requestPhase_ok. intros Hh. split_and!; [done..|]. destruct (h !! q) as [x|] eqn:E; [|done]. cbn.
  intros Hk%negb_true_iff. by exists x.
Qed.
Hint Resolve okh_kindOf : cm.

Lemma okh_ensureRequest h m pos : okh h (ensureRequest m pos) (fun _ h' => ptrOk RequestPhase h' m).
Proof. unfold ensureRequest, guard. cm_step. destruct (requestPhase_ok a); [|done]. apply okh_ret. auto. Qed.
Hint Resolve okh_ensureRequest : cm.

Lemma okh_ensureNotResponsePhase h sc pos : okh h (ensureNotResponsePhase sc pos) (fun _ h' => scopeOk RequestPhase h' sc).
Proof.
  unfold ensureNotResponsePhase. eapply okh_bind; [apply (okh_mapM_each h _ _ (fun m h => ptrOk RequestPhase h m)); [apply _|auto with cm]|].
  intros a h' _ H. by apply okh_ret; intros _.
Qed.
Hint Resolve okh_ensureNotResponsePhase : cm.

Lemma okh_requestScope h args pos : msOk h ms -> okh h (requestScope ms args pos) (fun sc h' => scopeOk RequestPhase h' sc).
Proof. intros Hm. unfold requestScope. cm_auto. Qed.

Lemma okh_requiredScope h args pos : msOk h ms -> okh h (requiredScope ms args pos) (fun sc h' => scopeOk RequestPhase h' sc).
Proof. intros Hm. unfold requiredScope. cm_auto. Qed.
Hint Resolve okh_requestScope okh_requiredScope : cm.

Lemma okh_secTermOf h a : okh h (secTermOf ms a) (fun nt h' => ptrOk RequestPhase h' (t_m (snd nt))).
Proof. unfold secTermOf. cm_auto. Qed.

Lemma okh_secTerms h l : okh h (mapM (secTermOf ms) l) (fun nts h' => ptrsOk RequestPhase h' (map t_m (map snd nts))).
Proof.
  eapply okh_impl; [apply (okh_mapM h _ _ (fun nt h => ptrOk RequestPhase h (t_m (snd nt)))); [apply _|intros; apply okh_secTermOf]|].
  intros nts h' H. cbv beta in H. by rewrite map_map, Forall_map.
Qed.
Hint Resolve okh_secTermOf okh_secTerms : cm.

(** ** Directives *)

Lemma okh_compileSecurityRule h args pos : okh h (compileSecurityRule ms args pos) (fun r h' => ptrsOk RequestPhase h' (map t_m (sr_terms r))).
Proof. unfold compileSecurityRule. cm_auto. Qed.

Lemma okh_rateOptions h n l b k : (length l <= n)%nat -> okh h (rateOptions n l b k) (fun _ _ => True).
Proof.
  revert l b k. induction n as [|n IH]; intros l b k Hl; destruct l as [|a l]; cbn [rateOptions length] in *; try lia; cm_auto;
    apply IH; cbn [length] in *; lia.
Qed.

Lemma okh_cutBlock h args : okh h (cutBlock args) (fun _ _ => True).
Proof. unfold cutBlock. cm_auto. Qed.

Lemma okh_scopeName h sc : okh h (scopeName sc) (fun _ _ => True).
Proof. by intros Hh. Qed.
Hint Resolve okh_rateOptions okh_cutBlock okh_scopeName : cm.

Lemma okh_compileRateLimit h args pos id : msOk h ms -> okh h (compileRateLimit ms args pos id) (fun r h' => scopeOk RequestPhase h' (rl_scope r)).
Proof.
  intros Hm. unfold compileRateLimit. cm_auto.
Qed.

Lemma okh_atoiArg h a msg : okh h (atoiArg a msg) (fun _ _ => True).
Proof. unfold atoiArg. cm_auto. Qed.
Hint Resolve okh_atoiArg : cm.

Lemma okh_compileRespond h args pos : okh h (compileRespond ms args pos) (fun r h' => ptrsOk RequestPhase h' (map t_m (default [] (rs_terms r)))).
Proof. unfold compileRespond, compileScopedRespond. cm_auto. Qed.

Lemma okh_compileOnError h args pos : msOk h ms -> okh h (compileOnError ms args pos) (fun r h' => scopeOk RequestPhase h' (oe_scope r)).
Proof. intros Hm. unfold compileOnError. cm_auto. Qed.

Lemma okh_cutRegex h args : okh h (cutRegex args) (fun _ _ => True).
Proof. revert h. induction args as [|a r IH]; intros h; cbn [cutRegex]; cm_auto. Qed.
Hint Resolve okh_cutRegex : cm.

Lemma okh_compilePurge h args pos : msOk h ms -> okh h (compilePurge ms args pos) (fun r h' => scopeOk RequestPhase h' (pu_guard r)).
Proof. intros Hm. unfold compilePurge. cm_auto. Qed.

Lemma okh_compileRoute h args pos ups : msOk h ms -> okh h (compileRoute ms args pos ups) (fun r h' => scopeOk RequestPhase h' (ro_scope r)).
Proof. intros Hm. unfold compileRoute. cm_auto. Qed.

Lemma okh_parsePlainSelector h args pos : msOk h ms ->
  okh h (parsePlainSelector ms args pos) (fun s h' => ptrsOk AnyPhase h' (match fst s with selScope sc => sc | _ => [] end)).
Proof. intros Hm. unfold parsePlainSelector. cm_auto. destruct b; constructor. Qed.
Hint Resolve okh_parsePlainSelector : cm.


Lemma marked_selector a : marked a -> looksLikeKeySelector a = true -> isTok (Raw a) "resp_header" = false.
Proof.
  intros Ha Hl. apply not_true_iff_false. intros E%bool_decide_eq_true. unfold looksLikeKeySelector, isRef, isTok in Hl.
  rewrite E in Hl. cbn in Hl. rewrite orb_false_r in Hl. apply orb_true_iff in Hl as [Hl|Hl]; [|done].
  apply bool_decide_eq_true, Ha in Hl. by rewrite E in Hl.
Qed.

Lemma okh_parseSelector h args pos : msOk h ms ->
  okh h (parseSelector ms args pos) (fun s h' => ptrsOk AnyPhase h' (sel_ptrs (fst s))).
Proof. intros Hm. unfold parseSelector. cm_auto. all: cbn; constructor; eauto. Qed.
Hint Resolve okh_parseSelector : cm.

Lemma okh_keySelector h a r pos : msOk h ms -> isTok (Raw a) "resp_header" = false ->
  okh h (parseSelector ms (a :: r) pos) (fun s h' => sel_respHeader (fst s) = None /\ ptrsOk AnyPhase h' (sel_ptrs (fst s))).
Proof. intros Hm Ha. unfold parseSelector. rewrite Ha. cm_auto. Qed.
Hint Resolve okh_keySelector : cm.

Lemma okh_durArg h a : okh h (durArg a) (fun _ _ => True).
Proof. unfold durArg. cm_auto. Qed.
Hint Resolve okh_durArg : cm.

Lemma okh_ttlTailLoop h tail r seen : okh h (ttlTailLoop tail r seen) (fun _ _ => True).
Proof.
  revert h r seen. induction tail as [tail IH] using (induction_ltof1 _ (@length Arg)). intros h r seen.
  destruct tail as [|kw [|v rest]]; cbn [ttlTailLoop]; cm_auto. all: apply IH; unfold ltof; cbn; lia.
Qed.
Hint Resolve okh_ttlTailLoop : cm.

Lemma okh_compileTTL h args pos : msOk h ms -> okh h (compileTTL ms args pos) (fun r h' => ptrsOk AnyPhase h' (sel_ptrs (tl_sel r))).
Proof. intros Hm. unfold compileTTL, parseTTLTail. cm_auto. Qed.

Lemma okh_compileStorage h args pos : msOk h ms -> okh h (compileStorage ms args pos) (fun r h' => ptrsOk AnyPhase h' (sel_ptrs (sg_sel r))).
Proof. intros Hm. unfold compileStorage. cm_auto. Qed.

Lemma okh_headerOpsLoop h n args pos : (length args <= n)%nat -> okh h (headerOpsLoop n args pos) (fun _ _ => True).
Proof.
  revert h args. induction n as [|n IH]; intros h args Hl; destruct args as [|a [|v [|w rest]]]; cbn [headerOpsLoop length] in *; try lia; cm_auto.
  all: eapply okh_bind; [apply IH; cbn [length] in *; lia|intros; by apply okh_ret; intros _].
Qed.

Lemma okh_compileHeader h args pos : msOk h ms -> okh h (compileHeader ms args pos) (fun r h' => scopeOk AnyPhase h' (hr_scope r)).
Proof.
  intros Hm. assert (forall h l, okh h (parseHeaderOps l pos) (fun _ _ => True)) as Hops.
  { intros h' l. destruct l; [done|]. by apply okh_headerOpsLoop. }
  unfold compileHeader. cm_auto.
Qed.

Lemma okh_compileReplace h args pos : msOk h ms -> okh h (compileReplace ms args pos) (fun r h' => scopeOk AnyPhase h' (tf_scope r)).
Proof. intros Hm. unfold compileReplace. cm_auto. Qed.

Lemma okh_compileEncode h args b pos : okh h (compileEncode args b pos) (fun _ _ => True).
Proof.
  assert (forall l h seen, okh h (encodeCodecs l seen) (fun _ _ => True)) as H.
  { induction l; intros; cbn [encodeCodecs]; cm_auto. }
  unfold compileEncode. cm_auto.
Qed.

Lemma spanUntil_length stops args : (length (snd (spanUntil stops args)) <= length args)%nat.
Proof. induction args as [|a r IH]; [done|]. cbn. case_match; [done|]. destruct (spanUntil stops r). cbn in *. lia. Qed.

Lemma okh_corsLoop h n args l l' : (length args <= n)%nat -> okh h (corsLoop n args l l') (fun _ _ => True).
Proof.
  revert args l l'. induction n as [|n IH]; intros args l l' Hl; destruct args as [|a r]; cbn [corsLoop length] in *; try lia; cm_auto.
  all: apply IH; match goal with H : spanUntil ?s ?r = _ |- _ => pose proof (spanUntil_length s r) as Hr; rewrite H in Hr; cbn in Hr; lia end.
Qed.
Hint Resolve okh_corsLoop : cm.

Lemma okh_compileCORS h args pos : msOk h ms -> okh h (compileCORS ms args pos) (fun r h' => scopeOk AnyPhase h' (cr_scope r)).
Proof. intros Hm. unfold compileCORS. cm_auto. Qed.

Lemma okh_regexArg h a msg : okh h (regexArg a msg) (fun _ _ => True).
Proof. unfold regexArg. cm_auto. Qed.
Hint Resolve okh_regexArg : cm.

Lemma okh_compileRewrite h args pos : msOk h ms -> okh h (compileRewrite ms args pos) (fun r h' => scopeOk RequestPhase h' (rw_scope r)).
Proof. intros Hm. unfold compileRewrite. cm_auto. Qed.

Lemma okh_redirectCode h a : okh h (redirectCode a) (fun _ _ => True).
Proof. unfold redirectCode. cm_auto. Qed.
Hint Resolve okh_redirectCode : cm.

Lemma okh_redirectTail h re sc c t rest : scopeOk RequestPhase h sc ->
  okh h (redirectTail re sc c t rest) (fun r h' => scopeOk RequestPhase h' (rd_sc r)).
Proof. intros Hs. unfold redirectTail. cm_auto. Qed.
Hint Resolve okh_redirectTail : cm.

Lemma okh_redirectMapEntry h code n : okh h (redirectMapEntry code n) (fun rs h' => Forall (fun r => rd_sc r = None) rs).
Proof. unfold redirectMapEntry. cm_auto. Qed.

Lemma okh_compileRedirectMap h args block b pos :
  okh h (compileRedirectMap args block b pos) (fun rs h' => ptrsOk RequestPhase h' (flat_map (fun r => default [] (rd_sc r)) rs)).
Proof.
  assert (forall h code, okh h (mapM (redirectMapEntry code) block) (fun rss h' => Forall (Forall (fun r => rd_sc r = None)) rss)) as Hmap.
  { intros h' code. apply (okh_mapM _ _ _ (fun rs _ => Forall (fun r => rd_sc r = None) rs)); [by intros ? ? ?|]. intros; apply okh_redirectMapEntry. }
  unfold compileRedirectMap. cm_auto. apply Forall_flat_map.
  match goal with H : Forall _ _ |- _ => apply Forall_concat in H; eapply List.Forall_impl; [|exact H] end. intros r Hr. cbn in Hr. by rewrite Hr.
Qed.
Hint Resolve okh_compileRedirectMap : cm.

Lemma okh_compileRedirect h args block b pos : msOk h ms ->
  okh h (compileRedirect ms args block b pos) (fun rs h' => ptrsOk RequestPhase h' (flat_map (fun r => default [] (rd_sc r)) rs)).
Proof.
  intros Hm. unfold compileRedirect, compileRedirectScoped. cm_auto. all: cbn; by rewrite app_nil_r.
Qed.

Lemma keyPlain_refs ten tenR a t : keyPlain ten tenR a = Some t -> tokenRefs t = [].
Proof. unfold keyPlain. intros E. repeat case_match; try done; injection E as <-; try done; by case_match. Qed.

Lemma compileCacheKey_refs nz cls ten tenR args toks h : clsOk h cls ->
  compileCacheKey nz cls ten tenR args = Ok toks -> ptrsOk RequestPhase h (flat_map tokenRefs toks).
Proof.
  intros Hc. assert (forall t a, compileKeyToken nz cls ten tenR a = Ok t -> ptrsOk RequestPhase h (tokenRefs t)) as Htok.
  { intros t a E. unfold compileKeyToken in E. destruct (keyPlain ten tenR a) as [k|] eqn:Ek.
    - injection E as <-. by rewrite (keyPlain_refs ten tenR a k Ek).
    - repeat match type of E with (match ?x with _ => _ end) = _ => destruct x eqn:?; try discriminate end;
        injection E as <-; try constructor. eapply Hc; eassumption. }
  assert (forall n args toks b b', keyLoop nz cls ten tenR n args = Ok (toks, b, b') -> ptrsOk RequestPhase h (flat_map tokenRefs toks)) as Hloop.
  { induction n as [|n IH]; [done|]. intros args' toks' b b' E. cbn [keyLoop] in E. destruct args' as [|a r]; [by injection E as <-|].
    destruct (_ || _).
    - destruct (takeParams r) as [names rest]. destruct names; [done|]. apply obind_Ok_inv in E as ([[ts x] y] & E & E').
      apply IH in E. destruct (bool_decide _); injection E' as <- <- <-; done.
    - apply obind_Ok_inv in E as (t & Et & E). apply obind_Ok_inv in E as ([[ts x] y] & E & E'). injection E' as <- <- <-.
      cbn. apply Forall_app. split; [by eapply Htok|by eapply IH]. }
  intros E. unfold compileCacheKey in E. apply obind_Ok_inv in E as ([[ts x] y] & E & E'). apply Hloop in E.
  destruct (_ && _); [done|]. destruct (_ && _); [done|]. by injection E' as <-.
Qed.

Lemma takeParams_length args : (length (snd (takeParams args)) <= length args)%nat.
Proof. induction args as [|a r IH]; [done|]. cbn. case_match; [done|]. destruct (takeParams r). cbn in *. lia. Qed.

Lemma compileCacheKey_total nz cls ten tenR args : compileCacheKey nz cls ten tenR args <> NoFuel.
Proof.
  assert (forall a, compileKeyToken nz cls ten tenR a <> NoFuel) as Htok.
  { intros a. unfold compileKeyToken. by repeat case_match. }
  assert (forall n args, (length args < n)%nat -> keyLoop nz cls ten tenR n args <> NoFuel) as Hloop.
  { induction n as [|n IH]; [lia|]. intros [|a r] Hl; [done|]. cbn [keyLoop length] in *. destruct (_ || _).
    - pose proof (takeParams_length r) as Hp. destruct (takeParams r) as [[|] rest]; [done|]. cbn in Hp.
      intros [H|([[ts x] y] & _ & H)]%obind_NoFuel_inv; [by apply IH in H; [|lia]|]. by destruct (bool_decide _).
    - intros [H|(t & _ & H)]%obind_NoFuel_inv; [by apply Htok in H|].
      apply obind_NoFuel_inv in H as [H|([[ts x] y] & _ & H)]; [by apply IH in H; [|lia]|done]. }
  intros [H|([[ts x] y] & _ & H)]%obind_NoFuel_inv; [by apply Hloop in H; [|lia]|]. by repeat case_match.
Qed.

Lemma okh_compileCacheKeyRule h args pos nz cls ten tenR : msOk h ms -> clsOk h cls -> Forall marked args ->
  okh h (compileCacheKeyRule ms args pos nz cls ten tenR)
    (fun r h' => ptrsOk RequestPhase h' (sel_ptrs (kr_sel r) ++ flat_map tokenRefs (kr_toks r))).
Proof.
  intros Hm Hc Ha. unfold compileCacheKeyRule.
  eapply okh_bind with (P := fun s h' => ptrsOk RequestPhase h' (sel_ptrs (fst s)) /\ clsOk h' cls).
  - destruct args as [|a r]; [by apply okh_ret; intros _|]. destruct (looksLikeKeySelector a) eqn:El; [|by apply okh_ret; intros _].
    apply Forall_cons in Ha as [Ha _]. pose proof (marked_selector a Ha El) as Hk.
    eapply okh_bind; [by apply okh_keySelector|]. intros s h' Hp [Hn Hs]. cm_lift h h' Hp. unfold sel_ptrs in *.
    destruct (sel_kind (fst s)) eqn:Ek; cm_auto; (split; [|done]); rewrite Hn, Ek; try constructor; done.
  - intros s h' Hp [Hs Hc']. destruct (compileCacheKey nz cls ten tenR (rawArgs (snd s))) as [toks|e|] eqn:Ek; [|done|].
    + apply okh_ret. intros _. cbn. apply Forall_app. split; [done|]. by eapply compileCacheKey_refs.
    + by apply compileCacheKey_total in Ek.
Qed.

(** ** Classifiers, conjunctions and the edge block *)

Lemma okh_classifyArrowValue h args pos : okh h (classifyArrowValue args pos) (fun _ _ => True).
Proof. unfold classifyArrowValue. cm_auto. Qed.
Hint Resolve okh_classifyArrowValue : cm.

Lemma okh_compileConjunction h args pos : msOk h ms -> okh h (compileConjunction ms args pos) (fun qs h' => ptrsOk AnyPhase h' qs).
Proof.
  intros Hm. unfold compileConjunction. destruct args as [|a r]; [done|]. destruct (isRef a); [|cm_auto].
  eapply okh_bind; [apply (okh_mapM _ _ _ (fun q h => ptrOk AnyPhase h q)); [apply _|]|].
  - intros x h' _ Hp. cm_lift h h' Hp. cm_auto.
  - intros qs h' Hp Hq. cbv beta in Hq. cm_auto.
Qed.
Hint Resolve okh_compileConjunction : cm.

Lemma okh_compileClassifyRow h args pos : msOk h ms -> okh h (compileClassifyRow ms args pos) (fun r h' => ptrsOk RequestPhase h' (conj r)).
Proof. intros Hm. unfold compileClassifyRow. cm_auto. Qed.
Hint Resolve okh_compileClassifyRow : cm.

Lemma okh_compileDerivesFrom h args pos : okh h (compileDerivesFrom args pos) (fun _ _ => True).
Proof. unfold compileDerivesFrom. cm_auto. Qed.
Hint Resolve okh_compileDerivesFrom : cm.

Lemma okh_noCookieConflict h l l' msg : okh h (noCookieConflict l l' msg) (fun _ _ => True).
Proof. unfold noCookieConflict. cm_auto. Qed.
Hint Resolve okh_noCookieConflict : cm.

Lemma okh_classifyStep h st n : msOk h ms -> ptrsOk RequestPhase h (flat_map conj (cs_rows st)) ->
  okh h (classifyStep ms st n) (fun st' h' => ptrsOk RequestPhase h' (flat_map conj (cs_rows st'))).
Proof.
  intros Hm Hs. destruct st as [rows def der fwd strip]. cbn [cs_rows] in Hs. unfold classifyStep. cm_auto.
  all: cbn [cs_rows]; rewrite ?flat_map_app, ?Forall_app; cbn; rewrite ?app_nil_r; auto; by case_match.
Qed.

Lemma okh_compileClassify h args block b pos : msOk h ms ->
  okh h (compileClassify ms args block b pos) (fun cl h' => ptrsOk RequestPhase h' (classifier_refs cl)).
Proof.
  intros Hm.
  assert (okh h (foldM (classifyStep ms) block (mkCS [] None [] [] [])) (fun st h' => ptrsOk RequestPhase h' (flat_map conj (cs_rows st)))) as Hf.
  { apply okh_foldM; [constructor|]. intros s x h' _ Hp Hs. cm_lift h h' Hp. by apply okh_classifyStep. }
  unfold compileClassify. cm_auto.
Qed.
End WithMatchers.

Lemma okh_normalizeStep h st n : okh h (normalizeStep st n) (fun _ _ => True).
Proof. unfold normalizeStep. cm_auto. Qed.
Hint Resolve okh_normalizeStep : cm.

Lemma okh_compileNormalize h args block b pos : okh h (compileNormalize args block b pos) (fun _ _ => True).
Proof. unfold compileNormalize. cm_auto. Qed.

Lemma okh_tenantStep h st n : okh h (tenantStep st n) (fun _ _ => True).
Proof. unfold tenantStep. cm_auto. Qed.
Hint Resolve okh_tenantStep : cm.

Lemma okh_compileTenantBlock h block pos : okh h (compileTenantBlock block pos) (fun _ _ => True).
Proof. unfold compileTenantBlock. cm_auto. Qed.
Hint Resolve okh_compileNormalize okh_compileTenantBlock okh_parseScopeAll okh_compileClassify okh_requiredScope
  okh_compileSecurityRule okh_compileRateLimit okh_compileRespond okh_compileOnError okh_compilePurge okh_compileRoute
  okh_compileTTL okh_compileStorage okh_compileHeader okh_compileReplace okh_compileEncode okh_compileCORS
  okh_compileRewrite okh_compileRedirect okh_compileCacheKeyRule okh_kindOf okh_ensureNotResponsePhase : cm.

Lemma okh_compileClassifyMatcher h name args pos cls : clsOk h cls ->
  okh h (compileClassifyMatcher name args pos cls) (fun q h' => ptrOk AnyPhase h' q).
Proof.
  intros Hc. unfold compileClassifyMatcher, parseClassifyTest. cm_auto.
  eapply okh_impl; [apply okh_alloc; [cbn|done]|].
  - match goal with H : cls !! _ = Some ?c |- _ => exact (Hc _ _ H) end.
  - intros q h' Hq. cbv beta in Hq. eexists. split; [exact Hq|done].
Qed.
Hint Resolve okh_compileClassifyMatcher : cm.

Lemma msOk_insert (h : heap) (ms : gmap bytes ptr) (name : bytes) (q : ptr) : msOk h ms -> ptrOk AnyPhase h q -> msOk h (<[name := q]> ms).
Proof. intros Hm Hq. by apply map_Forall_insert_2. Qed.

Lemma okh_compileItem h nz it ms cls : msOk h ms -> clsOk h cls ->
  okh h (compileItem nz it ms cls) (fun x h' => msOk h' (fst x) /\ clsOk h' (snd x)).
Proof.
  intros Hm Hc. unfold compileItem. cm_auto.
  all: cbn; split; [try apply msOk_insert|try apply map_Forall_insert_2]; done.
Qed.
Hint Resolve okh_compileItem : cm.

(** A round that makes progress leaves fewer items. *)
Lemma okh_classifyRound h nz pm pt l ms cls : msOk h ms -> clsOk h cls ->
  okh h (foldM (classifyRoundStep nz pm pt) l (ms, cls, [], false))
    (fun '(ms', cls', next, progressed) h' => msOk h' ms' /\ clsOk h' cls' /\ (progressed = true -> length next < length l)%nat).
Proof.
  intros Hm Hc.
  assert (forall l h ms cls next pr n, msOk h ms -> clsOk h cls -> (length next <= n)%nat -> (pr = true -> length next < n)%nat ->
    okh h (foldM (classifyRoundStep nz pm pt) l (ms, cls, next, pr))
      (fun '(ms', cls', next, progressed) h' => msOk h' ms' /\ clsOk h' cls' /\ (progressed = true -> length next < n + length l)%nat)) as H.
  { clear. induction l as [|it l IH]; intros h ms cls next pr n Hm Hc Hn Hpr; cbn [foldM classifyRoundStep length].
    - apply okh_ret. intros _. split_and!; [done..|]. intros ?%Hpr. lia.
    - destruct (itemReady pm pt it ms cls).
      + eapply okh_bind with (P := fun st h' => exists ms' cls', st = (ms', cls', next, true) /\ msOk h' ms' /\ clsOk h' cls').
        { cm_auto. }
        intros st h' Hp (ms' & cls' & -> & Hm' & Hc'). rewrite <- Nat.add_succ_comm. apply IH; try done; lia.
      + apply okh_bind_ret. rewrite <- Nat.add_succ_comm. apply IH; [done..| |]; rewrite length_app; cbn; [lia|].
        intros ?%Hpr. lia. }
  apply (H l h ms cls [] false 0%nat); done.
Qed.

Lemma okh_classifyRounds h nz pm pt n l ms cls : (length l <= n)%nat -> msOk h ms -> clsOk h cls ->
  okh h (classifyRounds nz pm pt n l ms cls) (fun x h' => msOk h' (fst x) /\ clsOk h' (snd x)).
Proof.
  revert h l ms cls. induction n as [|n IH]; intros h l ms cls Hl Hm Hc; destruct l as [|it l]; cbn [classifyRounds length] in *; try lia;
    try (by apply okh_ret; intros _).
  eapply okh_bind; [by apply okh_classifyRound|]. intros [[[ms' cls'] next] pr] h' Hp (Hm' & Hc' & Hn).
  destruct pr; [|done]. apply IH; try done. specialize (Hn eq_refl). cbn in Hn. lia.
Qed.

Lemma okh_resolveClassifyDeps h nz dirs mdefs ms : msOk h ms ->
  okh h (resolveClassifyDeps nz dirs mdefs ms) (fun x h' => msOk h' (fst x) /\ clsOk h' (snd x)).
Proof. intros Hm. apply okh_classifyRounds; [done..|]. apply map_Forall_empty. Qed.

Lemma okh_compileAll h ms def : msOk h ms -> okh h (compileAll ms def) (fun ms' h' => msOk h' ms').
Proof.
  intros Hm. destruct def as [[name args] pos]. unfold compileAll. cm_step.
  eapply okh_bind; [apply (okh_mapM _ _ _ (fun t h => ptrOk RequestPhase h (t_m t))); [apply _|]|].
  - intros a' h' _ Hp. cm_lift h0 h' Hp. cm_auto.
  - intros ts h' Hp Hts. cbv beta in Hts. cm_lift h0 h' Hp.
    eapply okh_bind; [apply okh_alloc; [cbn; by apply Forall_map|done]|].
    intros q h'' Hp Hq. cbv beta in Hq. cm_lift h' h'' Hp. apply okh_ret. intros _. apply msOk_insert; [done|].
    eexists. split; [exact Hq|done].
Qed.

Lemma okh_edgeStep h ms e n : msOk h ms -> itemOk h (iEdge e) -> okh h (edgeStep ms e n) (fun e' h' => itemOk h' (iEdge e')).
Proof.
  intros Hm He. destruct e as [acc zone wk routes kv def pols ttl mx bp pats]. cbn in He. unfold edgeStep, edgeOneArg. cm_auto.
  all: cbn; rewrite ?flat_map_app, ?Forall_app; cbn; rewrite ?app_nil_r; done.
Qed.

Lemma okh_compileEdgeBlock h ms block b pos : msOk h ms ->
  okh h (compileEdgeBlock ms block b pos) (fun e h' => itemOk h' (iEdge e)).
Proof.
  intros Hm. unfold compileEdgeBlock. destruct b; [|done]. cbn [negb].
  eapply okh_bind; [apply (okh_foldM _ _ _ _ (fun e h => itemOk h (iEdge e))); [constructor|]|].
  - intros e n h' _ Hp He. cm_lift h h' Hp. by apply okh_edgeStep.
  - intros [acc zone wk routes kv def pols ttl mx bp pats] h' Hp He. by apply okh_ret; intros _.
Qed.
Hint Resolve okh_compileEdgeBlock : cm.

(** ** The passes *)

Lemma okh_pass1Step h st n : msOk h (s_matchers st) -> okh h (pass1Step st n) (fun st' h' => msOk h' (s_matchers st')).
Proof.
  intros Hm. destruct st as [ms nz ups sticky ten tenR cd cmd am]. cbn [s_matchers] in Hm. unfold pass1Step. cm_auto.
  all: by apply msOk_insert.
Qed.

Definition nodeMarked (n : Node) : Prop := match n with Directive _ args _ _ _ => Forall marked args | _ => True end.

Lemma okh_compileDirective h ms nz cls ups ten tenR pastKey before name args block b pos :
  msOk h ms -> clsOk h cls -> Forall marked args ->
  okh h (compileDirective ms nz cls ups ten tenR pastKey before name args block b pos) (fun i h' => itemOk h' i).
Proof.
  intros Hm Hc Ha. unfold compileDirective, compileMonitorToggle. cm_auto.
Qed.

Lemma okh_compileItems site : Forall nodeMarked (s_body site) ->
  okh [] (compileItems site) (fun '(_, ms, cls, items) h' => msOk h' ms /\ clsOk h' cls /\ Forall (fun i => itemOk h' i) items).
Proof.
  intros Hn. unfold compileItems.
  eapply okh_bind; [apply (okh_foldM _ _ _ _ (fun st h => msOk h (s_matchers st))); [apply map_Forall_empty|]|].
  { intros st n h' _ _ Hs. by apply okh_pass1Step. }
  intros st h1 _ Hs. cbv beta in Hs. eapply okh_bind; [by apply okh_resolveClassifyDeps|].
  intros [ms1 cls] h2 Hp [Hm1 Hc]. cm_lift h1 h2 Hp. cbn [fst snd] in *.
  eapply okh_bind; [apply (okh_foldM _ _ _ _ (fun ms h => msOk h ms)); [done|]|].
  { intros ms d h' _ _ Hm. by apply okh_compileAll. }
  intros ms h3 Hp Hm. cbv beta in Hm. cm_lift h2 h3 Hp.
  eapply okh_bind; [apply (okh_foldM _ _ _ _ (fun r h => Forall (fun i => itemOk h i) (snd r))); [constructor|]|].
  { intros [pk items] n h' Hin Hp Hi. cm_lift h3 h' Hp. cbn [snd] in Hi. unfold pass2Step.
    rewrite list.Forall_forall in Hn. apply Hn in Hin. destruct n as [|name args block b pos]; [by apply okh_ret; intros _|].
    eapply okh_bind; [by apply okh_compileDirective|]. intros i h4 Hp Hit. cm_lift h' h4 Hp.
    apply okh_ret. intros _. cbn. apply Forall_app. by repeat constructor. }
  intros [pk items] h4 Hp Hi. cbv beta in Hi. cm_lift h3 h4 Hp. apply okh_ret. intros _. by split_and!.
Qed.
End Typing.

(** ** The compiled pipeline *)

Lemma ptrOk_erase ph h h' q : map erase h' = map erase h -> ptrOk ph h q -> ptrOk ph h' q.
Proof.
  intros E (m & Hm & Hp). destruct (erase_lookup h h' q m (eq_sym E) Hm) as (m' & Hm' & Hk). exists m'. by rewrite <- Hk.
Qed.

Lemma ptrsOk_erase ph h h' l : map erase h' = map erase h -> ptrsOk ph h l -> ptrsOk ph h' l.
Proof. intros E. apply List.Forall_impl. intros q. by apply ptrOk_erase. Qed.

(** The items of one kind have the type of that kind. *)
Lemma items_omap {A : Type} ph h items (f : item -> option A) (g : A -> list ptr) :
  Forall (fun i => itemOk h i) items -> (forall i a, f i = Some a -> itemPhase i = ph /\ itemPtrs i = g a) ->
  ptrsOk ph h (flat_map g (omap f items)).
Proof.
  intros Hi Hf. apply Forall_flat_map, list.Forall_forall. intros a (i & Hin & Ha)%list_elem_of_omap.
  rewrite list.Forall_forall in Hi. destruct (Hf i a Ha) as [<- <-]. by apply Hi.
Qed.

Lemma items_last {A : Type} ph h items (f : item -> option A) (g : A -> list ptr) :
  Forall (fun i => itemOk h i) items -> (forall i a, f i = Some a -> itemPhase i = ph /\ itemPtrs i = g a) ->
  ptrsOk ph h (match last (omap f items) with Some a => g a | None => [] end).
Proof.
  intros Hi Hf. pose proof (items_omap ph h items f g Hi Hf) as H. destruct (last (omap f items)) as [a|] eqn:E; [|constructor].
  apply last_Some in E as [l' E]. rewrite E, flat_map_app in H. apply Forall_app in H as [_ H]. cbn in H. by rewrite app_nil_r in H.
Qed.

Lemma assemble_request {U : Platform} site ms cls st items dc h : Forall (fun i => itemOk h i) items ->
  ptrsOk RequestPhase h (requestPtrs (assemble site ms cls st items dc h)).
Proof.
  intros Hi. unfold assemble. destruct (siteHosts (Addresses site)) as [ts canon]. unfold requestPtrs.
  cbn [respondRules onErrorRules redirectRules purgeRules routeRules passRules upgradeRules credentialedRules reqHeaderRules rewriteRules
       allowRules denyRules rateLimitRules keyRules].
  rewrite flat_map_app, !Forall_app. split_and!; try (apply items_omap; [done|]; by intros []; intros; simplify_eq).
  rewrite Forall_flat_map, Forall_flat_map. eapply List.Forall_impl; [|exact Hi]. intros []; cbn; try constructor.
  by rewrite Forall_flat_map.
Qed.

Lemma assemble_response {U : Platform} site ms cls st items dc h : Forall (fun i => itemOk h i) items ->
  ptrsOk AnyPhase h (responsePtrs (assemble site ms cls st items dc h)).
Proof.
  intros Hi. unfold assemble. destruct (siteHosts (Addresses site)) as [ts canon]. unfold responsePtrs.
  cbn [ttlRules storageRules stripRules respHeaderRules transformRules p_corsRule p_edge].
  rewrite !Forall_app. split_and!; try (apply items_omap; [done|]; by intros []; intros; simplify_eq).
  all: apply items_last; [done|]; by intros []; intros; simplify_eq.
Qed.

(** Indexing gives slots and changes nothing else. *)
Lemma indexed_typed p : heapOk (p_heap p) -> ptrsOk RequestPhase (p_heap p) (requestPtrs p) -> ptrsOk AnyPhase (p_heap p) (responsePtrs p) ->
  map_Forall (fun _ q => ptrOk AnyPhase (p_heap p) q) (p_matchers p) ->
  map_Forall (fun _ cl => ptrsOk RequestPhase (p_heap p) (classifier_refs cl)) (p_classifiers p) ->
  validateKeyRules (keyRules p) = true -> typed (indexMatchers p).
Proof.
  intros [Hi Hb Hr] Hreq Hresp Hm Hc Hk. pose proof (walk_index (p_heap p) (indexRoots p) Hi) as Hw.
  unfold indexMatchers. destruct (indexHeap (p_heap p) (indexRoots p)) as [h n]. pose proof (walk_erase _ _ Hw) as He. cbn [fst] in He.
  split; cbn [p_heap p_matchers p_classifiers numMatchers keyRules].
  - by apply (walk_wf (p_heap p) (h, n)).
  - intros q m Hq. destruct (erase_lookup _ _ q m He Hq) as (m' & Hq' & Ek). eapply ptrsOk_erase; [done|].
    replace (refs m) with (refs m') by (unfold refs; by rewrite Ek). by eapply Hr.
  - by apply (ptrsOk_erase _ (p_heap p)).
  - by apply (ptrsOk_erase _ (p_heap p)).
  - intros k q Hq. apply (ptrOk_erase _ (p_heap p)); [done|]. by eapply Hm.
  - intros k cl Hcl. apply (ptrsOk_erase _ (p_heap p)); [done|]. by eapply Hc.
  - intros q m Hq. by apply (walk_bound _ _ Hw q m).
  - intros [r Hr']. unfold validateKeyRules in Hk. apply negb_true_iff, andb_false_iff in Hk as [Hk|Hk].
    + exists r. split; [done|]. apply not_true_iff_false in Hk. rewrite existsb_exists in Hk. destruct (sel_kind (kr_sel r)) eqn:E; try done.
      all: exfalso; apply Hk; exists r; split; [by apply list_elem_of_In|]; unfold isDefaultSel; by rewrite E.
    + apply negb_false_iff, existsb_exists in Hk as (r' & Hr'' & Hd). exists r'. split; [by apply list_elem_of_In|].
      unfold isDefaultSel in Hd. by destruct (sel_kind (kr_sel r')).
Qed.

Lemma compile_typed {U : Platform} {R : GoLib} site p : Forall nodeMarked (s_body site) -> Compile site = Ok p -> typed p.
Proof.
  intros Hn. unfold Compile. pose proof (okh_compileItems site Hn) as H.
  assert (heapOk []) as H0 by (split; [constructor|by intros ? ? ?|by intros ? ?]). specialize (H H0).
  destruct (compileItems site []) as [[[[[st ms] cls] items] h]|e|]; [|done..]. destruct H as (Hh & _ & Hm & Hc & Hi).
  destruct (validateKeyRules _) eqn:Ek; cbn [negb]; [|done]. destruct (validateUpstreamHealthy _ _); [done|].
  destruct (FromSite (s_body site)) as [dc|e|]; [|done..]. intros E.
  match type of E with (match ?x with _ => _ end) = _ => destruct x as [u|e|]; [|done..] end. injection E as <-.
  pose proof (assemble_request site ms cls st items dc h Hi) as Hreq. pose proof (assemble_response site ms cls st items dc h Hi) as Hresp.
  unfold assemble in *. destruct (siteHosts (Addresses site)) as [ts canon]. by apply indexed_typed.
Qed.

(** C4. A site that compiles is well typed: every matcher its rules, named matchers and
    classifiers refer to was compiled; the rules applied before the origin answers refer,
    through classifiers and conjunctions too, only to matchers that do not read the
    response; matchers refer to earlier ones, so evaluation ends; no two matchers share a
    memo slot and the memo has room for every slot; and a site with key recipes has one
    that applies to every request. *)
Theorem compiled_typed {U : Platform} {R : GoLib} site p : Forall nodeMarked (s_body site) -> Compile site = Ok p -> typed p.
Proof. apply compile_typed. Qed.

(** ** Termination *)

Lemma FromSite_total {U : Platform} body : FromSite body <> NoFuel.
Proof.
  assert (forall ns st, deviceBlock st ns <> NoFuel) as H.
  { induction ns as [|n ns IH]; intros st; [done|]. cbn [deviceBlock]. intros [E|(st' & _ & E)]%obind_NoFuel_inv; [|by apply IH in E].
    revert E. destruct st as [[rules folds] def]. unfold deviceStep. destruct n as [|name args block b pos]; [done|].
    destruct (bool_decide _); [by repeat case_match|]. destruct (bool_decide _); [by repeat case_match|].
    intros [E|(r & _ & E)]%obind_NoFuel_inv; [|done]. unfold parseDeviceRule in E. by repeat case_match. }
  unfold FromSite. repeat case_match; try done. intros [E|([[rules folds] def] & _ & E)]%obind_NoFuel_inv; [by apply H in E|].
  by repeat case_match.
Qed.

Lemma checks_total p : (_ <~ checkDerivedCookieModeConflict p; checkCredentialedStripCookiesConflict p) (p_heap p) <> NoFuel.
Proof.
  assert (forall rs h, mapM (fun r => let '(strip, fwd) := derivedModes (kr_toks r) in
    noCookieConflict strip fwd "cookie is declared both forward and strip within one cache_key recipe") rs h <> NoFuel) as H.
  { induction rs as [|r rs IH]; intros h; [done|]. cbn [mapM]. unfold cbind. destruct (derivedModes (kr_toks r)) as [strip fwd].
    unfold noCookieConflict. destruct (List.find _ strip); [done|]. cbn. specialize (IH h). by destruct (mapM _ rs h) as [[? ?]|?|]. }
  unfold checkDerivedCookieModeConflict, cbind. specialize (H (keyRules p) (p_heap p)).
  destruct (mapM _ (keyRules p) (p_heap p)) as [[us h]|e|]; [|done..]. cbn.
  unfold checkCredentialedStripCookiesConflict. by destruct (List.find _ _).
Qed.

(** C16. Compiling a site ends with a pipeline or a positioned error: the loops over
    arguments and the rounds that resolve classifiers and the matchers that depend on
    them, in any order and with cycles, come to an end. *)
Theorem Compile_total {U : Platform} {R : GoLib} site : Forall nodeMarked (s_body site) -> Compile site <> NoFuel.
Proof.
  intros Hn. unfold Compile. pose proof (okh_compileItems site Hn) as H.
  assert (heapOk []) as H0 by (split; [constructor|by intros ? ? ?|by intros ? ?]). specialize (H H0).
  destruct (compileItems site []) as [[[[[st ms] cls] items] h]|e|]; [|done..].
  destruct (validateKeyRules _); cbn [negb]; [|done]. destruct (validateUpstreamHealthy _ _); [done|].
  pose proof (FromSite_total (s_body site)) as HF. destruct (FromSite (s_body site)) as [dc|e|]; [|done..].
  match goal with |- (match (_ <~ checkDerivedCookieModeConflict ?p; _) _ with _ => _ end) <> _ => pose proof (checks_total p) as HC end.
  cbn zeta. match goal with |- (match ?x with _ => _ end) <> _ => by destruct x as [?|?|] end.
Qed.

(** ** Request-phase decisions do not depend on the response *)

Section Blind.
Context {U : Platform}.

Lemma match_blind m req up resp resp' : isResponsePhaseKind (m_kind m) = false ->
  match_ m (mkCtx req up resp) = match_ m (mkCtx req up resp').
Proof. unfold match_. by destruct (m_kind m). Qed.

Lemma matchesPure_blind h req up resp resp' n q : (forall q m, h !! q = Some m -> ptrsOk RequestPhase h (refs m)) ->
  ptrOk RequestPhase h q -> matchesPure h (mkCtx req up resp) n q = matchesPure h (mkCtx req up resp') n q.
Proof.
  intros Hr. revert q. induction n as [|n IH]; intros q (m & Hm & Hk); [done|]. cbn. rewrite Hm.
  rewrite (match_blind m req up resp resp') by auto. eapply pureWith_ext; [apply asks_match|].
  intros q' Hq'. apply IH. specialize (Hr q m Hm). rewrite list.Forall_forall in Hr. by apply Hr.
Qed.

Lemma evalPure_blind {A : Type} p req up resp resp' (pr : prog A) : typed p -> asks (ptrOk RequestPhase (p_heap p)) pr ->
  evalPure p req up resp pr = evalPure p req up resp' pr.
Proof.
  intros Hp Ha. unfold evalPure, pure. eapply pureWith_ext; [exact Ha|]. intros q Hq.
  apply matchesPure_blind; [by apply ty_refs|done].
Qed.

Lemma asks_scopes P scs : Forall P (flat_map (default []) scs) -> asks P (anyP scopeMatches scs).
Proof.
  rewrite Forall_flat_map. intros H. apply asks_anyP. intros sc Hsc. apply asks_scope. rewrite list.Forall_forall in H. by apply H.
Qed.

Lemma asks_selector P s st : Forall P (sel_ptrs s) -> asks P (selector_matches s st).
Proof.
  unfold sel_ptrs, selector_matches. rewrite Forall_app. intros [Hr Hs]. apply asks_bind.
  - destruct (sel_respHeader s); [|done]. cbn. split; [by inversion Hr|done].
  - intros rh. destruct rh; [|done]. cbn. destruct (sel_kind s) as [| |sc|]; try done. by apply (asks_scope P (Some sc)).
Qed.

Lemma CacheCredentialedMatches_pure p req : heap_wf (p_heap p) ->
  CacheCredentialedMatches p req = evalPure p req (resolveUpstream p req) None (credentialedMatches p).
Proof.
  intros H. unfold CacheCredentialedMatches. destruct (credentialedRules p) as [|sc scs] eqn:E; [|by apply evalIn_pure].
  unfold credentialedMatches. by rewrite E.
Qed.

Lemma request_credentialed p : typed p -> asks (ptrOk RequestPhase (p_heap p)) (credentialedMatches p).
Proof. intros H. apply ty_request in H. apply asks_scopes. unfold requestPtrs in H. rewrite !Forall_app in H. tauto. Qed.

Lemma request_recipe p : typed p -> asks (ptrOk RequestPhase (p_heap p)) (selectKeyTokens p).
Proof.
  intros H. apply ty_request in H. unfold requestPtrs in H. rewrite !Forall_app in H. destruct_and! H.
  match goal with H : Forall _ (flat_map (fun r => sel_ptrs _ ++ _) _) |- _ => rename H into Hk end.
  rewrite Forall_flat_map, list.Forall_forall in Hk. unfold selectKeyTokens. apply asks_bind; [|by intros []].
  apply asks_findP. intros r Hr. apply asks_selector. specialize (Hk r Hr). by apply Forall_app in Hk as [Hk _].
Qed.

(** A response is stored as origin-authoritative if its request is in a credentialed scope. *)
Lemma store_credentialed {R : GoLib} p req status h : typed p -> let d := EvalResponse p req status (Some h) in
  Cacheable d = true -> CredentialedStore d = CacheCredentialedMatches p req.
Proof.
  intros Ht d Hd. pose proof (ty_heap p Ht) as Hwf. rewrite CacheCredentialedMatches_pure by done.
  rewrite (evalPure_blind p req (resolveUpstream p req) None (Some h)) by (done || by apply request_credentialed).
  destruct (EvalResponse_store p req status h Hwf Hd) as (strip & signal & v & _ & Hv & Hne & Hcr & _). fold d in Hcr.
  destruct (shareVerdict_spec p req _ h signal v Hv Hne) as [Hyes Hno].
  destruct (CredentialedStore d) eqn:E; [by destruct (Hyes (proj1 Hcr eq_refl)) as [-> _]|].
  destruct Hno as [-> _]; [|done]. intros H%Hcr. congruence.
Qed.
End Blind.

(** ** Pool health *)

(** A matcher that does not read the health of the pools. *)
Definition ignoresHealth (m : matcher) : bool := match m_kind m with kindUpstreamHealthy _ => false | _ => true end.

(** The scopes of [cache_credentialed], of the routes and of the recipes. *)
Definition decidingPtrs (p : Pipeline) : list ptr :=
  flat_map (default []) (credentialedRules p) ++ flat_map (fun r => default [] (ro_scope r)) (routeRules p)
  ++ flat_map (fun r => sel_ptrs (kr_sel r)) (keyRules p).

(** None of them consults the health of a pool, through any nesting of matchers. *)
Definition decidesSteadily (p : Pipeline) : bool :=
  forallb (consults (p_heap p) ignoresHealth (length (p_heap p))) (decidingPtrs p).

Section Steady.
Context {U : Platform} {R : GoLib} (p : Pipeline) (Hwf : heap_wf (p_heap p)) (Hst : decidesSteadily p = true).

Let steadyPtr (q : ptr) : Prop := consults (p_heap p) ignoresHealth (length (p_heap p)) q = true.

Lemma evalPure_steady {A : Type} req v v' up resp (pr : prog A) : asks steadyPtr pr ->
  evalPure p (set_PoolHealthy v req) up resp pr = evalPure p (set_PoolHealthy v' req) up resp pr.
Proof.
  intros Ha. unfold evalPure, pure. eapply pureWith_ext; [exact Ha|]. apply matchesPure_alike.
  intros m Hm. unfold ignoresHealth in Hm. destruct req. unfold match_. by destruct (m_kind m).
Qed.

Lemma steady_ptrs : Forall steadyPtr (flat_map (default []) (credentialedRules p)) /\
  Forall steadyPtr (flat_map (fun r => default [] (ro_scope r)) (routeRules p)) /\
  Forall steadyPtr (flat_map (fun r => sel_ptrs (kr_sel r)) (keyRules p)).
Proof using Hst.
  unfold decidesSteadily, decidingPtrs in Hst. rewrite !forallb_app, !andb_true_iff in Hst. destruct Hst as (H1 & H2 & H3).
  split_and!; rewrite list.Forall_forall; intros q Hq%list_elem_of_In; [rewrite forallb_forall in H1; by apply H1|rewrite forallb_forall in H2; by apply H2|rewrite forallb_forall in H3; by apply H3].
Qed.

Lemma resolveUpstream_steady req v v' : resolveUpstream p (set_PoolHealthy v req) = resolveUpstream p (set_PoolHealthy v' req).
Proof using Hwf Hst.
  unfold resolveUpstream. destruct (routeRules p) as [|ru rus] eqn:E; [done|]. rewrite !evalIn_pure by done.
  apply evalPure_steady. apply asks_bind; [|by intros []]. apply asks_findP. intros x Hx. destruct steady_ptrs as (_ & H & _).
  rewrite E in H. by apply (asks_scoped _ ro_scope (ru :: rus)).
Qed.

Lemma credentialed_steady req v v' : CacheCredentialedMatches p (set_PoolHealthy v req) = CacheCredentialedMatches p (set_PoolHealthy v' req).
Proof using Hwf Hst.
  rewrite !CacheCredentialedMatches_pure by done. rewrite (resolveUpstream_steady req v v'). apply evalPure_steady, asks_scopes, steady_ptrs.
Qed.

Lemma recipe_steady req v v' up resp :
  evalPure p (set_PoolHealthy v req) up resp (resolvedKeyTokens p (set_PoolHealthy v req))
  = evalPure p (set_PoolHealthy v' req) up resp (resolvedKeyTokens p (set_PoolHealthy v' req)).
Proof using Hst.
  assert (resolvedKeyTokens p (set_PoolHealthy v req) = resolvedKeyTokens p (set_PoolHealthy v' req)) as E by (by destruct req).
  rewrite E. apply evalPure_steady. unfold resolvedKeyTokens. destruct (rq_selKey _); [done|]. apply asks_bind; [|by intros []].
  apply asks_findP. intros x Hx. destruct steady_ptrs as (_ & _ & H). rewrite Forall_flat_map, list.Forall_forall in H. by apply asks_selector, H.
Qed.
End Steady.

(** C10. Before and after the origin answers, the same decisions. On a compiled site a
    response is stored as origin-authoritative exactly if its request is in a
    [cache_credentialed] scope at that moment; and unless a scope of [cache_credentialed],
    of a route or of a recipe tests the health of a pool, this and the recipe are decided
    as they were when the request arrived and was let past the credential bypass, whatever
    the health of the pools then and now. *)
Theorem phases_agree {U : Platform} {R : GoLib} site p req before after status h :
  Forall nodeMarked (s_body site) -> Compile site = Ok p ->
  let then_ := set_PoolHealthy before req in let now := set_PoolHealthy after req in
  let d := EvalResponse p now status (Some h) in
  (Cacheable d = true -> CredentialedStore d = CacheCredentialedMatches p now) /\
  (decidesSteadily p = true ->
     (Cacheable d = true -> CredentialedStore d = CacheCredentialedMatches p then_) /\
     evalIn p now (resolveUpstream p now) (Some h) (resolvedKeyTokens p now)
       = evalIn p then_ (resolveUpstream p then_) None (resolvedKeyTokens p then_)).
Proof.
  intros Hn Hc then_ now d. pose proof (compile_typed site p Hn Hc) as Ht. pose proof (ty_heap p Ht) as Hwf.
  assert (Cacheable d = true -> CredentialedStore d = CacheCredentialedMatches p now) as Hnow by (by apply store_credentialed).
  split; [done|]. intros Hst. split.
  - intros Hd. rewrite (Hnow Hd). by apply credentialed_steady.
  - rewrite !evalIn_pure by done. unfold now, then_. rewrite (resolveUpstream_steady p Hwf Hst req after before).
    rewrite (recipe_steady p Hst req after before). apply evalPure_blind; [done|]. unfold resolvedKeyTokens.
    destruct (rq_selKey _); [done|by apply request_recipe].
Qed.

(** ** A site from its text *)

Section Example.
#[local] Existing Instance amd64.
#[local] Existing Instance noLib.

Definition exampleText : bytes := go "example.com {
  @img path *.png
  @json content_type application/json
  classify {tier} { when @img -> fast; default -> slow }
  cache_key @img host path
  cache_key default host path {tier} header:Accept-Language
  cache_credentialed @img
  cache_ttl @img from_header X-Cache-Ttl
  cache_ttl default ttl 60s
  header @json +X-Kind json
}".

Definition parsedExample : Site :=
  match Parse [] exampleText with Ok (mkCFile _ (s :: _) _) => s | _ => mkSite [] [] (mkPos [] 0 0) end.

Lemma parsedExample_marked : Forall nodeMarked (s_body parsedExample).
Proof. vm_compute. repeat constructor; discriminate. Qed.

Lemma compiled_typed_witness : exists p, Compile parsedExample = Ok p /\ typed p.
Proof.
  destruct (Compile parsedExample) as [p|e|] eqn:E; [|vm_compute in E; discriminate E..].
  exists p. split; [done|]. exact (@compiled_typed amd64 noLib parsedExample p parsedExample_marked E).
Defined.

Lemma Compile_total_witness : Compile parsedExample <> NoFuel.
Proof. exact (@Compile_total amd64 noLib parsedExample parsedExample_marked). Defined.

Definition parsed (t : bytes) : Site :=
  match Parse [] t with Ok (mkCFile _ (s :: _) _) => s | _ => mkSite [] [] (mkPos [] 0 0) end.

(** A site whose health probe reads the pools and whose credentialed scope does not. *)
Definition healthText : bytes := go "example.com {
  upstream web { to http://10.0.0.1:80 http://10.0.0.2:80 }
  @live upstream_healthy web
  @img path *.png
  @probe path /health
  respond @probe @live 200 ok
  cache_key default host path
  cache_credentialed @img
  cache_ttl @img from_header X-Cache-Ttl
  cache_ttl default ttl 60s
}".

Lemma parsedHealth_marked : Forall nodeMarked (s_body (parsed healthText)).
Proof. vm_compute. repeat constructor; discriminate. Qed.

Lemma phases_agree_witness : exists p, Compile (parsed healthText) = Ok p /\
  let req := exampleRequest (go "/a.png") (headers [(go "Authorization", go "Basic eDp5")]) in
  let up := set_PoolHealthy (Some (fun _ => true)) req in let down := set_PoolHealthy (Some (fun _ => false)) req in
  let d := EvalResponse p down 200 (Some (headers [(go "X-Cache-Ttl", go "60")])) in
  Cacheable d = true /\ CacheCredentialedMatches p up = true /\ CredentialedStore d = true.
Proof.
  destruct (Compile (parsed healthText)) as [p|e|] eqn:E; [|vm_compute in E; discriminate E..].
  exists p. split; [done|]. cbn zeta. set (req := exampleRequest _ _). set (h := headers [(go "X-Cache-Ttl", _)]).
  assert (Cacheable (EvalResponse p (set_PoolHealthy (Some (fun _ => false)) req) 200 (Some h)) = true /\
    CacheCredentialedMatches p (set_PoolHealthy (Some (fun _ => true)) req) = true /\ decidesSteadily p = true) as (Hc & Hm & Hs).
  { vm_compute in E. injection E as <-. vm_compute. done. }
  repeat split; [done..|].
  rewrite (proj1 (proj2 (@phases_agree amd64 noLib _ p req (Some (fun _ => true)) (Some (fun _ => false)) 200 h parsedHealth_marked E) Hs) Hc). done.
Defined.

(** A credentialed scope that tests a pool: the pool fails between the two moments, and
    the answer to a request that was let past the bypass for its Cookie is stored like
    one to an anonymous request. *)
Example health_flip :
  (let! p := Compile (parsed (go "example.com {
  upstream web { to http://10.0.0.1:80 http://10.0.0.2:80 }
  @live upstream_healthy web
  cache_key default host path
  cache_credentialed @live
  cache_ttl default ttl 60s
}")) in
   let req := exampleRequest (go "/a.png") (headers [(go "Cookie", go "sid=1")]) in
   let d := EvalResponse p (set_PoolHealthy (Some (fun _ => false)) req) 200 (Some (headers [(go "Content-Type", go "text/html")])) in
   Ok (BypassForCredentials p req, CacheCredentialedMatches p (set_PoolHealthy (Some (fun _ => true)) req), Cacheable d, CredentialedStore d))
  = Ok (true, true, true, false).
Proof. vm_compute. reflexivity. Qed.
End Example.
