(* ===== verification/Geo.v ===== *)
(** * Client addresses and geo classes ([internal/geo])

    Which address a request comes from ([clientip.go]): the socket peer, or, behind a
    trusted proxy, the nearest address of [X-Forwarded-For] that is not one; and the
    class a source gives it ([geo.go], [region.go], [continent.go]).  An invalid
    [netip.Addr] is [None]. *)

From stdpp Require Import base strings numbers gmap list.
From Stdlib Require Import Lia.
From S2P Require Import Prelude GoStrings Netip Http Request.
Open Scope Z_scope.

(** ** [net.SplitHostPort]: the host and the port, or [None] for an error. *)
Definition SplitHostPort (hostport : bytes) : option (bytes * bytes) :=
  match LastIndexByte hostport ":" with
  | None => None
  | Some i =>
    let tail j k host :=
      if bool_decide ("["%char ∈ drop j hostport) then None
      else if bool_decide ("]"%char ∈ drop k hostport) then None
      else Some (host, drop (S i) hostport) in
    match hostport with
    | "["%char :: _ =>
      match IndexByte hostport "]" with
      | None => None
      | Some e => if (S e =? i)%nat then tail 1%nat (S e) (drop 1 (take e hostport)) else None
      end
    | _ => if bool_decide (":"%char ∈ take i hostport) then None else tail 0%nat 0%nat (take i hostport)
    end
  end.

Section Geo.
Context {U : Platform} {R : GoLib}.

(** ** The client address *)

Definition parseHostAddr (s : bytes) : option Addr :=
  let s := TrimSpace s in
  if bool_decide (s = []) then None
  else
    let s := match SplitHostPort s with Some (h, _) => h | None => s end in
    Unmap <$> ParseAddr parseIPv6 s.

Definition inAnyPrefix (addr : Addr) (prefixes : list Prefix) : bool := existsb (fun p => PrefixContains p addr) prefixes.

Definition forwardedFor (hdr : option header) : list Addr :=
  match hdr with
  | None => []
  | Some hdr => flat_map (fun v => omap (fun part => parseHostAddr (TrimSpace part)) (SplitByte v ",")) (Values hdr (go "X-Forwarded-For"))
  end.

Definition ClientIP (remoteAddr : bytes) (hdr : option header) (trusted : list Prefix) : option Addr :=
  match parseHostAddr remoteAddr with
  | None => None
  | Some peer =>
    if bool_decide (trusted = []) || negb (inAnyPrefix peer trusted) then Some peer
    else match List.find (fun ip => negb (inAnyPrefix ip trusted)) (rev (forwardedFor hdr)) with
         | Some ip => Some ip
         | None => Some peer
         end
  end.

Definition PeerTrusted (remoteAddr : bytes) (trusted : list Prefix) : bool :=
  if bool_decide (trusted = []) then false
  else match parseHostAddr remoteAddr with Some peer => inAnyPrefix peer trusted | None => false end.

Definition ParsePrefixes (cidrs : list bytes) : option (list Prefix) :=
  mapM (fun c => ParsePrefix parseIPv6 (TrimSpace c)) cidrs.

(** ** Sources *)

Definition Unknown : bytes := go "unknown".
Definition maxGeoClassLen : nat := 16.

Definition geoClassByte (c : ascii) : bool :=
  ((0x41 <=? byteZ c) && (byteZ c <=? 0x5A)) || isDigit c || (c =b "-")%byte.

Definition boundGeoClass (v : bytes) : bytes :=
  if (maxGeoClassLen <? length v)%nat then Unknown
  else let v := toUpper v in if forallb geoClassByte v then v else Unknown.

Record CIDREntry : Type := mkCIDR { ce_prefix : Prefix; ce_country : bytes }.

(** A [Source] of the package: a header, a CIDR table, or another one (a MaxMind
    database), given by its [Lookup]. *)
Inductive Source : Type :=
| headerSource (name : bytes)
| cidrSource (entries : list CIDREntry)
| otherSource (lookup : option Addr -> option header -> bytes).

Definition NewHeaderSource (name : bytes) : Source := headerSource (CanonicalHeaderKey name).
Definition NewRegionSource (name : bytes) : Source := NewHeaderSource name.

Definition NewCIDRSource (entries : list CIDREntry) : Source :=
  cidrSource (map (fun e => mkCIDR (Masked (ce_prefix e)) (toUpper (ce_country e))) entries).

Definition cidrStep (ip : Addr) (acc : bytes * Z) (e : CIDREntry) : bytes * Z :=
  if (snd acc <? px_bits (ce_prefix e)) && PrefixContains (ce_prefix e) ip then (ce_country e, px_bits (ce_prefix e)) else acc.

Definition cidrBest (ip : Addr) (entries : list CIDREntry) : bytes * Z := fold_left (cidrStep ip) entries ([], -1).

Definition Lookup (s : Source) (ip : option Addr) (hdr : option header) : bytes :=
  match s with
  | headerSource name =>
    match hdr with
    | None => Unknown
    | Some h => let v := TrimSpace (Get h name) in if bool_decide (v = []) then Unknown else boundGeoClass v
    end
  | cidrSource entries =>
    match ip with
    | None => Unknown
    | Some ip => let best := fst (cidrBest (Unmap ip) entries) in if bool_decide (best = []) then Unknown else best
    end
  | otherSource f => f ip hdr
  end.

(** ** The CIDR table *)

(** [strings.Fields]. *)
Fixpoint fields_fuel (n : nat) (s cur : bytes) : list bytes :=
  let flush := if bool_decide (cur = []) then [] else [cur] in
  match n, s with
  | S n, _ :: _ =>
    let '(r, w) := decodeRune s in
    if IsSpace r then flush ++ fields_fuel n (drop w s) [] else fields_fuel n (drop w s) (cur ++ take w s)
  | _, _ => flush
  end.

Definition Fields (s : bytes) : list bytes := fields_fuel (length s) s [].

Definition splitCIDRCountry (s : bytes) : option (bytes * bytes) :=
  let fields :=
    match IndexByte s "," with
    | Some i => [take i s; drop (S i) s]
    | None => Fields s
    end in
  match fields with
  | a :: b :: _ =>
    let cidr := TrimSpace a in
    let country := toUpper (TrimSpace b) in
    if bool_decide (cidr = []) || bool_decide (country = []) then None else Some (cidr, country)
  | _ => None
  end.

Inductive tableError : Type := WantCIDR (line : Z) | BadCIDR (line : Z) | LineTooLong.

(** The lines of a [bufio.Scanner]: the last one is dropped when it is empty. *)
Definition scanLines (text : bytes) : list bytes :=
  let ls := SplitByte text (Zbyte 10) in
  match last ls with Some [] => removelast ls | _ => ls end.

Definition maxScanToken : Z := 64 * 1024.

Fixpoint tableLoop (line : Z) (ls : list bytes) : outcome tableError (list CIDREntry) :=
  match ls with
  | [] => Ok []
  | l :: ls =>
    if maxScanToken <=? Z.of_nat (length l) then Err LineTooLong
    else
      let t := TrimSpace (TrimSuffix l [Zbyte 13]) in
      if bool_decide (t = []) || HasPrefix t (go "#") then tableLoop (line + 1) ls
      else match splitCIDRCountry t with
           | None => Err (WantCIDR line)
           | Some (cidr, country) =>
             match ParsePrefix parseIPv6 cidr with
             | None => Err (BadCIDR line)
             | Some p => let! rest := tableLoop (line + 1) ls in Ok (mkCIDR p country :: rest)
             end
           end
  end.

Definition LoadCIDRTable (text : bytes) : outcome tableError (list CIDREntry) := tableLoop 1 (scanLines text).

(** ** Continents *)

(** The countries of each continent. *)
Definition countryContinent : list (bytes * list bytes) :=
  map (fun '(k, cs) => (go k, Fields (go cs)))
  [
   ("AF", "DZ AO BJ BW BF BI CM CV CF TD KM CG CD CI DJ EG GQ ER SZ ET GA GM GH GN GW KE LS LR LY MG MW ML MR
      MU YT MA MZ NA NE NG RE RW SH ST SN SC SL SO ZA SS SD TZ TG TN UG EH ZM ZW");
   ("AN", "AQ BV GS TF HM");
   ("AS", "AF AM AZ BH BD BT BN KH CN GE HK IN ID IR IQ IL JP JO KZ KW KG LA LB MO MY MV MN MM NP KP OM PK PS
      PH QA SA SG KR LK SY TW TJ TH TL TR TM AE UZ VN YE");
   ("EU", "AL AD AT BY BE BA BG HR CY CZ DK EE FO FI FR DE GI GR GG HU IS IE IM IT JE XK LV LI LT LU MT MD MC
      ME NL MK NO PL PT RO RU SM RS SK SI ES SE CH UA GB VA AX SJ");
   ("NA", "AI AG AW BS BB BZ BM BQ CA KY CR CU CW DM DO SV GL GD GP GT HT HN JM MQ MX MS NI PA PR BL KN LC MF
      PM VC SX TT TC US VG VI");
   ("OC", "AS AU CK FJ PF GU KI MH FM NR NC NZ NU NF MP PW PG PN WS SB TK TO TV UM VU WF");
   ("SA", "AR BO BR CL CO EC FK GF GY PY PE SR UY VE")]%string.

Definition Continent (country : bytes) : bytes :=
  if bool_decide (country = []) then Unknown
  else
    let c := toUpper country in
    match List.find (fun '(_, cs) => bool_decide (c ∈ cs)) countryContinent with
    | Some (k, _) => k
    | None => Unknown
    end.

(** ** What a client can choose *)

Lemma PeerTrusted_ClientIP remoteAddr hdr trusted : PeerTrusted remoteAddr trusted = false ->
  ClientIP remoteAddr hdr trusted = parseHostAddr remoteAddr.
Proof.
  unfold PeerTrusted, ClientIP. destruct (parseHostAddr remoteAddr) as [peer|]; [|done].
  case_bool_decide as Ht; [done|]. cbn. by intros ->.
Qed.

Lemma find_rev_app {A : Type} (f : A -> bool) l k :
  List.find f (rev (l ++ k)) = match List.find f (rev k) with Some x => Some x | None => List.find f (rev l) end.
Proof.
  rewrite rev_app_distr. induction (rev k) as [|x r IH]; cbn; [done|]. by destruct (f x).
Qed.

Lemma find_rev_last {A : Type} (f : A -> bool) l x : List.find f (rev l) = Some x ->
  exists a b, l = a ++ x :: b /\ f x = true /\ Forall (fun y => f y = false) b.
Proof.
  induction l as [|y l IH] using rev_ind; [done|]. rewrite rev_app_distr. cbn. destruct (f y) eqn:E.
  - intros [= <-]. exists l, []. by rewrite E.
  - intros (a & b & -> & Hx & Hb)%IH. exists a, (b ++ [y]). rewrite <- app_assoc. split; [done|]. split; [done|].
    apply Forall_app. by split; [|constructor].
Qed.

Lemma ClientIP_trusted remoteAddr hdr trusted ip : ClientIP remoteAddr hdr trusted = Some ip ->
  parseHostAddr remoteAddr = Some ip \/
  exists a b, forwardedFor hdr = a ++ ip :: b /\ inAnyPrefix ip trusted = false /\
    Forall (fun y => inAnyPrefix y trusted = true) b /\ PeerTrusted remoteAddr trusted = true.
Proof.
  unfold ClientIP, PeerTrusted. destruct (parseHostAddr remoteAddr) as [peer|]; [|done].
  destruct (bool_decide (trusted = [])); [intros [= <-]; by left|]. cbn.
  destruct (inAnyPrefix peer trusted); [|intros [= <-]; by left]. cbn.
  destruct (List.find _ _) as [q|] eqn:E; intros [= <-]; [|by left]. right.
  apply find_rev_last in E as (a & b & -> & Hq & Hb). exists a, b. split; [done|]. apply negb_true_iff in Hq. split_and!; [done| |done].
  eapply Forall_impl; [done|]. intros y H. by apply negb_false_iff in H.
Qed.

(** ** Classes *)

Lemma encodeRune_class r : forallb geoClassByte (encodeRune r) = true -> length (encodeRune r) = 1%nat.
Proof.
  intros H. destruct (Z_lt_dec r 0) as [Hn|Hn].
  { unfold encodeRune in *. rewrite (proj2 (Z.leb_gt 0 r)) in * by lia. cbn in H. rewrite (proj2 (Z.ltb_lt r 0)) in * by lia. done. }
  destruct (Z_lt_dec r 0x80) as [Hl|Hl]; [by rewrite encodeRune_ascii by lia|].
  pose proof (encodeRune_high r ltac:(lia)) as Hh. destruct (encodeRune r) as [|c l] eqn:E; [by apply encodeRune_nonempty in E|].
  inversion Hh as [|? ? Hc _]; subst. cbn in H. apply andb_true_iff in H as [H _]. exfalso. revert H. unfold geoClassByte, isDigit.
  rewrite !(proj2 (Z.leb_gt (byteZ c) _)) by lia. rewrite !andb_false_r. cbn. intros H. apply Ascii.eqb_eq in H as ->. vm_compute in Hc. by apply Hc.
Qed.

Lemma runes_length s : (length (runes s) <= length s)%nat.
Proof.
  unfold runes. enough (forall n s, (length (runes_fuel n s) <= length s)%nat) by done. clear s.
  induction n as [|n IH]; intros s; [cbn; lia|].
  destruct s as [|c s]; [done|]. cbn [runes_fuel]. pose proof (decodeRune_width (c :: s) ltac:(done)) as Hw.
  destruct (decodeRune (c :: s)) as [r w]. cbn [snd] in Hw. specialize (IH (drop w (c :: s))).
  rewrite length_drop in IH. cbn [fst snd length] in *. lia.
Qed.

Lemma boundGeoClass_spec v : boundGeoClass v = Unknown \/
  (length (boundGeoClass v) <= maxGeoClassLen)%nat /\ forallb geoClassByte (boundGeoClass v) = true.
Proof.
  unfold boundGeoClass. destruct (maxGeoClassLen <? length v)%nat eqn:El; [by left|]. apply Nat.ltb_ge in El.
  destruct (forallb geoClassByte (toUpper v)) eqn:E; [|by left]. right. split; [|done]. etrans; [|exact El].
  unfold toUpper in *. destruct (forallb _ v); [by rewrite length_map|]. etrans; [|apply runes_length].
  induction (runes v) as [|r rs IH]; [done|]. cbn [flat_map] in *. rewrite forallb_app in E. apply andb_true_iff in E as [E1 E2].
  rewrite length_app, encodeRune_class by done. specialize (IH E2). cbn. lia.
Qed.

(** The class of a CIDR table is the country of a longest matching prefix. *)
Lemma cidrBest_spec ip entries best bits : cidrBest ip entries = (best, bits) ->
  (bits = -1 /\ best = [] \/ exists e, e ∈ entries /\ PrefixContains (ce_prefix e) ip = true /\ ce_country e = best /\ px_bits (ce_prefix e) = bits) /\
  (forall e, e ∈ entries -> PrefixContains (ce_prefix e) ip = true -> px_bits (ce_prefix e) <= bits).
Proof.
  unfold cidrBest. revert best bits. induction entries as [|e l IH] using rev_ind; intros best bits.
  { intros [= <- <-]. split; [by left|]. intros e He. by apply elem_of_nil in He. }
  rewrite fold_left_app. cbn [fold_left]. destruct (fold_left (cidrStep ip) l ([], -1)) as [b0 n0].
  specialize (IH b0 n0 eq_refl) as [IH1 IH2]. unfold cidrStep. cbn [fst snd].
  destruct (_ && _) eqn:E; intros [= <- <-].
  - apply andb_true_iff in E as [E1%Z.ltb_lt E2]. split.
    + right. exists e. rewrite elem_of_app, list_elem_of_singleton. tauto.
    + intros e' [He|He%list_elem_of_singleton]%elem_of_app Hc; [|by subst]. specialize (IH2 e' He Hc). lia.
  - split.
    + destruct IH1 as [?|(e' & He & ?)]; [by left|]. right. exists e'. rewrite elem_of_app. tauto.
    + intros e' [He|He%list_elem_of_singleton]%elem_of_app Hc; [auto|]. subst e'. rewrite Hc, andb_true_r in E. by apply Z.ltb_ge in E.
Qed.
End Geo.

(** C18. A client cannot choose its address. From a peer that is not a trusted proxy the
    address is the socket's, whatever the headers say; from a trusted one it is the
    socket's or the nearest address of the chain that is not a proxy's, and what the
    client put in front of that address does not change it. A class read from a header
    has at most sixteen bytes of a fixed alphabet. *)
Theorem client_address_unforgeable {U : Platform} {R : GoLib} remoteAddr trusted hdr :
  (PeerTrusted remoteAddr trusted = false -> forall hdr', ClientIP remoteAddr hdr trusted = ClientIP remoteAddr hdr' trusted) /\
  (forall ip, ClientIP remoteAddr hdr trusted = Some ip ->
     parseHostAddr remoteAddr = Some ip \/
     inAnyPrefix ip trusted = false /\
     exists spoofed proxies, forwardedFor hdr = spoofed ++ ip :: proxies /\ Forall (fun y => inAnyPrefix y trusted = true) proxies /\
       forall hdr' spoofed', forwardedFor hdr' = spoofed' ++ ip :: proxies -> ClientIP remoteAddr hdr' trusted = Some ip) /\
  (forall name, let c := Lookup (NewHeaderSource name) None hdr in
     c = Unknown \/ (length c <= maxGeoClassLen)%nat /\ forallb geoClassByte c = true).
Proof.
  split_and!.
  - intros Ht hdr'. by rewrite !PeerTrusted_ClientIP.
  - intros ip Hip. destruct (ClientIP_trusted _ _ _ _ Hip) as [?|(a & b & Hf & Hn & Hb & Ht)]; [by left|]. right. split; [done|].
    exists a, b. split_and!; [done..|]. intros hdr' a' Hf'. unfold PeerTrusted, ClientIP in *.
    destruct (parseHostAddr remoteAddr) as [peer|]; [|by destruct (bool_decide _)]. destruct (bool_decide _); [done|]. rewrite Ht. cbn.
    rewrite Hf', find_rev_app. cbn [rev].
    replace (rev b ++ [ip]) with (rev ([ip] ++ b)) by done. rewrite find_rev_app.
    assert (List.find (fun ip => negb (inAnyPrefix ip trusted)) (rev b) = None) as ->.
    { apply Forall_rev in Hb. induction Hb as [|y l Hy _ IH]; [done|]. cbn. by rewrite Hy. }
    cbn. by rewrite Hn.
  - intros name. cbn. destruct hdr as [h|]; [|by left]. case_bool_decide; [by left|]. apply boundGeoClass_spec.
Qed.
