(* ===== verification/Forward.v ===== *)
(** * Headers between the client, the cache and the origin ([internal/server/handler.go],
    [encode.go], [transform.go], [upgrade.go])

    What is forwarded to an origin and copied from its response, the conditional and
    range preconditions, the negotiation of an encoding and the small predicates of the
    handler.  [http.ParseTime] is a parameter. *)

From stdpp Require Import base strings pretty numbers gmap list.
From Stdlib Require Import Lia SpecFloat.
From S2P Require Import Prelude GoStrings Netip Http Duration Host Request Rules Geo.
Open Scope Z_scope.

(** ** Headers in place *)

Definition Add (h : header) (name v : bytes) : header :=
  <[CanonicalHeaderKey name := Values h name ++ [v]]> h.

(** The connection-scoped headers. *)
Definition hopByHop : list bytes :=
  map go ["Connection"; "Keep-Alive"; "Proxy-Authenticate"; "Proxy-Authorization"; "Te"; "Trailer"; "Transfer-Encoding"; "Upgrade"]%string.

Definition rawValues (h : header) (k : bytes) : list bytes := default [] (h !! k).

Definition canonicalizeRequestCookies (h : header) : header :=
  match rawValues h (go "Cookie") with
  | (_ :: _ :: _) as lines => <[go "Cookie" := [Join lines (go "; ")]]> h
  | _ => h
  end.

(** The names a [Connection] header lists. *)
Definition connectionTokens (src : header) : list bytes :=
  flat_map (fun v => omap (fun tok => let tok := TrimString tok in
                             if bool_decide (tok = []) then None else Some (CanonicalHeaderKey tok)) (SplitByte v ","))
    (rawValues src (go "Connection")).

Definition applyHeaderOp (h : header) (op : HeaderOp) : header :=
  match ho_op op with
  | OpSet => Set_ h (ho_name op) (ho_value op)
  | OpAppend => Add h (ho_name op) (ho_value op)
  | OpRemove => Del h (ho_name op)
  | _ => h
  end.

Definition applyHeaderOps (h : header) (ops : list HeaderOp) : header := fold_left applyHeaderOp ops h.

(** Keys of the source are canonical already; values are appended to those present. *)
Definition copyOriginHeaders (hdr src : header) : header :=
  let conn := connectionTokens src in
  map_fold (fun k vs out =>
    if bool_decide (k ∈ hopByHop) || bool_decide (k ∈ conn) then out
    else <[k := rawValues out k ++ vs]> out) hdr src.

Definition restoreClientCookie (h : header) (orig : bytes) : header :=
  if bool_decide (orig = []) then Del h (go "Cookie") else Set_ h (go "Cookie") orig.

Definition prependCookieOp (ops : list HeaderOp) (orig : bytes) : list HeaderOp :=
  (if bool_decide (orig = []) then mkHeaderOp OpRemove (go "Cookie") [] false
   else mkHeaderOp OpSet (go "Cookie") orig false) :: ops.

Definition setIfNonEmpty (h : header) (name v : bytes) : header := if bool_decide (v = []) then h else Set_ h name v.

Definition secondNs : Z := 1000000000.

Definition setSharedFreshness (h : header) (ttl : Z) (private : bool) : header :=
  let secs := Z.max 0 (Z.quot ttl secondNs) in
  Del (Set_ h (go "Cache-Control") ((if private then go "private" else go "public") ++ go ", max-age=" ++ Itoa secs)) (go "Expires").

Definition applyCORS (h : header) (c : CORSDecision) (reqOrigin : bytes) : header :=
  let h :=
    if AllowAllOrigins c then Set_ h (go "Access-Control-Allow-Origin") (go "*")
    else if negb (bool_decide (Origins c = [])) && negb (bool_decide (reqOrigin = [])) && bool_decide (reqOrigin ∈ Origins c)
         then Add (Set_ h (go "Access-Control-Allow-Origin") reqOrigin) (go "Vary") (go "Origin")
    else h in
  let h := if bool_decide (Methods c = []) then h else Set_ h (go "Access-Control-Allow-Methods") (Join (Methods c) (go ", ")) in
  if bool_decide (CORSHeaders c = []) then h else Set_ h (go "Access-Control-Allow-Headers") (Join (CORSHeaders c) (go ", ")).

(** ** Methods *)

Definition isSafeMethod (m : bytes) : bool := bool_decide (m ∈ map go [""; "GET"; "HEAD"]%string).

Section Forward.
Context {U : Platform} {R : GoLib}.

(** ** The request to an origin *)

Record forwardCtx : Type := mkFwd { fw_remoteAddr : bytes; fw_tls : bool; fw_host : bytes; fw_trusted : list Prefix }.

Definition applyForwardedHeaders (out client : header) (fwd : forwardCtx) (appendPeer : bool) : header :=
  let scheme := if fw_tls fwd then go "https" else go "http" in
  let host := normalizeHost uni_lower (fw_host fwd) in
  let peer := ClientIP (fw_remoteAddr fwd) None [] in
  let setHost h := if bool_decide (host = []) then h else Set_ h (go "X-Forwarded-Host") host in
  if PeerTrusted (fw_remoteAddr fwd) (fw_trusted fwd) then
    let out := match peer with
               | Some a => if appendPeer then Set_ out (go "X-Forwarded-For") (Join (Values client (go "X-Forwarded-For") ++ [addrString a]) (go ", ")) else out
               | None => out
               end in
    let out := if bool_decide (Get out (go "X-Forwarded-Proto") = []) then Set_ out (go "X-Forwarded-Proto") scheme else out in
    let out := if bool_decide (Get out (go "X-Forwarded-Host") = []) then setHost out else out in
    match ClientIP (fw_remoteAddr fwd) (Some client) (fw_trusted fwd) with
    | Some rc => Set_ out (go "X-Real-IP") (addrString rc)
    | None => out
    end
  else
    let out :=
      match peer with
      | Some a =>
        let out := if appendPeer then Set_ out (go "X-Forwarded-For") (addrString a) else Del out (go "X-Forwarded-For") in
        Set_ out (go "X-Real-IP") (addrString a)
      | None => Del (Del out (go "X-Forwarded-For")) (go "X-Real-IP")
      end in
    Del (setHost (Set_ out (go "X-Forwarded-Proto") scheme)) (go "Forwarded").

(** The client's headers without the connection-scoped ones and [Host]. *)
Definition forwardable (client : header) : header :=
  let conn := connectionTokens client in
  filter (fun kv => ¬ (kv.1 ∈ hopByHop) /\ ¬ (kv.1 ∈ conn) /\ kv.1 <> go "Host") client.

Definition buildOriginHeader (client : header) (ops : list HeaderOp) (fwd : option forwardCtx) : header :=
  let out := forwardable client in
  applyHeaderOps (match fwd with Some fwd => applyForwardedHeaders out client fwd true | None => out end) ops.

(** ** Preconditions *)

Definition trimETagWeak (tag : bytes) : bytes := TrimPrefix tag (go "W/").

Definition ifNoneMatch (inm etag : bytes) : bool :=
  let inm := TrimSpace inm in
  if bool_decide (inm = go "*") then true
  else if bool_decide (etag = []) then false
  else existsb (fun tok => bool_decide (trimETagWeak (TrimSpace tok) = trimETagWeak etag)) (SplitByte inm ",").

Section Time.
Variable ParseTime : bytes -> option Z.

Definition conditionalNotModified (reqHdr : header) (etag lastModified : bytes) (now : Z) : bool :=
  let inm := Get reqHdr (go "If-None-Match") in
  if negb (bool_decide (inm = [])) then ifNoneMatch inm etag
  else
    let ims := Get reqHdr (go "If-Modified-Since") in
    if bool_decide (ims = []) || bool_decide (lastModified = []) then false
    else match ParseTime ims, ParseTime lastModified with
         | Some i, Some l => negb (i <? l) && negb (now <? i)
         | _, _ => false
         end.

Definition ifRangeAllowsRange (ifRange etag lastModified : bytes) : bool :=
  let ifRange := TrimSpace ifRange in
  if bool_decide (ifRange = []) then true
  else if HasPrefix ifRange [Zbyte 34] then
    negb (bool_decide (etag = [])) && negb (HasPrefix etag (go "W/")) && bool_decide (ifRange = etag)
  else if HasPrefix ifRange (go "W/") then false
  else if bool_decide (lastModified = []) then false
  else match ParseTime ifRange, ParseTime lastModified with
       | Some i, Some l => i =? l
       | _, _ => false
       end.
End Time.

Definition clientForcesRevalidate (reqHdr : header) : bool :=
  let cc := Get reqHdr (go "Cache-Control") in
  let p := Get reqHdr (go "Pragma") in
  (negb (bool_decide (cc = [])) &&
   existsb (fun tok => bool_decide (toLower (TrimSpace tok) ∈ map go ["no-cache"; "max-age=0"]%string)) (SplitByte cc ","))
  || (negb (bool_decide (p = [])) && existsb (fun tok => EqualFold (TrimSpace tok) (go "no-cache")) (SplitByte p ",")).

(** ** Encodings *)

(** The verdict of each listed coding in turn; the coding asked for decides. *)
Fixpoint acceptsLoop (parts : list bytes) (coding : bytes) (star : bool) : bool :=
  match parts with
  | [] => star
  | part :: parts =>
    let tok := TrimSpace part in
    let '(tok, q) :=
      match IndexByte tok ";" with
      | Some i =>
        let params := drop (S i) tok in
        (TrimSpace (take i tok),
         match Index (toLower params) (go "q=") with Some j => TrimSpace (drop (j + 2) params) | None => go "1" end)
      | None => (tok, go "1")
      end in
    let accepted := negb (bool_decide (q ∈ map go ["0"; "0.0"; "0.00"; "0.000"]%string)) in
    if EqualFold tok coding then accepted
    else acceptsLoop parts coding (if bool_decide (tok = go "*") then accepted else star)
  end.

Definition clientAcceptsEncoding (acceptEncoding coding : bytes) : bool :=
  if bool_decide (coding = []) || EqualFold coding (go "identity") then true
  else acceptsLoop (SplitByte acceptEncoding ",") coding false.

(** A coding and whether its weight is positive. *)
Definition parseCoding (part : bytes) : bytes * bool :=
  let part := TrimSpace part in
  if bool_decide (part = []) then ([], false)
  else match IndexByte part ";" with
       | Some i =>
         let q := fold_left (fun q p => let p := TrimSpace p in
                    if HasPrefix p (go "q=") then match parseFloat (TrimSpace (drop 2 p)) with Some f => f | None => q end else q)
                    (SplitByte (drop (S i) part) ";") (f_of_Z 1) in
         (toLower (TrimSpace (take i part)), SFltb (S754_zero false) q)
       | None => (toLower part, true)
       end.

(** The client's verdict on each coding it names, the last one for [*] apart. *)
Definition acceptedMap (accept : bytes) : gmap bytes bool * option bool :=
  fold_left (fun '(m, star) part =>
    let '(token, ok) := parseCoding part in
    if bool_decide (token = []) then (m, star)
    else if bool_decide (token = go "*") then (m, Some ok)
    else (<[token := ok]> m, star)) (SplitByte accept ",") (∅, None).

Definition negotiateEncoding (enc : option encodeRule) (accept : bytes) : bytes :=
  match enc with
  | None => []
  | Some enc =>
    let accept := TrimSpace accept in
    if bool_decide (accept = []) then []
    else
      let '(m, star) := acceptedMap accept in
      default [] (List.find (fun codec => match m !! codec with Some ok => ok | None => default false star end) (en_codecs enc))
  end.

Definition contentTypeIncluded (ct : bytes) (types : list bytes) : bool :=
  let ct := match IndexByte ct ";" with Some i => take i ct | None => ct end in
  let ct := toLower (TrimSpace ct) in
  if bool_decide (ct = []) then false
  else
    let top := match IndexByte ct "/" with Some i => take i ct | None => ct end in
    existsb (fun t => let t := toLower t in
      bool_decide (t = ct) || (HasSuffix t (go "/*") && bool_decide (take (length t - 1) t = top ++ go "/"))) types.

Definition encodeApplies (enc : option encodeRule) (codec : bytes) (hdr : header) (size : Z) (isRange isHead : bool) : bool :=
  match enc with
  | None => false
  | Some enc =>
    if bool_decide (codec = []) || isRange || isHead then false
    else if negb (bool_decide (Get hdr (go "Content-Encoding") = [])) then false
    else if negb (contentTypeIncluded (Get hdr (go "Content-Type")) (en_types enc)) then false
    else negb ((0 <=? size) && (size <? en_minLength enc))
  end.

Definition addVaryAcceptEncoding (hdr : header) : header :=
  if existsb (fun v => existsb (fun tok => let tok := TrimSpace tok in
                 bool_decide (tok = go "*") || EqualFold tok (go "Accept-Encoding")) (SplitByte v ",")) (Values hdr (go "Vary"))
  then hdr else Add hdr (go "Vary") (go "Accept-Encoding").

Definition weakenETag (hdr : header) : header :=
  let et := Get hdr (go "ETag") in
  if bool_decide (et = []) || HasPrefix et (go "W/") then hdr else Set_ hdr (go "ETag") (go "W/" ++ et).

Definition applyEncodeHeaders (hdr : header) (codec : bytes) : header :=
  weakenETag (Del (addVaryAcceptEncoding (Set_ hdr (go "Content-Encoding") codec)) (go "Content-Length")).

Definition ensureVaryForEncode (enc : option encodeRule) (hdr : header) (statusOK : bool) : header :=
  match enc with
  | None => hdr
  | Some enc =>
    if negb statusOK then hdr
    else if negb (bool_decide (Get hdr (go "Content-Encoding") = [])) then hdr
    else if negb (contentTypeIncluded (Get hdr (go "Content-Type")) (en_types enc)) then hdr
    else addVaryAcceptEncoding hdr
  end.

(** ** Body transforms *)

Definition maxTransformBody : Z := Z.shiftl 1 20.

Definition transformsApply (repls : list Replacement) (hdr : header) (isRange isHead : bool) : bool :=
  negb (bool_decide (repls = [])) && negb isRange && negb isHead && bool_decide (Get hdr (go "Content-Encoding") = []).
End Forward.

(** [strings.ReplaceAll] for a non-empty old string. *)
Fixpoint replaceAll_fuel (n : nat) (s old new : bytes) : bytes :=
  match n, Index s old with
  | S n, Some i => take i s ++ new ++ replaceAll_fuel n (drop (i + length old) s) old new
  | _, _ => s
  end.

Definition ReplaceAll (s old new : bytes) : bytes := replaceAll_fuel (length s) s old new.

Definition applyReplacements (body : bytes) (repls : list Replacement) : bytes :=
  fold_left (fun s r => if bool_decide (Old r = []) then s else ReplaceAll s (Old r) (New r)) repls body.

(** ** Upgrades *)

Definition listsUpgrade (h : header) : bool :=
  existsb (fun v => existsb (fun tok => EqualFold (TrimSpace tok) (go "upgrade")) (SplitByte v ",")) (rawValues h (go "Connection")).

Definition upgradeType (h : header) : bytes := if listsUpgrade h then Get h (go "Upgrade") else [].

Definition isPrintableASCII (s : bytes) : bool := forallb (fun c => (0x20 <=? byteZ c) && (byteZ c <=? 0x7E)) s.

Definition isUpgradeRequest (h : header) : bool := negb (bool_decide (Get h (go "Upgrade") = [])) && listsUpgrade h.

Definition minTunnelIdle : Z := 15 * 60 * secondNs.

(** The check of [upgradeTransport.RoundTrip] on a 101: [None] for an error. *)
Definition upgradeAccepted (req res : header) : bool :=
  let resUpType := upgradeType res in isPrintableASCII resUpType && EqualFold (upgradeType req) resUpType.

(** The idle time [newIdleTunnelConn] arms. *)
Definition tunnelIdle (idle floor : Z) : Z := let floor := if floor <=? 0 then minTunnelIdle else floor in Z.max idle floor.

(** ** Facts *)

Lemma replaceAll_fuel_enough old new : old <> [] -> forall n m s, (length s <= n)%nat -> (length s <= m)%nat ->
  replaceAll_fuel n s old new = replaceAll_fuel m s old new.
Proof.
  intros Hold. assert (0 < length old)%nat as Hl by (destruct old; cbn; [done|lia]).
  induction n as [|n IH]; intros m s Hn Hm.
  - destruct s; [|cbn in Hn; lia]. destruct m; [done|]. cbn. by destruct old.
  - destruct m as [|m].
    + destruct s; [|cbn in Hm; lia]. cbn. by destruct old.
    + cbn. destruct (Index s old) as [i|] eqn:E; [|done]. do 2 f_equal. apply Index_Some in E as E'.
      assert (0 < length s)%nat. { destruct s; cbn; [|lia]. cbn in E. by destruct old. }
      apply IH; rewrite length_drop; lia.
Qed.

Definition touches (name : bytes) (op : HeaderOp) : Prop := CanonicalHeaderKey (ho_name op) = name.

Lemma applyHeaderOps_other k ops : forall h, Forall (fun op => ~ touches k op) ops -> applyHeaderOps h ops !! k = h !! k.
Proof.
  unfold applyHeaderOps, touches. induction ops as [|op ops IH]; intros h H; [done|]. inversion_clear H as [|? ? Ho Hr].
  cbn. rewrite IH by done. unfold applyHeaderOp, Set_, Add, Del.
  destruct (ho_op op); rewrite ?lookup_insert_ne, ?lookup_delete_ne by done; done.
Qed.

Lemma copyOriginHeaders_lookup hdr src k :
  copyOriginHeaders hdr src !! k =
  if bool_decide (k ∈ hopByHop) || bool_decide (k ∈ connectionTokens src) then hdr !! k
  else match src !! k with Some vs => Some (rawValues hdr k ++ vs) | None => hdr !! k end.
Proof.
  unfold copyOriginHeaders. generalize (connectionTokens src) as conn. intros conn.
  apply (map_fold_weak_ind (fun out m => out !! k =
    if bool_decide (k ∈ hopByHop) || bool_decide (k ∈ conn) then hdr !! k
    else match m !! k with Some vs => Some (rawValues hdr k ++ vs) | None => hdr !! k end)); [by destruct (_ || _)|].
  intros i vs m out Hi IH. destruct (decide (i = k)) as [->|Hne].
  - rewrite lookup_insert_eq. destruct (bool_decide (k ∈ hopByHop) || _) eqn:E; [done|]. rewrite lookup_insert_eq.
    unfold rawValues. by rewrite IH, Hi.
  - rewrite (lookup_insert_ne m) by done. rewrite <- IH. destruct (bool_decide (i ∈ hopByHop) || _); [done|].
    by rewrite lookup_insert_ne.
Qed.

Section Facts.
Context {U : Platform} {R : GoLib}.

(** The names the forwarding policy sets. *)
Definition forwardedNames : list bytes :=
  map go ["X-Forwarded-For"; "X-Real-Ip"; "X-Forwarded-Proto"; "X-Forwarded-Host"; "Forwarded"]%string.

Lemma canonical_forwarded :
  CanonicalHeaderKey (go "X-Forwarded-For") = go "X-Forwarded-For" /\ CanonicalHeaderKey (go "X-Real-IP") = go "X-Real-Ip" /\
  CanonicalHeaderKey (go "X-Forwarded-Proto") = go "X-Forwarded-Proto" /\
  CanonicalHeaderKey (go "X-Forwarded-Host") = go "X-Forwarded-Host" /\ CanonicalHeaderKey (go "Forwarded") = go "Forwarded".
Proof. vm_compute. done. Qed.

Lemma Set_ne h name v k : CanonicalHeaderKey name <> k -> Set_ h name v !! k = h !! k.
Proof. apply lookup_insert_ne. Qed.

Lemma Del_ne h name k : CanonicalHeaderKey name <> k -> Del h name !! k = h !! k.
Proof. apply lookup_delete_ne. Qed.

Lemma applyForwarded_other out client fwd b k : k ∉ forwardedNames -> applyForwardedHeaders out client fwd b !! k = out !! k.
Proof.
  intros Hk. destruct canonical_forwarded as (E1 & E2 & E3 & E4 & E5). unfold forwardedNames in Hk. cbn [map] in Hk.
  rewrite !not_elem_of_cons in Hk. destruct Hk as (H1 & H2 & H3 & H4 & H5 & _).
  assert (forall n, CanonicalHeaderKey n <> k -> forall h v, Set_ h n v !! k = h !! k) as HS by (intros; by apply Set_ne).
  assert (forall n, CanonicalHeaderKey n <> k -> forall h, Del h n !! k = h !! k) as HD by (intros; by apply Del_ne).
  pose proof (HS (go "X-Forwarded-For") ltac:(congruence)) as S1. pose proof (HS (go "X-Real-IP") ltac:(congruence)) as S2.
  pose proof (HS (go "X-Forwarded-Proto") ltac:(congruence)) as S3. pose proof (HS (go "X-Forwarded-Host") ltac:(congruence)) as S4.
  pose proof (HD (go "X-Forwarded-For") ltac:(congruence)) as D1. pose proof (HD (go "X-Real-IP") ltac:(congruence)) as D2.
  pose proof (HD (go "Forwarded") ltac:(congruence)) as D5. clear -S1 S2 S3 S4 D1 D2 D5.
  unfold applyForwardedHeaders. cbv zeta.
  destruct (PeerTrusted _ _), (ClientIP (fw_remoteAddr fwd) None []), b, (ClientIP (fw_remoteAddr fwd) (Some client) (fw_trusted fwd));
    cbv iota; repeat case_bool_decide; rewrite ?D5, ?S4, ?S3, ?S2, ?D2, ?S4, ?S3, ?S1, ?D1; done.
Qed.
Lemma Set_eq h name v k : CanonicalHeaderKey name = k -> Set_ h name v !! k = Some [v].
Proof. intros <-. apply lookup_insert_eq. Qed.

Lemma Del_eq h name k : CanonicalHeaderKey name = k -> Del h name !! k = None.
Proof. intros <-. apply lookup_delete_eq. Qed.

(** The forwarded family as an untrusted peer's request carries it. *)
Definition verified (fwd : forwardCtx) (k : bytes) : option (list bytes) :=
  if bool_decide (k = go "X-Forwarded-For") || bool_decide (k = go "X-Real-Ip") then
    (fun a => [addrString a]) <$> ClientIP (fw_remoteAddr fwd) None []
  else if bool_decide (k = go "X-Forwarded-Proto") then Some [if fw_tls fwd then go "https" else go "http"]
  else if bool_decide (k = go "X-Forwarded-Host") then Some [normalizeHost uni_lower (fw_host fwd)]
  else None.

Lemma applyForwarded_untrusted out client fwd k :
  PeerTrusted (fw_remoteAddr fwd) (fw_trusted fwd) = false -> normalizeHost uni_lower (fw_host fwd) <> [] ->
  k ∈ forwardedNames -> applyForwardedHeaders out client fwd true !! k = verified fwd k.
Proof.
  intros Ht Hh Hk. destruct canonical_forwarded as (E1 & E2 & E3 & E4 & E5).
  unfold applyForwardedHeaders. cbv zeta. rewrite Ht, (bool_decide_eq_false_2 (normalizeHost uni_lower (fw_host fwd) = [])) by done.
  assert (forall n, CanonicalHeaderKey n <> k -> forall h v, Set_ h n v !! k = h !! k) as HS by (intros; by apply Set_ne).
  assert (forall n, CanonicalHeaderKey n <> k -> forall h, Del h n !! k = h !! k) as HD by (intros; by apply Del_ne).
  unfold forwardedNames in Hk. cbn [map] in Hk. rewrite !elem_of_cons in Hk.
  destruct Hk as [->|[->|[->|[->|[->|?%elem_of_nil]]]]]; [..|done].
  - rewrite HD by (by rewrite E5). rewrite HS by (by rewrite E4). rewrite HS by (by rewrite E3).
    destruct (ClientIP _ _ _) as [a|] eqn:Ec; unfold verified; rewrite Ec.
    + rewrite HS by (by rewrite E2). by apply Set_eq.
    + rewrite HD by (by rewrite E2). by apply Del_eq.
  - rewrite HD by (by rewrite E5). rewrite HS by (by rewrite E4). rewrite HS by (by rewrite E3).
    destruct (ClientIP _ _ _) as [a|] eqn:Ec; unfold verified; rewrite Ec; [by apply Set_eq|by apply Del_eq].
  - rewrite HD by (by rewrite E5). rewrite HS by (by rewrite E4). by apply Set_eq.
  - rewrite HD by (by rewrite E5). by apply Set_eq.
  - by apply Del_eq.
Qed.
End Facts.

(** C12. What an origin is told about the client comes from the connection. No
    connection-scoped header and no header a client names in [Connection] is forwarded;
    from a peer that is not a trusted proxy, the X-Forwarded family, X-Real-IP and
    Forwarded have the values of the socket and the request line, whatever the client
    sent, unless a rule of the site sets them. *)
Theorem origin_headers_verified {U : Platform} {R : GoLib} client ops fwd k :
  Forall (fun op => ~ touches k op) ops -> let out := buildOriginHeader client ops (Some fwd) in
  (k ∉ forwardedNames -> k ∈ hopByHop \/ k ∈ connectionTokens client \/ k = go "Host" -> out !! k = None) /\
  (PeerTrusted (fw_remoteAddr fwd) (fw_trusted fwd) = false -> normalizeHost uni_lower (fw_host fwd) <> [] ->
   k ∈ forwardedNames -> out !! k = verified fwd k).
Proof.
  intros Ho out. unfold out, buildOriginHeader. rewrite applyHeaderOps_other by done. split.
  - intros Hk Hhop. rewrite applyForwarded_other by done. unfold forwardable. apply map_lookup_filter_None. right.
    intros x _ (H1 & H2 & H3). cbn in *. tauto.
  - intros Ht Hh Hk. by apply applyForwarded_untrusted.
Qed.

Section Example.
#[local] Existing Instance amd64.
#[local] Existing Instance noLib.

Lemma origin_headers_verified_witness :
  let fwd := mkFwd (go "192.0.2.7:5000") true (go "shop.example") [] in
  let client := list_to_map [(go "X-Forwarded-For", [go "10.0.0.1"]); (go "Connection", [go "X-Secret"]); (go "X-Secret", [go "1"])] in
  buildOriginHeader client [] (Some fwd) !! go "X-Forwarded-For" = Some [go "192.0.2.7"] /\
  buildOriginHeader client [] (Some fwd) !! go "X-Secret" = None.
Proof.
  intros fwd client. split.
  - rewrite (proj2 (@origin_headers_verified amd64 noLib client [] fwd (go "X-Forwarded-For") (List.Forall_nil _)));
      [vm_compute; reflexivity|vm_compute; reflexivity|vm_compute; discriminate|by apply (bool_decide_unpack _)].
  - apply (proj1 (@origin_headers_verified amd64 noLib client [] fwd (go "X-Secret") (List.Forall_nil _)));
      [by apply (bool_decide_unpack _)|right; left; by apply (bool_decide_unpack _)].
Defined.

(** Without a host in the request line the client's own X-Forwarded-Host survives, though
    the policy calls every such header of an untrusted peer spoofable. *)
Example empty_host_keeps_forged_host :
  buildOriginHeader {[go "X-Forwarded-Host" := [go "evil.example"]]} [] (Some (mkFwd (go "192.0.2.7:5000") false (go ":80") []))
    !! go "X-Forwarded-Host" = Some [go "evil.example"].
Proof. vm_compute. reflexivity. Qed.
End Example.
