(* ===== verification/Limiter.v ===== *)
(** * The rate limiter ([internal/ratelimit/limiter.go])

    One token bucket per key, in shards each behind its lock, so that [Allow] and the
    sweep of a shard are atomic.  The code computes tokens in [float64]; the model takes
    the arithmetic from the class [Num], whose instances are [float64], in which the
    rate of admission is bounded up to rounding, and the rationals.  The seeded hash that
    picks a shard is a parameter. *)

From stdpp Require Import base strings numbers gmap list sorting.
From Stdlib Require Import Lia SpecFloat QArith Qround Lqa.
From S2P Require Import Prelude GoStrings Http Duration Float64 Freshness.
Open Scope Z_scope.

(** ** Arithmetic *)

Class Num := {
  num : Type;
  nofZ : Z -> num;
  nadd : num -> num -> num;
  nsub : num -> num -> num;
  nmul : num -> num -> num;
  ndiv : num -> num -> num;
  nlt : num -> num -> bool;
  nle : num -> num -> bool;
  nint : num -> Z;     (* conversion to int64 *)
  nceil : num -> Z     (* [int(math.Ceil(x))] *)
}.

(** The exact [float64] ceiling of a finite value, then the conversion. *)
Definition fceil {U : Platform} (f : float64) : Z :=
  let t := f_to_int64 f in if SFltb (f_of_Z t) f then t + 1 else t.

Definition float_num {U : Platform} : Num :=
  {| num := float64; nofZ := f_of_Z; nadd := fadd; nsub := SFsub 53 1024; nmul := fmul; ndiv := fdiv;
     nlt := SFltb; nle := SFleb; nint := f_to_int64; nceil := fceil |}.

Definition rational_num : Num :=
  {| num := Q; nofZ := inject_Z; nadd := Qplus; nsub := Qminus; nmul := Qmult; ndiv := Qdiv;
     nlt := fun a b => negb (Qle_bool b a);
     nle := Qle_bool; nint := fun q => Z.quot (Qnum q) (Zpos (Qden q)); nceil := Qceiling |}.

Section Limiter.
Context {N : Num}.

(** ** Rules and buckets *)

Record rateRule : Type := mkRateRule { RatePerSec : num; Burst : Z }.

Definition capacity (r : rateRule) : num := let c := nofZ (Burst r) in if nlt c (nofZ 1) then nofZ 1 else c.

Record rateDecision : Type := mkRateDecision { rl_ok : bool; RetryAfter : Z }.

Record bucket : Type := mkBucket { tokens : num; lastFill : Z; lastSeen : Z }.

Abbreviation rshard := (gmap bytes bucket).

Definition numShards : nat := 64.
Definition idleTTL : Z := 10 * 60 * 1000000000.
Definition maxBucketsPerShard : Z := 4096.

(** [Duration.Seconds]. *)
Definition durationSeconds (d : Z) : num :=
  nadd (nofZ (Z.quot d 1000000000)) (ndiv (nofZ (Z.rem d 1000000000)) (nofZ 1000000000)).

Definition evictOldestLocked (target : Z) (s : rshard) : rshard :=
  if Z.of_nat (size s) <=? target then s
  else
    let times := merge_sort Z.le (map (fun kb => lastSeen (snd kb)) (map_to_list s)) in
    let cutoff := nth (Z.to_nat (Z.of_nat (length times) - target)) times 0 in
    filter (fun kb => Before (lastSeen (snd kb)) cutoff = false) s.

(** The bucket of a key as it is before a token is taken. *)
Definition fill (r : rateRule) (b : bucket) (now : Z) : bucket :=
  let elapsed := TSub now (lastFill b) in
  if 0 <? elapsed then
    let t := nadd (tokens b) (nmul (RatePerSec r) (durationSeconds elapsed)) in
    mkBucket (if nlt (capacity r) t then capacity r else t) now (lastSeen b)
  else b.

Definition retryAfter (r : rateRule) (t : num) : Z :=
  if nlt (nofZ 0) (RatePerSec r) then
    let retry := nint (nmul (ndiv (nsub (nofZ 1) t) (RatePerSec r)) (nofZ 1000000000)) in
    if retry <=? 0 then 1 else retry
  else idleTTL.

(** [Allow] within the shard of the key. *)
Definition allowShard (s : rshard) (key : bytes) (r : rateRule) (now : Z) : rateDecision * rshard :=
  let '(b, s) :=
    match s !! key with
    | None =>
      (mkBucket (capacity r) now now,
       if maxBucketsPerShard <=? Z.of_nat (size s) then evictOldestLocked (maxBucketsPerShard * 7 / 8) s else s)
    | Some b => (fill r b now, s)
    end in
  if nle (nofZ 1) (tokens b)
  then (mkRateDecision true 0, <[key := mkBucket (nsub (tokens b) (nofZ 1)) (lastFill b) now]> s)
  else (mkRateDecision false (retryAfter r (tokens b)), <[key := mkBucket (tokens b) (lastFill b) now]> s).

Definition limiter : Type := list rshard.

Definition NewLimiter : limiter := replicate numShards ∅.

Section Hash.
(** [maphash] under the seed of the limiter. *)
Variable sum64 : bytes -> Z.

Definition rateShardIndex (key : bytes) : nat := Z.to_nat (Z.land (sum64 key) (Z.of_nat numShards - 1)).

Lemma rateShardIndex_lt key : (rateShardIndex key < numShards)%nat.
Proof.
  unfold rateShardIndex, numShards. change (Z.of_nat 64 - 1) with (Z.ones 6). rewrite Z.land_ones by lia.
  pose proof (Z.mod_pos_bound (sum64 key) (2 ^ 6) ltac:(lia)). lia.
Qed.

Definition limiterAllow (l : limiter) (key : bytes) (r : rateRule) (now : Z) : rateDecision * limiter :=
  let i := rateShardIndex key in
  let '(d, s) := allowShard (default ∅ (l !! i)) key r now in (d, <[i := s]> l).
End Hash.

Definition limiterSweep (l : limiter) (now : Z) : limiter :=
  let cutoff := TAdd now (- idleTTL) in
  map (fun s : rshard => filter (fun kb => Before (lastSeen (snd kb)) cutoff = false) s) l.

Definition limiterLen (l : limiter) : Z := fold_right (fun (s : rshard) n => Z.of_nat (size s) + n) 0 l.

Definition RetryAfterSeconds (d : Z) : Z := Z.max 1 (nceil (durationSeconds d)).

(** ** A shard over time *)

(** Calls of one shard: the key, its rule and the clock reading. *)
Abbreviation call := (bytes * rateRule * Z)%type.

Definition shardStep (s : rshard) (c : call) : rateDecision * rshard := let '(k, r, now) := c in allowShard s k r now.

(** The number of calls for [key] that are admitted, as long as its bucket is not evicted. *)
Fixpoint admissions (key : bytes) (s : rshard) (cs : list call) : Z :=
  match cs with
  | [] => 0
  | c :: cs =>
    let '(d, s') := shardStep s c in
    (if rl_ok d && bool_decide (fst (fst c) = key) then 1 else 0) + admissions key s' cs
  end.

Fixpoint kept (key : bytes) (s : rshard) (cs : list call) : bool :=
  match cs with
  | [] => true
  | c :: cs => bool_decide (is_Some (snd (shardStep s c) !! key)) && kept key (snd (shardStep s c)) cs
  end.

Lemma allow_other s k r now key : k <> key -> is_Some (snd (allowShard s k r now) !! key) ->
  snd (allowShard s k r now) !! key = s !! key.
Proof.
  intros Hne. unfold allowShard. destruct (s !! k) as [b|].
  - destruct (nle _ _); cbn; by rewrite lookup_insert_ne.
  - set (s' := if (maxBucketsPerShard <=? Z.of_nat (size s)) then _ else s).
    assert (forall b, s' !! key = Some b -> s !! key = Some b) as Hs'.
    { intros b. unfold s'. destruct (_ <=? _); [|done]. unfold evictOldestLocked. destruct (_ <=? _); [done|]. cbn zeta.
      rewrite map_lookup_filter_Some. by intros [? _]. }
    destruct (nle _ _); cbn; rewrite lookup_insert_ne by done; intros [b Hb]; rewrite Hb; symmetry; by apply Hs'.
Qed.

End Limiter.

(** ** The rate of admission in [float64] *)

Definition seconds (ns : Z) : Q := (inject_Z ns / inject_Z 1000000000)%Q.

Section Float.
Context {U : Platform}.
#[local] Existing Instance float_num.
Open Scope Q_scope.

Lemma seconds_add a b : seconds a + seconds b == seconds (a + b).
Proof. unfold seconds, Qdiv. rewrite inject_Z_plus. ring. Qed.

Lemma seconds_le a b : (a <= b)%Z -> seconds a <= seconds b.
Proof. intros H. unfold seconds, Qdiv. apply Qmult_le_compat_r; [by rewrite <- Zle_Qle|done]. Qed.

Lemma seconds_nonneg a : (0 <= a)%Z -> 0 <= seconds a.
Proof. intros H. unfold seconds, Qdiv. apply Qmult_le_0_compat; [by rewrite <- (Zle_Qle 0)|done]. Qed.

Lemma ulp_tiny : 0 < ulp /\ 0 < tiny /\ ulp <= 1 # 1000000 /\ 3 * tiny <= (1 # 1000000000) * ulp.
Proof. split; [apply ulp_pos|]. split; [apply tiny_pos|]. split; vm_compute; discriminate. Qed.

(** A number that is not huge is finite. *)
Lemma upto_fin X f : upto X f -> X < pow2 1000 -> fin f /\ val f <= X.
Proof. intros [[_ H]|H] HX; [lra|done]. Qed.

(** The quotient and the remainder, added up, are close to the duration. *)
Lemma durationSeconds_upto d : (0 < d <= int64_max)%Z ->
  fin (durationSeconds d) /\ val (durationSeconds d) <= seconds d * (1 + 4 * ulp).
Proof.
  intros Hd. unfold durationSeconds. set (q := Z.quot d 1000000000). set (r := Z.rem d 1000000000).
  assert (d = 1000000000 * q + r /\ 0 <= q /\ 0 <= r < 1000000000)%Z as (Ed & Hq & Hr).
  { unfold q, r. split; [apply Z.quot_rem'|]. split; [apply Z.quot_pos; lia|apply Z.rem_bound_pos; lia]. }
  unfold int64_max in Hd. destruct (f_of_Z_exact q ltac:(lia)) as [Fq Vq]. destruct (f_of_Z_exact r ltac:(lia)) as [Fr Vr].
  destruct ulp_tiny as (Hu & Ht & Hu1 & Htu). set (f := inject_Z r / inject_Z 1000000000).
  assert (0 <= f) as Hf. { unfold f, Qdiv. apply Qmult_le_0_compat; [rewrite <- (Zle_Qle 0); lia|done]. }
  assert (seconds d == inject_Z q + f) as Es. { unfold seconds, f. rewrite Ed, inject_Z_plus, inject_Z_mult. field. }
  assert ((1 # 1000000000) <= seconds d <= 9300000000) as Hs.
  { split; [apply Qle_trans with (seconds 1); [vm_compute; discriminate|apply seconds_le; lia]|].
    apply Qle_trans with (seconds 9300000000000000000); [apply seconds_le; lia|vm_compute; discriminate]. }
  assert (upto (f * (1 + ulp) + tiny) (fdiv (f_of_Z r) (f_of_Z 1000000000))) as Hdiv.
  { destruct (f_of_Z 1000000000) as [| | |s m e] eqn:E; try (by vm_compute in E). vm_compute in E. injection E as <- <- <-.
    apply fdiv_upto; [done|vm_compute; split_and!; (done || discriminate)| |done].
    rewrite Vr. unfold f. apply Qle_lteq. right.
    assert (scaled (Z.pos 8388608000000000) (-23) == inject_Z 1000000000) as E9 by (vm_compute; reflexivity). rewrite E9. field. }
  pose proof (fadd_upto _ _ (inject_Z q) _ Fq ltac:(rewrite Vq; apply Qle_refl) Hdiv) as Hsum. cbn [nadd ndiv nofZ float_num].
  assert ((inject_Z q + (f * (1 + ulp) + tiny)) * (1 + ulp) + tiny <= seconds d * (1 + 4 * ulp)) as Hle.
  { assert (0 <= inject_Z q) by (rewrite <- (Zle_Qle 0); lia). set (S := seconds d) in *.
    assert (3 * tiny <= S * ulp) by (apply Qle_trans with ((1 # 1000000000) * ulp); [done|apply Qmult_le_compat_r; lra]).
    assert (S * ulp * ulp <= S * ulp * 1) by (apply Qmult_le_l; [apply Qmult_lt_0_compat|]; lra).
    assert (tiny * ulp <= tiny * 1) by (apply Qmult_le_l; lra).
    assert (0 <= inject_Z q * ulp) by (apply Qmult_le_0_compat; lra).
    assert (0 <= inject_Z q * ulp * ulp) by (apply Qmult_le_0_compat; lra).
    assert (S * ulp == inject_Z q * ulp + f * ulp) by (rewrite Es; ring).
    assert (S * ulp * ulp == inject_Z q * ulp * ulp + f * ulp * ulp) by (rewrite Es; ring). lra. }
  assert (seconds d * (1 + 4 * ulp) < pow2 1000) as Hlt.
  { apply Qle_lt_trans with (9300000000 * (1 + 1)); [|vm_compute; reflexivity].
    apply Qle_trans with (9300000000 * (1 + 4 * ulp)); [apply Qmult_le_compat_r; lra|apply Qmult_le_l; lra]. }
  apply upto_fin; [|done]. by eapply upto_weaken.
Qed.

(** The capacity of a rule, and the slack of one call. *)
Definition capZ (r : rateRule) : Q := inject_Z (Z.max 1 (Burst r)).
Definition slack (r : rateRule) : Q := capZ r * (4 * ulp).

(** A rule as a configuration compiles it: a finite rate and a burst that is not absurd. *)
Definition rule_ok (r : rateRule) : Prop := fin (RatePerSec r) /\ (0 <= Burst r <= 2 ^ 50)%Z.

Lemma capacity_val r : rule_ok r -> fin (capacity r) /\ val (capacity r) == capZ r.
Proof.
  intros [_ Hb]. unfold capacity, capZ. destruct (f_of_Z_exact (Burst r) ltac:(lia)) as [Fb Vb].
  destruct (f_of_Z_exact 1 ltac:(lia)) as [F1 V1]. cbn [nlt nofZ float_num].
  destruct (SFltb (f_of_Z (Burst r)) (f_of_Z 1)) eqn:E.
  - apply SFltb_val in E; [|done..]. rewrite Vb, V1, <- Zlt_Qlt in E. rewrite Z.max_l by lia. done.
  - apply not_true_iff_false in E. rewrite SFltb_val, Vb, V1, <- Zlt_Qlt in E by done. rewrite Z.max_r by lia. done.
Qed.

Lemma capZ_bounds r : rule_ok r -> 1 <= capZ r /\ capZ r * (4 * ulp) <= 1 /\ capZ r < pow2 1000.
Proof.
  intros [_ Hb]. assert (1 <= capZ r) by (unfold capZ; rewrite <- (Zle_Qle 1); lia).
  assert (capZ r <= inject_Z (2 ^ 50)) as Hc by (unfold capZ; rewrite <- Zle_Qle; lia). destruct ulp_tiny as (Hu & _).
  split_and!; [done| |].
  - apply Qle_trans with (inject_Z (2 ^ 50) * (4 * ulp)); [apply Qmult_le_compat_r; lra|vm_compute; discriminate].
  - eapply Qle_lt_trans; [exact Hc|vm_compute; reflexivity].
Qed.

(** A bucket the code can hold: finite, within the capacity. *)
Definition bucket_ok (r : rateRule) (b : bucket) : Prop := fin (tokens b) /\ val (tokens b) <= capZ r.

(** A bucket filled up to an instant has gained at most the rate times the time, up to
    rounding. *)
Lemma fill_float r b now : rule_ok r -> bucket_ok r b ->
  bucket_ok r (fill r b now) /\ (lastFill b <= lastFill (fill r b now) <= Z.max (lastFill b) now)%Z /\
  val (tokens (fill r b now)) <= val (tokens b) + val (RatePerSec r) * seconds (lastFill (fill r b now) - lastFill b) * (1 + 8 * ulp) + capZ r * (2 * ulp).
Proof.
  intros Hrule [Fb Hb]. pose proof Hrule as [Fr _]. destruct (capacity_val r Hrule) as [Fc Vc]. destruct (capZ_bounds r Hrule) as (Hc1 & Hc2 & Hc3).
  destruct ulp_tiny as (Hu & Ht & Hu1 & Htu). pose proof (val_nonneg (RatePerSec r)) as Hr0. pose proof (val_nonneg (tokens b)) as Hb0.
  assert (0 <= capZ r * ulp) as Hcu by (apply Qmult_le_0_compat; lra).
  unfold fill. set (el := TSub now (lastFill b)). destruct (Z.ltb_spec 0 el) as [Hel|Hel].
  2: { split_and!; [done..|lia|lia|]. rewrite Z.sub_diag. assert (seconds 0 == 0) as -> by reflexivity. lra. }
  assert (0 < el <= now - lastFill b /\ el <= int64_max)%Z as [Hel' Hmax] by (unfold el, TSub, int64_min, int64_max in *; lia).
  destruct (durationSeconds_upto el ltac:(lia)) as [Fs Vs]. cbn [tokens lastFill nadd nmul nlt float_num].
  set (R := val (RatePerSec r)) in *. set (S := seconds el) in *. set (T := val (tokens b)) in *. set (C := capZ r) in *.
  assert (0 <= S) as HS by (apply seconds_nonneg; lia).
  assert (R * val (durationSeconds el) <= R * S * (1 + 4 * ulp)) as Hg.
  { rewrite <- Qmult_assoc, !(Qmult_comm R). by apply Qmult_le_compat_r. }
  pose proof (fmul_upto _ _ _ Fr Fs Hg) as Hm. pose proof (fadd_upto _ _ T _ Fb ltac:(apply Qle_refl) Hm) as Ha.
  set (sum := fadd (tokens b) _) in *. set (X := (T + _) * _ + _) in Ha.
  assert (X <= T + R * S * (1 + 8 * ulp) + C * (2 * ulp)) as HX.
  { unfold X. set (P := R * S). assert (0 <= P) as HP by (by apply Qmult_le_0_compat).
    assert (0 <= P * ulp) by (apply Qmult_le_0_compat; lra).
    assert (P * ulp * ulp <= P * ulp * (1 # 1000000)) by (rewrite !(Qmult_comm (P * ulp)); apply Qmult_le_compat_r; lra).
    assert (0 <= P * ulp * ulp) by (apply Qmult_le_0_compat; lra).
    assert (P * ulp * ulp * ulp <= P * ulp * ulp * (1 # 1000000)) by (rewrite !(Qmult_comm (P * ulp * ulp)); apply Qmult_le_compat_r; lra).
    assert (T * ulp <= C * ulp) by (apply Qmult_le_compat_r; lra).
    assert (1 * ulp <= C * ulp) by (apply Qmult_le_compat_r; lra).
    assert (tiny * ulp <= tiny * 1) by (apply Qmult_le_l; lra). lra. }
  assert (R * S <= R * seconds (now - lastFill b)) as Hgain
    by (rewrite !(Qmult_comm R); apply Qmult_le_compat_r; [apply seconds_le; lia|done]).
  assert (R * S * (1 + 8 * ulp) <= R * seconds (now - lastFill b) * (1 + 8 * ulp)) as Hgain' by (apply Qmult_le_compat_r; lra).
  unfold bucket_ok. cbn [tokens lastFill]. fold C.
  destruct Ha as [[-> Hinf]|[Fsum Vsum]].
  - assert (SFltb (capacity r) (S754_infinity false) = true) as -> by (destruct (fin_cases _ Fc) as [[? ->]|(? & ? & -> & _)]; done).
    split_and!; [done|rewrite Vc; apply Qle_refl|lia|lia|]. rewrite Vc. fold C. lra.
  - destruct (SFltb (capacity r) sum) eqn:E.
    + apply SFltb_val in E; [|done..]. split_and!; [done|rewrite Vc; apply Qle_refl|lia|lia|]. lra.
    + apply not_true_iff_false in E. rewrite SFltb_val, Vc in E by done. fold C in E. split_and!; [done|lra|lia|lia|lra].
Qed.

(** Taking a token. *)
Lemma take_float r t : rule_ok r -> fin t -> 1 <= val t <= capZ r ->
  fin (nsub t (nofZ 1)) /\ val (nsub t (nofZ 1)) <= val t - 1 + capZ r * (2 * ulp).
Proof.
  intros Hrule Ft Ht. destruct (capZ_bounds r Hrule) as (Hc1 & Hc2 & Hc3). destruct ulp_tiny as (Hu & Hty & Hu1 & Htu).
  destruct (f_of_Z_exact 1 ltac:(lia)) as [F1 V1]. cbn [nsub nofZ float_num].
  assert (1 * ulp <= capZ r * ulp) by (apply Qmult_le_compat_r; lra).
  assert ((val t - val (f_of_Z 1)) * (1 + ulp) + tiny <= val t - 1 + capZ r * (2 * ulp)) as HX.
  { rewrite V1. change (inject_Z 1) with 1. assert (val t * ulp <= capZ r * ulp) by (apply Qmult_le_compat_r; lra). lra. }
  apply upto_fin; [|lra]. eapply upto_weaken; [apply fsub_upto; [done|done|rewrite V1; change (inject_Z 1) with 1; lra]|exact HX].
Qed.

Lemma allow_float s key r now b : rule_ok r -> s !! key = Some b -> bucket_ok r b ->
  exists b', snd (allowShard s key r now) !! key = Some b' /\ bucket_ok r b' /\
    (lastFill b <= lastFill b' <= Z.max (lastFill b) now)%Z /\
    inject_Z (if rl_ok (fst (allowShard s key r now)) then 1 else 0) + val (tokens b')
      <= val (tokens b) + val (RatePerSec r) * seconds (lastFill b' - lastFill b) * (1 + 8 * ulp) + slack r.
Proof.
  intros Hrule Hb Hok. unfold allowShard. rewrite Hb. destruct (fill_float r b now Hrule Hok) as ([F1 V1] & H2 & H3).
  destruct (capZ_bounds r Hrule) as (Hc1 & Hc2 & _). destruct ulp_tiny as (Hu & _). destruct (f_of_Z_exact 1 ltac:(lia)) as [Fo Vo].
  assert (0 <= capZ r * ulp) by (apply Qmult_le_0_compat; lra). unfold slack, bucket_ok. cbn [nle nofZ float_num].
  destruct (SFleb (f_of_Z 1) (tokens (fill r b now))) eqn:E; cbn [fst snd]; rewrite lookup_insert_eq; eexists; (split; [done|]);
    cbn [tokens lastFill rl_ok].
  - apply SFleb_val in E; [|done..]. rewrite Vo in E. change (inject_Z 1) with 1 in *.
    destruct (take_float r _ Hrule F1 (conj E V1)) as [F2 V2]. cbn [nofZ nsub float_num] in *. split; [split; [done|lra]|]. split; [done|]. lra.
  - change (inject_Z 0) with 0. split; [done|]. split; [done|lra].
Qed.

(** The tokens taken and those left never exceed those there were and those that came. *)
Lemma admissions_bound key r cs : rule_ok r -> Forall (fun c => fst (fst c) = key -> snd (fst c) = r) cs ->
  forall s b t, s !! key = Some b -> bucket_ok r b -> kept key s cs = true ->
  (lastFill b <= t)%Z -> Forall (fun c => snd c <= t)%Z cs ->
  inject_Z (admissions key s cs)
    <= val (tokens b) + val (RatePerSec r) * seconds (t - lastFill b) * (1 + 8 * ulp) + inject_Z (Z.of_nat (length cs)) * slack r.
Proof.
  intros Hrule Hcs. destruct (capZ_bounds r Hrule) as (Hc1 & _). destruct ulp_tiny as (Hu & _).
  assert (0 <= slack r) as Hsl by (unfold slack; apply Qmult_le_0_compat; lra). pose proof (val_nonneg (RatePerSec r)) as Hr0.
  induction Hcs as [|[[k r'] now] cs Hc Hcs IH]; intros s b t Hb Hbb Hk Ht Hnow.
  - cbn [admissions length]. change (inject_Z 0) with 0. change (inject_Z (Z.of_nat 0)) with 0. pose proof (val_nonneg (tokens b)).
    assert (0 <= val (RatePerSec r) * seconds (t - lastFill b) * (1 + 8 * ulp)); [|lra].
    apply Qmult_le_0_compat; [apply Qmult_le_0_compat; [done|]|lra]. apply seconds_nonneg. lia.
  - inversion Hnow as [|? ? Hn Hnow']; subst. cbn in Hc, Hn. cbn [kept shardStep] in Hk. cbn [admissions shardStep fst snd].
    apply andb_true_iff in Hk as [Hin%bool_decide_eq_true Hk].
    assert (inject_Z (Z.of_nat (length ((k, r', now) :: cs))) == inject_Z (Z.of_nat (length cs)) + 1) as El.
    { cbn [length]. rewrite Nat2Z.inj_succ. unfold Z.succ. by rewrite inject_Z_plus. }
    rewrite El. destruct (decide (k = key)) as [-> |Hne].
    + rewrite (Hc eq_refl) in *. destruct (allow_float s key r now b Hrule Hb Hbb) as (b' & Hb' & Hbb' & Hf & Hle).
      destruct (allowShard s key r now) as [d s'] eqn:E. cbn [fst snd] in *. rewrite bool_decide_true, andb_true_r by done.
      specialize (IH s' b' t Hb' Hbb' Hk ltac:(lia) Hnow'). rewrite inject_Z_plus.
      assert (val (RatePerSec r) * seconds (lastFill b' - lastFill b) * (1 + 8 * ulp) + val (RatePerSec r) * seconds (t - lastFill b') * (1 + 8 * ulp)
              == val (RatePerSec r) * seconds (t - lastFill b) * (1 + 8 * ulp)) as Hsum.
      { rewrite <- Qmult_plus_distr_l, <- Qmult_plus_distr_r, seconds_add.
        by replace (lastFill b' - lastFill b + (t - lastFill b'))%Z with (t - lastFill b)%Z by lia. }
      lra.
    + pose proof (allow_other s k r' now key Hne Hin) as Hsame. destruct (allowShard s k r' now) as [d s'] eqn:E. cbn [fst snd] in *.
      rewrite bool_decide_false, andb_false_r by done. rewrite Z.add_0_l. rewrite <- Hsame in Hb. specialize (IH s' b t Hb Hbb Hk Ht Hnow'). lra.
Qed.

(** C19. A key is admitted at no more than its rate, in [float64] arithmetic.  From the
    first call of a key, and as long as its bucket is not evicted, whatever other keys
    share the shard and however the calls are spread, the calls admitted are at most the
    capacity plus the rate times the elapsed time, up to rounding: the rate counts
    2^-49 more, and every call adds 2^-50 of the capacity.  The rate is finite and not
    negative, the burst at most 2^50, and all calls of the key use the same rule. *)
Theorem rate_admission_bounded key r s t0 cs t :
  fin (RatePerSec r) -> (0 <= Burst r <= 2 ^ 50)%Z -> s !! key = None -> let cs := (key, r, t0) :: cs in
  Forall (fun c => fst (fst c) = key -> snd (fst c) = r) cs -> Forall (fun c => snd c <= t)%Z cs -> kept key s cs = true ->
  let cap := inject_Z (Z.max 1 (Burst r)) in
  inject_Z (admissions key s cs)
    <= cap + val (RatePerSec r) * seconds (t - t0) * (1 + pow2 (-49)) + inject_Z (Z.of_nat (length cs)) * (cap * pow2 (-50)).
Proof.
  intros Fr Hburst Hs cs' Hrule Ht [Hin Hk]%andb_true_iff. cbn zeta. assert (rule_ok r) as Hok by done. fold (capZ r).
  assert (pow2 (-49) == 8 * ulp) as -> by (vm_compute; reflexivity). assert (pow2 (-50) == 4 * ulp) as -> by (vm_compute; reflexivity). fold (slack r).
  inversion Hrule as [|? ? _ Hrule']; subst. inversion Ht as [|? ? Ht0 Ht']; subst. cbn in Ht0.
  destruct (capacity_val r Hok) as [Fc Vc]. destruct (capZ_bounds r Hok) as (Hc1 & Hc2 & _). destruct ulp_tiny as (Hu & _).
  destruct (f_of_Z_exact 1 ltac:(lia)) as [Fo Vo]. assert (SFleb (f_of_Z 1) (capacity r) = true) as E.
  { apply SFleb_val; [done..|]. rewrite Vo, Vc. exact Hc1. }
  destruct (take_float r (capacity r) Hok Fc ltac:(rewrite Vc; split; [done|apply Qle_refl])) as [F2 V2].
  unfold cs'. cbn [admissions shardStep fst snd] in *. unfold allowShard in *. rewrite Hs in *. cbn [tokens nle nofZ float_num] in *. rewrite E in *.
  cbn [fst snd rl_ok] in *. rewrite bool_decide_true by done. cbn [andb]. rewrite inject_Z_plus. change (inject_Z 1) with 1.
  set (s' := <[key := _]> _) in *. assert (0 <= capZ r * ulp) by (apply Qmult_le_0_compat; lra).
  assert (s' !! key = Some (mkBucket (nsub (capacity r) (nofZ 1)) t0 t0)) as Hs' by apply lookup_insert_eq. cbn [nofZ float_num] in *.
  assert (bucket_ok r (mkBucket (nsub (capacity r) (f_of_Z 1)) t0 t0)) as Hb by (split; cbn [tokens]; [done|lra]).
  pose proof (admissions_bound key r cs Hok Hrule' s' _ t Hs' Hb Hk Ht0 Ht') as H1. cbn [tokens lastFill length] in *.
  rewrite Nat2Z.inj_succ. unfold Z.succ. rewrite inject_Z_plus. change (inject_Z 1) with 1. unfold slack in *. lra.
Qed.
End Float.

(** ** Waiting, exactly

    Over the rationals, where [durationSeconds] is the exact quotient. *)

Section Exact.
#[local] Existing Instance rational_num.
Open Scope Q_scope.

Lemma durationSeconds_exact d : durationSeconds d == seconds d.
Proof.
  unfold durationSeconds, seconds. cbn. rewrite (Z.quot_rem' d 1000000000) at 3. rewrite inject_Z_plus, inject_Z_mult. field.
Qed.

Lemma nlt_true (a b : Q) : nlt a b = true <-> a < b.
Proof.
  cbn. rewrite negb_true_iff, <- not_true_iff_false, Qle_bool_iff. split; [apply Qnot_le_lt|apply Qlt_not_le].
Qed.

Lemma nlt_false (a b : Q) : nlt a b = false <-> b <= a.
Proof. cbn. rewrite negb_false_iff. apply Qle_bool_iff. Qed.

Lemma capacity_pos r : 1 <= capacity r.
Proof.
  unfold capacity. destruct (nlt (nofZ (Burst r)) (nofZ 1)) eqn:E; [cbn; apply Qle_refl|by apply nlt_false in E].
Qed.

Lemma allow_same s key r now b : s !! key = Some b ->
  allowShard s key r now =
  let b' := fill r b now in
  if Qle_bool 1 (tokens b') then (mkRateDecision true 0, <[key := mkBucket (tokens b' - 1) (lastFill b') now]> s)
  else (mkRateDecision false (retryAfter r (tokens b')), <[key := mkBucket (tokens b') (lastFill b') now]> s).
Proof. intros Hb. unfold allowShard. by rewrite Hb. Qed.

Lemma quot_next (q : Q) : 0 <= q -> q < inject_Z (Z.quot (Qnum q) (Zpos (Qden q)) + 1).
Proof.
  destruct q as [n d]. unfold Qle, Qlt. cbn. rewrite !Z.mul_1_r. intros Hn. rewrite Z.quot_div_nonneg by lia.
  pose proof (Z.mul_succ_div_gt n (Z.pos d) ltac:(lia)). lia.
Qed.

Lemma quot_nonneg (q : Q) : 0 <= q -> (0 <= Z.quot (Qnum q) (Zpos (Qden q)))%Z.
Proof. destruct q as [n d]. unfold Qle. cbn. intros Hn. apply Z.quot_pos; lia. Qed.

Lemma fill_now r b now : 0 < RatePerSec r -> 0 <= tokens b -> (lastFill b <= now)%Z ->
  lastFill (fill r b now) = now /\ 0 <= tokens (fill r b now).
Proof.
  intros Hr Hpos Hlf. unfold fill. destruct (Z.ltb_spec 0 (TSub now (lastFill b))) as [Hel|Hel]; [|split; [unfold TSub, int64_min, int64_max in Hel; lia|done]].
  cbn [tokens lastFill]. split; [done|]. pose proof (capacity_pos r). destruct (nlt _ _); [lra|]. cbn [nadd nmul rational_num].
  rewrite durationSeconds_exact. assert (0 <= RatePerSec r * seconds (TSub now (lastFill b))); [|lra].
  apply Qmult_le_0_compat; [lra|]. unfold seconds, Qdiv. apply Qmult_le_0_compat; [|done]. rewrite <- (Zle_Qle 0). lia.
Qed.

(** The time a throttled client is told to wait is enough. If a key with a positive
    rate is refused, then its next call is admitted once more than the announced time has
    passed. *)
Theorem retry_suffices key r s now b later :
  0 < RatePerSec r -> s !! key = Some b -> 0 <= tokens b -> (lastFill b <= now)%Z ->
  let d := fst (allowShard s key r now) in let s' := snd (allowShard s key r now) in
  rl_ok d = false -> (now + RetryAfter d < later <= now + int64_max)%Z -> rl_ok (fst (allowShard s' key r later)) = true.
Proof.
  intros Hr Hb Hpos Hlf. cbn zeta. destruct (allowShard s key r now) as [d s'] eqn:E. rewrite (allow_same _ _ _ _ _ Hb) in E. cbn zeta in E.
  destruct (Qle_bool 1 (tokens (fill r b now))) eqn:Ef; injection E as <- <-; [done|]. cbn [fst snd]. intros _ Hl. cbn [RetryAfter] in Hl.
  destruct (fill_now r b now Hr Hpos Hlf) as [Hnow Hnn].
  set (t := tokens (fill r b now)) in *. rewrite <- not_true_iff_false, Qle_bool_iff in Ef. apply Qnot_le_lt in Ef.
  set (b1 := mkBucket t (lastFill (fill r b now)) now). assert (<[key := b1]> s !! key = Some b1) as Hb1 by apply lookup_insert_eq.
  rewrite (allow_same _ _ _ _ _ Hb1). cbn zeta.
  enough (1 <= tokens (fill r b1 later)) as H1 by (by rewrite (proj2 (Qle_bool_iff _ _) H1)).
  unfold retryAfter in Hl. assert (nlt (nofZ 0) (RatePerSec r) = true) as Hlt by (by apply (nlt_true 0)). rewrite Hlt in Hl.
  set (need := nmul (ndiv (nsub (nofZ 1) t) (RatePerSec r)) (nofZ 1000000000)) in Hl. cbn zeta in Hl.
  assert (need == (1 - t) / RatePerSec r * 1000000000) as Hneed by reflexivity.
  assert (0 <= need) as Hneed0.
  { rewrite Hneed. apply Qmult_le_0_compat; [|done]. apply Qle_shift_div_l; [done|]. lra. }
  pose proof (quot_next need Hneed0) as Hq. change (Z.quot (Qnum need) (Z.pos (Qden need))) with (nint need) in Hq.
  assert (nint need + 1 <= later - now)%Z as Hlater by (destruct (Z.leb_spec (nint need) 0); lia).
  pose proof (quot_nonneg need Hneed0) as Hn0. change (Z.quot (Qnum need) (Z.pos (Qden need))) with (nint need) in Hn0.
  unfold fill. cbn [lastFill b1]. rewrite Hnow. assert (TSub later now = later - now)%Z as -> by (unfold TSub, int64_min, int64_max in *; lia).
  destruct (Z.ltb_spec 0 (later - now)); [|lia]. cbn [tokens b1]. pose proof (capacity_pos r).
  match goal with |- context [if ?c then _ else _] => destruct c end; [done|].
  cbn [nadd nmul rational_num]. rewrite durationSeconds_exact.
  assert (inject_Z (nint need + 1) <= inject_Z (later - now)) as Hi by (by rewrite <- Zle_Qle).
  assert ((1 - t) / RatePerSec r < seconds (later - now)) as Hs.
  { unfold seconds. apply Qlt_shift_div_l; [done|]. change (inject_Z 1000000000) with 1000000000. rewrite <- Hneed. lra. }
  assert (1 - t < RatePerSec r * seconds (later - now)); [|lra].
  assert (RatePerSec r * ((1 - t) / RatePerSec r) == 1 - t) as Hdiv by (apply Qmult_div_r; lra).
  rewrite <- Hdiv. by apply Qmult_lt_l.
Qed.

Definition twice : rateRule := mkRateRule (2 # 1) 3.

Definition halfFull : bucket := mkBucket (1 # 2) 0 0.

Lemma retry_suffices_witness :
  let s : gmap bytes bucket := {[go "a" := halfFull]} in
  rl_ok (fst (allowShard s (go "a") twice 1)) = false /\
  rl_ok (fst (allowShard (snd (allowShard s (go "a") twice 1)) (go "a") twice 250000002)) = true.
Proof.
  intros s. split; [vm_compute; reflexivity|].
  apply (retry_suffices (go "a") twice s 1 halfFull 250000002).
  - reflexivity.
  - reflexivity.
  - vm_compute. discriminate.
  - cbn. lia.
  - vm_compute. reflexivity.
  - vm_compute. split; [reflexivity|discriminate].
Defined.
End Exact.

Section Minute.
#[local] Existing Instance amd64.
#[local] Existing Instance float_num.

(** One call a minute, as [rate_limit 1r/m] compiles it, with a capacity of one: two
    calls exactly a minute apart are both admitted, although the product of the rounded
    rate and the time is below one. *)
Definition perMinute : rateRule := mkRateRule (fdiv (f_of_Z 1) (f_of_Z 60)) 1.

Definition minuteCalls : list (bytes * rateRule * Z) := [(go "a", perMinute, 0); (go "b", perMinute, 1); (go "a", perMinute, 60000000000)].

Lemma rate_admission_bounded_witness :
  admissions (go "a") ∅ minuteCalls = 2 /\
  (inject_Z (admissions (go "a") ∅ minuteCalls)
    <= 1 + val (RatePerSec perMinute) * seconds (60000000000 - 0) * (1 + pow2 (-49)) + 3 * (1 * pow2 (-50)))%Q.
Proof.
  split; [vm_compute; reflexivity|].
  apply (rate_admission_bounded (go "a") perMinute ∅ 0 (tail minuteCalls) 60000000000).
  - vm_compute. split_and!; (done || discriminate).
  - vm_compute. split; discriminate.
  - reflexivity.
  - unfold minuteCalls. cbn [tail]. repeat first [apply list.Forall_nil; exact I|apply list.Forall_cons; split; [done|]].
  - unfold minuteCalls. cbn [tail]. repeat first [apply list.Forall_nil; exact I|apply list.Forall_cons; split; [cbn; lia|]].
  - vm_compute. reflexivity.
Defined.
End Minute.
