(* ===== verification/Act.v ===== *)
(** * Effects of a request handler

    A handler is a program over the effects it has on what it shares with other
    requests and with the outside: the freshness index, the store and its writers, the
    coalescer, the origins, the peers, the clock and the client's connection.  [act] is
    the finite tree of those effects and of what follows each possible answer; [hm] adds
    the handler's own state: the request it evaluates, whose header is the header of the
    HTTP request, and the response recorder ([accesslog.go]). *)

From stdpp Require Import base strings pretty numbers gmap list.
From S2P Require Import Prelude GoStrings Netip Http Duration Request Rules Eval Shard Freshness.
Open Scope Z_scope.

(** ** What is exchanged ([internal/origin/origin.go]) *)

(** The reads of a body, and whether they end with an error instead of EOF. *)
Record stream : Type := mkStream { st_chunks : list bytes; st_err : bool }.

Definition content (b : stream) : bytes := concat (st_chunks b).

Record originRequest : Type := mkOReq {
  oq_method : bytes;
  oq_key : bytes;
  oq_rawQuery : bytes;
  oq_header : header;
  oq_clientHost : bytes;
  oq_hasBody : bool;
  oq_bypass : bool;
  oq_routingKey : bytes        (* attached to the context *)
}.

Record originResponse : Type := mkOResp {
  or_status : Z;
  or_header : header;
  or_contentLength : Z;
  or_body : stream;
  or_negative : bool
}.

Record statusError : Type := mkStatusErr {
  se_status : Z;
  se_header : option header;
  se_body : option stream;
  se_contentLength : Z
}.

(** The errors a fetch is told apart by; a client's cancellation is [ErrTransport]. *)
Inductive fetchError : Type :=
| ErrNotFound
| ErrStatus (se : statusError)
| ErrNoBackend
| ErrTransport.

Definition StatusOf (e : fetchError) : Z :=
  match e with ErrNotFound => 404 | ErrStatus se => se_status se | _ => 0 end.

(** An upstream of the site, as the handler holds it. *)
Abbreviation originId := nat.

(** The answer of [ResolveUpgrade], when the origin has it. *)
Inductive upgradeTarget : Type := NotUpgrader | NoUpgradeBackend | UpgradeFailed | UpgradeTo (host : bytes).

(** ** Effects *)

Inductive effect : Type -> Type :=
| Now : effect Z
| Warm : effect bool
| RateAllow (key : bytes) (ratePerSec : float64) (burst : Z) : effect (bool * Z)
| PoolView : effect (bytes -> bool)
| FClassify (key : bytes) : effect (freshState * bool)
| FStaleWithin (key : bytes) : effect bool
| FStoredAt (key : bytes) : effect (option Z)
| FLifetime (key : bytes) : effect (option Z)
| FStore (key : bytes) (ttl grace maxStale : Z) : effect unit
| FSetHFM (key : bytes) (d : Z) : effect unit
| FForget (key : bytes) : effect unit
| FBan (re : bytes -> bool) : effect Z
| SGet (key : bytes) : effect (option (ObjectMeta * stream * bytes))
| SWriter (m : ObjectMeta) : effect (option nat)
| SWrite (w : nat) (p : bytes) : effect bool
| SCommit (w : nat) : effect bool
| SAbort (w : nat) : effect unit
| CEnter (key : bytes) : effect (nat * bool)
| CWait (call : nat) : effect (option bool)
| CFinish (key : bytes) (call : nat) (ok : bool) : effect unit
| BBegin (key : bytes) : effect bool
| BSlot : effect bool
| BEnd (key : bytes) : effect unit
| BRelease : effect unit
| BSpawn (preq : Request) (rd : RequestDecision) (key fwdCookie : bytes) : effect unit
| Fetch (o : originId) (r : originRequest) : effect (originResponse + fetchError)
| PeerOwner (key : bytes) (healthy : bool) : effect (option bytes)
| PeerDo (peer method requestURI host : bytes) (hdr : header) : effect (option (Z * header * stream))
| ResolveUpgrade (o : originId) (r : originRequest) : effect upgradeTarget
| Tunnel (host path rawQuery : bytes) (hdr : header) : effect unit
| ClientGone : effect bool
| WriteHeader (code : Z) (hdr : header) : effect unit
| ClientWrite (p : bytes) : effect bool
| EncodeWrite (codec p : bytes) : effect bool
| EncodeClose (codec : bytes) : effect unit.

Inductive act (A : Type) : Type :=
| Done (a : A)
| Do {X : Type} (e : effect X) (k : X -> act A).
Arguments Done {A} a.
Arguments Do {A X} e k.

Fixpoint abind {A B : Type} (m : act A) (f : A -> act B) : act B :=
  match m with
  | Done a => f a
  | Do e k => Do e (fun x => abind (k x) f)
  end.

(** ** The handler's own state *)

Record hst : Type := mkHst {
  hs_req : Request;
  hs_hdr : header;
  hs_status : Z;
  hs_wrote : bool;
  hs_cacheStatus : bytes;
  hs_upstream : bytes
}.

Definition hm (A : Type) : Type := hst -> act (A * hst).

Definition hret {A : Type} (a : A) : hm A := fun s => Done (a, s).
Definition hbind {A B : Type} (m : hm A) (f : A -> hm B) : hm B := fun s => abind (m s) (fun '(a, s) => f a s).
Definition perform {X : Type} (e : effect X) : hm X := fun s => Do e (fun x => Done (x, s)).
Definition gets {A : Type} (f : hst -> A) : hm A := fun s => Done (f s, s).
Definition modify (f : hst -> hst) : hm unit := fun s => Done (tt, f s).

Declare Scope hm_scope.
Delimit Scope hm_scope with hm.
Notation "x <- m ;; k" := (hbind m (fun x => k)) (at level 100, m at next level, k at level 200, right associativity) : hm_scope.
Notation "m ;; k" := (hbind m (fun _ => k)) (at level 100, k at level 200, right associativity) : hm_scope.
Open Scope hm_scope.

Definition set_req (f : Request -> Request) (s : hst) : hst :=
  mkHst (f (hs_req s)) (hs_hdr s) (hs_status s) (hs_wrote s) (hs_cacheStatus s) (hs_upstream s).
Definition set_hdr (f : header -> header) (s : hst) : hst :=
  mkHst (hs_req s) (f (hs_hdr s)) (hs_status s) (hs_wrote s) (hs_cacheStatus s) (hs_upstream s).
Definition set_wrote (code : Z) (s : hst) : hst :=
  mkHst (hs_req s) (hs_hdr s) code true (hs_cacheStatus s) (hs_upstream s).
Definition set_cacheStatus (v : bytes) (s : hst) : hst :=
  mkHst (hs_req s) (hs_hdr s) (hs_status s) (hs_wrote s) v (hs_upstream s).
Definition set_upstream (v : bytes) (s : hst) : hst :=
  mkHst (hs_req s) (hs_hdr s) (hs_status s) (hs_wrote s) (hs_cacheStatus s) v.

Definition preq : hm Request := gets hs_req.
Definition reqHeader : hm header := gets (fun s => rq_Header (hs_req s)).
Definition onReqHeader (f : header -> header) : hm unit := modify (set_req (fun r => set_Header r (f (rq_Header r)))).
Definition onHdr (f : header -> header) : hm unit := modify (set_hdr f).
Definition hdr : hm header := gets hs_hdr.

(** [statusRecorder.WriteHeader]: only the first call counts. *)
Definition writeHeader (code : Z) : hm unit :=
  wrote <- gets hs_wrote;;
  if (wrote : bool) then hret tt
  else modify (set_wrote code);; h <- hdr;; perform (WriteHeader code h).

(** [statusRecorder.Write]. *)
Definition recWrite (p : bytes) : hm bool :=
  wrote <- gets hs_wrote;;
  (if (wrote : bool) then hret tt else writeHeader 200);; perform (ClientWrite p).

Definition writeStatus (code : Z) (msg : bytes) : hm unit :=
  onHdr (fun h => Set_ h (go "Content-Type") (go "text/plain; charset=utf-8"));;
  writeHeader code;; recWrite msg;; hret tt.

(** [io.Copy] of a body to the client, each read written before the next. *)
Fixpoint copyChunks (write : bytes -> hm bool) (chunks : list bytes) : hm bool :=
  match chunks with
  | [] => hret true
  | c :: cs => ok <- write c;; if (ok : bool) then copyChunks write cs else hret false
  end.
