(* ===== verification/Serve.v ===== *)
(** * The request lifecycle ([internal/server/handler.go])

    [ServeHTTP] and what it calls, as programs over the effects of [Act]: site
    selection, the security gate, RECV, LOOKUP, ORIGIN with the tee into the store,
    the error paths and DELIVER.  Metrics, traces and audit records are not part of the
    model; the codecs, [http.ParseTime], the text of a date and sha256 are parameters. *)

From stdpp Require Import base strings pretty numbers gmap list.
From Stdlib Require Import SpecFloat.
From S2P Require Import Prelude GoStrings Netip Http Duration Host Range Shard Freshness Path Request Matcher CacheKey Device Rules Template Eval Credentials Response Compile Geo Forward Limiter Act.
Open Scope Z_scope.
Open Scope hm_scope.

(** ** Sites *)

Record StickySpec : Type := mkSticky { sk_source : bytes; sk_cookie : bytes; sk_fallback : bytes; sk_fallbackCookie : bytes }.

Inductive clusterMode : Type := ModeReadThrough | ModeOwner.
Inductive clusterFallback : Type := FallbackDegraded | FallbackStrict.

Record membership : Type := mkMembership { mb_mode : clusterMode; mb_fallback : clusterFallback; mb_region : bytes; mb_self : bytes }.

(** [config.Site], as the handler uses it. *)
Record site : Type := mkServed {
  si_addresses : list bytes;
  si_pipeline : Pipeline;
  si_origin : option originId;
  si_origins : gmap bytes originId;
  si_defaultUpstream : bytes;
  si_sticky : gmap bytes StickySpec;
  si_device : option Classifier;
  si_geo : option Source;
  si_geoRegion : option Source;
  si_trusted : list Prefix;
  si_cluster : option membership
}.

(** The parts of the handler that do not change, and its library. *)
Record handler : Type := mkHandler {
  h_unmatchedHostStatus : Z;
  h_parseTime : bytes -> option Z;
  h_httpDate : Z -> bytes;
  h_requestURI : bytes -> bytes -> bytes;           (* of a path and a query *)
  h_keyHash : bytes -> bytes;                       (* the hexadecimal prefix of sha256 *)
  h_newEncoder : bytes -> bool;                     (* whether a codec's writer can be made *)
  h_compress : bytes -> bytes -> option bytes       (* a codec over a whole body *)
}.

(** The parts of an [http.Request] the handler reads. *)
Record httpRequest : Type := mkHttp {
  r_method : bytes;
  r_host : bytes;
  r_urlHost : bytes;
  r_path : bytes;
  r_rawQuery : bytes;
  r_requestURI : bytes;                             (* [URL.RequestURI()] *)
  r_header : header;
  r_remoteAddr : bytes;
  r_tls : bool;
  r_hasBody : bool
}.

Definition set_r_header (r : httpRequest) (h : header) : httpRequest :=
  let 'mkHttp m ho uh pa rq ru _ ra tl hb := r in mkHttp m ho uh pa rq ru h ra tl hb.

Definition set_ReqHeaderOps (rd : RequestDecision) (ops : list HeaderOp) : RequestDecision :=
  let 'mkReqDec a b c d e f g _ i := rd in mkReqDec a b c d e f g ops i.

Definition originFor (s : site) (name : bytes) : option originId :=
  match (if bool_decide (name = []) then None else si_origins s !! name) with
  | Some o => Some o
  | None => si_origin s
  end.

Definition rateLimitKey (s : site) (key : bytes) : bytes := default [] (head (si_addresses s)) ++ Zbyte 0 :: key.

(** Fields the handler sets on the request it evaluates. *)
Definition set_ClientIP (ip : bytes) (q : Request) : Request :=
  let 'mkRequest m ho p qu h _ rip dv g gc gr tls ph sk cm := q in mkRequest m ho p qu h ip rip dv g gc gr tls ph sk cm.
Definition set_RealClientIP (rip : option Addr) (q : Request) : Request :=
  let 'mkRequest m ho p qu h ip _ dv g gc gr tls ph sk cm := q in mkRequest m ho p qu h ip rip dv g gc gr tls ph sk cm.

(** ** Routing ([server.go]) *)

Record routing : Type := mkRouting {
  rt_sites : list site;
  rt_exact : gmap bytes site;
  rt_wildcard : list (bytes * site);
  rt_single : option site;
  rt_strictHost : bool
}.

Section Serve.
Context {U : Platform} {R : GoLib}.

Definition normalizeAddr (addr : bytes) : bytes := normalizeHost uni_lower addr.

Definition bindAddr (s : site) (rt : gmap bytes site * list (bytes * site)) (addr : bytes) : gmap bytes site * list (bytes * site) :=
  let host := normalizeAddr addr in
  if HasPrefix host (go "*.") then (fst rt, snd rt ++ [(drop 1 host, s)]) else (<[host := s]> (fst rt), snd rt).

Definition buildRouting (sites : list site) (strictHost : bool) : routing :=
  let '(exact, wild) := fold_left (fun rt s => fold_left (bindAddr s) (si_addresses s) rt) sites (∅, []) in
  mkRouting sites exact wild (match sites with [s] => Some s | _ => None end) strictHost.

Definition selectSite (rt : routing) (host : bytes) : option site * bool :=
  let host := normalizeAddr host in
  match rt_exact rt !! host with
  | Some s => (Some s, false)
  | None =>
    match List.find (fun w => HasSuffix host (fst w) && (length (fst w) <? length host)%nat) (rt_wildcard rt) with
    | Some w => (Some (snd w), false)
    | None =>
      if rt_strictHost rt then (None, negb (bool_decide (rt_sites rt = [])))
      else (rt_single rt, false)
    end
  end.

(** ** The pipeline's view of a request *)

(** Only [&] separates; a pair that does not unescape is skipped. *)
Definition querySegment (m : values) (seg : bytes) : values :=
  if bool_decide (seg = []) then m
  else
    let '(k, v) := match IndexByte seg "=" with Some i => (take i seg, drop (S i) seg) | None => (seg, []) end in
    match QueryUnescape k, QueryUnescape v with
    | Some k, Some v => <[k := default [] (m !! k) ++ [v]]> m
    | _, _ => m
    end.

Definition parseQueryLossless (raw : bytes) : values := fold_left querySegment (SplitByte raw "&") ∅.

Definition clientIP (remoteAddr : bytes) : bytes :=
  if bool_decide (remoteAddr = []) then []
  else match SplitHostPort remoteAddr with Some (h, _) => h | None => remoteAddr end.

Definition buildPipelineRequest (r : httpRequest) : Request :=
  mkRequest (r_method r) (if bool_decide (r_host r = []) then r_urlHost r else r_host r) (normalizePath (r_path r))
    (parseQueryLossless (r_rawQuery r)) (r_header r) (clientIP (r_remoteAddr r)) None [] [] [] [] (r_tls r) None None None.

(** ** Routing keys *)

Definition routingClientIP (s : site) (r : httpRequest) (h : header) : bytes :=
  match ClientIP (r_remoteAddr r) (Some h) (si_trusted s) with Some a => addrString a | None => [] end.

Definition cookieValue (h : header) (name : bytes) : bytes :=
  if bool_decide (name = []) then [] else LenientCookieValue h name.

Definition stickyFallback (spec : StickySpec) (h : header) (cip : bytes) : bytes :=
  if bool_decide (sk_fallback spec = go "client_ip") then cip
  else if bool_decide (sk_fallback spec = go "cookie") then cookieValue h (sk_fallbackCookie spec)
  else [].

Definition stickyKey (spec : StickySpec) (h : header) (cip : bytes) : bytes :=
  if bool_decide (sk_source spec = go "cookie") then
    let v := cookieValue h (sk_cookie spec) in
    if bool_decide (v = []) then stickyFallback spec h cip else v
  else if bool_decide (sk_source spec = go "client_ip") then cip
  else stickyFallback spec h cip.

(** The key [routingCtx] attaches; the empty one attaches nothing. *)
Definition routingCtx (s : site) (routed : bytes) (r : httpRequest) (h : header) : bytes :=
  let name := if bool_decide (routed = []) then si_defaultUpstream s else routed in
  let cip := routingClientIP s r h in
  match si_sticky s !! name with Some spec => stickyKey spec h cip | None => cip end.

(** [net.JoinHostPort]. *)
Definition JoinHostPort (host port : bytes) : bytes :=
  if bool_decide (":"%char ∈ host) then go "[" ++ host ++ go "]:" ++ port else host ++ go ":" ++ port.

Definition originTarget (clientPath clientRawQuery : bytes) (rw : option RewriteDecision) : bytes * bytes :=
  match rw with None => (clientPath, clientRawQuery) | Some rw => (rwd_path rw, rwd_rawQuery rw) end.

(** The key a GET of the same URI has. *)
Definition siblingGetKey (p : Pipeline) (req : Request) (unsafeKey origCookie : bytes) : bytes :=
  let h := restoreClientCookie (rq_Header req) origCookie in
  let getReq := set_Method (set_Header req h) (go "GET") in
  let k := CacheKey (fst (EvalRequest p getReq)) in
  if bool_decide (k = []) then unsafeKey else k.

Section Site.
Context (H : handler) (S : site) (r : httpRequest).
Let p : Pipeline := si_pipeline S.

(** [int64(d.Seconds())]. *)
Definition wholeSeconds (d : Z) : Z :=
  f_to_int64 (fadd (f_of_Z (Z.quot d secondNs)) (fdiv (f_of_Z (Z.rem d secondNs)) (f_of_Z secondNs))).

Definition ageAt (now st : Z) : option bytes :=
  let age := wholeSeconds (TSub now st) in if 0 <=? age then Some (Itoa age) else None.

(** ** Pool health *)

(** [PoolHealthy] is a closure over the live pools: after RECV has injected it, every
    evaluation of the request reads the health the pools have by then, the view [v]. *)
Definition observed (v : bytes -> bool) (q : Request) : Request :=
  if computeNeedsPoolHealth p then set_PoolHealthy (Some v) q else q.

(** The request as an evaluation sees it. *)
Definition live : hm Request :=
  req <- preq;;
  if computeNeedsPoolHealth p then v <- perform PoolView;; hret (observed v req) else hret req.

(** ** DELIVER *)

Definition CacheKeyHeaderValue (rawKey : bytes) (raw : bool) : bytes :=
  if bool_decide (rawKey = []) then [] else if raw then rawKey else h_keyHash H rawKey.

Definition deliverHeaders (dd : DeliverDecision) (origin key : bytes) (h : header) : header :=
  let h := applyHeaderOps h (RespHeaderOps dd) in
  let h := if StripCookies dd then Del h (go "Set-Cookie") else h in
  let h := match dv_cors dd with Some c => applyCORS h c origin | None => h end in
  if bool_decide (CacheKeyHeader dd = []) then h
  else let v := CacheKeyHeaderValue key (CacheKeyRaw dd) in
       if bool_decide (v = []) then h else Set_ h (CacheKeyHeader dd) v.

Definition applyDeliver (status : CacheStatus) (key : bytes) : hm (list Replacement * option encodeRule) :=
  req <- live;; h <- hdr;;
  let dd := EvalDeliver p req (Some h) status in
  onHdr (deliverHeaders dd (Get (rq_Header req) (go "Origin")) key);;
  (if negb (bool_decide (CacheAgeHeader dd = [])) && match status with CacheStatusHit | CacheStatusHitStale => true | _ => false end then
     st <- perform (FStoredAt key);;
     match st with
     | None => hret tt
     | Some st =>
       now <- perform Now;;
       match ageAt now st with Some a => onHdr (fun h => Set_ h (CacheAgeHeader dd) a) | None => hret tt end
     end
   else hret tt);;
  hret (Transforms dd, dv_encode dd).

(** ** Bodies *)

(** [readCapped]: the body, or what was read of it and what a resumed reader yields. *)
Inductive capped : Type := Whole (b : bytes) | Overrun (resume : stream) | ReadFailed (resume : stream).

Definition readCapped (b : stream) : capped :=
  if maxTransformBody <? Z.of_nat (length (content b)) then Overrun b
  else if st_err b then ReadFailed b else Whole (content b).

Definition encodeOut (codec : bytes) (chunks : list bytes) : hm bool :=
  ok <- copyChunks (fun c => perform (EncodeWrite codec c)) chunks;; perform (EncodeClose codec);; hret ok.

(** ** Compressed variants ([encode_variant.go]) *)

Definition variantSep : bytes := Zbyte 0 :: go "ce=".
Definition variantKey (key codec : bytes) : bytes := key ++ variantSep ++ codec.

Definition sourceFingerprint (m : ObjectMeta) : option bytes :=
  if bool_decide (ETag m = []) && bool_decide (LastModified m = []) then None
  else Some (ETag m ++ Zbyte 0x1f :: LastModified m ++ Zbyte 0x1f :: go "len:" ++ Itoa (Size m)).

Definition lookupVariant (key codec srcFP : bytes) : hm (option (ObjectMeta * stream)) :=
  o <- perform (SGet (variantKey key codec));;
  hret (match o with Some (m, b, _) => if bool_decide (ETag m = srcFP) then Some (m, b) else None | None => None end).

Definition storeVariant (key codec srcFP contentType compressed : bytes) : hm unit :=
  w <- perform (SWriter (mkMeta (variantKey key codec) (Z.of_nat (length compressed)) contentType srcFP [] [] [] 0 false []));;
  match w with
  | None => hret tt
  | Some w =>
    ok <- perform (SWrite w compressed);;
    if (ok : bool) then perform (SCommit w);; hret tt else perform (SAbort w)
  end.

(** ** Serving a stored object *)

Definition setLength (n : Z) : hm unit := onHdr (fun h => Set_ h (go "Content-Length") (Itoa n)).

(** The headers of a stored object, before DELIVER. *)
Definition replayHeaders (m : ObjectMeta) (key : bytes) : hm unit :=
  onHdr (fun h =>
    let h := setIfNonEmpty h (go "Content-Type") (ContentType m) in
    let h := setIfNonEmpty h (go "ETag") (ETag m) in
    let h := setIfNonEmpty h (go "Last-Modified") (LastModified m) in
    let h := setIfNonEmpty h (go "Content-Encoding") (ContentEncoding m) in
    let h := setIfNonEmpty h (go "Vary") (Vary m) in
    Set_ h (go "Accept-Ranges") (go "bytes"));;
  now <- perform Now;;
  onHdr (fun h => Set_ h (go "Date") (h_httpDate H now));;
  st <- perform (FStoredAt key);;
  (match st with
   | Some st => match ageAt now st with Some a => onHdr (fun h => Set_ h (go "Age") a) | None => hret tt end
   | None => hret tt
   end);;
  lt <- perform (FLifetime key);;
  match lt with
  | Some lt => onHdr (fun h => setSharedFreshness h lt (Shard.ForcedPrivate m))
  | None => hret tt
  end.

(** A range of a stored object: [false] when the full body is to be served. *)
Definition serveRange (m : ObjectMeta) (b : stream) : hm bool :=
  rh <- reqHeader;;
  let rangeHdr := Get rh (go "Range") in
  if negb (bool_decide (rangeHdr = [])) && (0 <? Size m) && (EffectiveStatus m =? 200)
     && ifRangeAllowsRange (h_parseTime H) (Get rh (go "If-Range")) (ETag m) (LastModified m) then
    match parseSingleRange rangeHdr (Size m) with
    | Ok pr =>
      onHdr (fun h => Set_ (Set_ h (go "Content-Range") (contentRange pr (Size m))) (go "Content-Length") (Itoa (Range.len pr)));;
      writeHeader 206;;
      (if bool_decide (r_method r = go "HEAD") then hret true
       else recWrite (take (Z.to_nat (Range.len pr)) (drop (Z.to_nat (Range.start pr)) (content b))));;
      hret true
    | Err errUnsatisfiableRange =>
      onHdr (fun h => Set_ h (go "Content-Range") (go "bytes */" ++ Itoa (Size m)));; writeHeader 416;; hret true
    | _ => hret false
    end
  else hret false.

(** A body rewritten by [replace] rules and perhaps compressed. *)
Definition serveReplaced (code : Z) (buf : bytes) (transforms : list Replacement) (enc : option encodeRule) (codec : bytes) (canEncode isRange isHead : bool) : hm unit :=
  let out := applyReplacements buf transforms in
  onHdr (fun h => Del h (go "ETag"));;
  h <- hdr;;
  if canEncode && encodeApplies enc codec h (Z.of_nat (length out)) isRange isHead && h_newEncoder H codec then
    onHdr (fun h => applyEncodeHeaders h codec);; writeHeader code;; encodeOut codec [out];; hret tt
  else
    setLength (Z.of_nat (length out));; writeHeader code;;
    (if isHead then hret true else recWrite out);; hret tt.

(** A stored body compressed for this client, from its variant when there is one. *)
Definition serveEncoded (m : ObjectMeta) (b : stream) (key codec : bytes) : hm unit :=
  let code := EffectiveStatus m in
  v <- match sourceFingerprint m with Some fp => lookupVariant key codec fp | None => hret None end;;
  match v with
  | Some (vm, vb) =>
    onHdr (fun h => applyEncodeHeaders h codec);; setLength (Size vm);; writeHeader code;;
    copyChunks recWrite (st_chunks vb);; hret tt
  | None =>
    match readCapped b with
    | Whole buf =>
      match h_compress H codec buf with
      | Some comp =>
        (match sourceFingerprint m with Some fp => storeVariant key codec fp (ContentType m) comp | None => hret tt end);;
        onHdr (fun h => applyEncodeHeaders h codec);; setLength (Z.of_nat (length comp));; writeHeader code;;
        recWrite comp;; hret tt
      | None =>
        (if 0 <=? Size m then setLength (Size m) else hret tt);; writeHeader code;; recWrite buf;; hret tt
      end
    | Overrun rest | ReadFailed rest =>
      if h_newEncoder H codec then
        onHdr (fun h => applyEncodeHeaders h codec);; writeHeader code;; encodeOut codec (st_chunks rest);; hret tt
      else
        (if 0 <=? Size m then setLength (Size m) else hret tt);; writeHeader code;;
        copyChunks recWrite (st_chunks rest);; hret tt
    end
  end.

(** A stored body as it is, or compressed. *)
Definition servePlain (m : ObjectMeta) (b : stream) (key : bytes) (enc : option encodeRule) (codec : bytes) (isRange isHead : bool) : hm unit :=
  let code := EffectiveStatus m in
  h <- hdr;;
  if (code =? 200) && negb isHead && encodeApplies enc codec h (Size m) isRange isHead then serveEncoded m b key codec
  else
    (if 0 <=? Size m then setLength (Size m) else hret tt);; writeHeader code;;
    (if isHead then hret true else copyChunks recWrite (st_chunks b));; hret tt.

(** The body of a stored object. *)
Definition serveBody (m : ObjectMeta) (b : stream) (key : bytes) (transforms : list Replacement) (enc : option encodeRule) : hm unit :=
  rh <- reqHeader;;
  let isRange := negb (bool_decide (Get rh (go "Range") = [])) in
  let isHead := bool_decide (r_method r = go "HEAD") in
  let code := EffectiveStatus m in
  let codec := negotiateEncoding enc (Get rh (go "Accept-Encoding")) in
  ranged <- serveRange m b;;
  if (ranged : bool) then hret tt
  else
    onHdr (fun h => ensureVaryForEncode enc h (code =? 200));;
    h <- hdr;;
    if transformsApply transforms h false isHead && (0 <=? Size m) && (Size m <=? maxTransformBody) then
      match readCapped b with
      | Whole buf => serveReplaced code buf transforms enc codec (code =? 200) isRange isHead
      | Overrun rest => serveReplaced code (take (Z.to_nat (maxTransformBody + 1)) (content rest)) transforms enc codec (code =? 200) isRange isHead
      | ReadFailed _ => servePlain m (mkStream [] true) key enc codec isRange isHead
      end
    else servePlain m b key enc codec isRange isHead.

Definition serveFromCache (key : bytes) (status : CacheStatus) : hm bool :=
  o <- perform (SGet key);;
  match o with
  | None => hret false
  | Some (m, b, tier) =>
    rh <- reqHeader;;
    if negb (bool_decide (ContentEncoding m = [])) && negb (clientAcceptsEncoding (Get rh (go "Accept-Encoding")) (ContentEncoding m))
    then hret false
    else
      modify (set_cacheStatus (statusString status));; modify (set_upstream (go "cache:" ++ tier));;
      replayHeaders m key;;
      d <- applyDeliver status key;;
      let '(transforms, enc) := d in
      h <- hdr;; now <- perform Now;;
      if (EffectiveStatus m =? 200) && negb (transformsApply transforms h false (bool_decide (r_method r = go "HEAD")))
         && conditionalNotModified (h_parseTime H) rh (ETag m) (LastModified m) now then
        onHdr (fun h => Del (Del (Del h (go "Content-Type")) (go "Content-Length")) (go "Accept-Ranges"));;
        writeHeader 304;; hret true
      else serveBody m b key transforms enc;; hret true
  end.

(** ** ORIGIN *)

(** The tee of [tee.go]: every read is mirrored to the store's writer, until its first
    error, before it is written to the client. *)
Definition mirror (w : nat) (werr : bool) (c : bytes) : hm bool :=
  if werr then hret true else ok <- perform (SWrite w c);; hret (negb ok).

Fixpoint copyTee (w : nat) (write : bytes -> hm bool) (chunks : list bytes) (err werr : bool) (n : Z) : hm (Z * bool * bool) :=
  match chunks with
  | [] => hret (n, err, werr)
  | c :: cs =>
    werr <- mirror w werr c;; ok <- write c;;
    if (ok : bool) then copyTee w write cs err werr (n + Z.of_nat (length c)) else hret (n, true, werr)
  end.

Definition teeFinish (w : nat) (copyErr werr complete : bool) : hm bool :=
  if copyErr || werr || negb complete then perform (SAbort w);; hret false else perform (SCommit w).

Definition isHead : bool := bool_decide (r_method r = go "HEAD").

Definition originRequestFor (rd : RequestDecision) (req : Request) (bypassPeers : bool) : originRequest :=
  let '(oPath, oQuery) := originTarget (rq_Path req) (r_rawQuery r) (d_rewrite rd) in
  mkOReq (r_method r) oPath oQuery
    (buildOriginHeader (rq_Header req) (ReqHeaderOps rd) (Some (mkFwd (r_remoteAddr r) (r_tls r) (r_host r) (si_trusted S))))
    (normalizeHost uni_lower (r_host r))
    (negb (bool_decide (r_method r ∈ map go ["GET"; "HEAD"]%string)) && r_hasBody r)
    bypassPeers (routingCtx S (Upstream rd) r (rq_Header req)).

Definition originMeta (key : bytes) (resp : originResponse) (sd : ResponseDecision) : ObjectMeta :=
  let h := or_header resp in
  mkMeta key (or_contentLength resp) (Get h (go "Content-Type")) (Get h (go "ETag")) (Get h (go "Last-Modified"))
    (Get h (go "Content-Encoding")) (Get h (go "Vary")) (if or_negative resp then or_status resp else 0)
    (Response.ForcedPrivate sd) (StoreTier sd).

(** Whether a response goes to the store. *)
Definition storable (resp : originResponse) (sd : ResponseDecision) (key : bytes) (store : bool) : bool :=
  store && negb (bool_decide (key = [])) && Cacheable sd && ((or_status resp =? 200) || or_negative resp) && isSafeMethod (r_method r).

(** The headers of an origin's response, before DELIVER. *)
Definition originHeaders (resp : originResponse) (sd : ResponseDecision) (doStore : bool) (h : header) : header :=
  let h := copyOriginHeaders h (or_header resp) in
  let h := fold_left Del (StripHeaders sd) h in
  let h := if doStore && CredentialedStore sd then Del (Del h (go "Set-Cookie")) (go "Pragma") else h in
  if doStore then setSharedFreshness h (TTL sd) (Response.ForcedPrivate sd) else h.

(** A buffered body into the store. *)
Definition storeBuffered (m : ObjectMeta) (buf : bytes) (sd : ResponseDecision) : hm bool :=
  w <- perform (SWriter m);;
  match w with
  | None => hret false
  | Some w =>
    ok <- perform (SWrite w buf);;
    if (ok : bool) then
      c <- perform (SCommit w);;
      if (c : bool) then perform (FStore (Key m) (TTL sd) (Grace sd) (MaxStale sd));; hret true else hret false
    else perform (SAbort w);; hret false
  end.

(** A body streamed to the client and, when it is to be stored, into the store. *)
Definition streamOrigin (resp : originResponse) (m : ObjectMeta) (sd : ResponseDecision) (b : stream) (doStore : bool)
    (enc : option encodeRule) (codec : bytes) (isRange : bool) : hm bool :=
  tee <- (if doStore then perform (SWriter m) else hret None);;
  h <- hdr;;
  let encoding := (or_status resp =? 200) && negb isHead && encodeApplies enc codec h (or_contentLength resp) isRange isHead && h_newEncoder H codec in
  (if encoding then onHdr (fun h => applyEncodeHeaders h codec) else hret tt);;
  writeHeader (or_status resp);;
  if isHead then
    (match tee with Some w => perform (SAbort w) | None => hret tt end);; hret false
  else
    let write c := if encoding then perform (EncodeWrite codec c) else recWrite c in
    let close := if encoding then perform (EncodeClose codec) else hret tt in
    match tee with
    | None => copyChunks write (st_chunks b);; close;; hret false
    | Some w =>
      out <- copyTee w write (st_chunks b) (st_err b) false 0;;
      close;;
      let '(n, copyErr, werr) := out in
      c <- teeFinish w copyErr werr ((or_contentLength resp <? 0) || (n =? or_contentLength resp));;
      if (c : bool) then perform (FStore (Key m) (TTL sd) (Grace sd) (MaxStale sd));; hret true else hret false
    end.

(** [serveOrigin] once the origin has answered. *)
Definition serveResponse (key : bytes) (store : bool) (status : CacheStatus) (resp : originResponse) : hm bool :=
  req <- live;;
  let sd := EvalResponse p req (or_status resp) (Some (or_header resp)) in
  stale <- (if or_negative resp && negb (bool_decide (key = [])) then perform (FStaleWithin key) else hret false);;
  served <- (if (stale : bool) then serveFromCache key CacheStatusHitStaleError else hret false);;
  if (served : bool) then hret false
  else
    let hfm := (0 <? HitForMiss sd) && negb (bool_decide (key = [])) in
    (if hfm then perform (FSetHFM key (HitForMiss sd)) else hret tt);;
    let doStore := storable resp sd key (store && negb hfm) in
    onHdr (originHeaders resp sd doStore);;
    d <- applyDeliver status key;;
    let '(transforms, enc) := d in
    (if 0 <=? or_contentLength resp then setLength (or_contentLength resp) else hret tt);;
    rh <- reqHeader;;
    let isRange := negb (bool_decide (Get rh (go "Range") = [])) || (or_status resp =? 206) in
    let codec := negotiateEncoding enc (Get rh (go "Accept-Encoding")) in
    let canEncode := or_status resp =? 200 in
    let m := originMeta key resp sd in
    onHdr (fun h => ensureVaryForEncode enc h canEncode);;
    h <- hdr;;
    if transformsApply transforms h isRange isHead && ((or_contentLength resp <? 0) || (or_contentLength resp <=? maxTransformBody)) then
      match readCapped (or_body resp) with
      | Whole buf =>
        committed <- (if doStore then storeBuffered m buf sd else hret false);;
        serveReplaced (or_status resp) buf transforms enc codec canEncode isRange isHead;;
        hret committed
      | Overrun rest => streamOrigin resp m sd rest doStore enc codec isRange
      | ReadFailed _ => streamOrigin resp m sd (mkStream [] true) doStore enc codec isRange
      end
    else streamOrigin resp m sd (or_body resp) doStore enc codec isRange.

(** ** Origin errors *)

Definition storeAndServeNegative (key : bytes) (code : Z) (sd : ResponseDecision) : hm bool :=
  w <- perform (SWriter (mkMeta key 0 [] [] [] [] [] code false []));;
  committed <- match w with
               | None => hret false
               | Some w =>
                 c <- perform (SCommit w);;
                 if (c : bool) then perform (FStore key (TTL sd) (Grace sd) 0);; hret true else hret false
               end;;
  applyDeliver CacheStatusMiss key;;
  setLength 0;; writeHeader code;; hret committed.

Definition writeOnError (oe : OnError) : hm unit :=
  onHdr (fun h => Set_ (Set_ h (go "Content-Type") (er_contentType oe)) (go "Content-Length") (Itoa (Z.of_nat (length (er_body oe)))));;
  writeHeader (er_status oe);;
  (if isHead then hret true else recWrite (er_body oe));; hret tt.

Definition streamOriginError (key : bytes) (se : statusError) (b : stream) (stripHeaders : list bytes) : hm unit :=
  onHdr (fun h => fold_left Del stripHeaders (copyOriginHeaders h (default ∅ (se_header se))));;
  applyDeliver CacheStatusMiss key;;
  (if 0 <=? se_contentLength se then setLength (se_contentLength se) else hret tt);;
  writeHeader (se_status se);;
  (if isHead then hret true else copyChunks recWrite (st_chunks b));; hret tt.

(** The status a failed fetch stands for. *)
Definition errorCode (e : fetchError) : Z :=
  let st := StatusOf e in
  match e with
  | ErrNotFound => 404
  | _ => if (400 <=? st) && (st <? 600) then st else match e with ErrNoBackend => 503 | _ => 502 end
  end.

Definition hasStatus (e : fetchError) : bool :=
  match e with ErrNotFound => true | _ => (400 <=? StatusOf e) && (StatusOf e <? 600) end.

Definition noDecision : ResponseDecision := mkRespDec 0 0 0 0 [] false false false [].

(** What follows the decision: a negative entry, or an error. *)
Definition errorAnswer (key : bytes) (store : bool) (e : fetchError) (sd : ResponseDecision) : hm bool :=
  let code := errorCode e in
  if store && negb (bool_decide (key = [])) && Cacheable sd && isSafeMethod (r_method r) then storeAndServeNegative key code sd
  else
    match e with
    | ErrNotFound => writeStatus 404 (go "not found");; hret false
    | _ =>
      gone <- perform ClientGone;;
      if (gone : bool) then hret false
      else
        (if (0 <? HitForMiss sd) && negb (bool_decide (key = [])) then perform (FSetHFM key (HitForMiss sd)) else hret tt);;
        req <- live;;
        match EvalOnError p req with
        | Some oe => writeOnError oe;; hret false
        | None =>
          match e with
          | ErrStatus (mkStatusErr _ _ (Some b) _ as se) => streamOriginError key se b (StripHeaders sd);; hret false
          | _ => writeStatus code (go "origin error");; hret false
          end
        end
    end.

Definition handleOriginError (key : bytes) (store : bool) (e : fetchError) : hm bool :=
  stale <- (if bool_decide (key = []) then hret false else perform (FStaleWithin key));;
  served <- (if (stale : bool) then serveFromCache key CacheStatusHitStaleError else hret false);;
  if (served : bool) then hret false
  else
    let errHdr := match e with ErrStatus se => se_header se | _ => None end in
    sd <- (if hasStatus e then req <- live;; hret (EvalResponse p req (errorCode e) errHdr) else hret noDecision);;
    errorAnswer key store e sd.

Definition serveOrigin (rd : RequestDecision) (key : bytes) (store bypassPeers : bool) (status : CacheStatus) : hm bool :=
  cs <- gets hs_cacheStatus;;
  (if bool_decide (cs = []) then modify (set_cacheStatus (statusString status)) else hret tt);;
  modify (set_upstream (Upstream rd));;
  match originFor S (Upstream rd) with
  | None => writeStatus 502 (go "no upstream origin");; hret false
  | Some o =>
    req <- preq;;
    res <- perform (Fetch o (originRequestFor rd req bypassPeers));;
    match res with
    | inr e => handleOriginError key store e
    | inl resp => serveResponse key store status resp
    end
  end.

(** ** Misses *)

Definition serveMiss (rd : RequestDecision) (key : bytes) : hm unit :=
  rh <- reqHeader;;
  if negb (bool_decide (Get rh (go "Range") = []) && bool_decide (r_method r ∈ map go [""; "GET"]%string)) then
    serveOrigin rd key true false CacheStatusMiss;; hret tt
  else
    e <- perform (CEnter key);;
    let '(call, winner) := e in
    if (winner : bool) then
      ok <- serveOrigin rd key true false CacheStatusMiss;; perform (CFinish key call ok)
    else
      w <- perform (CWait call);;
      match w with
      | None => hret tt
      | Some succeeded =>
        served <- (if (succeeded : bool) then serveFromCache key CacheStatusHit else hret false);;
        if (served : bool) then hret tt
        else serveOrigin rd key true false CacheStatusMiss;; hret tt
      end.

(** ** Background revalidation *)

Definition triggerBgFetch (rd : RequestDecision) (key : bytes) : hm unit :=
  b <- perform (BBegin key);;
  if negb b then hret tt
  else
    slot <- perform BSlot;;
    if negb slot then perform (BEnd key)
    else req <- preq;; perform (BSpawn req rd key (Get (rq_Header req) (go "Cookie"))).
(** ** RECV *)

(** Run at most once; [done] is its flag. *)
Definition resolveGeo (done : bool) : hm bool :=
  match si_geo S with
  | None => hret done
  | Some g =>
    if done || negb (computeUsesGeo p) then hret done
    else
      rh <- reqHeader;;
      let ip := ClientIP (r_remoteAddr r) (Some rh) (si_trusted S) in
      let h := if PeerTrusted (r_remoteAddr r) (si_trusted S) then Some rh else None in
      let country := Lookup g ip h in
      modify (set_req (fun q =>
        set_classes q (rq_Device q) country (Continent country)
          (match si_geoRegion S with Some g => Lookup g ip h | None => rq_GeoRegion q end)));;
      hret true
  end.

(** The decision of the gate carried out: whether it answered the request. *)
Definition enforce (sec : SecurityDecision) : hm bool :=
  if Block sec then
    modify (set_cacheStatus (go "DENY"));; writeStatus (sec_status sec) (go "forbidden");; hret true
  else if Monitor sec || Allow sec then hret false
  else
    match sec_rateLimit sec with
    | None => hret false
    | Some hit =>
      d <- perform (RateAllow (rateLimitKey S (hit_key hit)) (hit_ratePerSec hit) (hit_burst hit));;
      let '(ok, retry) := d in
      if ok || hit_monitor hit then hret false
      else
        modify (set_cacheStatus (go "RATELIMIT"));;
        onHdr (fun h => Set_ h (go "Retry-After") (Itoa (RetryAfterSeconds (N := float_num) retry)));;
        writeStatus 429 (go "too many requests");; hret true
    end.

(** The security gate: whether it answered, and the flag of [resolveGeo]. *)
Definition securityGate : hm (bool * bool) :=
  if hasSecurityGate p then
    rh <- reqHeader;;
    modify (set_req (set_RealClientIP (ClientIP (r_remoteAddr r) (Some rh) (si_trusted S))));;
    done <- resolveGeo false;;
    req <- preq;;
    answered <- enforce (EvalSecurity p req);;
    hret (answered, done)
  else hret (false, false).

Definition classifyDevice : hm unit :=
  match si_device S with
  | Some d =>
    if UsesDeviceClassification p then
      rh <- reqHeader;;
      modify (set_req (fun q => set_classes q (Classify d (Get rh (go "User-Agent"))) (rq_Geo q) (rq_GeoContinent q) (rq_GeoRegion q)))
    else hret tt
  | None => hret tt
  end.

(** The cookies [cookie_allow] does not name are removed from the request. *)
Definition filterCookies (orig : bytes) : hm unit :=
  match FilterRequestCookies p orig with
  | Some f => onReqHeader (fun h => if bool_decide (f = []) then Del h (go "Cookie") else Set_ h (go "Cookie") f)
  | None => hret tt
  end.

(** From the gate to the request decision: with it, the client's own Cookie and the one a
    sibling GET is evaluated with. *)
Definition recv (geoDone : bool) : hm (RequestDecision * bytes * bytes) :=
  classifyDevice;;
  rh <- reqHeader;;
  let origClientCookie := Get rh (go "Cookie") in
  filterCookies origClientCookie;;
  resolveGeo geoDone;;
  req <- live;;
  let '(rd, req) := EvalRequest p req in
  modify (set_req (fun _ => req));;
  let origCookie := if isSafeMethod (r_method r) then [] else Get (rq_Header req) (go "Cookie") in
  (if HasDerivesFrom p then modify (set_req (StripDerivedCookies p)) else hret tt);;
  hret (rd, origClientCookie, origCookie).

(** ** Answers of the request phase *)

Definition serveSynthetic (sy : Synthetic) : hm unit :=
  modify (set_cacheStatus (go "SYNTH"));;
  onHdr (fun h => Set_ (Set_ h (go "Content-Type") (go "text/plain; charset=utf-8")) (go "Content-Length") (Itoa (Z.of_nat (length (sy_body sy)))));;
  writeHeader (sy_status sy);;
  (if isHead then hret true else recWrite (sy_body sy));; hret tt.

Definition serveRedirect (rdr : Redirect) : hm unit :=
  modify (set_cacheStatus (go "REDIRECT"));;
  onHdr (fun h =>
    let h := Set_ (Set_ h (go "Location") (Location rdr)) (go "Content-Length") (go "0") in
    if NoStore rdr then Set_ h (go "Cache-Control") (go "no-store, no-cache, must-revalidate, private") else h);;
  writeHeader (Template.Status rdr).

Definition servePurge (pd : PurgeDecision) (key : bytes) : hm unit :=
  modify (set_cacheStatus (go "PURGE"));;
  matched <- match (if bool_decide (pd_regex pd = []) then None else reCompile (pd_regex pd)) with
             | Some re => n <- perform (FBan (reMatch re));; hret (Some n)
             | None => (if bool_decide (key = []) then hret tt else perform (FForget key));; hret None
             end;;
  (match matched with
   | Some n => if 0 <=? n then onHdr (fun h => Set_ h (go "X-Purge-Count") (Itoa n)) else hret tt
   | None => hret tt
   end);;
  writeStatus 200 (go "purged").

(** ** Upgrades ([upgrade.go]) *)

Definition serveUpgrade (rd : RequestDecision) (origCookie : bytes) : hm unit :=
  modify (set_cacheStatus (go "UPGRADE"));; modify (set_upstream (Upstream rd));;
  match originFor S (Upstream rd) with
  | None => writeStatus 502 (go "upgrade not supported by upstream")
  | Some o =>
    req0 <- preq;;
    let h := restoreClientCookie (rq_Header req0) origCookie in
    let '(path, query) := originTarget (match d_rewrite rd with None => r_path r | Some _ => rq_Path req0 end) (r_rawQuery r) (d_rewrite rd) in
    let uri := match d_rewrite rd with None => r_requestURI r | Some _ => h_requestURI H path query end in
    let oreq := mkOReq (if bool_decide (r_method r = []) then go "GET" else r_method r) uri [] h
                  (normalizeHost uni_lower (rq_Host req0)) false false (routingCtx S (Upstream rd) r h) in
    t <- perform (ResolveUpgrade o oreq);;
    match t with
    | NotUpgrader => writeStatus 502 (go "upgrade not supported by upstream")
    | NoUpgradeBackend => onReqHeader (fun _ => h);; writeStatus 503 (go "no upstream available for upgrade")
    | UpgradeFailed => onReqHeader (fun _ => h);; writeStatus 502 (go "no upstream available for upgrade")
    | UpgradeTo host =>
      onReqHeader (fun _ => h);;
      let fwd := mkFwd (r_remoteAddr r) (r_tls r) (r_host r) (si_trusted S) in
      perform (Tunnel host path query (applyHeaderOps (applyForwardedHeaders h h fwd false) (ReqHeaderOps rd)))
    end
  end.

(** ** The cluster ([cluster.go]) *)

Definition HopHeader : bytes := go "X-Cadish-Peer".

Definition IsForwardedHop (m : membership) (h : header) : bool :=
  let v := Get h HopHeader in negb (bool_decide (v = [])) && bool_decide (v = mb_region m).

(** A header copied without the names [skip] holds of. *)
Definition copyHeader (skip : bytes -> bool) (out src : header) : header :=
  map_fold (fun k vs out => if skip (CanonicalHeaderKey k) then out else fold_left (fun h v => Add h k v) vs out) out src.

Definition peerHeaders (m : membership) (rh : header) (credentialed : bool) (credCookie : bytes) : header :=
  let h := copyHeader (fun k => bool_decide (k ∈ hopByHop) || bool_decide (k = go "Host")) ∅ rh in
  let h := match ClientIP (r_remoteAddr r) (Some rh) (si_trusted S) with
           | Some ip => Set_ h (go "X-Forwarded-For") (addrString ip)
           | None => h
           end in
  let h := if credentialed then restoreClientCookie h credCookie else h in
  Set_ h HopHeader (mb_region m).

Definition proxyToPeer (m : membership) (peerURL : bytes) (credentialed : bool) (credCookie : bytes) : hm bool :=
  modify (set_cacheStatus (go "CLUSTER"));; modify (set_upstream (go "peer:" ++ peerURL));;
  rh <- reqHeader;;
  res <- perform (PeerDo peerURL (r_method r) (r_requestURI r) (r_host r) (peerHeaders m rh credentialed credCookie));;
  match res with
  | None => hret false
  | Some (code, h, body) =>
    onHdr (fun out => copyHeader (fun k => bool_decide (k ∈ hopByHop)) out h);;
    writeHeader code;;
    (if isHead then hret true else copyChunks recWrite (st_chunks body));; hret true
  end.

Definition clusterRoute (m : membership) (ownerKey : bytes) (credentialed : bool) (credCookie : bytes) : hm bool :=
  rh <- reqHeader;;
  if IsForwardedHop m rh then hret false
  else match mb_mode m with
  | ModeReadThrough => hret false
  | ModeOwner =>
    if negb (bool_decide (r_method r ∈ map go ["GET"; "HEAD"]%string)) then hret false
    else
      owner <- perform (PeerOwner ownerKey true);;
      match owner with
      | Some o => if bool_decide (o = mb_self m) then hret false else proxyToPeer m o credentialed credCookie
      | None =>
        match mb_fallback m with
        | FallbackStrict => hret false
        | FallbackDegraded =>
          owner <- perform (PeerOwner ownerKey false);;
          match owner with
          | Some o => if bool_decide (o = mb_self m) then hret false else proxyToPeer m o credentialed credCookie
          | None => hret false
          end
        end
      end
  end.

(** ** LOOKUP *)

(** A write goes to the origin, and a success invalidates the entry of its URI. *)
Definition serveUnsafe (rd : RequestDecision) (key origClientCookie origCookie : bytes) : hm unit :=
  req <- live;;
  let getKey := siblingGetKey p req key origCookie in
  onReqHeader (fun h => restoreClientCookie h origClientCookie);;
  serveMiss rd key;;
  status <- gets hs_status;;
  if negb (bool_decide (getKey = [])) && (200 <=? status) && (status <? 400) then perform (FForget getKey) else hret tt.

Definition serveStored (rd : RequestDecision) (key : bytes) (state : freshState) : hm unit :=
  match state with
  | stateFresh =>
    served <- serveFromCache key CacheStatusHit;;
    if (served : bool) then hret tt else serveMiss rd key
  | stateStale =>
    served <- serveFromCache key CacheStatusHitStale;;
    if (served : bool) then triggerBgFetch rd key else serveMiss rd key
  | _ => serveMiss rd key
  end.

Definition lookup (rd : RequestDecision) (origClientCookie origCookie : bytes) : hm unit :=
  let key := CacheKey rd in
  c <- perform (FClassify key);;
  let '(state, hfm) := c in
  if (hfm : bool) then serveOrigin rd key false false CacheStatusMiss;; hret tt
  else
    rh <- reqHeader;;
    if negb (ignoreClientRevalidation p) && clientForcesRevalidate rh then serveMiss rd key
    else if negb (isSafeMethod (r_method r)) then serveUnsafe rd key origClientCookie origCookie
    else serveStored rd key state.

(** What follows the answers of the request phase: the bypass of the shared cache, or the
    cluster and then the cache. *)
Definition route (rd : RequestDecision) (origClientCookie origCookie : bytes) : hm unit :=
  req <- live;;
  modify (set_req (fun _ => req));;
  let credentialed := CacheCredentialedMatches p req in
  if Pass rd || (negb credentialed && BypassForCredentials p req) then
    modify (set_cacheStatus (go "PASS"));;
    onReqHeader (fun h => restoreClientCookie h origClientCookie);;
    serveOrigin rd [] false true CacheStatusMiss;; hret tt
  else
    let rd := if credentialed then set_ReqHeaderOps rd (prependCookieOp (ReqHeaderOps rd) origClientCookie) else rd in
    routed <- match si_cluster S with
              | Some m => clusterRoute m (rq_Path req) credentialed origClientCookie
              | None => hret false
              end;;
    if (routed : bool) then hret tt else lookup rd origClientCookie origCookie.

(** The decision of RECV carried out. *)
Definition dispatch (rd : RequestDecision) (origClientCookie origCookie : bytes) : hm unit :=
  match d_synthetic rd, d_redirect rd, d_purge rd with
  | Some sy, _, _ => serveSynthetic sy
  | None, Some rdr, _ => serveRedirect rdr
  | None, None, Some pd => servePurge pd (CacheKey rd)
  | None, None, None =>
    rh <- reqHeader;;
    if Upgrade rd && isUpgradeRequest rh then serveUpgrade rd origClientCookie
    else route rd origClientCookie origCookie
  end.

(** ** The request of a site *)

Definition serveSite : hm unit :=
  rh <- reqHeader;;
  (match si_trusted S, ClientIP (r_remoteAddr r) (Some rh) (si_trusted S) with
   | _ :: _, Some ip => modify (set_req (set_ClientIP (addrString ip)))
   | _, _ => hret tt
   end);;
  onReqHeader canonicalizeRequestCookies;;
  g <- securityGate;;
  let '(answered, geoDone) := g in
  if (answered : bool) then hret tt
  else
    out <- recv geoDone;;
    let '(rd, origClientCookie, origCookie) := out in
    dispatch rd origClientCookie origCookie.
End Site.

Section Revalidate.
Context (S : site).
Let p : Pipeline := si_pipeline S.

Definition revalidateRequest (req : Request) (rd : RequestDecision) (fwdCookie : bytes) : originRequest :=
  let base : header := if bool_decide (fwdCookie = []) then ∅ else Set_ ∅ (go "Cookie") fwdCookie in
  let fwd := if bool_decide (rq_ClientIP req = []) then None
             else Some (mkFwd (JoinHostPort (rq_ClientIP req) (go "0")) (rq_TLS req) (rq_Host req) []) in
  let '(oPath, oQuery) := originTarget (rq_Path req) (Encode (rq_Query req)) (d_rewrite rd) in
  mkOReq (go "GET") oPath oQuery (buildOriginHeader base (ReqHeaderOps rd) fwd) (normalizeHost uni_lower (rq_Host req)) false false [].

Fixpoint drainTee (w : nat) (chunks : list bytes) (werr : bool) (n : Z) : act (Z * bool) :=
  match chunks with
  | [] => Done (n, werr)
  | c :: cs =>
    if werr then drainTee w cs true (n + Z.of_nat (length c))
    else Do (SWrite w c) (fun ok => drainTee w cs (negb ok) (n + Z.of_nat (length c)))
  end.

Definition refreshedMeta (key : bytes) (resp : originResponse) (sd : ResponseDecision) : ObjectMeta :=
  let h := or_header resp in
  mkMeta key (or_contentLength resp) (Get h (go "Content-Type")) (Get h (go "ETag")) (Get h (go "Last-Modified"))
    (Get h (go "Content-Encoding")) (Get h (go "Vary")) 0 false (StoreTier sd).

Definition liveAct {A} (req : Request) (k : Request -> act A) : act A :=
  if computeNeedsPoolHealth p then Do PoolView (fun v => k (observed S v req)) else k req.

Definition revalidateError (req : Request) (key : bytes) (e : fetchError) : act unit :=
  if hasStatus e then
    liveAct req (fun req =>
    let code := match e with ErrNotFound => 404 | _ => StatusOf e end in
    let sd := EvalResponse p req code None in
    if Cacheable sd then
      Do (SWriter (mkMeta key 0 [] [] [] [] [] code false (StoreTier sd))) (fun w =>
        match w with
        | None => Done tt
        | Some w => Do (SCommit w) (fun c => if c then Do (FStore key (TTL sd) (Grace sd) 0) Done else Done tt)
        end)
    else Done tt)
  else Done tt.

Definition revalidate (req : Request) (rd : RequestDecision) (key fwdCookie : bytes) : act unit :=
  match originFor S (Upstream rd) with
  | None => Done tt
  | Some o =>
    Do (Fetch o (revalidateRequest req rd fwdCookie)) (fun res =>
      match res with
      | inr e => revalidateError req key e
      | inl resp => liveAct req (fun req =>
        let sd := EvalResponse p req (or_status resp) (Some (or_header resp)) in
        if negb (Cacheable sd) || negb (or_status resp =? 200) then
          if 0 <? HitForMiss sd then Do (FSetHFM key (HitForMiss sd)) Done else Done tt
        else
          Do (SWriter (refreshedMeta key resp sd)) (fun w =>
            match w with
            | None => Done tt
            | Some w =>
              abind (drainTee w (st_chunks (or_body resp)) false 0) (fun '(n, werr) =>
                if st_err (or_body resp) || werr || negb ((or_contentLength resp <? 0) || (n =? or_contentLength resp))
                then Do (SAbort w) Done
                else Do (SCommit w) (fun c => if c then Do (FStore key (TTL sd) (Grace sd) (MaxStale sd)) Done else Done tt))
            end))
      end)
  end.

(** The goroutine [triggerBgFetch] starts. *)
Definition backgroundFetch (req : Request) (rd : RequestDecision) (key fwdCookie : bytes) : act unit :=
  abind (revalidate req rd key fwdCookie) (fun _ => Do (BEnd key) (fun _ => Do BRelease Done)).
End Revalidate.

(** ** [ServeHTTP] *)

Definition readyzPath : bytes := go "/.cadish/readyz".

Definition serveReadyz : hm unit :=
  onHdr (fun h => Set_ h (go "Content-Type") (go "text/plain; charset=utf-8"));;
  warm <- perform Warm;;
  if (warm : bool) then writeHeader 200;; recWrite (go "ok" ++ [Zbyte 10]);; hret tt
  else writeHeader 503;; recWrite (go "warming" ++ [Zbyte 10]);; hret tt.

Definition noSite (H : handler) (strictReject : bool) : hm unit :=
  if strictReject then writeStatus 421 (go "no site configured for host")
  else writeStatus (if h_unmatchedHostStatus H =? 0 then 502 else h_unmatchedHostStatus H) (go "no site configured for host").

(** A client's hop header is removed, unless a trusted peer sent it. *)
Definition stripHop (S : site) (r : httpRequest) : httpRequest :=
  match si_cluster S with
  | None => r
  | Some _ =>
    if negb (bool_decide (Get (r_header r) HopHeader = [])) && negb (PeerTrusted (r_remoteAddr r) (si_trusted S))
    then set_r_header r (Del (r_header r) HopHeader) else r
  end.

Definition initial (r : httpRequest) : hst := mkHst (buildPipelineRequest r) ∅ 200 false [] [].

Definition ServeHTTP (H : handler) (rt : routing) (r : httpRequest) : act unit :=
  let run (m : hm unit) (r : httpRequest) := abind (m (initial r)) (fun _ => Done tt) in
  if bool_decide (r_path r = readyzPath) then run serveReadyz r
  else match selectSite rt (r_host r) with
  | (None, strictReject) => run (noSite H strictReject) r
  | (Some s, _) => let r := stripHop s r in run (serveSite H s r) r
  end.
End Serve.
