(* ===== verification/ServeLogic.v ===== *)
(** * Reasoning about handlers

    A weakest precondition for programs of [Act]: it ranges over every answer the store,
    the freshness index, the origins and the client can give, and threads a ghost record
    of what the program fetched, opened, wrote and committed.  What a program may do is a
    [policy]; [keeps] collects the programs that leave the request, and what a relation
    says of the ghost record, as they are. *)

From stdpp Require Import base strings pretty numbers gmap list.
From Stdlib Require Import Lia SpecFloat.
From S2P Require Import Prelude GoStrings Http Duration Shard Freshness Request Rules Eval Act.
Open Scope Z_scope.
Open Scope hm_scope.

(** ** The ghost record *)

Record ghost : Type := mkGhost {
  g_fetch : option originRequest;                        (* the last fetch, *)
  g_answer : option (originResponse + fetchError);       (* what it gave, *)
  g_reads : list (bytes * ObjectMeta * stream);          (* the objects read from the store, *)
  g_writers : gmap nat (ObjectMeta * bytes * bool);      (* the writers, what was written to them and whether all of it went through, *)
  g_committed : option ObjectMeta                        (* the last commit. *)
}.

Definition ghost0 : ghost := mkGhost None None [] ∅ None.

Definition upd {X : Type} (e : effect X) : X -> ghost -> ghost :=
  match e in effect X return X -> ghost -> ghost with
  | Fetch o rq => fun x g => mkGhost (Some rq) (Some x) (g_reads g) (g_writers g) (g_committed g)
  | SGet k => fun x g =>
    match x with
    | Some (m, b, _) => mkGhost (g_fetch g) (g_answer g) ((k, m, b) :: g_reads g) (g_writers g) (g_committed g)
    | None => g
    end
  | SWriter m => fun x g =>
    match x with
    | Some w => mkGhost (g_fetch g) (g_answer g) (g_reads g) (<[w := (m, [], true)]> (g_writers g)) (g_committed g)
    | None => g
    end
  | SWrite w p => fun x g =>
    mkGhost (g_fetch g) (g_answer g) (g_reads g) (alter (fun '(m, d, ok) => (m, d ++ p, ok && x)) w (g_writers g)) (g_committed g)
  | SCommit w => fun x g =>
    mkGhost (g_fetch g) (g_answer g) (g_reads g) (g_writers g) (if (x : bool) then fst <$> (fst <$> g_writers g !! w) else g_committed g)
  | _ => fun _ g => g
  end.

(** ** Policies *)

Record policy : Type := mkPolicy {
  may_fetch : originRequest -> Prop;
  may_get : bytes -> Prop;
  may_open : ObjectMeta -> ghost -> Prop;
  may_commit : ObjectMeta -> bytes -> ghost -> Prop;
  may_mark : bytes -> Prop;
  may_spawn : Request -> RequestDecision -> bytes -> bytes -> Prop
}.

Section Wp.
Context (P : policy).

(** A freshness marker is set only for what was just committed. *)
Definition pre {X : Type} (e : effect X) (g : ghost) : Prop :=
  match e with
  | Fetch _ rq => may_fetch P rq
  | SGet k => may_get P k
  | SWriter m => may_open P m g
  | SCommit w => exists m d, g_writers g !! w = Some (m, d, true) /\ may_commit P m d g
  | FStore k _ _ _ => exists m, g_committed g = Some m /\ Key m = k
  | FSetHFM k _ => may_mark P k
  | BSpawn req rd k c => may_spawn P req rd k c
  | _ => True
  end.

Fixpoint wp {A : Type} (m : act A) (Q : A -> ghost -> Prop) (g : ghost) : Prop :=
  match m with
  | Done a => Q a g
  | Do e k => pre e g /\ forall x, wp (k x) Q (upd e x g)
  end.

Lemma wp_mono {A} (m : act A) (Q Q' : A -> ghost -> Prop) g : (forall a g, Q a g -> Q' a g) -> wp m Q g -> wp m Q' g.
Proof. intros H. revert g. induction m as [a|X e k IH]; cbn; [auto|]. intros g [Hp Hk]. split; [done|]. intros x. by apply IH. Qed.

Lemma wp_bind {A B} (m : act A) (f : A -> act B) Q g : wp m (fun a g => wp (f a) Q g) g -> wp (abind m f) Q g.
Proof. revert g. induction m as [a|X e k IH]; cbn; [done|]. intros g [Hp Hk]. split; [done|]. intros x. by apply IH. Qed.

Definition wpm {A : Type} (m : hm A) (Q : A -> hst -> ghost -> Prop) (s : hst) (g : ghost) : Prop :=
  wp (m s) (fun x g => Q (fst x) (snd x) g) g.

Lemma wpm_mono {A} (m : hm A) (Q Q' : A -> hst -> ghost -> Prop) s g :
  (forall a s g, Q a s g -> Q' a s g) -> wpm m Q s g -> wpm m Q' s g.
Proof. intros H. apply wp_mono. auto. Qed.

Lemma wpm_bind {A B} (m : hm A) (f : A -> hm B) Q s g : wpm m (fun a s g => wpm (f a) Q s g) s g -> wpm (hbind m f) Q s g.
Proof. intros H. apply wp_bind. eapply wp_mono; [|exact H]. by intros [a s'] g'. Qed.

Lemma wpm_ret {A} (a : A) Q s g : Q a s g -> wpm (hret a) Q s g.
Proof. done. Qed.

Lemma wpm_perform {X} (e : effect X) Q s g : pre e g -> (forall x, Q x s (upd e x g)) -> wpm (perform e) Q s g.
Proof. done. Qed.

Lemma wpm_gets {A} (f : hst -> A) Q s g : Q (f s) s g -> wpm (gets f) Q s g.
Proof. done. Qed.

Lemma wpm_modify f Q s g : Q tt (f s) g -> wpm (modify f) Q s g.
Proof. done. Qed.

(** ** Programs that keep the request *)

Section Keeps.
Context (R : ghost -> ghost -> Prop) `{!PreOrder R}.

Definition keeps {A : Type} (m : hm A) : Prop :=
  forall s g, wpm m (fun _ s' g' => hs_req s' = hs_req s /\ R g g') s g.

Lemma keeps_elim {A} (m : hm A) Q s g :
  keeps m -> (forall a s' g', hs_req s' = hs_req s -> R g g' -> Q a s' g') -> wpm m Q s g.
Proof. intros H HQ. eapply wpm_mono; [|apply H]. cbn. intros a s' g' [? ?]. auto. Qed.

Lemma keeps_ret {A} (a : A) : keeps (hret a).
Proof. intros s g. by apply wpm_ret. Qed.

Lemma keeps_bind {A B} (m : hm A) (f : A -> hm B) : keeps m -> (forall a, keeps (f a)) -> keeps (hbind m f).
Proof.
  intros Hm Hf s g. apply wpm_bind. apply keeps_elim; [done|]. intros a s' g' Hs Hg.
  apply keeps_elim; [apply Hf|]. intros b s'' g'' Hs' Hg'. split; [congruence|]. by etrans.
Qed.

Lemma keeps_gets {A} (f : hst -> A) : keeps (gets f).
Proof. intros s g. by apply wpm_gets. Qed.

Lemma keeps_modify f : (forall s, hs_req (f s) = hs_req s) -> keeps (modify f).
Proof. intros H s g. apply wpm_modify. by split. Qed.

Lemma keeps_perform {X} (e : effect X) : (forall g, pre e g) -> (forall x g, R g (upd e x g)) -> keeps (perform e).
Proof. intros Hp Hu s g. apply wpm_perform; [done|]. intros x. by split. Qed.

Lemma keeps_copyChunks write chunks : (forall c, keeps (write c)) -> keeps (copyChunks write chunks).
Proof.
  intros H. induction chunks as [|c cs IH]; cbn; [apply keeps_ret|].
  apply keeps_bind; [done|]. intros []; [done|apply keeps_ret].
Qed.
End Keeps.
End Wp.

(** Nothing of the ghost record changes; the last fetch and its answer do not change and
    no read is forgotten. *)
Abbreviation same := (@eq ghost).
Record sameFetch (g g' : ghost) : Prop := {
  sf_fetch : g_fetch g' = g_fetch g;
  sf_answer : g_answer g' = g_answer g;
  sf_reads : forall x, x ∈ g_reads g -> x ∈ g_reads g'
}.

#[export] Instance sameFetch_preorder : PreOrder sameFetch.
Proof. split; [done|]. intros a b c [] []. split; [congruence..|auto]. Qed.

Lemma sameFetch_get k x g : sameFetch g (upd (SGet k) x g).
Proof. destruct x as [[[m b] t]|]; [|done]. split; [done..|]. intros y Hy. by apply list_elem_of_further. Qed.

Create HintDb keeps.

(** Chases a program that only performs effects of no consequence. *)
Ltac keeps :=
  repeat
    match goal with
    | |- keeps _ _ (hret _) => apply keeps_ret; apply _
    | |- keeps _ _ (gets _) => apply keeps_gets; apply _
    | |- keeps _ _ (modify _) => apply keeps_modify; [apply _|by intros []]
    | |- keeps _ _ (hbind _ _) => apply keeps_bind; [apply _|..|intros ?]
    | |- keeps _ _ (copyChunks _ _) => apply keeps_copyChunks; [apply _|intros ?]
    | |- keeps _ _ (perform _) => first [solve [eauto with keeps typeclass_instances nocore] | apply keeps_perform; [done..]]
    | |- keeps _ _ _ => solve [eauto with keeps typeclass_instances nocore]
    | |- keeps _ _ ?m => match m with context [match ?x with _ => _ end] => destruct x end
    end.

Section Quiet.
Context (P : policy) (R : ghost -> ghost -> Prop) `{!PreOrder R}.

Lemma keeps_onHdr f : keeps P R (onHdr f).
Proof. unfold onHdr. keeps. Qed.

Lemma keeps_hdr : keeps P R hdr.
Proof. unfold hdr. keeps. Qed.

Lemma keeps_preq : keeps P R preq.
Proof. unfold preq. keeps. Qed.

Lemma keeps_reqHeader : keeps P R reqHeader.
Proof. unfold reqHeader. keeps. Qed.

#[local] Hint Resolve keeps_onHdr keeps_hdr : keeps.

Lemma keeps_writeHeader code : keeps P R (writeHeader code).
Proof. unfold writeHeader. keeps. Qed.

#[local] Hint Resolve keeps_writeHeader : keeps.

Lemma keeps_recWrite p : keeps P R (recWrite p).
Proof. unfold recWrite. keeps. Qed.

#[local] Hint Resolve keeps_recWrite : keeps.

Lemma keeps_writeStatus code msg : keeps P R (writeStatus code msg).
Proof. unfold writeStatus. keeps. Qed.
End Quiet.

#[export] Hint Resolve keeps_onHdr keeps_hdr keeps_preq keeps_reqHeader keeps_writeHeader keeps_recWrite keeps_writeStatus : keeps.
