(* ===== verification/ServeProofs.v ===== *)
(** * What a handler does to the shared cache

    The policy every request of a site obeys: what it reads from the store, what it opens
    and commits there, which markers it sets and what it leaves to a background fetch.
    One proof over [ServeHTTP] and one over the background fetch give it for every answer
    of the store, the index, the coalescer, the origins and the client. *)

From stdpp Require Import base strings pretty numbers gmap list.
From Stdlib Require Import Lia SpecFloat.
From S2P Require Import Prelude GoStrings Netip Http Duration Host Range Shard Freshness Path Request Matcher CacheKey Device Rules Template Eval Credentials Response Compile Geo Forward Limiter Act Serve ServeLogic.
Open Scope Z_scope.
Open Scope hm_scope.

Section Policy.
Context {U : Platform} {R : GoLib}.
Context (H : handler) (S : site) (r : httpRequest).
Let p : Pipeline := si_pipeline S.

(** ** The request that is evaluated *)

(** The header after the cookies are one line, and after [cookie_allow]. *)
Definition clientCookie : bytes := Get (canonicalizeRequestCookies (r_header r)) (go "Cookie").

Definition evaluatedHeader : header :=
  let h := canonicalizeRequestCookies (r_header r) in
  match FilterRequestCookies p clientCookie with
  | Some f => if bool_decide (f = []) then Del h (go "Cookie") else Set_ h (go "Cookie") f
  | None => h
  end.

(** What the pre-passes may have made of the request, its header being [h]. *)
Record received (h : header) (q : Request) : Prop := {
  rc_method : rq_Method q = r_method r;
  rc_host : rq_Host q = rq_Host (buildPipelineRequest r);
  rc_path : rq_Path q = normalizePath (r_path r);
  rc_query : rq_Query q = parseQueryLossless (r_rawQuery r);
  rc_header : rq_Header q = h;
  rc_tls : rq_TLS q = r_tls r;
  rc_ip : rq_ClientIP q = clientIP (r_remoteAddr r) \/
    exists a, ClientIP (r_remoteAddr r) (Some (r_header r)) (si_trusted S) = Some a /\ rq_ClientIP q = addrString a;
  rc_device : rq_Device q = [] \/ exists d ua, si_device S = Some d /\ rq_Device q = Classify d ua;
  rc_geo : rq_Geo q = [] \/ exists g ip hh, si_geo S = Some g /\ rq_Geo q = Lookup g ip hh;
  rc_continent : rq_GeoContinent q = [] \/ exists c, rq_GeoContinent q = Continent c;
  rc_region : rq_GeoRegion q = [] \/ exists g ip hh, si_geoRegion S = Some g /\ rq_GeoRegion q = Lookup g ip hh;
  rc_selKey : rq_selKey q = None
}.

(** The decision of the request phase and the request that follows it. *)
Definition evaluated (rd : RequestDecision) (q : Request) : Prop :=
  exists q0 q1, received evaluatedHeader q0 /\ EvalRequest p q0 = (rd, q1) /\ q = StripDerivedCookies p q1.

(** The request goes through the shared cache. *)
Definition shared (rd : RequestDecision) (q : Request) : Prop :=
  d_synthetic rd = None /\ d_redirect rd = None /\ Pass rd = false /\ (CacheCredentialedMatches p q = true \/ BypassForCredentials p q = false).

(** A request the cache is looked up for, with the pools as they were when it was routed. *)
Definition keyed (rd : RequestDecision) (q : Request) : Prop :=
  (exists q' v, evaluated rd q' /\ q = observed S v q') /\ shared rd q.

(** The decision the origin is asked with: in a [cache_credentialed] scope the client's
    own Cookie goes along. *)
Definition asked (rd : RequestDecision) (q : Request) : RequestDecision :=
  if CacheCredentialedMatches p q then set_ReqHeaderOps rd (prependCookieOp (ReqHeaderOps rd) clientCookie) else rd.

(** ** The policy *)

Definition ownKey (rd : RequestDecision) (k : bytes) : Prop :=
  k = CacheKey rd \/ exists codec, k = variantKey (CacheKey rd) codec.

(** The answer of the origin an entry is made of is cacheable for the request, as the
    pools are when it is stored. *)
Definition cacheableAnswer (q : Request) (m : ObjectMeta) (g : ghost) : Prop :=
  exists v, let q := observed S v q in
  match g_answer g with
  | Some (inl resp) =>
    let sd := EvalResponse p q (or_status resp) (Some (or_header resp)) in
    Cacheable sd = true /\ (or_status resp = 200 \/ or_negative resp = true) /\ m = originMeta (Key m) resp sd
  | Some (inr e) =>
    let sd := EvalResponse p q (errorCode e) (match e with ErrStatus se => se_header se | _ => None end) in
    hasStatus e = true /\ Cacheable sd = true /\ m = mkMeta (Key m) 0 [] [] [] [] [] (errorCode e) false []
  | None => False
  end.

(** A new entry: under the request's own key, of a GET or HEAD, made of the origin's
    answer to that very request. *)
Definition newEntry (rd : RequestDecision) (q : Request) (m : ObjectMeta) (g : ghost) : Prop :=
  Key m = CacheKey rd /\ CacheKey rd <> [] /\ isSafeMethod (r_method r) = true /\
  g_fetch g = Some (originRequestFor S r (asked rd q) q false) /\ cacheableAnswer q m g.

(** A compressed form [d] of an object the request read under its own key. *)
Definition newVariant (rd : RequestDecision) (m : ObjectMeta) (d : bytes) (g : ghost) : Prop :=
  exists codec m0 b, Key m = variantKey (CacheKey rd) codec /\ Size m = Z.of_nat (length d) /\
    (CacheKey rd, m0, b) ∈ g_reads g /\ st_err b = false /\ h_compress H codec (content b) = Some d.

(** What is committed is whole: the body of the origin's answer, read to its end, of the
    announced length unless it was buffered to be rewritten; or no body. *)
Definition wholeBody (m : ObjectMeta) (d : bytes) (g : ghost) : Prop :=
  match g_answer g with
  | Some (inl resp) =>
    d = content (or_body resp) /\ st_err (or_body resp) = false /\
    (Size m < 0 \/ Size m = Z.of_nat (length d) \/
     exists q h status, Transforms (EvalDeliver p q h status) <> [] /\ Z.of_nat (length d) <= maxTransformBody)
  | _ => d = [] /\ Size m = 0
  end.

Definition handlerPolicy : policy := {|
  may_fetch := fun _ => True;
  may_get := fun k => exists rd q, keyed rd q /\ ownKey rd k;
  may_open := fun m g => exists rd q, keyed rd q /\ ((exists d, newVariant rd m d g) \/ newEntry rd q m g);
  may_commit := fun m d g =>
    exists rd q, keyed rd q /\ (newVariant rd m d g \/ newEntry rd q m g /\ wholeBody m d g);
  may_mark := fun k => exists rd q, keyed rd q /\ k = CacheKey rd;
  may_spawn := fun q rd k c =>
    exists rd0, keyed rd0 q /\ rd = asked rd0 q /\ k = CacheKey rd0 /\ c = Get (rq_Header q) (go "Cookie") /\
      isSafeMethod (r_method r) = true
|}.

Abbreviation P := handlerPolicy.

(** ** Pool health *)

Lemma wpm_live Q s g : (forall v, Q (observed S v (hs_req s)) s g) -> wpm P (live S) Q s g.
Proof.
  intros HQ. unfold live. apply wpm_bind, wpm_gets. unfold observed in *. destruct (computeNeedsPoolHealth _).
  - apply wpm_bind, wpm_perform; [done|]. intros v. apply wpm_ret, HQ.
  - apply wpm_ret, (HQ (fun _ => false)).
Qed.

Lemma keeps_live (R0 : ghost -> ghost -> Prop) `{!PreOrder R0} : keeps P R0 (live S).
Proof. intros s g. by apply wpm_live. Qed.

#[local] Hint Resolve keeps_live : keeps.

(** ** Serving a stored object *)

Section Keyed.
Context (rd : RequestDecision) (q : Request) (Hk : keyed rd q).
Let key : bytes := CacheKey rd.

Lemma keeps_get k : ownKey rd k -> keeps P sameFetch (perform (SGet k)).
Proof. intros Ho. apply keeps_perform; [|intros; apply sameFetch_get]. intros g. by exists rd, q. Qed.

#[local] Hint Resolve keeps_get : keeps.

Lemma keeps_applyDeliver (R0 : ghost -> ghost -> Prop) `{!PreOrder R0} status k : keeps P R0 (applyDeliver H S status k).
Proof. unfold applyDeliver. keeps. Qed.

Lemma keeps_setLength (R0 : ghost -> ghost -> Prop) `{!PreOrder R0} n : keeps P R0 (setLength n).
Proof. apply keeps_onHdr, _. Qed.

Lemma keeps_encodeOut (R0 : ghost -> ghost -> Prop) `{!PreOrder R0} codec chunks : keeps P R0 (encodeOut codec chunks).
Proof. unfold encodeOut. keeps. Qed.

#[local] Hint Resolve keeps_applyDeliver keeps_setLength keeps_encodeOut : keeps.

Lemma keeps_replayHeaders (R0 : ghost -> ghost -> Prop) `{!PreOrder R0} m k : keeps P R0 (replayHeaders H m k).
Proof. unfold replayHeaders. keeps. Qed.

Lemma keeps_serveRange (R0 : ghost -> ghost -> Prop) `{!PreOrder R0} m b : keeps P R0 (serveRange H r m b).
Proof. unfold serveRange. keeps. Qed.

Lemma keeps_serveReplaced (R0 : ghost -> ghost -> Prop) `{!PreOrder R0} code buf ts enc codec c1 c2 c3 :
  keeps P R0 (serveReplaced H code buf ts enc codec c1 c2 c3).
Proof. unfold serveReplaced. keeps. Qed.

#[local] Hint Resolve keeps_replayHeaders keeps_serveRange keeps_serveReplaced : keeps.

Lemma keeps_lookupVariant codec fp : keeps P sameFetch (lookupVariant key codec fp).
Proof. unfold lookupVariant. keeps. apply keeps_get. right. by exists codec. Qed.

Lemma readCapped_whole b buf : readCapped b = Whole buf ->
  buf = content b /\ st_err b = false /\ Z.of_nat (length buf) <= maxTransformBody.
Proof.
  unfold readCapped. destruct (Z.ltb_spec maxTransformBody (Z.of_nat (length (content b)))); [done|].
  destruct (st_err b); [done|]. by intros [= <-].
Qed.

Lemma readCapped_overrun b rest : readCapped b = Overrun rest -> rest = b.
Proof. unfold readCapped. destruct (_ <? _), (st_err b); congruence. Qed.

(** A program that keeps the request and the last fetch, started here. *)
Definition keepsAt {A : Type} (m : hm A) (s : hst) (g : ghost) : Prop :=
  wpm P m (fun _ s' g' => hs_req s' = hs_req s /\ sameFetch g g') s g.

Lemma keepsAt_bind {A B} (m : hm A) (f : A -> hm B) s g :
  keepsAt m s g -> (forall a s' g', hs_req s' = hs_req s -> sameFetch g g' -> keepsAt (f a) s' g') -> keepsAt (hbind m f) s g.
Proof.
  intros Hm Hf. apply wpm_bind. eapply wpm_mono; [|exact Hm]. cbn. intros a s' g' [Hs Hg].
  eapply wpm_mono; [|by apply Hf]. cbn. intros b s'' g'' [Hs' Hg']. split; [congruence|by etrans].
Qed.

Lemma keepsAt_bind_post {A B} (m : hm A) (f : A -> hm B) (Post : A -> Prop) s g :
  wpm P m (fun a s' g' => hs_req s' = hs_req s /\ g' = g /\ Post a) s g ->
  (forall a s', Post a -> hs_req s' = hs_req s -> keepsAt (f a) s' g) -> keepsAt (hbind m f) s g.
Proof.
  intros Hm Hf. apply wpm_bind. eapply wpm_mono; [|exact Hm]. cbn. intros a s' g' (Hs & -> & Ha).
  eapply wpm_mono; [|by apply Hf]. cbn. intros b s'' g'' [Hs' Hg']. split; [congruence|done].
Qed.

Lemma keepsAt_keeps {A} (m : hm A) s g : keeps P sameFetch m -> keepsAt m s g.
Proof. intros Hm. apply Hm. Qed.

#[local] Hint Resolve keeps_lookupVariant : keeps.

(** A variant is committed with all of its bytes. *)
Lemma storeVariant_ok codec fp ct comp m b s g :
  (key, m, b) ∈ g_reads g -> st_err b = false -> h_compress H codec (content b) = Some comp ->
  keepsAt (storeVariant key codec fp ct comp) s g.
Proof.
  intros Hr Hb Hc. unfold storeVariant. set (vm := mkMeta _ _ _ _ _ _ _ _ _ _).
  assert (forall g', g_reads g' = g_reads g -> newVariant rd vm comp g') as Hv.
  { intros g' Hg'. exists codec, m, b. by rewrite Hg'. }
  apply wpm_bind, wpm_perform.
  { exists rd, q. split; [done|]. left. exists comp. by apply Hv. }
  intros [w|]; [|by apply wpm_ret]. apply wpm_bind, wpm_perform; [done|]. intros [].
  - apply wpm_bind, wpm_perform; [|done]. cbn. rewrite lookup_alter, decide_True, lookup_insert_eq by done. cbn.
    eexists _, _. split; [done|]. exists rd, q. split; [done|]. left. by apply Hv.
  - by apply wpm_perform.
Qed.

Lemma serveEncoded_ok m b codec s g : (key, m, b) ∈ g_reads g \/ st_err b = true -> keepsAt (serveEncoded H m b key codec) s g.
Proof.
  intros Hr. unfold serveEncoded. apply keepsAt_bind; [apply keepsAt_keeps; keeps|]. intros [[vm vb]|] s1 g1 Hs1 Hg1.
  { apply keepsAt_keeps. keeps. }
  destruct (readCapped b) as [buf|rest|rest] eqn:Er; [|apply keepsAt_keeps; keeps..].
  apply readCapped_whole in Er as (-> & Hb & _). destruct (h_compress H codec (content b)) as [comp|] eqn:Ec; [|apply keepsAt_keeps; keeps].
  apply keepsAt_bind.
  - destruct (sourceFingerprint m); [|apply keepsAt_keeps; keeps]. apply (storeVariant_ok _ _ _ _ m b); [|done..].
    destruct Hr as [Hr|Hr]; [|congruence]. by apply (sf_reads _ _ Hg1).
  - intros [] s2 g2 _ _. apply keepsAt_keeps. keeps.
Qed.

Lemma servePlain_ok m b enc codec isRange isHd s g :
  (key, m, b) ∈ g_reads g \/ st_err b = true -> keepsAt (servePlain H m b key enc codec isRange isHd) s g.
Proof.
  intros Hr. unfold servePlain. apply wpm_bind, wpm_gets. destruct (_ && encodeApplies _ _ _ _ _ _); [by apply serveEncoded_ok|].
  apply keepsAt_keeps. keeps.
Qed.

Lemma serveBody_ok m b ts enc s g : (key, m, b) ∈ g_reads g -> keepsAt (serveBody H r m b key ts enc) s g.
Proof.
  intros Hr. unfold serveBody. apply wpm_bind, wpm_gets. apply keepsAt_bind; [apply keepsAt_keeps; keeps|]. intros [] s1 g1 Hs1 Hg1.
  { apply keepsAt_keeps. keeps. }
  apply keepsAt_bind; [apply keepsAt_keeps; keeps|]. intros [] s2 g2 Hs2 Hg2.
  assert ((key, m, b) ∈ g_reads g2) as Hr2 by (by apply (sf_reads _ _ Hg2), (sf_reads _ _ Hg1)).
  apply wpm_bind, wpm_gets. destruct (_ && (Size m <=? maxTransformBody)); [|by apply servePlain_ok; left].
  destruct (readCapped b); [apply keepsAt_keeps; keeps..|]. by apply servePlain_ok; right.
Qed.

Lemma own_key : ownKey rd key.
Proof. by left. Qed.

#[local] Hint Resolve own_key : keeps.

Lemma keeps_serveFromCache status : keeps P sameFetch (serveFromCache H S r key status).
Proof.
  intros s g. unfold serveFromCache. apply wpm_bind, wpm_perform; [exists rd, q; split; [done|apply own_key]|]. intros o.
  set (g1 := upd _ _ _). assert (sameFetch g g1) as Hg1 by apply sameFetch_get.
  apply (wpm_mono P _ (fun _ s' g' => hs_req s' = hs_req s /\ sameFetch g1 g')).
  { intros a s' g' [Hs Hg]. split; [done|by etrans]. }
  destruct o as [[[m b] tier]|]; [|by apply wpm_ret].
  assert ((key, m, b) ∈ g_reads g1) as Hr by apply list_elem_of_here. clearbody g1.
  apply wpm_bind, wpm_gets. destruct (_ && _); [by apply wpm_ret|].
  apply wpm_bind, wpm_modify, wpm_bind, wpm_modify. set (s1 := set_upstream _ _).
  apply (keepsAt_bind _ _ s1 g1); [apply keepsAt_keeps; keeps|]. intros [] s2 g2 Hs2 Hg2.
  apply keepsAt_bind; [apply keepsAt_keeps; keeps|]. intros [ts enc] s3 g3 Hs3 Hg3.
  apply wpm_bind, wpm_gets, wpm_bind, wpm_perform; [done|]. intros now. destruct (_ && _); [apply keepsAt_keeps; keeps|].
  apply (keepsAt_bind _ _ s3 g3); [|intros [] s4 g4 _ _; apply keepsAt_keeps; keeps].
  apply serveBody_ok. by apply (sf_reads _ _ Hg3), (sf_reads _ _ Hg2).
Qed.

#[local] Hint Resolve keeps_serveFromCache : keeps.

(** ** Storing an answer of the origin *)

Lemma newEntry_same m g g' : sameFetch g g' -> newEntry rd q m g -> newEntry rd q m g'.
Proof. intros [Hf Ha _]. unfold newEntry, cacheableAnswer. by rewrite Hf, Ha. Qed.

Lemma wholeBody_same m d g g' : sameFetch g g' -> wholeBody m d g -> wholeBody m d g'.
Proof. intros [_ Ha _]. unfold wholeBody. by rewrite Ha. Qed.

(** A commit and the marker that follows it. *)
Lemma commit_mark w m d ttl grace ms s g :
  g_writers g !! w = Some (m, d, true) -> newEntry rd q m g -> wholeBody m d g ->
  keepsAt (c <- perform (SCommit w);; if (c : bool) then perform (FStore (Key m) ttl grace ms);; hret true else hret false) s g.
Proof.
  intros Hw Hm Hd. apply wpm_bind, wpm_perform.
  { exists m, d. split; [done|]. exists rd, q. split; [done|]. by right. }
  intros []; [|by apply wpm_ret]. apply wpm_bind, wpm_perform; [|done].
  exists m. split; [|done]. cbn. by rewrite Hw.
Qed.

Lemma storeBuffered_ok m buf sd s g :
  newEntry rd q m g -> wholeBody m buf g -> keepsAt (storeBuffered m buf sd) s g.
Proof.
  intros Hm Hd. unfold storeBuffered. apply wpm_bind, wpm_perform.
  { exists rd, q. split; [done|]. by right. }
  intros [w|]; [|by apply wpm_ret]. apply wpm_bind, wpm_perform; [done|]. intros [].
  - eapply wpm_mono; [|apply (commit_mark w m buf)].
    + cbn. intros a s' g' [Hs Hg]. split; [done|]. by etrans; [|exact Hg].
    + cbn. by rewrite lookup_alter, decide_True, lookup_insert_eq.
    + by apply (newEntry_same _ g).
    + by apply (wholeBody_same _ _ g).
  - by apply wpm_bind, wpm_perform.
Qed.

(** The tee: unless an error is reported, the writer has received every byte that was
    read. *)
Definition teed (w : nat) (m : ObjectMeta) (s : hst) (g : ghost) (d body : bytes) (err werr : bool) (n : Z)
    (out : Z * bool * bool) (s' : hst) (g' : ghost) : Prop :=
  let '(n', err', werr') := out in
  hs_req s' = hs_req s /\ sameFetch g g' /\
  exists d', g_writers g' !! w = Some (m, d', negb werr') /\
    (err' = false -> werr' = false -> err = false /\ werr = false /\ d' = d ++ body /\ n' = n + Z.of_nat (length body)).

Lemma teed_cons w m s s1 g g1 d d1 c body err werr werr1 n out s' g' :
  hs_req s1 = hs_req s -> sameFetch g g1 -> (werr1 = false -> werr = false /\ d1 = d ++ c) ->
  teed w m s1 g1 d1 body err werr1 (n + Z.of_nat (length c)) out s' g' ->
  teed w m s g d (c ++ body) err werr n out s' g'.
Proof.
  intros Hs1 Hg1 Hd1. destruct out as [[n' err'] werr']. intros (Hs & Hg & d' & Hd' & Hall).
  split; [congruence|]. split; [by etrans|]. exists d'. split; [done|]. intros He Hwe.
  destruct (Hall He Hwe) as (E & Hw1 & -> & ->). destruct (Hd1 Hw1) as [-> ->].
  rewrite length_app, <- app_assoc. repeat split; [done|lia].
Qed.

Lemma copyTee_ok w write m chunks :
  (forall c, keeps P same (write c)) ->
  forall err werr n d s g, g_writers g !! w = Some (m, d, negb werr) ->
  wpm P (copyTee w write chunks err werr n) (teed w m s g d (concat chunks) err werr n) s g.
Proof.
  intros Hw. induction chunks as [|c cs IH]; intros err werr n d s g Hg.
  { apply wpm_ret. split; [done|]. split; [done|]. exists d. split; [done|]. intros -> ->. rewrite app_nil_r. cbn. auto with lia. }
  cbn [copyTee]. apply wpm_bind.
  assert (forall werr1 d1 g1, sameFetch g g1 -> g_writers g1 !! w = Some (m, d1, negb werr1) ->
    (werr1 = false -> werr = false /\ d1 = d ++ c) ->
    wpm P (ok <- write c;; (if (ok : bool) then copyTee w write cs err werr1 (n + Z.of_nat (length c)) else hret (n, true, werr1)))
      (teed w m s g d (concat (c :: cs)) err werr n) s g1) as Hrest.
  { intros werr1 d1 g1 Hg1 Hw1 Hd1. apply wpm_bind. apply (keeps_elim P same); [done|]. intros ok s' g' Hs <-. destruct ok.
    - eapply wpm_mono; [|by apply (IH err werr1 _ d1)]. intros out s'' g''. by apply teed_cons.
    - apply wpm_ret. split; [done|]. split; [done|]. exists d1. by split. }
  unfold mirror. destruct werr.
  - apply wpm_ret. by apply (Hrest true d).
  - apply wpm_bind, wpm_perform; [done|]. intros ok. apply wpm_ret. apply (Hrest (negb ok) (d ++ c)); [done| |by destruct ok].
    cbn. rewrite lookup_alter, decide_True by done. rewrite Hg. cbn. by destruct ok.
Qed.

Lemma streamOrigin_ok resp m sd b doStore enc codec isRange s g :
  (doStore = true -> newEntry rd q m g /\ g_answer g = Some (inl resp) /\ Size m = or_contentLength resp /\
     (content b = content (or_body resp) /\ st_err b = st_err (or_body resp) \/ st_err b = true)) ->
  keepsAt (streamOrigin H r resp m sd b doStore enc codec isRange) s g.
Proof.
  intros Hstore. unfold streamOrigin. destruct doStore; [|apply wpm_bind, wpm_ret, keepsAt_keeps; keeps].
  destruct (Hstore eq_refl) as (Hm & Ha & Hsz & Hb). clear Hstore.
  apply wpm_bind, wpm_perform; [exists rd, q; split; [done|by right]|]. intros [w|]; [|apply keepsAt_keeps; keeps].
  set (g1 := upd _ _ _). assert (g_writers g1 !! w = Some (m, [], true)) as Hw by apply lookup_insert_eq.
  assert (sameFetch g g1) as Hg1 by done. clearbody g1.
  apply wpm_bind, wpm_gets. set (encoding := _ && h_newEncoder H codec).
  apply wpm_bind, (keeps_elim P same); [keeps|]. intros [] s1 g1' Hs1 <-.
  apply wpm_bind, (keeps_elim P same); [keeps|]. intros [] s2 g1' Hs2 <-.
  destruct (isHead r); [eapply wpm_mono; [|apply (keepsAt_keeps _ s2 g1)]; [cbn; intros ? ? ? [-> ?]; split; [congruence|by etrans]|keeps]|].
  apply wpm_bind. eapply wpm_mono; [|apply (copyTee_ok w _ m (st_chunks b)); [intros c; destruct encoding; keeps|exact Hw]].
  cbn beta. intros [[n copyErr] werr] s3 g3 (Hs3 & Hg3 & d & Hd & Hall).
  apply wpm_bind, (keeps_elim P same); [destruct encoding; keeps|]. intros [] s4 g3' Hs4 <-.
  unfold teeFinish. destruct (copyErr || werr || _) eqn:E.
  { apply wpm_bind, wpm_bind, wpm_perform; [done|]. intros x. apply wpm_ret, wpm_ret. split; [congruence|by do 2 etrans]. }
  apply orb_false_iff in E as [[-> ->]%orb_false_iff E]. destruct (Hall eq_refl eq_refl) as (He & _ & Ed & En).
  eapply wpm_mono; [|apply (commit_mark w m d); [exact Hd|by apply (newEntry_same _ g); [etrans; [exact Hg1|exact Hg3]|]|]].
  { cbn. intros ? ? ? [-> ?]. split; [congruence|]. by do 3 etrans. }
  destruct Hb as [[Hc Herr]|Hb]; [|congruence].
  unfold wholeBody. rewrite (sf_answer _ _ Hg3), (sf_answer _ _ Hg1), Ha. rewrite Ed. cbn [app]. fold (content b).
  split; [done|]. split; [congruence|]. apply negb_false_iff, orb_true_iff in E. rewrite Hsz.
  destruct E as [?%Z.ltb_lt|E%Z.eqb_eq]; [by left|]. right. left. unfold content. lia.
Qed.
Lemma applyDeliver_ok status k s g :
  wpm P (applyDeliver H S status k)
    (fun out s' g' => hs_req s' = hs_req s /\ g' = g /\ (exists q h, fst out = Transforms (EvalDeliver p q h status))) s g.
Proof.
  unfold applyDeliver. apply wpm_bind, wpm_live. intros v. apply wpm_bind, wpm_gets.
  apply wpm_bind, (keeps_elim P same); [keeps|]. intros [] s1 g1 Hs1 <-.
  apply wpm_bind, (keeps_elim P same); [keeps|]. intros [] s2 g2 Hs2 <-.
  apply wpm_ret. split; [congruence|]. split; [done|]. by eexists _, _.
Qed.

(** Whose request a fetch that may be stored is made for. *)
Definition storesFor (store : bool) (s : hst) (g : ghost) : Prop :=
  store = true -> isSafeMethod (r_method r) = true ->
  hs_req s = q /\ g_fetch g = Some (originRequestFor S r (asked rd q) q false).

Lemma storable_new k resp store s g v :
  k = [] \/ k = key -> g_answer g = Some (inl resp) -> storesFor store s g ->
  let sd := EvalResponse p (observed S v (hs_req s)) (or_status resp) (Some (or_header resp)) in
  storable r resp sd k store = true -> newEntry rd q (originMeta k resp sd) g.
Proof.
  intros Hkk Ha Hst sd Hs. unfold storable in Hs. rewrite !andb_true_iff in Hs. destruct Hs as [[[[Hs Hne] Hc] Hco] Hsafe].
  destruct (Hst Hs Hsafe) as [Hq Hf]. apply negb_true_iff, bool_decide_eq_false in Hne. destruct Hkk as [-> | ->]; [done|].
  split; [done|]. split; [done|]. split; [done|]. split; [done|]. exists v. cbn zeta. rewrite Ha. subst sd. rewrite Hq in *.
  split; [done|]. split; [|done]. apply orb_true_iff in Hco as [Hco%Z.eqb_eq|Hco]; auto.
Qed.

(** A last good copy is looked for only when there is a key. *)
Lemma keepsAt_stale {B} k status (b : bool) (f : bool -> hm B) s g :
  k = [] \/ k = key ->
  (forall s' g', hs_req s' = hs_req s -> sameFetch g g' -> keepsAt (f true) s' g') ->
  (forall s' g', hs_req s' = hs_req s -> sameFetch g g' -> keepsAt (f false) s' g') ->
  keepsAt (stale <- (if b && negb (bool_decide (k = [])) then perform (FStaleWithin k) else hret false);;
           served <- (if (stale : bool) then serveFromCache H S r k status else hret false);; f served) s g.
Proof.
  intros Hkk Ht Hf. destruct Hkk as [-> | ->].
  - rewrite bool_decide_true, andb_false_r by done. apply wpm_bind, wpm_ret, wpm_bind, wpm_ret. by apply Hf.
  - apply keepsAt_bind; [apply keepsAt_keeps; keeps|]. intros stale s1 g1 Hs1 Hg1.
    apply keepsAt_bind; [apply keepsAt_keeps; destruct stale; keeps|]. intros served s2 g2 Hs2 Hg2.
    destruct served; [apply Ht|apply Hf]; try congruence; by etrans.
Qed.

Lemma keeps_mark k d (R0 : ghost -> ghost -> Prop) `{!PreOrder R0} :
  k = [] \/ k = key -> keeps P R0 (if (0 <? d) && negb (bool_decide (k = [])) then perform (FSetHFM k d) else hret tt).
Proof.
  intros [-> | ->]; [rewrite bool_decide_true, andb_false_r by done; apply keeps_ret; apply _|].
  destruct (_ && _); [|apply keeps_ret; apply _]. apply keeps_perform; [|done]. intros g. by exists rd, q.
Qed.

Lemma serveResponse_ok k store status resp s g :
  k = [] \/ k = key -> g_answer g = Some (inl resp) -> storesFor store s g ->
  keepsAt (serveResponse H S r k store status resp) s g.
Proof.
  intros Hkk Ha Hst. unfold serveResponse. apply wpm_bind, wpm_live. intros v. set (sd := EvalResponse _ _ _ _).
  apply keepsAt_stale; [done|intros; by apply wpm_ret|]. intros s1 g1 Hs1 Hg1.
  apply keepsAt_bind; [apply keepsAt_keeps, keeps_mark; [apply _|done]|]. intros [] s2 g2 Hs2 Hg2.
  set (doStore := storable _ _ _ _ _).
  assert (doStore = true -> newEntry rd q (originMeta k resp sd) g2) as Hnew.
  { intros Hd. apply (newEntry_same _ g g2); [by etrans|]. apply (storable_new k resp (store && negb ((0 <? HitForMiss sd) && negb (bool_decide (k = [])))) s g v); [done..| |done].
    intros [Hs' _]%andb_true_iff. by apply Hst. }
  assert (g_answer g2 = Some (inl resp)) as Ha2 by (rewrite (sf_answer _ _ Hg2), (sf_answer _ _ Hg1); done).
  clearbody doStore. apply keepsAt_bind; [apply keepsAt_keeps; keeps|]. intros [] s3 g3 Hs3 Hg3.
  apply (keepsAt_bind_post _ _ _ _ _ (applyDeliver_ok status k s3 g3)).
  intros [ts enc] s4 (qt & ht & Hts) Hs4. cbn [fst] in Hts.
  apply keepsAt_bind; [apply keepsAt_keeps; keeps|]. intros [] s5 g5 Hs5 Hg5.
  apply wpm_bind, wpm_gets. apply keepsAt_bind; [apply keepsAt_keeps; keeps|]. intros [] s6 g6 Hs6 Hg6.
  apply wpm_bind, wpm_gets.
  assert (sameFetch g2 g6) as Hg26 by (by do 2 etrans). assert (g_answer g6 = Some (inl resp)) as Ha6 by (by rewrite (sf_answer _ _ Hg26)).
  assert (doStore = true -> newEntry rd q (originMeta k resp sd) g6) as Hn6 by (intros ?; by apply (newEntry_same _ g2), Hnew).
  destruct (transformsApply _ _ _ _ && _) eqn:Et; [|apply streamOrigin_ok; naive_solver].
  destruct (readCapped (or_body resp)) as [buf|rest|rest] eqn:Er.
  - apply readCapped_whole in Er as (-> & Hok & Hlen). apply keepsAt_bind.
    + destruct doStore; [|apply keepsAt_keeps; keeps]. apply storeBuffered_ok; [auto|].
      unfold wholeBody. rewrite Ha6. split; [done|]. split; [done|]. right. right. exists qt, ht, status. rewrite <- Hts. split; [|done].
      unfold transformsApply in Et. rewrite !andb_true_iff in Et. destruct Et as [[[[Et _] _] _] _].
      by apply negb_true_iff, bool_decide_eq_false in Et.
    + intros c s7 g7 _ _. apply keepsAt_keeps. keeps.
  - apply readCapped_overrun in Er as ->. apply streamOrigin_ok. naive_solver.
  - apply streamOrigin_ok. naive_solver.
Qed.

(** ** Origin errors *)

Lemma storeAndServeNegative_ok code sd s g e :
  newEntry rd q (mkMeta key 0 [] [] [] [] [] code false []) g -> g_answer g = Some (inr e) ->
  keepsAt (storeAndServeNegative H S key code sd) s g.
Proof.
  intros Hm Ha. unfold storeAndServeNegative. apply wpm_bind, wpm_perform; [exists rd, q; split; [done|by right]|].
  intros w. set (g1 := upd _ _ _). assert (sameFetch g g1) as Hg1 by (by destruct w).
  eapply wpm_mono; [|apply (keepsAt_bind _ _ s g1)].
  - cbn. intros ? ? ? [Hs Hg]. split; [done|]. by etrans.
  - destruct w as [w|]; [|by apply wpm_ret]. apply (commit_mark w (mkMeta key 0 [] [] [] [] [] code false []) []).
    + by apply lookup_insert_eq.
    + by apply (newEntry_same _ g).
    + unfold wholeBody. by rewrite (sf_answer _ _ Hg1), Ha.
  - intros c s' g' _ _. apply keepsAt_keeps. keeps.
Qed.

Lemma keeps_writeOnError oe (R0 : ghost -> ghost -> Prop) `{!PreOrder R0} : keeps P R0 (writeOnError r oe).
Proof. unfold writeOnError. keeps. Qed.

Lemma keeps_streamOriginError k se b strip (R0 : ghost -> ghost -> Prop) `{!PreOrder R0} : keeps P R0 (streamOriginError H S r k se b strip).
Proof. unfold streamOriginError. keeps. Qed.

#[local] Hint Resolve keeps_writeOnError keeps_streamOriginError keeps_mark : keeps.

Lemma handleOriginError_ok k store e s g :
  k = [] \/ k = key -> g_answer g = Some (inr e) -> storesFor store s g ->
  keepsAt (handleOriginError H S r k store e) s g.
Proof.
  intros Hkk Ha Hst. unfold handleOriginError.
  assert (forall (b : bool) (x y : hm bool), (if b then x else y) = (if true && negb b then y else x)) as Hif by (by intros []).
  rewrite Hif. apply keepsAt_stale; [done|intros; by apply wpm_ret|]. intros s1 g1 Hs1 Hg1.
  apply wpm_bind. set (hdr := match e with ErrStatus se => se_header se | _ => None end).
  enough (forall v, let sd := if hasStatus e then EvalResponse p (observed S v (hs_req s1)) (errorCode e) hdr else noDecision in
    keepsAt (errorAnswer H S r k store e sd) s1 g1) as Hgo.
  { destruct (hasStatus e); [apply wpm_bind, wpm_live; intros v; apply wpm_ret, (Hgo v)|apply wpm_ret, (Hgo (fun _ => false))]. }
  intros v sd. unfold errorAnswer. destruct (_ && isSafeMethod _) eqn:E; [|apply keepsAt_keeps; keeps].
  rewrite !andb_true_iff in E. destruct E as [[[Hs Hne] Hc] Hsafe]. destruct (Hst Hs Hsafe) as [Hq Hf].
  apply negb_true_iff, bool_decide_eq_false in Hne. destruct Hkk as [-> | ->]; [done|].
  apply (storeAndServeNegative_ok _ _ _ _ e); [|by rewrite (sf_answer _ _ Hg1)].
  split; [done|]. split; [done|]. split; [done|]. split; [by rewrite (sf_fetch _ _ Hg1)|].
  exists v. cbn zeta. rewrite (sf_answer _ _ Hg1), Ha. subst sd. destruct (hasStatus e); [|done]. rewrite Hs1, Hq in Hc. done.
Qed.

Lemma serveOrigin_ok rd' k store bypass status s g :
  k = [] \/ k = key ->
  (store = true -> isSafeMethod (r_method r) = true -> hs_req s = q /\ rd' = asked rd q /\ bypass = false) ->
  wpm P (serveOrigin H S r rd' k store bypass status) (fun _ s' _ => hs_req s' = hs_req s) s g.
Proof.
  intros Hkk Hst. unfold serveOrigin. apply wpm_bind, wpm_gets, wpm_bind, (keeps_elim P same); [keeps|]. intros [] s1 g1 Hs1 <-.
  apply wpm_bind, wpm_modify. destruct (originFor _ _) as [o|].
  2: { apply (keeps_elim P same); [keeps|]. cbn. congruence. }
  apply wpm_bind, wpm_gets, wpm_bind, wpm_perform; [done|]. intros res.
  assert (storesFor store (set_upstream (Upstream rd') s1) (upd (Fetch o (originRequestFor S r rd' (hs_req s1) bypass)) res g)) as Hsf.
  { intros Hs Hsafe. destruct (Hst Hs Hsafe) as (Hq & -> & ->). cbn. split; [congruence|]. by rewrite Hs1, Hq. }
  destruct res as [resp|e].
  - eapply wpm_mono; [|by apply serveResponse_ok]. cbn. intros ? ? ? [-> _]. done.
  - eapply wpm_mono; [|by apply handleOriginError_ok]. cbn. intros ? ? ? [-> _]. done.
Qed.
(** ** LOOKUP *)

Definition anyPost {A : Type} (_ : A) (_ : hst) (_ : ghost) : Prop := True.

Lemma wpm_any {A} (m : hm A) Q s g : wpm P m Q s g -> wpm P m anyPost s g.
Proof. by apply wpm_mono. Qed.

Lemma keeps_any {A} (m : hm A) s g : keeps P sameFetch m -> wpm P m anyPost s g.
Proof. intros Hm. eapply wpm_any, Hm. Qed.

Definition asksFor (rd' : RequestDecision) (s : hst) : Prop :=
  isSafeMethod (r_method r) = true -> hs_req s = q /\ rd' = asked rd q.

Lemma serveOrigin_any rd' store s g :
  asksFor rd' s -> wpm P (serveOrigin H S r rd' key store false CacheStatusMiss) (fun _ s' _ => hs_req s' = hs_req s) s g.
Proof. intros Ha. apply serveOrigin_ok; [by right|]. intros _ Hs. by destruct (Ha Hs) as [-> ->]. Qed.

Lemma serveMiss_ok rd' s g : asksFor rd' s -> wpm P (serveMiss H S r rd' key) anyPost s g.
Proof.
  intros Ha. unfold serveMiss. apply wpm_bind, wpm_gets. destruct (negb _).
  { apply wpm_bind. eapply wpm_mono; [|by apply serveOrigin_any]. done. }
  apply wpm_bind, wpm_perform; [done|]. intros [call winner]. destruct winner.
  { apply wpm_bind. eapply wpm_mono; [|by apply serveOrigin_any]. done. }
  apply wpm_bind, wpm_perform; [done|]. intros [succeeded|]; [|done].
  apply wpm_bind, (keeps_elim P sameFetch); [destruct succeeded; keeps|]. intros served s' g' Hs' _. destruct served; [done|].
  apply wpm_bind. eapply wpm_mono; [|apply serveOrigin_any]; [done|]. intros Hs. rewrite Hs'. by apply Ha.
Qed.

Lemma triggerBgFetch_ok s g :
  hs_req s = q -> isSafeMethod (r_method r) = true -> wpm P (triggerBgFetch (asked rd q) key) anyPost s g.
Proof.
  intros Hq Hs. unfold triggerBgFetch. apply wpm_bind, wpm_perform; [done|]. intros []; [|done].
  apply wpm_bind, wpm_perform; [done|]. intros []; [|done].
  apply wpm_bind, wpm_gets, wpm_perform; [|done]. rewrite Hq. by exists rd.
Qed.

Lemma serveUnsafe_ok rd' c1 c2 s g :
  isSafeMethod (r_method r) = false -> wpm P (serveUnsafe H S r rd' key c1 c2) anyPost s g.
Proof.
  intros Hs. unfold serveUnsafe. apply wpm_bind, wpm_live. intros v. apply wpm_bind, wpm_modify, wpm_bind.
  eapply wpm_mono; [|apply serveMiss_ok; unfold asksFor; congruence]. intros ? ? ? _.
  apply wpm_bind, wpm_gets. by destruct (_ && _).
Qed.

Lemma serveStored_ok state s g :
  hs_req s = q -> isSafeMethod (r_method r) = true -> wpm P (serveStored H S r (asked rd q) key state) anyPost s g.
Proof.
  intros Hq Hs. unfold serveStored. destruct state; try (by apply serveMiss_ok).
  - apply wpm_bind, (keeps_elim P sameFetch); [keeps|]. intros [] s' g' Hs' _; [done|]. apply serveMiss_ok. intros _. by rewrite Hs'.
  - apply wpm_bind, (keeps_elim P sameFetch); [keeps|].
    intros [] s' g' Hs' _; [by apply triggerBgFetch_ok; [congruence|]|]. apply serveMiss_ok. intros _. by rewrite Hs'.
Qed.

Lemma CacheKey_asked : CacheKey (asked rd q) = key.
Proof. unfold asked. by destruct (CacheCredentialedMatches p q), rd. Qed.

Lemma lookup_ok c1 c2 s g : hs_req s = q -> wpm P (lookup H S r (asked rd q) c1 c2) anyPost s g.
Proof.
  intros Hq. unfold lookup. rewrite CacheKey_asked. apply wpm_bind, wpm_perform; [done|]. intros [state hfm]. destruct hfm.
  { apply wpm_bind. eapply wpm_mono; [|apply serveOrigin_ok; [by right|done]]. done. }
  apply wpm_bind, wpm_gets. destruct (_ && clientForcesRevalidate _); [by apply serveMiss_ok|].
  destruct (isSafeMethod (r_method r)) eqn:E; [by apply serveStored_ok|by apply serveUnsafe_ok].
Qed.
End Keyed.

(** ** The cluster and the bypass *)

#[local] Hint Resolve keeps_applyDeliver : keeps.

Lemma keeps_clusterRoute m k c ck (R0 : ghost -> ghost -> Prop) `{!PreOrder R0} : keeps P R0 (clusterRoute S r m k c ck).
Proof. unfold clusterRoute, proxyToPeer. keeps. Qed.

#[local] Hint Resolve keeps_clusterRoute keeps_setLength keeps_serveReplaced keeps_writeOnError keeps_streamOriginError : keeps.

(** Without a key nothing is looked up and nothing is stored. *)
Lemma keeps_streamOrigin resp m sd b enc codec isRange : keeps P sameFetch (streamOrigin H r resp m sd b false enc codec isRange).
Proof.
  intros s g. unfold streamOrigin. apply wpm_bind, wpm_ret.
  match goal with |- wpm _ ?m _ _ _ => assert (keeps P sameFetch m) as Hm by keeps end. apply Hm.
Qed.

#[local] Hint Resolve keeps_streamOrigin : keeps.

Lemma keeps_serveResponse status resp : keeps P sameFetch (serveResponse H S r [] false status resp).
Proof.
  intros s g. unfold serveResponse. apply wpm_bind, wpm_live. intros v. rewrite bool_decide_true, !andb_false_r by done.
  apply wpm_bind, wpm_ret, wpm_bind, wpm_ret. cbn [storable andb negb].
  match goal with |- wpm _ ?m _ _ _ => assert (keeps P sameFetch m) as Hm by keeps end. apply Hm.
Qed.

Lemma keeps_errorAnswer e sd : keeps P sameFetch (errorAnswer H S r [] false e sd).
Proof. unfold errorAnswer. cbn [andb]. rewrite bool_decide_true by done. cbn [negb]. rewrite andb_false_r. keeps. Qed.

#[local] Hint Resolve keeps_errorAnswer : keeps.

Lemma keeps_handleOriginError e : keeps P sameFetch (handleOriginError H S r [] false e).
Proof.
  intros s g. unfold handleOriginError. rewrite bool_decide_true by done. apply wpm_bind, wpm_ret, wpm_bind, wpm_ret.
  match goal with |- wpm _ ?m _ _ _ => assert (keeps P sameFetch m) as Hm by keeps end. apply Hm.
Qed.

Lemma serveOrigin_pass rd' s g : wpm P (serveOrigin H S r rd' [] false true CacheStatusMiss) anyPost s g.
Proof.
  unfold serveOrigin. apply wpm_bind, wpm_gets, wpm_bind, (keeps_elim P same); [keeps|]. intros [] s1 g1 _ <-.
  apply wpm_bind, wpm_modify. destruct (originFor _ _) as [o|]; [|apply (keeps_elim P same); [keeps|done]].
  apply wpm_bind, wpm_gets, wpm_bind, wpm_perform; [done|].
  intros []; (apply (keeps_elim P sameFetch); [|done]); [apply keeps_serveResponse|apply keeps_handleOriginError].
Qed.

Lemma route_ok rd q c2 s g : d_synthetic rd = None -> d_redirect rd = None -> evaluated rd q -> hs_req s = q -> wpm P (route H S r rd clientCookie c2) anyPost s g.
Proof.
  intros Hsy Hre He Hq. unfold route. apply wpm_bind, wpm_live. intros v. rewrite Hq. set (q' := observed S v q). apply wpm_bind, wpm_modify. destruct (Pass rd || _) eqn:E.
  { apply wpm_bind, wpm_modify, wpm_bind, wpm_modify, wpm_bind. eapply wpm_mono; [|apply serveOrigin_pass]. done. }
  apply orb_false_iff in E as [Hp Hc]. apply wpm_bind, (keeps_elim P sameFetch); [destruct (si_cluster S); keeps|].
  intros routed s' g' Hs' _. destruct routed; [done|]. fold (asked rd q'). apply lookup_ok; [|rewrite Hs'; by destruct s].
  split; [by exists q, v|]. do 3 (split; [done|]). apply andb_false_iff in Hc as [Hc%negb_false_iff|Hc]; auto.
Qed.

(** ** RECV *)

#[local] Hint Resolve keeps_writeStatus : keeps.

Lemma dispatch_ok rd q c2 s g : evaluated rd q -> hs_req s = q -> wpm P (dispatch H S r rd clientCookie c2) anyPost s g.
Proof.
  intros He Hq. unfold dispatch. destruct (d_synthetic rd) eqn:Esy; [|destruct (d_redirect rd) eqn:Ere; [|destruct (d_purge rd)]].
  - apply keeps_any. unfold serveSynthetic. keeps.
  - apply keeps_any. unfold serveRedirect. keeps.
  - apply keeps_any. unfold servePurge. keeps.
  - apply wpm_bind, wpm_gets. destruct (_ && _); [|by apply (route_ok rd q)].
    unfold serveUpgrade. apply wpm_bind, wpm_modify, wpm_bind, wpm_modify.
    destruct (originFor _ _) as [o|]; [|apply keeps_any; keeps].
    apply wpm_bind, wpm_gets. cbn zeta. destruct (originTarget _ _ _) as [tpath tquery].
    apply wpm_bind, wpm_perform; [done|]. intros [| | |host]; [apply keeps_any; keeps|..];
      apply wpm_bind, wpm_modify; apply keeps_any; keeps.
Qed.

(** A pre-pass, from a request with the header [h] to one with the header [h']. *)
Definition prepass {A : Type} (h h' : header) (m : hm A) : Prop :=
  forall s g, received h (hs_req s) -> wpm P m (fun _ s' _ => received h' (hs_req s')) s g.

Lemma prepass_bind {A B} h h' h'' (m : hm A) (f : A -> hm B) :
  prepass h h' m -> (forall a, prepass h' h'' (f a)) -> prepass h h'' (hbind m f).
Proof. intros Hm Hf s g Hs. apply wpm_bind. eapply wpm_mono; [|by apply Hm]. cbn. intros a s' g' Hs'. by apply Hf. Qed.

Lemma prepass_keeps {A} h (m : hm A) : keeps P sameFetch m -> prepass h h m.
Proof. intros Hm s g Hs. eapply wpm_mono; [|apply Hm]. cbn. by intros a s' g' [-> _]. Qed.

Lemma prepass_req h h' f : (forall q, received h q -> received h' (f q)) -> prepass h h' (modify (set_req f)).
Proof. intros Hf s g Hs. apply wpm_modify. by apply Hf. Qed.

Lemma received_ClientIP h a q : ClientIP (r_remoteAddr r) (Some (r_header r)) (si_trusted S) = Some a -> received h q -> received h (set_ClientIP (addrString a) q).
Proof. intros Ha []. destruct q. constructor; cbn in *; eauto. Qed.

Lemma received_RealClientIP h a q : received h q -> received h (set_RealClientIP a q).
Proof. intros []. destruct q. by constructor. Qed.

Lemma received_observed h v q : received h q -> received h (observed S v q).
Proof. unfold observed. destruct (computeNeedsPoolHealth _); [|done]. intros []. destruct q. by constructor. Qed.

Lemma received_header h f q : received h q -> received (f h) (set_Header q (f (rq_Header q))).
Proof. intros []. destruct q. cbn in *. subst. by constructor. Qed.

Lemma received_device h d ua q : si_device S = Some d -> received h q ->
  received h (set_classes q (Classify d ua) (rq_Geo q) (rq_GeoContinent q) (rq_GeoRegion q)).
Proof. intros Hd []. destruct q. constructor; cbn in *; eauto. Qed.

Lemma prepass_resolveGeo h done : prepass h h (resolveGeo S r done).
Proof.
  unfold resolveGeo. destruct (si_geo S) as [g0|] eqn:Eg; [|apply prepass_keeps; keeps].
  destruct (_ || _); [apply prepass_keeps; keeps|].
  apply (prepass_bind h h); [apply prepass_keeps; keeps|]. intros rh.
  apply (prepass_bind h h); [|intros []; apply prepass_keeps; keeps].
  apply prepass_req. intros q []. destruct q. cbn in *.
  constructor; cbn; eauto; [right; by eexists _, _, _|]. destruct (si_geoRegion S); [right; by eexists _, _, _|done].
Qed.

Lemma securityGate_ok s g :
  received (canonicalizeRequestCookies (r_header r)) (hs_req s) ->
  wpm P (securityGate S r) (fun _ s' _ => received (canonicalizeRequestCookies (r_header r)) (hs_req s')) s g.
Proof.
  revert s g. set (h := canonicalizeRequestCookies _). change (prepass h h (securityGate S r)).
  unfold securityGate. destruct (hasSecurityGate _); [|apply prepass_keeps; keeps].
  apply (prepass_bind h h); [apply prepass_keeps; keeps|]. intros rh.
  apply (prepass_bind h h); [apply prepass_req; intros q; apply received_RealClientIP|]. intros [].
  apply (prepass_bind h h); [apply prepass_resolveGeo|]. intros done. apply prepass_keeps. unfold enforce. keeps.
Qed.

Lemma recv_ok done s g :
  received (canonicalizeRequestCookies (r_header r)) (hs_req s) ->
  wpm P (recv S r done) (fun out s' _ => snd (fst out) = clientCookie /\ evaluated (fst (fst out)) (hs_req s')) s g.
Proof.
  set (h := canonicalizeRequestCookies _). intros Hs. unfold recv. apply wpm_bind.
  assert (prepass h h (classifyDevice S)) as Hd.
  { unfold classifyDevice. destruct (si_device S) as [d|] eqn:Ed; [|apply prepass_keeps; keeps].
    destruct (UsesDeviceClassification _); [|apply prepass_keeps; keeps].
    apply (prepass_bind h h); [apply prepass_keeps; keeps|]. intros rh. apply prepass_req. intros q. by apply received_device. }
  eapply wpm_mono; [|by apply Hd]. clear s g Hs Hd. intros [] s g Hs. apply wpm_bind, wpm_gets. rewrite (rc_header _ _ Hs). fold clientCookie.
  apply wpm_bind. assert (prepass h evaluatedHeader (filterCookies S clientCookie)) as Hf.
  { unfold filterCookies, evaluatedHeader. fold p h. destruct (FilterRequestCookies p clientCookie); [|apply prepass_keeps; keeps].
    apply prepass_req. intros q. apply (received_header h (fun h => if bool_decide (_ = []) then Del h (go "Cookie") else Set_ h (go "Cookie") _)). }
  eapply wpm_mono; [|by apply Hf]. clear s g Hs Hf. intros [] s g Hs. apply wpm_bind.
  eapply wpm_mono; [|by apply prepass_resolveGeo]. clear s g Hs. intros d s g Hs. apply wpm_bind.
  apply wpm_live. intros v. assert (received evaluatedHeader (observed S v (hs_req s))) as Hv by (by apply received_observed). clear Hs.
  destruct (EvalRequest (si_pipeline S) (observed S v (hs_req s))) as [rd q1] eqn:E. apply wpm_bind, wpm_modify, wpm_bind.
  destruct (HasDerivesFrom (si_pipeline S)) eqn:Eh.
  - apply wpm_modify, wpm_ret. split; [done|]. by exists (observed S v (hs_req s)), q1.
  - apply wpm_ret, wpm_ret. split; [done|]. exists (observed S v (hs_req s)), q1. split; [done|]. split; [done|].
    unfold StripDerivedCookies. change p with (si_pipeline S). by rewrite Eh.
Qed.

Lemma received_initial : received (r_header r) (hs_req (initial r)).
Proof. constructor; cbn; auto. Qed.

Lemma serveSite_ok g : wpm P (serveSite H S r) anyPost (initial r) g.
Proof.
  unfold serveSite. set (h := r_header r). set (h' := canonicalizeRequestCookies h). apply wpm_bind, wpm_gets.
  apply wpm_bind. apply (wpm_mono P _ (fun _ s' _ => received h (hs_req s'))).
  2: { destruct (si_trusted S) as [|t ts] eqn:Et; [apply wpm_ret, received_initial|].
       change (rq_Header (hs_req (initial r))) with (r_header r). destruct (ClientIP _ _ _) as [a|] eqn:Ea; [|apply wpm_ret, received_initial].
       apply wpm_modify, received_ClientIP; [by rewrite Et|apply received_initial]. }
  intros [] s g' Hs. apply wpm_bind, wpm_modify, wpm_bind. eapply wpm_mono; [|apply securityGate_ok].
  2: { by apply (received_header h canonicalizeRequestCookies). }
  clear s g' Hs. intros [answered done] s g' Hs. destruct answered; [done|]. apply wpm_bind. eapply wpm_mono; [|by apply recv_ok].
  clear s g' Hs. intros [[rd c1] c2] s g' [Hc He]. cbn in Hc, He. subst c1. by eapply dispatch_ok.
Qed.
End Policy.

(** ** Background revalidation *)

Section Background.
Context {U : Platform} {R : GoLib}.
Context (S : site) (q : Request) (rd : RequestDecision) (key fwdCookie : bytes).
Let p : Pipeline := si_pipeline S.

Definition refreshedAnswer (m : ObjectMeta) (g : ghost) : Prop :=
  exists v, let q := observed S v q in
  match g_answer g with
  | Some (inl resp) =>
    let sd := EvalResponse p q (or_status resp) (Some (or_header resp)) in
    Cacheable sd = true /\ or_status resp = 200 /\ m = refreshedMeta key resp sd
  | Some (inr e) =>
    let sd := EvalResponse p q (errorCode e) None in
    hasStatus e = true /\ Cacheable sd = true /\ m = mkMeta key 0 [] [] [] [] [] (errorCode e) false (StoreTier sd)
  | None => False
  end.

Definition wholeRefresh (m : ObjectMeta) (d : bytes) (g : ghost) : Prop :=
  match g_answer g with
  | Some (inl resp) =>
    d = content (or_body resp) /\ st_err (or_body resp) = false /\ (Size m < 0 \/ Size m = Z.of_nat (length d))
  | _ => d = [] /\ Size m = 0
  end.

Definition refreshed (m : ObjectMeta) (g : ghost) : Prop :=
  g_fetch g = Some (revalidateRequest q rd fwdCookie) /\ refreshedAnswer m g.

Definition backgroundPolicy : policy := {|
  may_fetch := fun o => o = revalidateRequest q rd fwdCookie;
  may_get := fun _ => False;
  may_open := refreshed;
  may_commit := fun m d g => refreshed m g /\ wholeRefresh m d g;
  may_mark := fun k => k = key;
  may_spawn := fun _ _ _ _ => False
|}.

Abbreviation P := backgroundPolicy.

Lemma errorCode_status e : hasStatus e = true -> errorCode e = match e with ErrNotFound => 404 | _ => StatusOf e end.
Proof. unfold hasStatus, errorCode. destruct e; cbn; try done. by intros ->. Qed.

Lemma wp_liveAct {A} (k : Request -> act A) Q g : (forall v, wp P (k (observed S v q)) Q g) -> wp P (liveAct S q k) Q g.
Proof.
  intros Hk. unfold liveAct, observed in *. destruct (computeNeedsPoolHealth _); [|apply (Hk (fun _ => false))].
  split; [done|]. intros v. apply Hk.
Qed.

(** The drain of the answer into the writer. *)
Lemma drainTee_ok w m chunks : forall werr n d g, g_writers g !! w = Some (m, d, negb werr) ->
  wp P (drainTee w chunks werr n)
    (fun out g' => sameFetch g g' /\ exists d', g_writers g' !! w = Some (m, d', negb (snd out)) /\
       (snd out = false -> werr = false /\ d' = d ++ concat chunks /\ fst out = n + Z.of_nat (length (concat chunks)))) g.
Proof.
  induction chunks as [|c cs IH]; intros werr n d g Hw.
  { cbn. split; [done|]. exists d. split; [done|]. intros ->. rewrite app_nil_r. auto with lia. }
  cbn [drainTee]. destruct werr.
  - eapply wp_mono; [|by apply IH]. cbn. intros [n' w'] g' (Hg & d' & Hd & Hall). split; [done|]. exists d'. split; [done|].
    intros Hf. by destruct (Hall Hf).
  - split; [done|]. intros ok. eapply wp_mono; [|apply (IH (negb ok) _ (d ++ c))].
    + intros [n' w'] g' (Hg & d' & Hd & Hall). split; [by etrans; [|exact Hg]|]. exists d'. split; [done|]. intros Hf.
      destruct (Hall Hf) as (_ & -> & ->). cbn [concat]. rewrite length_app, <- app_assoc. split; [done|]. split; [done|lia].
    + cbn. rewrite lookup_alter, decide_True by done. rewrite Hw. cbn. by destruct ok.
Qed.

Lemma revalidateError_ok e g :
  g_fetch g = Some (revalidateRequest q rd fwdCookie) -> g_answer g = Some (inr e) ->
  wp P (revalidateError S q key e) (fun _ _ => True) g.
Proof.
  intros Hf Ha. unfold revalidateError. destruct (hasStatus e) eqn:E; [|done]. apply wp_liveAct. intros v. cbn zeta. rewrite <- errorCode_status by done.
  destruct (Cacheable _) eqn:Ec; [|done].
  assert (forall g', g_answer g' = g_answer g -> refreshedAnswer (mkMeta key 0 [] [] [] [] [] (errorCode e) false (StoreTier (EvalResponse (si_pipeline S) (observed S v q) (errorCode e) None))) g') as Hr
    by (intros g' Hg'; exists v; cbn zeta; by rewrite Hg', Ha).
  split; [split; [done|]; by apply Hr|]. intros [w|]; [|done].
  split; [|intros []; [|done]].
  - eexists _, []. split; [by apply lookup_insert_eq|]. split; [split; [done|by apply Hr]|]. unfold wholeRefresh. cbn. by rewrite Ha.
  - split; [|done]. eexists. cbn. rewrite lookup_insert_eq. by split.
Qed.

Lemma backgroundFetch_ok g : wp P (backgroundFetch S q rd key fwdCookie) (fun _ _ => True) g.
Proof.
  unfold backgroundFetch. apply wp_bind. eapply (wp_mono P _ (fun _ _ => True)); [cbn; auto|].
  unfold revalidate. destruct (originFor _ _) as [o|]; [|done]. split; [done|]. intros [resp|e]; [|by apply revalidateError_ok].
  apply wp_liveAct. intros v. cbn zeta. destruct (negb _ || _) eqn:E.
  { destruct (_ <? _); [|done]. by split. }
  apply orb_false_iff in E as [Hc%negb_false_iff Hs%negb_false_iff%Z.eqb_eq].
  split; [split; [done|]; by exists v|]. intros [w|]; [|done]. apply wp_bind.
  eapply wp_mono; [|apply (drainTee_ok w (refreshedMeta key resp (EvalResponse (si_pipeline S) (observed S v q) (or_status resp) (Some (or_header resp)))) (st_chunks (or_body resp)) false 0 []); apply lookup_insert_eq].
  intros [n werr] g' ([Hf Ha _] & d & Hd & Hall). cbn in Hd, Hall, Ha. destruct (_ || _) eqn:E; [done|].
  apply orb_false_iff in E as [[He ->]%orb_false_iff E%negb_false_iff]. destruct (Hall eq_refl) as (_ & -> & ->).
  split; [|intros []; [|done]].
  - eexists _, _. split; [exact Hd|]. split; [split; [by rewrite Hf|exists v; cbn zeta; by rewrite Ha]|].
    unfold wholeRefresh. rewrite Ha. split; [done|]. split; [done|]. cbn.
    apply orb_true_iff in E as [?%Z.ltb_lt|E%Z.eqb_eq]; [by left|right; lia].
  - split; [|done]. eexists. cbn. rewrite Hd. by split.
Qed.
End Background.
