(* ===== verification/Wire.v ===== *)
(** * From the wire to the key

    What [net/http] guarantees of a request it hands over, and what follows of the request
    the handler evaluates: it is [admitted], and its cache key has neither the separator of
    key tokens nor the NUL that marks a compressed variant, so that keys and variant keys
    never meet. *)

From stdpp Require Import base strings pretty numbers gmap list.
From Stdlib Require Import Lia.
From S2P Require Import Prelude GoStrings Netip Http Duration Host Path Shard Freshness Request Matcher CacheKey Device Rules Template Eval Credentials Response Compile Geo Forward Act Serve ServeLogic ServeProofs.
Open Scope Z_scope.

(** ** Bytes a key part may not have *)

Definition NUL : ascii := Zbyte 0.

Definition reserved (c : ascii) : Prop := c = SEP \/ c = NUL.

#[export] Instance reserved_dec c : Decision (reserved c).
Proof. unfold reserved. apply _. Defined.

Definition text (s : bytes) : Prop := forall c, reserved c -> c ∉ s.

Lemma text_sub s s' : (forall c, c ∈ s -> c ∈ s') -> text s' -> text s.
Proof. intros H Ht c Hc Hin. by apply (Ht c Hc), H. Qed.

Lemma text_app a b : text a -> text b -> text (a ++ b).
Proof. intros Ha Hb c Hc [H|H]%elem_of_app; [by apply (Ha c)|by apply (Hb c)]. Qed.

Lemma text_Join l sep : text sep -> Forall text l -> text (Join l sep).
Proof. intros Hs Hl c Hc [H|(x & Hx & H)]%Join_elem; [by apply (Hs c)|]. rewrite list.Forall_forall in Hl. by apply (Hl x Hx c). Qed.

Lemma text_take n s : text s -> text (take n s).
Proof. apply text_sub. intros c Hc. rewrite <- (take_drop n s). apply elem_of_app. by left. Qed.

Lemma text_drop n s : text s -> text (drop n s).
Proof. apply text_sub. intros c Hc. rewrite <- (take_drop n s). apply elem_of_app. by right. Qed.

Lemma text_TrimSpace s : text s -> text (TrimSpace s).
Proof. apply text_sub. intros c. apply TrimSpace_elem. Qed.

Lemma text_forall (P : ascii -> Prop) s : (forall c, reserved c -> ~ P c) -> Forall P s -> text s.
Proof. intros HP Hs c Hc Hin. rewrite list.Forall_forall in Hs. by apply (HP c Hc), Hs. Qed.

Lemma text_nil : text [].
Proof. intros c _. apply not_elem_of_nil. Qed.

Create HintDb text.
#[export] Hint Resolve text_nil text_app text_take text_drop text_TrimSpace : text.

(** A literal without reserved bytes. *)
Definition isText (s : bytes) : bool := forallb (fun c => negb (bool_decide (reserved c))) s.

Lemma isText_text s : isText s = true -> text s.
Proof.
  intros H c Hc Hin. unfold isText in H. rewrite forallb_forall in H. specialize (H c (proj1 (list_elem_of_In _ _) Hin)).
  by rewrite bool_decide_true in H.
Qed.

(** ** What arrives *)

Definition visible (c : ascii) : Prop := 0x20 < byteZ c < 0x7f.

Lemma visible_text s : Forall visible s -> text s.
Proof. apply text_forall. intros c [-> | ->] [H _]; vm_compute in H; discriminate. Qed.

(** The method and the host are printable ASCII, the lines of the header and the
    address of the connection have no control byte. *)
Record wire (r : httpRequest) : Prop := {
  wi_method : Forall visible (r_method r);
  wi_host : Forall visible (r_host r);
  wi_urlHost : Forall visible (r_urlHost r);
  wi_header : map_Forall (fun _ vs => Forall text vs) (r_header r);
  wi_addr : text (r_remoteAddr r)
}.

Lemma wire_stripHop {U : Platform} {R : GoLib} S r : wire r -> wire (stripHop S r).
Proof.
  intros []. unfold stripHop. destruct (si_cluster S); [|done]. destruct (_ && _); [|done].
  destruct r. constructor; cbn in *; try done. intros k vs Hk. unfold Del in Hk. apply lookup_delete_Some in Hk as [_ Hk]. by apply (wi_header0 k).
Qed.

(** The classes a site can give a request are text. *)
Definition sourceText (g : Source) : Prop :=
  match g with
  | headerSource _ => True
  | cidrSource es => Forall (fun e => text (ce_country e)) es
  | otherSource f => forall ip h, text (f ip h)
  end.

Record site_text {U : Platform} (S : site) : Prop := {
  st_device : forall d, si_device S = Some d -> Forall text (Classes d);
  st_geo : forall g, si_geo S = Some g -> sourceText g;
  st_region : forall g, si_geoRegion S = Some g -> sourceText g
}.

Section Wire.
Context {U : Platform} {R : GoLib}.

(** The zone of an IPv6 address is part of its text ([netip.ParseAddr]). *)
Definition zoneOf (a : Addr) : bytes := match a with Addr4 _ => [] | Addr6 _ z => z end.

Definition zones_from_text : Prop := forall s a, parseIPv6 s = Some a -> text s -> text (zoneOf a).

(** ** Paths *)

Lemma Clean_elem p c : c ∈ Clean p -> c ∈ p \/ c = "/"%char \/ c = "."%char.
Proof.
  unfold Clean. destruct p as [|c0 p]; [intros H%list_elem_of_singleton; auto|]. cbn zeta. set (q := c0 :: p).
  set (rooted := (c0 =b "/")%byte). set (out := Join _ _).
  assert (c ∈ out -> c ∈ q \/ c = "/"%char \/ c = "."%char) as Hout.
  { intros [H|(e & He & Hc)]%Join_elem; [apply list_elem_of_singleton in H; auto|].
    apply list_elem_of_In, in_rev, list_elem_of_In in He.
    assert (forall l st, (forall e, e ∈ st -> e ∈ SplitByte q "/") -> (forall e, e ∈ l -> e ∈ SplitByte q "/") ->
      forall e, e ∈ fold_left (cleanStep rooted) l st -> e ∈ SplitByte q "/") as Hfold.
    { induction l as [|x l IH]; intros st Hst Hl; [done|]. cbn [fold_left]. apply IH; [|intros y Hy; apply Hl; by apply list_elem_of_further].
      assert (x ∈ SplitByte q "/") as Hx by (apply Hl, list_elem_of_here). unfold cleanStep. intros y. destruct (_ || _); [auto|].
      case_bool_decide.
      - destruct st as [|top st']; [destruct rooted; [by intros ?%elem_of_nil|intros ->%list_elem_of_singleton; done]|].
        case_bool_decide; [intros [-> |Hy]%elem_of_cons; auto|]. intros Hy. apply Hst. by apply list_elem_of_further.
      - intros [-> |Hy]%elem_of_cons; auto. }
    left. eapply SplitByte_elem; [|exact Hc]. eapply Hfold; [|done|exact He]. by intros ? ?%elem_of_nil. }
  destruct rooted; [intros [Hc%list_elem_of_singleton|Hc]%elem_of_app; auto|].
  case_bool_decide; [intros Hc%list_elem_of_singleton; auto|done].
Qed.

Lemma normalizePath_text p : text (normalizePath p).
Proof.
  unfold normalizePath. case_bool_decide; [by apply isText_text|]. set (q := if hasControlByte p then _ else p).
  assert (hasControlByte q = false) as Hq by (unfold q; destruct (hasControlByte p) eqn:E; [apply strip_clean|done]).
  assert (text q) as Ht.
  { intros c Hc Hin. unfold hasControlByte in Hq. rewrite <- not_true_iff_false, existsb_exists in Hq. apply Hq.
    exists c. split; [by apply list_elem_of_In|]. destruct Hc as [-> | ->]; done. }
  clearbody q. case_bool_decide; [by apply isText_text|]. case_bool_decide; [done|].
  assert (text (Clean q)) as Hc.
  { intros c Hr [H'|[-> | ->]]%Clean_elem; [by apply (Ht c)|destruct Hr; done|destruct Hr; done]. }
  unfold keepSlash. destruct (_ && _); [|done]. apply text_app; [done|by apply isText_text].
Qed.

(** ** Hosts and methods *)

Lemma visible_ascii s : Forall visible s -> ascii_name s.
Proof. intros H. eapply list.Forall_impl; [exact H|]. unfold visible. cbn. lia. Qed.

Lemma visible_lower c : visible c -> ~ reserved (lowerByte c).
Proof. destruct c as [[] [] [] [] [] [] [] []]; unfold visible; vm_compute; intuition discriminate. Qed.

Lemma visible_upper c : visible c -> ~ reserved (upperByte c).
Proof. destruct c as [[] [] [] [] [] [] [] []]; unfold visible; vm_compute; intuition discriminate. Qed.

Lemma text_map f s : (forall c, visible c -> ~ reserved (f c)) -> Forall visible s -> text (map f s).
Proof.
  intros Hf Hs c Hc (x & -> & Hx)%list_elem_of_fmap. rewrite list.Forall_forall in Hs. by apply (Hf x); [apply Hs|].
Qed.

Lemma normalizeHost_text h : Forall visible h -> text (normalizeHost uni_lower h).
Proof.
  intros Hv. unfold normalizeHost. set (l := ToLower _ _).
  assert (text l) as Hl.
  { assert (Forall visible (TrimSpace h)) as Ht.
    { apply list.Forall_forall. intros c Hc%TrimSpace_elem. rewrite list.Forall_forall in Hv. auto. }
    change l with (toLower (TrimSpace h)). rewrite toLower_ascii by (by apply visible_ascii). by apply text_map; [apply visible_lower|]. }
  clearbody l. case_bool_decide; [apply text_nil|].
  assert (forall s, text s -> text (TrimSuffix s (go "."))) as Hts by (intros s; unfold TrimSuffix; destruct (HasSuffix _ _); auto with text).
  apply Hts. repeat (case_match; auto with text).
Qed.

Lemma method_text q r : wire r -> rq_Method q = r_method r -> text (method q).
Proof.
  intros Hw Hm. unfold method. rewrite Hm. case_bool_decide; [by apply isText_text|]. unfold toUpper.
  assert (forallb (fun c => byteZ c <? 0x80) (r_method r) = true) as ->.
  { apply forallb_forall. intros c Hc%list_elem_of_In. pose proof (wi_method r Hw) as Hv. rewrite list.Forall_forall in Hv.
    apply Hv in Hc. unfold visible in Hc. lia. }
  apply text_map; [apply visible_upper|by apply wi_method].
Qed.

(** ** Addresses *)

Lemma text_singleton c : ~ reserved c -> text [c].
Proof. intros H d Hd ->%list_elem_of_singleton. done. Qed.

Lemma hexDigit_text d : 0 <= d < 16 -> ~ reserved (lowerHexDigit d).
Proof.
  intros Hd. assert (d ∈ seqZ 0 16) as Hin by (apply elem_of_seqZ; lia). clear Hd. revert d Hin.
  apply list.Forall_forall. apply (bool_decide_unpack _). vm_compute. done.
Qed.

Lemma hexGroup_text g : 0 <= g < 65536 -> text (hexGroup g).
Proof.
  intros Hg. unfold hexGroup. set (strip := fix strip ds := match ds with d :: r => if d =? 0 then strip r else ds | [] => [] end).
  assert (forall ds, Forall (fun d => 0 <= d < 16) ds -> Forall (fun d => 0 <= d < 16) (strip ds)) as Hstrip.
  { induction 1 as [|d ds Hd Hds IH]; cbn; [constructor|]. destruct (d =? 0); [done|by constructor]. }
  apply text_app; [|apply text_singleton, hexDigit_text, Z.mod_pos_bound; lia].
  intros c Hc (d & -> & Hd)%list_elem_of_fmap. revert Hc. apply hexDigit_text.
  apply (proj1 (list.Forall_forall _ _) (Hstrip [g / 4096; (g / 256) mod 16; (g / 16) mod 16] ltac:(repeat constructor;
    first [apply Z.mod_pos_bound; lia|apply Z.div_pos; lia|apply Z.div_lt_upper_bound; lia])) d Hd).
Qed.

Lemma groups16_bound b : Forall (fun g => 0 <= g < 65536) (groups16 b).
Proof.
  assert (forall n b, (length b <= n)%nat -> Forall (fun g => 0 <= g < 65536) (groups16 b)) as H; [|by eapply H].
  induction n as [|n IH]; intros [|h [|l r]] Hn; cbn in *; try lia; try constructor; [|apply IH; lia].
  pose proof (byteZ_range h). pose proof (byteZ_range l). lia.
Qed.

Lemma hex_text gs : Forall (fun g => 0 <= g < 65536) gs -> text (Join (map hexGroup gs) (go ":")).
Proof.
  intros H. apply text_Join; [by apply isText_text|]. apply Forall_fmap. eapply list.Forall_impl; [exact H|]. apply hexGroup_text.
Qed.

Lemma string4_text b : text (string4 b).
Proof.
  unfold string4. apply text_Join; [by apply isText_text|]. apply Forall_fmap, list.Forall_forall. intros c _. cbn.
  destruct (Itoa_digits 3 (byteZ c)) as (_ & H & _); [lia|pose proof (byteZ_range c); lia|].
  revert H. apply text_forall. intros d [-> | ->]; done.
Qed.

Lemma string6_text b : text (string6 b).
Proof.
  unfold string6. pose proof (groups16_bound b) as H. destruct (longestZeros _) as [s l].
  destruct (l =? 0)%nat; [by apply hex_text|].
  apply text_app; [by apply hex_text, list.Forall_take|]. apply text_app; [by apply isText_text|by apply hex_text, list.Forall_drop].
Qed.

Lemma addrString_text a : text (zoneOf a) -> text (addrString a).
Proof.
  destruct a as [b|b z]; cbn [zoneOf addrString]; [intros _; apply string4_text|]. intros Hz. apply text_app.
  - case_bool_decide; [apply text_app; [by apply isText_text|apply string4_text]|apply string6_text].
  - case_bool_decide; [apply text_nil|]. apply text_app; [by apply isText_text|done].
Qed.

Section Zones.
Context (Hzones : zones_from_text).

Lemma SplitHostPort_text s h p : SplitHostPort s = Some (h, p) -> text s -> text h.
Proof.
  intros H Hs. unfold SplitHostPort in H. destruct (LastIndexByte s ":") as [i|]; [|done].
  repeat (case_match; simplify_eq; auto 10 with text).
Qed.

Lemma parseHostAddr_text s a : parseHostAddr s = Some a -> text s -> text (zoneOf a).
Proof.
  unfold parseHostAddr. intros H Hs. case_bool_decide; [done|]. apply fmap_Some in H as (a0 & H & ->).
  set (h := match SplitHostPort _ with Some _ => _ | None => _ end) in H.
  assert (text h) as Hh.
  { unfold h. destruct (SplitHostPort _) as [[h0 p0]|] eqn:E; [|auto with text]. eapply SplitHostPort_text; [exact E|]. auto with text. }
  clearbody h. assert (text (zoneOf a0)) as Hz0.
  { unfold ParseAddr in H. repeat (case_match; try done); [|by eapply Hzones].
    unfold parseIPv4 in H. destruct h; [done|]. apply fmap_Some in H as (b & _ & ->). apply text_nil. }
  destruct a0 as [b|b z]; [done|]. cbn. case_bool_decide; [apply text_nil|done].
Qed.

Lemma ClientIP_text addr h trusted a :
  map_Forall (fun _ vs => Forall text vs) h -> text addr -> ClientIP addr (Some h) trusted = Some a -> text (zoneOf a).
Proof.
  intros Hh Ha. unfold ClientIP. destruct (parseHostAddr addr) as [peer|] eqn:Ep; [|done].
  pose proof (parseHostAddr_text _ _ Ep Ha) as Hp. destruct (_ || _); [by intros [= <-]|].
  destruct (List.find _ _) as [ip|] eqn:E; [|by intros [= <-]]. intros [= <-].
  apply find_some in E as [Hin _]. apply in_rev, list_elem_of_In in Hin. unfold forwardedFor in Hin.
  apply list_elem_of_In, in_flat_map in Hin as (v & Hv & Hin). apply list_elem_of_In, list_elem_of_omap in Hin as (part & Hpart & Hip).
  eapply parseHostAddr_text; [exact Hip|]. apply text_TrimSpace.
  eapply text_sub; [intros c; by apply (SplitByte_elem c v ",")|].
  unfold Values in Hv. destruct (h !! _) as [vs|] eqn:E; [|done]. apply Hh in E. rewrite list.Forall_forall in E. by apply E, list_elem_of_In.
Qed.
End Zones.

(** ** Classes *)

Lemma Lookup_text g ip h : sourceText g -> text (Lookup g ip h).
Proof.
  assert (text Unknown) as Hu by (by apply isText_text). destruct g as [name|es|f]; cbn; [intros _|intros Hes|auto].
  - destruct h as [h|]; [|done]. case_bool_decide; [done|].
    destruct (boundGeoClass_spec (TrimSpace (Get h name))) as [-> | [_ Hf]]; [done|].
    intros c Hc Hin. rewrite forallb_forall in Hf. specialize (Hf c (proj1 (list_elem_of_In _ _) Hin)). by destruct Hc as [-> | ->].
  - destruct ip as [ip|]; [|done]. case_bool_decide; [done|]. destruct (cidrBest _ _) as [best bits] eqn:E.
    apply cidrBest_spec in E as [[[_ ->]|(e & He & _ & <- & _)] _]; [done|]. rewrite list.Forall_forall in Hes. by apply Hes.
Qed.

Lemma Continent_text c : text (Continent c).
Proof.
  unfold Continent. case_bool_decide; [by apply isText_text|]. cbn zeta. destruct (List.find _ _) as [[k cs]|] eqn:E; [|by apply isText_text].
  apply find_some in E as [E _]. apply isText_text.
  assert (forallb (fun kc => isText (fst kc)) countryContinent = true) as Hall by (vm_compute; reflexivity).
  rewrite forallb_forall in Hall. by apply (Hall (k, cs)).
Qed.

(** ** The evaluated request *)

Section Received.
Context (Hzones : zones_from_text) (S : site) (r : httpRequest) (Hsite : site_text S) (Hwire : wire r).

Definition headerText (h : header) : Prop := map_Forall (fun _ vs => Forall text vs) h.

Lemma headerText_insert h k v : headerText h -> text v -> headerText (<[k := [v]]> h).
Proof. intros Hh Hv. apply map_Forall_insert_2; [|done]. by repeat constructor. Qed.

Lemma headerText_Values h name : headerText h -> Forall text (Values h name).
Proof. intros Hh. unfold Values. destruct (h !! _) as [vs|] eqn:E; [by apply Hh in E|constructor]. Qed.

Lemma headerText_Get h name : headerText h -> text (Get h name).
Proof.
  intros Hh%(headerText_Values _ name). unfold Get. destruct (Values h name) as [|v vs]; [apply text_nil|]. by inversion Hh.
Qed.

Lemma canonicalize_text h : headerText h -> headerText (canonicalizeRequestCookies h).
Proof.
  intros Hh. unfold canonicalizeRequestCookies. destruct (rawValues h (go "Cookie")) as [|v [|v' vs]] eqn:E; [done..|].
  apply headerText_insert; [done|]. apply text_Join; [by apply isText_text|]. unfold rawValues in E.
  destruct (h !! go "Cookie") as [l|] eqn:El; [|done]. apply Hh in El. cbn in E. by subst.
Qed.

Lemma canonicalize_line h : (length (default [] (canonicalizeRequestCookies h !! go "Cookie")) <= 1)%nat.
Proof.
  unfold canonicalizeRequestCookies. destruct (rawValues h (go "Cookie")) as [|v [|v' vs]] eqn:E.
  - unfold rawValues in E. rewrite E. cbn. lia.
  - unfold rawValues in E. rewrite E. cbn. lia.
  - by rewrite lookup_insert_eq.
Qed.

Lemma parseLenientCookies_text raw : text raw -> Forall (fun ck => text (ck_name ck) /\ text (ck_value ck)) (parseLenientCookies raw).
Proof.
  intros Hr. apply list.Forall_forall. intros ck (part & Hpart & Hck)%list_elem_of_omap.
  assert (text (TrimSpace part)) as Ht.
  { apply text_TrimSpace. eapply text_sub; [|exact Hr]. intros c. by apply (SplitByte_elem c raw ";"). }
  unfold parseCookiePart in Hck. set (t := TrimSpace part) in *. case_bool_decide; [done|].
  destruct (IndexByte t "=") as [i|]; cbn in Hck; case_bool_decide; simplify_eq; cbn; split; auto with text.
  unfold unquoteCookie. destruct (_ && _); auto with text.
Qed.

Lemma lenientCookies_text h : headerText h -> Forall (fun ck => text (ck_name ck) /\ text (ck_value ck)) (lenientCookies h).
Proof.
  intros Hh. unfold lenientCookies. destruct (h !! go "Cookie") as [[|l ls]|] eqn:E; [constructor| |constructor].
  apply parseLenientCookies_text, text_Join; [by apply isText_text|]. by apply Hh in E.
Qed.

Lemma filtered_text raw f : text raw -> FilterRequestCookies (si_pipeline S) raw = Some f -> text f.
Proof.
  intros Hr. unfold FilterRequestCookies. destruct (cookieAllow _) as [allow|]; [|done]. intros [= <-]. case_bool_decide; [apply text_nil|].
  unfold renderCookies. apply text_Join; [by apply isText_text|]. apply Forall_fmap, list.Forall_forall.
  intros ck Hck%list_elem_of_In%filter_In. destruct Hck as [Hck%list_elem_of_In _].
  pose proof (lenientCookies_text {[go "Cookie" := [raw]]} ltac:(apply map_Forall_singleton; by repeat constructor)) as Hl.
  rewrite list.Forall_forall in Hl. destruct (Hl ck Hck). apply text_app; [done|]. apply text_app; [by apply isText_text|done].
Qed.

Lemma evaluatedHeader_text : headerText (evaluatedHeader S r).
Proof.
  pose proof (canonicalize_text _ (wi_header r Hwire)) as Hc. unfold evaluatedHeader.
  destruct (FilterRequestCookies _ _) as [f|] eqn:E; [|done]. case_bool_decide.
  - intros k vs Hk. unfold Del in Hk. apply lookup_delete_Some in Hk as [_ Hk]. by apply Hc in Hk.
  - apply headerText_insert; [done|]. eapply filtered_text; [|exact E]. by apply headerText_Get.
Qed.

Lemma evaluatedHeader_line : (length (default [] (evaluatedHeader S r !! go "Cookie")) <= 1)%nat.
Proof.
  unfold evaluatedHeader. destruct (FilterRequestCookies _ _) as [f|]; [|apply canonicalize_line].
  case_bool_decide; unfold Del, Set_; change (CanonicalHeaderKey (go "Cookie")) with (go "Cookie").
  - rewrite lookup_delete_eq. cbn. lia.
  - by rewrite lookup_insert_eq.
Qed.

Context (q : Request) (Hq : received S r (evaluatedHeader S r) q).

Record request_text : Prop := {
  rt_method : text (method q);
  rt_host : text (normHost q);
  rt_path : text (rq_Path q);
  rt_ip : text (rq_ClientIP q);
  rt_device : text (rq_Device q);
  rt_geo : text (rq_Geo q);
  rt_continent : text (rq_GeoContinent q);
  rt_region : text (rq_GeoRegion q);
  rt_header : headerText (rq_Header q)
}.

Lemma received_text : request_text.
Proof.
  destruct Hq as [Hm Hh Hp Hqu Hhd _ Hip Hdev Hgeo Hcont Hreg _]. constructor.
  - by apply (method_text q r).
  - unfold normHost. rewrite Hh. apply normalizeHost_text. cbn. case_bool_decide; [by apply wi_urlHost|by apply wi_host].
  - rewrite Hp. apply normalizePath_text.
  - destruct Hip as [-> | (a & Ha & ->)].
    + unfold clientIP. pose proof (wi_addr r Hwire). case_bool_decide; [apply text_nil|].
      destruct (SplitHostPort _) as [[h p]|] eqn:E; [|done]. by eapply SplitHostPort_text.
    + apply addrString_text. eapply ClientIP_text; [exact Hzones|by apply wi_header|by apply wi_addr|exact Ha].
  - destruct Hdev as [-> | (d & ua & Hd & ->)]; [apply text_nil|]. destruct (Classify_class d ua) as [Hc| ->]; [|apply text_nil].
    pose proof (st_device S Hsite d Hd) as Hcl. rewrite list.Forall_forall in Hcl. by apply Hcl.
  - destruct Hgeo as [-> | (g & ip & h & Hg & ->)]; [apply text_nil|]. apply Lookup_text. by apply (st_geo S Hsite).
  - destruct Hcont as [-> | (c & ->)]; [apply text_nil|apply Continent_text].
  - destruct Hreg as [-> | (g & ip & h & Hg & ->)]; [apply text_nil|]. apply Lookup_text. by apply (st_region S Hsite).
  - rewrite Hhd. apply evaluatedHeader_text.
Qed.

Lemma text_sep s : text s -> SEP ∉ s.
Proof. intros H. apply H. by left. Qed.

(** The evaluated request is one the isolation of users is stated for. *)
Lemma received_admitted : admitted q.
Proof.
  pose proof received_text as []. constructor.
  - constructor; by apply text_sep.
  - intros k vs Hk. eapply list.Forall_impl; [by apply (rt_header0 k)|]. apply text_sep.
  - rewrite (rc_header _ _ _ _ Hq). apply evaluatedHeader_line.
  - apply (rc_selKey _ _ _ _ Hq).
Qed.

(** ** The key *)

Definition token_text (t : keyToken) : Prop :=
  match t with
  | tokNormalize n => text (nz_def n) /\ map_Forall (fun _ v => text v) (nz_mapping n)
  | tokClassify cl => text (cl_def cl) /\ Forall (fun r => text (row_value r)) (cl_rows cl)
  | tokTenant (Some tr) _ => text (tr_def tr) /\ Forall (fun r => text (tr_name r)) (tr_rules tr)
  | tokTenant None t => text t
  | tokLiteral s => text s
  | _ => True
  end.

Lemma writeKeyValue_text s : text s -> text (writeKeyValue s).
Proof. apply text_sub. unfold writeKeyValue. intros c [H _]%list_elem_of_In%filter_In. by apply list_elem_of_In. Qed.

Lemma QueryEscape_text s : text (QueryEscape s).
Proof. intros c [-> | ->]; by apply QueryEscape_not_elem. Qed.

Lemma writeCanonicalQuery_text m prefix a d : text (writeCanonicalQuery m prefix a d).
Proof.
  unfold writeCanonicalQuery. destruct (canonicalPairs m a d) as [|kv l]; [apply text_nil|].
  apply text_app; [destruct prefix; by apply isText_text|]. apply text_Join; [by apply isText_text|].
  apply Forall_fmap, list.Forall_forall. intros kv' _. unfold renderPair.
  apply text_app; [apply QueryEscape_text|]. apply text_app; [by apply isText_text|apply QueryEscape_text].
Qed.

Lemma cookie_text n : text (cookie q n).
Proof.
  pose proof (lenientCookies_text _ (rt_header received_text)) as Hc. unfold cookie, findCookie, cookies.
  destruct (List.find _ _) as [ck|] eqn:E; [|apply text_nil]. apply find_some in E as [E _]. rewrite list.Forall_forall in Hc.
  by apply (Hc ck), list_elem_of_In.
Qed.

Lemma tokenValue_text ev sc t : token_text t -> text (tokenValue ev q sc t).
Proof.
  pose proof received_text as []. intros Ht. unfold tokenValue, writeToken.
  destruct t as [ | | | | |g|g|n|n| | | | | |n|cl|[tr|] tn|s]; cbn [pureWith tokenText token_text] in *;
    try first [done|by apply writeKeyValue_text|apply writeCanonicalQuery_text].
  - apply text_app; [by apply writeKeyValue_text|apply writeCanonicalQuery_text].
  - apply writeKeyValue_text. unfold headerCombined. apply text_Join; [by apply isText_text|by apply headerText_Values].
  - apply writeKeyValue_text, cookie_text.
  - case_bool_decide; [done|]. apply writeKeyValue_text. case_bool_decide; [apply text_nil|apply cookie_text].
  - destruct Ht as [Hd Hm]. unfold normalizer_resolve. destruct (nz_mapping n !! _) eqn:E; [|done]. by apply Hm in E.
  - destruct Ht as [Hd Hr]. unfold classifier_resolve. rewrite pureWith_bind, pureWith_findP. cbn.
    destruct (List.find _ _) as [row|] eqn:E; [|done]. apply find_some in E as [E _].
    rewrite list.Forall_forall in Hr. by apply Hr, list_elem_of_In.
  - destruct Ht as [Hd Hr]. unfold tenantResolver_resolve. destruct (List.find _ _) as [ru|] eqn:E; [|done].
    apply find_some in E as [E _]. rewrite list.Forall_forall in Hr. by apply Hr, list_elem_of_In.
Qed.

Lemma key_nul ev toks sc : Forall token_text toks -> NUL ∉ pureWith ev (buildKey toks q sc).
Proof.
  intros Ht. rewrite buildKey_pure. intros [H|(part & Hp & H)]%Join_elem; [by apply list_elem_of_singleton in H|].
  apply list_elem_of_fmap in Hp as (t & -> & Hin). revert H. apply (tokenValue_text ev sc t); [|by right].
  assert (Forall token_text (recipe toks)) as Hr by (destruct toks; [repeat constructor|done]).
  rewrite list.Forall_forall in Hr. by apply Hr.
Qed.
End Received.
End Wire.
