(* ===== verification/ServeSystem.v ===== *)
(** * Concurrent requests over one store

    Every request of a site and every background refresh is a thread; a schedule
    interleaves their effects and answers them.  The store promises only what the theorems
    of [Store] give: a read returns nothing, or an object that was committed under that
    key, or part of it followed by a read error.  Everything else (the index, the
    coalescer, the origins, the clients, the clock) answers arbitrarily.  What is read is
    traced back to the request it was stored for. *)

From stdpp Require Import base strings pretty numbers gmap list.
From Stdlib Require Import Lia.
From S2P Require Import Prelude GoStrings Netip Http Duration Host Path Shard Freshness Request Matcher CacheKey Device Rules Template Eval Credentials Response Compile Geo Forward Act Serve ServeLogic ServeProofs Wire.
Open Scope Z_scope.

#[export] Instance ObjectMeta_eq_dec : EqDecision ObjectMeta.
Proof. solve_decision. Defined.

#[local] Opaque serveSite backgroundFetch.

Section System.
Context {U : Platform} {R : GoLib}.
Context (H : handler) (S : site).
Let p : Pipeline := si_pipeline S.

(** ** Threads *)

(** A client's request, or the refresh one left behind. *)
Inductive job : Type :=
| Client (r : httpRequest)
| Refresh (r : httpRequest) (q : Request) (rd : RequestDecision) (key fwdCookie : bytes).

Definition client (j : job) : httpRequest := match j with Client r | Refresh r _ _ _ _ => r end.

Record thread : Type := mkThread { th_job : job; th_ghost : ghost; th_prog : act unit }.

(** A committed object, with the thread that stored it and what that had done. *)
Record entry : Type := mkStored { en_meta : ObjectMeta; en_data : bytes; en_job : job; en_ghost : ghost }.

(** A read that found an object. *)
Record hit : Type := mkRead { hi_job : job; hi_key : bytes; hi_body : stream; hi_entry : entry }.

Record system : Type := mkSystem { sy_threads : list thread; sy_committed : list entry; sy_hits : list hit }.

(** ** Effects on the system *)

(** The object [e] can be read under [k] as [m] and [b]. *)
Definition holds (e : entry) (k : bytes) (m : ObjectMeta) (b : stream) : bool :=
  bool_decide (Key (en_meta e) = k) && bool_decide (m = set_Size (Z.of_nat (length (en_data e))) (en_meta e))
  && (if st_err b then bool_decide (content b `prefix_of` en_data e) else bool_decide (content b = en_data e)).

Definition found (c : list entry) (k : bytes) (x : option (ObjectMeta * stream * bytes)) : option (stream * entry) :=
  match x with
  | Some (m, b, _) => pair b <$> List.find (fun e => holds e k m b) c
  | None => None
  end.

(** The answer the system gives when the schedule proposes [x]. *)
Definition answer {X : Type} (e : effect X) (c : list entry) : X -> X :=
  match e in effect X return X -> X with
  | SGet k => fun x => match found c k x with Some _ => x | None => None end
  | _ => fun x => x
  end.

Definition hits {X : Type} (j : job) (e : effect X) (c : list entry) : X -> list hit :=
  match e in effect X return X -> list hit with
  | SGet k => fun x => match found c k x with Some (b, en) => [mkRead j k b en] | None => [] end
  | _ => fun _ => []
  end.

Definition commits {X : Type} (j : job) (e : effect X) (g : ghost) : X -> list entry :=
  match e in effect X return X -> list entry with
  | SCommit w => fun ok => match g_writers g !! w with Some (m, d, _) => if (ok : bool) then [mkStored m d j g] else [] | None => [] end
  | _ => fun _ => []
  end.

Definition spawns {X : Type} (j : job) (e : effect X) : list thread :=
  match e with
  | BSpawn q rd k c => [mkThread (Refresh (client j) q rd k c) ghost0 (backgroundFetch S q rd k c)]
  | _ => []
  end.

(** ** Schedules *)

(** A request arrives, or a thread performs its next effect. *)
Inductive event : Type :=
| Arrive (r : httpRequest)
| Advance (i : nat) (oracle : forall X, effect X -> X).

Definition start (r : httpRequest) : thread :=
  let r := stripHop S r in
  mkThread (Client r) ghost0 (abind (serveSite H S r (initial r)) (fun _ => Done tt)).

Definition step (st : system) (ev : event) : system :=
  match ev with
  | Arrive r => mkSystem (sy_threads st ++ [start r]) (sy_committed st) (sy_hits st)
  | Advance i oracle =>
    match sy_threads st !! i with
    | Some (mkThread j g (Do e k)) =>
      let x := answer e (sy_committed st) (oracle _ e) in
      mkSystem (<[i := mkThread j (upd e x g) (k x)]> (sy_threads st) ++ spawns j e)
        (commits j e g x ++ sy_committed st) (hits j e (sy_committed st) x ++ sy_hits st)
    | _ => st
    end
  end.

Definition run (evs : list event) : system := fold_left step evs (mkSystem [] [] []).

(** ** Provenance *)

(** The entry is the origin's whole answer to the request evaluated as [rd] and [q]. *)
Definition made (e : entry) (rd : RequestDecision) (q : Request) : Prop :=
  match en_job e with
  | Client r => keyed S r rd q /\ newEntry S r rd q (en_meta e) (en_ghost e) /\ wholeBody S (en_meta e) (en_data e) (en_ghost e)
  | Refresh r q' rd' k c =>
    q' = q /\ may_spawn (handlerPolicy H S r) q rd' k c /\ keyed S r rd q /\ k = CacheKey rd /\
    refreshed S q rd' k c (en_meta e) (en_ghost e) /\ wholeRefresh (en_meta e) (en_data e) (en_ghost e)
  end.

(** The entry is a compressed form of an entry of [c] that its author read. *)
Definition variantOf (c : list entry) (e : entry) (rd : RequestDecision) (q : Request) : Prop :=
  keyed S (client (en_job e)) rd q /\
  exists codec m0 b e0, Key (en_meta e) = variantKey (CacheKey rd) codec /\
    e0 ∈ c /\ holds e0 (CacheKey rd) m0 b = true /\ st_err b = false /\ h_compress H codec (en_data e0) = Some (en_data e).

Definition entry_ok (c : list entry) (e : entry) : Prop := exists rd q, made e rd q \/ variantOf c e rd q.

Definition thread_ok (c : list entry) (t : thread) : Prop :=
  match th_job t with
  | Client r => wp (handlerPolicy H S r) (th_prog t) (fun _ _ => True) (th_ghost t)
  | Refresh r q rd k ck =>
    wp (backgroundPolicy S q rd k ck) (th_prog t) (fun _ _ => True) (th_ghost t) /\
    exists rd0, keyed S r rd0 q /\ k = CacheKey rd0 /\ may_spawn (handlerPolicy H S r) q rd k ck
  end /\
  forall k m b, (k, m, b) ∈ g_reads (th_ghost t) -> exists e, e ∈ c /\ holds e k m b = true.

Definition hit_ok (c : list entry) (h : hit) : Prop :=
  hi_entry h ∈ c /\ (exists m, holds (hi_entry h) (hi_key h) m (hi_body h) = true) /\
  exists rd q, keyed S (client (hi_job h)) rd q /\ ownKey rd (hi_key h).

Definition system_ok (st : system) : Prop :=
  Forall (thread_ok (sy_committed st)) (sy_threads st) /\
  Forall (entry_ok (sy_committed st)) (sy_committed st) /\ Forall (hit_ok (sy_committed st)) (sy_hits st).

Lemma variantOf_mono c c' e rd q : c ⊆ c' -> variantOf c e rd q -> variantOf c' e rd q.
Proof. intros Hc (Hk & codec & m0 & b & e0 & ? & ? & ?). split; [done|]. exists codec, m0, b, e0. auto. Qed.

Lemma entry_ok_mono c c' e : c ⊆ c' -> entry_ok c e -> entry_ok c' e.
Proof. intros Hc (rd & q & [Hm|Hv]); exists rd, q; [by left|right]. by eapply variantOf_mono. Qed.

Lemma thread_ok_mono c c' t : c ⊆ c' -> thread_ok c t -> thread_ok c' t.
Proof. intros Hc [Ht Hr]. split; [done|]. intros k m b Hin. destruct (Hr k m b Hin) as (e & He & Hh). exists e. auto. Qed.

Lemma hit_ok_mono c c' h : c ⊆ c' -> hit_ok c h -> hit_ok c' h.
Proof. intros Hc (? & ? & ?). split; [auto|done]. Qed.

(** ** Every schedule keeps the provenance *)

Lemma found_some c k m b t x : found c k (Some (m, b, t)) = Some x ->
  exists e, x = (b, e) /\ e ∈ c /\ holds e k m b = true.
Proof.
  cbn. intros (e & He & ->)%fmap_Some. apply find_some in He as [He Hh]. exists e. by rewrite list_elem_of_In.
Qed.

Lemma start_ok c r : thread_ok c (start r).
Proof.
  split; [|by intros ? ? ? ?%elem_of_nil]. cbn. set (r' := stripHop S r). apply wp_bind.
  apply (wp_mono _ _ (fun x g => anyPost (fst x) (snd x) g)); [by intros a g _|]. exact (serveSite_ok H S r' ghost0).
Qed.

(** What a thread has read is still there after an effect. *)
Lemma reads_upd {X} (e : effect X) c x g :
  (forall k m b, (k, m, b) ∈ g_reads g -> exists en, en ∈ c /\ holds en k m b = true) ->
  forall k m b, (k, m, b) ∈ g_reads (upd e (answer e c x) g) -> exists en, en ∈ c /\ holds en k m b = true.
Proof.
  intros Hr. destruct e; try exact Hr.
  - cbn [answer upd]. destruct x as [[[m0 b0] t0]|]; [|exact Hr]. destruct (found c key (Some (m0, b0, t0))) as [y|] eqn:E; [|exact Hr].
    apply found_some in E as (en & -> & Hen & Hh). cbn. intros k m b [[= -> -> ->]|Hin]%elem_of_cons; eauto.
  - cbn. destruct x; exact Hr.
Qed.

Lemma thread_step {X} j g (e : effect X) k c x :
  thread_ok c (mkThread j g (Do e k)) -> thread_ok c (mkThread j (upd e (answer e c x) g) (k (answer e c x))).
Proof.
  intros [Ht Hr]. split; [|by apply reads_upd]. destruct j as [r|r q rd key ck]; cbn in *.
  - apply Ht.
  - destruct Ht as [[_ Ht] Hsp]. auto.
Qed.

(** The policy of a thread, whatever it is. *)
Definition jobPolicy (j : job) : policy :=
  match j with Client r => handlerPolicy H S r | Refresh _ q rd k ck => backgroundPolicy S q rd k ck end.

Lemma thread_pre {X} j g (e : effect X) k c : thread_ok c (mkThread j g (Do e k)) -> pre (jobPolicy j) e g.
Proof. intros [Ht _]. destruct j; cbn in *; [apply Ht|apply Ht]. Qed.

Lemma commits_ok {X} j g (e : effect X) k c x :
  thread_ok c (mkThread j g (Do e k)) -> Forall (entry_ok c) (commits j e g x).
Proof.
  intros Ht. pose proof (thread_pre _ _ _ _ _ Ht) as Hp. destruct e; try constructor. cbn in *.
  destruct Hp as (m & d & Hw & Hm). rewrite Hw. destruct x; [|constructor]. repeat constructor.
  destruct Ht as [Ht Hr]. destruct j as [r|r q rd key ck]; cbn in *.
  - destruct Hm as (rd & q & Hk & [(codec & m0 & b & Hkey & Hs & Hin & Hb & Hc)|[Hn Hwb]]).
    + destruct (Hr _ _ _ Hin) as (e0 & He0 & Hh). exists rd, q. right. split; [done|]. exists codec, m0, b, e0.
      split; [done|]. split; [done|]. split; [done|]. split; [done|]. cbn. rewrite <- Hc. f_equal.
      unfold holds in Hh. rewrite Hb, !andb_true_iff in Hh. destruct Hh as [_ Hh]. by apply bool_decide_eq_true in Hh.
    + exists rd, q. by left.
  - destruct Ht as [_ (rd0 & Hk & -> & Hsp)]. exists rd0, q. left. cbn. by destruct Hm.
Qed.

Lemma spawns_ok {X} j g (e : effect X) k c :
  thread_ok c (mkThread j g (Do e k)) -> Forall (thread_ok c) (spawns j e).
Proof.
  intros Ht. pose proof (thread_pre _ _ _ _ _ Ht) as Hp. destruct e; try constructor; [|constructor].
  destruct j as [r|r q' rd' key' ck']; cbn in Hp; [|done]. split; [|by intros ? ? ? ?%elem_of_nil]. cbn. split.
  - apply backgroundFetch_ok.
  - destruct Hp as (rd0 & Hk & -> & -> & -> & Hs). exists rd0. split; [done|]. split; [done|]. by exists rd0.
Qed.

Lemma hits_ok {X} j g (e : effect X) k c x :
  thread_ok c (mkThread j g (Do e k)) -> Forall (hit_ok c) (hits j e c x).
Proof.
  intros Ht. pose proof (thread_pre _ _ _ _ _ Ht) as Hp. destruct e; try constructor. cbn [hits pre] in *.
  destruct (found c key x) as [[b en]|] eqn:E; [|constructor]. destruct x as [[[m b0] t]|]; [|done].
  apply found_some in E as (e & [= -> ->] & Hin & Hh). repeat constructor; cbn; [done|by exists m|].
  destruct j as [r|r q' rd' key' ck']; cbn in Hp; [done|done].
Qed.

Lemma step_ok st ev : system_ok st -> system_ok (step st ev).
Proof.
  intros (Ht & He & Hh). destruct ev as [r|i oracle]; cbn.
  - split; [|done]. apply Forall_app. split; [done|]. apply Forall_singleton, start_ok.
  - destruct (sy_threads st !! i) as [[j g [[]|X e k]]|] eqn:Ei; [done| |done].
    assert (thread_ok (sy_committed st) (mkThread j g (Do e k))) as Hti by (by eapply Forall_lookup_1).
    set (x := answer e (sy_committed st) (oracle X e)).
    assert (sy_committed st ⊆ commits j e g x ++ sy_committed st) as Hsub by (intros y Hy; apply elem_of_app; by right).
    pose proof (thread_step j g e k (sy_committed st) (oracle X e) Hti) as Hnew. fold x in Hnew.
    split; [|split]; cbn.
    + apply Forall_app. split; [apply Forall_insert; [|by eapply thread_ok_mono]|].
      * eapply list.Forall_impl; [exact Ht|]. intros t. by apply thread_ok_mono.
      * eapply list.Forall_impl; [by eapply spawns_ok|]. intros t. by apply thread_ok_mono.
    + apply Forall_app. split; (eapply list.Forall_impl; [|intros en; by apply entry_ok_mono]); [by eapply commits_ok|done].
    + apply Forall_app. split; (eapply list.Forall_impl; [|intros h; by apply hit_ok_mono]); [by eapply hits_ok|done].
Qed.

Lemma run_ok evs : system_ok (run evs).
Proof.
  unfold run. assert (system_ok (mkSystem [] [] [])) as H0 by (repeat split; constructor). revert H0.
  generalize (mkSystem [] [] []). induction evs as [|ev evs IH]; intros st Hst; [done|]. cbn. by apply IH, step_ok.
Qed.

(** ** Whose requests they are *)

(** A predicate of the requests that arrive holds of every thread's, of the author of
    every object and of every reader. *)
Section Clients.
Context (W : httpRequest -> Prop) (Wstrip : forall r, W r -> W (stripHop S r)).

Definition arrives (ev : event) : Prop := match ev with Arrive r => W r | Advance _ _ => True end.

Definition clients_ok (st : system) : Prop :=
  Forall (fun t => W (client (th_job t))) (sy_threads st) /\
  Forall (fun e => W (client (en_job e))) (sy_committed st) /\ Forall (fun h => W (client (hi_job h))) (sy_hits st).

Lemma step_clients st ev : arrives ev -> clients_ok st -> clients_ok (step st ev).
Proof.
  intros Ha (Ht & He & Hh). destruct ev as [r|i oracle]; cbn.
  - split; [|done]. apply Forall_app. split; [done|]. apply Forall_singleton. by apply Wstrip.
  - destruct (sy_threads st !! i) as [[j g [[]|X e k]]|] eqn:Ei; [done| |done].
    assert (W (client j)) as Hj by (by apply (Forall_lookup_1 _ _ _ _ Ht Ei)).
    split; [|split]; cbn; apply Forall_app; (split; [|done]) || idtac.
    + split; [by apply Forall_insert|]. destruct e; try constructor; [done|constructor].
    + destruct e; try constructor. cbn. destruct (g_writers g !! _) as [[[m d] f]|]; [|constructor].
      match goal with |- context [if ?b then _ else _] => destruct b end; by repeat constructor.
    + destruct e; try constructor. cbn. destruct (found _ _ _) as [[b en]|]; [|constructor]. by repeat constructor.
Qed.

Lemma run_clients evs : Forall arrives evs -> clients_ok (run evs).
Proof.
  unfold run. assert (clients_ok (mkSystem [] [] [])) as H0 by (repeat split; constructor). revert H0.
  generalize (mkSystem [] [] []). induction evs as [|ev evs IH]; intros st Hst Hev; [done|]. cbn. inversion Hev; subst.
  apply IH; [by apply step_clients|done].
Qed.
End Clients.
End System.
