(* ===== verification/Isolation.v ===== *)
(** * Users of a shared cache are isolated

    The threads of [ServeSystem] composed with the isolation of [Credentials]: whatever the
    schedule, an object a request reads was stored for a request with its credentials. *)

From stdpp Require Import base strings pretty numbers gmap list.
From Stdlib Require Import Lia SpecFloat.
From S2P Require Import Prelude GoStrings Ast Parse Netip Http Duration Host Path Shard Freshness Request Matcher CacheKey Device Rules Template Eval Credentials Response Compile CompileTypes Geo Forward Act Serve ServeLogic ServeProofs Wire ServeSystem.
Open Scope Z_scope.

Section Isolation.
Context {U : Platform} {R : GoLib}.

(** ** Keys of a site *)

(** The text of a site's recipes has no reserved byte, and the headers they name are
    ASCII. *)
Definition recipes_text (p : Pipeline) : Prop :=
  Forall (fun r => Forall token_text (kr_toks r) /\ Forall ascii_token (kr_toks r)) (keyRules p).

Lemma EvalRequest_selected p req dec req' :
  heap_wf (p_heap p) -> rq_selKey req = None -> EvalRequest p req = (dec, req') ->
  d_synthetic dec = None -> d_redirect dec = None ->
  exists toks, rq_selKey req' = Some toks /\ (toks = [] \/ exists r, r ∈ keyRules p /\ toks = kr_toks r).
Proof.
  intros Hwf Hn. unfold EvalRequest. rewrite evalIn_pure by done. unfold requestPhase.
  rewrite evalPure_bind. destruct (evalPure _ _ _ _ (findP _ _)) as [rr|]; [by cbn; intros [= <- <-]|].
  rewrite evalPure_bind. destruct (evalPure _ _ _ _ (firstRedirect _ _ _)); [by cbn; intros [= <- <-]|].
  rewrite !evalPure_bind. cbn [evalPure pure pureWith]. intros [= <- <-] _ _.
  eexists. split; [by destruct req|]. unfold selectKeyTokens. rewrite evalPure_bind, evalPure_findP. cbn.
  destruct (List.find _ _) as [kr|] eqn:E; [|by left]. right. exists kr. apply find_some in E as [E _]. by rewrite list_elem_of_In.
Qed.

Lemma token_text_clean t : token_text t -> token_clean t.
Proof.
  destruct t as [ | | | | |g|g|n|n| | | | | |n|cl|[tr|] tn|s]; cbn; try done; try (by apply text_sep).
  - intros [Hd Hm]. split; [by apply text_sep|]. intros k v Hk. by apply text_sep, (Hm k).
  - intros [Hd Hr]. split; [by apply text_sep|]. eapply list.Forall_impl; [exact Hr|]. intros row. apply text_sep.
  - intros [Hd Hr]. split; [by apply text_sep|]. eapply list.Forall_impl; [exact Hr|]. intros row. apply text_sep.
Qed.

Section Site.
Context (Hzones : zones_from_text) (H : handler) (S : site) (Hsite : site_text S).
Let p : Pipeline := si_pipeline S.
Context (Hheap : heap_wf (p_heap p)) (Hrec : recipes_text p).

(** The health of the pools changes neither the credentials of a request nor its recipe. *)
Lemma observed_credentials v q toks : rq_selKey q = Some toks ->
  rq_selKey (observed S v q) = Some toks /\ BypassForCredentials p (observed S v q) = BypassForCredentials p q /\
  cookieNames (observed S v q) = cookieNames q /\ headerCombined (observed S v q) = headerCombined q /\ hasAuth (observed S v q) = hasAuth q.
Proof. unfold observed. destruct (computeNeedsPoolHealth _); [|done]. destruct q. cbn. by intros ->. Qed.

(** A request that goes through the cache: what it was evaluated from and by which
    recipe. *)
Lemma keyed_recipe r rd q : wire r -> keyed S r rd q ->
  exists q0 q1 v toks, received S r (evaluatedHeader S r) q0 /\ admitted q0 /\ EvalRequest p q0 = (rd, q1) /\
    q = observed S v (StripDerivedCookies p q1) /\ rq_selKey q1 = Some toks /\ rq_selKey q = Some toks /\
    Forall token_text toks /\ Forall ascii_token toks /\ (NUL ∉ CacheKey rd).
Proof.
  intros Hw [(q' & v & (q0 & q1 & Hrc & He & ->) & ->) (Hsy & Hre & _)].
  pose proof (received_admitted Hzones S r Hsite Hw q0 Hrc) as Had.
  destruct (EvalRequest_selected p q0 rd q1 Hheap (ad_fresh _ Had) He Hsy Hre) as (toks & Hk & Ht).
  assert (Forall token_text toks /\ Forall ascii_token toks) as [Htt Hta].
  { destruct Ht as [-> | (kr & Hin & ->)]; [split; constructor|]. unfold recipes_text in Hrec. rewrite list.Forall_forall in Hrec. by apply Hrec. }
  exists q0, q1, v, toks. split; [done|]. split; [done|]. split; [done|]. split; [done|]. split; [done|].
  split; [apply (observed_credentials v (StripDerivedCookies p q1)); by rewrite strip_selKey|]. split; [done|]. split; [done|].
  rewrite (side_key p q0 q1 rd toks Hheap Had He Hk). by apply (key_nul Hzones S r Hsite Hw q0 Hrc).
Qed.

(** Keys and variant keys are told apart, and a variant key gives its key. *)
Lemma variantKey_nul k codec : NUL ∈ variantKey k codec.
Proof. unfold variantKey, variantSep. apply elem_of_app. right. apply list_elem_of_here. Qed.

Lemma variantKey_inj k k' c c' : NUL ∉ k -> NUL ∉ k' -> variantKey k c = variantKey k' c' -> k = k'.
Proof. intros Hk Hk' E. by apply (split_unique NUL k _ k' _) in E as [-> _]. Qed.

(** ** Isolation *)

(** Two requests that a recipe keys have the same credentials. *)
Definition sameCredentials (a b : httpRequest) (qa qb : Request) (toks : list keyToken) : Prop :=
  (forall n, n ∈ cookieNames qa \/ n ∈ cookieNames qb -> n ∉ forwardNames (recipe toks) ->
     LenientCookieValue (evaluatedHeader S a) n = LenientCookieValue (evaluatedHeader S b) n) /\
  (headerCombined qa (go "Authorization") = headerCombined qb (go "Authorization") \/ hasAuth qa = false /\ hasAuth qb = false).

Lemma keyed_credentials a b rda qa rdb qb toks :
  wire a -> wire b -> keyed S a rda qa -> keyed S b rdb qb -> CacheKey rda = CacheKey rdb ->
  rq_selKey qa = Some toks -> rq_selKey qb = Some toks ->
  CacheCredentialedMatches p qa = false -> CacheCredentialedMatches p qb = false ->
  sameCredentials a b qa qb toks.
Proof.
  intros Hwa Hwb Hka Hkb HK Hta Htb Hca Hcb.
  destruct (keyed_recipe a rda qa Hwa Hka) as (a0 & a1 & va & ta & Hra & Haa & Hea & Hqa & Hsa & Hsa' & Htt & Hta' & _).
  destruct (keyed_recipe b rdb qb Hwb Hkb) as (b0 & b1 & vb & tb & Hrb & Hab & Heb & Hqb & Hsb & Hsb' & _).
  rewrite Hta in Hsa'. rewrite Htb in Hsb'. injection Hsa' as <-. injection Hsb' as <-.
  destruct (observed_credentials va (StripDerivedCookies p a1) toks) as (_ & Eba & Eca & Eha & Eaa); [by rewrite strip_selKey|].
  destruct (observed_credentials vb (StripDerivedCookies p b1) toks) as (_ & Ebb & Ecb & Ehb & Eab); [by rewrite strip_selKey|].
  rewrite <- Hqa in Eba, Eca, Eha, Eaa. rewrite <- Hqb in Ebb, Ecb, Ehb, Eab.
  assert (BypassForCredentials p (StripDerivedCookies p a1) = false) as Hba.
  { destruct Hka as [_ (_ & _ & _ & [X|X])]; [unfold p in Hca; congruence|by rewrite <- Eba]. }
  assert (BypassForCredentials p (StripDerivedCookies p b1) = false) as Hbb.
  { destruct Hkb as [_ (_ & _ & _ & [X|X])]; [unfold p in Hcb; congruence|by rewrite <- Ebb]. }
  destruct (credentials_agree p a0 b0 rda rdb a1 b1 toks Hheap Haa Hab) as [Hc Hauth]; try done.
  { eapply list.Forall_impl; [exact Htt|apply token_text_clean]. }
  rewrite <- Eca, <- Ecb in Hc. rewrite <- Eha, <- Ehb, <- Eaa, <- Eab in Hauth. split; [|done]. intros n Hn Hf. destruct (Hc n Hn Hf) as [E _].
  unfold cookie, cookies in E. rewrite (rc_header _ _ _ _ Hra), (rc_header _ _ _ _ Hrb) in E. done.
Qed.

(** ** Schedules *)

Section Schedule.
Context (evs : list event) (Harrive : Forall (arrives wire) evs).
Let st : system := run H S evs.

Lemma author_wire e : e ∈ sy_committed st -> wire (client (en_job e)).
Proof.
  intros He. destruct (run_clients H S wire (wire_stripHop S) evs Harrive) as (_ & Hw & _).
  rewrite list.Forall_forall in Hw. by apply Hw.
Qed.

Lemma made_key e rd q : made H S e rd q -> Key (en_meta e) = CacheKey rd /\ keyed S (client (en_job e)) rd q.
Proof.
  unfold made. destruct (en_job e) as [r|r q' rd' k c]; [by intros (Hk & [-> _] & _)|].
  intros (-> & _ & Hk & -> & [_ Ha] & _). split; [|done]. destruct Ha as [v Ha]. cbn zeta in Ha.
  destruct (g_answer (en_ghost e)) as [[resp|err]|]; [by destruct Ha as (_ & _ & ->)|by destruct Ha as (_ & _ & ->)|done].
Qed.

Lemma keyed_nul r rd q : wire r -> keyed S r rd q -> NUL ∉ CacheKey rd.
Proof. intros Hw Hk. by destruct (keyed_recipe r rd q Hw Hk) as (? & ? & ? & ? & ? & ? & ? & ? & ? & ? & ? & ? & ?). Qed.

(** An object read under a key of a request was made of an origin's answer, for a request
    with that key; one read under a variant key is compressed from such an object. *)
Lemma entry_origin e k rd : e ∈ sy_committed st -> Key (en_meta e) = k -> NUL ∉ CacheKey rd ->
  (k = CacheKey rd -> exists rda qa, made H S e rda qa /\ CacheKey rda = CacheKey rd) /\
  (forall codec, k = variantKey (CacheKey rd) codec ->
     exists e0 rda qa codec', e0 ∈ sy_committed st /\ made H S e0 rda qa /\ CacheKey rda = CacheKey rd /\
       h_compress H codec' (en_data e0) = Some (en_data e)).
Proof.
  intros He <- Hn. pose proof (run_ok H S evs) as (_ & Hall & _). rewrite list.Forall_forall in Hall.
  assert (forall e' rd', e' ∈ sy_committed st -> Key (en_meta e') = CacheKey rd' -> NUL ∉ CacheKey rd' ->
    exists rda qa, made H S e' rda qa /\ CacheKey rda = CacheKey rd') as Hmade.
  { intros e' rd' He' HK Hn'. destruct (Hall e' He') as (rda & qa & [Hm|(_ & codec & _ & _ & _ & Hv & _)]).
    - exists rda, qa. split; [done|]. destruct (made_key _ _ _ Hm) as [E _]. congruence.
    - exfalso. apply Hn'. rewrite <- HK, Hv. apply variantKey_nul. }
  split; [by intros HK; apply (Hmade e rd)|].
  intros codec HK. destruct (Hall e He) as (rda & qa & [Hm|(Hkd & codec' & m0 & b & e0 & Hv & He0 & Hh & Hb & Hc)]).
  - exfalso. destruct (made_key _ _ _ Hm) as [E Hkd]. apply (keyed_nul _ _ _ (author_wire e He) Hkd).
    rewrite <- E, HK. apply variantKey_nul.
  - pose proof (keyed_nul _ _ _ (author_wire e He) Hkd) as Hna. rewrite Hv in HK. apply variantKey_inj in HK; [|done..].
    unfold holds in Hh. rewrite !andb_true_iff in Hh. destruct Hh as [[Hk0%bool_decide_eq_true _] _].
    destruct (Hmade e0 rda He0 Hk0 Hna) as (rd0 & q0 & Hm0 & E0). exists e0, rd0, q0, codec'. split; [done|]. split; [done|]. split; [congruence|done].
Qed.

Lemma read_origin h : h ∈ sy_hits st ->
  exists e rda qa rdb qb, e ∈ sy_committed st /\ made H S e rda qa /\ keyed S (client (hi_job h)) rdb qb /\ CacheKey rda = CacheKey rdb /\
    (hi_entry h = e \/ exists codec, h_compress H codec (en_data e) = Some (en_data (hi_entry h))) /\
    wire (client (en_job e)) /\ wire (client (hi_job h)).
Proof.
  intros Hh. pose proof (run_ok H S evs) as (_ & _ & Hok). rewrite list.Forall_forall in Hok.
  destruct (Hok h Hh) as (Hin & (m & Hhold) & rdb & qb & Hkb & Hown). clear Hok.
  destruct (run_clients H S wire (wire_stripHop S) evs Harrive) as (_ & _ & Hw). rewrite list.Forall_forall in Hw.
  pose proof (Hw h Hh) as Hwh. unfold holds in Hhold. rewrite !andb_true_iff in Hhold.
  destruct Hhold as [[HK%bool_decide_eq_true _] _].
  destruct (entry_origin (hi_entry h) _ rdb Hin HK (keyed_nul _ _ _ Hwh Hkb)) as [Hplain Hvar].
  destruct Hown as [Hk|[codec Hk]].
  - destruct (Hplain Hk) as (rda & qa & Hm & E). exists (hi_entry h), rda, qa, rdb, qb. pose proof (author_wire _ Hin). auto 10.
  - destruct (Hvar codec Hk) as (e0 & rda & qa & codec' & He0 & Hm & E & Hc). exists e0, rda, qa, rdb, qb. pose proof (author_wire _ He0). eauto 10.
Qed.
End Schedule.
End Site.
End Isolation.

(** C1. Users of the shared cache are isolated, whatever runs concurrently. Any requests
    arrive at a site and their handlers and background refreshes are interleaved in any
    way; the index, the coalescer, the origins and the clients answer arbitrarily, and the
    store returns nothing, or an object committed under the key that is read. Then
    everything that is read from the store for a request is the whole answer of an origin
    to a request with the same cache key, cacheable for that request, or is compressed
    from it; neither request is one the cache is bypassed for; and if one recipe keys both
    and neither is in a [cache_credentialed] scope, both clients sent the same value of
    every cookie that reaches the cache, other than those the recipe forwards by name, and
    the same Authorization. *)
Theorem cached_reads_isolated {U : Platform} {R : GoLib} H S evs h :
  zones_from_text -> site_text S -> heap_wf (p_heap (si_pipeline S)) -> recipes_text (si_pipeline S) ->
  Forall (arrives wire) evs -> h ∈ sy_hits (run H S evs) ->
  exists e rda qa rdb qb,
    e ∈ sy_committed (run H S evs) /\ made H S e rda qa /\ keyed S (client (hi_job h)) rdb qb /\ CacheKey rda = CacheKey rdb /\
    (hi_entry h = e \/ exists codec, h_compress H codec (en_data e) = Some (en_data (hi_entry h))) /\
    forall toks, rq_selKey qa = Some toks -> rq_selKey qb = Some toks ->
      CacheCredentialedMatches (si_pipeline S) qa = false -> CacheCredentialedMatches (si_pipeline S) qb = false ->
      sameCredentials S (client (en_job e)) (client (hi_job h)) qa qb toks.
Proof.
  intros Hz Hs Hh Hr Ha Hin.
  destruct (read_origin Hz H S Hs Hh Hr evs Ha h Hin) as (e & rda & qa & rdb & qb & He & Hm & Hkb & HK & Hsame & Hwa & Hwb).
  exists e, rda, qa, rdb, qb. repeat (split; [done|]). intros toks Hta Htb Hca Hcb.
  apply (keyed_credentials Hz S Hs Hh Hr _ _ rda qa rdb qb); try done. by eapply made_key.
Qed.

(** ** An example *)

Section Example.
#[local] Existing Instance amd64.
#[local] Existing Instance noLib.

Definition isolationText : bytes := go "example.com {
  cache_key path cookie:session
  cache_ttl default ttl 60s
}".

Definition isolationSite (p : Pipeline) : site := mkServed [go "example.com"] p (Some 0%nat) ∅ [] ∅ None None None [] None.

Definition plainHandler : handler :=
  mkHandler 0 (fun _ => None) (fun _ => []) (fun p _ => p) (fun k => k) (fun _ => false) (fun _ _ => None).

Definition getRequest (cookie : bytes) : httpRequest :=
  mkHttp (go "GET") (go "example.com") [] (go "/me") [] (go "/me")
    {[go "Cookie" := [cookie]]} (go "192.0.2.1:4000") false false.

(** A cold cache and an origin that answers, then a warm cache. *)
Definition exampleOracle (state : freshState) : forall X, effect X -> X :=
  fun X e => match e in effect X return X with
  | Now => 0
  | Warm => true
  | RateAllow _ _ _ => (true, 0)
  | PoolView => fun _ => true
  | FClassify _ => (state, false)
  | FStaleWithin _ => false
  | FStoredAt _ => None
  | FLifetime _ => None
  | FStore _ _ _ _ | FSetHFM _ _ | FForget _ | SAbort _ | CFinish _ _ _ | BEnd _ | BRelease | BSpawn _ _ _ _ => tt
  | FBan _ => 0
  | SGet k => Some (mkMeta k 5 (go "text/html") [] [] [] [] 0 false [], mkStream [go "hello"] false, go "ram")
  | SWriter _ => Some 0%nat
  | SWrite _ _ | SCommit _ | BBegin _ | BSlot => true
  | CEnter _ => (0%nat, true)
  | CWait _ => None
  | Fetch _ _ => inl (mkOResp 200 {[go "Content-Type" := [go "text/html"]]} 5 (mkStream [go "hello"] false) false)
  | PeerOwner _ _ => None
  | PeerDo _ _ _ _ _ => None
  | ResolveUpgrade _ _ => NotUpgrader
  | Tunnel _ _ _ _ => tt
  | ClientGone => false
  | WriteHeader _ _ => tt
  | ClientWrite _ => true
  | EncodeWrite _ _ => true
  | EncodeClose _ => tt
  end.

Definition exampleSchedule : list event :=
  let r := getRequest (go "session=42") in
  Arrive r :: replicate 12 (Advance 0 (exampleOracle stateMiss)) ++ Arrive r :: replicate 12 (Advance 1 (exampleOracle stateFresh)).

Lemma isolation_wire : Forall (arrives wire) exampleSchedule.
Proof.
  assert (wire (getRequest (go "session=42"))) as Hw.
  { assert (forall s, forallb (fun c => (0x20 <? byteZ c) && (byteZ c <? 0x7f)) s = true -> Forall visible s) as Hv.
    { intros s Hs. apply list.Forall_forall. intros c Hc%list_elem_of_In. rewrite forallb_forall in Hs.
      specialize (Hs c Hc). unfold visible. lia. }
    constructor; [by apply Hv..| |by apply isText_text]. apply map_Forall_singleton. repeat constructor. by apply isText_text. }
  unfold exampleSchedule. constructor; [done|]. apply Forall_app. split; [by apply Forall_replicate|].
  constructor; [done|]. by apply Forall_replicate.
Qed.

Definition isolationParsed : Site := match Parse [] isolationText with Ok (mkCFile _ (s :: _) _) => s | _ => mkSite [] [] (mkPos [] 0 0) end.

Lemma isolationParsed_marked : Forall nodeMarked (s_body isolationParsed).
Proof. vm_compute. repeat constructor; discriminate. Qed.

Lemma cached_reads_isolated_witness : exists p h, Compile isolationParsed = Ok p /\
  sy_hits (run plainHandler (isolationSite p) exampleSchedule) = [h] /\
  exists e rda qa rdb qb, made plainHandler (isolationSite p) e rda qa /\ en_data e = go "hello" /\
    keyed (isolationSite p) (client (hi_job h)) rdb qb /\ CacheKey rda = CacheKey rdb.
Proof.
  destruct (Compile isolationParsed) as [p|e|] eqn:E; [|vm_compute in E; discriminate E..].
  pose proof (ty_heap p (compile_typed isolationParsed p isolationParsed_marked E)) as Hheap.
  assert (recipes_text p) as Hrec by (vm_compute in E; injection E as <-; repeat constructor).
  assert (exists h, sy_hits (run plainHandler (isolationSite p) exampleSchedule) = [h]) as [h Hh].
  { vm_compute in E. injection E as <-. vm_compute. by eexists. }
  assert (forall e, e ∈ sy_committed (run plainHandler (isolationSite p) exampleSchedule) -> en_data e = go "hello") as Hd.
  { apply list.Forall_forall. vm_compute in E. injection E as <-. vm_compute. by repeat constructor. }
  exists p, h. split; [done|]. split; [done|].
  destruct (@cached_reads_isolated amd64 noLib plainHandler (isolationSite p) exampleSchedule h) as (e & rda & qa & rdb & qb & He & Hm & Hk & HK & _).
  - by intros s a.
  - by constructor.
  - exact Hheap.
  - exact Hrec.
  - exact isolation_wire.
  - rewrite Hh. apply list_elem_of_here.
  - exists e, rda, qa, rdb, qb. split; [exact Hm|]. split; [|split; [exact Hk|exact HK]].
    exact (Hd e He).
Defined.
End Example.
