(* ===== verification/ServeTheorems.v ===== *)
(** * What a client sees of the gate and of a failed write

    The exact effects of a refused request, and the answer to a write whose origin
    fails. *)

From stdpp Require Import base strings pretty numbers gmap list.
From Stdlib Require Import Lia SpecFloat.
From S2P Require Import Prelude GoStrings Ast Parse Netip Http Duration Host Path Range Shard Freshness Request Matcher CacheKey Device Rules Template Eval Credentials Response Compile CompileTypes Geo Forward Limiter Act Serve.
Open Scope Z_scope.
Open Scope hm_scope.

Section Gate.
Context {U : Platform} {R : GoLib}.
Context (H : handler) (S : site) (r : httpRequest).
Let p : Pipeline := si_pipeline S.

(** ** The security gate *)

(** The request the gate evaluates. *)
Definition gated : Request :=
  let q := buildPipelineRequest r in
  let q := match si_trusted S, ClientIP (r_remoteAddr r) (Some (r_header r)) (si_trusted S) with
           | _ :: _, Some ip => set_ClientIP (addrString ip) q
           | _, _ => q
           end in
  let h := canonicalizeRequestCookies (r_header r) in
  let ip := ClientIP (r_remoteAddr r) (Some h) (si_trusted S) in
  let q := set_RealClientIP ip (set_Header q h) in
  match si_geo S with
  | Some g =>
    if computeUsesGeo p then
      let from := if PeerTrusted (r_remoteAddr r) (si_trusted S) then Some h else None in
      let country := Lookup g ip from in
      set_classes q (rq_Device q) country (Continent country)
        (match si_geoRegion S with Some g => Lookup g ip from | None => rq_GeoRegion q end)
    else q
  | None => q
  end.

(** The refusal of a request: its status line and text, and nothing else. *)
Definition refusal (code : Z) (h : header) (msg : bytes) (s : hst) : act (unit * hst) :=
  Do (WriteHeader code h) (fun _ => Do (ClientWrite msg) (fun _ => Done (tt, s))).

(** The state in which the gate decides. *)
Definition atGate : hst := mkHst gated ∅ 200 false [] [].

(** Whether the gate resolved the classes. *)
Definition gateGeo : bool := match si_geo S with Some _ => computeUsesGeo p | None => false end.

Definition afterGate (g : bool * bool) : hm unit :=
  let '(answered, geoDone) := g in
  if (answered : bool) then hret tt
  else
    out <- recv S r geoDone;;
    let '(rd, origClientCookie, origCookie) := out in
    dispatch H S r rd origClientCookie origCookie.

Lemma serveSite_gate : hasSecurityGate p = true ->
  serveSite H S r (initial r) =
  hbind (answered <- enforce S (EvalSecurity p gated);; hret (answered, gateGeo)) afterGate atGate.
Proof.
  intros Hg. unfold serveSite, securityGate. change (si_pipeline S) with p. rewrite Hg.
  unfold atGate, gated, resolveGeo, gateGeo. change (si_pipeline S) with p.
  destruct (si_trusted S) as [|t ts]; [|destruct (ClientIP (r_remoteAddr r) (Some (r_header r)) (t :: ts)) as [a|] eqn:Ea];
    (destruct (si_geo S) as [g|]; [destruct (computeUsesGeo p)|]);
    unfold hbind at 1 2; cbn [reqHeader gets abind initial hs_req buildPipelineRequest rq_Header]; rewrite ?Ea; reflexivity.
Qed.

(** C5. A refused request touches neither cache nor origin. When the gate blocks a
    request, all the handler does is to write the status of the rule and a line of text;
    when a rate limit applies and the limiter refuses, it is to ask the limiter and to write
    429 with the seconds to wait. Both are decided on the address and the classes derived
    from the trusted proxies, before any key is computed. *)
Theorem gate_refuses :
  hasSecurityGate p = true ->
  let sec := EvalSecurity p gated in
  (Block sec = true -> exists h s, serveSite H S r (initial r) = refusal (sec_status sec) h (go "forbidden") s) /\
  (forall hit, Block sec = false -> Monitor sec = false -> Allow sec = false -> sec_rateLimit sec = Some hit -> hit_monitor hit = false ->
     exists k, serveSite H S r (initial r) = Do (RateAllow (rateLimitKey S (hit_key hit)) (hit_ratePerSec hit) (hit_burst hit)) k /\
       forall retry, exists h s, k (false, retry) = refusal 429 h (go "too many requests") s /\
         Get h (go "Retry-After") = Itoa (RetryAfterSeconds (N := float_num) retry)).
Proof.
  intros Hg sec. rewrite (serveSite_gate Hg). fold sec. split.
  - intros Hb. unfold enforce. rewrite Hb. by do 2 eexists.
  - intros hit Hb Hm Ha Hr Hn. unfold enforce. rewrite Hb, Hm, Ha, Hr. cbn [orb]. eexists. split; [reflexivity|]. intros retry.
    do 2 eexists. split; [cbn [orb abind perform]; rewrite Hn; reflexivity|].
    cbn [hs_hdr set_hdr set_wrote set_cacheStatus atGate].
    unfold Get, Values, Set_. by rewrite lookup_insert_ne, lookup_insert_eq by (by apply (bool_decide_unpack _)).
Qed.
End Gate.

(** ** Failed writes *)

(** What reaches the client and the origins, and which markers are dropped. *)
Inductive output : Type := Sent (code : Z) | Body (p : bytes) | Forgot (key : bytes) | Asked (method : bytes).

Definition output_of {X : Type} (e : effect X) : list output :=
  match e with
  | WriteHeader code _ => [Sent code]
  | ClientWrite p => [Body p]
  | FForget k => [Forgot k]
  | Fetch _ rq => [Asked (oq_method rq)]
  | _ => []
  end.



Section Outage.
Context {U : Platform} {R : GoLib}.
Context (H : handler) (S : site) (r : httpRequest) (key : bytes).
Let p : Pipeline := si_pipeline S.
















































End Outage.

(** ** Examples *)

Section Examples.
#[local] Existing Instance amd64.
#[local] Existing Instance noLib.

Definition siteOf (text : bytes) : Site :=
  match Parse [] text with Ok (mkCFile _ (s :: _) _) => s | _ => mkSite [] [] (mkPos [] 0 0) end.

Definition oneOrigin (p : Pipeline) : site := mkServed [go "example.com"] p (Some 0%nat) ∅ [] ∅ None None None [] None.

Definition noCodecs : handler :=
  mkHandler 0 (fun _ => None) (fun _ => []) (fun p _ => p) (fun k => k) (fun _ => false) (fun _ _ => None).

Definition requestOf (method path : bytes) : httpRequest :=
  mkHttp method (go "example.com") [] path [] path ∅ (go "192.0.2.1:4000") false false.

Definition guardedText : bytes := go "example.com {
  @admin path /admin/*
  deny @admin
}".

Lemma gate_refuses_witness : exists p h s, Compile (siteOf guardedText) = Ok p /\
  serveSite noCodecs (oneOrigin p) (requestOf (go "GET") (go "/admin/x")) (initial (requestOf (go "GET") (go "/admin/x")))
  = refusal 403 h (go "forbidden") s.
Proof.
  destruct (Compile (siteOf guardedText)) as [p|e|] eqn:E; [|vm_compute in E; discriminate E..].
  set (r := requestOf (go "GET") (go "/admin/x")).
  assert (hasSecurityGate p = true) as Hg by (vm_compute in E; injection E as <-; reflexivity).
  assert (Block (EvalSecurity p (gated (oneOrigin p) r)) = true /\ sec_status (EvalSecurity p (gated (oneOrigin p) r)) = 403) as [Hb Hst].
  { vm_compute in E. injection E as <-. vm_compute. done. }
  destruct (proj1 (@gate_refuses amd64 noLib noCodecs (oneOrigin p) r Hg) Hb) as (h & s & Hs).
  exists p, h, s. split; [done|]. etrans; [exact Hs|]. unfold refusal. rewrite <- Hst. reflexivity.
Defined.

(** What a program puts out when every effect is answered by [o]. *)
Fixpoint outputs {A : Type} (o : forall X, effect X -> X) (m : act A) : list output :=
  match m with
  | Done _ => []
  | Do e k => output_of e ++ outputs o (k (o _ e))
  end.

(** An origin that cannot be reached and a stored copy within its max_stale window. *)
Definition outage : forall X, effect X -> X :=
  fun X e => match e in effect X return X with
  | Now => 0
  | Warm => true
  | RateAllow _ _ _ => (true, 0)
  | PoolView => fun _ => true
  | FClassify _ => (stateMiss, false)
  | FStaleWithin _ => true
  | FStoredAt _ => None
  | FLifetime _ => None
  | FStore _ _ _ _ | FSetHFM _ _ | FForget _ | SAbort _ | CFinish _ _ _ | BEnd _ | BRelease | BSpawn _ _ _ _ => tt
  | FBan _ => 0
  | SGet k => Some (mkMeta k 5 (go "text/html") [] [] [] [] 0 false [], mkStream [go "hello"] false, go "ram")
  | SWriter _ => None
  | SWrite _ _ | SCommit _ | BBegin _ | BSlot => true
  | CEnter _ => (0%nat, true)
  | CWait _ => None
  | Fetch _ _ => inr ErrTransport
  | PeerOwner _ _ => None
  | PeerDo _ _ _ _ _ => None
  | ResolveUpgrade _ _ => NotUpgrader
  | Tunnel _ _ _ _ => tt
  | ClientGone => false
  | WriteHeader _ _ => tt
  | ClientWrite _ => true
  | EncodeWrite _ _ => true
  | EncodeClose _ => tt
  end.

Definition staleText : bytes := go "example.com {
  cache_key path
  cache_ttl default ttl 60s max_stale 1h
}".

(** From the request to the answer: a POST whose origin cannot be reached is answered 200
    with the body a GET stored, and the entry of the GET is dropped. *)
Example failed_post : exists p, Compile (siteOf staleText) = Ok p /\
  let r := requestOf (go "POST") (go "/order") in
  outputs outage (serveSite noCodecs (oneOrigin p) r (initial r))
  = [Asked (go "POST"); Sent 200; Body (go "hello"); Forgot (go "/order")].
Proof.
  destruct (Compile (siteOf staleText)) as [p|e|] eqn:E; [|vm_compute in E; discriminate E..].
  exists p. split; [done|]. vm_compute in E. injection E as <-. vm_compute. reflexivity.
Qed.





End Examples.
