(* ===== verification/Origins.v ===== *)
(** * Origins

    What the handler asks for an object (src/internal/origin/origin.go): an HTTP server
    (httporigin.go, [Fetch]), a chain that falls back from one origin to the next
    (chain.go), and the peers of a cluster (peerorigin.go).  An origin is a program over the
    effects below; a pool of backends, in Pool, is one more.

    A body is known by its identity, so that the programs show who closes it.  The
    classes [Closes] and [SendsOnce] are the contract of the package: a body is handed to
    the caller or closed exactly once, and a request with a body, which cannot be
    replayed, is sent to one server at most. *)

From stdpp Require Import base strings pretty numbers gmap list.
From Stdlib Require Import Lia.
From S2P Require Import Prelude GoStrings Http Duration Request Path Forward LbRing Act.
Open Scope Z_scope.

(** ** Answers *)

(** A body: that of a response on the wire, or one wrapped by a pool with the flag
    that tells whether its accounting was released. *)
Inductive body : Type :=
| Raw (id : nat)
| Tracked (inner : body) (flag pool backend : nat) (hasSem : bool).

Fixpoint rawId (b : body) : nat := match b with Raw id => id | Tracked b _ _ _ _ => rawId b end.

Record response : Type := mkResponse {
  rs_status : Z;
  rs_header : header;
  rs_contentLength : Z;
  rs_body : body;
  rs_negative : bool
}.

(** Errors, as far as the code tells them apart; [OTransport] stands for any other. *)
Inductive oerror : Type :=
| ONotFound
| OSkip
| OStatus (status : Z) (hdr : header) (b : option body) (contentLength : Z)
| ONoBackend
| OAtCapacity
| OTransport.

Abbreviation oresult := (response + oerror)%type.

Definition statusOf (e : oerror) : Z :=
  match e with ONotFound => 404 | OStatus st _ _ _ => st | _ => 0 end.

Definition isSkip (e : oerror) : bool := match e with OSkip => true | _ => false end.

(** The body a caller must close. *)
Definition owned (r : oresult) : option nat :=
  match r with
  | inl resp => Some (rawId (rs_body resp))
  | inr (OStatus _ _ (Some b) _) => Some (rawId b)
  | inr _ => None
  end.

(** ** Effects and programs *)

(** A request on the wire. *)
Record exchange : Type := mkExchange {
  x_method : bytes;
  x_path : bytes;
  x_rawQuery : bytes;
  x_header : header;
  x_host : bytes;              (* empty: the host of the base URL *)
  x_hasBody : bool
}.

(** The fields of a backend that do not change; its address stands for the others. *)
Record backend : Type := mkBackend {
  b_ref : nat;
  b_id : bytes;
  b_baseURL : bytes;
  b_raw : bytes;               (* of its target *)
  b_origin : nat
}.

#[export] Instance backend_eq_dec : EqDecision backend.
Proof. solve_decision. Defined.

Abbreviation view := (list backend * ring * gmap bytes backend)%type.

Inductive oeff : Type -> Type :=
| CtxErr : oeff bool
| Exchange (o : nat) (x : exchange) : oeff (option (Z * header * Z * nat))
| CloseRaw (id : nat) : oeff unit
| Clock : oeff Z
| Snapshot (u : nat) : oeff view
| Eligible (b : nat) (now : Z) : oeff bool
| InflightOf (b : nat) : oeff Z
| NextRR (u : nat) : oeff Z
| TryAcquire (b : nat) : oeff bool
| ReleaseSem (b : nat) : oeff unit
| AddInflight (b : nat) (d : Z) : oeff unit
| AddPool (u : nat) (d : Z) : oeff unit
| NewFlag : oeff nat
| SwapFlag (t : nat) : oeff bool
| PassiveSuccess (b : nat) : oeff unit
| PassiveFailure (b : nat) (now : Z) : oeff unit
| Panic : oeff Empty_set
| Diverge : oeff Empty_set.   (* a loop that is not over when its fuel is *)

Inductive oprog (A : Type) : Type :=
| ODone (a : A)
| ODo {X : Type} (e : oeff X) (k : X -> oprog A).
Arguments ODone {A} a.
Arguments ODo {A X} e k.

Fixpoint pbind {A B : Type} (m : oprog A) (f : A -> oprog B) : oprog B :=
  match m with
  | ODone a => f a
  | ODo e k => ODo e (fun x => pbind (k x) f)
  end.

Definition ask {X : Type} (e : oeff X) : oprog X := ODo e ODone.

Declare Scope oprog_scope.
Delimit Scope oprog_scope with oprog.
Notation "x <- m ;; k" := (pbind m (fun x => k)) (at level 100, m at next level, k at level 200, right associativity) : oprog_scope.
Notation "m ;; k" := (pbind m (fun _ => k)) (at level 100, k at level 200, right associativity) : oprog_scope.
Open Scope oprog_scope.

(** The values a context carries besides its deadline. *)
Record octx : Type := mkOctx { cx_routingKey : bytes; cx_exclude : bytes }.

Definition origin : Type := octx -> originRequest -> oprog oresult.

(** ** Closing *)

(** [release] of a fetch: only the first call counts. *)
Definition releaseOnce (flag pool backend : nat) (hasSem : bool) : oprog unit :=
  first <- ask (SwapFlag flag);;
  if (first : bool) then
    ask (AddInflight backend (-1));; ask (AddPool pool (-1));;
    (if hasSem then ask (ReleaseSem backend) else ODone tt)
  else ODone tt.

Fixpoint closeBody (b : body) : oprog unit :=
  match b with
  | Raw id => ask (CloseRaw id)
  | Tracked inner flag pool backend hasSem => closeBody inner;; releaseOnce flag pool backend hasSem
  end.

Definition closeStatusErrBody (e : option oerror) : oprog unit :=
  match e with Some (OStatus _ _ (Some b) _) => closeBody b | _ => ODone tt end.

Definition closeNegative (r : option response) : oprog unit :=
  match r with Some r => closeBody (rs_body r) | None => ODone tt end.

(** ** An HTTP origin *)

Inductive HostPolicy : Type := HostPreserve | HostOrigin | HostFixed.

Record httpOrigin : Type := mkHttpOrigin {
  ho_dial : nat;               (* its base URL and client *)
  ho_basePath : bytes;
  ho_hostPolicy : HostPolicy;
  ho_hostValue : bytes
}.

Definition hostFor (o : httpOrigin) (clientHost : bytes) : bytes :=
  match ho_hostPolicy o with HostFixed => ho_hostValue o | HostPreserve => clientHost | HostOrigin => [] end.

Definition negativeStatus (code : Z) : bool := (code =? 404) || (code =? 410).

(** [http.Header.Add] of every value. *)
Definition addValues (h : header) (k : bytes) (vs : list bytes) : header := fold_left (fun h v => Add h k v) vs h.

Definition copyValues (h : header) : header := map_fold (fun k vs out => addValues out k vs) ∅ h.

(** The answer as the origin reports it. *)
Definition classifyAnswer (a : Z * header * Z * nat) : oresult :=
  let '(st, h, len, id) := a in
  if (st =? 200) || (st =? 206) then inl (mkResponse st h len (Raw id) false)
  else if (300 <=? st) && (st <=? 399) then inl (mkResponse st h len (Raw id) false)
  else if negativeStatus st then inl (mkResponse st h len (Raw id) true)
  else inr (OStatus st h (Some (Raw id)) len).

Definition httpFetch (o : httpOrigin) : origin := fun _ q =>
  let method := if bool_decide (oq_method q = []) then go "GET" else oq_method q in
  match urlFor (ho_basePath o) (oq_key q) with
  | Ok path =>
    if forallb validHeaderFieldByte method then
      a <- ask (Exchange (ho_dial o) (mkExchange method path (oq_rawQuery q) (copyValues (oq_header q)) (hostFor o (oq_clientHost q)) (oq_hasBody q)));;
      ODone (match a with Some a => classifyAnswer a | None => inr OTransport end)
    else ODone (inr OTransport)
  | _ => ODone (inr OTransport)
  end.

(** ** Chains *)

Definition DefaultFallThrough (e : oerror) : bool :=
  let st := statusOf e in
  if st =? 0 then true else if st =? 404 then true else (500 <=? st) && (st <=? 599).

Definition fallThroughStatuses (statuses : list Z) (e : oerror) : bool :=
  let st := statusOf e in if st =? 0 then true else bool_decide (st ∈ statuses).

Section Chain.
Context (fallThrough : oerror -> bool) (cx : octx) (q : originRequest).

Fixpoint chainLoop (os : list origin) (lastErr : option oerror) (lastNeg : option response) : oprog oresult :=
  match os with
  | [] =>
    match lastNeg with
    | Some neg => closeStatusErrBody lastErr;; ODone (inl neg)
    | None => ODone (inr (default ONotFound lastErr))
    end
  | o :: os =>
    cancelled <- ask CtxErr;;
    if (cancelled : bool) then closeNegative lastNeg;; closeStatusErrBody lastErr;; ODone (inr OTransport)
    else
      r <- o cx q;;
      match r with
      | inl resp =>
        if negb (rs_negative resp) then
          closeNegative lastNeg;; closeStatusErrBody lastErr;; ODone (inl resp)
        else if oq_hasBody q then closeNegative lastNeg;; ODone (inl resp)
        else closeNegative lastNeg;; closeStatusErrBody lastErr;; chainLoop os None (Some resp)
      | inr err =>
        closeStatusErrBody lastErr;;
        if isSkip err then chainLoop os None lastNeg
        else if oq_hasBody q then closeNegative lastNeg;; ODone (inr err)
        else if negb (fallThrough err) then closeNegative lastNeg;; ODone (inr err)
        else chainLoop os (Some err) lastNeg
      end
  end.
End Chain.

Definition chainFetch (fallThrough : oerror -> bool) (os : list origin) : origin :=
  fun cx q => chainLoop fallThrough cx q os None None.

(** ** Peers *)

Record peerOrigin : Type := mkPeerOrigin { po_hopHeader : bytes; po_region : bytes; po_self : bytes }.

(** The pool of the peers is an argument: its fetch and its [Owner]. *)
Definition peerFetch (p : peerOrigin) (poolFetch : origin) (owner : bytes -> oprog (option bytes)) : origin := fun cx q =>
  if oq_bypass q then ODone (inr OSkip)
  else if negb (bool_decide (oq_method q ∈ [[]; go "GET"; go "HEAD"])) || oq_hasBody q then ODone (inr OSkip)
  else if negb (bool_decide (Get (oq_header q) (po_hopHeader p) = [])) then ODone (inr OSkip)
  else
    mine <- (if bool_decide (po_self p = []) then ODone false
             else o <- owner (oq_key q);; ODone (bool_decide (o = Some (po_self p))));;
    if (mine : bool) then ODone (inr OSkip)
    else
      let cx := mkOctx (oq_key q) (if bool_decide (po_self p = []) then cx_exclude cx else po_self p) in
      let 'mkOReq m k rq h ch hb bp _ := q in
      r <- poolFetch cx (mkOReq m k rq (Set_ h (po_hopHeader p) (po_region p)) ch hb bp k);;
      match r with
      | inl resp => if rs_negative resp then closeBody (rs_body resp);; ODone (inr ONotFound) else ODone (inl resp)
      | inr e => ODone (inr e)
      end.

(** ** Reasoning about programs

    A logic has a ghost state, what it requires of an effect, what it assumes of the
    answer, and how both change the ghost state. *)

Record logic (G : Type) : Type := mkLogic {
  lg_pre : forall X, oeff X -> G -> Prop;
  lg_env : forall X, oeff X -> X -> G -> Prop;
  lg_upd : forall X, oeff X -> X -> G -> G
}.
Arguments lg_pre {G} l {X} e g.
Arguments lg_env {G} l {X} e x g.
Arguments lg_upd {G} l {X} e x g.

Section Wp.
Context {G : Type} (L : logic G).

Fixpoint owp {A : Type} (m : oprog A) (Q : A -> G -> Prop) (g : G) : Prop :=
  match m with
  | ODone a => Q a g
  | ODo e k => lg_pre L e g /\ forall x, lg_env L e x g -> owp (k x) Q (lg_upd L e x g)
  end.

Lemma owp_mono {A} (m : oprog A) (Q Q' : A -> G -> Prop) g : (forall a g, Q a g -> Q' a g) -> owp m Q g -> owp m Q' g.
Proof. intros H. revert g. induction m as [a|X e k IH]; cbn; [auto|]. intros g [Hp Hk]. split; [done|]. auto. Qed.

Lemma owp_bind {A B} (m : oprog A) (f : A -> oprog B) Q g : owp m (fun a g => owp (f a) Q g) g -> owp (pbind m f) Q g.
Proof. revert g. induction m as [a|X e k IH]; cbn; [done|]. intros g [Hp Hk]. split; [done|]. auto. Qed.

Lemma owp_ask {X} (e : oeff X) Q g : lg_pre L e g -> (forall x, lg_env L e x g -> Q x (lg_upd L e x g)) -> owp (ask e) Q g.
Proof. by split. Qed.

Lemma owp_conseq {A B} (m : oprog A) (f : A -> oprog B) (P : A -> G -> Prop) Q g :
  owp m P g -> (forall a g, P a g -> owp (f a) Q g) -> owp (pbind m f) Q g.
Proof. intros H HP. apply owp_bind. eapply owp_mono; [|exact H]. exact HP. Qed.

(** A run in which every effect has a fixed answer, and that the answers are those the
    logic assumes. *)
Fixpoint orun {A : Type} (w : forall X, oeff X -> option X) (m : oprog A) (g : G) : option (A * G) :=
  match m with
  | ODone a => Some (a, g)
  | ODo e k => match w _ e with Some x => orun w (k x) (lg_upd L e x g) | None => None end
  end.

Fixpoint follows {A : Type} (w : forall X, oeff X -> option X) (m : oprog A) (g : G) : Prop :=
  match m with
  | ODone _ => True
  | ODo e k => match w _ e with Some x => lg_env L e x g /\ follows w (k x) (lg_upd L e x g) | None => True end
  end.

Lemma follows_all {A} w (m : oprog A) g : (forall X (e : oeff X) x g, w X e = Some x -> lg_env L e x g) -> follows w m g.
Proof. intros Hw. revert g. induction m as [a|X e k IH]; intros g; cbn; [done|]. destruct (w X e) eqn:E; [|done]. eauto. Qed.

Lemma owp_run {A} w (m : oprog A) Q g a g' : owp m Q g -> follows w m g -> orun w m g = Some (a, g') -> Q a g'.
Proof.
  revert g. induction m as [b|X e k IH]; intros g; cbn [orun owp follows].
  - by intros HQ _ [= <- <-].
  - intros [_ Hk]. destruct (w X e) as [x|] eqn:E; [|done]. intros [He Hf] Hrun. by apply (IH x _ (Hk x He) Hf).
Qed.
End Wp.

(** ** Who closes a body *)

(** The open bodies; a body is closed only while it is open, and a new one is not yet. *)
Definition ledger : logic (gset nat) := mkLogic (gset nat)
  (fun X e g => match e with CloseRaw id => id ∈ g | _ => True end)
  (fun X e => match e in oeff X return X -> gset nat -> Prop with
     | Exchange _ _ => fun x g => match x with Some (_, _, _, id) => id ∉ g | None => True end
     | _ => fun _ _ => True end)
  (fun X e => match e in oeff X return X -> gset nat -> gset nat with
     | Exchange _ _ => fun x g => match x with Some (_, _, _, id) => {[id]} ∪ g | None => g end
     | CloseRaw id => fun _ g => g ∖ {[id]}
     | _ => fun _ g => g end).

(** The open bodies after a fetch: those before it and the one handed to the caller. *)
Definition handed (g : gset nat) (r : oresult) (g' : gset nat) : Prop :=
  match owned r with Some id => (id ∉ g) /\ g' = {[id]} ∪ g | None => g' = g end.

Class Closes (o : origin) : Prop := closes cx q g : owp ledger (o cx q) (handed g) g.

(** ** What is sent *)

(** The number of requests with a body that were sent. *)
Definition sends : logic nat := mkLogic nat
  (fun _ _ _ => True) (fun _ _ _ _ => True)
  (fun X e _ n => match e with Exchange _ x => if x_hasBody x then S n else n | _ => n end).

(** A request whose origin declined it was not sent. *)
Definition sent (q : originRequest) (n : nat) (r : oresult) (n' : nat) : Prop :=
  n' = n \/ oq_hasBody q = true /\ n' = S n /\ r <> inr OSkip.

Class SendsOnce (o : origin) : Prop :=
  sendsOnce cx q n : owp sends (o cx q) (sent q n) n.

(** ** HTTP origins *)

#[export] Instance httpFetch_Closes o : Closes (httpFetch o).
Proof.
  intros cx q g. unfold httpFetch. destruct (urlFor _ _); [|done..]. destruct (forallb _ _); [|done].
  apply owp_bind, owp_ask; [done|]. intros [[[[st h] len] id]|] Hid; [|done]. cbn in *.
  unfold handed, classifyAnswer. repeat destruct (_ || _); try (by split). destruct (_ && _); [by split|]. destruct (negativeStatus st); by split.
Qed.

#[export] Instance httpFetch_SendsOnce o : SendsOnce (httpFetch o).
Proof.
  intros cx q n. unfold httpFetch. destruct (urlFor _ _); [|by left..]. destruct (forallb _ _); [|by left].
  apply owp_bind, owp_ask; [done|]. intros ans _. cbn. destruct (oq_hasBody q) eqn:Eb; [right|by left]. repeat split; [done|].
  destruct ans as [[[[st h] len] id]|]; [|done]. unfold classifyAnswer. repeat destruct (_ || _); try done. destruct (_ && _); [done|]. by destruct (negativeStatus st).
Qed.

(** ** Passive programs *)

(** A program all of whose effects are of some kind. *)
Fixpoint only (kind : forall X, oeff X -> bool) {A : Type} (m : oprog A) : Prop :=
  match m with ODone _ => True | ODo e k => kind _ e = true /\ forall x, only kind (k x) end.

Section Only.
Context (kind : forall X, oeff X -> bool).

Lemma only_bind {A B} (m : oprog A) (f : A -> oprog B) : only kind m -> (forall a, only kind (f a)) -> only kind (pbind m f).
Proof. intros Hm Hf. induction m as [a|X e k IH]; cbn; [done|]. destruct Hm as [He Hk]. split; [done|]. auto. Qed.

Lemma only_ask {X} (e : oeff X) : kind X e = true -> only kind (ask e).
Proof. by split. Qed.

Lemma only_mono (kind' : forall X, oeff X -> bool) {A} (m : oprog A) :
  (forall X (e : oeff X), kind X e = true -> kind' X e = true) -> only kind m -> only kind' m.
Proof. intros Hk. induction m as [a|X e k IH]; cbn; [done|]. intros [He Hm]. auto. Qed.

(** In a logic that is indifferent to the effects of the kind, they change nothing. *)
Lemma only_owp {G} (L : logic G) {A} (m : oprog A) Q g :
  (forall X (e : oeff X) g, kind X e = true -> lg_pre L e g) -> (forall X (e : oeff X) x g, kind X e = true -> lg_upd L e x g = g) ->
  only kind m -> (forall a, Q a g) -> owp L m Q g.
Proof.
  intros Hp Hu Hm HQ. induction m as [a|X e k IH]; cbn; [done|]. destruct Hm as [He Hk]. split; [auto|]. intros x _. rewrite Hu by done. auto.
Qed.
End Only.

(** What a program can return, whatever the answers. *)
Fixpoint yields {A : Type} (m : oprog A) (Q : A -> Prop) : Prop :=
  match m with ODone a => Q a | ODo _ k => forall x, yields (k x) Q end.

Lemma yields_bind {A B} (m : oprog A) (f : A -> oprog B) Q : (forall a, yields (f a) Q) -> yields (pbind m f) Q.
Proof. intros Hf. induction m as [a|X e k IH]; cbn; auto. Qed.

Lemma owp_yields {G} (L : logic G) {A} (m : oprog A) (P : G -> Prop) (Q : A -> Prop) g :
  owp L m (fun _ g' => P g') g -> yields m Q -> owp L m (fun a g' => P g' /\ Q a) g.
Proof. revert g. induction m as [a|X e k IH]; intros g; cbn; [done|]. intros [He Hk] HQ. auto. Qed.

Create HintDb only.
#[export] Hint Resolve only_bind only_ask : only.
#[export] Hint Extern 1 (_ = true) => reflexivity : only.
#[export] Hint Extern 1 (only _ (ODone _)) => exact I : only.
#[export] Hint Extern 2 (only _ (if ?b then _ else _)) => destruct b : only.
#[export] Hint Extern 2 (only _ (match ?x with _ => _ end)) => destruct x : only.

(** Effects that neither open, close nor send; those that only observe the backends of a
    snapshot and record how they did. *)
Definition isPassive (X : Type) (e : oeff X) : bool :=
  match e with Exchange _ _ | CloseRaw _ => false | _ => true end.

Definition isRead (X : Type) (e : oeff X) : bool :=
  match e with
  | CtxErr | Clock | Eligible _ _ | InflightOf _ | NextRR _ | PassiveSuccess _ | PassiveFailure _ _ | Panic => true
  | _ => false
  end.

Abbreviation passive := (only isPassive).

Lemma read_passive {A} (m : oprog A) : only isRead m -> passive m.
Proof. apply only_mono. by intros X []. Qed.

Lemma passive_ledger {A} (m : oprog A) Q g : passive m -> (forall a, Q a g) -> owp ledger m Q g.
Proof. apply only_owp; [by intros X []|by intros X []]. Qed.

Lemma passive_sends {A} (m : oprog A) Q n : passive m -> (forall a, Q a n) -> owp sends m Q n.
Proof. apply only_owp; [done|by intros X []]. Qed.

Lemma release_passive flag pool be sem : passive (releaseOnce flag pool be sem).
Proof. unfold releaseOnce. eauto 20 with only nocore. Qed.
#[export] Hint Resolve release_passive : only.

(** ** Chains keep the contract *)

Definition idSet (o : option nat) : gset nat := match o with Some id => {[id]} | None => ∅ end.
Definition errSet (e : option oerror) : gset nat := match e with Some e => idSet (owned (inr e)) | None => ∅ end.
Definition negSet (r : option response) : gset nat := match r with Some r => {[rawId (rs_body r)]} | None => ∅ end.

Lemma handed_iff g r g' : handed g r g' <-> idSet (owned r) ## g /\ g' = idSet (owned r) ∪ g.
Proof.
  unfold handed. destruct (owned r); cbn; split.
  - intros [? ->]. split; [set_solver|done].
  - intros [? ->]. split; [set_solver|done].
  - intros ->. split; [set_solver|apply set_eq; set_solver].
  - intros [_ ->]. apply set_eq. set_solver.
Qed.

Lemma closeBody_ledger b g : rawId b ∈ g -> owp ledger (closeBody b) (fun _ g' => g' = g ∖ {[rawId b]}) g.
Proof.
  induction b as [id|inner IH flag pool be sem]; intros Hin; [by split|]. cbn [closeBody rawId] in *.
  eapply owp_conseq; [by apply IH|]. cbn beta. intros _ g' ->. by apply passive_ledger; [apply release_passive|].
Qed.

Lemma closeErr_ledger e g : errSet e ⊆ g -> owp ledger (closeStatusErrBody e) (fun _ g' => g' = g ∖ errSet e) g.
Proof.
  destruct e as [[| |st h [b|] len| | |]|]; cbn; intros Hin; try (apply set_eq; set_solver). apply closeBody_ledger. set_solver.
Qed.

Lemma closeNeg_ledger n g : negSet n ⊆ g -> owp ledger (closeNegative n) (fun _ g' => g' = g ∖ negSet n) g.
Proof. destruct n as [r|]; cbn; intros Hin; [|apply set_eq; set_solver]. apply closeBody_ledger. set_solver. Qed.

Lemma closeBody_sends b n : owp sends (closeBody b) (fun _ n' => n' = n) n.
Proof.
  induction b as [id|inner IH flag pool be sem]; [by split|]. cbn [closeBody].
  eapply owp_conseq; [exact IH|]. cbn beta. intros _ g' ->. by apply passive_sends; [apply release_passive|].
Qed.

Lemma closeErr_sends e n : owp sends (closeStatusErrBody e) (fun _ n' => n' = n) n.
Proof. destruct e as [[| |st h [b|] len| | |]|]; try done. apply closeBody_sends. Qed.

Lemma closeNeg_sends r n : owp sends (closeNegative r) (fun _ n' => n' = n) n.
Proof. destruct r; [apply closeBody_sends|done]. Qed.

Ltac close_ledger := eapply owp_conseq; [first [apply closeNeg_ledger|apply closeErr_ledger]; set_solver|]; cbn beta; intros _ ? ->.
Ltac solve_handed := apply handed_iff; cbn in *; split; [set_solver|apply set_eq; set_solver].
Ltac ledger_is s' := match goal with |- owp _ _ _ ?s => assert (s = s') as -> by (apply set_eq; cbn in *; set_solver) end.

Ltac close_sends := eapply owp_conseq; [first [apply closeNeg_sends|apply closeErr_sends]|]; cbn beta; intros _ ? ->.

Section Chain.
Context (fallThrough : oerror -> bool).

Lemma chainLoop_ledger cx q os : Forall Closes os -> forall e n g0,
  (oq_hasBody q = true -> e = None) -> errSet e ## negSet n -> errSet e ## g0 -> negSet n ## g0 ->
  owp ledger (chainLoop fallThrough cx q os e n) (handed g0) (errSet e ∪ negSet n ∪ g0).
Proof.
  intros Hos. induction Hos as [|o os Ho Hos IH]; intros e n g0 Hb H1 H2 H3; cbn [chainLoop].
  - destruct n as [r|]; [close_ledger; solve_handed|]. cbn. destruct e; solve_handed.
  - apply owp_bind, owp_ask; [done|]. intros cancelled _. destruct cancelled; cbn [lg_upd ledger].
    { close_ledger. close_ledger. apply set_eq. set_solver. }
    eapply owp_conseq; [apply Ho|]. cbn beta. intros [r|err] g [Hr ->]%handed_iff.
    + destruct (negb (rs_negative r)); [close_ledger; close_ledger; solve_handed|]. destruct (oq_hasBody q) eqn:Eb.
      * rewrite (Hb eq_refl) in *. close_ledger. solve_handed.
      * close_ledger. close_ledger. ledger_is (errSet None ∪ negSet (Some r) ∪ g0). apply IH; cbn in *; set_solver.
    + close_ledger. destruct (isSkip err) eqn:Es.
      { destruct err; try done. ledger_is (errSet None ∪ negSet n ∪ g0). apply IH; cbn in *; set_solver. }
      destruct (oq_hasBody q) eqn:Eb; [rewrite (Hb eq_refl) in *; close_ledger; solve_handed|].
      destruct (negb (fallThrough err)); [close_ledger; solve_handed|].
      ledger_is (errSet (Some err) ∪ negSet n ∪ g0). apply IH; cbn in *; [congruence|set_solver..].
Qed.

#[export] Instance chainFetch_Closes os : Forall Closes os -> Closes (chainFetch fallThrough os).
Proof.
  intros Hos cx q g. pose proof (chainLoop_ledger cx q os Hos None None g) as H. cbn [errSet negSet] in H.
  rewrite !(left_id_L ∅ union) in H. apply H; set_solver.
Qed.

Lemma chainLoop_sends cx q os : Forall SendsOnce os -> forall e r n,
  owp sends (chainLoop fallThrough cx q os e r) (sent q n) n.
Proof.
  intros Hos. induction Hos as [|o os Ho Hos IH]; intros e r n; cbn [chainLoop].
  - destruct r as [r|]; [close_sends|]; by left.
  - apply owp_bind, owp_ask; [done|]. intros cancelled _. destruct cancelled; cbn [lg_upd sends].
    { close_sends. close_sends. by left. }
    eapply owp_conseq; [apply Ho|]. cbn beta. intros [resp|err] n' Hs.
    + destruct (negb (rs_negative resp)); [close_sends; close_sends; done|]. destruct (oq_hasBody q) eqn:Eb; [by close_sends|].
      destruct Hs as [-> |(? & _)]; [|congruence]. close_sends. close_sends. apply IH.
    + close_sends. destruct (isSkip err) eqn:Es.
      { destruct err; try done. destruct Hs as [-> |(_ & _ & ?)]; [apply IH|done]. }
      destruct (oq_hasBody q) eqn:Eb; [by close_sends|]. destruct Hs as [-> |(? & _)]; [|congruence].
      destruct (negb (fallThrough err)); [close_sends; by left|]. apply IH.
Qed.

#[export] Instance chainFetch_SendsOnce os : Forall SendsOnce os -> SendsOnce (chainFetch fallThrough os).
Proof. intros Hos cx q n. by apply chainLoop_sends. Qed.
End Chain.

(** ** Peers keep the contract *)

Section Peer.
Context (p : peerOrigin) (poolFetch : origin) (owner : bytes -> oprog (option bytes)) (Howner : forall key, passive (owner key)).

Lemma mine_passive key : passive (if bool_decide (po_self p = []) then ODone false else o <- owner key;; ODone (bool_decide (o = Some (po_self p)))).
Proof. destruct (bool_decide _); [done|]. by apply only_bind. Qed.

#[export] Instance peerFetch_Closes : Closes poolFetch -> Closes (peerFetch p poolFetch owner).
Proof.
  intros Hp cx q g. unfold peerFetch. destruct (oq_bypass q); [done|]. destruct (_ || oq_hasBody q); [done|]. destruct (negb _); [done|].
  apply owp_bind, passive_ledger; [apply mine_passive|]. intros []; [done|]. destruct q. eapply owp_conseq; [apply Hp|]. cbn beta.
  intros [r|e] g' Hg; [|done]. destruct (rs_negative r); [|done]. cbn in Hg. destruct Hg as [Hid ->]. eapply owp_conseq; [apply closeBody_ledger; set_solver|].
  cbn. intros _ g' ->. apply set_eq. set_solver.
Qed.

#[export] Instance peerFetch_SendsOnce : SendsOnce poolFetch -> SendsOnce (peerFetch p poolFetch owner).
Proof.
  intros Hp cx q n. unfold peerFetch. destruct (oq_bypass q); [by left|]. destruct (_ || oq_hasBody q) eqn:Eb; [by left|].
  destruct (bool_decide (Get _ _ = [])); [|by left]. cbn [negb].
  apply orb_false_iff in Eb as [_ Eb]. apply owp_bind, passive_sends; [apply mine_passive|]. intros []; [by left|]. destruct q. cbn in Eb. subst.
  eapply owp_conseq; [apply Hp|]. cbn beta. intros [r|e] n' [-> |(? & _)]; [|done|by left|done]. destruct (rs_negative r); [|by left].
  eapply owp_conseq; [apply closeBody_sends|]. cbn beta. intros _ ? ->. by left.
Qed.
End Peer.
