(* ===== verification/Pool.v ===== *)
(** * Pools of backends

    The load balancer (src/internal/lb/upstream.go, health.go, snapshot.go):
    the health of a backend, the choice of one under each policy, and the fetch with its
    failover and its accounting.

    The programs read and write the pool through the effects of Origins, one for each
    critical section or atomic operation of the source; [backendState] and its operations
    are the state of a backend behind them, and PoolSystem has the state of the pool. *)

From stdpp Require Import base strings pretty numbers gmap list.
From Stdlib Require Import Lia.
From S2P Require Import Prelude GoStrings Http Duration Freshness LbRing Act Origins.
Open Scope Z_scope.
Open Scope oprog_scope.

(** ** Health ([health.go]) *)

Record healthFSM : Type := mkFSM {
  f_window : Z;
  f_threshold : Z;
  f_results : list bool;
  f_idx : Z;
  f_filled : Z;
  f_up : bool
}.

Definition newHealthFSM (window threshold : Z) (startUp : bool) : healthFSM :=
  let window := if window <=? 0 then 1 else window in
  let threshold := if threshold <=? 0 then 1 else threshold in
  let threshold := if window <? threshold then window else threshold in
  mkFSM window threshold (replicate (Z.to_nat window) false) 0 0 startUp.

(** The successes and the failures among some outcomes. *)
Definition tally (rs : list bool) : Z * Z :=
  fold_left (fun '(s, f) r => if (r : bool) then (s + 1, f) else (s, f + 1)) rs (0, 0).

Definition record (f : healthFSM) (success : bool) : healthFSM * bool :=
  let results := <[Z.to_nat (f_idx f) := success]> (f_results f) in
  let idx := Z.rem (f_idx f + 1) (f_window f) in
  let filled := if f_filled f <? f_window f then f_filled f + 1 else f_filled f in
  let '(succ, fail) := tally (take (Z.to_nat filled) results) in
  let set_up up := mkFSM (f_window f) (f_threshold f) results idx filled up in
  if negb (f_up f) && (f_threshold f <=? succ) then (set_up true, true)
  else if f_up f && (f_threshold f <=? fail) then (set_up false, true)
  else (set_up (f_up f), false).

Record HealthSpec : Type := mkHealthSpec {
  hs_method : bytes;
  hs_path : bytes;
  hs_expectCode : Z;
  hs_expectCodes : list Z;
  hs_expectClasses : list Z;
  hs_interval : Z;
  hs_window : Z;
  hs_threshold : Z
}.

Definition Matches (h : HealthSpec) (code : Z) : bool :=
  (negb (hs_expectCode h =? 0) && (code =? hs_expectCode h))
  || existsb (fun c => code =? c) (hs_expectCodes h)
  || existsb (fun cls => Z.quot code 100 =? cls) (hs_expectClasses h).

(** [probe], given the status of the answer, if one came. *)
Definition probe (spec : HealthSpec) (answer : option Z) (f : healthFSM) : healthFSM * bool :=
  record f (match answer with Some code => Matches spec code | None => false end).

(** ** The mutable part of a backend *)

(** The zero [time.Time], in nanoseconds since the epoch. *)
Definition zeroTime : Z := -62135596800 * 1000000000.

Record backendState : Type := mkCell {
  c_inflight : Z;
  c_sem : Z;                   (* the tokens in the semaphore channel *)
  c_fsm : healthFSM;
  c_consecFail : Z;
  c_ejectUntil : Z
}.

Definition eligible (c : backendState) (now : Z) : bool :=
  if negb (f_up (c_fsm c)) then false else negb (now <? c_ejectUntil c).

Definition passiveSuccess (c : backendState) : backendState :=
  mkCell (c_inflight c) (c_sem c) (c_fsm c) 0 zeroTime.

Definition passiveFailure (threshold dur now : Z) (c : backendState) : backendState :=
  let n := c_consecFail c + 1 in
  mkCell (c_inflight c) (c_sem c) (c_fsm c) n (if threshold <=? n then TAdd now dur else c_ejectUntil c).

(** ** Configuration *)

Inductive Policy : Type := RoundRobin | LeastConn | Sticky | Shard.
Inductive ShardKey : Type := ShardNone | ShardURL | ShardKeyVal.

Record poolConfig : Type := mkPoolConfig {
  pc_policy : Policy;
  pc_shard : ShardKey;
  pc_health : option HealthSpec;
  pc_maxConns : Z;
  pc_replicas : Z
}.

Definition defaultPassiveThreshold : Z := 5.
Definition defaultEjectDuration : Z := 30 * 1000000000.

(** ** Choosing a backend *)

Section Pool.
Context (md5 : bytes -> bytes) (origins : nat -> origin) (u : nat) (cfg : poolConfig).

Definition underCap (b : backend) : oprog bool :=
  if pc_maxConns cfg =? 0 then ODone true
  else n <- ask (InflightOf (b_ref b));; ODone (n <? pc_maxConns cfg).

(** The predicate [ok] of [pick]. *)
Definition usable (exclude : bytes) (tried : list bytes) (now : Z) (b : backend) : oprog bool :=
  if negb (bool_decide (exclude = [])) && bool_decide (b_baseURL b = exclude) then ODone false
  else if bool_decide (b_id b ∈ tried) then ODone false
  else e <- ask (Eligible (b_ref b) now);; if (e : bool) then underCap b else ODone false.

Section Pick.
Context (ok : backend -> oprog bool).

(** The backends at [(start+i)%n], for [k] more values of [i]. *)
Fixpoint roundRobinLoop (backends : list backend) (start i : Z) (k : nat) : oprog (option backend) :=
  match k with
  | O => ODone None
  | S k =>
    let j := Z.rem (wrap64 (start + i)) (Z.of_nat (length backends)) in
    match (if j <? 0 then None else backends !! Z.to_nat j) with
    | Some b => good <- ok b;; if (good : bool) then ODone (Some b) else roundRobinLoop backends start (i + 1) k
    | None => x <- ask Panic;; match (x : Empty_set) with end
    end
  end.

Definition pickRoundRobin (backends : list backend) : oprog (option backend) :=
  start <- ask (NextRR u);; roundRobinLoop backends (wrap64 start) 0 (length backends).

Fixpoint leastConnLoop (backends : list backend) (best : option (backend * Z)) : oprog (option backend) :=
  match backends with
  | [] => ODone (fst <$> best)
  | b :: bs =>
    good <- ok b;;
    if (good : bool) then
      n <- ask (InflightOf (b_ref b));;
      leastConnLoop bs (match best with Some (_, bestN) => if n <? bestN then Some (b, n) else best | None => Some (b, n) end)
    else leastConnLoop bs best
  end.

Definition pickLeastConn (backends : list backend) : oprog (option backend) := leastConnLoop backends None.

(** [ring.lookup] with a predicate that reads the pool. *)
Fixpoint ringWalk (own : gmap Z bytes) (total : nat) (good : bytes -> oprog bool) (ps : list Z) (seen : list bytes) : oprog (option bytes) :=
  match ps with
  | [] => ODone None
  | p :: ps =>
    if Nat.ltb (length seen) total then
      let id := default [] (own !! p) in
      if containsString seen id then ringWalk own total good ps seen
      else
        g <- good id;;
        if (g : bool) then ODone (Some id) else ringWalk own total good ps (seen ++ [id])
    else ODone None
  end.

Definition ringLookup (r : ring) (key : bytes) (good : bytes -> oprog bool) : oprog (option bytes) :=
  match points r with
  | [] => ODone None
  | _ =>
    let idx := search (points r) (ringHash md5 key) in
    let idx := if Nat.eqb idx (length (points r)) then 0%nat else idx in
    ringWalk (owner r) (length (ids r)) good (rotate_from idx (points r)) []
  end.

Definition pickRing (r : ring) (byID : gmap bytes backend) (key : bytes) : oprog (option backend) :=
  id <- ringLookup r key (fun id => match byID !! id with Some b => ok b | None => ODone false end);;
  ODone (match id with Some id => byID !! id | None => None end).
End Pick.

Definition shardKey (cx : octx) (q : originRequest) : option bytes :=
  match pc_shard cfg with
  | ShardURL => Some (oq_key q)
  | ShardKeyVal => if bool_decide (cx_routingKey cx = []) then None else Some (cx_routingKey cx)
  | ShardNone => None
  end.

(** The switch of [pick] over the policy. *)
Definition pickFrom (cx : octx) (q : originRequest) (tried : list bytes) (v : view) (now : Z) : oprog (option backend) :=
  let '(backends, ring, byID) := v in
  let ok := usable (cx_exclude cx) tried now in
  match pc_policy cfg with
  | LeastConn => pickLeastConn ok backends
  | Sticky =>
    if bool_decide (cx_routingKey cx = []) then pickRoundRobin ok backends
    else pickRing ok ring byID (cx_routingKey cx)
  | Shard =>
    match shardKey cx q with
    | None => pickRoundRobin ok backends
    | Some key => pickRing ok ring byID key
    end
  | RoundRobin => pickRoundRobin ok backends
  end.

Definition pick (cx : octx) (q : originRequest) (tried : list bytes) : oprog (option backend) :=
  v <- ask (Snapshot u);;
  if bool_decide (fst (fst v) = []) then ODone None
  else now <- ask Clock;; pickFrom cx q tried v now.

(** ** Fetching *)

Definition isFailure (st : Z) : bool := (st =? 0) || ((500 <=? st) && (st <=? 599)).

Definition retriable (e : oerror) : bool :=
  match e with OAtCapacity => true | e => isFailure (statusOf e) end.

Definition recordOutcome (b : backend) (e : option oerror) : oprog unit :=
  match e with
  | None => ask (PassiveSuccess (b_ref b))
  | Some e =>
    if isFailure (statusOf e) then now <- ask Clock;; ask (PassiveFailure (b_ref b) now)
    else ask (PassiveSuccess (b_ref b))
  end.

Definition hasSem : bool := 0 <? pc_maxConns cfg.

Definition fetchOne (cx : octx) (b : backend) (q : originRequest) : oprog oresult :=
  free <- (if hasSem then ask (TryAcquire (b_ref b)) else ODone true);;
  if negb (free : bool) then ODone (inr OAtCapacity)
  else
    ask (AddInflight (b_ref b) 1);; ask (AddPool u 1);;
    flag <- ask NewFlag;;
    r <- origins (b_origin b) cx q;;
    match r with
    | inr e => releaseOnce flag u (b_ref b) hasSem;; recordOutcome b (Some e);; ODone (inr e)
    | inl resp =>
      recordOutcome b None;;
      let 'mkResponse st h len body neg := resp in
      ODone (inl (mkResponse st h len (Tracked body flag u (b_ref b) hasSem) neg))
    end.

(** The loop of [Fetch], for [fuel] attempts. *)
Fixpoint fetchLoop (fuel : nat) (cx : octx) (q : originRequest) (tried : list bytes) (lastErr : option oerror) : oprog oresult :=
  match fuel with
  | O => x <- ask Diverge;; match (x : Empty_set) with end
  | S fuel =>
    cancelled <- ask CtxErr;;
    if (cancelled : bool) then ODone (inr (default OTransport lastErr))
    else
      o <- pick cx q tried;;
      match o with
      | None => ODone (inr (default ONoBackend lastErr))
      | Some b =>
        r <- fetchOne cx b q;;
        match r with
        | inl resp => ODone (inl resp)
        | inr e =>
          if negb (retriable e) then ODone (inr e)
          else if oq_hasBody q then ODone (inr e)
          else fetchLoop fuel cx q (b_id b :: tried) (Some e)
        end
      end
  end.

Definition poolFetch (fuel : nat) : origin := fun cx q => fetchLoop fuel cx q [] None.

(** [Owner]. *)
Definition poolOwner (key : bytes) (healthyOnly : bool) : oprog (option bytes) :=
  v <- ask (Snapshot u);;
  let '(backends, ring, byID) := v in
  if bool_decide (backends = []) then ODone None
  else
    now <- ask Clock;;
    id <- ringLookup ring key (fun id =>
      if healthyOnly then
        match byID !! id with
        | Some b => e <- ask (Eligible (b_ref b) now);; if (e : bool) then underCap b else ODone false
        | None => ODone false
        end
      else ODone true);;
    ODone (match id with Some id => b_baseURL <$> byID !! id | None => None end).

(** [AnyHealthy]. *)
Fixpoint anyEligible (now : Z) (backends : list backend) : oprog bool :=
  match backends with
  | [] => ODone false
  | b :: bs => e <- ask (Eligible (b_ref b) now);; if (e : bool) then ODone true else anyEligible now bs
  end.

Definition AnyHealthy : oprog bool :=
  v <- ask (Snapshot u);; let '(backends, _, _) := v in now <- ask Clock;; anyEligible now backends.
End Pool.

(** ** The health of a backend *)

(** The state after some outcomes, oldest first. *)
Definition probed (f : healthFSM) (outcomes : list bool) : healthFSM := fold_left (fun f r => fst (record f r)) outcomes f.

Definition lastN {A : Type} (n : nat) (l : list A) : list A := drop (length l - n) l.

Definition count (r : bool) (l : list bool) : Z := Z.of_nat (length (List.filter (Bool.eqb r) l)).

Lemma tally_count l : tally l = (count true l, count false l).
Proof.
  unfold tally. enough (forall s f, fold_left (fun '(s, f) (r : bool) => if r then (s + 1, f) else (s, f + 1)) l (s, f) = (s + count true l, f + count false l)) as ->
    by by rewrite !Z.add_0_l.
  unfold count. induction l as [|[] l IH]; intros s f; cbn [fold_left List.filter Bool.eqb length]; [by rewrite !Z.add_0_r|..];
    rewrite IH; f_equal; lia.
Qed.

Lemma count_app r l1 l2 : count r (l1 ++ l2) = count r l1 + count r l2.
Proof. unfold count. rewrite List.filter_app, length_app. lia. Qed.

(** The buffer holds the last outcomes, rotated. *)
Record window_of (f : healthFSM) (w t : Z) (hist : list bool) : Prop := {
  wo_window : f_window f = w;
  wo_threshold : f_threshold f = t;
  wo_length : length (f_results f) = Z.to_nat w;
  wo_idx : f_idx f = Z.of_nat (length hist) mod w;
  wo_filled : f_filled f = Z.min (Z.of_nat (length hist)) w;
  wo_results : if Z.of_nat (length hist) <? w then take (length hist) (f_results f) = hist
    else drop (Z.to_nat (f_idx f)) (f_results f) ++ take (Z.to_nat (f_idx f)) (f_results f) = lastN (Z.to_nat w) hist
}.

Lemma window_of_new w t up : 0 < w -> 0 < t <= w -> window_of (newHealthFSM w t up) w t [].
Proof.
  intros Hw Ht. unfold newHealthFSM. destruct (Z.leb_spec w 0); [lia|]. destruct (Z.leb_spec t 0); [lia|]. destruct (Z.ltb_spec w t); [lia|].
  split; cbn [f_window f_threshold f_results f_idx f_filled]; [done|done|by rewrite length_replicate|by rewrite Z.mod_0_l by lia|cbn; lia|].
  by destruct (Z.ltb_spec (Z.of_nat (length (@nil bool))) w); [|cbn in *; lia].
Qed.

Lemma lastN_snoc {A} n (l : list A) x : (0 < n <= length l)%nat -> lastN n (l ++ [x]) = drop 1 (lastN n l) ++ [x].
Proof.
  intros Hn. unfold lastN. rewrite length_app, drop_drop. cbn [length]. rewrite drop_app_le by lia. do 2 f_equal. lia.
Qed.

Lemma lastN_all {A} n (l : list A) : (length l <= n)%nat -> lastN n l = l.
Proof. intros Hn. unfold lastN. by replace (length l - n)%nat with 0%nat by lia. Qed.

(** Replacing the oldest entry of a rotated buffer. *)
Lemma rotated_insert W (res h : list bool) i r : length res = W -> (i < W <= length h)%nat ->
  drop i res ++ take i res = lastN W h ->
  let i' := if Nat.eqb (S i) W then 0%nat else S i in
  drop i' (<[i := r]> res) ++ take i' (<[i := r]> res) = lastN W (h ++ [r]).
Proof.
  intros Hlen Hi Hrot. cbn zeta. rewrite lastN_snoc, <- Hrot by lia.
  assert (drop i res = default r (res !! i) :: drop (S i) res) as Hd.
  { destruct (res !! i) as [x|] eqn:E; [by apply drop_S|]. apply lookup_ge_None in E. lia. }
  assert (take (S i) (<[i := r]> res) = take i res ++ [r]) as Ht.
  { rewrite (take_S_r _ _ r) by (apply list_lookup_insert_eq; lia). by rewrite take_insert_ge by lia. }
  rewrite Hd. change (drop 1 ((_ :: drop (S i) res) ++ take i res)) with (drop (S i) res ++ take i res). rewrite <- app_assoc, <- Ht. destruct (Nat.eqb_spec (S i) W) as [E|E].
  - rewrite drop_0, take_0, app_nil_r, (drop_ge res), app_nil_l by lia. symmetry. apply take_ge. rewrite length_insert. lia.
  - by rewrite drop_insert_lt by lia.
Qed.

Lemma count_rotated r (l : list bool) i : count r (drop i l ++ take i l) = count r l.
Proof. rewrite count_app, Z.add_comm, <- count_app. by rewrite take_drop. Qed.

Lemma window_of_record f w t hist r : 0 < w -> window_of f w t hist ->
  window_of (fst (record f r)) w t (hist ++ [r]) /\
  f_up (fst (record f r)) =
    let recent := lastN (Z.to_nat w) (hist ++ [r]) in
    if f_up f then negb (t <=? count false recent) else t <=? count true recent.
Proof.
  intros Hw [Hwin Hthr Hlen Hidx Hfil Hres]. unfold record. rewrite Hwin, Hthr.
  set (n := length hist) in *. set (W := Z.to_nat w) in *. assert (length (hist ++ [r]) = S n) as Hn by (rewrite length_app; cbn; lia).
  set (results := <[_ := r]> _). set (idx := Z.rem _ _). set (filled := if f_filled f <? w then _ else _).
  assert (length results = W) as Hlen' by (unfold results; by rewrite length_insert).
  assert (0 <= f_idx f < w) as Hi by (rewrite Hidx; apply Z.mod_pos_bound; lia).
  assert (idx = Z.of_nat (S n) mod w) as Hidx'.
  { unfold idx. rewrite Z.rem_mod_nonneg by lia. rewrite Hidx, Zplus_mod_idemp_l. f_equal. lia. }
  assert (filled = Z.min (Z.of_nat (S n)) w) as Hfil' by (unfold filled; rewrite Hfil; destruct (Z.ltb_spec (Z.min (Z.of_nat n) w) w); lia).
  assert (if Z.of_nat (S n) <? w then take (S n) results = hist ++ [r]
          else drop (Z.to_nat idx) results ++ take (Z.to_nat idx) results = lastN W (hist ++ [r])) as Hres'.
  { destruct (Z.ltb_spec (Z.of_nat n) w) as [Hnw|Hnw].
    - assert (Z.to_nat (f_idx f) = n) as Hin by (rewrite Hidx, Z.mod_small by lia; lia).
      assert (take (S n) results = hist ++ [r]) as Ht.
      { unfold results. rewrite Hin. rewrite (take_S_r _ _ r) by (apply list_lookup_insert_eq; lia). by rewrite take_insert_ge, Hres by lia. }
      destruct (Z.ltb_spec (Z.of_nat (S n)) w); [done|]. rewrite Hidx'. replace (Z.of_nat (S n)) with w by lia. rewrite Z.mod_same by lia.
      rewrite drop_0, take_0, app_nil_r. rewrite lastN_all by lia. rewrite <- Ht. symmetry. apply take_ge. lia.
    - destruct (Z.ltb_spec (Z.of_nat (S n)) w); [lia|].
      pose proof (rotated_insert W (f_results f) hist (Z.to_nat (f_idx f)) r Hlen ltac:(lia) Hres) as Hr. cbn zeta in Hr.
      replace (Z.to_nat idx) with (if Nat.eqb (S (Z.to_nat (f_idx f))) W then 0%nat else S (Z.to_nat (f_idx f))); [done|].
      unfold idx. rewrite Z.rem_mod_nonneg by lia. destruct (Nat.eqb_spec (S (Z.to_nat (f_idx f))) W).
      + replace (f_idx f + 1) with w by lia. by rewrite Z.mod_same by lia.
      + rewrite Z.mod_small by lia. lia. }
  assert (forall x, count x (take (Z.to_nat filled) results) = count x (lastN W (hist ++ [r]))) as Hc.
  { intros x. rewrite Hfil'. destruct (Z.ltb_spec (Z.of_nat (S n)) w).
    - rewrite lastN_all by lia. replace (Z.to_nat (Z.min (Z.of_nat (S n)) w)) with (S n) by lia. by rewrite Hres'.
    - rewrite take_ge by lia. rewrite <- Hres'. by rewrite count_rotated. }
  rewrite tally_count. cbn zeta. rewrite !Hc. set (up := f_up f). rewrite <- Hn in *.
  destruct up; cbn [negb andb]; (destruct (t <=? _); cbn [fst f_up negb]; (split; [by split|done])).
Qed.

Lemma window_of_probed w t up hist : 0 < w -> 0 < t <= w -> window_of (probed (newHealthFSM w t up) hist) w t hist.
Proof.
  intros Hw Ht. induction hist as [|r hist IH] using rev_ind; [by apply window_of_new|].
  unfold probed. rewrite fold_left_app. by apply window_of_record.
Qed.

(** C25. A backend's health follows the last probes. After any sequence of probes, one
    more turns a backend that was up down exactly when the threshold is reached by the
    failures among the last [w] probes, and one that was down up exactly when it is reached
    by the successes; so [w] successes in a row bring a backend up, and [w] failures take it
    down, whatever came before. *)
Theorem health_follows_window w t up hist r :
  0 < w -> 0 < t <= w ->
  let f := newHealthFSM w t up in let recent := lastN (Z.to_nat w) (hist ++ [r]) in
  f_up (probed f (hist ++ [r])) =
    (if f_up (probed f hist) then negb (t <=? count false recent) else t <=? count true recent) /\
  (forall x, (Z.to_nat w <= length (hist ++ [r]))%nat -> Forall (eq x) recent -> f_up (probed f (hist ++ [r])) = x).
Proof.
  intros Hw Ht f recent. pose proof (window_of_probed w t up hist Hw Ht) as Hwin.
  destruct (window_of_record _ w t hist r Hw Hwin) as [_ Hup]. fold f recent in Hup. cbn zeta in Hup.
  assert (probed f (hist ++ [r]) = fst (record (probed f hist) r)) as -> by (unfold probed; by rewrite fold_left_app).
  split; [done|]. intros x Hlen Hall. rewrite Hup.
  assert (length recent = Z.to_nat w) as Hl by (unfold recent, lastN; rewrite length_drop; lia).
  assert (forall y, count y recent = if Bool.eqb y x then w else 0) as Hc.
  { intros y. unfold count. assert (List.filter (Bool.eqb y) recent = if Bool.eqb y x then recent else []) as ->.
    { clear -Hall. induction Hall as [|? l <- _ IH]; cbn; [by destruct (Bool.eqb y x)|]. destruct (Bool.eqb y x); by rewrite IH. }
    destruct (Bool.eqb y x); [lia|done]. }
  rewrite !Hc. destruct x, (f_up (probed f hist)); cbn [Bool.eqb]; destruct (Z.leb_spec t w), (Z.leb_spec t 0); try lia; done.
Qed.

Lemma health_follows_window_witness :
  f_up (probed (newHealthFSM 3 2 false) [true; false; true]) = true /\ f_up (probed (newHealthFSM 3 2 false) [true; false; true; false; false]) = false.
Proof.
  split; [vm_compute; reflexivity|].
  destruct (health_follows_window 3 2 false [true; false; true; false] false ltac:(lia) ltac:(lia)) as [H _].
  cbn [app] in H. rewrite H. vm_compute. reflexivity.
Defined.
