(* ===== verification/PoolProofs.v ===== *)
(** * What a pool promises

    A pool sends a request with a body once at most, chooses only backends that are
    usable, and, as long as one backend stays usable and answers, never fails a request
    that can be retried, whatever happens to the others meanwhile.  It does not close the
    bodies of the errors it fails over from. *)

From stdpp Require Import base strings pretty numbers gmap list.
From Stdlib Require Import Lia.
From S2P Require Import Prelude GoStrings Http Duration Path Freshness LbRing Act Origins Pool.
Open Scope Z_scope.
Open Scope oprog_scope.

Section Promises.
Context (md5 : bytes -> bytes) (origins : nat -> origin) (u : nat) (cfg : poolConfig).

(** ** Choosing only reads *)

Lemma underCap_read b : only isRead (underCap cfg b).
Proof. unfold underCap. eauto with only nocore. Qed.
#[local] Hint Resolve underCap_read : only.

Lemma usable_read exclude tried now b : only isRead (usable cfg exclude tried now b).
Proof. unfold usable. eauto 20 with only nocore. Qed.

Section Pick.
Context (ok : backend -> oprog bool) (Hok : forall b, only isRead (ok b)).

Lemma roundRobinLoop_read bs start i k : only isRead (roundRobinLoop ok bs start i k).
Proof. revert i. induction k as [|k IH]; intros i; cbn [roundRobinLoop]; eauto 20 with only nocore. Qed.

Lemma leastConnLoop_read bs best : only isRead (leastConnLoop ok bs best).
Proof. revert best. induction bs as [|b bs IH]; intros best; cbn [leastConnLoop]; eauto 20 with only nocore. Qed.
End Pick.

Lemma ringWalk_read own total good ps seen : (forall id, only isRead (good id)) -> only isRead (ringWalk own total good ps seen).
Proof. intros Hg. revert seen. induction ps as [|p ps IH]; intros seen; cbn [ringWalk]; eauto 20 with only nocore. Qed.

Lemma ringLookup_read r key good : (forall id, only isRead (good id)) -> only isRead (ringLookup md5 r key good).
Proof. intros Hg. unfold ringLookup. destruct (points r); [done|]. by apply ringWalk_read. Qed.

#[local] Hint Resolve usable_read roundRobinLoop_read leastConnLoop_read ringLookup_read : only.

Lemma roundRobinLoop_yields ok bs start i k : yields (roundRobinLoop ok bs start i k) (fun r => forall b, r = Some b -> b ∈ bs).
Proof.
  revert i. induction k as [|k IH]; intros i; cbn [roundRobinLoop]; [done|]. destruct (if _ : bool then _ else _) as [b|] eqn:E; [|by intros []].
  apply yields_bind. intros []; [|apply IH]. intros b' [= <-]. destruct (_ <? 0); [done|]. by eapply list_elem_of_lookup_2.
Qed.

Lemma leastConnLoop_yields ok (all bs : list backend) best :
  (forall b, fst <$> best = Some b -> b ∈ all) -> (forall b, b ∈ bs -> b ∈ all) -> yields (leastConnLoop ok bs best) (fun r => forall b, r = Some b -> b ∈ all).
Proof.
  revert best. induction bs as [|b bs IH]; intros best Hbest Hall; cbn [leastConnLoop]; [done|].
  assert (forall x, x ∈ bs -> x ∈ all) as Hall' by (intros x Hx; apply Hall; by right).
  apply yields_bind. intros []; [|by apply IH]. apply yields_bind. intros n. apply IH; [|done].
  assert (b ∈ all) by (apply Hall; by left). intros x. destruct best as [[y m]|]; [destruct (n <? m)|]; cbn; intros [= <-]; auto.
Qed.

Section PickFrom.
Context (cx : octx) (q : originRequest) (tried : list bytes) (v : view).

Lemma pickFrom_read now : only isRead (pickFrom md5 u cfg cx q tried v now).
Proof.
  destruct v as [[bs r] byID]. unfold pickFrom, pickLeastConn, pickRoundRobin, pickRing. destruct (pc_policy cfg); eauto 20 with only nocore.
Qed.

Lemma pickFrom_yields now : yields (pickFrom md5 u cfg cx q tried v now)
  (fun r => forall b, r = Some b -> b ∈ fst (fst v) \/ exists id, snd v !! id = Some b).
Proof.
  destruct v as [[bs r] byID]. unfold pickFrom. cbn [fst snd].
  assert (forall m : oprog (option backend), yields m (fun r => forall b, r = Some b -> b ∈ bs) ->
    yields m (fun r => forall b, r = Some b -> b ∈ bs \/ exists id, byID !! id = Some b)) as Hl.
  { intros m. induction m as [a|X e k IH]; cbn; [intros H b Hb; left; auto|auto]. }
  assert (yields (pickRoundRobin u (usable cfg (cx_exclude cx) tried now) bs) (fun r => forall b, r = Some b -> b ∈ bs)) as HRR
    by (unfold pickRoundRobin; apply yields_bind; intros; apply roundRobinLoop_yields).
  assert (forall key, yields (pickRing md5 (usable cfg (cx_exclude cx) tried now) r byID key)
    (fun r => forall b, r = Some b -> b ∈ bs \/ exists id, byID !! id = Some b)) as Hring
    by (intros key; unfold pickRing; apply yields_bind; intros [id|]; cbn; [eauto|discriminate]).
  destruct (pc_policy cfg); [auto| |destruct (bool_decide _); auto|destruct (shardKey cfg cx q); auto].
  apply Hl. by apply leastConnLoop_yields.
Qed.
End PickFrom.

Lemma pick_passive cx q tried : passive (pick md5 u cfg cx q tried).
Proof.
  unfold pick. apply only_bind; [done|]. intros v. destruct (bool_decide _); [done|]. apply only_bind; [done|]. intros now. apply read_passive, pickFrom_read.
Qed.

Lemma recordOutcome_read b e : only isRead (recordOutcome b e).
Proof. unfold recordOutcome. eauto 20 with only nocore. Qed.

Lemma poolOwner_passive key healthyOnly : passive (poolOwner md5 u cfg key healthyOnly).
Proof.
  unfold poolOwner. apply only_bind; [done|]. intros [[bs r] byID]. destruct (bool_decide _); [done|]. apply read_passive. eauto 20 with only nocore.
Qed.

(** ** A request with a body is sent once *)

Section Sends.
Context (Hsend : forall o, SendsOnce (origins o)).

Lemma fetchOne_sends cx b q n : owp sends (fetchOne origins u cfg cx b q) (sent q n) n.
Proof.
  unfold fetchOne. apply owp_bind, passive_sends; [eauto with only nocore|]. intros [|]; cbn [negb]; [|by left].
  repeat (apply owp_bind, passive_sends; [by apply only_ask|]; intros ?). eapply owp_conseq; [apply Hsend|]. cbn beta. intros [resp|e] n' Hs.
  - apply owp_bind, passive_sends; [apply read_passive, recordOutcome_read|]. intros _. destruct resp. destruct Hs as [-> |(? & -> & _)]; [by left|by right].
  - apply owp_bind, passive_sends; [apply release_passive|]. intros _. apply owp_bind, passive_sends; [apply read_passive, recordOutcome_read|]. done.
Qed.

#[export] Instance poolFetch_SendsOnce fuel : SendsOnce (poolFetch md5 origins u cfg fuel).
Proof.
  intros cx q n. unfold poolFetch. generalize (@nil bytes), (@None oerror). induction fuel as [|fuel IH]; intros tried lastErr; cbn [fetchLoop].
  { apply owp_bind, owp_ask; [done|]. intros []. }
  apply owp_bind, passive_sends; [by apply only_ask|]. intros []; [by left|].
  apply owp_bind, passive_sends; [apply pick_passive|]. intros [b|]; [|by left].
  eapply owp_conseq; [apply fetchOne_sends|]. cbn beta. intros [resp|e] n' Hs.
  - done.
  - destruct (negb (retriable e)); [done|]. destruct (oq_hasBody q) eqn:Eb; [done|]. destruct Hs as [-> |(? & _)]; [apply IH|congruence].
Qed.
End Sends.

(** ** Failover is complete

    One backend, [b0], stays in the pool, eligible, below its capacity and answering;
    everything else may change between any two steps. *)

Section Failover.
Context (ho : nat -> httpOrigin) (Horigins : forall o, origins o = httpFetch (ho o)).
Context (universe : list bytes) (b0 : backend).

(** A snapshot as [reconcile] leaves it. *)
Record consistent (v : view) : Prop := {
  cs_ids : NoDup (map b_id (fst (fst v)));
  cs_byID b : b ∈ fst (fst v) <-> snd v !! b_id b = Some b;
  cs_key id b : snd v !! id = Some b -> b_id b = id;
  cs_ring : newRing md5 (pc_replicas cfg) (map b_id (fst (fst v))) = Ok (snd (fst v));
  cs_fits : fits (pc_replicas cfg) (map b_id (fst (fst v)))
}.

Definition alive : logic unit := mkLogic unit
  (fun X e _ => match e with Panic | Diverge => False | _ => True end)
  (fun X e => match e in oeff X return X -> unit -> Prop with
     | CtxErr => fun x _ => x = false
     | Snapshot u' => fun v _ => u' = u -> consistent v /\ b0 ∈ fst (fst v) /\ incl (map b_id (fst (fst v))) universe /\ Z.of_nat (length (fst (fst v))) < 2 ^ 32
     | NextRR _ => fun x _ => 0 <= x < 2 ^ 62
     | Eligible b _ => fun x _ => b = b_ref b0 -> x = true
     | InflightOf b => fun n _ => b = b_ref b0 -> n < pc_maxConns cfg \/ pc_maxConns cfg = 0
     | TryAcquire b => fun x _ => b = b_ref b0 -> x = true
     | Exchange o _ => fun x _ => o = ho_dial (ho (b_origin b0)) -> exists st h len id, x = Some (st, h, len, id) /\ isFailure st = false
     | _ => fun _ _ => True end)
  (fun _ _ _ g => g).

Definition usableWhen (exclude : bytes) (tried : list bytes) (b : backend) : Prop :=
  (exclude = [] \/ b_baseURL b <> exclude) /\ b_id b ∉ tried.

Lemma usable_spec exclude tried now b :
  owp alive (usable cfg exclude tried now b)
    (fun r _ => (r = true -> usableWhen exclude tried b) /\ (usableWhen exclude tried b -> b = b0 -> r = true)) tt.
Proof.
  unfold usable, usableWhen. destruct (bool_decide_reflect (exclude = [])), (bool_decide_reflect (b_baseURL b = exclude)); cbn [negb andb];
    try (cbn; split; [done|naive_solver]);
    (destruct (bool_decide_reflect (b_id b ∈ tried)); [cbn; split; [done|naive_solver]|]);
    (apply owp_bind, owp_ask; [done|]; cbn; intros [] He; [|split; [done|]; intros _ ->; by specialize (He eq_refl)]);
    (unfold underCap; destruct (Z.eqb_spec (pc_maxConns cfg) 0); [naive_solver|]);
    (apply owp_bind, owp_ask; [done|]; cbn; intros m Hm; split; [naive_solver|]; intros _ ->; destruct (Hm eq_refl); [|done]; by apply Z.ltb_lt).
Qed.

Section Pick.
Context (ok : backend -> oprog bool) (P : backend -> Prop).
Context (Hok : forall b, owp alive (ok b) (fun r _ => (r = true -> P b) /\ (P b -> b = b0 -> r = true)) tt).

Lemma leastConnLoop_spec bs best : owp alive (leastConnLoop ok bs best)
  (fun r _ => (forall b, r = Some b -> (b ∈ bs /\ P b) \/ fst <$> best = Some b) /\ (is_Some best \/ (b0 ∈ bs /\ P b0) -> is_Some r)) tt.
Proof.
  revert best. induction bs as [|b bs IH]; intros best; cbn [leastConnLoop].
  - cbn. split; [naive_solver|]. intros [[x ->]|[[]%not_elem_of_nil _]]. by eexists.
  - eapply owp_conseq; [apply Hok|]. cbn beta. intros [] [] [H1 H2].
    + apply owp_bind, owp_ask; [done|]. intros m _. eapply owp_mono; [|apply IH]. cbn beta. intros r [] [H3 H4]. split.
      * intros b' Hb'. destruct (H3 b' Hb') as [[? ?]|Hbest]; [left; split; [by apply list_elem_of_further|done]|].
        destruct best as [[b2 n2]|]; [destruct (m <? n2)|]; cbn in Hbest; try (injection Hbest as <-; left; split; [by left|auto]). by right.
      * intros _. apply H4. left. destruct best as [[b2 n2]|]; [destruct (m <? n2)|]; by eexists.
    + eapply owp_mono; [|apply IH]. cbn beta. intros r [] [H3 H4]. split.
      * intros b' Hb'. destruct (H3 b' Hb') as [[? ?]|?]; [left; split; [by apply list_elem_of_further|done]|by right].
      * intros [?|[[-> |?]%elem_of_cons HP]]; apply H4; [by left|by specialize (H2 HP eq_refl)|by right].
Qed.

Lemma roundRobinLoop_spec bs start i k :
  0 <= start < 2 ^ 62 -> 0 <= i -> i + Z.of_nat k = Z.of_nat (length bs) -> Z.of_nat (length bs) < 2 ^ 32 ->
  owp alive (roundRobinLoop ok bs start i k)
    (fun r _ => (forall b, r = Some b -> b ∈ bs /\ P b) /\
      ((exists j, i <= j < Z.of_nat (length bs) /\ bs !! Z.to_nat ((start + j) mod Z.of_nat (length bs)) = Some b0) -> P b0 -> is_Some r)) tt.
Proof.
  intros Hs. revert i. induction k as [|k IH]; intros i Hi Hk Hn; cbn [roundRobinLoop].
  - cbn. split; [done|]. intros (j & Hj & _). lia.
  - assert (wrap64 (start + i) = start + i) as -> by (apply wrap64_small; lia).
    rewrite Z.rem_mod_nonneg by lia. pose proof (Z.mod_pos_bound (start + i) (Z.of_nat (length bs)) ltac:(lia)) as Hm.
    destruct (Z.ltb_spec ((start + i) mod Z.of_nat (length bs)) 0); [lia|].
    destruct (lookup_lt_is_Some_2 bs (Z.to_nat ((start + i) mod Z.of_nat (length bs))) ltac:(lia)) as [b Hb]. rewrite Hb.
    eapply owp_conseq; [apply Hok|]. cbn beta. intros [] [] [H1 H2].
    + cbn. split; [|by eexists]. intros b' [= <-]. split; [by eapply list_elem_of_lookup_2|auto].
    + eapply owp_mono; [|apply IH; lia]. cbn beta. intros r [] [H3 H4]. split; [done|]. intros (j & Hj & Hjb) HP.
      apply H4; [|done]. exists j. split; [|done]. enough (j <> i) by lia. intros ->. rewrite Hb in Hjb. injection Hjb as ->. by specialize (H2 HP eq_refl).
Qed.

Lemma pickRoundRobin_spec bs : Z.of_nat (length bs) < 2 ^ 32 -> owp alive (pickRoundRobin u ok bs)
  (fun r _ => (forall b, r = Some b -> b ∈ bs /\ P b) /\ (b0 ∈ bs -> P b0 -> is_Some r)) tt.
Proof.
  intros Hn. unfold pickRoundRobin. apply owp_bind, owp_ask; [done|]. cbn. intros start Hs.
  rewrite wrap64_small by lia. eapply owp_mono; [|apply roundRobinLoop_spec; [done|lia..]].
  cbn beta. intros r [] [H1 H2]. split; [done|]. intros [j Hj]%list_elem_of_lookup_1 HP. apply H2; [|done].
  pose proof (lookup_lt_Some _ _ _ Hj). exists ((Z.of_nat j - start) mod Z.of_nat (length bs)).
  split; [apply Z.mod_pos_bound; lia|]. rewrite Zplus_mod_idemp_r. replace (start + (Z.of_nat j - start)) with (Z.of_nat j) by lia.
  by rewrite Z.mod_small, Nat2Z.id by lia.
Qed.

Section Ring.
Context (byID : gmap bytes backend) (good : bytes -> oprog bool).
Context (Hgood : forall id, owp alive (good id)
  (fun g _ => (g = true -> exists b, byID !! id = Some b /\ P b) /\ (id = b_id b0 -> P b0 -> g = true)) tt).

Lemma ringWalk_any own total ps seen : owp alive (ringWalk own total good ps seen)
  (fun r _ => forall id, r = Some id -> exists b, byID !! id = Some b /\ P b) tt.
Proof.
  revert seen. induction ps as [|p ps IH]; intros seen; cbn [ringWalk]; [done|]. destruct (Nat.ltb _ _); [|done]. destruct (containsString _ _); [apply IH|].
  eapply owp_conseq; [apply Hgood|]. cbn beta. intros [] [] [H1 _]; [|apply IH]. cbn. intros x [= <-]. auto.
Qed.

Lemma ringWalk_spec own l ps seen :
  NoDup l -> Forall (fun p => default [] (own !! p) ∈ l) ps -> b_id b0 ∈ l -> NoDup seen -> incl seen l -> b_id b0 ∉ seen ->
  owp alive (ringWalk own (length l) good ps seen)
    (fun r _ => (forall id, r = Some id -> exists b, byID !! id = Some b /\ P b) /\
      ((exists p, p ∈ ps /\ own !! p = Some (b_id b0)) -> P b0 -> is_Some r)) tt.
Proof.
  intros Hl Hps H0. revert seen. induction Hps as [|p ps Hp Hps IH]; intros seen Hn Hsub Hns; cbn [ringWalk].
  - cbn. split; [done|]. by intros (p & []%not_elem_of_nil & _).
  - assert (length seen < length l)%nat as Hlt.
    { assert (length (b_id b0 :: seen) <= length l)%nat; [|cbn in *; lia]. apply List.NoDup_incl_length; [apply NoDup_ListNoDup; by constructor|].
      intros x [<- |Hx]; [by apply list_elem_of_In|by apply Hsub]. }
    apply Nat.ltb_lt in Hlt. rewrite Hlt. set (id := default [] (own !! p)) in *. rewrite containsString_elem. case_bool_decide as Hin.
    + eapply owp_mono; [|by apply IH]. cbn beta. intros r [] [H1 H2]. split; [done|]. intros (p' & [-> |Hp']%elem_of_cons & Hown) HP; [|eauto].
      exfalso. apply Hns. unfold id in Hin. by rewrite Hown in Hin.
    + eapply owp_conseq; [apply Hgood|]. cbn beta. intros [] [] [H1 H2].
      * cbn. split; [|by eexists]. intros x [= <-]. auto.
      * destruct (decide (id = b_id b0)) as [Eid|Eid].
        -- eapply owp_mono; [|apply ringWalk_any]. cbn beta. intros r [] H3. split; [done|]. intros _ HP. by specialize (H2 Eid HP).
        -- eapply owp_mono; [|apply IH].
           ++ cbn beta. intros r [] [H3 H4]. split; [done|]. intros (p' & [-> |Hp']%elem_of_cons & Hown) HP; [|eauto].
              exfalso. apply Eid. unfold id. by rewrite Hown.
           ++ apply NoDup_app. split_and!; [done| |apply NoDup_singleton]. by intros x Hx ->%list_elem_of_singleton.
           ++ intros x [Hx|[<- |[]]]%in_app_or; [by apply Hsub|by apply list_elem_of_In].
           ++ rewrite elem_of_app, list_elem_of_singleton. intros [?|?]; [done|congruence].
Qed.
End Ring.

Lemma pickRing_spec v key : consistent v -> b0 ∈ fst (fst v) -> owp alive (pickRing md5 ok (snd (fst v)) (snd v) key)
  (fun r _ => (forall b, r = Some b -> b ∈ fst (fst v) /\ P b) /\ (P b0 -> is_Some r)) tt.
Proof.
  intros [Hids HbyID Hkey Hring Hfits] H0. unfold pickRing.
  destruct (fits_ready md5 _ _ Hfits) as (r & Hr & [Hbuilt Hsorted] & Hrids). rewrite Hring in Hr. injection Hr as ->.
  assert (b_id b0 ∈ ids r) as Hin0. { rewrite Hrids. apply (distinct_elem md5). right. by apply list_elem_of_In, in_map, list_elem_of_In. }
  destruct (share_point _ r (b_id b0) (rounds_pos _ (proj1 Hfits)) Hbuilt Hin0) as [p Hp].
  destruct Hbuilt as [[Hn Hu Hd] Hi Ho _ _]. assert (p ∈ points r) as Hpp by (apply Hd; by eexists).
  unfold ringLookup. destruct (points r) as [|p1 ps] eqn:Eps; [by apply not_elem_of_nil in Hpp|]. rewrite <- Eps in *.
  pose proof (walk_order_perm (ringHash md5 key) (points r)) as Hperm. unfold walk_order in Hperm. cbn zeta in Hperm.
  eapply owp_conseq; [apply (ringWalk_spec (snd v)); [|done| |done|by apply NoDup_nil_2|by intros ? []|apply not_elem_of_nil]|].
  - intros id. cbn beta. destruct (snd v !! id) as [b|] eqn:Eb.
    + eapply owp_mono; [|apply Hok]. cbn beta. intros g [] [H1 H2]. split; [eauto|]. intros -> HP. apply H2; [|].
      all: apply HbyID in H0; rewrite Eb in H0; injection H0 as ->; done.
    + cbn. split; [done|]. intros -> _. apply HbyID in H0. congruence.
  - apply list.Forall_forall. intros x Hx. rewrite Hperm in Hx. apply Hd in Hx as [id Hid]. rewrite Hid. by eapply Ho.
  - cbn beta. intros id [] [H1 H2]. cbn. split.
    + intros b Hb. destruct id as [id|]; [|done]. destruct (H1 id eq_refl) as (b' & Hb' & HP). rewrite Hb in Hb'. injection Hb' as <-.
      split; [|done]. apply HbyID. by rewrite (Hkey _ _ Hb).
    + intros HP. destruct H2 as [id' ->]; [exists p; split; [by rewrite Hperm|done]|done|]. destruct (H1 id' eq_refl) as (b' & -> & _). by eexists.
Qed.
End Pick.

Lemma pick_spec cx q tried : owp alive (pick md5 u cfg cx q tried)
  (fun r _ => (forall b, r = Some b -> usableWhen (cx_exclude cx) tried b /\ b_id b ∈ universe /\ (b_id b = b_id b0 -> b = b0)) /\
    (usableWhen (cx_exclude cx) tried b0 -> is_Some r)) tt.
Proof.
  unfold pick. apply owp_bind, owp_ask; [done|]. cbn [lg_env alive lg_upd]. intros v Hv. destruct (Hv eq_refl) as (Hc & H0 & Huni & Hn). clear Hv.
  rewrite bool_decide_eq_false_2 by (intros E; rewrite E in H0; by apply not_elem_of_nil in H0). destruct v as [[bs r] byID]. cbn [fst snd] in H0, Huni, Hn.
  apply owp_bind, owp_ask; [done|]. intros now _. unfold pickFrom. set (ok := usable cfg (cx_exclude cx) tried now).
  assert (forall m : oprog (option backend), owp alive m (fun r _ => (forall b, r = Some b -> b ∈ bs /\ usableWhen (cx_exclude cx) tried b) /\
    (usableWhen (cx_exclude cx) tried b0 -> is_Some r)) tt -> owp alive m (fun r _ => (forall b, r = Some b -> usableWhen (cx_exclude cx) tried b /\ b_id b ∈ universe /\ (b_id b = b_id b0 -> b = b0)) /\
    (usableWhen (cx_exclude cx) tried b0 -> is_Some r)) tt) as Hin.
  { intros m. apply owp_mono. cbn beta. intros x [] [H1 H2]. split; [|done]. intros b Hb. destruct (H1 b Hb) as [Hbs Hus]. split_and!; [done| |].
    - apply list_elem_of_In, Huni, list_elem_of_In. by apply list_elem_of_In, in_map, list_elem_of_In.
    - intros E. apply (cs_byID _ Hc) in Hbs, H0. cbn in Hbs, H0. rewrite E in Hbs. congruence. }
  assert (forall b, owp alive (ok b) (fun r _ => (r = true -> usableWhen (cx_exclude cx) tried b) /\ (usableWhen (cx_exclude cx) tried b -> b = b0 -> r = true)) tt) as Hok
    by (intros b; apply usable_spec).
  assert (owp alive (pickRoundRobin u ok bs) (fun r _ => (forall b, r = Some b -> b ∈ bs /\ usableWhen (cx_exclude cx) tried b) /\
    (usableWhen (cx_exclude cx) tried b0 -> is_Some r)) tt) as HRR.
  { eapply owp_mono; [|by apply pickRoundRobin_spec]. cbn beta. intros x [] [H1 H2]. auto. }
  pose proof (fun key => pickRing_spec ok _ Hok (bs, r, byID) key Hc H0) as Hring. cbn [fst snd] in Hring.
  apply Hin. destruct (pc_policy cfg); [done| |destruct (bool_decide _); [done|apply Hring]|destruct (shardKey cfg cx q); [apply Hring|done]].
  unfold pickLeastConn. eapply owp_mono; [|apply leastConnLoop_spec, Hok]. cbn beta. intros x [] [H1 H2]. split; [|naive_solver].
  intros b Hb. destruct (H1 b Hb) as [?|?]; [done|]. done.
Qed.

(** An answer that no other backend would be asked about. *)
Definition settled (r : oresult) : Prop := match r with inl _ => True | inr e => retriable e = false end.

Lemma classifyAnswer_settled a : isFailure (fst (fst (fst a))) = false -> settled (classifyAnswer a).
Proof.
  destruct a as [[[st h] len] id]. cbn. intros Hf. unfold classifyAnswer. repeat destruct (_ || _); try done. destruct (_ && _); [done|].
  by destruct (negativeStatus st).
Qed.

Lemma release_alive flag pool be sem : owp alive (releaseOnce flag pool be sem) (fun _ _ => True) tt.
Proof.
  unfold releaseOnce. apply owp_bind, owp_ask; [done|]. intros [] _; [|done]. repeat (apply owp_bind, owp_ask; [done|]; intros ? _).
  by destruct sem; [apply owp_ask|].
Qed.

Lemma recordOutcome_alive b e : owp alive (recordOutcome b e) (fun _ _ => True) tt.
Proof.
  unfold recordOutcome. destruct e as [e|]; [destruct (isFailure _)|]; repeat first [apply owp_ask; [done|]; done|apply owp_bind, owp_ask; [done|]; intros ? _].
Qed.

Lemma fetchOne_spec cx b q path : urlFor (ho_basePath (ho (b_origin b0))) (oq_key q) = Ok path ->
  forallb validHeaderFieldByte (oq_method q) = true ->
  owp alive (fetchOne origins u cfg cx b q) (fun r _ => b = b0 -> settled r) tt.
Proof.
  intros Hu Hm. unfold fetchOne. eapply (owp_conseq _ _ _ (fun free _ => b = b0 -> free = true)).
  { destruct (hasSem cfg); [|done]. apply owp_ask; [done|]. cbn. intros x Hx ->. auto. }
  intros [] [] Hfree; cbn [negb]; [|cbn; intros ->; by specialize (Hfree eq_refl)].
  repeat (apply owp_bind, owp_ask; [done|]; intros ? _). eapply (owp_conseq _ _ _ (fun r _ => b = b0 -> settled r)).
  - rewrite Horigins. unfold httpFetch. destruct (urlFor (ho_basePath (ho (b_origin b))) (oq_key q)) eqn:Eu; [|cbn; intros ->; congruence..].
    set (method := if bool_decide (oq_method q = []) then go "GET" else oq_method q). assert (forallb validHeaderFieldByte method = true) as -> by (unfold method; by destruct (bool_decide _)).
    apply owp_bind, owp_ask; [done|]. cbn. intros ans Hans ->. destruct (Hans eq_refl) as (st & h & len & id & -> & Hst). by apply classifyAnswer_settled.
  - intros [resp|e] [] Hr.
    + unfold recordOutcome. apply owp_bind, owp_ask; [done|]. intros ? _. by destruct resp.
    + eapply owp_conseq; [apply release_alive|]. intros _ [] _. eapply owp_conseq; [apply recordOutcome_alive|]. by intros _ [] _.
Qed.

(** C11. One good backend is enough. While a request without a body is served, one
    backend stays in the pool, eligible, below its capacity, not excluded, and answers
    with anything but a server error; the other backends may come and go, fail, fill up
    and recover between any two steps. Then, under every policy, the fetch ends after at
    most one attempt per backend, with an answer and never with the failure of a
    backend. *)
Theorem failover_complete cx q path fuel :
  oq_hasBody q = false -> forallb validHeaderFieldByte (oq_method q) = true ->
  urlFor (ho_basePath (ho (b_origin b0))) (oq_key q) = Ok path ->
  cx_exclude cx = [] \/ b_baseURL b0 <> cx_exclude cx -> (length universe < fuel)%nat ->
  owp alive (poolFetch md5 origins u cfg fuel cx q) (fun r _ => settled r) tt.
Proof.
  intros Hb Hm Hu Hx. unfold poolFetch.
  enough (forall fuel tried lastErr, NoDup tried -> incl tried universe -> b_id b0 ∉ tried -> (length universe < fuel + length tried)%nat ->
    owp alive (fetchLoop md5 origins u cfg fuel cx q tried lastErr) (fun r _ => settled r) tt) as H.
  { intros Hf. apply H; [by apply NoDup_nil_2|by intros ? []|apply not_elem_of_nil|cbn; lia]. }
  clear fuel. induction fuel as [|fuel IH]; intros tried lastErr Hn Hsub H0 Hf; cbn [fetchLoop].
  { assert (length tried <= length universe)%nat; [|cbn in Hf; lia]. apply List.NoDup_incl_length; [by apply NoDup_ListNoDup|done]. }
  apply owp_bind, owp_ask; [done|]. intros cancelled Hc. cbn in Hc. subst. eapply owp_conseq; [apply pick_spec|]. cbn beta. intros o [] [H1 H2].
  destruct o as [b|]; [|by destruct (H2 (conj Hx H0))]. destruct (H1 b eq_refl) as ([_ Hnt] & Huni & Hsame).
  eapply owp_conseq; [by apply (fetchOne_spec cx b q path)|]. cbn beta. intros [resp|e] [] Hr; [done|].
  destruct (negb (retriable e)) eqn:Er; [by apply negb_true_iff in Er|]. rewrite Hb. apply negb_false_iff in Er.
  destruct (decide (b_id b = b_id b0)) as [E|E]; [specialize (Hr (Hsame E)); cbn in Hr; congruence|].
  apply IH; [by constructor| | |cbn; lia].
  - intros x [<- |Hx']; [by apply list_elem_of_In|by apply Hsub].
  - rewrite elem_of_cons. intros [?|?]; [congruence|done].
Qed.
End Failover.
End Promises.

(** ** Origins as a site composes them *)

Section Compose.
Context (md5 : bytes -> bytes).

Inductive originTree : Type :=
| THttp (o : httpOrigin)
| TPool (u : nat) (cfg : poolConfig) (servers : nat -> httpOrigin) (fuel : nat)
| TPeers (p : peerOrigin) (u : nat) (cfg : poolConfig) (servers : nat -> httpOrigin) (fuel : nat)
| TChain (fallThrough : oerror -> bool) (ts : list originTree).

Definition pool (u : nat) (cfg : poolConfig) (servers : nat -> httpOrigin) (fuel : nat) : origin :=
  poolFetch md5 (fun o => httpFetch (servers o)) u cfg fuel.

Fixpoint build (t : originTree) : origin :=
  match t with
  | THttp o => httpFetch o
  | TPool u cfg servers fuel => pool u cfg servers fuel
  | TPeers p u cfg servers fuel => peerFetch p (pool u cfg servers fuel) (fun key => poolOwner md5 u cfg key true)
  | TChain fallThrough ts => chainFetch fallThrough (map build ts)
  end.

Fixpoint withoutPools (t : originTree) : bool :=
  match t with THttp _ => true | TChain _ ts => forallb withoutPools ts | _ => false end.

Lemma originTree_rect' (P : originTree -> Prop) :
  (forall o, P (THttp o)) -> (forall u cfg servers fuel, P (TPool u cfg servers fuel)) ->
  (forall p u cfg servers fuel, P (TPeers p u cfg servers fuel)) ->
  (forall ft ts, Forall P ts -> P (TChain ft ts)) -> forall t, P t.
Proof.
  intros H1 H2 H3 H4. fix IH 1. intros [o|u cfg servers fuel|p u cfg servers fuel|ft ts]; [apply H1|apply H2|apply H3|]. apply H4.
  induction ts as [|t ts IHts]; constructor; [apply IH|apply IHts].
Qed.

(** C17. What origins promise, however they are composed. Of a request with a body, which
    is read while it is sent and cannot be sent again, at most one is put on the wire,
    through all chains, pools and peers, and none if the origin declines it. A server, and
    a chain of servers to any depth, closes exactly once every body that it opens and does
    not hand to its caller, and nothing else; this second promise excludes every tree with
    a pool in it, and so peers, which are reached through a pool (see
    [failover_leaks_body]). *)
Theorem origin_contract t :
  (forall cx q, owp sends (build t cx q) (sent q 0) 0%nat) /\
  (withoutPools t = true -> forall cx q open, owp ledger (build t cx q) (handed open) open).
Proof.
  enough (SendsOnce (build t) /\ (withoutPools t = true -> Closes (build t))) as [H1 H2] by (split; [intros cx q; apply H1|intros Hp; apply (H2 Hp)]).
  induction t as [o|u cfg servers fuel|p u cfg servers fuel|ft ts IH] using originTree_rect'; cbn [build withoutPools].
  - split; intros; apply _.
  - split; [|done]. apply poolFetch_SendsOnce. intros o. apply _.
  - split; [|done]. apply peerFetch_SendsOnce; [intros key; apply poolOwner_passive|]. apply poolFetch_SendsOnce. intros o. apply _.
  - split.
    + apply chainFetch_SendsOnce. apply Forall_map. eapply list.Forall_impl; [exact IH|]. by intros t [? _].
    + intros Hp. apply chainFetch_Closes. apply Forall_map. rewrite forallb_forall in Hp. rewrite list.Forall_forall in IH |- *.
      intros t Ht. apply IH; [done|]. apply Hp. by apply list_elem_of_In.
Qed.
End Compose.

(** ** Two backends *)

Section Examples.

Definition first : backend := mkBackend 0 (go "a") (go "http://a:80") (go "a") 0.
Definition second : backend := mkBackend 1 (go "b") (go "http://b:80") (go "b") 1.
Definition twoIds : list bytes := [go "a"; go "b"].
Definition twoRing : ring := match newRing toyDigest 4 twoIds with Ok r => r | _ => mkRing 0 [] ∅ [] end.
Definition twoView : view := ([first; second], twoRing, <[go "a" := first]> (<[go "b" := second]> ∅)).
Definition twoConfig : poolConfig := mkPoolConfig RoundRobin ShardNone None 0 4.
Definition twoOrigins (o : nat) : httpOrigin := mkHttpOrigin o [] HostPreserve [].
Definition twoPool : origin := poolFetch toyDigest (fun o => httpFetch (twoOrigins o)) 0 twoConfig 3.

Definition getPage : originRequest := mkOReq (go "GET") (go "/page") [] ∅ (go "example.com") false false [].

(** The first backend answers 503, the second 200. *)
Definition halfDown (X : Type) (e : oeff X) : option X :=
  match e in oeff X return option X with
  | CtxErr => Some false
  | Snapshot _ => Some twoView
  | Clock | InflightOf _ | NextRR _ => Some 0
  | Eligible _ _ | TryAcquire _ | SwapFlag _ => Some true
  | NewFlag => Some 0%nat
  | Exchange o _ => Some (Some (if Nat.eqb o 0 then (503, ∅, 4, 1%nat) else (200, ∅, 5, 2%nat)))
  | Panic | Diverge => None
  | CloseRaw _ | ReleaseSem _ | AddInflight _ _ | AddPool _ _ | PassiveSuccess _ | PassiveFailure _ _ => Some tt
  end.

Lemma twoView_consistent : consistent toyDigest twoConfig twoView.
Proof.
  split.
  - cbn. apply (bool_decide_unpack _). by vm_compute.
  - intros b. cbn. rewrite !elem_of_cons, lookup_insert_Some, lookup_insert_Some, lookup_empty. 
    split.
    + intros [-> |[-> |[]%not_elem_of_nil]]; [by left|]. right. split; [by apply (bool_decide_unpack _)|]. by left.
    + intros [[_ <-]|(_ & [[_ <-]|[_ ?]])]; naive_solver.
  - cbn. intros id b. rewrite !lookup_insert_Some, lookup_empty. intros [[<- <-]|(_ & [[<- <-]|[_ ?]])]; done.
  - vm_compute. reflexivity.
  - split; [by vm_compute|]. by vm_compute.
Qed.

Lemma halfDown_alive X (e : oeff X) x g : halfDown X e = Some x -> lg_env (alive toyDigest 0 twoConfig twoOrigins twoIds second) e x g.
Proof.
  destruct e; cbn; try done; intros [= <-]; try done; try lia.
  - intros ->. cbn. by eexists 200, ∅, 5, 2%nat.
  - intros _. split_and!; [apply twoView_consistent|by apply list_elem_of_further, list_elem_of_here|exact (fun _ H => H)|by vm_compute].
Qed.

Lemma failover_complete_witness :
  let L := alive toyDigest 0 twoConfig twoOrigins twoIds second in
  exists r, orun L halfDown (twoPool (mkOctx [] []) getPage) tt = Some (r, tt) /\ settled r.
Proof.
  intros L. destruct (orun L halfDown (twoPool (mkOctx [] []) getPage) tt) as [[r []]|] eqn:E; [|vm_compute in E; discriminate E].
  exists r. split; [reflexivity|]. revert E. apply (owp_run L halfDown _ (fun r _ => settled r)).
  - apply (failover_complete toyDigest (fun o => httpFetch (twoOrigins o)) 0 twoConfig twoOrigins (fun o => eq_refl) twoIds second (mkOctx [] []) getPage (go "/page") 3);
      [reflexivity|reflexivity|reflexivity|left; reflexivity|cbn; lia].
  - apply follows_all. apply halfDown_alive.
Defined.

(** A server, and behind it a chain of two more. *)
Definition demoTree : originTree :=
  TChain DefaultFallThrough [THttp (twoOrigins 0); TChain DefaultFallThrough [THttp (twoOrigins 1); THttp (twoOrigins 2)]].

Lemma origin_contract_witness :
  owp sends (build toyDigest demoTree (mkOctx [] []) getPage) (sent getPage 0) 0%nat /\
  owp ledger (build toyDigest demoTree (mkOctx [] []) getPage) (handed ∅) ∅.
Proof.
  destruct (origin_contract toyDigest demoTree) as [H1 H2]. split; [apply H1|apply H2; reflexivity].
Defined.

(** The bodies a run opens and closes. *)
Inductive bodyEvent : Type := Opened (id : nat) | Closed (id : nat).

Fixpoint bodyTrace {A : Type} (w : forall X, oeff X -> option X) (m : oprog A) : list bodyEvent :=
  match m with
  | ODone _ => []
  | @ODo _ X e k =>
    match w _ e with
    | Some x =>
      match e in oeff X return X -> list bodyEvent with
      | Exchange _ _ => fun x => match x with Some (_, _, _, id) => [Opened id] | None => [] end
      | CloseRaw id => fun _ => [Closed id]
      | _ => fun _ => []
      end x ++ bodyTrace w (k x)
    | None => []
    end
  end.

(** The caller closes the body of the response it is given. *)
Definition served (o : origin) (cx : octx) (q : originRequest) : oprog unit :=
  r <- o cx q;; match r with inl resp => closeBody (rs_body resp) | inr e => closeStatusErrBody (Some e) end.

(** C36. Failover leaks the body of the answer it abandons. The servers of a pool keep the
    contract of an origin and the caller closes what it is given; but when the first
    backend answers 503 and the second 200, the body of the 503, which holds a connection,
    is opened and never closed, so the pool does not keep the contract. A chain of the same
    two servers closes it. *)
Theorem failover_leaks_body :
  (forall o, Closes (httpFetch (twoOrigins o))) /\
  bodyTrace halfDown (served twoPool (mkOctx [] []) getPage) = [Opened 1; Opened 2; Closed 2] /\
  ~ Closes twoPool /\
  bodyTrace halfDown (served (chainFetch DefaultFallThrough [httpFetch (twoOrigins 0); httpFetch (twoOrigins 1)]) (mkOctx [] []) getPage)
    = [Opened 1; Opened 2; Closed 1; Closed 2].
Proof.
  split_and!; [intros o; apply _|vm_compute; reflexivity| |vm_compute; reflexivity].
  intros Hc. destruct (orun ledger halfDown (twoPool (mkOctx [] []) getPage) ∅) as [[r g]|] eqn:E; [|by vm_compute in E].
  assert (handed ∅ r g) as Hh.
  { revert E. apply (owp_run ledger halfDown _ (handed ∅)); [apply Hc|]. vm_compute. repeat split; congruence. }
  vm_compute in E. injection E as <- <-. destruct Hh as [_ Hh]. by vm_compute in Hh.
Qed.
End Examples.
