(* ===== verification/PoolSystem.v ===== *)
(** * A pool at work

    The state of a pool and of its backends, the reconciliation of the backends with what
    the targets resolve to ([resolveOnce], [reconcile] of src/internal/lb/upstream.go), and
    any number of fetches, probes and reconciliations interleaved at every effect.

    The theorems: reconciliation keeps the backends that stay, with their health and their
    requests; and the accounting of requests is exact under every interleaving. *)

From stdpp Require Import base strings pretty numbers gmap list.
From Stdlib Require Import Lia.
From S2P Require Import Prelude GoStrings Http Duration Path Freshness LbRing Act Origins Pool PoolProofs.
Open Scope Z_scope.
Open Scope oprog_scope.

(** ** State *)

(** Backends are allocated at increasing addresses and keep their cells; bodies and
    flags are numbered as they are made. An open body has the status of its answer. *)
Record pstate : Type := mkPstate {
  ps_view : view;
  ps_cells : nat -> backendState;
  ps_nextRef : nat;
  ps_rr : Z;
  ps_inflight : Z;
  ps_released : gset nat;
  ps_nextFlag : nat;
  ps_open : gmap nat Z;
  ps_nextRaw : nat
}.

Definition on_cell (b : nat) (f : backendState -> backendState) (s : pstate) : pstate :=
  mkPstate (ps_view s) (fun a => if Nat.eqb a b then f (ps_cells s b) else ps_cells s a) (ps_nextRef s) (ps_rr s) (ps_inflight s)
    (ps_released s) (ps_nextFlag s) (ps_open s) (ps_nextRaw s).

(** ** Reconciliation *)

Record endpoint : Type := mkEndpoint { e_id : bytes; e_baseURL : bytes; e_raw : bytes }.

Section Reconcile.
Context (md5 : bytes -> bytes) (cfg : poolConfig) (newOrigin : endpoint -> option nat).

(** The health of a new backend. *)
Definition initialCell : backendState :=
  mkCell 0 0
    (match pc_health cfg with Some h => newHealthFSM (hs_window h) (hs_threshold h) false | None => newHealthFSM 1 1 true end)
    0 zeroTime.

Definition makeBackend (ref : nat) (e : endpoint) : option backend :=
  match newOrigin e with Some o => Some (mkBackend ref (e_id e) (e_baseURL e) (e_raw e) o) | None => None end.

(** The loop over [desired], in the order in which the map is iterated; [next] is the
    next free address. *)
Fixpoint desiredLoop (byID : gmap bytes backend) (desired : list endpoint) (next : nat) : list backend * nat :=
  match desired with
  | [] => ([], next)
  | e :: es =>
    match byID !! e_id e with
    | Some old => let '(bs, n) := desiredLoop byID es next in (old :: bs, n)
    | None =>
      match makeBackend next e with
      | Some b => let '(bs, n) := desiredLoop byID es (S next) in (b :: bs, n)
      | None => desiredLoop byID es next
      end
    end
  end.

(** The backends kept because their target failed to resolve; [olds] lists those of
    [byID] in the order in which it is iterated. *)
Definition retained (kept : list backend) (failed : list bytes) (olds : list backend) : list backend :=
  filter (fun b => (b_id b ∉ map b_id kept) /\ b_raw b ∈ failed) olds.

Definition index (bs : list backend) : gmap bytes backend := list_to_map (map (fun b => (b_id b, b)) bs).

Definition reconcile (desired : list endpoint) (failed : list bytes) (olds : list backend) (s : pstate) : outcome Empty_set pstate :=
  let '(_, _, byID) := ps_view s in
  let '(kept, next) := desiredLoop byID desired (ps_nextRef s) in
  let bs := kept ++ retained kept failed olds in
  let! r := newRing md5 (pc_replicas cfg) (map b_id bs) in
  Ok (mkPstate (bs, r, index bs)
        (fun a => if (ps_nextRef s <=? a)%nat && (a <? next)%nat then initialCell else ps_cells s a)
        next (ps_rr s) (ps_inflight s) (ps_released s) (ps_nextFlag s) (ps_open s) (ps_nextRaw s)).

(** What the targets resolve to: one result per target, with its token; a target that
    fails keeps its backends. *)
Definition resolveOnce (results : list (bytes * option (list endpoint))) : list endpoint * list bytes :=
  (map snd (map_to_list (list_to_map (rev (flat_map (fun r => match snd r with Some es => map (fun e => (e_id e, e)) es | None => [] end) results)) : gmap bytes endpoint)),
   flat_map (fun r => match snd r with Some _ => [] | None => [fst r] end) results).

(** ** Reconciliation keeps what stays *)

Record view_ok (s : pstate) : Prop := {
  vo_ids : NoDup (map b_id (fst (fst (ps_view s))));
  vo_byID : snd (ps_view s) = index (fst (fst (ps_view s)));
  vo_refs : Forall (fun b => (b_ref b < ps_nextRef s)%nat) (fst (fst (ps_view s)))
}.

Lemma index_Some bs id b : index bs !! id = Some b -> b ∈ bs /\ b_id b = id.
Proof.
  unfold index. intros H%elem_of_list_to_map_2. apply list_elem_of_In, in_map_iff in H as (b' & [= <- <-] & H). by apply list_elem_of_In in H.
Qed.

Lemma index_elem bs b : NoDup (map b_id bs) -> b ∈ bs <-> index bs !! b_id b = Some b.
Proof.
  intros Hn. split; [|by intros []%index_Some]. intros Hb. unfold index. apply elem_of_list_to_map_1.
  - rewrite <- list_fmap_compose. done.
  - apply list_elem_of_In, in_map_iff. exists b. split; [done|by apply list_elem_of_In].
Qed.

Section Loop.
Context (byID : gmap bytes backend) (Hkey : forall id b, byID !! id = Some b -> b_id b = id).

Lemma desiredLoop_spec desired next : let '(bs, n) := desiredLoop byID desired next in
  (next <= n)%nat /\
  (forall b, b ∈ bs -> b_id b ∈ map e_id desired /\ (byID !! b_id b = Some b \/ byID !! b_id b = None /\ (next <= b_ref b < n)%nat)) /\
  (forall b, byID !! b_id b = Some b -> b_id b ∈ map e_id desired -> b ∈ bs) /\
  (NoDup (map e_id desired) -> NoDup (map b_id bs)) /\ (length bs <= length desired)%nat.
Proof.
  revert next. induction desired as [|e es IH]; intros next; cbn [desiredLoop map].
  - split_and!; [done|by intros ? ?%not_elem_of_nil|by intros ? _ ?%not_elem_of_nil|done|done].
  - destruct (byID !! e_id e) as [old|] eqn:Eo; [|destruct (makeBackend next e) as [b|] eqn:Eb].
    + specialize (IH next). destruct (desiredLoop byID es next) as [bs n]. destruct IH as (H1 & H2 & H3 & H4 & H5). pose proof (Hkey _ _ Eo) as Hid.
      split_and!; [done| | | |cbn; lia].
      * intros b [-> |Hb]%elem_of_cons; [rewrite Hid; split; [by left|by left]|]. destruct (H2 b Hb). split; [by right|done].
      * intros b Hb [E|Hin]%elem_of_cons; [|by right; apply H3]. rewrite E in Hb. replace b with old by congruence. by left.
      * intros [Hn Hnd]%NoDup_cons. cbn. apply NoDup_cons. split; [|auto]. rewrite Hid. intros Hin. apply Hn.
        apply list_elem_of_In, in_map_iff in Hin as (b & <- & Hb). apply (H2 b). by apply list_elem_of_In.
    + unfold makeBackend in Eb. destruct (newOrigin e) as [o|]; [|done]. injection Eb as <-.
      specialize (IH (S next)). destruct (desiredLoop byID es (S next)) as [bs n]. destruct IH as (H1 & H2 & H3 & H4 & H5).
      split_and!; [lia| | | |cbn; lia].
      * intros b [-> |Hb]%elem_of_cons; [cbn; split; [by left|]; right; split; [done|lia]|]. destruct (H2 b Hb) as [? [?|[? ?]]]; (split; [by right|]); [by left|right; split; [done|lia]].
      * intros b Hb [E|Hin]%elem_of_cons; [rewrite E in Hb; congruence|right; by apply H3].
      * intros [Hn Hnd]%NoDup_cons. cbn. apply NoDup_cons. split; [|auto]. intros Hin. apply Hn.
        apply list_elem_of_In, in_map_iff in Hin as (b & <- & Hb). apply (H2 b). by apply list_elem_of_In.
    + specialize (IH next). destruct (desiredLoop byID es next) as [bs n]. destruct IH as (H1 & H2 & H3 & H4 & H5).
      split_and!; [done| | | |cbn; lia].
      * intros b Hb. destruct (H2 b Hb). split; [by right|done].
      * intros b Hb [E|Hin]%elem_of_cons; [rewrite E in Hb; congruence|by apply H3].
      * intros [_ Hnd]%NoDup_cons. auto.
Qed.
End Loop.

Lemma retained_elem kept failed olds b : b ∈ retained kept failed olds <-> b ∈ olds /\ (b_id b ∉ map b_id kept) /\ b_raw b ∈ failed.
Proof. unfold retained. rewrite list_elem_of_filter. tauto. Qed.

Lemma retained_NoDup kept failed olds : NoDup (map b_id kept) -> NoDup (map b_id olds) -> NoDup (map b_id (kept ++ retained kept failed olds)).
Proof.
  intros Hk Ho. rewrite map_app. apply NoDup_app. split_and!; [done| |].
  - intros id Hin Hr. apply list_elem_of_In, in_map_iff in Hr as (b & <- & Hb). apply list_elem_of_In, retained_elem in Hb. tauto.
  - eapply sublist_NoDup; [exact Ho|]. apply (fmap_sublist b_id), sublist_filter.
Qed.

(** What a reconciliation that returns has done. *)
Record reconciled (s s' : pstate) (desired : list endpoint) (failed : list bytes) : Prop := {
  rc_view : view_ok s';
  rc_ring : newRing md5 (pc_replicas cfg) (map b_id (fst (fst (ps_view s')))) = Ok (snd (fst (ps_view s')));
  rc_stay b : b ∈ fst (fst (ps_view s)) -> b ∈ fst (fst (ps_view s')) <-> b_id b ∈ map e_id desired \/ b_raw b ∈ failed;
  rc_new b : b ∈ fst (fst (ps_view s')) -> b ∉ fst (fst (ps_view s)) -> (ps_nextRef s <= b_ref b < ps_nextRef s')%nat /\ b_id b ∈ map e_id desired;
  rc_next : (ps_nextRef s <= ps_nextRef s')%nat;
  rc_cells a : ps_cells s' a = if (ps_nextRef s <=? a)%nat && (a <? ps_nextRef s')%nat then initialCell else ps_cells s a;
  rc_frame : ps_inflight s' = ps_inflight s /\ ps_released s' = ps_released s /\ ps_nextFlag s' = ps_nextFlag s /\
    ps_open s' = ps_open s /\ ps_nextRaw s' = ps_nextRaw s
}.

Lemma reconcile_spec s s' desired failed olds : view_ok s -> NoDup (map e_id desired) -> Permutation olds (fst (fst (ps_view s))) ->
  reconcile desired failed olds s = Ok s' -> reconciled s s' desired failed.
Proof.
  intros [Hids HbyID Hrefs] Hnd Hperm. unfold reconcile. destruct (ps_view s) as [[old r0] byID] eqn:Ev. cbn [fst snd] in *. subst byID.
  pose proof (desiredLoop_spec (index old) (fun id b H => proj2 (index_Some _ _ _ H)) desired (ps_nextRef s)) as H.
  destruct (desiredLoop (index old) desired (ps_nextRef s)) as [kept next]. destruct H as (H1 & H2 & H3 & H4 & H5).
  assert (forall b, b ∈ retained kept failed olds <-> b ∈ old /\ (b_id b ∉ map b_id kept) /\ b_raw b ∈ failed) as Hret
    by (intros b; by rewrite retained_elem, Hperm).
  assert (NoDup (map b_id (kept ++ retained kept failed olds))) as Hbs by (apply retained_NoDup; [auto|by rewrite Hperm]).
  set (bs := kept ++ retained kept failed olds) in *. destruct (newRing _ _ _) as [r|[]|] eqn:Er; [|done].
  cbn [Prelude.obind]. intros [= <-]. rewrite list.Forall_forall in Hrefs.
  assert (forall b, b ∈ bs -> b ∉ old -> b ∈ kept /\ (ps_nextRef s <= b_ref b < next)%nat) as Hnew.
  { unfold bs. intros b [Hk|Hk]%elem_of_app Hno; [|by apply Hret in Hk as [? _]]. split; [done|].
    destruct (H2 b Hk) as [_ [Hi%(index_elem old b Hids)|[_ ?]]]; [done|done]. }
  split; rewrite ?Ev; cbn [ps_view ps_cells ps_nextRef ps_inflight ps_open ps_released ps_nextFlag ps_nextRaw fst snd]; [|done| | |done|done|done].
  - split; [done|done|]. apply list.Forall_forall. intros b Hb. cbn [ps_nextRef].
    destruct (decide (b ∈ old)) as [Ho|Ho]; [specialize (Hrefs b Ho); lia|]. destruct (Hnew b Hb Ho) as [_ ?]; lia.
  - intros b Hb. pose proof (proj1 (index_elem old b Hids) Hb) as Hib. unfold bs. rewrite elem_of_app, Hret. split.
    + intros [Hk|(_ & _ & ?)]; [left; by apply H2|by right].
    + intros [Hd|Hf]; [left; auto|]. destruct (decide (b_id b ∈ map b_id kept)) as [Hk|Hk]; [left|by right].
      apply list_elem_of_In, in_map_iff in Hk as (b' & E & Hk). apply list_elem_of_In in Hk.
      destruct (H2 b' Hk) as [_ [Hi|[Hi _]]]; rewrite E in Hi; congruence.
  - intros b Hb Ho. destruct (Hnew b Hb Ho) as [Hk Hin]. split; [done|by apply H2].
Qed.

(** A reconciliation returns when the points of the backends it may keep fit the ring. *)
Lemma reconcile_returns s desired failed olds : view_ok s ->
  pc_replicas cfg <= maxReplicas -> Z.of_nat (length desired + length olds) * (rounds_of (pc_replicas cfg) * 4) <= 2 ^ 32 ->
  exists s', reconcile desired failed olds s = Ok s' /\ fits (pc_replicas cfg) (map b_id (fst (fst (ps_view s')))).
Proof.
  intros [_ HbyID _] Hrep Hfit. unfold reconcile. destruct (ps_view s) as [[old r0] byID]. cbn [fst snd] in HbyID. subst byID.
  pose proof (desiredLoop_spec (index old) (fun id b H => proj2 (index_Some _ _ _ H)) desired (ps_nextRef s)) as H.
  destruct (desiredLoop (index old) desired (ps_nextRef s)) as [kept next]. destruct H as (_ & _ & _ & _ & Hlen).
  set (bs := kept ++ retained kept failed olds). assert (fits (pc_replicas cfg) (map b_id bs)) as Hfits.
  { split; [done|]. rewrite length_map. unfold bs, retained. rewrite length_app.
    pose proof (length_filter (fun b => (b_id b ∉ map b_id kept) /\ b_raw b ∈ failed) olds). pose proof (rounds_pos _ Hrep). nia. }
  destruct (fits_ready md5 _ _ Hfits) as (r & Hr & _ & _). rewrite Hr. cbn [Prelude.obind]. by eexists.
Qed.

(** C24. A new resolution keeps the backends that stay. Whatever the order in which the
    maps are iterated, a backend whose endpoint is still there, or whose target failed to
    resolve, stays in the pool as it is, with its health, its ejection and the requests
    it serves; one that is gone is dropped; one that is new gets an address of its own and
    a clean state; and the list, the index and the ring agree. *)
Theorem reconcile_keeps s desired failed olds :
  view_ok s -> NoDup (map e_id desired) -> Permutation olds (fst (fst (ps_view s))) ->
  pc_replicas cfg <= maxReplicas -> Z.of_nat (length desired + length olds) * (rounds_of (pc_replicas cfg) * 4) <= 2 ^ 32 ->
  exists s', reconcile desired failed olds s = Ok s' /\ view_ok s' /\ consistent md5 cfg (ps_view s') /\
    (forall b, b ∈ fst (fst (ps_view s)) ->
       (b ∈ fst (fst (ps_view s')) <-> b_id b ∈ map e_id desired \/ b_raw b ∈ failed) /\ ps_cells s' (b_ref b) = ps_cells s (b_ref b)) /\
    (forall b, b ∈ fst (fst (ps_view s')) -> b ∉ fst (fst (ps_view s)) ->
       (ps_nextRef s <= b_ref b < ps_nextRef s')%nat /\ b_id b ∈ map e_id desired /\ ps_cells s' (b_ref b) = initialCell) /\
    ps_inflight s' = ps_inflight s /\ ps_open s' = ps_open s.
Proof.
  intros Hv Hnd Hperm Hrep Hfit. destruct (reconcile_returns s desired failed olds Hv Hrep Hfit) as (s' & Hs' & Hfits).
  destruct (reconcile_spec _ _ _ _ _ Hv Hnd Hperm Hs') as [Hv' Hring Hstay Hnew Hnext Hcells (Hinf & _ & _ & Hop & _)].
  exists s'. split_and!; [done|done| | | |done|done].
  - destruct Hv' as [Hids HbyID _]. split; [done| | |done|done]; intros *; rewrite HbyID; [by apply index_elem|by intros []%index_Some].
  - intros b Hb. split; [auto|]. destruct Hv as [_ _ Hrefs]. rewrite list.Forall_forall in Hrefs. specialize (Hrefs b Hb).
    rewrite Hcells. by destruct (Nat.leb_spec (ps_nextRef s) (b_ref b)); [lia|].
  - intros b Hb Ho. destruct (Hnew b Hb Ho) as [Hin Hd]. split_and!; [lia|lia|done|]. rewrite Hcells.
    destruct (Nat.leb_spec (ps_nextRef s) (b_ref b)), (Nat.ltb_spec (b_ref b) (ps_nextRef s')); (done || lia).
Qed.
End Reconcile.

(** ** Fetches, probes and reconciliations interleaved *)

Section System.
Context (md5 : bytes -> bytes) (servers : nat -> httpOrigin) (u : nat) (cfg : poolConfig) (newOrigin : endpoint -> option nat).

(** A status whose answer is handed to the client as a response. *)
Definition isResponse (st : Z) : bool := match classifyAnswer (st, ∅, 0, 0%nat) with inl _ => true | inr _ => false end.

(** The answers an effect can have in a state, and the state after it. *)
Definition possible (s : pstate) {X : Type} (e : oeff X) : X -> Prop :=
  match e in oeff X return X -> Prop with
  | Exchange _ _ => fun x => match x with Some (_, _, _, id) => id = ps_nextRaw s | None => True end
  | Snapshot _ => fun v => v = ps_view s
  | Eligible b now => fun x => x = eligible (ps_cells s b) now
  | InflightOf b => fun n => n = c_inflight (ps_cells s b)
  | NextRR _ => fun n => n = ps_rr s mod 2 ^ 64
  | TryAcquire b => fun x => x = (c_sem (ps_cells s b) <? pc_maxConns cfg)
  | ReleaseSem b => fun _ => 0 < c_sem (ps_cells s b)
  | NewFlag => fun t => t = ps_nextFlag s
  | SwapFlag t => fun x => x = bool_decide (t ∉ ps_released s)
  | CtxErr | Clock | CloseRaw _ | AddInflight _ _ | AddPool _ _ | PassiveSuccess _ | PassiveFailure _ _ | Panic | Diverge => fun _ => True
  end.

Definition add_inflight (d : Z) (c : backendState) : backendState := mkCell (c_inflight c + d) (c_sem c) (c_fsm c) (c_consecFail c) (c_ejectUntil c).
Definition add_sem (d : Z) (c : backendState) : backendState := mkCell (c_inflight c) (c_sem c + d) (c_fsm c) (c_consecFail c) (c_ejectUntil c).
Definition set_fsm (f : healthFSM) (c : backendState) : backendState := mkCell (c_inflight c) (c_sem c) f (c_consecFail c) (c_ejectUntil c).

Definition after (s : pstate) {X : Type} (e : oeff X) : X -> pstate :=
  let 'mkPstate v cells nr rr inf rel nf op nraw := s in
  match e in oeff X return X -> pstate with
  | Exchange _ _ => fun x =>
    match x with Some (st, _, _, id) => mkPstate v cells nr rr inf rel nf (<[id := st]> op) (S nraw) | None => s end
  | CloseRaw id => fun _ => mkPstate v cells nr rr inf rel nf (delete id op) nraw
  | NextRR _ => fun _ => mkPstate v cells nr (rr + 1) inf rel nf op nraw
  | TryAcquire b => fun x => if (x : bool) then on_cell b (add_sem 1) s else s
  | ReleaseSem b => fun _ => on_cell b (add_sem (-1)) s
  | AddInflight b d => fun _ => on_cell b (add_inflight d) s
  | AddPool _ d => fun _ => mkPstate v cells nr rr (inf + d) rel nf op nraw
  | NewFlag => fun _ => mkPstate v cells nr rr inf rel (S nf) op nraw
  | SwapFlag t => fun _ => mkPstate v cells nr rr inf ({[t]} ∪ rel) nf op nraw
  | PassiveSuccess b => fun _ => on_cell b passiveSuccess s
  | PassiveFailure b now => fun _ => on_cell b (passiveFailure defaultPassiveThreshold defaultEjectDuration now) s
  | CtxErr | Clock | Snapshot _ | Eligible _ _ | InflightOf _ | Panic | Diverge => fun _ => s
  end.

Fixpoint closeTimes (n : nat) (b : body) : oprog unit :=
  match n with O => ODone tt | S n => closeBody b;; closeTimes n b end.

(** A request: the fetch, and what its caller does with the answer; a body is closed at
    least once, perhaps more often. *)
Definition request (fuel : nat) (cx : octx) (q : originRequest) (extra : nat) : oprog unit :=
  r <- poolFetch md5 (fun o => httpFetch (servers o)) u cfg fuel cx q;;
  match r with
  | inl resp => closeTimes (S extra) (rs_body resp)
  | inr e => closeStatusErrBody (Some e)
  end.

Abbreviation sys := (pstate * list (oprog unit))%type.

Inductive sstep : sys -> sys -> Prop :=
| SRun s ts i X (e : oeff X) k x : ts !! i = Some (ODo e k) -> possible s e x -> sstep (s, ts) (after s e x, <[i := k x]> ts)
| SStart s ts fuel cx q extra : sstep (s, ts) (s, ts ++ [request fuel cx q extra])
| SProbe s ts b spec answer : sstep (s, ts) (on_cell b (fun c => set_fsm (fst (probe spec answer (c_fsm c))) c) s, ts)
| SReconcile s ts desired failed olds s' :
  NoDup (map e_id desired) -> Permutation olds (fst (fst (ps_view s))) ->
  reconcile md5 cfg newOrigin desired failed olds s = Ok s' -> sstep (s, ts) (s', ts).

Definition emptyPool : pstate :=
  mkPstate ([], mkRing (wrap64 (rounds_of (pc_replicas cfg) * 4)) [] ∅ [], ∅) (fun _ => initialCell cfg) 0 0 0 ∅ 0 ∅ 0.

Definition reachable : sys -> Prop := rtc sstep (emptyPool, []).

(** ** The protocol a fetch follows

    The phases of an attempt, by what is held at each: a token of the semaphore, a unit of
    the backend's counter, a unit of the pool's counter, an unset flag and an open
    response. *)

Inductive phase : Type :=
| Idle
| Acquired (b : nat)
| Counted (b : nat)
| Entered (b : nat)
| Live (b flag : nat) (raw : option nat)
| Uncounted0 (b : nat)
| Uncounted (b : nat)
| Leaving (b : nat).

(** With the phase: the flags it has set, the bodies it may close again, and a bound of the
    backends it knows. *)
Record pghost : Type := mkPghost { g_phase : phase; g_flags : gset nat; g_raws : gset nat; g_bound : nat }.

Definition with_phase (p : phase) (g : pghost) : pghost := mkPghost p (g_flags g) (g_raws g) (g_bound g).

Definition viewBound (v : view) : nat := fold_right (fun b n => Nat.max (S (b_ref b)) n) 0%nat (fst (fst v)).

Definition protocol : logic pghost := mkLogic pghost
  (fun X e g =>
    match e with
    | TryAcquire b => g_phase g = Idle /\ (b < g_bound g)%nat /\ hasSem cfg = true
    | AddInflight b d =>
      d = 1 /\ (b < g_bound g)%nat /\ g_phase g = (if hasSem cfg then Acquired b else Idle) \/ d = -1 /\ g_phase g = Uncounted0 b
    | AddPool _ d => d = 1 /\ (exists b, g_phase g = Counted b) \/ d = -1 /\ (exists b, g_phase g = Uncounted b)
    | NewFlag => exists b, g_phase g = Entered b
    | Exchange _ _ => exists b t, g_phase g = Live b t None
    | CloseRaw id => (exists b t, g_phase g = Live b t (Some id)) \/ id ∈ g_raws g
    | SwapFlag t => (exists b, g_phase g = Live b t None) \/ t ∈ g_flags g
    | ReleaseSem b => g_phase g = Leaving b /\ hasSem cfg = true
    | _ => True
    end)
  (fun X e => match e in oeff X return X -> pghost -> Prop with
    | SwapFlag t => fun x g => x = true <-> exists b, g_phase g = Live b t None
    | Snapshot _ => fun v _ => snd v = index (fst (fst v))
    | _ => fun _ _ => True
    end)
  (fun X e => match e in oeff X return X -> pghost -> pghost with
    | TryAcquire b => fun x g => if (x : bool) then with_phase (Acquired b) g else g
    | AddInflight b d => fun _ g => with_phase (if d =? 1 then Counted b else Uncounted b) g
    | AddPool _ _ => fun _ g =>
      match g_phase g with
      | Counted b => with_phase (Entered b) g
      | Uncounted b => with_phase (if hasSem cfg then Leaving b else Idle) g
      | _ => g
      end
    | NewFlag => fun t g => match g_phase g with Entered b => with_phase (Live b t None) g | _ => g end
    | Exchange _ _ => fun x g =>
      match x, g_phase g with
      | Some (st, _, _, id), Live b t _ =>
        if isResponse st then with_phase (Live b t (Some id)) g else mkPghost (g_phase g) (g_flags g) ({[id]} ∪ g_raws g) (g_bound g)
      | _, _ => g
      end
    | CloseRaw id => fun _ g =>
      match g_phase g with
      | Live b t (Some id') => if Nat.eqb id id' then mkPghost (Live b t None) (g_flags g) ({[id]} ∪ g_raws g) (g_bound g) else g
      | _ => g
      end
    | SwapFlag t => fun x g =>
      match g_phase g with
      | Live b t' None => if Nat.eqb t t' then mkPghost (Uncounted0 b) ({[t]} ∪ g_flags g) (g_raws g) (g_bound g) else g
      | _ => g
      end
    | ReleaseSem _ => fun _ g => with_phase Idle g
    | Snapshot _ => fun v g => mkPghost (g_phase g) (g_flags g) (g_raws g) (Nat.max (g_bound g) (viewBound v))
    | _ => fun _ g => g
    end).

(** Later ghost states know more. *)
Definition grows (g g' : pghost) : Prop := g_flags g ⊆ g_flags g' /\ g_raws g ⊆ g_raws g' /\ (g_bound g <= g_bound g')%nat.

Lemma grows_trans g1 g2 g3 : grows g1 g2 -> grows g2 g3 -> grows g1 g3.
Proof. unfold grows. intros (? & ? & ?) (? & ? & ?). split_and!; [set_solver|set_solver|lia]. Qed.

Lemma release_protocol t b g : g_phase g = Live b t None ->
  owp protocol (releaseOnce t u b (hasSem cfg)) (fun _ g' => g_phase g' = Idle /\ t ∈ g_flags g' /\ grows g g') g.
Proof.
  intros Hp. unfold releaseOnce. apply owp_bind, owp_ask; [left; eauto|]. cbn. intros x Hx. rewrite Hp, Nat.eqb_refl. destruct x; [|discriminate (proj2 Hx (ex_intro _ b Hp))].
  split; [by right|]. intros ? _. split; [right; eauto|]. intros ? _. cbn. destruct (hasSem cfg) eqn:Es.
  - split; [done|]. intros ? _. unfold grows. cbn. set_solver.
  - unfold grows. cbn. set_solver.
Qed.

Lemma read_protocol {A} (m : oprog A) Q g : only isRead m -> (forall a, Q a g) -> owp protocol m Q g.
Proof. apply only_owp; [by intros X []|by intros X []]. Qed.

Lemma viewBound_lt v b : b ∈ fst (fst v) -> (b_ref b < viewBound v)%nat.
Proof. unfold viewBound. induction (fst (fst v)) as [|x l IH]; [by intros ?%not_elem_of_nil|]. intros [-> |Hb]%elem_of_cons; cbn; [|specialize (IH Hb)]; lia. Qed.

Lemma pick_protocol cx q tried g : owp protocol (pick md5 u cfg cx q tried)
  (fun r g' => g_phase g' = g_phase g /\ grows g g' /\ forall b, r = Some b -> (b_ref b < g_bound g')%nat) g.
Proof.
  unfold pick. apply owp_bind, owp_ask; [done|]. intros v Hv. cbn [lg_env lg_upd protocol] in *.
  set (g1 := mkPghost _ _ _ _). assert (grows g g1) as Hg by (unfold grows; cbn; split_and!; [done|done|lia]).
  destruct (bool_decide _); [done|]. apply owp_bind, owp_ask; [done|]. intros now _. cbn [lg_upd protocol].
  eapply owp_mono; [|apply (owp_yields _ _ (fun g' => g' = g1)); [apply read_protocol; [apply pickFrom_read|done]|apply pickFrom_yields]].
  cbn beta. intros r g' [-> Hr]. split_and!; [done|done|]. intros b Hb. cbn. pose proof (viewBound_lt v b) as Hlt.
  destruct (Hr b Hb) as [Hin|[id Hin]]; [specialize (Hlt Hin); lia|]. rewrite Hv in Hin. apply index_Some in Hin as [Hin _]. specialize (Hlt Hin). lia.
Qed.

(** A failed attempt holds nothing; the body its error carries may be closed. *)
Definition errorHeld (e : oerror) (g : pghost) : Prop :=
  match e with OStatus _ _ (Some b) _ => exists id, b = Raw id /\ id ∈ g_raws g | _ => True end.

(** What the caller of a fetch holds. *)
Definition holding (r : oresult) (g : pghost) : Prop :=
  match r with
  | inl resp => exists id t b, rs_body resp = Tracked (Raw id) t u b (hasSem cfg) /\ g_phase g = Live b t (Some id)
  | inr e => g_phase g = Idle /\ errorHeld e g
  end.

Lemma errorHeld_grows e g g' : grows g g' -> errorHeld e g -> errorHeld e g'.
Proof. intros (_ & H & _). destruct e as [| |? ? [b|] ?| | |]; cbn; auto. intros (id & -> & Hid). eauto. Qed.

Lemma httpFetch_protocol o cx q b t g : g_phase g = Live b t None ->
  owp protocol (httpFetch o cx q)
    (fun r g' => grows g g' /\ match r with
      | inl resp => exists id, rs_body resp = Raw id /\ g_phase g' = Live b t (Some id)
      | inr e => g_phase g' = Live b t None /\ errorHeld e g' end) g.
Proof.
  intros Hp. assert (grows g g) as Hgg by done. unfold httpFetch. destruct (urlFor (ho_basePath o) (oq_key q)); [|done..].
  destruct (forallb _ _); [|done]. apply owp_bind, owp_ask; [cbn; eauto|]. intros [[[[st h] len] id]|] _; cbn [owp]; [|done].
  cbn [lg_upd protocol]. rewrite Hp. unfold isResponse, classifyAnswer.
  destruct (_ || _); [cbn; eauto|]. destruct (_ && _); [cbn; eauto|]. destruct (negativeStatus st); [cbn; eauto|].
  cbn. unfold grows. cbn. split; [set_solver|]. split; [done|]. eexists. split; [done|]. set_solver.
Qed.

Lemma fetchOne_protocol cx b q g : g_phase g = Idle -> (b_ref b < g_bound g)%nat ->
  owp protocol (fetchOne (fun o => httpFetch (servers o)) u cfg cx b q) (fun r g' => grows g g' /\ holding r g') g.
Proof.
  intros Hp Hb. unfold fetchOne. apply (owp_conseq _ _ _ (fun free g' => grows g g' /\ (b_ref b < g_bound g')%nat /\
    g_phase g' = if (free : bool) && hasSem cfg then Acquired (b_ref b) else Idle)).
  { destruct (hasSem cfg) eqn:Es; [|done]. apply owp_ask; [done|]. by intros [] _. }
  intros [] g1 (Hg1 & Hb1 & Hp1); cbn [negb andb] in *; [|done].
  apply owp_bind, owp_ask; [by left|]. intros ? _. apply owp_bind, owp_ask; [cbn; eauto|]. intros ? _.
  apply owp_bind, owp_ask; [cbn; eauto|]. intros t _. cbn [lg_upd protocol Z.eqb with_phase g_phase].
  match goal with |- owp _ _ _ ?g => set (g2 := g) end. assert (grows g g2 /\ g_phase g2 = Live (b_ref b) t None) as [Hg2 Hp2] by done.
  clearbody g2. clear Hp1 Hg1 Hb1 g1. eapply owp_conseq; [by apply httpFetch_protocol|]. intros r g3 [Hg3 Hr].
  assert (grows g g3) as Hgg by (eapply grows_trans; done). destruct r as [resp|e].
  - destruct Hr as (id & Hid & Hp3). apply owp_bind. apply read_protocol; [apply recordOutcome_read|]. intros ?. destruct resp as [st h len bd neg]. cbn in *.
    split; [done|]. exists id, t, (b_ref b). by rewrite Hid.
  - destruct Hr as [Hp3 He]. eapply owp_conseq; [by apply release_protocol|]. intros ? g4 (Hp4 & _ & Hg4).
    apply owp_bind, read_protocol; [apply recordOutcome_read|]. intros ?. split; [by eapply grows_trans|]. split; [done|]. by eapply errorHeld_grows.
Qed.

Lemma fetchLoop_protocol fuel cx q tried lastErr g : g_phase g = Idle -> (forall e, lastErr = Some e -> errorHeld e g) ->
  owp protocol (fetchLoop md5 (fun o => httpFetch (servers o)) u cfg fuel cx q tried lastErr) holding g.
Proof.
  revert tried lastErr g. induction fuel as [|fuel IH]; intros tried lastErr g Hp He; cbn [fetchLoop]; [by split|].
  assert (forall d g', d = OTransport \/ d = ONoBackend -> g_phase g' = Idle -> grows g g' -> holding (inr (default d lastErr)) g') as Hend.
  { intros d g' Hd Hp' Hg. split; [done|]. destruct lastErr as [e|]; cbn; [eapply errorHeld_grows; eauto|]. by destruct Hd as [-> | ->]. }
  apply owp_bind, owp_ask; [done|]. intros [] _; [apply Hend; auto; done|].
  eapply owp_conseq; [apply pick_protocol|]. intros [b|] g1 (Hp1 & Hg1 & Hb); [|apply Hend; [auto|exact (eq_trans Hp1 Hp)|done]].
  eapply owp_conseq; [apply fetchOne_protocol; [exact (eq_trans Hp1 Hp)|eauto]|]. intros [resp|e] g2 [Hg2 Hh]; [done|].
  destruct (retriable e); [|done]. destruct (oq_hasBody q); [done|]. destruct Hh. apply IH; [done|]. by intros ? [= <-].
Qed.

(** The first close of a body ends the attempt; the later ones do nothing. *)
Lemma close_protocol id t b g : g_phase g = Live b t (Some id) ->
  owp protocol (closeBody (Tracked (Raw id) t u b (hasSem cfg))) (fun _ g' => g_phase g' = Idle /\ t ∈ g_flags g' /\ id ∈ g_raws g') g.
Proof.
  intros Hp. cbn [closeBody]. apply owp_bind, owp_ask; [left; eauto|]. intros ? _. cbn [lg_upd protocol]. rewrite Hp, Nat.eqb_refl.
  eapply owp_mono; [|by apply release_protocol]. intros ? g' (Hp' & Ht & _ & Hr & _). split_and!; [done|done|]. apply Hr. cbn. set_solver.
Qed.

Lemma close_again_protocol n id t b g : g_phase g = Idle -> t ∈ g_flags g -> id ∈ g_raws g ->
  owp protocol (closeTimes n (Tracked (Raw id) t u b (hasSem cfg))) (fun _ g' => g_phase g' = Idle) g.
Proof.
  intros Hp Ht Hid. induction n as [|n IH]; cbn [closeTimes]; [done|]. apply owp_bind. cbn [closeBody].
  apply owp_bind, owp_ask; [by right|]. intros ? _. cbn [lg_upd protocol]. rewrite Hp. unfold releaseOnce.
  apply owp_bind, owp_ask; [by right|]. intros first Hx. cbn in Hx. rewrite Hp in Hx. destruct first; [|cbn [lg_upd protocol]; by rewrite Hp].
  destruct (proj1 Hx eq_refl) as [? [=]].
Qed.

Lemma request_protocol fuel cx q extra g : g_phase g = Idle -> owp protocol (request fuel cx q extra) (fun _ g' => g_phase g' = Idle) g.
Proof.
  intros Hp. unfold request, poolFetch. eapply owp_conseq; [by apply fetchLoop_protocol|]. intros [resp|e] g' Hh.
  - destruct Hh as (id & t & b & -> & Hp'). cbn [closeTimes]. eapply owp_conseq; [by apply close_protocol|].
    intros ? g2 (? & ? & ?). by apply close_again_protocol.
  - destruct Hh as [Hp' He]. destruct e as [| |? ? [b|] ?| | |]; try done. destruct He as (id & -> & Hid).
    cbn [closeStatusErrBody closeBody]. apply owp_ask; [by right|]. intros ? _. cbn [lg_upd protocol]. by rewrite Hp'.
Qed.
End System.
