(* ===== verification/PoolTheorems.v ===== *)
(** * The accounting of a pool

    An invariant of every state that interleaved fetches, probes and reconciliations of a
    pool reach: each counter is the number of the attempts in the phases that count, each
    attempt has a flag of its own, and each response that is open has an attempt that
    holds it. *)

From stdpp Require Import base strings pretty numbers gmap list.
From Stdlib Require Import Lia.
From S2P Require Import Prelude GoStrings Http Duration Path Freshness LbRing Act Origins Pool PoolProofs PoolSystem.
Open Scope Z_scope.
Open Scope oprog_scope.

Lemma sumZ_le {A} (f g : A -> Z) l : (forall x, x ∈ l -> f x <= g x) -> sumZ f l <= sumZ g l.
Proof.
  induction l as [|x l IH]; intros H; cbn [sumZ]; [done|]. apply Z.add_le_mono; [apply H; by left|apply IH; intros; apply H; by right].
Qed.

Section Invariant.
Context (md5 : bytes -> bytes) (servers : nat -> httpOrigin) (u : nat) (cfg : poolConfig) (newOrigin : endpoint -> option nat).

(** ** The counters *)

Definition placeOf (p : phase) : option nat :=
  match p with
  | Idle => None
  | Acquired b | Counted b | Entered b | Live b _ _ | Uncounted0 b | Uncounted b | Leaving b => Some b
  end.

Definition is_at (o : option nat) (b : nat) : Z := if bool_decide (o = Some b) then 1 else 0.

(** What an attempt holds: a unit of the counter of [b], a token of [b], a unit of the
    counter of the pool. *)
Definition counted (b : nat) (g : pghost) : Z :=
  match g_phase g with Counted _ | Entered _ | Live _ _ _ | Uncounted0 _ => is_at (placeOf (g_phase g)) b | _ => 0 end.

Definition token (b : nat) (g : pghost) : Z := if hasSem cfg then is_at (placeOf (g_phase g)) b else 0.

Definition entered (g : pghost) : Z :=
  match g_phase g with Entered _ | Live _ _ _ | Uncounted0 _ | Uncounted _ => 1 | _ => 0 end.

Record counters (s : pstate) (gs : list pghost) : Prop := {
  ct_inflight : forall b, c_inflight (ps_cells s b) = sumZ (counted b) gs;
  ct_sem : forall b, c_sem (ps_cells s b) = sumZ (token b) gs;
  ct_pool : ps_inflight s = sumZ entered gs;
  ct_cap : forall b, c_sem (ps_cells s b) <= Z.max 0 (pc_maxConns cfg);
  ct_bound : forall i g, gs !! i = Some g -> (g_bound g <= ps_nextRef s)%nat /\ forall b, placeOf (g_phase g) = Some b -> (b < g_bound g)%nat
}.

Lemma counters_step s s' gs i g g' : gs !! i = Some g -> counters s gs -> ps_nextRef s' = ps_nextRef s ->
  (forall b, c_inflight (ps_cells s' b) = c_inflight (ps_cells s b) + counted b g' - counted b g) ->
  (forall b, c_sem (ps_cells s' b) = c_sem (ps_cells s b) + token b g' - token b g) ->
  ps_inflight s' = ps_inflight s + entered g' - entered g ->
  (forall b, c_sem (ps_cells s' b) <= Z.max 0 (pc_maxConns cfg)) ->
  ((g_bound g' <= ps_nextRef s)%nat /\ forall b, placeOf (g_phase g') = Some b -> (b < g_bound g')%nat) ->
  counters s' (<[i := g']> gs).
Proof.
  intros Hi [H1 H2 H3 H4 H5] Hn Hinf Hsem Hpool Hcap Hb. split.
  - intros b. rewrite Hinf, (sumZ_insert _ _ _ _ _ Hi), H1. lia.
  - intros b. rewrite Hsem, (sumZ_insert _ _ _ _ _ Hi), H2. lia.
  - rewrite Hpool, (sumZ_insert _ _ _ _ _ Hi), H3. lia.
  - done.
  - rewrite Hn. intros j h [(-> & -> & _)|[_ Hj]]%list_lookup_insert_Some; eauto.
Qed.

(** The ghost state may learn flags and bodies, and a larger bound. *)
Lemma counters_learn s s' gs i g g' : gs !! i = Some g -> counters s gs -> ps_nextRef s' = ps_nextRef s ->
  (forall b, c_inflight (ps_cells s' b) = c_inflight (ps_cells s b) /\ c_sem (ps_cells s' b) = c_sem (ps_cells s b)) -> ps_inflight s' = ps_inflight s ->
  g_phase g' = g_phase g -> (g_bound g <= g_bound g' <= ps_nextRef s)%nat -> counters s' (<[i := g']> gs).
Proof.
  intros Hi Hc Hn Hcells Hpool Hp Hb. pose proof Hc as [_ _ _ H4 H5]. destruct (H5 i g Hi) as [_ Hg].
  apply (counters_step s s' gs i g g'); try done; unfold counted, token, entered; rewrite ?Hp.
  - intros b. destruct (Hcells b) as [-> _]. lia.
  - intros b. destruct (Hcells b) as [_ ->]. lia.
  - lia.
  - intros b. destruct (Hcells b) as [_ ->]. apply H4.
  - split; [lia|]. intros b E. specialize (Hg b E). lia.
Qed.

Ltac solve_counts Hp Hgp Hcap :=
  cbn in Hgp; rewrite ?Hp in Hgp; cbn in Hgp;
  unfold counted, token, entered, with_phase, is_at; cbn; rewrite ?Hp; cbn;
  try done; try lia; try (split; [lia|]; intros ? [= <-]; (lia || by apply Hgp));
  let b' := fresh in intros b'; pose proof (Hcap b');
  try (match goal with |- context [Nat.eqb b' ?b] => destruct (Nat.eqb_spec b' b); [subst b'|] end);
  repeat case_bool_decide; try destruct (hasSem _); simplify_eq; cbn; lia.

Lemma counters_after s gs i g {X} (e : oeff X) x : gs !! i = Some g -> view_ok s -> counters s gs ->
  lg_pre (protocol cfg) e g -> possible cfg s e x -> counters (after s e x) (<[i := lg_upd (protocol cfg) e x g]> gs).
Proof.
  intros Hi Hv Hc Hpre Hposs. pose proof Hc as [_ _ _ Hcap Hbound]. destruct (Hbound i g Hi) as [Hgb Hgp].
  assert (forall s' g', g_phase g' = g_phase g -> (g_bound g <= g_bound g' <= ps_nextRef s)%nat -> ps_nextRef s' = ps_nextRef s ->
    (forall b, c_inflight (ps_cells s' b) = c_inflight (ps_cells s b) /\ c_sem (ps_cells s' b) = c_sem (ps_cells s b)) ->
    ps_inflight s' = ps_inflight s -> counters s' (<[i := g']> gs)) as Hlearn by (intros; by eapply counters_learn).
  pose proof (fun s' g' => counters_step s s' gs i g g' Hi Hc) as Hstep.
  destruct s as [v cells nr rr inf rel nf op nraw].
  destruct e; cbn in Hpre, Hposs |- *; cbn in Hgb, Hgp, Hlearn, Hstep, Hcap.
  - by apply Hlearn.
  - destruct x as [[[[st h] len] id]|]; [|by apply Hlearn]. destruct Hpre as (b & t & Hp). rewrite Hp. destruct (isResponse st); [|by apply Hlearn].
    apply Hstep; solve_counts Hp Hgp Hcap.
  - destruct (g_phase g) as [| | | |b t [id'|]| | |] eqn:Hp; try (apply Hlearn; [done|lia|done|done|done]).
    destruct (Nat.eqb id id'); [|by apply Hlearn]. apply Hstep; solve_counts Hp Hgp Hcap.
  - by apply Hlearn.
  - subst x. apply Hlearn; [done| |done|done|done]. cbn. destruct Hv as [_ _ Hr]. cbn in Hr.
    assert (viewBound v <= nr)%nat; [|lia]. unfold viewBound. clear -Hr. induction Hr; cbn; lia.
  - by apply Hlearn.
  - by apply Hlearn.
  - by apply Hlearn.
  - destruct Hpre as (Hp & Hb & Hs). destruct x; [|by apply Hlearn].
    symmetry in Hposs. apply Z.ltb_lt in Hposs. apply Hstep; solve_counts Hp Hgp Hcap.
  - destruct Hpre as [Hp Hs]. apply Hstep; solve_counts Hp Hgp Hcap.
  - destruct Hpre as [(-> & Hb & Hp)|[-> Hp]]; cbn.
    + destruct (hasSem cfg) eqn:Hs; apply Hstep; solve_counts Hp Hgp Hcap.
    + apply Hstep; solve_counts Hp Hgp Hcap.
  - destruct Hpre as [[-> [b Hp]]|[-> [b Hp]]]; rewrite Hp.
    + apply Hstep; solve_counts Hp Hgp Hcap.
    + destruct (hasSem cfg) eqn:Hs; apply Hstep; solve_counts Hp Hgp Hcap.
  - destruct Hpre as [b Hp]. rewrite Hp. apply Hstep; solve_counts Hp Hgp Hcap.
  - destruct (g_phase g) as [| | | |b t' [id'|]| | |] eqn:Hp; try (apply Hlearn; [done|lia|done|done|done]).
    destruct (Nat.eqb t t'); [|by apply Hlearn]. apply Hstep; solve_counts Hp Hgp Hcap.
  - apply Hlearn; [done|lia|done| |done]. intros b'. cbn. by destruct (Nat.eqb_spec b' b) as [-> |].
  - apply Hlearn; [done|lia|done| |done]. intros b'. cbn. unfold passiveFailure. destruct (Nat.eqb_spec b' b) as [-> |]; [by repeat case_match|done].
  - done.
  - done.
Qed.

(** ** The flags *)

Record flags (s : pstate) (gs : list pghost) : Prop := {
  fl_released : forall t, t ∈ ps_released s -> (t < ps_nextFlag s)%nat;
  fl_known : forall i g, gs !! i = Some g -> g_flags g ⊆ ps_released s;
  fl_live : forall i g b t r, gs !! i = Some g -> g_phase g = Live b t r -> (t < ps_nextFlag s)%nat /\ t ∉ ps_released s;
  fl_own : forall i j g h b c t r q, gs !! i = Some g -> gs !! j = Some h -> g_phase g = Live b t r -> g_phase h = Live c t q -> i = j
}.

(** An effect that makes no flag and sets none. *)
Lemma flags_learn s s' gs i g g' : gs !! i = Some g -> flags s gs -> ps_released s' = ps_released s -> ps_nextFlag s' = ps_nextFlag s ->
  g_flags g' = g_flags g -> (forall b t r, g_phase g' = Live b t r -> exists q, g_phase g = Live b t q) -> flags s' (<[i := g']> gs).
Proof.
  intros Hi [H1 H2 H3 H4] Er En Ef Hl.
  assert (forall j h b t r, <[i := g']> gs !! j = Some h -> g_phase h = Live b t r -> exists h' q, gs !! j = Some h' /\ g_phase h' = Live b t q) as Hold.
  { intros j h b t r [(<- & <- & _)|[_ Hj]]%list_lookup_insert_Some E; [destruct (Hl _ _ _ E) as [q ?]|]; eauto. }
  split; rewrite ?Er, ?En.
  - done.
  - intros j h [(<- & <- & _)|[_ Hj]]%list_lookup_insert_Some; [rewrite Ef|]; eauto.
  - intros j h b t r Hj E. destruct (Hold _ _ _ _ _ Hj E) as (h' & q & Hh & E'). eauto.
  - intros j k h h' b c t r q Hj Hk E E'. destruct (Hold _ _ _ _ _ Hj E) as (? & ? & ? & ?), (Hold _ _ _ _ _ Hk E') as (? & ? & ? & ?). eauto.
Qed.

Lemma flags_new s s' gs i g g' b : gs !! i = Some g -> flags s gs -> ps_released s' = ps_released s -> ps_nextFlag s' = S (ps_nextFlag s) ->
  g_flags g' = g_flags g -> g_phase g' = Live b (ps_nextFlag s) None -> flags s' (<[i := g']> gs).
Proof.
  intros Hi [H1 H2 H3 H4] Er En Ef Hp. split; rewrite ?Er, ?En.
  - intros t Ht. specialize (H1 t Ht). lia.
  - intros j h [(<- & <- & _)|[_ Hj]]%list_lookup_insert_Some; [rewrite Ef|]; eauto.
  - intros j h c t r [(<- & <- & _)|[_ Hj]]%list_lookup_insert_Some E.
    + rewrite E in Hp. injection Hp as -> -> ->. split; [lia|]. intros Ht%H1. lia.
    + destruct (H3 _ _ _ _ _ Hj E). split; [lia|done].
  - intros j k h h' c c' t r q [(<- & <- & _)|[Hij Hj]]%list_lookup_insert_Some [(<- & <- & _)|[Hik Hk]]%list_lookup_insert_Some E E'; eauto; exfalso.
    + rewrite E in Hp. injection Hp as -> -> ->. destruct (H3 _ _ _ _ _ Hk E'). lia.
    + rewrite E' in Hp. injection Hp as -> -> ->. destruct (H3 _ _ _ _ _ Hj E). lia.
Qed.

Lemma flags_set s s' gs i g g' b t : gs !! i = Some g -> flags s gs -> ps_released s' = {[t]} ∪ ps_released s -> ps_nextFlag s' = ps_nextFlag s ->
  g_phase g = Live b t None -> g_phase g' = Uncounted0 b -> g_flags g' = {[t]} ∪ g_flags g -> flags s' (<[i := g']> gs).
Proof.
  intros Hi [H1 H2 H3 H4] Er En Hp Hp' Ef. split; rewrite ?Er, ?En.
  - intros t' [-> %elem_of_singleton|Ht]%elem_of_union; [by eapply H3|auto].
  - intros j h [(<- & <- & _)|[_ Hj]]%list_lookup_insert_Some; [rewrite Ef; specialize (H2 i g Hi)|specialize (H2 j h Hj)]; set_solver.
  - intros j h c t' r [(<- & <- & _)|[Hij Hj]]%list_lookup_insert_Some E; [congruence|]. destruct (H3 _ _ _ _ _ Hj E) as [? Ht]. split; [done|].
    intros [-> %elem_of_singleton|?]%elem_of_union; [|done]. by apply Hij, (H4 i j g h b c t None r).
  - intros j k h h' c c' t' r q [(<- & <- & _)|[_ Hj]]%list_lookup_insert_Some [(<- & <- & _)|[_ Hk]]%list_lookup_insert_Some E E'; (congruence || eauto).
Qed.

(** The answers are those the protocol assumes. *)
Lemma possible_env s gs i g {X} (e : oeff X) x : gs !! i = Some g -> view_ok s -> flags s gs ->
  lg_pre (protocol cfg) e g -> possible cfg s e x -> lg_env (protocol cfg) e x g.
Proof.
  intros Hi [_ Hv _] [_ H2 H3 _] Hpre Hposs. destruct e; cbn in *; try done.
  - by subst.
  - subst x. rewrite bool_decide_eq_true. split.
    + intros Ht. destruct Hpre as [?|Hin]; [done|]. destruct Ht. by apply (H2 i g Hi).
    + intros [b Hp]. by destruct (H3 _ _ _ _ _ Hi Hp).
Qed.

Lemma flags_after s gs i g {X} (e : oeff X) x : gs !! i = Some g -> flags s gs ->
  lg_pre (protocol cfg) e g -> possible cfg s e x -> flags (after s e x) (<[i := lg_upd (protocol cfg) e x g]> gs).
Proof.
  intros Hi Hf Hpre Hposs.
  pose proof (fun s' g' => flags_learn s s' gs i g g' Hi Hf) as Hlearn. pose proof (fun s' g' b => flags_new s s' gs i g g' b Hi Hf) as Hnew.
  pose proof (fun s' g' b t => flags_set s s' gs i g g' b t Hi Hf) as Hset. destruct Hf as [H1 H2 H3 H4].
  destruct s as [v cells nr rr inf rel nf op nraw]. destruct e; cbn in Hpre, Hposs |- *; cbn in Hlearn, Hnew, Hset, H2, H3;
    try (apply Hlearn; [repeat case_match; simplify_eq; try done|..]; cbn; intros; repeat (case_match; cbn in * ); simplify_eq; eauto; fail).
  - destruct x as [[[[st h] len] id]|]; [|apply Hlearn; eauto]. destruct Hpre as (b & t & Hp). rewrite Hp.
    destruct (isResponse st); (apply Hlearn; [done|done|done|]); cbn; rewrite ?Hp; intros ? ? ? [= <- <- <-]; eauto.
  - destruct (g_phase g) as [| | | |b t [id'|]| | |] eqn:Hp; try (apply Hlearn; [done|done|done|]; rewrite Hp; eauto).
    destruct (Nat.eqb id id'); (apply Hlearn; [done|done|done|]); cbn; rewrite ?Hp; intros ? ? ? [= <- <- <-]; eauto.
  - destruct Hpre as [[-> [b Hp]]|[-> [b Hp]]]; rewrite Hp; apply Hlearn; try done. cbn. intros ? ? ?. by destruct (hasSem cfg).
  - destruct Hpre as [b Hp]. rewrite Hp. subst x. by apply (Hnew _ _ b).
  - destruct Hpre as [[b Hp]|Ht].
    + rewrite Hp, Nat.eqb_refl. by apply (Hset _ _ b t).
    + assert (t ∈ rel) as Hrel by by apply (H2 i g Hi). assert ({[t]} ∪ rel = rel) as -> by set_solver.
      assert (match g_phase g with Live b t' None => if Nat.eqb t t' then mkPghost (Uncounted0 b) ({[t]} ∪ g_flags g) (g_raws g) (g_bound g) else g | _ => g end = g) as ->.
      { destruct (g_phase g) as [| | | |b t' [id'|]| | |] eqn:Hp; try done. destruct (H3 _ _ _ _ _ Hi Hp). by destruct (Nat.eqb_spec t t') as [-> |]. }
      apply Hlearn; eauto.
Qed.

(** ** The bodies *)

Definition liveRaw (g : pghost) : option nat := match g_phase g with Live _ _ r => r | _ => None end.

Record held_bodies (s : pstate) (gs : list pghost) : Prop := {
  bd_known : forall i g (id : nat), gs !! i = Some g -> id ∈ g_raws g -> (id < ps_nextRaw s)%nat;
  bd_live : forall i g id, gs !! i = Some g -> liveRaw g = Some id -> (id < ps_nextRaw s)%nat;
  bd_shared : forall i j g h (id : nat), gs !! i = Some g -> gs !! j = Some h -> liveRaw g = Some id -> id ∉ g_raws h;
  bd_own : forall i j g h id, gs !! i = Some g -> gs !! j = Some h -> liveRaw g = Some id -> liveRaw h = Some id -> i = j;
  bd_open : forall id st, ps_open s !! id = Some st -> (id < ps_nextRaw s)%nat /\
    (isResponse st = true -> exists i g, gs !! i = Some g /\ liveRaw g = Some id)
}.

(** The holders of open responses, with one attempt changed. *)
Lemma holder_insert (gs : list pghost) i g g' id : gs !! i = Some g -> (liveRaw g = Some id -> liveRaw g' = Some id) ->
  (exists j h, gs !! j = Some h /\ liveRaw h = Some id) -> exists j h, <[i := g']> gs !! j = Some h /\ liveRaw h = Some id.
Proof.
  intros Hi Hl (j & h & Hj & Hh). destruct (decide (i = j)) as [<- |Hij].
  - exists i, g'. split; [apply list_lookup_insert_eq; by eapply lookup_lt_Some|]. apply Hl. congruence.
  - exists j, h. by rewrite list_lookup_insert_ne.
Qed.

Lemma bodies_learn s s' gs i g g' : gs !! i = Some g -> held_bodies s gs -> ps_open s' = ps_open s -> ps_nextRaw s' = ps_nextRaw s ->
  g_raws g' = g_raws g -> liveRaw g' = liveRaw g -> held_bodies s' (<[i := g']> gs).
Proof.
  intros Hi [H1 H2 H3 H4 H5] Eo En Er El.
  assert (forall j h, <[i := g']> gs !! j = Some h -> exists h', gs !! j = Some h' /\ g_raws h' = g_raws h /\ liveRaw h' = liveRaw h) as Hold.
  { intros j h [(<- & <- & _)|[_ Hj]]%list_lookup_insert_Some; eauto. }
  split; rewrite ?Eo, ?En.
  - intros j h id (h' & Hj & <- & _)%Hold. eauto.
  - intros j h id (h' & Hj & _ & <-)%Hold. eauto.
  - intros j k h m id (h' & Hj & _ & <-)%Hold (m' & Hk & <- & _)%Hold. eauto.
  - intros j k h m id (h' & Hj & _ & <-)%Hold (m' & Hk & _ & <-)%Hold. eauto.
  - intros id st Hst. destruct (H5 id st Hst) as [? Hh]. split; [done|]. intros Hr. eapply holder_insert; [done|congruence|auto].
Qed.

(** An answer whose body the attempt holds. *)
Lemma bodies_hold s s' gs i g g' st : gs !! i = Some g -> held_bodies s gs -> ps_open s' = <[ps_nextRaw s := st]> (ps_open s) -> ps_nextRaw s' = S (ps_nextRaw s) ->
  g_raws g' = g_raws g -> liveRaw g = None -> liveRaw g' = Some (ps_nextRaw s) -> held_bodies s' (<[i := g']> gs).
Proof.
  intros Hi [H1 H2 H3 H4 H5] Eo En Er El El'. split; rewrite ?Eo, ?En.
  - intros j h id [(<- & <- & _)|[_ Hj]]%list_lookup_insert_Some Hid; [rewrite Er in Hid|]; eapply Nat.lt_lt_succ_r; eauto.
  - intros j h id [(<- & <- & _)|[_ Hj]]%list_lookup_insert_Some Hid; [simplify_eq; lia|]. eapply Nat.lt_lt_succ_r; eauto.
  - assert (forall k m, <[i := g']> gs !! k = Some m -> exists m', gs !! k = Some m' /\ g_raws m = g_raws m') as Hold.
    { intros k m [(<- & <- & _)|[_ Hk]]%list_lookup_insert_Some; eauto. }
    intros j k h m id [(<- & <- & _)|[_ Hj]]%list_lookup_insert_Some (m' & Hk & ->)%Hold Hid; [|eauto].
    intros Hin%(H1 k m'); [|done]. simplify_eq. lia.
  - intros j k h m id [(<- & <- & _)|[_ Hj]]%list_lookup_insert_Some [(<- & <- & _)|[_ Hk]]%list_lookup_insert_Some Hh Hm; [done| | |eauto]; simplify_eq.
    + specialize (H2 k m _ Hk Hm). lia.
    + specialize (H2 j h _ Hj Hh). lia.
  - intros id st' [[<- <-]|[Hne Hst]]%lookup_insert_Some.
    + split; [lia|]. intros _. exists i, g'. split; [apply list_lookup_insert_eq; by eapply lookup_lt_Some|done].
    + destruct (H5 id st' Hst) as [? Hh]. split; [lia|]. intros Hr. eapply holder_insert; [done|congruence|auto].
Qed.

(** An answer that becomes an error. *)
Lemma bodies_error s s' gs i g g' st : gs !! i = Some g -> held_bodies s gs -> ps_open s' = <[ps_nextRaw s := st]> (ps_open s) -> ps_nextRaw s' = S (ps_nextRaw s) ->
  g_raws g' = {[ps_nextRaw s]} ∪ g_raws g -> liveRaw g' = liveRaw g -> isResponse st = false -> held_bodies s' (<[i := g']> gs).
Proof.
  intros Hi [H1 H2 H3 H4 H5] Eo En Er El Hst.
  assert (forall j h, <[i := g']> gs !! j = Some h -> exists h', gs !! j = Some h' /\ liveRaw h = liveRaw h' /\ g_raws h ⊆ {[ps_nextRaw s]} ∪ g_raws h') as Hold.
  { intros j h [(<- & <- & _)|[_ Hj]]%list_lookup_insert_Some; [exists g; by rewrite Er|exists h; split_and!; [done|done|set_solver]]. }
  split; rewrite ?Eo, ?En.
  - intros j h id (h' & Hj & _ & Hr)%Hold [-> %elem_of_singleton|Hid]%Hr%elem_of_union; [lia|]. eapply Nat.lt_lt_succ_r; eauto.
  - intros j h id (h' & Hj & -> & _)%Hold Hid. eapply Nat.lt_lt_succ_r; eauto.
  - intros j k h m id (h' & Hj & -> & _)%Hold (m' & Hk & _ & Hr)%Hold Hid [-> %elem_of_singleton|Hin]%Hr%elem_of_union.
    + specialize (H2 j h' _ Hj Hid). lia.
    + by apply (H3 j k h' m' id).
  - intros j k h m id (h' & Hj & -> & _)%Hold (m' & Hk & -> & _)%Hold. eauto.
  - intros id st' [[<- <-]|[Hne Hst']]%lookup_insert_Some; [split; [lia|congruence]|].
    destruct (H5 id st' Hst') as [? Hh]. split; [lia|]. intros Hr. eapply holder_insert; [done|congruence|auto].
Qed.

(** A close: the body is the attempt's own, or nobody's. *)
Lemma bodies_close s s' gs i g g' (id : nat) : gs !! i = Some g -> held_bodies s gs -> ps_open s' = delete id (ps_open s) -> ps_nextRaw s' = ps_nextRaw s ->
  g_raws g' ⊆ {[id]} ∪ g_raws g -> liveRaw g = Some id /\ liveRaw g' = None \/ id ∈ g_raws g /\ liveRaw g' = liveRaw g ->
  held_bodies s' (<[i := g']> gs).
Proof.
  intros Hi [H1 H2 H3 H4 H5] Eo En Er El.
  assert (forall j h (id' : nat), <[i := g']> gs !! j = Some h -> liveRaw h = Some id' -> id' <> id /\ exists h', gs !! j = Some h' /\ liveRaw h' = Some id') as Hlive.
  { intros j h id' [(<- & <- & _)|[Hij Hj]]%list_lookup_insert_Some Hh; [destruct El as [[_ ?]|[Hin E]]; [congruence|]|].
    - split; [|exists g; by rewrite <- E]. intros ->. apply (H3 i i g g id); congruence.
    - split; [|eauto]. intros ->. destruct El as [[Hg _]|[Hin _]]; [by apply Hij, (H4 i j g h id)|by apply (H3 j i h g id)]. }
  assert (forall j h, <[i := g']> gs !! j = Some h -> exists h', gs !! j = Some h' /\ g_raws h ⊆ {[id]} ∪ g_raws h') as Hraws.
  { intros j h [(<- & <- & _)|[_ Hj]]%list_lookup_insert_Some; [eauto|exists h; split; [done|set_solver]]. }
  assert (id < ps_nextRaw s)%nat as Hid by (destruct El as [[? _]|[? _]]; eauto).
  split; rewrite ?Eo, ?En.
  - intros j h id' (h' & Hj & Hr)%Hraws [-> %elem_of_singleton|Hin]%Hr%elem_of_union; eauto.
  - intros j h id' Hj Hh. destruct (Hlive _ _ _ Hj Hh) as (_ & h' & ? & ?). eauto.
  - intros j k h m id' Hj (m' & Hk & Hr)%Hraws Hh. destruct (Hlive _ _ _ Hj Hh) as (Hne & h' & ? & ?).
    intros [-> %elem_of_singleton|Hin]%Hr%elem_of_union; [done|]. by apply (H3 j k h' m' id').
  - intros j k h m id' Hj Hk Hh Hm. destruct (Hlive _ _ _ Hj Hh) as (_ & h' & ? & ?), (Hlive _ _ _ Hk Hm) as (_ & m' & ? & ?). eauto.
  - intros id' st [Hne Hst]%lookup_delete_Some. destruct (H5 id' st Hst) as [? Hh]. split; [done|]. intros Hr.
    eapply holder_insert; [done| |auto]. destruct El as [[? _]|[_ ->]]; [congruence|done].
Qed.

Lemma bodies_after s gs i g {X} (e : oeff X) x : gs !! i = Some g -> held_bodies s gs ->
  lg_pre (protocol cfg) e g -> possible cfg s e x -> held_bodies (after s e x) (<[i := lg_upd (protocol cfg) e x g]> gs).
Proof.
  intros Hi Hb Hpre Hposs. pose proof (fun s' g' => bodies_learn s s' gs i g g' Hi Hb) as Hlearn.
  pose proof (fun s' g' st => bodies_hold s s' gs i g g' st Hi Hb) as Hhold. pose proof (fun s' g' st => bodies_error s s' gs i g g' st Hi Hb) as Herror.
  pose proof (fun s' g' id => bodies_close s s' gs i g g' id Hi Hb) as Hclose. destruct Hb as [_ _ H3 _ _].
  destruct s as [v cells nr rr inf rel nf op nraw].
  destruct e; cbn in Hpre, Hposs |- *; cbn in Hlearn, Hhold, Herror, Hclose; unfold liveRaw in *.
  - by apply Hlearn.
  - destruct x as [[[[st h] len] id]|]; [|by apply Hlearn]. destruct Hpre as (b & t & Hp). rewrite Hp in *. subst id.
    destruct (isResponse st) eqn:Est; [by apply (Hhold _ _ st)|]. by apply (Herror _ _ st).
  - apply (Hclose _ _ id); try done.
    + destruct (g_phase g) as [| | | |b t [id'|]| | |]; try apply union_subseteq_r. by destruct (Nat.eqb id id'); [|apply union_subseteq_r].
    + destruct Hpre as [(b & t & Hp)|Hin]; [left; rewrite Hp; by rewrite Nat.eqb_refl|right; split; [done|]].
      destruct (g_phase g) as [| | | |b t [id'|]| | |] eqn:Hp; rewrite ?Hp; try done.
      destruct (Nat.eqb_spec id id') as [<- |]; [|by rewrite Hp]. destruct (H3 i i g g id Hi Hi); by rewrite ?Hp.
  - by apply Hlearn.
  - by apply Hlearn.
  - by apply Hlearn.
  - by apply Hlearn.
  - by apply Hlearn.
  - destruct Hpre as (Hp & _). destruct x; apply Hlearn; rewrite ?Hp; done.
  - destruct Hpre as [Hp _]. apply Hlearn; rewrite ?Hp; done.
  - destruct Hpre as [(-> & _ & Hp)|[-> Hp]]; apply Hlearn; rewrite ?Hp; try done. by destruct (hasSem cfg).
  - destruct Hpre as [[-> [b Hp]]|[-> [b Hp]]]; rewrite Hp; apply Hlearn; rewrite ?Hp; try done. cbn. by destruct (hasSem cfg).
  - destruct Hpre as [b Hp]. rewrite Hp. apply Hlearn; rewrite ?Hp; done.
  - apply Hlearn; try done; destruct (g_phase g) as [| | | |b t' [id'|]| | |] eqn:Hp; rewrite ?Hp; try done; destruct (Nat.eqb t t'); rewrite ?Hp; done.
  - by apply Hlearn.
  - by apply Hlearn.
  - done.
  - done.
Qed.

(** ** The invariant *)

Definition invariant (σ : pstate * list (oprog unit)) : Prop :=
  exists gs, Forall2 (fun t g => owp (protocol cfg) t (fun _ g' => g_phase g' = Idle) g) (snd σ) gs /\
    view_ok (fst σ) /\ counters (fst σ) gs /\ flags (fst σ) gs /\ held_bodies (fst σ) gs.

Lemma view_after s {X} (e : oeff X) x : view_ok s -> view_ok (after s e x).
Proof.
  intros [H1 H2 H3]. assert (ps_view (after s e x) = ps_view s /\ ps_nextRef (after s e x) = ps_nextRef s) as [Ev En].
  { destruct s, e; try done; [by destruct x as [[[[? ?] ?] ?]|]|by destruct x]. }
  split; by rewrite Ev, ?En.
Qed.

Lemma invariant_run s ts i {X} (e : oeff X) k x : ts !! i = Some (ODo e k) -> possible cfg s e x ->
  invariant (s, ts) -> invariant (after s e x, <[i := k x]> ts).
Proof.
  intros Hi Hposs (gs & Hts & Hv & Hc & Hf & Hb). cbn [fst snd] in *.
  destruct (Forall2_lookup_l _ _ _ _ _ Hts Hi) as (g & Hg & [Hpre Hk]).
  pose proof (possible_env _ _ _ _ _ _ Hg Hv Hf Hpre Hposs) as Henv. exists (<[i := lg_upd (protocol cfg) e x g]> gs). split_and!; cbn [fst snd].
  - by apply Forall2_insert; [|apply Hk].
  - by apply view_after.
  - by apply counters_after.
  - by apply flags_after.
  - by apply bodies_after.
Qed.

Definition newGhost : pghost := mkPghost Idle ∅ ∅ 0.

(** An attempt among the old ones and a new one. *)
Lemma lookup_new (gs : list pghost) i g : (gs ++ [newGhost]) !! i = Some g -> gs !! i = Some g \/ g = newGhost.
Proof. intros [Hi|[_ Hi]]%lookup_app_Some; [by left|]. right. by apply list_lookup_singleton_Some in Hi as [_ <-]. Qed.

Lemma invariant_start s ts fuel cx q extra : invariant (s, ts) -> invariant (s, ts ++ [request md5 servers u cfg fuel cx q extra]).
Proof.
  intros (gs & Hts & Hv & Hc & Hf & Hb). cbn [fst snd] in *. exists (gs ++ [newGhost]). cbn [fst snd]. split_and!.
  - apply Forall2_app; [done|]. by constructor; [apply request_protocol|constructor].
  - done.
  - destruct Hc as [H1 H2 H3 H4 H5].
    assert (forall b, token b newGhost = 0) as Ht by (intros b; unfold token; by destruct (hasSem cfg)).
    split; [intros b|intros b| |done|]; rewrite ?sumZ_app; cbn [sumZ]; rewrite ?Ht, ?H1, ?H2, ?H3; [cbn; lia|lia|cbn; lia|].
    intros i g [Hi| ->]%lookup_new; [eauto|]. split; [cbn; lia|done].
  - destruct Hf as [H1 H2 H3 H4]. split; [done|intros i g [Hi| ->]%lookup_new; [eauto|done]|intros i g b t r [Hi| ->]%lookup_new; [eauto|done]|].
    intros i j g h b c t r r' Hi Hj Hp Hq.
    destruct (lookup_new _ _ _ Hi) as [?| ->], (lookup_new _ _ _ Hj) as [?| ->]; try done. eauto.
  - destruct Hb as [H1 H2 H3 H4 H5]. split.
    + intros i g id [Hi| ->]%lookup_new; [eauto|]. by intros ?%not_elem_of_empty.
    + intros i g id [Hi| ->]%lookup_new; [eauto|done].
    + intros i j g h id [Hi| ->]%lookup_new [Hj| ->]%lookup_new Hg; [eauto|apply not_elem_of_empty|done|done].
    + intros i j g h id [Hi| ->]%lookup_new [Hj| ->]%lookup_new Hg Hh; [eauto|done|done|done].
    + intros id st Hst. destruct (H5 id st Hst) as [? Hh]. split; [done|]. intros Hr. destruct (Hh Hr) as (i & g & Hi & Hg).
      exists i, g. split; [by apply lookup_app_l_Some|done].
Qed.

(** What changes neither the attempts nor what they hold: counters may be those of new
    backends. *)
Lemma invariant_frame s s' ts : view_ok s' -> (ps_nextRef s <= ps_nextRef s')%nat ->
  (forall b, c_inflight (ps_cells s' b) = c_inflight (ps_cells s b) /\ c_sem (ps_cells s' b) = c_sem (ps_cells s b) \/
     (ps_nextRef s <= b)%nat /\ c_inflight (ps_cells s' b) = 0 /\ c_sem (ps_cells s' b) = 0) ->
  ps_inflight s' = ps_inflight s -> ps_released s' = ps_released s -> ps_nextFlag s' = ps_nextFlag s -> ps_open s' = ps_open s -> ps_nextRaw s' = ps_nextRaw s ->
  invariant (s, ts) -> invariant (s', ts).
Proof.
  intros Hv Hn Hcells Ei Er En Eo Ew (gs & Hts & _ & [H1 H2 H3 H4 H5] & [F1 F2 F3 F4] & [B1 B2 B3 B4 B5]). cbn [fst snd] in *. exists gs. cbn [fst snd].
  assert (forall b f, (ps_nextRef s <= b)%nat -> (forall g, placeOf (g_phase g) <> Some b -> f g = 0) -> sumZ f gs = 0) as Hz.
  { intros b f Hb Hf. rewrite (sumZ_const _ _ 0); [lia|]. intros g [i Hi]%list_elem_of_lookup_1. apply Hf.
    destruct (H5 i g Hi) as [? Hp]. intros E. specialize (Hp b E). lia. }
  split_and!; [done|done| |split; by rewrite ?Er, ?En|split; by rewrite ?Eo, ?Ew].
  split; [| | |intros b; destruct (Hcells b) as [[_ ->]|(_ & _ & ->)]; [done|lia]|].
  - intros b. destruct (Hcells b) as [[-> _]|(Hb & -> & _)]; [done|]. symmetry. apply (Hz b); [done|]. intros g Hg. unfold counted, is_at.
    rewrite bool_decide_eq_false_2 by done. by destruct (g_phase g).
  - intros b. destruct (Hcells b) as [[_ ->]|(Hb & _ & ->)]; [done|]. symmetry. apply (Hz b); [done|]. intros g Hg. unfold token, is_at.
    rewrite bool_decide_eq_false_2 by done. by destruct (hasSem cfg).
  - by rewrite Ei.
  - intros i g Hi. destruct (H5 i g Hi). split; [lia|done].
Qed.

Lemma invariant_step σ σ' : sstep md5 servers u cfg newOrigin σ σ' -> invariant σ -> invariant σ'.
Proof.
  intros [s ts i X e k x Hi Hx|s ts fuel cx q extra|s ts b spec answer|s ts desired failed olds s' Hnd Hperm Hr].
  - by apply invariant_run.
  - by apply invariant_start.
  - intros Hinv. assert (view_ok s) as [? ? ?] by by destruct Hinv as (? & _ & ? & _). revert Hinv.
    apply invariant_frame; try done. intros b'. left. cbn. by destruct (Nat.eqb_spec b' b) as [-> |].
  - intros Hinv. assert (view_ok s) as Hv by by destruct Hinv as (? & _ & ? & _). revert Hinv.
    destruct (reconcile_spec _ _ _ _ _ _ _ _ Hv Hnd Hperm Hr) as [Hv' _ _ _ Hn Hcells (? & ? & ? & ? & ?)].
    apply invariant_frame; try done. intros b. rewrite Hcells. destruct (Nat.leb_spec (ps_nextRef s) b); [|by left].
    destruct (Nat.ltb_spec b (ps_nextRef s')); [by right|by left].
Qed.

Lemma invariant_empty : invariant (emptyPool cfg, []).
Proof.
  exists []. split_and!; cbn; [by constructor| | |split; cbn; try done; set_solver|].
  - split; cbn; [by constructor|done|by constructor].
  - split; cbn; [done|done|done|lia|done].
  - split; cbn; try done.
Qed.

Lemma invariant_reachable σ : reachable md5 servers u cfg newOrigin σ -> invariant σ.
Proof.
  intros Hr. pose proof invariant_empty as H0. revert H0. induction Hr as [|? ? ? Hstep _ IH]; [done|]. intros H. by apply IH, (invariant_step _ _ Hstep).
Qed.

Definition openResponses (s : pstate) : gmap nat Z := filter (fun p => isResponse (snd p) = true) (ps_open s).

(** The pool's counter bounds the responses that are open. *)
Lemma open_entered s gs : held_bodies s gs -> Z.of_nat (size (openResponses s)) <= sumZ entered gs.
Proof.
  intros [_ _ _ _ H5]. transitivity (Z.of_nat (length (omap liveRaw gs))).
  - rewrite <- length_map_to_list, <- (length_fmap fst). apply inj_le, submseteq_length, NoDup_submseteq; [apply NoDup_fst_map_to_list|].
    intros id ([id' st] & -> & Hin%elem_of_map_to_list)%list_elem_of_fmap. apply map_lookup_filter_Some in Hin as [Hst Hr]. cbn in *.
    destruct (H5 id' st Hst) as [_ Hh]. destruct (Hh Hr) as (i & g & Hi & Hg). apply list_elem_of_omap. exists g. split; [by eapply list_elem_of_lookup_2|done].
  - clear. induction gs as [|g gs IH]; [done|]. cbn. unfold liveRaw, entered at 1. destruct (g_phase g) as [| | | |? ? [?|]| | |]; cbn; unfold liveRaw in *; lia.
Qed.

(** C6. The accounting of a pool is exact. Whatever requests run at once, interleaved at
    every step with each other, with probes and with new resolutions, and however often a
    body is closed: no counter is ever negative; with a limit, no backend ever serves
    more requests at once than it, and returning a token never blocks; every response that
    is open is counted by the pool; and when every request has closed what it was given,
    all the counters are zero and no response is open. *)
Theorem pool_accounting s ts : reachable md5 servers u cfg newOrigin (s, ts) ->
  (forall b, 0 <= c_inflight (ps_cells s b) /\ 0 <= c_sem (ps_cells s b) /\
     (0 < pc_maxConns cfg -> c_inflight (ps_cells s b) <= c_sem (ps_cells s b) <= pc_maxConns cfg)) /\
  (forall i b k, ts !! i = Some (ODo (ReleaseSem b) k) -> 0 < c_sem (ps_cells s b)) /\
  Z.of_nat (size (openResponses s)) <= ps_inflight s /\
  (Forall (fun t => t = ODone tt) ts ->
     ps_inflight s = 0 /\ openResponses s = ∅ /\ forall b, c_inflight (ps_cells s b) = 0 /\ c_sem (ps_cells s b) = 0).
Proof.
  intros Hr. destruct (invariant_reachable _ Hr) as (gs & Hts & _ & [H1 H2 H3 H4 _] & _ & Hb). cbn [fst snd] in *.
  assert (forall b g, 0 <= counted b g /\ 0 <= token b g /\ (hasSem cfg = true -> counted b g <= token b g)) as Hw.
  { intros b g. unfold counted, token, is_at. destruct (hasSem cfg), (bool_decide _), (g_phase g); lia. }
  pose proof (open_entered _ _ Hb) as Hopen. rewrite <- H3 in Hopen. split_and!; [| |done|].
  - intros b. rewrite H1, H2. split_and!; [apply sumZ_nonneg; intros; apply Hw|apply sumZ_nonneg; intros; apply Hw|]. intros Hm.
    split; [|rewrite <- H2; specialize (H4 b); lia]. apply sumZ_le. intros g _. apply Hw. unfold hasSem. by apply Z.ltb_lt.
  - intros i b k Hi. destruct (Forall2_lookup_l _ _ _ _ _ Hts Hi) as (g & Hg & [[Hp Hs] _]). rewrite H2.
    enough (token b g <= sumZ (token b) gs) by (unfold token, is_at in *; rewrite Hp, Hs in *; cbn in *; rewrite bool_decide_eq_true_2 in * by done; lia).
    eapply sumZ_elem_le; [|exact Hg]. apply list.Forall_forall. intros. apply Hw.
  - intros Hdone. assert (forall g, g ∈ gs -> g_phase g = Idle) as Hidle.
    { intros g [i Hi]%list_elem_of_lookup_1. destruct (Forall2_lookup_r _ _ _ _ _ Hts Hi) as (t & Ht & Ho). rewrite Forall_lookup in Hdone.
      by rewrite (Hdone i t Ht) in Ho. }
    assert (ps_inflight s = 0) as H0. { rewrite H3, (sumZ_const _ _ 0); [lia|]. intros g Hg. unfold entered. by rewrite (Hidle g Hg). }
    split_and!; [done|apply map_size_empty_inv; lia|]. intros b. rewrite H1, H2, !(sumZ_const _ _ 0); [lia| |]; intros g Hg; unfold counted, token; rewrite (Hidle g Hg); [by destruct (hasSem cfg)|done].
Qed.
End Invariant.

(** ** A run *)

Section Example.
Definition oneConfig : poolConfig := mkPoolConfig RoundRobin ShardNone None 1 4.
Definition oneOrigin (e : endpoint) : option nat := Some 0%nat.
Definition oneServer (o : nat) : httpOrigin := mkHttpOrigin o [] HostPreserve [].

(** One answer of every effect: servers answer 200 at once. *)
Definition answer (s : pstate) {X : Type} (e : oeff X) : option X :=
  match e in oeff X return option X with
  | CtxErr => Some false
  | Exchange _ _ => Some (Some (200, ∅, 5, ps_nextRaw s))
  | Clock => Some 0
  | Snapshot _ => Some (ps_view s)
  | Eligible b now => Some (eligible (ps_cells s b) now)
  | InflightOf b => Some (c_inflight (ps_cells s b))
  | NextRR _ => Some (ps_rr s mod 2 ^ 64)
  | TryAcquire b => Some (c_sem (ps_cells s b) <? pc_maxConns oneConfig)
  | ReleaseSem b => if 0 <? c_sem (ps_cells s b) then Some tt else None
  | NewFlag => Some (ps_nextFlag s)
  | SwapFlag t => Some (bool_decide (t ∉ ps_released s))
  | CloseRaw _ | AddInflight _ _ | AddPool _ _ | PassiveSuccess _ | PassiveFailure _ _ => Some tt
  | Panic | Diverge => None
  end.

Definition oneTurn (i : nat) (σ : pstate * list (oprog unit)) : option (pstate * list (oprog unit)) :=
  let '(s, ts) := σ in
  match ts !! i with
  | Some (ODo e k) => match answer s e with Some x => Some (after s e x, <[i := k x]> ts) | None => None end
  | _ => None
  end.

Fixpoint schedule (ts : list nat) (σ : pstate * list (oprog unit)) : option (pstate * list (oprog unit)) :=
  match ts with
  | [] => Some σ
  | i :: ts => match oneTurn i σ with Some σ => schedule ts σ | None => None end
  end.

Abbreviation one_step := (sstep toyDigest oneServer 0 oneConfig oneOrigin).
Abbreviation one_reachable := (reachable toyDigest oneServer 0 oneConfig oneOrigin).

Lemma oneTurn_step i σ σ' : oneTurn i σ = Some σ' -> one_step σ σ'.
Proof.
  destruct σ as [s ts]. unfold oneTurn. destruct (ts !! i) as [[|X e k]|] eqn:Hi; [done| |done].
  destruct (answer s e) as [x|] eqn:Ex; [|done]. intros [= <-]. apply SRun with (1 := Hi).
  destruct e; cbn in *; simplify_eq; try done. destruct (Z.ltb_spec 0 (c_sem (ps_cells s b))); done.
Qed.

Lemma schedule_reachable l σ σ' : one_reachable σ -> schedule l σ = Some σ' -> one_reachable σ'.
Proof.
  revert σ. induction l as [|i l IH]; intros σ Hr; cbn [schedule]; [by intros [= <-]|].
  destruct (oneTurn i σ) as [σ1|] eqn:E; [|done]. apply IH. eapply rtc_r; [exact Hr|]. by eapply oneTurn_step.
Qed.

Definition oneEndpoint : endpoint := mkEndpoint (go "a") (go "http://a:80") (go "a").
Definition onePool : pstate :=
  match reconcile toyDigest oneConfig oneOrigin [oneEndpoint] [] [] (emptyPool oneConfig) with Ok s => s | _ => emptyPool oneConfig end.
Definition oneRequest : oprog unit := request toyDigest oneServer 0 oneConfig 3 (mkOctx [] []) getPage 1.

Lemma onePool_reachable : one_reachable (onePool, [oneRequest; oneRequest]).
Proof.
  eapply rtc_r; [eapply rtc_r; [eapply rtc_r; [apply rtc_refl|]|]|].
  - apply (SReconcile _ _ _ _ _ _ _ [oneEndpoint] [] [] onePool); [by apply NoDup_singleton|done|vm_compute; reflexivity].
  - apply (SStart _ _ _ _ _ _ [] 3 (mkOctx [] []) getPage 1).
  - apply (SStart _ _ _ _ _ _ [oneRequest] 3 (mkOctx [] []) getPage 1).
Qed.

Definition observed (σ : option (pstate * list (oprog unit))) : option (Z * Z * Z * nat) :=
  match σ with Some (s, _) => Some (c_inflight (ps_cells s 0%nat), c_sem (ps_cells s 0%nat), ps_inflight s, size (openResponses s)) | None => None end.

(** The first request has its response, and the second finds the backend at its limit. *)
Definition turns : list nat := repeat 0%nat 11 ++ repeat 1%nat 6.

Lemma pool_accounting_witness : exists s ts,
  schedule turns (onePool, [oneRequest; oneRequest]) = Some (s, ts) /\ observed (Some (s, ts)) = Some (1, 1, 1, 1%nat) /\
  Z.of_nat (size (openResponses s)) <= ps_inflight s /\ c_inflight (ps_cells s 0%nat) <= 1.
Proof.
  destruct (schedule turns (onePool, [oneRequest; oneRequest])) as [[s ts]|] eqn:E.
  - assert (observed (Some (s, ts)) = Some (1, 1, 1, 1%nat)) as Ho by (rewrite <- E; vm_compute; reflexivity).
    destruct (pool_accounting toyDigest oneServer 0 oneConfig oneOrigin s ts (schedule_reachable _ _ _ onePool_reachable E)) as (Hb & _ & Hopen & _).
    exists s, ts. split; [reflexivity|]. split; [exact Ho|]. split; [exact Hopen|].
    destruct (Hb 0%nat) as (_ & _ & Hl). specialize (Hl eq_refl). destruct Hl as [H1 H2]. change (pc_maxConns oneConfig) with 1 in H2. lia.
  - exfalso. assert (observed None = Some (1, 1, 1, 1%nat)) as Ho by (rewrite <- E; vm_compute; reflexivity). discriminate Ho.
Defined.

Lemma reconcile_keeps_witness : exists s,
  reconcile toyDigest oneConfig oneOrigin [] [go "a"] (fst (fst (ps_view onePool))) onePool = Ok s /\
  map b_id (fst (fst (ps_view s))) = [go "a"] /\ ps_cells s 0%nat = ps_cells onePool 0%nat.
Proof.
  destruct (reconcile_keeps toyDigest oneConfig oneOrigin onePool [] [go "a"] (fst (fst (ps_view onePool)))) as (s & Hs & _ & _ & Hold & _).
  - split; [vm_compute; apply NoDup_singleton|vm_compute; reflexivity|vm_compute; constructor; [lia|constructor]].
  - constructor.
  - reflexivity.
  - vm_compute. discriminate.
  - vm_compute. discriminate.
  - exists s. split; [exact Hs|]. split.
    + assert (match reconcile toyDigest oneConfig oneOrigin [] [go "a"] (fst (fst (ps_view onePool))) onePool with Ok s => Some (map b_id (fst (fst (ps_view s)))) | _ => None end
        = Some [go "a"]) as H by (vm_compute; reflexivity). rewrite Hs in H. injection H as H. exact H.
    + apply (Hold (mkBackend 0 (go "a") (go "http://a:80") (go "a") 0)). vm_compute. left.
Defined.
End Example.
